(* ===== verification/_CoqProject ===== *)
-Q . S2P
Prelude.v
GoList.v
GoStrings.v
GoPath.v
GoSort.v
GoUrl.v
ChunkKeys.v
ChunkStore.v
ChunkMemory.v
ChunkDisk.v
ChunkRestart.v
ChunkCache.v
ChunkProps.v
TaskHeap.v
QueueProps.v
StreamConfig.v
Access.v
AccessProps.v
Manager.v
ManagerTasks.v
ManagerSteps.v
ManagerTable.v
ManagerQueue.v
ManagerInv.v
ManagerFrame.v
ManagerRead.v
ManagerContent.v
ManagerServes.v
ManagerSeek.v
ManagerDemo.v
ManagerProps.v
Goroutines.v
GoErrors.v
GoMonads.v
ReadCache.v
ReadCacheInv.v
Remote.v
RemoteInv.v
RemoteProps.v
BaiduClient.v
ClientProps.v
MetaStore.v
MetaStoreInv.v
MetaStoreSpec.v
MetaStoreProps.v
NegativeCache.v
Filesystem.v
FilesystemInv.v
FilesystemDemo.v
FilesystemProps.v
FilesystemWalk.v
FilesystemRead.v
Playback.v
PlaybackProps.v
RemotePaths.v
TokenStore.v
OAuth.v
OAuthProps.v
AppConfig.v
AppProps.v
AppRun.v
AppRunProps.v
DirectDownload.v
DirectDownloadProps.v
StreamBench.v
StreamBenchProps.v
AppLife.v
AppLifeProps.v
EndToEnd.v
PlaybackEnd.v
DirectRedirect.v
DirectRedirectProps.v
