(* ===== verification/Prelude.v ===== *)
(** * BaiduDiskLink: verification library

    BaiduDiskLink mounts a Baidu network drive as a FUSE file system and plays
    its videos.  This library models the program under [src/internal] and
    proves what makes it correct: the bytes a reader gets are those of the
    remote file, what panics is known and nothing waits for ever, caches keep
    their books, and the directory tree shown is the one the drive holds.

    ** The program and the files that model it

    A read of the mount goes down the layers; each file names its source.
    - [internal/fs/filesystem.go]: [Filesystem] (listing, lookup, deletion,
      refreshes), [FilesystemRead] (open, read, release, diagnostics), on the
      metadata store ([internal/store/store.go]: [MetaStore]) and the negative
      cache ([internal/cache/negative.go]: [NegativeCache]).
    - [internal/stream/manager.go]: [StreamConfig], [Access] (probe, stream or
      seek), [TaskHeap] (the queue), [Manager] and [ManagerTasks] (sessions,
      tasks, workers, hedges, disk writes), [ManagerSteps] (their interleavings).
    - [internal/stream/store.go]: [ChunkKeys], [ChunkStore], the memory and the
      disk cache of chunks.
    - [internal/remote/remote.go]: [Remote], the reader with its read cache,
      reads in flight, link cache and concurrent pieces.
    - [internal/baidu]: [BaiduClient], the API client.
    - [internal/app]: [Playback] (the HTTP proxy), [RemotePaths] and
      [StreamBench] (paths of commands, benchmarks), [DirectDownload] and
      [DirectRedirect] (the download benchmark and its redirects),
      [AppConfig] (with [internal/config]), [AppRun] (start, login, mount) and
      [AppLife] (refreshes, the end of a mount, Close).
    - [internal/auth]: [TokenStore] and [OAuth].
    What Go provides is in [GoStrings], [GoErrors], [GoList] (container/list),
    [GoPath], [GoSort], [GoUrl], [GoMonads] and [Goroutines].

    ** How components meet

    A component is a parameter of the one above it, as a type class whose
    fields are the calls the upper one makes: [ChunkCache] between manager and
    chunk store ([ChunkProps] gives the instance and its laws, the theorems of
    the manager are proved from the laws), [Drive] between the file system and
    the remote reader, [RangeReader] for playback and benchmarks, [Sources] for
    reads of the mount, [StreamUnderTest] for the simulated playback,
    [NameOrder] for the order the database and [sort.Slice] give equal names.
    HTTP, JSON, XML, URLs as [url.Parse] takes them apart, the SQL engine and
    the kernel are such parameters too; each theorem that relies on their
    documented behaviour names it, and its witness instantiates it.

    ** How state and effects are modelled

    - Sequential code is state passing: [stateM], and [errorM] where an error
      returns early ([GoMonads]).  SQL statements, system calls and requests
      can each fail.
    - The stream manager is a transition system ([ManagerSteps]): a label is one
      critical section of a caller, worker, hedge, disk writer, timer or of
      Close, with what Go leaves open.  [None] is a panic: of the heap, a
      channel, a nil pointer, or a [make] ([makeslice], with the limit that
      64-bit Linux sets to an allocation).  Invariants:
      [ManagerTable], [ManagerQueue], [ManagerInv], [ManagerFrame],
      [ManagerContent], [ManagerServes]; seeks: [ManagerSeek].
    - The remote reader is a program of atomic actions ([Goroutines]) run under
      any interleaving ([RemoteInv], [RemoteCalls], [RemoteProps]).
    - The OAuth server ([OAuth]), the goroutines of a mounted application
      ([AppLife]) and the workers of a direct download ([DirectDownload]) are
      step relations.
    - Machine integers are [Z], with [+!], [-!], [*!] where an [int64] of the
      code can wrap around.  Counters that only count events do not wrap; a
      difference of times stops at the ends of the [int64]s, as [time.Sub] does.

    ** What is proved

    - Reads: [ManagerProps] (bytes right, which steps panic, tasks unique,
      urgency, seeks, bounded workers), [RemoteProps] (right and ending under
      any interleaving), [ClientProps] (ranged downloads, error classes,
      paging), [FilesystemRead], [PlaybackProps] (ranges and responses);
      [EndToEnd] and [PlaybackEnd] compose them: a read of the mount and a GET
      of the playback proxy from the HTTP responses up.  One proviso goes
      through all of these: a [ReadRange] of the remote reader is exact while
      its downloads are sequential ([sequential]: no call sets a concurrency
      above 1); of chunks downloaded concurrently only the length is proved,
      and [concurrent_chunks_lose_bytes] shows why.  The stream manager and the
      window cache do not depend on it.
    - Caches: [ChunkMemory] (refines a byte-bounded LRU list), [ChunkDisk],
      [ChunkRestart] (a restart finds what was written), [ChunkProps].
    - Queue and classification: [QueueProps], [AccessProps].
    - Metadata: [MetaStoreInv], [MetaStoreSpec], [MetaStoreProps] (refinement of
      a finite map, failed statements change nothing); [FilesystemInv],
      [FilesystemProps], [FilesystemWalk] (listings and lookups show the drive,
      what a deletion refuses and removes, the walk over directories ends and
      goes down each once).
    - Logging in and running: [TokenStore], [OAuthProps], [AppProps],
      [AppRunProps], [AppLifeProps] (a run ends); commands: [RemotePaths], [StreamBenchProps],
      [DirectDownloadProps], [DirectRedirectProps].
    [FilesystemDemo] and [ManagerDemo] hold concrete runs; the witnesses of
    theorems with hypotheses end in [Defined] and compute.

    ** Fuel

    - [next_loop]: one round per queued task, and each round pops one.
    - [write_loop]: [rounds], one more than the bytes asked for; a round that
      goes on has written a byte.
    - [refreshKnownDirectories]: one level more than the paths of the table and
      of the drive ([refresh_all_ends]).
    - [List_loop], [read_loop] and the eviction loops: by the number of items,
      proved enough where they are used.
    - [retry_loop]: one round per retry left; [follow]: eleven rounds for the ten
      requests [CheckRedirect] lets pass ([direct_Do_ends]).
    - [bench_loop]: a round per step until the deadline, with a clock that does
      not go back and timers that do not fire early ([bench_loop_ends]).

    ** What is not modelled, and why

    - Text of log lines, garbage collection, memory statistics, throughput in
      floating point: no behaviour depends on them.
    - The transport of HTTP clients and its connection tracing, the inode tree
      of go-fuse, [ListenAndServe], the SQLite driver: library code.
    - Cancelling a context is one event for its callers (the label [LCtxDone]);
      concurrent pieces of a read take one goroutine per piece, which allows
      every order that fewer workers have.
    - [getWithTouch] and [putDisk] are atomic in the manager's steps; the
      handlers of the file system run one at a time.
    - Strings the program compares without case are ASCII there.
    - Nil receivers: the components are constructed before they are called.
    - Flag parsing and printing of [cmd/baidudisklink]. *)
From Stdlib Require Export ZArith Lia.
From Stdlib Require Import Strings.Byte.
From stdpp Require Export base numbers option strings gmap list.
Export list.

#[export] Set Default Goal Selector "!".
#[global] Open Scope Z_scope.

(** ** Record update

    [r <| f := v |>] is Go's field assignment [r.f = v] on a copy of [r], and
    [r <| f ::= g |>] assigns [g r.f].  A record joins by giving its eta
    expansion; the setter of a field is that expansion with the projection
    abstracted. *)
Class Eta (R : Type) := eta_expand : R → R.
Class Setter {R T} (proj : R → T) := set_field : (T → T) → R → R.
Arguments set_field {R T} proj {_} _ _ /.

Ltac derive_setter :=
  lazymatch goal with
  | |- @Setter ?R ?T ?proj =>
      let e := constr:(_ : Eta R) in
      let body := eval hnf in e in
      let abs := eval pattern proj in body in
      lazymatch abs with
      | ?F _ =>
          let s := constr:(λ (f : T → T) (r : R), F (λ r' : R, f (proj r')) r) in
          let s' := eval cbv beta in s in
          exact s'
      end
  end.
#[export] Hint Extern 1 (Setter _) => derive_setter : typeclass_instances.

Declare Scope record_scope.
#[global] Open Scope record_scope.
Notation "r <| f := v |>" := (set_field f (λ _, v) r)
  (at level 1, left associativity, f constr at level 8, v at level 200) : record_scope.
Notation "r <| f ::= g |>" := (set_field f g r)
  (at level 1, left associativity, f constr at level 8, g at level 200) : record_scope.

(** ** Results of fallible Go code: [(v, nil)] or [(_, err)] *)
Inductive result (E A : Type) : Type :=
| Ok (a : A)
| Err (e : E).
Arguments Ok {E A} _.
Arguments Err {E A} _.

#[export] Instance result_eq_dec {E A} `{EqDecision E, EqDecision A} : EqDecision (result E A).
Proof. solve_decision. Defined.
#[export] Instance result_ret {E} : MRet (result E) := λ A a, Ok a.
#[export] Instance result_bind {E} : MBind (result E) := λ A B f m,
  match m with Ok a => f a | Err e => Err e end.
#[export] Instance result_fmap {E} : FMap (result E) := λ A B f m,
  match m with Ok a => Ok (f a) | Err e => Err e end.

Definition is_ok {E A} (r : result E A) : bool :=
  match r with Ok _ => true | Err _ => false end.

Lemma result_bind_ok {E A B} (f : A → result E B) (m : result E A) (b : B) :
  m ≫= f = Ok b ↔ ∃ a, m = Ok a ∧ f a = Ok b.
Proof. destruct m; cbn; naive_solver. Qed.

(** ** Machine integers

    Go's [int64] (and [int] on the 64-bit targets the program is built for) is
    a [Z] brought back into range after each operation that can leave it. *)
Definition w64 (z : Z) : Z := (z + 2 ^ 63) mod 2 ^ 64 - 2 ^ 63.
Definition in64 (z : Z) : Prop := - 2 ^ 63 ≤ z < 2 ^ 63.
Definition maxInt64 : Z := 2 ^ 63 - 1.

Declare Scope i64_scope.
Delimit Scope i64_scope with i64.
Notation "a +! b" := (w64 (a + b)) (at level 50, left associativity) : i64_scope.
Notation "a -! b" := (w64 (a - b)) (at level 50, left associativity) : i64_scope.
Notation "a *! b" := (w64 (a * b)) (at level 40, left associativity) : i64_scope.
#[global] Open Scope i64_scope.

#[export] Instance in64_dec z : Decision (in64 z).
Proof. unfold in64. apply _. Defined.

Lemma w64_id z : in64 z → w64 z = z.
Proof. unfold in64, w64. intros H. rewrite Z.mod_small; lia. Qed.
Lemma w64_range z : in64 (w64 z).
Proof. unfold in64, w64. pose proof (Z.mod_pos_bound (z + 2 ^ 63) (2 ^ 64)). lia. Qed.

(** Removes the wrap-around of every operation whose result is in range. *)
Ltac nowrap :=
  repeat first
    [ match goal with
      | |- context [w64 ?z] => rewrite (w64_id z) by (unfold in64 in *; lia)
      | H : context [w64 ?z] |- _ => rewrite (w64_id z) in H by (unfold in64 in *; lia)
      end ].

(** ** Byte buffers and Go slice expressions *)
Abbreviation bytes := (list Byte.byte).

#[export] Instance byte_eq_dec : EqDecision Byte.byte := Byte.byte_eq_dec.

Definition zlen {A} (l : list A) : Z := Z.of_nat (length l).

(** [l[off:off+len]], cut at the end of [l]. *)
Definition slice {A} (l : list A) (off len : Z) : list A :=
  take (Z.to_nat len) (drop (Z.to_nat off) l).

Lemma zlen_nonneg {A} (l : list A) : 0 ≤ zlen l.
Proof. unfold zlen. lia. Qed.
Lemma zlen_app {A} (l k : list A) : zlen (l ++ k) = zlen l + zlen k.
Proof. unfold zlen. rewrite length_app. lia. Qed.
Lemma zlen_nil {A} : zlen (@nil A) = 0.
Proof. done. Qed.
Lemma zlen_cons {A} (x : A) l : zlen (x :: l) = 1 + zlen l.
Proof. unfold zlen. cbn [length]. lia. Qed.
Lemma zlen_0 {A} (l : list A) : zlen l = 0 → l = [].
Proof. destruct l; [done|]. rewrite zlen_cons. pose proof (zlen_nonneg l). lia. Qed.

Lemma slice_length {A} (l : list A) off len :
  0 ≤ off → 0 ≤ len → zlen (slice l off len) = Z.max 0 (Z.min len (zlen l - off)).
Proof.
  intros. unfold zlen, slice. rewrite length_take, length_drop. lia.
Qed.

Lemma slice_full {A} (l : list A) : slice l 0 (zlen l) = l.
Proof. unfold slice, zlen. rewrite drop_0, Nat2Z.id. apply firstn_all. Qed.

Lemma slice_nil {A} (l : list A) off len : len ≤ 0 → slice l off len = [].
Proof. intros. unfold slice. replace (Z.to_nat len) with 0%nat by lia. done. Qed.

Lemma slice_past {A} (l : list A) off len : zlen l ≤ off → slice l off len = [].
Proof.
  intros. unfold slice, zlen in *. rewrite drop_ge by lia. by rewrite take_nil.
Qed.

(** Two adjacent slices make one. *)
Lemma slice_app {A} (l : list A) off n1 n2 :
  0 ≤ off → 0 ≤ n1 → 0 ≤ n2 →
  slice l off n1 ++ slice l (off + n1) n2 = slice l off (n1 + n2).
Proof.
  intros. unfold slice.
  rewrite (Z2Nat.inj_add off n1), (Z2Nat.inj_add n1 n2) by lia.
  rewrite <- drop_drop.
  generalize (drop (Z.to_nat off) l) as m. intros m.
  rewrite <- (take_drop (Z.to_nat n1) m) at 3.
  destruct (decide (Z.to_nat n1 ≤ length m)%nat).
  - rewrite take_app_add'; [done|]. rewrite length_take. lia.
  - rewrite !(drop_ge m) by lia. rewrite take_nil, !app_nil_r.
    rewrite (take_ge m (Z.to_nat n1)) by lia. by rewrite take_ge by lia.
Qed.

(** A slice of a slice that stays inside it. *)
Lemma slice_slice {A} (l : list A) off len o n :
  0 ≤ off → 0 ≤ o → 0 ≤ n → o + n ≤ len →
  slice (slice l off len) o n = slice l (off + o) n.
Proof.
  intros. unfold slice.
  rewrite skipn_firstn_comm, drop_drop, firstn_firstn.
  replace (Z.to_nat (off + o)) with (Z.to_nat off + Z.to_nat o)%nat by lia.
  f_equal. lia.
Qed.

(** ** Sums of sizes *)
Definition zsum {A} (f : A → Z) (l : list A) : Z := foldr (λ x acc, f x + acc) 0 l.

Lemma zsum_nil {A} (f : A → Z) : zsum f [] = 0.
Proof. done. Qed.
Lemma zsum_cons {A} (f : A → Z) x l : zsum f (x :: l) = f x + zsum f l.
Proof. done. Qed.
Lemma zsum_app {A} (f : A → Z) l k : zsum f (l ++ k) = zsum f l + zsum f k.
Proof. induction l as [|x l IH]; cbn [app]; rewrite ?zsum_cons, ?zsum_nil; lia. Qed.
Lemma zsum_nonneg {A} (f : A → Z) l : (∀ x, x ∈ l → 0 ≤ f x) → 0 ≤ zsum f l.
Proof.
  induction l as [|x l IH]; intros H; rewrite ?zsum_nil, ?zsum_cons; [lia|].
  pose proof (H x). specialize (IH (λ y Hy, H y (list_elem_of_further _ _ _ Hy))).
  pose proof (H x (list_elem_of_here _ _)). lia.
Qed.
#[export] Instance zsum_perm {A} (f : A → Z) : Proper ((≡ₚ) ==> (=)) (zsum f).
Proof. induction 1; rewrite ?zsum_cons; lia. Qed.

Lemma filter_all {A} (P : A → Prop) `{∀ x, Decision (P x)} (l : list A) :
  (∀ x, x ∈ l → P x) → filter P l = l.
Proof.
  induction l as [|x l IH]; intros Hall; [done|]. rewrite filter_cons.
  rewrite decide_True by (apply Hall; by left). rewrite IH; [done|].
  intros y Hy. apply Hall. by right.
Qed.
Lemma zsum_ext {A} (f g : A → Z) l : (∀ x, x ∈ l → f x = g x) → zsum f l = zsum g l.
Proof.
  induction l as [|x l IH]; intros H; [done|]. rewrite !zsum_cons, (H x) by left.
  rewrite IH; [done|]. intros y Hy. apply H. by right.
Qed.
Lemma zsum_pick {A} `{EqDecision A} (f : A → Z) l x :
  NoDup l → x ∈ l → zsum f l = f x + zsum f (filter (λ y, y ≠ x) l).
Proof.
  induction l as [|y l IH]; intros Hnd Hx; [by apply not_elem_of_nil in Hx|].
  apply NoDup_cons in Hnd as [Hn Hnd]. rewrite filter_cons, zsum_cons.
  destruct (decide (y = x)) as [->|Hne].
  - rewrite decide_False by tauto. rewrite filter_all; [done|]. by intros z Hz ->.
  - rewrite decide_True by done. rewrite zsum_cons. apply elem_of_cons in Hx as [->|Hx]; [done|].
    rewrite (IH Hnd Hx). lia.
Qed.

(** ** Proof automation *)
#[export] Set Warnings "-implicit-create-rewrite-hint-db".
Create HintDb size.
#[export] Hint Rewrite @zlen_app @zlen_nil @zlen_cons @zsum_app @zsum_nil @zsum_cons : size.
Ltac sizes := autorewrite with size in *.

(** Splits every [if decide] and [match] of the goal, closing absurd cases. *)
Ltac split_cases :=
  repeat first [ progress simplify_eq/= | case_decide | case_match ]; try done; try lia.
