(* ===== verification/GoList.v ===== *)
(** * Go's [container/list] and the keyed index both chunk caches build on it

    The memory cache and the disk cache of [src/internal/stream/store.go] keep
    the same pair: a doubly linked list of entries, oldest first, and a map
    from the key to the list element.  Elements are pointers; here they are
    positive numbers, fresh for each [PushBack]. *)
From S2P Require Import Prelude.

Create HintDb index.

Abbreviation elt := positive (only parsing).

Record golist (V : Type) := mkGolist { elems : list (elt * V); fresh : elt }.
Arguments mkGolist {V}. Arguments elems {V}. Arguments fresh {V}.
#[export] Instance golist_eta V : Eta (golist V) := λ l, mkGolist (elems l) (fresh l).

Section operations.
Context {V : Type}.
Implicit Types (l : golist V) (e : elt) (v : V).

Definition list_new : golist V := mkGolist [] 1%positive.
Definition list_len l : nat := length (elems l).
Definition list_front l : option elt := fst <$> head (elems l).
(** [element.Value] *)
Definition elt_value e l : option V := snd <$> find (λ p, bool_decide (p.1 = e)) (elems l).
Definition list_push_back v l : golist V * elt :=
  (mkGolist (elems l ++ [(fresh l, v)]) (Pos.succ (fresh l)), fresh l).
Definition list_remove e l : golist V :=
  l <| elems ::= filter (λ p, p.1 ≠ e) |>.
Definition list_move_to_back e l : golist V :=
  l <| elems ::= λ es, filter (λ p, p.1 ≠ e) es ++ filter (λ p, p.1 = e) es |>.
(** [element.Value = v] *)
Definition elt_set e v l : golist V :=
  l <| elems ::= map (λ p, if decide (p.1 = e) then (e, v) else p) |>.
End operations.

(** ** The keyed index

    [index_wf m l] is what both caches rely on: the map and the list hold the
    same keys, each key once, and each map entry points at its own element. *)
Section index.
Context {K V : Type} `{Countable K} (key : V → K).
Implicit Types (m : gmap K elt) (l : golist V) (e : elt) (v : V) (k : K) (vs : list V).

(** The list's content, oldest first. *)
Definition values l : list V := (elems l).*2.
Definition find_key k vs : option V := find (λ v, bool_decide (key v = k)) vs.
Definition del_key k vs : list V := filter (λ v, key v ≠ k) vs.

Record index_wf m l : Prop := {
  wf_ids : NoDup (elems l).*1;
  wf_fresh : ∀ e v, (e, v) ∈ elems l → (e < fresh l)%positive;
  wf_elem : ∀ e v, (e, v) ∈ elems l → m !! key v = Some e;
  wf_map : ∀ k e, m !! k = Some e → ∃ v, (e, v) ∈ elems l ∧ key v = k
}.

Lemma elems_functional m l e v v' :
  index_wf m l → (e, v) ∈ elems l → (e, v') ∈ elems l → v = v'.
Proof.
  intros [Hnd _ _ _]. revert Hnd. generalize (elems l) as es.
  induction es as [|[e1 v1] es IH]; cbn; intros Hnd H1 H2; [set_solver|].
  apply NoDup_cons in Hnd as [Hn Hnd].
  apply elem_of_cons in H1 as [H1|H1]; apply elem_of_cons in H2 as [H2|H2].
  - congruence.
  - inv H1. destruct Hn. apply list_elem_of_fmap. by exists (e1, v').
  - inv H2. destruct Hn. apply list_elem_of_fmap. by exists (e1, v).
  - by apply IH.
Qed.

(** Under [index_wf], naming an element by its pointer or by its key is the same. *)
Lemma elems_id_key m l k e p :
  index_wf m l → m !! k = Some e → p ∈ elems l → p.1 = e ↔ key p.2 = k.
Proof.
  intros Hwf Hk Hp. destruct p as [e' v]; cbn.
  pose proof (wf_elem _ _ Hwf _ _ Hp) as He'. split; intros <-; [|congruence].
  destruct (wf_map _ _ Hwf _ _ Hk) as (v' & Hv' & <-).
  by rewrite (elems_functional _ _ _ _ _ Hwf Hp Hv').
Qed.

Lemma filter_snd (P : elt * V → Prop) (Q : V → Prop)
    `{∀ p, Decision (P p)} `{∀ v, Decision (Q v)} (es : list (elt * V)) :
  (∀ p, p ∈ es → P p ↔ Q p.2) → (filter P es).*2 = filter Q es.*2.
Proof.
  induction es as [|p es IH]; intros Heq; [done|].
  rewrite fmap_cons, !filter_cons.
  pose proof (Heq p (list_elem_of_here _ _)) as Hp.
  rewrite <- IH by (intros q Hq; apply Heq; by apply list_elem_of_further).
  destruct (decide (P p)), (decide (Q p.2)); tauto || by rewrite ?fmap_cons.
Qed.

Lemma del_key_not_in k vs : k ∉ key <$> del_key k vs.
Proof. intros (v & Hk & Hv)%list_elem_of_fmap. by apply list_elem_of_filter in Hv as [? _]. Qed.
Lemma elem_of_del_key k v vs : v ∈ del_key k vs ↔ key v ≠ k ∧ v ∈ vs.
Proof. unfold del_key. by rewrite list_elem_of_filter. Qed.
Lemma NoDup_del_key k vs : NoDup (key <$> vs) → NoDup (key <$> del_key k vs).
Proof.
  induction vs as [|v vs IH]; [done|]. unfold del_key in *. rewrite filter_cons.
  rewrite fmap_cons. intros [Hn Hnd]%NoDup_cons. case_decide; [|by apply IH].
  rewrite fmap_cons. apply NoDup_cons; split; [|by apply IH].
  intros (w & Hw & Hin)%list_elem_of_fmap. apply list_elem_of_filter in Hin as [_ Hin].
  apply Hn, list_elem_of_fmap. by exists w.
Qed.
Lemma del_key_id k vs : k ∉ key <$> vs → del_key k vs = vs.
Proof.
  induction vs as [|v vs IH]; [done|]. rewrite fmap_cons, not_elem_of_cons. intros [? ?].
  unfold del_key in *. rewrite filter_cons. case_decide; [|congruence]. by f_equal; apply IH.
Qed.
Lemma find_key_Some k v vs : find_key k vs = Some v → key v = k ∧ v ∈ vs.
Proof.
  intros Hf. apply List.find_some in Hf as [Hin Hb].
  split; [by apply bool_decide_eq_true in Hb | by apply list_elem_of_In].
Qed.
Lemma find_key_None k vs : find_key k vs = None ↔ k ∉ key <$> vs.
Proof.
  induction vs as [|v vs IH]; cbn; [set_solver|].
  case_bool_decide; [split; [done | intros Hn; destruct Hn; subst; left]|].
  unfold find_key in IH. rewrite IH, not_elem_of_cons. naive_solver.
Qed.
Lemma find_key_unique k v vs :
  NoDup (key <$> vs) → v ∈ vs → key v = k → find_key k vs = Some v.
Proof.
  intros Hnd Hin <-. induction vs as [|w vs IH]; cbn; [set_solver|].
  rewrite fmap_cons in Hnd. apply NoDup_cons in Hnd as [Hn Hnd].
  apply elem_of_cons in Hin as [<-|Hin]; [by rewrite bool_decide_true|].
  rewrite bool_decide_false; [by apply IH|].
  intros Heq. apply Hn. rewrite Heq. apply list_elem_of_fmap. by exists v.
Qed.
Lemma find_key_app k vs ws :
  find_key k (vs ++ ws) = match find_key k vs with Some v => Some v | None => find_key k ws end.
Proof. induction vs as [|v vs IH]; cbn; [done|]. by case_bool_decide. Qed.
Lemma find_key_del k k' vs : k ≠ k' → find_key k (del_key k' vs) = find_key k vs.
Proof.
  intros Hne. induction vs as [|v vs IH]; [done|]. unfold del_key in *. rewrite filter_cons.
  cbn. case_decide; cbn; case_bool_decide; try done; congruence.
Qed.
Lemma find_key_perm k vs ws :
  NoDup (key <$> vs) → vs ≡ₚ ws → find_key k vs = find_key k ws.
Proof.
  intros Hnd Hp.
  assert (NoDup (key <$> ws)) as Hnd' by (by rewrite <- Hp).
  destruct (find_key k vs) as [v|] eqn:Hv.
  - apply find_key_Some in Hv as [Hk Hin]. symmetry. apply find_key_unique; [done| |done].
    by rewrite <- Hp.
  - symmetry. apply find_key_None. apply find_key_None in Hv. by rewrite <- Hp.
Qed.

(** *** What each list operation does to the content, given [index_wf] *)
Lemma index_wf_new : index_wf ∅ list_new.
Proof. split; cbn; [constructor|set_solver..]. Qed.

Lemma values_NoDup m l : index_wf m l → NoDup (key <$> values l).
Proof.
  intros Hwf. pose proof (wf_ids _ _ Hwf) as Hnd. pose proof (wf_elem _ _ Hwf) as He.
  revert Hnd He. unfold values. generalize (elems l) as es. clear l Hwf.
  induction es as [|[e v] es IH]; cbn; intros Hnd He; [constructor|].
  apply NoDup_cons in Hnd as [Hn Hnd]. apply NoDup_cons; split.
  - intros (w & Hw & Hin)%list_elem_of_fmap.
    apply list_elem_of_fmap in Hin as ([e' w'] & -> & Hin). cbn in Hw.
    pose proof (He e v (list_elem_of_here _ _)) as H1.
    pose proof (He e' w' (list_elem_of_further _ _ _ Hin)) as H2.
    apply Hn, list_elem_of_fmap. exists (e', w'). split; cbn; congruence.
  - apply IH; [done|]. intros e' v' Hin. apply He. by right.
Qed.

Lemma elem_of_values l v : v ∈ values l ↔ ∃ e, (e, v) ∈ elems l.
Proof.
  unfold values. rewrite list_elem_of_fmap.
  split; [intros ([e w] & -> & ?); eauto|intros [e ?]]. by exists (e, v).
Qed.

Lemma elt_value_wf m l k e :
  index_wf m l → m !! k = Some e → elt_value e l = find_key k (values l).
Proof.
  intros Hwf Hk. unfold elt_value, find_key, values.
  assert (∀ p, p ∈ elems l → p.1 = e ↔ key p.2 = k) as Hik
    by (intros; by eapply elems_id_key).
  clear Hwf Hk. revert Hik. generalize (elems l) as es.
  induction es as [|p es IH]; cbn; intros Hik; [done|].
  pose proof (Hik p (list_elem_of_here _ _)) as Hp.
  rewrite (bool_decide_ext _ _ Hp). destruct (bool_decide (key p.2 = k)); [done|].
  apply IH. intros q Hq. apply Hik. by right.
Qed.

Lemma index_lookup m l k :
  index_wf m l → (m !! k ≫= λ e, elt_value e l) = find_key k (values l).
Proof.
  intros Hwf. destruct (m !! k) as [e|] eqn:Hk; cbn; [by eapply elt_value_wf|].
  symmetry. apply find_key_None. intros (v & -> & (e & Hin)%elem_of_values)%list_elem_of_fmap.
  rewrite (wf_elem _ _ Hwf _ _ Hin) in Hk. done.
Qed.

Lemma index_lookup_Some m l k e :
  index_wf m l → m !! k = Some e →
  ∃ v, elt_value e l = Some v ∧ find_key k (values l) = Some v ∧ key v = k.
Proof.
  intros Hwf Hk. destruct (wf_map _ _ Hwf _ _ Hk) as (v & Hin & Hv).
  exists v. rewrite (elt_value_wf _ _ _ _ Hwf Hk).
  assert (find_key k (values l) = Some v) as ->; [|done].
  apply find_key_unique; [by eapply values_NoDup| |done]. apply elem_of_values. eauto.
Qed.

Lemma index_lookup_None m l k :
  index_wf m l → m !! k = None ↔ k ∉ key <$> values l.
Proof.
  intros Hwf. rewrite <- find_key_None, <- (index_lookup _ _ _ Hwf).
  destruct (m !! k) as [e|] eqn:Hk; cbn; [|done].
  destruct (index_lookup_Some _ _ _ _ Hwf Hk) as (v & -> & _). done.
Qed.

Lemma index_push_back m l v :
  index_wf m l → m !! key v = None →
  index_wf (<[key v := fresh l]> m) (list_push_back v l).1 ∧
  values (list_push_back v l).1 = values l ++ [v].
Proof.
  intros Hwf Hk. split; [|unfold values; cbn; by rewrite fmap_app].
  split; cbn.
  - rewrite fmap_app. apply NoDup_app. split_and!; [apply Hwf| |apply NoDup_singleton].
    intros e ([e' w] & -> & Hin)%list_elem_of_fmap. cbn. rewrite list_elem_of_singleton.
    pose proof (wf_fresh _ _ Hwf _ _ Hin). lia.
  - intros e w [Hin|Hin]%elem_of_app; [pose proof (wf_fresh _ _ Hwf _ _ Hin); lia|].
    apply list_elem_of_singleton in Hin. simplify_eq. lia.
  - intros e w [Hin|Hin]%elem_of_app.
    + pose proof (wf_elem _ _ Hwf _ _ Hin). rewrite lookup_insert_ne by congruence. done.
    + apply list_elem_of_singleton in Hin. simplify_eq. apply lookup_insert_eq.
  - intros k e. rewrite lookup_insert. case_decide as Hd.
    + intros [= <-]. exists v. split; [|done]. apply elem_of_app. right. by left.
    + intros (w & ? & ?)%(wf_map _ _ Hwf). exists w. rewrite elem_of_app. tauto.
Qed.

Lemma index_remove m l k e :
  index_wf m l → m !! k = Some e →
  index_wf (delete k m) (list_remove e l) ∧
  values (list_remove e l) = del_key k (values l).
Proof.
  intros Hwf Hk. split.
  - split; cbn.
    + eapply sublist_NoDup; [apply Hwf|]. apply fmap_sublist, sublist_filter.
    + intros e' v [_ Hin]%list_elem_of_filter. by eapply wf_fresh.
    + intros e' v [Hne Hin]%list_elem_of_filter. cbn in Hne.
      pose proof (wf_elem _ _ Hwf _ _ Hin). rewrite lookup_delete_ne by congruence. done.
    + intros k' e' [Hne Hk']%lookup_delete_Some.
      destruct (wf_map _ _ Hwf _ _ Hk') as (v & Hin & <-). exists v. split; [|done].
      apply list_elem_of_filter. split; [|done]. cbn. intros <-.
      apply Hne. symmetry. by apply (elems_id_key _ _ _ _ _ Hwf Hk Hin).
  - unfold values, list_remove; cbn. apply filter_snd. intros p Hp.
    by rewrite (elems_id_key _ _ _ _ _ Hwf Hk Hp).
Qed.

Lemma index_perm m l l' :
  index_wf m l → elems l' ≡ₚ elems l → fresh l' = fresh l → index_wf m l'.
Proof.
  intros [H1 H2 H3 H4] Hp Hf. split.
  - by rewrite Hp.
  - intros e v. rewrite Hp, Hf. apply H2.
  - intros e v. rewrite Hp. apply H3.
  - intros k e Hk. destruct (H4 _ _ Hk) as (v & ? & ?). exists v. by rewrite Hp.
Qed.

Lemma filter_key k v vs :
  NoDup (key <$> vs) → find_key k vs = Some v → filter (λ w, key w = k) vs = [v].
Proof.
  intros Hnd Hf. induction vs as [|w vs IH]; [done|].
  rewrite fmap_cons in Hnd. apply NoDup_cons in Hnd as [Hn Hnd].
  cbn in Hf. rewrite filter_cons. case_bool_decide as Hb.
  - inv Hf. rewrite decide_True by done. f_equal.
    destruct (filter _ vs) as [|u us] eqn:Hu; [done|].
    assert (u ∈ u :: us) as Hin by left. rewrite <- Hu in Hin.
    apply list_elem_of_filter in Hin as [Hku Hin]. destruct Hn.
    apply list_elem_of_fmap. exists u. by rewrite Hku.
  - rewrite decide_False by done. by apply IH.
Qed.

Lemma index_move_to_back m l k e v :
  index_wf m l → m !! k = Some e → find_key k (values l) = Some v →
  index_wf m (list_move_to_back e l) ∧
  values (list_move_to_back e l) = del_key k (values l) ++ [v].
Proof.
  intros Hwf Hk Hv. split.
  - eapply index_perm; [done| |done]. cbn. rewrite (Permutation_app_comm).
    induction (elems l) as [|p es IH]; [done|]. rewrite !filter_cons.
    destruct (decide (p.1 = e)); cbn.
    + rewrite decide_False by tauto. by rewrite IH.
    + rewrite decide_True by done. by rewrite <- Permutation_middle, IH.
  - unfold values, list_move_to_back; cbn. rewrite fmap_app.
    assert (∀ p, p ∈ elems l → p.1 = e ↔ key p.2 = k) as Hik
      by (intros; by eapply elems_id_key).
    rewrite (filter_snd (λ p, p.1 ≠ e) (λ v, key v ≠ k))
      by (intros p Hp; by rewrite Hik).
    rewrite (filter_snd (λ p, p.1 = e) (λ v, key v = k)) by done.
    unfold del_key. f_equal. apply filter_key; [|done]. by eapply values_NoDup.
Qed.

(** [element.Value = v] followed by [MoveToBack(element)]. *)
Lemma index_update m l k e v :
  index_wf m l → m !! k = Some e → key v = k →
  index_wf m (list_move_to_back e (elt_set e v l)) ∧
  values (list_move_to_back e (elt_set e v l)) = del_key k (values l) ++ [v].
Proof.
  intros Hwf Hk Hv.
  assert (∀ p, p ∈ elems l → p.1 = e ↔ key p.2 = k) as Hik
    by (intros; by eapply elems_id_key).
  destruct (wf_map _ _ Hwf _ _ Hk) as (v0 & Hin0 & Hv0).
  assert (index_wf m (elt_set e v l)) as Hwf'.
  { split; cbn.
    - rewrite <- list_fmap_compose.
      assert ((fst ∘ λ p, if decide (p.1 = e) then (e, v) else p) <$> elems l = (elems l).*1)
        as ->; [|apply Hwf].
      apply list_fmap_ext. intros i p Hp. cbn. by case_decide.
    - intros e' w' ([e'' w''] & Heq & Hp)%list_elem_of_fmap. cbn in Heq.
      pose proof (wf_fresh _ _ Hwf _ _ Hp). case_decide; by simplify_eq.
    - intros e' w' ([e'' w''] & Heq & Hp)%list_elem_of_fmap. cbn in Heq.
      pose proof (wf_elem _ _ Hwf _ _ Hp). case_decide; simplify_eq; [done|done].
    - intros k' e' Hk'. destruct (wf_map _ _ Hwf _ _ Hk') as (w & Hp & <-).
      destruct (decide (e' = e)) as [->|].
      + exists v. split.
        * apply list_elem_of_fmap. exists (e, w). cbn. by rewrite decide_True.
        * pose proof (Hik _ Hp). cbn in *. symmetry. naive_solver.
      + exists w. split; [|done]. apply list_elem_of_fmap. exists (e', w). cbn.
        by rewrite decide_False. }
  assert (find_key k (values (elt_set e v l)) = Some v) as Hf.
  { apply find_key_unique; [by eapply values_NoDup| |done]. apply elem_of_values. exists e.
    cbn. apply list_elem_of_fmap. exists (e, v0). cbn. by rewrite decide_True. }
  destruct (index_move_to_back _ _ _ _ _ Hwf' Hk Hf) as [? ->]. split; [done|]. f_equal.
  unfold values, elt_set; cbn. revert Hik. generalize (elems l) as es.
  induction es as [|p es IH]; intros Hik; [done|]. cbn [map]. rewrite !fmap_cons.
  pose proof (Hik p (list_elem_of_here _ _)) as Hp. unfold del_key in *.
  rewrite !filter_cons. rewrite IH by (intros q Hq; apply Hik; by right).
  destruct (decide (p.1 = e)); cbn [snd]; [|done].
  rewrite !decide_False by tauto. done.
Qed.

Lemma index_front m l e v :
  index_wf m l → list_front l = Some e → elt_value e l = Some v →
  m !! key v = Some e ∧ values l = v :: del_key (key v) (values l).
Proof.
  intros Hwf Hf Hv. pose proof (values_NoDup _ _ Hwf) as Hnd.
  unfold list_front, elt_value, values in *.
  pose proof (wf_elem _ _ Hwf) as He.
  destruct (elems l) as [|[e0 v0] es]; [done|]. cbn in Hf, Hv. simplify_eq.
  rewrite bool_decide_true in Hv by done. cbn in Hv. simplify_eq.
  split; [apply He; by left|]. rewrite fmap_cons in Hnd |- *. cbn [snd] in *. f_equal.
  unfold del_key. rewrite filter_cons_False by tauto.
  rewrite fmap_cons in Hnd. apply NoDup_cons in Hnd as [Hn _].
  symmetry. by apply del_key_id.
Qed.

Lemma index_front_None m l : index_wf m l → list_front l = None → values l = [].
Proof. intros _. unfold list_front, values. by destruct (elems l). Qed.

Lemma values_length l : length (values l) = list_len l.
Proof. unfold values, list_len. apply length_fmap. Qed.
End index.

#[export] Hint Resolve index_wf_new values_NoDup : index.

Arguments values : simpl never.
Arguments del_key : simpl never.
Arguments list_remove : simpl never.
Arguments list_move_to_back : simpl never.
Arguments elt_set : simpl never.
Arguments list_push_back : simpl never.
