(* ===== verification/GoStrings.v ===== *)
(** * The parts of Go's [strings] and [strconv] the program uses

    A Go string is a byte string; here a Rocq [string], whose characters are
    bytes.  [len] is in bytes, positions are [Z], and the functions are total
    with the sentinel or error result Go documents. *)
From Stdlib Require Import Ascii.
From S2P Require Import Prelude.

Create HintDb gostrings.

Definition str_len (s : string) : Z := Z.of_nat (String.length s).

(** [s[:n]] and [s[n:]] for positions inside [s]. *)
Fixpoint str_to (s : string) (n : nat) : string :=
  match n, s with
  | S n, String c s => String c (str_to s n)
  | _, _ => ""
  end.
Fixpoint str_from (s : string) (n : nat) : string :=
  match n, s with
  | O, _ => s
  | S n, String _ s => str_from s n
  | S _, EmptyString => ""
  end.

(** [strings.HasPrefix], [TrimPrefix], [HasSuffix], [TrimSuffix] *)
Fixpoint has_prefix (s p : string) : bool :=
  match p, s with
  | EmptyString, _ => true
  | String c p, String d s => bool_decide (c = d) && has_prefix s p
  | String _ _, EmptyString => false
  end.
Definition trim_prefix (s p : string) : string :=
  if has_prefix s p then str_from s (String.length p) else s.
Definition has_suffix (s p : string) : bool :=
  bool_decide (String.length p ≤ String.length s)%nat &&
  bool_decide (str_from s (String.length s - String.length p) = p).
Definition trim_suffix (s p : string) : string :=
  if has_suffix s p then str_to s (String.length s - String.length p) else s.

(** [strings.Contains] *)
Fixpoint contains (s p : string) : bool :=
  has_prefix s p || match s with EmptyString => false | String _ s => contains s p end.

(** [strings.IndexByte] and [strings.LastIndexByte]: -1 when there is none. *)
Fixpoint index_byte (s : string) (c : ascii) : Z :=
  match s with
  | EmptyString => -1
  | String d s =>
      if decide (c = d) then 0
      else let r := index_byte s c in if decide (r < 0) then -1 else r + 1
  end.
Fixpoint last_index_byte (s : string) (c : ascii) : Z :=
  match s with
  | EmptyString => -1
  | String d s =>
      let r := last_index_byte s c in
      if decide (0 ≤ r) then r + 1 else if decide (c = d) then 0 else -1
  end.

(** [strings.SplitN(s, sep, 2)] for a one-byte separator. *)
Definition split2 (s : string) (c : ascii) : list string :=
  let i := index_byte s c in
  if decide (i < 0) then [s] else [str_to s (Z.to_nat i); str_from s (Z.to_nat i + 1)].

(** [strings.Split] and [strings.Join] for a one-byte separator. *)
Fixpoint split_on (sep : ascii) (s : string) : list string :=
  match s with
  | EmptyString => [""]
  | String c r =>
      if decide (c = sep) then "" :: split_on sep r
      else match split_on sep r with
           | e :: es => String c e :: es
           | [] => [String c ""]
           end
  end.
Fixpoint join_on (sep : ascii) (elems : list string) : string :=
  match elems with
  | [] => ""
  | [e] => e
  | e :: es => e +:+ String sep (join_on sep es)
  end.

(** ** [strconv.FormatInt(z, 10)] and [strconv.ParseInt(s, 10, 64)] *)
Definition digit (n : Z) : ascii := ascii_of_N (Z.to_N (48 + n)).
Definition digit_val (c : ascii) : option Z :=
  let v := Z.of_N (N_of_ascii c) - 48 in
  if decide (0 ≤ v ≤ 9) then Some v else None.

Fixpoint format_digits (fuel : nat) (n : Z) (acc : string) : string :=
  match fuel with
  | O => acc
  | S fuel =>
      let acc := String (digit (n mod 10)) acc in
      if decide (n / 10 = 0) then acc else format_digits fuel (n / 10) acc
  end.
(** A number below [2 ^ fuel] has at most [fuel] decimal digits. *)
Definition format_uint (n : Z) : string := format_digits (S (Z.to_nat (Z.log2 n))) n "".
Definition format_int (z : Z) : string :=
  if decide (z < 0) then String "-" (format_uint (- z)) else format_uint z.

Fixpoint parse_digits (s : string) (acc : Z) : option Z :=
  match s with
  | EmptyString => Some acc
  | String c s => d ← digit_val c; parse_digits s (acc * 10 + d)
  end.
Definition parse_uint (s : string) : option Z :=
  match s with EmptyString => None | _ => parse_digits s 0 end.
(** [None] is a syntax or a range error. *)
Definition parse_int64 (s : string) : option Z :=
  let '(neg, digits) := match s with
    | String "-" r => (true, r)
    | String "+" r => (false, r)
    | _ => (false, s)
    end in
  n ← parse_uint digits;
  if (neg : bool)
  then if decide (n ≤ 2 ^ 63) then Some (- n) else None
  else if decide (n < 2 ^ 63) then Some n else None.

(** ** Lemmas *)
Lemma str_app_cons c s t : String c s +:+ t = String c (s +:+ t).
Proof. done. Qed.
Lemma str_app_nil s : "" +:+ s = s.
Proof. done. Qed.
Lemma str_app_nil_r s : s +:+ "" = s.
Proof. induction s as [|c s IH]; [done|]. by rewrite str_app_cons, IH. Qed.
Lemma str_app_assoc s t u : (s +:+ t) +:+ u = s +:+ t +:+ u.
Proof. induction s as [|c s IH]; [done|]. by rewrite !str_app_cons, IH. Qed.
Lemma str_length_app s t : String.length (s +:+ t) = (String.length s + String.length t)%nat.
Proof. induction s as [|c s IH]; [done|]. rewrite str_app_cons. cbn. by rewrite IH. Qed.
Lemma str_to_app s t : str_to (s +:+ t) (String.length s) = s.
Proof.
  induction s as [|c s IH]; [destruct t; done|]. rewrite str_app_cons. cbn. by rewrite IH.
Qed.
Lemma str_from_app s t : str_from (s +:+ t) (String.length s) = t.
Proof. induction s as [|c s IH]; [by destruct t|]. rewrite str_app_cons. apply IH. Qed.
Lemma str_app_inj_r s t u : s +:+ u = t +:+ u → s = t.
Proof.
  revert t. induction s as [|c s IH]; intros [|d t] Heq; [done| | |].
  - apply (f_equal String.length) in Heq. rewrite !str_length_app in Heq. cbn in Heq. lia.
  - apply (f_equal String.length) in Heq. rewrite !str_length_app in Heq. cbn in Heq. lia.
  - rewrite !str_app_cons in Heq. injection Heq as -> Heq. by rewrite (IH _ Heq).
Qed.

Lemma has_prefix_app p s : has_prefix (p +:+ s) p = true.
Proof.
  induction p as [|c p IH]; [by destruct s|]. rewrite str_app_cons. cbn.
  by rewrite bool_decide_true, IH.
Qed.
Lemma has_prefix_spec s p : has_prefix s p = true ↔ ∃ r, s = p +:+ r.
Proof.
  split; [|intros [r ->]; apply has_prefix_app].
  revert s. induction p as [|c p IH]; intros s; [by exists s|].
  destruct s as [|d s]; cbn; [done|]. intros [Hc Hp]%andb_true_iff.
  apply bool_decide_eq_true in Hc as ->. destruct (IH _ Hp) as [r ->]. by exists r.
Qed.
Lemma trim_prefix_app p s : trim_prefix (p +:+ s) p = s.
Proof. unfold trim_prefix. rewrite has_prefix_app. apply str_from_app. Qed.
Lemma has_suffix_app s p : has_suffix (s +:+ p) p = true.
Proof.
  unfold has_suffix. rewrite str_length_app, Nat.add_sub, str_from_app.
  rewrite !bool_decide_true; [done|done|lia].
Qed.
Lemma trim_suffix_app s p : trim_suffix (s +:+ p) p = s.
Proof.
  unfold trim_suffix. rewrite has_suffix_app, str_length_app, Nat.add_sub. apply str_to_app.
Qed.

(** [c ∉ s], for a byte of a string *)
Fixpoint str_mem (c : ascii) (s : string) : Prop :=
  match s with EmptyString => False | String d s => c = d ∨ str_mem c s end.
#[export] Instance str_mem_dec c s : Decision (str_mem c s).
Proof. induction s as [|d s IH]; cbn; apply _. Defined.
Lemma str_mem_app c s t : str_mem c (s +:+ t) ↔ str_mem c s ∨ str_mem c t.
Proof. induction s as [|d s IH]; cbn; [tauto|]. rewrite str_app_cons. cbn. tauto. Qed.

Lemma last_index_byte_none s c : ¬ str_mem c s → last_index_byte s c = -1.
Proof.
  induction s as [|d s IH]; cbn; [done|]. intros Hn. rewrite IH by tauto.
  rewrite decide_False by lia. by rewrite decide_False by tauto.
Qed.
Lemma last_index_byte_app s c t :
  ¬ str_mem c t → last_index_byte (s +:+ String c t) c = str_len s.
Proof.
  intros Hn. induction s as [|d s IH].
  - change ("" +:+ String c t) with (String c t). cbn.
    rewrite last_index_byte_none by done. rewrite decide_False by lia. by rewrite decide_True.
  - rewrite str_app_cons. cbn [last_index_byte]. rewrite IH. unfold str_len in *. cbn [String.length].
    rewrite decide_True by lia. lia.
Qed.
Lemma index_byte_app s c t :
  ¬ str_mem c s → index_byte (s +:+ String c t) c = str_len s.
Proof.
  induction s as [|d s IH]; intros Hn.
  - change ("" +:+ String c t) with (String c t). cbn. by rewrite decide_True.
  - rewrite str_app_cons. cbn in Hn |- *. rewrite decide_False by tauto. rewrite IH by tauto.
    unfold str_len. cbn [String.length]. rewrite decide_False by lia. lia.
Qed.
Lemma index_byte_none s c : ¬ str_mem c s → index_byte s c = -1.
Proof.
  induction s as [|d s IH]; cbn; [done|]. intros Hn. rewrite decide_False by tauto.
  rewrite IH by tauto. done.
Qed.

(** Splitting at the last separator is injective. *)
Lemma last_sep_inj c s s' t t' :
  ¬ str_mem c t → ¬ str_mem c t' → s +:+ String c t = s' +:+ String c t' → s = s' ∧ t = t'.
Proof.
  intros Ht Ht' Heq.
  assert (str_len s = str_len s') as Hl
    by (by rewrite <- (last_index_byte_app s c t), Heq, last_index_byte_app).
  assert (String.length s = String.length s') as Hl' by (unfold str_len in Hl; lia).
  assert (s = s') as <-.
  { rewrite <- (str_to_app s (String c t)), Heq, Hl'. apply str_to_app. }
  split; [done|]. apply (inj (String.app s)) in Heq. congruence.
Qed.

Lemma split2_app s c t : ¬ str_mem c s → split2 (s +:+ String c t) c = [s; t].
Proof.
  intros Hn. unfold split2. rewrite index_byte_app by done. unfold str_len.
  rewrite decide_False by lia. rewrite Nat2Z.id, str_to_app. f_equal. f_equal.
  clear. induction s as [|d s IH]; [by destruct t|]. rewrite str_app_cons. apply IH.
Qed.

Lemma digit_val_digit n : 0 ≤ n ≤ 9 → digit_val (digit n) = Some n.
Proof.
  intros H. unfold digit_val, digit. rewrite N_ascii_embedding by lia.
  rewrite decide_True by lia. f_equal. lia.
Qed.
Lemma digit_not_minus n : 0 ≤ n ≤ 9 → digit n ≠ "-"%char ∧ digit n ≠ "+"%char.
Proof.
  intros H. pose proof (digit_val_digit n H) as Hd.
  split; intros Heq; rewrite Heq in Hd; vm_compute in Hd; done.
Qed.

Definition all_digits (s : string) : Prop := ∀ c, str_mem c s → is_Some (digit_val c).

Lemma format_digits_digits fuel n acc :
  0 ≤ n → all_digits acc → all_digits (format_digits fuel n acc).
Proof.
  revert n acc. induction fuel as [|fuel IH]; intros n acc Hn Hacc; [done|]. cbn [format_digits].
  assert (all_digits (String (digit (n mod 10)) acc)).
  { intros c [->|Hc]; [|by apply Hacc]. rewrite digit_val_digit; [eauto|].
    pose proof (Z.mod_pos_bound n 10). lia. }
  case_decide; [done|]. apply IH; [|done]. apply Z.div_pos; lia.
Qed.
Lemma format_uint_digits n : 0 ≤ n → all_digits (format_uint n).
Proof. intros. apply format_digits_digits; [done|]. by intros c Hc. Qed.
Lemma all_digits_no_minus s : all_digits s → ¬ str_mem "-" s.
Proof. intros H Hm. destruct (H _ Hm) as [v Hv]. by vm_compute in Hv. Qed.

Lemma parse_format_digits fuel n acc :
  0 ≤ n < 2 ^ Z.of_nat fuel → fuel ≠ O →
  parse_digits (format_digits fuel n acc) 0 = parse_digits acc n.
Proof.
  revert n acc. induction fuel as [|fuel IH]; intros n acc Hn Hf; [done|]. cbn [format_digits].
  pose proof (Z.mod_pos_bound n 10). pose proof (Z.div_mod n 10).
  assert (∀ v, parse_digits (String (digit (n mod 10)) acc) v = parse_digits acc (v * 10 + n mod 10))
    as Hstep by (intros v; cbn; rewrite digit_val_digit by lia; done).
  case_decide as Hz.
  - rewrite Hstep. f_equal. lia.
  - rewrite Nat2Z.inj_succ, Z.pow_succ_r in Hn by lia.
    destruct fuel as [|fuel]; [cbn in Hn; assert (n / 10 = 0) by (apply Z.div_small; lia); lia|].
    rewrite IH; [|split; [apply Z.div_pos; lia|]|done].
    + rewrite Hstep. f_equal. lia.
    + apply Z.div_lt_upper_bound; lia.
Qed.
Lemma format_uint_nonempty n : format_uint n ≠ "".
Proof.
  unfold format_uint. generalize (Z.to_nat (Z.log2 n)) as fuel. intros fuel. cbn [format_digits].
  assert (∀ f m c acc, format_digits f m (String c acc) ≠ "") as Hne.
  { induction f as [|f IH]; intros m c acc; cbn; [done|]. case_decide; [done|]. apply IH. }
  case_decide; [done|]. apply Hne.
Qed.
Lemma parse_format_uint n : 0 ≤ n → parse_uint (format_uint n) = Some n.
Proof.
  intros Hn. assert (parse_digits (format_uint n) 0 = Some n) as Hp.
  { unfold format_uint. rewrite parse_format_digits; [done| |done].
    split; [done|]. rewrite Nat2Z.inj_succ. rewrite Z2Nat.id by apply Z.log2_nonneg.
    destruct (decide (n = 0)) as [->|]; [done|]. apply Z.log2_spec. lia. }
  unfold parse_uint. pose proof (format_uint_nonempty n). by destruct (format_uint n).
Qed.
Lemma format_uint_head n c s : 0 ≤ n → format_uint n = String c s → c ≠ "-"%char ∧ c ≠ "+"%char.
Proof.
  intros Hn Heq. destruct (format_uint_digits n Hn c) as [v Hv]; [rewrite Heq; by left|].
  split; intros ->; by vm_compute in Hv.
Qed.

(** A formatted number parses back to itself if it is an [int64]. *)
Lemma parse_format_nonneg z : 0 ≤ z → parse_int64 (format_int z) = if decide (z < 2 ^ 63) then Some z else None.
Proof.
  intros Hz. unfold format_int. rewrite decide_False by lia. unfold parse_int64.
  destruct (format_uint z) as [|c s] eqn:Heq.
  { by apply format_uint_nonempty in Heq. }
  destruct (format_uint_head z _ _ ltac:(lia) Heq) as [Hm Hp].
  assert ((match String c s with
           | String "-" r => (true, r) | String "+" r => (false, r)
           | _ => (false, String c s) end) = (false, String c s)) as ->.
  { destruct c as [[] [] [] [] [] [] [] []]; done. }
  by rewrite <- Heq, parse_format_uint by lia.
Qed.
Lemma parse_format_int z : in64 z → parse_int64 (format_int z) = Some z.
Proof.
  unfold in64. intros Hz. destruct (decide (z < 0)) as [Hn|Hn].
  - unfold format_int. rewrite decide_True by lia. cbn [parse_int64]. rewrite parse_format_uint by lia. cbn.
    rewrite decide_True by lia. f_equal. lia.
  - rewrite parse_format_nonneg, decide_True by lia. done.
Qed.
Lemma parse_int64_in64 s z : parse_int64 s = Some z → in64 z.
Proof.
  unfold parse_int64, in64.
  assert (∀ d n, parse_uint d = Some n → 0 ≤ n) as Hnn.
  { assert (∀ d acc n, 0 ≤ acc → parse_digits d acc = Some n → 0 ≤ n) as Hd.
    { induction d as [|c d IH]; cbn; intros acc n Ha Hn; [congruence|].
      destruct (digit_val c) as [v|] eqn:Hv; [|done]. cbn in Hn. eapply IH; [|done].
      unfold digit_val in Hv. case_decide; simplify_eq. lia. }
    intros [|c d] n; [done|]. unfold parse_uint. by apply Hd. }
  match goal with |- (let '(_, _) := ?p in _) = _ → _ => destruct p as [neg d] end.
  destruct (parse_uint d) as [n|] eqn:Hn; cbn; [|done]. apply Hnn in Hn.
  destruct neg; case_decide; intros [= <-]; lia.
Qed.
Lemma format_int_inj z z' : in64 z → in64 z' → format_int z = format_int z' → z = z'.
Proof.
  intros Hz Hz' Heq. apply parse_format_int in Hz, Hz'. rewrite Heq in Hz. congruence.
Qed.
Lemma format_int_no_minus z : 0 ≤ z → ¬ str_mem "-" (format_int z).
Proof.
  intros Hz. unfold format_int. rewrite decide_False by lia.
  by apply all_digits_no_minus, format_uint_digits.
Qed.
Lemma format_int_no c z : 0 ≤ z → digit_val c = None → ¬ str_mem c (format_int z).
Proof.
  intros Hz Hc Hm. unfold format_int in Hm. rewrite decide_False in Hm by lia.
  destruct (format_uint_digits z Hz _ Hm) as [v Hv]. congruence.
Qed.
#[export] Hint Resolve format_int_no_minus format_int_no : gostrings.

(** ** More on splitting and parsing *)
Lemma index_byte_split s c :
  0 ≤ index_byte s c →
  s = str_to s (Z.to_nat (index_byte s c)) +:+ String c (str_from s (Z.to_nat (index_byte s c) + 1)) ∧
  ¬ str_mem c (str_to s (Z.to_nat (index_byte s c))).
Proof.
  induction s as [|d s IH]; cbn [index_byte]; [lia|]. case_decide as Hcd; [subst d|].
  - intros _. change (Z.to_nat 0) with 0%nat. cbn [str_to str_from Nat.add]. split; [|cbn; tauto].
    cbn. by destruct s.
  - case_decide as Hneg; [lia|]. intros _. destruct (IH ltac:(lia)) as [E1 E2].
    replace (Z.to_nat (index_byte s c + 1)) with (S (Z.to_nat (index_byte s c))) by lia.
    cbn [str_to str_from Nat.add]. rewrite str_app_cons. split; [by f_equal|]. cbn. tauto.
Qed.
Lemma index_byte_mem s c : str_mem c s → 0 ≤ index_byte s c.
Proof.
  induction s as [|d s IH]; cbn; [done|]. case_decide; [lia|]. intros [?|Hm]; [done|].
  specialize (IH Hm). rewrite decide_False by lia. lia.
Qed.
Lemma split2_two s c a b :
  split2 s c = [a; b] → s = a +:+ String c b ∧ ¬ str_mem c a.
Proof.
  unfold split2. cbv zeta. case_decide; [done|]. intros [= <- <-]. apply index_byte_split. lia.
Qed.
Lemma parse_digits_nonneg d acc n : 0 ≤ acc → parse_digits d acc = Some n → 0 ≤ n.
Proof.
  revert acc. induction d as [|c d IH]; cbn; intros acc Ha Hn; [congruence|].
  destruct (digit_val c) as [v|] eqn:Hv; [|done]. cbn in Hn. eapply IH; [|done].
  unfold digit_val in Hv. case_decide; simplify_eq. lia.
Qed.
Lemma parse_int64_nonneg s z : ¬ str_mem "-" s → parse_int64 s = Some z → 0 ≤ z.
Proof.
  intros Hm. destruct s as [|c s]; [by intros ?|]. unfold parse_int64.
  destruct (match String c s with String "-" r => (true, r) | String "+" r => (false, r)
            | _ => (false, String c s) end) as [neg d] eqn:Hp.
  assert (neg = false) as ->.
  { destruct neg; [|done]. exfalso. apply Hm. left.
    destruct c as [[] [] [] [] [] [] [] []]; done. }
  destruct (parse_uint d) as [n|] eqn:Hn; cbn; [|done]. case_decide; [|done]. intros [= <-].
  destruct d as [|c' d]; [done|]. by apply (parse_digits_nonneg (String c' d) 0).
Qed.

Lemma contains_char s c : contains s (String c "") = bool_decide (str_mem c s).
Proof.
  induction s as [|d s IH]; [done|].
  change (bool_decide (c = d) && has_prefix s "" || contains s (String c "") = bool_decide (c = d ∨ str_mem c s)).
  rewrite IH. assert (has_prefix s "" = true) as -> by (by destruct s). rewrite andb_true_r.
  by rewrite bool_decide_or.
Qed.

Section split_on.
Context (sep : ascii).
Lemma split_on_ne s : split_on sep s ≠ [].
Proof. destruct s as [|c s]; cbn; [done|]. case_decide; [done|]. by destruct (split_on sep s). Qed.
Lemma split_on_plain e : ¬ str_mem sep e → split_on sep e = [e].
Proof.
  induction e as [|c e IH]; [done|]. cbn. intros Hm. rewrite decide_False by (intros ->; tauto).
  rewrite IH by tauto. done.
Qed.
Lemma split_on_app e s :
  ¬ str_mem sep e → split_on sep (e +:+ String sep s) = e :: split_on sep s.
Proof.
  induction e as [|c e IH].
  - intros _. change (split_on sep (String sep s) = "" :: split_on sep s). cbn. by rewrite decide_True.
  - intros Hm. cbn in Hm. rewrite str_app_cons. cbn [split_on].
    rewrite decide_False by (intros ->; tauto). rewrite IH by tauto. done.
Qed.
Lemma split_join_on es :
  es ≠ [] → (∀ e, e ∈ es → ¬ str_mem sep e) → split_on sep (join_on sep es) = es.
Proof.
  induction es as [|e [|e' es] IH]; intros Hne Hes; [done| |].
  - apply split_on_plain, Hes. by left.
  - change (join_on sep (e :: e' :: es)) with (e +:+ String sep (join_on sep (e' :: es))).
    rewrite split_on_app by (apply Hes; by left). rewrite IH; [done|done|].
    intros x Hx. apply Hes. by right.
Qed.
Lemma join_split_on s : join_on sep (split_on sep s) = s.
Proof.
  induction s as [|c s IH]; [done|]. cbn [split_on]. pose proof (split_on_ne s) as Hne.
  destruct (split_on sep s) as [|e es]; [done|]. case_decide as Hc.
  - subst c. cbn [join_on] in IH |- *. by rewrite IH.
  - rewrite <- IH. by destruct es.
Qed.
Lemma split_on_no s e : e ∈ split_on sep s → ¬ str_mem sep e.
Proof.
  revert e. induction s as [|c s IH]; intros e; cbn.
  - intros ->%list_elem_of_singleton. by intros [].
  - pose proof (split_on_ne s). case_decide as Hc.
    + intros [->|He]%elem_of_cons; [by intros []|by apply IH].
    + destruct (split_on sep s) as [|x es]; [done|]. intros [->|He]%elem_of_cons.
      * intros [Heq|Hm]; [congruence|]. by apply (IH x ltac:(left)).
      * apply IH. by right.
Qed.
End split_on.
