(* ===== verification/GoPath.v ===== *)
(** * Go's [path] package, on slash-separated paths *)
From Stdlib Require Import Ascii.
From S2P Require Import Prelude GoStrings.

Definition slash : ascii := "/".

(** [strings.Split(s, "/")] and [strings.Join(elems, "/")] *)
Abbreviation split_slash := (split_on slash).
Abbreviation join_slash := (join_on slash).
(** [strings.TrimRight(s, "/")] *)
Fixpoint trim_right_slashes (s : string) : string :=
  match s with
  | EmptyString => EmptyString
  | String c r =>
      let r := trim_right_slashes r in
      if decide (c = slash ∧ r = EmptyString) then EmptyString else String c r
  end.

(** The elements [path.Clean] keeps, last first. *)
Definition clean_step (rooted : bool) (acc : list string) (e : string) : list string :=
  if decide (e = "" ∨ e = ".") then acc
  else if decide (e = "..") then
    match acc with
    | x :: rest => if decide (x = "..") then e :: acc else rest
    | [] => if rooted then [] else [e]
    end
  else e :: acc.
Definition clean_elems (rooted : bool) (elems : list string) : list string :=
  rev (foldl (clean_step rooted) [] elems).
Definition Clean (p : string) : string :=
  match p with
  | EmptyString => "."
  | String c r =>
      if decide (c = slash) then String slash (join_slash (clean_elems true (split_slash r)))
      else match clean_elems false (split_slash p) with
           | [] => "."
           | es => join_slash es
           end
  end.
(** [path.Join] of two elements. *)
Definition Join (a b : string) : string :=
  if decide (a = "") then (if decide (b = "") then "" else Clean b)
  else Clean (a +:+ String slash b).
Definition Base (p : string) : string :=
  if decide (p = "") then "."
  else
    let p := trim_right_slashes p in
    let p := str_from p (Z.to_nat (last_index_byte p slash + 1)) in
    if decide (p = "") then "/" else p.
(** [filepath.Ext] *)
Definition Ext (p : string) : string :=
  let i := last_index_byte p "." in
  if decide (i < 0 ∨ i < last_index_byte p slash) then "" else str_from p (Z.to_nat i).

(** ** Clean absolute paths *)
Definition plain (e : string) : Prop := e ≠ "" ∧ e ≠ "." ∧ e ≠ ".." ∧ ¬ str_mem slash e.
#[export] Instance plain_dec e : Decision (plain e).
Proof. unfold plain. apply _. Defined.
Definition abs_path (es : list string) : string := String slash (join_slash es).


Lemma clean_plain rooted es acc :
  Forall plain es → foldl (clean_step rooted) acc es = rev es ++ acc.
Proof.
  revert acc. induction es as [|e es IH]; intros acc Hes; [done|].
  inversion Hes as [|?? (H1 & H2 & H3 & _) Hrest]; subst. cbn [foldl]. unfold clean_step at 2.
  rewrite decide_False by tauto. rewrite decide_False by done. rewrite IH by done.
  cbn. by rewrite <- app_assoc.
Qed.
Lemma clean_elems_plain rooted es : Forall plain es → clean_elems rooted es = es.
Proof. intros H. unfold clean_elems. by rewrite clean_plain, app_nil_r, rev_involutive. Qed.
Lemma Forall_plain_no es : Forall plain es → ∀ e, e ∈ es → ¬ str_mem slash e.
Proof. intros H e He. rewrite Forall_forall in H. by apply H. Qed.

Lemma Clean_abs es : Forall plain es → Clean (abs_path es) = abs_path es.
Proof.
  intros Hes. cbn. rewrite decide_True by done. unfold abs_path. f_equal.
  destruct es as [|e es]; [done|]. rewrite split_join_on by (done || by apply Forall_plain_no).
  by rewrite clean_elems_plain.
Qed.
Lemma join_slash_snoc es e : es ≠ [] → join_slash (es ++ [e]) = join_slash es +:+ String slash e.
Proof.
  induction es as [|x [|y es] IH]; intros Hne; [done|done|].
  change (join_slash ((x :: y :: es) ++ [e])) with (x +:+ String slash (join_slash ((y :: es) ++ [e]))).
  rewrite IH by done. cbn [join_on]. rewrite str_app_assoc. done.
Qed.
(** The path of a child. *)
Lemma Join_abs es e : Forall plain es → plain e → Join (abs_path es) e = abs_path (es ++ [e]).
Proof.
  intros Hes He. unfold Join. rewrite decide_False by done. destruct es as [|x es].
  - change (String slash (join_slash (clean_elems true ("" :: split_slash e))) = abs_path [e]).
    rewrite split_on_plain by apply He. change (clean_elems true [""; e]) with (clean_elems true [e]).
    rewrite clean_elems_plain by (by constructor). done.
  - replace (abs_path (x :: es) +:+ String slash e) with (abs_path ((x :: es) ++ [e])).
    { apply Clean_abs, Forall_app. split; [done|]. by constructor. }
    unfold abs_path. rewrite join_slash_snoc by done. done.
Qed.

(** [Clean] of any rooted path has plain elements. *)
Lemma clean_step_plain acc e : Forall plain acc → ¬ str_mem slash e → Forall plain (clean_step true acc e).
Proof.
  intros Hacc He. unfold clean_step. case_decide as H1; [done|]. case_decide as H2.
  - destruct acc as [|x acc]; [done|]. inversion Hacc as [|?? Hx Hrest]; subst.
    rewrite decide_False by apply Hx. done.
  - constructor; [|done]. unfold plain. tauto.
Qed.
Lemma clean_elems_rooted s : Forall plain (clean_elems true (split_slash s)).
Proof.
  unfold clean_elems. apply Forall_rev. pose proof (split_on_no slash s) as Hno. revert Hno.
  generalize (split_slash s) as es. assert (Forall plain []) as Hacc by constructor. revert Hacc.
  generalize (@nil string) as acc. intros acc Hacc es. revert acc Hacc.
  induction es as [|e es IH]; intros acc Hacc Hno; [done|]. cbn [foldl]. apply IH.
  - apply clean_step_plain; [done|]. apply Hno. by left.
  - intros x Hx. apply Hno. by right.
Qed.
Lemma Clean_rooted s : ∃ es, Forall plain es ∧ Clean (String slash s) = abs_path es.
Proof.
  exists (clean_elems true (split_slash s)). split; [apply clean_elems_rooted|].
  cbn [Clean]. by rewrite decide_True.
Qed.

(** Longer and shorter paths *)
Lemma split_join_app es r :
  es ≠ [] → Forall plain es → split_slash (join_slash es +:+ String slash r) = es ++ split_slash r.
Proof.
  induction es as [|e [|e' es] IH]; intros Hne Hes; [done| |]; inversion Hes as [|?? He Hrest]; subst.
  - cbn [join_on app]. apply split_on_app, He.
  - change (join_slash (e :: e' :: es)) with (e +:+ String slash (join_slash (e' :: es))).
    rewrite str_app_assoc, str_app_cons, split_on_app by apply He. by rewrite IH.
Qed.
Lemma split_plain es : es ≠ [] → Forall plain es → split_slash (join_slash es) = es.
Proof. intros Hne Hes. apply split_join_on; [done|]. by apply Forall_plain_no. Qed.
Lemma abs_path_app es ps : es ≠ [] → ps ≠ [] → abs_path (es ++ ps) = abs_path es +:+ abs_path ps.
Proof.
  intros Hes Hps. unfold abs_path. rewrite str_app_cons. f_equal. clear -Hes Hps.
  induction es as [|e [|e' es] IH]; [done| |].
  - by destruct ps.
  - change (join_slash ((e :: e' :: es) ++ ps)) with (e +:+ String slash (join_slash ((e' :: es) ++ ps))).
    rewrite IH by done. cbn [join_on]. by rewrite str_app_assoc.
Qed.
Lemma abs_path_prefix es ps :
  es ≠ [] → Forall plain es → Forall plain ps → has_prefix (abs_path ps) (abs_path es +:+ "/") = true →
  ∃ names, names ≠ [] ∧ ps = es ++ names.
Proof.
  intros Hne Hes Hps [r Hr]%has_prefix_spec. unfold abs_path in Hr.
  rewrite !str_app_cons in Hr. injection Hr as Hr. change "/" with (String slash "") in Hr.
  rewrite str_app_assoc, str_app_cons, str_app_nil in Hr.
  destruct (decide (ps = [])) as [->|Hps0].
  { apply (f_equal String.length) in Hr. rewrite str_length_app in Hr. cbn in Hr. lia. }
  exists (split_slash r). split; [apply split_on_ne|]. rewrite <- split_join_app, <- Hr by done. by rewrite split_plain.
Qed.
Lemma abs_path_root es : Forall plain es → abs_path es = "/" → es = [].
Proof.
  intros Hes Heq. injection Heq as Heq. destruct es as [|e es]; [done|].
  inversion Hes as [|?? (H1 & _) _]; subst. destruct e as [|c e]; [done|]. by destruct es.
Qed.
Lemma Join_abs_app es ps : Forall plain es → Forall plain ps → ps ≠ [] → Join (abs_path es) (join_slash ps) = abs_path (es ++ ps).
Proof.
  intros Hes Hps Hne. unfold Join. rewrite decide_False by done. destruct (decide (es = [])) as [->|He].
  - change (String slash (join_slash (clean_elems true ("" :: split_slash (join_slash ps)))) = abs_path ps).
    rewrite split_plain by done. change (clean_elems true ("" :: ps)) with (clean_elems true ps).
    by rewrite clean_elems_plain.
  - rewrite <- (Clean_abs (es ++ ps)) by (by apply Forall_app). by rewrite abs_path_app.
Qed.
