(* ===== verification/GoSort.v ===== *)
(** * Sorting by name *)
From stdpp Require Import sorting.
From S2P Require Import Prelude.

(** [order by name asc], and [sort.Slice] or [sort.Strings] by a name: some order of the
    elements in which the names ascend bytewise. *)
Class NameOrder (A : Type) (name : A → string) := {
  by_name : list A → list A;
  by_name_perm : ∀ l, by_name l ≡ₚ l;
  by_name_sorted : ∀ l, Sorted (λ a b, String.le (name a) (name b)) (by_name l)
}.
Arguments by_name {A} name {_} _.

(** An order by name: merge sort. *)
Section merge_order.
Context {A : Type} (name : A → string).
Definition name_le (a b : A) : Prop := String.le (name a) (name b).
#[export] Instance name_le_dec : RelDecision name_le.
Proof. intros a b. unfold name_le. apply _. Defined.
#[export] Instance name_le_total : Total name_le.
Proof. intros a b. apply String.le_total. Qed.
Lemma merge_sorted l : Sorted name_le (merge_sort name_le l).
Proof. apply (Sorted_merge_sort name_le). Qed.
Definition merge_order : NameOrder A name :=
  {| by_name := merge_sort name_le; by_name_perm := merge_sort_Permutation name_le;
     by_name_sorted := merge_sorted |}.
End merge_order.
