(* ===== verification/GoUrl.v ===== *)
(** * Queries of URLs, as Go's [net/url] writes and reads them *)
From Stdlib Require Import Ascii.
From stdpp Require Import sorting.
From S2P Require Import Prelude GoStrings GoSort.

(** ** Escaping *)
Definition code_of (c : ascii) : Z := Z.of_N (N_of_ascii c).
Definition hex_digit (n : Z) : ascii := ascii_of_N (Z.to_N (if decide (n < 10) then 48 + n else 55 + n)).
Definition hex_val (c : ascii) : option Z :=
  let n := code_of c in
  if decide (48 ≤ n ≤ 57) then Some (n - 48)
  else if decide (65 ≤ n ≤ 70) then Some (n - 55)
  else if decide (97 ≤ n ≤ 102) then Some (n - 87)
  else None.
(** Letters, digits and [-_.~] stand for themselves in a query. *)
Definition unreserved (c : ascii) : bool :=
  let n := code_of c in
  bool_decide (65 ≤ n ≤ 90 ∨ 97 ≤ n ≤ 122 ∨ 48 ≤ n ≤ 57 ∨ n = 45 ∨ n = 95 ∨ n = 46 ∨ n = 126).
Definition escape_char (c : ascii) : string :=
  if unreserved c then String c ""
  else if decide (c = " "%char) then "+"
  else String "%" (String (hex_digit (code_of c / 16)) (String (hex_digit (code_of c mod 16)) "")).
Fixpoint QueryEscape (s : string) : string :=
  match s with EmptyString => EmptyString | String c s => escape_char c +:+ QueryEscape s end.
Fixpoint QueryUnescape (s : string) : option string :=
  match s with
  | EmptyString => Some EmptyString
  | String c r =>
      if decide (c = "%"%char) then
        match r with
        | String a (String b r) =>
            a ← hex_val a; b ← hex_val b; r ← QueryUnescape r;
            Some (String (ascii_of_N (Z.to_N (16 * a + b))) r)
        | _ => None
        end
      else
        r ← QueryUnescape r; Some (String (if decide (c = "+"%char) then " "%char else c) r)
  end.

(** ** Values: the values of each key, in order *)
Abbreviation Values := (gmap string (list string)).
Definition value_set (key value : string) (v : Values) : Values := <[key := [value]]> v.
Definition value_get (key : string) (v : Values) : string := default "" (head (default [] (v !! key))).
Definition add_value (v : Values) (kv : string * string) : Values :=
  <[kv.1 := default [] (v !! kv.1) ++ [kv.2]]> v.

Definition pairs_of (e : string * list string) : list (string * string) := map (pair e.1) e.2.
Definition encode_pair (kv : string * string) : string :=
  QueryEscape kv.1 +:+ String "=" (QueryEscape kv.2).
(** The keys in ascending order. *)
Definition Encode (v : Values) : string :=
  join_on "&" (map encode_pair (concat (map pairs_of (@by_name _ fst (merge_order fst) (map_to_list v))))).

(** A piece that does not parse is left out. *)
Definition parse_pair (piece : string) : option (string * string) :=
  if contains piece ";" || bool_decide (piece = "") then None
  else
    match split2 piece "=" with
    | [key; value] => key ← QueryUnescape key; value ← QueryUnescape value; Some (key, value)
    | _ => key ← QueryUnescape piece; Some (key, "")
    end.
Definition ParseQuery (query : string) : Values :=
  foldl add_value ∅ (omap parse_pair (split_on "&" query)).

(** ** Escaping is undone *)
Lemma hex_val_digit n : 0 ≤ n < 16 → hex_val (hex_digit n) = Some n.
Proof.
  intros Hn. unfold hex_val, hex_digit, code_of.
  assert (Z.of_N (N_of_ascii (ascii_of_N (Z.to_N (if decide (n < 10) then 48 + n else 55 + n))))
          = if decide (n < 10) then 48 + n else 55 + n) as ->.
  { rewrite N_ascii_embedding; case_decide; lia. }
  repeat case_decide; (lia || (f_equal; lia)).
Qed.
Lemma code_of_range c : 0 ≤ code_of c < 256.
Proof. unfold code_of. pose proof (N_ascii_bounded c). lia. Qed.
Lemma unescape_char c s : QueryUnescape (escape_char c +:+ s) = String c <$> QueryUnescape s.
Proof.
  unfold escape_char. destruct (unreserved c) eqn:Hu; [|destruct (decide (c = " "%char)) as [->|Hs]].
  - rewrite str_app_cons, str_app_nil. cbn [QueryUnescape].
    rewrite decide_False by (intros ->; by vm_compute in Hu).
    rewrite decide_False by (intros ->; by vm_compute in Hu). by destruct (QueryUnescape s).
  - change ("+" +:+ s) with (String "+" s). cbn. by destruct (QueryUnescape s).
  - pose proof (code_of_range c). rewrite !str_app_cons, str_app_nil. cbn [QueryUnescape].
    rewrite decide_True by done. rewrite !hex_val_digit.
    2: { split; [apply Z.div_pos; lia|]. apply Z.div_lt_upper_bound; lia. }
    2: { apply Z.mod_pos_bound. lia. }
    cbn [mbind option_bind]. rewrite <- Z.div_mod by lia. unfold code_of.
    rewrite N2Z.id, ascii_N_embedding. by destruct (QueryUnescape s).
Qed.
Lemma unescape_escape s : QueryUnescape (QueryEscape s) = Some s.
Proof. induction s as [|c s IH]; [done|]. cbn [QueryEscape]. by rewrite unescape_char, IH. Qed.

(** The separators of a query never come out of an escape. *)
Definition separator (c : ascii) : Prop := c = "&"%char ∨ c = ";"%char ∨ c = "="%char.
Lemma escape_char_safe c d : separator d → ¬ str_mem d (escape_char c).
Proof.
  intros Hd.
  assert (∀ s, bool_decide (str_mem "&" s ∨ str_mem ";" s ∨ str_mem "=" s) = false → ¬ str_mem d s) as Hs.
  { intros s Hb%bool_decide_eq_false Hm. apply Hb. destruct Hd as [->|[->| ->]]; tauto. }
  apply Hs. destruct c as [[] [] [] [] [] [] [] []]; vm_compute; reflexivity.
Qed.
Lemma escape_safe s d : separator d → ¬ str_mem d (QueryEscape s).
Proof.
  intros Hd. induction s as [|c s IH]; cbn [QueryEscape]; [by intros []|].
  rewrite str_mem_app. intros [Hm|Hm]; [by eapply escape_char_safe|done].
Qed.
Lemma encode_pair_safe kv d : d = "&"%char ∨ d = ";"%char → ¬ str_mem d (encode_pair kv).
Proof.
  intros Hd Hm. assert (separator d) as Hsep by (unfold separator; tauto).
  unfold encode_pair in Hm. rewrite str_mem_app in Hm. destruct Hm as [Hm|[Hm|Hm]].
  - by apply (escape_safe kv.1 d).
  - destruct Hd; congruence.
  - by apply (escape_safe kv.2 d).
Qed.
Lemma parse_encode_pair kv : parse_pair (encode_pair kv) = Some kv.
Proof.
  unfold parse_pair. rewrite contains_char, bool_decide_false by (apply encode_pair_safe; tauto).
  rewrite bool_decide_false by (unfold encode_pair; by destruct (QueryEscape kv.1)). cbn [orb].
  unfold encode_pair. rewrite split2_app by (apply escape_safe; unfold separator; tauto).
  rewrite !unescape_escape. by destruct kv.
Qed.
Lemma omap_parse_encode l : omap parse_pair (map encode_pair l) = l.
Proof. induction l as [|kv l IH]; [done|]. cbn. by rewrite parse_encode_pair, IH. Qed.

(** ** Reading back what was written *)
Lemma add_pairs key vs v :
  v !! key = None → vs ≠ [] → foldl add_value v (map (pair key) vs) = <[key := vs]> v.
Proof.
  intros Hk Hne.
  assert (∀ ws pre, pre ≠ [] → foldl add_value (<[key := pre]> v) (map (pair key) ws) = <[key := pre ++ ws]> v) as Hpre.
  { induction ws as [|x ws IH]; intros pre Hpre; [by rewrite app_nil_r|]. cbn [map foldl].
    unfold add_value at 2. cbn [fst snd]. rewrite lookup_insert_eq, insert_insert_eq. cbn [default].
    rewrite IH by (by destruct pre). by rewrite <- app_assoc. }
  destruct vs as [|x vs]; [done|]. cbn [map foldl]. unfold add_value at 2. cbn [fst snd].
  rewrite Hk. cbn [default app]. by rewrite Hpre.
Qed.
Lemma add_all_pairs l v :
  NoDup l.*1 → (∀ e, e ∈ l → v !! e.1 = None ∧ e.2 ≠ []) →
  foldl add_value v (concat (map pairs_of l)) = list_to_map l ∪ v.
Proof.
  revert v. induction l as [|[key vs] l IH]; intros v Hnd Hl; cbn [map concat fmap list_fmap] in *.
  { by rewrite list_to_map_nil, (left_id_L ∅ (∪)). }
  apply NoDup_cons in Hnd as [Hn Hnd]. destruct (Hl (key, vs) ltac:(left)) as [Hk Hvs]. cbn in Hk, Hvs.
  rewrite foldl_app. change (pairs_of (key, vs)) with (map (pair key) vs). rewrite add_pairs by done. rewrite IH; [|done|].
  - rewrite list_to_map_cons, <- insert_union_r by (by apply not_elem_of_list_to_map_1). by rewrite insert_union_l.
  - intros [k ws] He. cbn. destruct (Hl (k, ws)) as [? ?]; [by right|]. split; [|done].
    rewrite lookup_insert_ne; [done|]. intros <-. apply Hn. by apply (list_elem_of_fmap_2 fst _ (key, ws)).
Qed.

Definition no_empty (v : Values) : Prop := map_Forall (λ _ vs, vs ≠ []) v.
Lemma parse_encode v : no_empty v → ParseQuery (Encode v) = v.
Proof.
  intros Hv. unfold ParseQuery, Encode. set (l := by_name fst (map_to_list v)).
  assert (l ≡ₚ map_to_list v) as Hl by apply by_name_perm.
  assert (list_to_map l = v) as Hm.
  { transitivity (list_to_map (M := Values) (map_to_list v)); [|apply list_to_map_to_list].
    apply list_to_map_proper; [|done]. rewrite Hl. apply NoDup_fst_map_to_list. }
  assert (foldl add_value ∅ (concat (map pairs_of l)) = v) as Hfold.
  { rewrite add_all_pairs; [by rewrite Hm, (right_id_L ∅ (∪))| |].
    - rewrite Hl. apply NoDup_fst_map_to_list.
    - intros [k vs] He. cbn. split; [apply lookup_empty|]. rewrite Hl in He.
      apply elem_of_map_to_list in He. by apply (Hv k). }
  destruct (concat (map pairs_of l)) as [|kv pairs] eqn:Hc; [done|]. rewrite split_join_on; [|done|].
  - by rewrite omap_parse_encode.
  - intros e He. apply list_elem_of_fmap in He as (x & -> & _). apply encode_pair_safe. by left.
Qed.
