(* ===== verification/ChunkKeys.v ===== *)
(** * Names of stream chunks ([src/internal/stream/store.go])

    A remote file's version string, the key of one of its chunks, and the
    file name a chunk has in the disk cache, with the two facts the caches
    depend on: different file versions never share a key, and a cache file
    name written by one process is read back as the same key by the next. *)
From Stdlib Require Import Ascii.
From S2P Require Import Prelude GoStrings.

(** [type File] *)
Record File := mkFile { FSID : string; Size : Z; MTM : Z }.
(** [type chunkKey] *)
Record chunkKey := mkChunkKey { version : string; index : Z }.

#[export] Instance File_eq_dec : EqDecision File.
Proof. solve_decision. Defined.
#[export] Instance chunkKey_eq_dec : EqDecision chunkKey.
Proof. solve_decision. Defined.
#[export] Instance chunkKey_countable : Countable chunkKey :=
  inj_countable' (λ k, (version k, index k)) (λ p, mkChunkKey p.1 p.2) (λ '(mkChunkKey _ _), eq_refl).

Definition fileVersion (file : File) : string :=
  FSID file +:+ "-" +:+ format_int (Size file) +:+ "-" +:+ format_int (MTM file).

Definition chunkVersion (file : File) (chunkSize : Z) : string :=
  fileVersion file +:+ "-chunk-" +:+ format_int chunkSize.

(** [strings.NewReplacer("/", "_", "\\", "_", ":", "_", "..", "_").Replace]:
    at each position the first old string that matches, without overlap. *)
Fixpoint sanitizeVersion (value : string) : string :=
  match value with
  | EmptyString => ""
  | String "/" r | String "\" r | String ":" r => String "_" (sanitizeVersion r)
  | String "." (String "." r) => String "_" (sanitizeVersion r)
  | String c r => String c (sanitizeVersion r)
  end.

(** [chunkPath] without the directory: [filepath.Join(s.diskPath, name)] is
    the file [name] of the cache directory, the name holding no separator. *)
Definition chunkPath (key : chunkKey) : string :=
  sanitizeVersion (version key) +:+ "-" +:+ format_int (index key) +:+ ".chunk".

Definition parseChunkFileName (name : string) : option chunkKey :=
  let base := trim_suffix name ".chunk" in
  if decide (base = name) then None
  else
    let separator := last_index_byte base "-" in
    if decide (separator ≤ 0 ∨ separator = str_len base - 1) then None
    else
      i ← parse_int64 (str_from base (Z.to_nat separator + 1));
      if decide (i < 0) then None
      else Some (mkChunkKey (str_to base (Z.to_nat separator)) i).

(** ** Lemmas *)

(** Keys the program itself makes: a version the replacer leaves alone, a
    chunk index that is a file offset divided by the chunk size. *)
Definition key_ok (k : chunkKey) : Prop :=
  version k ≠ "" ∧ sanitizeVersion (version k) = version k ∧ 0 ≤ index k < 2 ^ 63.

#[export] Instance key_ok_dec k : Decision (key_ok k).
Proof. unfold key_ok. apply _. Defined.

(** Decimal FSIDs, as the Baidu client produces them, need no replacement. *)
Definition plain_char (c : ascii) : Prop :=
  c ≠ "/"%char ∧ c ≠ "\"%char ∧ c ≠ ":"%char ∧ c ≠ "."%char.

Lemma sanitize_plain s : (∀ c, str_mem c s → plain_char c) → sanitizeVersion s = s.
Proof.
  induction s as [|c s IH]; intros Hs; [done|].
  assert (plain_char c) as (H1 & H2 & H3 & H4) by (apply Hs; by left).
  rewrite <- IH at 2 by (intros d Hd; apply Hs; by right).
  destruct c as [[] [] [] [] [] [] [] []]; done.
Qed.

Lemma all_digits_plain s : all_digits s → ∀ c, str_mem c s → plain_char c.
Proof.
  intros Hs c Hc. destruct (Hs c Hc) as [v Hv].
  repeat split; intros ->; by vm_compute in Hv.
Qed.
Lemma format_int_plain z c : str_mem c (format_int z) → plain_char c.
Proof.
  unfold format_int. case_decide; [intros [->|Hc]; [done|]|intros Hc];
    (eapply all_digits_plain; [|exact Hc]; apply format_uint_digits; lia).
Qed.

Lemma chunkVersion_plain file cs :
  all_digits (FSID file) → sanitizeVersion (chunkVersion file cs) = chunkVersion file cs.
Proof.
  intros Hf. apply sanitize_plain. intros c. unfold chunkVersion, fileVersion.
  rewrite !str_mem_app.
  intros [[Hc|[Hc|[Hc|[Hc|Hc]]]]|[Hc|Hc]];
    [by eapply all_digits_plain| |by eapply format_int_plain| |by eapply format_int_plain
    | |by eapply format_int_plain]; cbn in Hc; destruct_or!; by subst.
Qed.

Lemma chunkVersion_nonempty file cs : chunkVersion file cs ≠ "".
Proof.
  unfold chunkVersion, fileVersion. intros Heq. apply (f_equal String.length) in Heq.
  rewrite !str_length_app in Heq. cbn in Heq. lia.
Qed.

(** Two files with sizes and times the remote reports (non-negative) that get
    the same version string are the same file. *)
Lemma chunkVersion_same file file' cs :
  0 ≤ Size file < 2 ^ 63 → 0 ≤ MTM file < 2 ^ 63 →
  0 ≤ Size file' < 2 ^ 63 → 0 ≤ MTM file' < 2 ^ 63 →
  chunkVersion file cs = chunkVersion file' cs → file = file'.
Proof.
  destruct file as [f s m], file' as [f' s' m']. unfold chunkVersion, fileVersion; cbn.
  intros Hs Hm Hs' Hm' Heq. apply str_app_inj_r in Heq.
  assert (∀ u v w x, u +:+ "-" +:+ v +:+ "-" +:+ w = x ↔ (u +:+ String "-" v) +:+ String "-" w = x)
    as Hshape by (intros; by rewrite str_app_assoc).
  apply Hshape in Heq. symmetry in Heq. apply Hshape in Heq. symmetry in Heq.
  apply last_sep_inj in Heq as [Heq Hmm]; [|by apply format_int_no_minus; lia..].
  apply last_sep_inj in Heq as [-> Hss]; [|by apply format_int_no_minus; lia..].
  apply format_int_inj in Hmm as ->; [|unfold in64; lia..].
  by apply format_int_inj in Hss as ->; [|unfold in64; lia..].
Qed.

Lemma parse_chunkPath k : key_ok k → parseChunkFileName (chunkPath k) = Some k.
Proof.
  intros (Hne & Hs & Hi). unfold parseChunkFileName, chunkPath. rewrite Hs.
  assert (version k +:+ "-" +:+ format_int (index k) +:+ ".chunk"
          = (version k +:+ String "-" (format_int (index k))) +:+ ".chunk") as ->
    by (by rewrite str_app_assoc).
  rewrite trim_suffix_app. rewrite decide_False; cycle 1.
  { intros Heq. apply (f_equal String.length) in Heq. rewrite !str_length_app in Heq.
    cbn in Heq. lia. }
  rewrite last_index_byte_app by (apply format_int_no_minus; lia).
  assert (format_int (index k) ≠ "") as Hfne.
  { unfold format_int. rewrite decide_False by lia. apply format_uint_nonempty. }
  rewrite decide_False; cycle 1.
  { unfold str_len. rewrite str_length_app. cbn [String.length].
    destruct (version k); [done|]. destruct (format_int (index k)); [done|]. cbn [String.length]. lia. }
  unfold str_len. rewrite Nat2Z.id, str_to_app.
  assert (∀ s t c, str_from (s +:+ String c t) (String.length s + 1) = t) as ->.
  { clear. intros s t c. induction s as [|d s IH]; [by destruct t|]. apply IH. }
  rewrite parse_format_int by (unfold in64; lia). cbn.
  rewrite decide_False by lia. by destruct k.
Qed.

Lemma chunkPath_inj k k' : key_ok k → key_ok k' → chunkPath k = chunkPath k' → k = k'.
Proof.
  intros Hk Hk' Heq. apply parse_chunkPath in Hk, Hk'. rewrite Heq in Hk. congruence.
Qed.
