(* ===== verification/ChunkStore.v ===== *)
(** * The chunk store ([src/internal/stream/store.go])

    Two caches over the same keys: chunks in memory, evicted in
    least-recently-used order under a byte limit, and chunks as files of a
    cache directory, with an index of the same shape.  [dir] is the directory
    as the operating system holds it: base name to file.  Each function here
    is the body of one critical section ([mu] or [diskMu]) or of a method
    made of them; a [diskIO] says which file operations fail. *)
From stdpp Require Import sorting.
From S2P Require Import Prelude GoList GoStrings ChunkKeys.

(** [type cacheEntry], [type diskCacheEntry] *)
Record cacheEntry := mkEntry { ce_key : chunkKey; ce_data : bytes }.
Record diskCacheEntry := mkDiskEntry { de_key : chunkKey; de_path : string; de_size : Z }.

(** A file of the cache directory, as [os.DirEntry] and [os.FileInfo] show it. *)
Inductive fileKind := RegularFile | Directory | OtherFile.
Record dirFile := mkDirFile { df_kind : fileKind; df_data : bytes; df_mtime : Z }.

#[export] Instance fileKind_eq_dec : EqDecision fileKind.
Proof. solve_decision. Defined.

(** [type chunkStore] *)
Record chunkStore := mkChunkStore {
  memoryLimit : Z; memoryBytes : Z;
  memory : gmap chunkKey elt; lru : golist cacheEntry;
  diskPath : string; diskLimit : Z; diskBytes : Z;
  diskReady : gmap chunkKey Z; diskLRU : golist diskCacheEntry;
  diskEntries : gmap chunkKey elt;
  dir : gmap string dirFile
}.
#[export] Instance chunkStore_eta : Eta chunkStore := λ s,
  mkChunkStore (memoryLimit s) (memoryBytes s) (memory s) (lru s) (diskPath s) (diskLimit s)
    (diskBytes s) (diskReady s) (diskLRU s) (diskEntries s) (dir s).

(** Which operating-system calls fail, and the data [putDisk] cannot choose:
    the temporary file's name and the time the file gets. *)
Inductive putFault := CreateTempFails | WriteFails (written : bytes) | CloseFails | RenameFails.
Record diskIO := mkDiskIO {
  read_fails : string → bool; remove_fails : string → bool;
  mkdir_fails : bool; readdir_fails : bool;
  put_fault : option putFault; put_temp : string; put_time : Z
}.
Definition goodIO : diskIO :=
  mkDiskIO (λ _, false) (λ _, false) false false None "chunk-0.part" 0.

Inductive storeError := ErrNegativeLimits | ErrDisk.
#[export] Instance storeError_eq_dec : EqDecision storeError.
Proof. solve_decision. Defined.

(** The guard of every disk operation: [s.diskPath == "" || s.diskLimit <= 0]. *)
Definition disk_disabled (s : chunkStore) : Prop := diskPath s = "" ∨ diskLimit s ≤ 0.
#[export] Instance disk_disabled_dec s : Decision (disk_disabled s).
Proof. unfold disk_disabled. apply _. Defined.

Section memory_cache.
Implicit Types (s : chunkStore) (key : chunkKey) (data : bytes).

Definition entry_len (e : cacheEntry) : Z := zlen (ce_data e).

(** The loop [for s.memoryBytes > s.memoryLimit && s.lru.Len() > 0]; each
    turn removes an element, so [list_len] turns are enough. *)
Fixpoint evict_loop (fuel : nat) s : chunkStore :=
  match fuel with
  | O => s
  | S fuel =>
      if decide (memoryLimit s < memoryBytes s ∧ (0 < list_len (lru s))%nat) then
        match list_front (lru s) with
        | None => s
        | Some element =>
            match elt_value element (lru s) with
            | None => s
            | Some entry =>
                evict_loop fuel
                  (s <| memory ::= delete (ce_key entry) |>
                     <| memoryBytes ::= λ b, b - entry_len entry |>
                     <| lru ::= list_remove element |>)
            end
        end
      else s
  end.

Definition putMemory key data s : chunkStore :=
  if decide (memoryLimit s ≤ 0 ∨ memoryLimit s < zlen data) then s
  else
    let s :=
      match memory s !! key with
      | Some element =>
          let old := from_option entry_len 0 (elt_value element (lru s)) in
          s <| memoryBytes ::= λ b, b - old + zlen data |>
            <| lru ::= λ l, list_move_to_back element (elt_set element (mkEntry key data) l) |>
      | None =>
          let '(l, element) := list_push_back (mkEntry key data) (lru s) in
          s <| lru := l |> <| memory ::= <[key := element]> |>
            <| memoryBytes ::= λ b, b + zlen data |>
      end in
    evict_loop (list_len (lru s)) s.

Definition clearMemory s : chunkStore * Z :=
  (s <| memory := ∅ |> <| lru := list_new |> <| memoryBytes := 0 |>, memoryBytes s).

Definition removeMemoryLocked key s : chunkStore :=
  match memory s !! key with
  | None => s
  | Some element =>
      let len := from_option entry_len 0 (elt_value element (lru s)) in
      s <| memory ::= delete key |> <| memoryBytes ::= λ b, b - len |>
        <| lru ::= list_remove element |>
  end.

Definition removeMemoryRange (ver : string) (start end_ : Z) s : chunkStore :=
  if decide (end_ ≤ start) then s
  else foldl (λ s i, removeMemoryLocked (mkChunkKey ver i) s) s (seqZ start (end_ - start)).

Definition outside_window (ver : string) (start end_ : Z) key : Prop :=
  version key = ver ∧ (index key < start ∨ end_ < index key).
#[export] Instance outside_window_dec ver start end_ key : Decision (outside_window ver start end_ key).
Proof. unfold outside_window. apply _. Defined.

(** [for key := range s.memory]: Go visits the keys in an [order] of its choice. *)
Definition pruneMemoryWindow_in (order : list chunkKey) (ver : string) (start end_ : Z) s
    : chunkStore :=
  foldl (λ s key, if decide (outside_window ver start end_ key)
                  then removeMemoryLocked key s else s) s order.
Definition pruneMemoryWindow (ver : string) (start end_ : Z) s : chunkStore :=
  pruneMemoryWindow_in (map_to_list (memory s)).*1 ver start end_ s.
End memory_cache.

Section disk_cache.
Implicit Types (s : chunkStore) (key : chunkKey) (data : bytes) (io : diskIO) (path : string).

(** [os.ReadFile] and [os.Remove] on the cache directory; [remove_file]'s
    flag tells an error other than [os.ErrNotExist]. *)
Definition read_file io path s : option bytes :=
  match dir s !! path with
  | Some (mkDirFile RegularFile data _) => if read_fails io path then None else Some data
  | _ => None
  end.
Definition remove_file io path s : chunkStore * bool :=
  match dir s !! path with
  | Some _ => if remove_fails io path then (s, true) else (s <| dir ::= delete path |>, false)
  | None => (s, false)
  end.

Definition addDiskLocked key path (length : Z) s : chunkStore :=
  let s :=
    match diskEntries s !! key with
    | Some element =>
        let old := from_option de_size 0 (elt_value element (diskLRU s)) in
        s <| diskBytes ::= λ b, b - old |>
          <| diskLRU ::= λ l, list_move_to_back element
                                (elt_set element (mkDiskEntry key path length) l) |>
    | None =>
        let '(l, element) := list_push_back (mkDiskEntry key path length) (diskLRU s) in
        s <| diskLRU := l |> <| diskEntries ::= <[key := element]> |>
    end in
  s <| diskReady ::= <[key := length]> |> <| diskBytes ::= λ b, b + length |>.

Definition touchDiskLocked key s : chunkStore :=
  match diskEntries s !! key with
  | Some element => s <| diskLRU ::= list_move_to_back element |>
  | None => s
  end.

Definition removeDiskLocked key s : chunkStore :=
  let s :=
    match diskEntries s !! key with
    | Some element =>
        let size := from_option de_size 0 (elt_value element (diskLRU s)) in
        s <| diskBytes ::= λ b, b - size |> <| diskLRU ::= list_remove element |>
          <| diskEntries ::= delete key |>
    | None => s
    end in
  s <| diskReady ::= delete key |>.

(** [for s.diskBytes > s.diskLimit && s.diskLRU.Len() > 0] *)
Fixpoint trim_loop (fuel : nat) io s : chunkStore * option storeError :=
  match fuel with
  | O => (s, None)
  | S fuel =>
      if decide (diskLimit s < diskBytes s ∧ (0 < list_len (diskLRU s))%nat) then
        match list_front (diskLRU s) ≫= λ e, elt_value e (diskLRU s) with
        | None => (s, None)
        | Some entry =>
            let '(s, failed) := remove_file io (de_path entry) s in
            if failed then (s, Some ErrDisk)
            else trim_loop fuel io (removeDiskLocked (de_key entry) s)
        end
      else (s, None)
  end.
Definition trimDiskLocked io s : chunkStore * option storeError :=
  trim_loop (list_len (diskLRU s)) io s.

Definition forgetDisk io key path s : chunkStore :=
  (remove_file io path (removeDiskLocked key s)).1.

(** Creating, writing, closing and renaming the temporary file; the deferred
    [os.Remove(tempPath)] of a failed write may itself fail and leave it. *)
Definition write_temp (io : diskIO) data s : chunkStore :=
  s <| dir ::= <[put_temp io := mkDirFile RegularFile data (put_time io)]> |>.
Definition remove_temp (io : diskIO) s : chunkStore := (remove_file io (put_temp io) s).1.

Definition putDisk io key data s : chunkStore * option storeError :=
  if decide (zlen data = 0 ∨ disk_disabled s) then (s, None)
  else
    let path := chunkPath key in
    match put_fault io with
    | Some CreateTempFails => (s, Some ErrDisk)
    | Some (WriteFails written) => (remove_temp io (write_temp io written s), Some ErrDisk)
    | Some CloseFails | Some RenameFails => (remove_temp io (write_temp io data s), Some ErrDisk)
    | None =>
        let s := s <| dir ::= λ d, <[path := mkDirFile RegularFile data (put_time io)]>
                                     (delete (put_temp io) d) |> in
        trimDiskLocked io (addDiskLocked key path (zlen data) s)
    end.

Definition getWithTouch io key (touch : bool) s : chunkStore * option bytes :=
  match memory s !! key with
  | Some element =>
      (if touch then s <| lru ::= list_move_to_back element |> else s,
       ce_data <$> elt_value element (lru s))
  | None =>
      if decide (disk_disabled s) then (s, None)
      else
        let path := chunkPath key in
        match diskReady s !! key with
        | None => (s, None)
        | Some _ =>
            let s := touchDiskLocked key s in
            match read_file io path s with
            | None => (forgetDisk io key path s, None)
            | Some data => (putMemory key data s, Some data)
            end
        end
  end.
Definition get io key s := getWithTouch io key true s.
Definition getWithoutTouch io key s := getWithTouch io key false s.

Definition length_of key s : chunkStore * option Z :=
  match memory s !! key with
  | Some element => (s, entry_len <$> elt_value element (lru s))
  | None =>
      if decide (disk_disabled s) then (s, None)
      else
        match diskReady s !! key with
        | Some length => (touchDiskLocked key s, Some length)
        | None => (s, None)
        end
  end.

Definition usage s : Z * Z := (memoryBytes s, diskBytes s).

Definition put io key data s : chunkStore * option storeError :=
  if decide (zlen data = 0) then (s, None)
  else
    let s := putMemory key data s in
    if decide (disk_disabled s) then (s, None) else putDisk io key data s.
End disk_cache.

Section start.
Implicit Types (s : chunkStore) (io : diskIO).

Definition is_partial (p : string * dirFile) : Prop :=
  df_kind p.2 ≠ Directory ∧ has_suffix p.1 ".part" = true.
#[export] Instance is_partial_dec p : Decision (is_partial p).
Proof. unfold is_partial. apply _. Defined.

Definition removePartialFiles io s : result storeError chunkStore :=
  if readdir_fails io then Err ErrDisk
  else if decide (Exists (λ p, is_partial p ∧ remove_fails io p.1 = true) (map_to_list (dir s)))
  then Err ErrDisk
  else Ok (s <| dir ::= filter (λ p, ¬ is_partial p) |>).

Definition is_chunk_file (p : string * dirFile) : Prop :=
  df_kind p.2 = RegularFile ∧ has_suffix p.1 ".chunk" = true.
#[export] Instance is_chunk_file_dec p : Decision (is_chunk_file p).
Proof. unfold is_chunk_file. apply _. Defined.

(** [sort.Slice] by modification time, oldest first. *)
Definition older (p q : string * dirFile) : Prop := df_mtime p.2 ≤ df_mtime q.2.
#[export] Instance older_dec : RelDecision older.
Proof. unfold RelDecision, older. intros. apply _. Defined.
Definition chunk_files s : list (string * dirFile) :=
  merge_sort older (filter is_chunk_file (map_to_list (dir s))).

Definition index_files (files : list (string * dirFile)) s : chunkStore :=
  foldl (λ s p, match parseChunkFileName p.1 with
                | Some key => addDiskLocked key p.1 (zlen (df_data p.2)) s
                | None => s
                end) s files.

Definition loadDiskIndex io s : result storeError chunkStore :=
  if readdir_fails io then Err ErrDisk
  else match trimDiskLocked io (index_files (chunk_files s) s) with
       | (s, None) => Ok s
       | (_, Some e) => Err e
       end.

Definition emptyStore (memoryLimit : Z) (diskPath : string) (diskLimit : Z)
    (d : gmap string dirFile) : chunkStore :=
  mkChunkStore memoryLimit 0 ∅ list_new diskPath diskLimit 0 ∅ list_new ∅ d.

(** The directory [d] is what an earlier process left. *)
Definition newChunkStore io (memoryLimit : Z) (diskPath : string) (diskLimit : Z)
    (d : gmap string dirFile) : result storeError chunkStore :=
  if decide (memoryLimit < 0 ∨ diskLimit < 0) then Err ErrNegativeLimits
  else
    let s := emptyStore memoryLimit diskPath diskLimit d in
    if decide (diskPath ≠ "" ∧ 0 < diskLimit) then
      if mkdir_fails io then Err ErrDisk
      else removePartialFiles io s ≫= loadDiskIndex io
    else Ok s.
End start.
