(* ===== verification/ChunkMemory.v ===== *)
(** * The memory cache is a byte-bounded LRU list

    The abstract specification is a list of entries with distinct keys, oldest
    first, and the theorems say that each operation of [ChunkStore] implements
    the obvious list function, keeps the byte count exact and the limit
    respected. *)
From S2P Require Import Prelude GoList GoStrings ChunkKeys ChunkStore.

(** ** Specification *)
Definition total (l : list cacheEntry) : Z := zsum entry_len l.

Fixpoint lru_evict (limit : Z) (l : list cacheEntry) : list cacheEntry :=
  match l with
  | [] => []
  | e :: l' => if decide (limit < total l) then lru_evict limit l' else l
  end.
Definition lru_put (limit : Z) (key : chunkKey) (data : bytes) (l : list cacheEntry) :=
  if decide (limit ≤ 0 ∨ limit < zlen data) then l
  else lru_evict limit (del_key ce_key key l ++ [mkEntry key data]).
Definition lru_touch (key : chunkKey) (l : list cacheEntry) : list cacheEntry :=
  match find_key ce_key key l with
  | Some e => del_key ce_key key l ++ [e]
  | None => l
  end.

(** The content of the memory cache. *)
Definition mem (s : chunkStore) : list cacheEntry := values (lru s).
Definition mem_lookup (s : chunkStore) (key : chunkKey) : option bytes :=
  ce_data <$> find_key ce_key key (mem s).

Record mem_wf (s : chunkStore) : Prop := {
  mw_index : index_wf ce_key (memory s) (lru s);
  mw_bytes : memoryBytes s = total (mem s);
  mw_limit : total (mem s) ≤ Z.max 0 (memoryLimit s)
}.

(** ** Facts about the specification *)
Lemma entry_len_nonneg e : 0 ≤ entry_len e.
Proof. apply zlen_nonneg. Qed.
Lemma total_nonneg l : 0 ≤ total l.
Proof. apply zsum_nonneg. intros. apply entry_len_nonneg. Qed.
Lemma total_cons e l : total (e :: l) = entry_len e + total l.
Proof. done. Qed.
Lemma total_nil : total [] = 0.
Proof. done. Qed.
Lemma total_snoc l key data : total (l ++ [mkEntry key data]) = total l + zlen data.
Proof. unfold total. rewrite zsum_app. cbn. unfold entry_len. cbn. lia. Qed.
Lemma total_app l k : total (l ++ k) = total l + total k.
Proof. apply zsum_app. Qed.

Lemma total_del key l : total (del_key ce_key key l) ≤ total l.
Proof.
  induction l as [|e l IH]; [done|]. unfold del_key in *. rewrite filter_cons, total_cons.
  pose proof (entry_len_nonneg e). case_decide; rewrite ?total_cons; lia.
Qed.

Lemma total_del_found key l e :
  NoDup (ce_key <$> l) → find_key ce_key key l = Some e →
  total (del_key ce_key key l) = total l - entry_len e.
Proof.
  induction l as [|e' l IH]; [done|]. rewrite fmap_cons. intros [Hn Hnd]%NoDup_cons Hf.
  unfold del_key in *. rewrite filter_cons, total_cons. cbn in Hf. case_bool_decide as Hb.
  - simplify_eq. rewrite decide_False by tauto. pose proof (del_key_id ce_key _ _ Hn) as Hd.
    unfold del_key in Hd. rewrite Hd. lia.
  - rewrite decide_True by done. rewrite total_cons, IH by done. lia.
Qed.

Lemma lru_evict_suffix limit l : ∃ dropped, l = dropped ++ lru_evict limit l.
Proof.
  induction l as [|e l [d IH]]; cbn [lru_evict]; [by exists []|]. case_decide; [|by exists []].
  exists (e :: d). cbn. by f_equal.
Qed.
Lemma lru_evict_total limit l : total (lru_evict limit l) ≤ Z.max 0 limit.
Proof.
  induction l as [|e l IH]; cbn [lru_evict]; [cbn; lia|]. case_decide; [done|lia].
Qed.
Lemma lru_evict_fits limit l : total l ≤ limit → lru_evict limit l = l.
Proof. destruct l as [|e l]; [done|]. cbn [lru_evict]. intros. by rewrite decide_False by lia. Qed.
(** Eviction stops at the first suffix that fits. *)
Lemma lru_evict_maximal limit l d e r :
  l = d ++ e :: r → lru_evict limit l = r → limit < total (e :: r).
Proof.
  revert l. induction d as [|e' d IH]; intros l -> Heq; cbn [app lru_evict] in Heq.
  - case_decide; [done|]. apply (f_equal length) in Heq. cbn in Heq. lia.
  - case_decide; [by eapply IH|].
    apply (f_equal length) in Heq. cbn in Heq. rewrite length_app in Heq. cbn in Heq. lia.
Qed.
Lemma lru_evict_keeps_last limit l e :
  entry_len e ≤ limit → e ∈ lru_evict limit (l ++ [e]).
Proof.
  intros He. induction l as [|e' l IH]; cbn [app lru_evict].
  - rewrite decide_False; [by left|]. rewrite total_cons. cbn. lia.
  - case_decide; [done|]. apply elem_of_cons. right. apply elem_of_app. right. by left.
Qed.
Lemma elem_of_lru_evict limit l e : e ∈ lru_evict limit l → e ∈ l.
Proof.
  destruct (lru_evict_suffix limit l) as [d Hd]. intros. rewrite Hd. apply elem_of_app. by right.
Qed.

(** ** The operations implement the specification *)

(** What a memory operation leaves alone, and the disk operations' frame. *)
Definition disk_part (s : chunkStore) :=
  (diskPath s, diskLimit s, diskBytes s, diskReady s, diskLRU s, diskEntries s, dir s).
Definition mem_part (s : chunkStore) := (memoryLimit s, memoryBytes s, memory s, lru s).

Lemma mem_wf_frame s s' : mem_part s' = mem_part s → mem_wf s → mem_wf s'.
Proof. intros [= H1 H2 H3 H4] [? ? ?]. split; unfold mem in *; rewrite ?H1, ?H2, ?H3, ?H4; done. Qed.
Lemma mem_frame s s' : mem_part s' = mem_part s → mem s' = mem s.
Proof. unfold mem. by intros [= _ _ _ ->]. Qed.

(** [mem_step s s' l]: [s'] is well formed, holds [l], and is [s] outside the
    memory cache. *)
Record mem_step (s s' : chunkStore) (l : list cacheEntry) : Prop := {
  ms_index : index_wf ce_key (memory s') (lru s');
  ms_bytes : memoryBytes s' = total (mem s');
  ms_mem : mem s' = l;
  ms_limit : memoryLimit s' = memoryLimit s;
  ms_disk : disk_part s' = disk_part s
}.

Lemma mem_step_wf s s' l :
  mem_step s s' l → total l ≤ Z.max 0 (memoryLimit s) → mem_wf s'.
Proof. intros [? ? Hm Hl _] ?. split; [done|done|]. by rewrite Hm, Hl. Qed.
Lemma mem_step_refl s : mem_wf s → mem_step s s (mem s).
Proof. intros [? ? ?]. by split. Qed.
Lemma mem_step_trans s s1 s2 l1 l2 :
  mem_step s s1 l1 → mem_step s1 s2 l2 → mem_step s s2 l2.
Proof. intros [] []. split; congruence. Qed.

Lemma mem_front s e v :
  index_wf ce_key (memory s) (lru s) → list_front (lru s) = Some e →
  elt_value e (lru s) = Some v →
  memory s !! ce_key v = Some e ∧ mem s = v :: del_key ce_key (ce_key v) (mem s).
Proof. apply index_front. Qed.

Lemma front_value s :
  index_wf ce_key (memory s) (lru s) → (0 < list_len (lru s))%nat →
  ∃ e v, list_front (lru s) = Some e ∧ elt_value e (lru s) = Some v.
Proof.
  unfold list_len, list_front, elt_value. intros _ Hl.
  destruct (elems (lru s)) as [|[e v] es]; cbn in Hl; [lia|]. exists e, v. cbn.
  by rewrite bool_decide_true.
Qed.

(** Deleting a present key through its element. *)
Lemma remove_element_step s key e v :
  index_wf ce_key (memory s) (lru s) → memoryBytes s = total (mem s) →
  memory s !! key = Some e → find_key ce_key key (mem s) = Some v →
  mem_step s (s <| memory ::= delete key |> <| memoryBytes ::= λ b, b - entry_len v |>
                <| lru ::= list_remove e |>) (del_key ce_key key (mem s)).
Proof.
  intros Hwf Hb Hk Hv. destruct (index_remove _ _ _ _ _ Hwf Hk) as [Hwf' Hm].
  split; cbn; try done. rewrite Hb. unfold mem in *; cbn. rewrite Hm.
  rewrite (total_del_found _ _ v); [done| |done]. by eapply values_NoDup.
Qed.

Lemma evict_loop_step fuel s :
  index_wf ce_key (memory s) (lru s) → memoryBytes s = total (mem s) →
  (length (mem s) ≤ fuel)%nat →
  mem_step s (evict_loop fuel s) (lru_evict (memoryLimit s) (mem s)).
Proof.
  revert s. induction fuel as [|fuel IH]; intros s Hwf Hb Hl.
  { assert (mem s = []) as Hm by (destruct (mem s); [done|cbn in Hl; lia]).
    split; try done. by rewrite Hm. }
  cbn [evict_loop]. assert (list_len (lru s) = length (mem s)) as Hlen
    by (unfold mem; by rewrite values_length).
  case_decide as Hc.
  - destruct (front_value s Hwf) as (e & v & Hf & Hv); [lia|]. rewrite Hf, Hv.
    destruct (mem_front _ _ _ Hwf Hf Hv) as [Hk Hm].
    assert (find_key ce_key (ce_key v) (mem s) = Some v) as Hfind
      by (rewrite Hm; cbn; by rewrite bool_decide_true).
    pose proof (remove_element_step s _ e v Hwf Hb Hk Hfind) as Hstep.
    assert (lru_evict (memoryLimit s) (mem s)
            = lru_evict (memoryLimit s) (del_key ce_key (ce_key v) (mem s))) as ->.
    { rewrite Hm at 1. cbn [lru_evict]. rewrite <- Hm, decide_True by lia. done. }
    eapply mem_step_trans; [exact Hstep|]. destruct Hstep as [Hi Hb' Hm' Hlim Hd].
    rewrite <- Hm', <- Hlim. apply IH; [done|done|].
    rewrite Hm'. rewrite Hm in Hl. cbn in Hl. lia.
  - replace (lru_evict (memoryLimit s) (mem s)) with (mem s); [by split|].
    destruct (mem s) as [|e l] eqn:Hm; [done|]. cbn [lru_evict]. rewrite decide_False; [done|].
    cbn in Hlen. lia.
Qed.

Lemma memory_lookup s key :
  mem_wf s → (memory s !! key ≫= λ e, elt_value e (lru s)) = find_key ce_key key (mem s).
Proof. intros Hwf. apply index_lookup, Hwf. Qed.
Lemma memory_Some s key e :
  mem_wf s → memory s !! key = Some e →
  ∃ v, elt_value e (lru s) = Some v ∧ find_key ce_key key (mem s) = Some v ∧ ce_key v = key.
Proof. intros Hwf. apply index_lookup_Some, Hwf. Qed.
Lemma memory_None s key : mem_wf s → memory s !! key = None ↔ find_key ce_key key (mem s) = None.
Proof. intros Hwf. rewrite find_key_None. apply index_lookup_None, Hwf. Qed.

Lemma putMemory_step s key data :
  mem_wf s → mem_step s (putMemory key data s) (lru_put (memoryLimit s) key data (mem s)).
Proof.
  intros Hwf. pose proof Hwf as [Hi Hb Hlim]. unfold putMemory, lru_put.
  case_decide as Hc; [by apply mem_step_refl|].
  cbv zeta. match goal with |- mem_step _ (evict_loop _ ?t) _ => set (s1 := t) end.
  assert (mem_step s s1 (del_key ce_key key (mem s) ++ [mkEntry key data])) as Hs1.
  { subst s1. destruct (memory s !! key) as [e|] eqn:Hk.
    - destruct (memory_Some _ _ _ Hwf Hk) as (v & Hv & Hf & _). rewrite Hv. cbn [from_option].
      destruct (index_update _ _ _ _ _ (mkEntry key data) Hi Hk eq_refl) as [Hi' Hm'].
      split; cbn; try done. unfold mem in *; cbn. rewrite Hb, Hm', total_snoc.
      rewrite (total_del_found _ _ v); [lia| |done]. by eapply values_NoDup.
    - destruct (list_push_back _ _) as [l e] eqn:Hp.
      pose proof (index_push_back ce_key _ _ (mkEntry key data) Hi Hk) as [Hi' Hm'].
      rewrite Hp in Hi', Hm'. cbn in Hi', Hm'. cbn in Hp. injection Hp as Hl He. subst e.
      assert (key ∉ ce_key <$> mem s) as Hn by (by apply (index_lookup_None _ _ _ _ Hi)).
      split; cbn; try done; unfold mem in *; cbn; rewrite Hm'.
      + rewrite Hb, total_snoc. lia.
      + by rewrite del_key_id. }
  eapply mem_step_trans; [exact Hs1|]. destruct Hs1 as [Hi1 Hb1 Hm1 Hl1 _].
  cbv zeta. rewrite <- Hm1, <- Hl1. apply evict_loop_step; [done|done|].
  unfold mem. by rewrite values_length.
Qed.

Lemma lru_put_total limit key data l :
  total l ≤ Z.max 0 limit → total (lru_put limit key data l) ≤ Z.max 0 limit.
Proof. intros. unfold lru_put. case_decide; [done|]. apply lru_evict_total. Qed.

Lemma putMemory_wf s key data : mem_wf s → mem_wf (putMemory key data s).
Proof.
  intros Hwf. eapply mem_step_wf; [by apply putMemory_step|]. apply lru_put_total, Hwf.
Qed.

Lemma removeMemoryLocked_step s key :
  mem_wf s → mem_step s (removeMemoryLocked key s) (del_key ce_key key (mem s)).
Proof.
  intros Hwf. unfold removeMemoryLocked. destruct (memory s !! key) as [e|] eqn:Hk.
  - destruct (memory_Some _ _ _ Hwf Hk) as (v & Hv & Hf & _). rewrite Hv. cbn [from_option].
    apply remove_element_step; [apply Hwf|apply Hwf|done|done].
  - rewrite del_key_id; [by apply mem_step_refl|].
    by apply (index_lookup_None _ _ _ _ (mw_index _ Hwf)).
Qed.
Lemma removeMemoryLocked_wf s key : mem_wf s → mem_wf (removeMemoryLocked key s).
Proof.
  intros Hwf. eapply mem_step_wf; [by apply removeMemoryLocked_step|].
  pose proof (total_del key (mem s)). pose proof (mw_limit _ Hwf). lia.
Qed.
#[export] Hint Resolve putMemory_wf removeMemoryLocked_wf : index.

Lemma touch_step s key e :
  mem_wf s → memory s !! key = Some e →
  mem_step s (s <| lru ::= list_move_to_back e |>) (lru_touch key (mem s)).
Proof.
  intros Hwf Hk. destruct (memory_Some _ _ _ Hwf Hk) as (v & _ & Hf & _).
  destruct (index_move_to_back _ _ _ _ _ _ (mw_index _ Hwf) Hk Hf) as [Hi Hm].
  pose proof (values_NoDup _ _ _ (mw_index _ Hwf)) as Hnd.
  unfold lru_touch. rewrite Hf.
  split; cbn; try done. unfold mem; cbn. rewrite Hm, total_app, total_cons, total_nil.
  rewrite (mw_bytes _ Hwf). fold (mem s) in Hnd |- *.
  rewrite (total_del_found _ _ _ Hnd Hf). lia.
Qed.

Lemma total_touch key l : NoDup (ce_key <$> l) → total (lru_touch key l) = total l.
Proof.
  intros Hnd. unfold lru_touch. destruct (find_key ce_key key l) as [e|] eqn:Hf; [|done].
  rewrite total_app, total_cons, total_nil, (total_del_found _ _ _ Hnd Hf). lia.
Qed.

Lemma mem_NoDup s : mem_wf s → NoDup (ce_key <$> mem s).
Proof. intros Hwf. eapply values_NoDup, Hwf. Qed.

Lemma touch_wf s key e :
  mem_wf s → memory s !! key = Some e → mem_wf (s <| lru ::= list_move_to_back e |>).
Proof.
  intros Hwf Hk. eapply mem_step_wf; [by apply touch_step|].
  rewrite total_touch by (by apply mem_NoDup). apply Hwf.
Qed.

Lemma clearMemory_step s : mem_wf s → mem_step s (clearMemory s).1 [].
Proof. intros _. split; try done. apply index_wf_new. Qed.

(** Both range removals are folds of [removeMemoryLocked] over a list of keys. *)
Lemma fold_remove_step (P : chunkKey → Prop) `{∀ k, Decision (P k)} (keys : list chunkKey) s :
  mem_wf s →
  let s' := foldl (λ s k, if decide (P k) then removeMemoryLocked k s else s) s keys in
  mem_wf s' ∧ mem_step s s' (filter (λ e, ¬ (ce_key e ∈ keys ∧ P (ce_key e))) (mem s)).
Proof.
  revert s. induction keys as [|k keys IH]; intros s Hwf; cbv zeta in *; cbn [foldl].
  - split; [done|]. rewrite (list_filter_iff _ (λ _, True)) by set_solver.
    assert (filter (λ _ : cacheEntry, True) (mem s) = mem s) as ->; [|by apply mem_step_refl].
    clear. induction (mem s) as [|e l IH]; [done|]. rewrite filter_cons_True by done. by f_equal.
  - set (s1 := if decide (P k) then _ else s).
    assert (mem_wf s1 ∧ mem_step s s1 (filter (λ e, ¬ (ce_key e = k ∧ P (ce_key e))) (mem s)))
      as [Hwf1 Hs1].
    { subst s1. case_decide as Hp.
      - split; [by apply removeMemoryLocked_wf|].
        assert (filter (λ e, ¬ (ce_key e = k ∧ P (ce_key e))) (mem s) = del_key ce_key k (mem s))
          as -> by (apply list_filter_iff; intros; naive_solver).
        by apply removeMemoryLocked_step.
      - split; [done|].
        assert (filter (λ e, ¬ (ce_key e = k ∧ P (ce_key e))) (mem s) = mem s) as ->;
          [|by apply mem_step_refl].
        clear -Hp. induction (mem s) as [|e l IH]; [done|].
        rewrite filter_cons_True by naive_solver. by f_equal. }
    destruct (IH s1 Hwf1) as [Hwf2 Hs2]. split; [done|].
    eapply mem_step_trans; [exact Hs1|]. rewrite (ms_mem _ _ _ Hs1) in Hs2.
    rewrite list_filter_filter in Hs2.
    erewrite list_filter_iff; [exact Hs2|]. intros e. cbn. rewrite elem_of_cons. tauto.
Qed.

Lemma removeMemoryRange_step ver start end_ s :
  mem_wf s →
  mem_wf (removeMemoryRange ver start end_ s) ∧
  mem_step s (removeMemoryRange ver start end_ s)
    (filter (λ e, ¬ (version (ce_key e) = ver ∧ start ≤ index (ce_key e) < end_)) (mem s)).
Proof.
  intros Hwf. unfold removeMemoryRange. case_decide as Hd.
  - split; [done|]. assert (filter (λ e, ¬ (version (ce_key e) = ver ∧
      start ≤ index (ce_key e) < end_)) (mem s) = mem s) as ->; [|by apply mem_step_refl].
    clear -Hd. induction (mem s) as [|e l IH]; [done|].
    rewrite filter_cons_True by (intros [_ ?]; lia). by f_equal.
  - pose proof (fold_remove_step (λ _, True) (mkChunkKey ver <$> seqZ start (end_ - start)) s Hwf)
      as [Hwf' Hs].
    assert (∀ ks s, foldl (λ s k, if decide True then removeMemoryLocked k s else s) s
                      (mkChunkKey ver <$> ks)
                    = foldl (λ s i, removeMemoryLocked (mkChunkKey ver i) s) s ks) as Heq.
    { clear. induction ks as [|k ks IH]; intros s; [done|]. cbn. by rewrite IH. }
    rewrite Heq in Hwf', Hs. split; [done|].
    erewrite list_filter_iff; [exact Hs|]. intros [[v i] d]. cbn.
    rewrite list_elem_of_fmap. setoid_rewrite elem_of_seqZ.
    split; [intros Hn [(j & [= -> ->] & ?) _]; apply Hn; split; [done|lia]|].
    intros Hn [-> ?]. apply Hn. split; [exists i; split; [done|lia]|done].
Qed.

Lemma mem_key_iff s key : mem_wf s → is_Some (memory s !! key) ↔ key ∈ ce_key <$> mem s.
Proof.
  intros Hwf. destruct (memory s !! key) as [e|] eqn:Hk.
  - destruct (memory_Some _ _ _ Hwf Hk) as (v & _ & Hf & Hv).
    apply find_key_Some in Hf as [_ Hin]. split; [|eauto]. intros _.
    apply list_elem_of_fmap. by exists v.
  - pose proof (proj1 (index_lookup_None _ _ _ _ (mw_index _ Hwf)) Hk).
    split; [by intros []|done].
Qed.

(** Whatever order Go's map iteration takes, the entries inside the window and
    those of other files stay, in place. *)
Lemma pruneMemoryWindow_in_step order ver start end_ s :
  mem_wf s → order ≡ₚ (map_to_list (memory s)).*1 →
  mem_wf (pruneMemoryWindow_in order ver start end_ s) ∧
  mem_step s (pruneMemoryWindow_in order ver start end_ s)
    (filter (λ e, ¬ outside_window ver start end_ (ce_key e)) (mem s)).
Proof.
  intros Hwf Ho.
  destruct (fold_remove_step (outside_window ver start end_) order s Hwf) as [Hwf' Hs].
  split; [done|]. assert (filter (λ e, ¬ outside_window ver start end_ (ce_key e)) (mem s)
    = filter (λ e, ¬ (ce_key e ∈ order ∧ outside_window ver start end_ (ce_key e))) (mem s)) as ->;
    [|done].
  assert (∀ e, e ∈ mem s → ce_key e ∈ order) as Hin.
  { intros e He. rewrite Ho. apply list_elem_of_fmap.
    destruct (proj2 (mem_key_iff s (ce_key e) Hwf)) as [x Hx].
    - apply list_elem_of_fmap. by exists e.
    - exists (ce_key e, x). split; [done|]. by apply elem_of_map_to_list. }
  clear -Hin. induction (mem s) as [|e l IH]; [done|]. rewrite !filter_cons.
  assert (ce_key e ∈ order) by (apply Hin; by left).
  destruct (decide (¬ outside_window ver start end_ (ce_key e)));
    [rewrite decide_True by tauto; f_equal | rewrite decide_False by tauto];
    (apply IH; intros e' He'; apply Hin; by right).
Qed.

Lemma pruneMemoryWindow_step ver start end_ s :
  mem_wf s →
  mem_wf (pruneMemoryWindow ver start end_ s) ∧
  mem_step s (pruneMemoryWindow ver start end_ s)
    (filter (λ e, ¬ outside_window ver start end_ (ce_key e)) (mem s)).
Proof. intros. by apply pruneMemoryWindow_in_step. Qed.

Lemma mem_lookup_elem s key data :
  mem_wf s → mem_lookup s key = Some data ↔ mkEntry key data ∈ mem s.
Proof.
  intros Hwf. unfold mem_lookup. rewrite fmap_Some. split.
  - intros ([k d] & Hf & ->). apply find_key_Some in Hf as [<- Hin]. done.
  - intros Hin. exists (mkEntry key data). split; [|done].
    apply find_key_unique; [by apply mem_NoDup|done|done].
Qed.
