(* ===== verification/ChunkDisk.v ===== *)
(** * The disk cache: an index of files, trimmed to a byte limit

    The index invariant, what each operation does to the list of indexed
    files (oldest use first) and to the directory, and what a restart finds. *)
From stdpp Require Import sorting.
From S2P Require Import Prelude GoList GoStrings ChunkKeys ChunkStore ChunkMemory.

Definition disk (s : chunkStore) : list diskCacheEntry := values (diskLRU s).
Definition disk_total (l : list diskCacheEntry) : Z := zsum de_size l.

Record disk_wf (s : chunkStore) : Prop := {
  dw_index : index_wf de_key (diskEntries s) (diskLRU s);
  dw_bytes : diskBytes s = disk_total (disk s);
  dw_ready : ∀ k, diskReady s !! k = de_size <$> find_key de_key k (disk s);
  dw_size : ∀ e, e ∈ disk s → 0 ≤ de_size e
}.

(** The fields an index operation never changes. *)
Definition outside_index (s : chunkStore) := (mem_part s, diskPath s, diskLimit s).

(** [disk_step s s' l]: [s'] is well formed, indexes [l] and differs from [s]
    in the index alone. *)
Record disk_step (s s' : chunkStore) (l : list diskCacheEntry) : Prop := {
  ds_wf : disk_wf s';
  ds_disk : disk s' = l;
  ds_frame : outside_index s' = outside_index s;
  ds_dir : dir s' = dir s
}.

Lemma disk_wf_frame s s' : disk_part s' = disk_part s → disk_wf s → disk_wf s'.
Proof.
  intros [= H1 H2 H3 H4 H5 H6 H7] [W1 W2 W3 W4].
  split; unfold disk in *; rewrite ?H3, ?H4, ?H5, ?H6; done.
Qed.

Lemma disk_total_cons e l : disk_total (e :: l) = de_size e + disk_total l.
Proof. done. Qed.
Lemma disk_total_snoc e l : disk_total (l ++ [e]) = disk_total l + de_size e.
Proof. unfold disk_total. rewrite zsum_app. cbn. lia. Qed.
Lemma disk_total_del k l e :
  NoDup (de_key <$> l) → find_key de_key k l = Some e →
  disk_total (del_key de_key k l) = disk_total l - de_size e.
Proof.
  induction l as [|e' l IH]; [done|]. rewrite fmap_cons. intros [Hn Hnd]%NoDup_cons Hf.
  unfold del_key in *. rewrite filter_cons, disk_total_cons. cbn in Hf. case_bool_decide as Hb.
  - simplify_eq. rewrite decide_False by tauto. pose proof (del_key_id de_key _ _ Hn) as Hd.
    unfold del_key in Hd. rewrite Hd. lia.
  - rewrite decide_True by done. rewrite disk_total_cons, IH by done. lia.
Qed.

Lemma disk_NoDup s : disk_wf s → NoDup (de_key <$> disk s).
Proof. intros Hwf. eapply values_NoDup, Hwf. Qed.
Lemma entries_Some s key e :
  disk_wf s → diskEntries s !! key = Some e →
  ∃ v, elt_value e (diskLRU s) = Some v ∧ find_key de_key key (disk s) = Some v ∧ de_key v = key.
Proof. intros Hwf. apply index_lookup_Some, Hwf. Qed.
Lemma entries_None s key :
  disk_wf s → diskEntries s !! key = None ↔ key ∉ de_key <$> disk s.
Proof. intros Hwf. apply index_lookup_None, Hwf. Qed.
Lemma ready_iff s key : disk_wf s → is_Some (diskReady s !! key) ↔ key ∈ de_key <$> disk s.
Proof.
  intros Hwf. rewrite (dw_ready _ Hwf), fmap_is_Some. split.
  - intros [e He]. apply find_key_Some in He as [<- Hin]. apply list_elem_of_fmap. by exists e.
  - intros Hin. destruct (find_key de_key key (disk s)) eqn:Hf; [done|].
    by apply find_key_None in Hf.
Qed.

Lemma find_key_snoc_del {V} (key : V → chunkKey) k v l :
  key v = k → find_key key k (del_key key k l ++ [v]) = Some v.
Proof.
  intros Hk. rewrite find_key_app.
  rewrite (proj2 (find_key_None key k (del_key key k l))) by apply del_key_not_in.
  cbn. by rewrite bool_decide_true.
Qed.
Lemma find_key_snoc_ne {V} (key : V → chunkKey) k k' v l :
  key v = k → k' ≠ k → find_key key k' (del_key key k l ++ [v]) = find_key key k' l.
Proof.
  intros Hk Hne. rewrite find_key_app, find_key_del by done.
  destruct (find_key key k' l); [done|]. cbn. rewrite bool_decide_false by congruence. done.
Qed.

Lemma addDiskLocked_step s key path len :
  disk_wf s → 0 ≤ len →
  disk_step s (addDiskLocked key path len s)
    (del_key de_key key (disk s) ++ [mkDiskEntry key path len]).
Proof.
  intros Hwf Hlen. pose proof Hwf as [Hi Hb Hr Hs]. unfold addDiskLocked.
  assert (∀ l, l = del_key de_key key (disk s) ++ [mkDiskEntry key path len] →
    (∀ e, e ∈ l → 0 ≤ de_size e) ∧
    (∀ k, <[key := len]> (diskReady s) !! k = de_size <$> find_key de_key k l)) as Hl.
  { intros l ->. split.
    - intros e [[_ ?]%elem_of_del_key| ->%list_elem_of_singleton]%elem_of_app; [by apply Hs|done].
    - intros k. destruct (decide (k = key)) as [->|Hne].
      + rewrite lookup_insert_eq, find_key_snoc_del; done.
      + rewrite lookup_insert_ne, find_key_snoc_ne by done. apply Hr. }
  destruct (diskEntries s !! key) as [e|] eqn:Hk.
  - destruct (entries_Some _ _ _ Hwf Hk) as (v & Hv & Hf & _). rewrite Hv. cbn [from_option].
    destruct (index_update _ _ _ _ _ (mkDiskEntry key path len) Hi Hk eq_refl) as [Hi' Hm'].
    destruct (Hl _ Hm') as [Hs' Hr'].
    split; [split|..]; cbn; try done. unfold disk in *; cbn. rewrite Hm', disk_total_snoc, Hb.
    rewrite (disk_total_del _ _ v); [cbn; lia| |done]. by apply disk_NoDup.
  - destruct (list_push_back _ _) as [l e] eqn:Hp.
    pose proof (index_push_back de_key _ _ (mkDiskEntry key path len) Hi Hk) as [Hi' Hm'].
    rewrite Hp in Hi', Hm'. cbn in Hi', Hm'. unfold list_push_back in Hp.
    injection Hp as _ He. subst e.
    assert (key ∉ de_key <$> disk s) as Hn by (by apply entries_None).
    rewrite <- (del_key_id de_key _ _ Hn) in Hm' at 1.
    destruct (Hl _ Hm') as [Hs' Hr'].
    split; [split|..]; cbn; try done. unfold disk in *; cbn.
    rewrite Hm', disk_total_snoc, Hb, del_key_id; done.
Qed.

Definition disk_touch (key : chunkKey) (l : list diskCacheEntry) : list diskCacheEntry :=
  match find_key de_key key l with
  | Some e => del_key de_key key l ++ [e]
  | None => l
  end.

Lemma touch_perm key l : NoDup (de_key <$> l) → disk_touch key l ≡ₚ l.
Proof.
  intros Hnd. unfold disk_touch. destruct (find_key de_key key l) as [e|] eqn:Hf; [|done].
  revert Hnd Hf. induction l as [|e' l IH]; [done|]. rewrite fmap_cons.
  intros [Hn Hnd]%NoDup_cons Hf. cbn in Hf. unfold del_key in *. rewrite filter_cons.
  case_bool_decide.
  - simplify_eq. rewrite decide_False by tauto. pose proof (del_key_id de_key _ _ Hn) as Hd.
    unfold del_key in Hd. rewrite Hd. by rewrite Permutation_app_comm.
  - rewrite decide_True by done. cbn. by rewrite IH.
Qed.

Lemma touchDiskLocked_step s key :
  disk_wf s → disk_step s (touchDiskLocked key s) (disk_touch key (disk s)).
Proof.
  intros Hwf. pose proof Hwf as [Hi Hb Hr Hs]. pose proof (disk_NoDup _ Hwf) as Hnd.
  pose proof (touch_perm key _ Hnd) as Hp.
  unfold touchDiskLocked. destruct (diskEntries s !! key) as [e|] eqn:Hk.
  - destruct (entries_Some _ _ _ Hwf Hk) as (v & _ & Hf & _).
    destruct (index_move_to_back _ _ _ _ _ _ Hi Hk Hf) as [Hi' Hm].
    assert (values (list_move_to_back e (diskLRU s)) = disk_touch key (disk s)) as Hm'
      by (unfold disk_touch; rewrite Hf; done).
    split; [split|..]; cbn; try done; unfold disk; cbn; rewrite Hm'.
    + unfold disk_total. by rewrite Hp.
    + intros k. rewrite Hr. f_equal. symmetry. apply find_key_perm; [|done]. by rewrite Hp.
    + intros w Hw. apply Hs. by rewrite <- Hp.
  - split; try done. unfold disk_touch. apply entries_None, find_key_None in Hk; [|done].
    by rewrite Hk.
Qed.

Lemma removeDiskLocked_step s key :
  disk_wf s → disk_step s (removeDiskLocked key s) (del_key de_key key (disk s)).
Proof.
  intros Hwf. pose proof Hwf as [Hi Hb Hr Hs].
  assert (∀ l, l = del_key de_key key (disk s) →
    (∀ e, e ∈ l → 0 ≤ de_size e) ∧
    (∀ k, delete key (diskReady s) !! k = de_size <$> find_key de_key k l)) as Hl.
  { intros l ->. split; [intros e [_ ?]%elem_of_del_key; by apply Hs|]. intros k.
    destruct (decide (k = key)) as [->|Hne].
    - rewrite lookup_delete_eq. symmetry. apply fmap_None, find_key_None, del_key_not_in.
    - rewrite lookup_delete_ne by done. by rewrite find_key_del. }
  unfold removeDiskLocked. destruct (diskEntries s !! key) as [e|] eqn:Hk.
  - destruct (entries_Some _ _ _ Hwf Hk) as (v & Hv & Hf & _). rewrite Hv. cbn [from_option].
    destruct (index_remove _ _ _ _ _ Hi Hk) as [Hi' Hm]. destruct (Hl _ Hm) as [Hs' Hr'].
    split; [split|..]; cbn; try done. unfold disk in *; cbn. rewrite Hm, Hb.
    rewrite (disk_total_del _ _ v); [done| |done]. by apply disk_NoDup.
  - apply entries_None in Hk; [|done]. rewrite del_key_id by done.
    destruct (Hl (disk s)) as [Hs' Hr']; [by rewrite del_key_id|].
    split; [split|..]; done.
Qed.

(** ** Trimming *)
Lemma remove_file_spec io path s s' failed :
  remove_file io path s = (s', failed) →
  s' = s <| dir := dir s' |> ∧
  dir s' = (if failed then dir s else delete path (dir s)) ∧
  (failed = true → remove_fails io path = true).
Proof.
  unfold remove_file. destruct (dir s !! path) eqn:Hp; [destruct (remove_fails io path) eqn:Hf|];
    intros [= <- <-]; destruct s; cbn in *; split_and!; try done.
  by rewrite delete_id.
Qed.

(** What [trimDiskLocked] does: drops a prefix of the index and exactly the
    dropped files; stops under the limit unless a removal failed. *)
Record trimmed (s s' : chunkStore) (failed : option storeError) (dropped : list diskCacheEntry)
    : Prop := {
  tr_wf : disk_wf s';
  tr_split : disk s = dropped ++ disk s';
  tr_frame : outside_index s' = outside_index s;
  tr_dir : ∀ p, dir s' !! p = if decide (p ∈ de_path <$> dropped) then None else dir s !! p;
  tr_limit : failed = None → disk_total (disk s') ≤ diskLimit s ∨ disk s' = [];
  tr_needed : ∀ d e r, dropped = d ++ e :: r → diskLimit s < disk_total (e :: r ++ disk s')
}.

Lemma trim_loop_spec fuel io s s' failed :
  disk_wf s → (length (disk s) ≤ fuel)%nat → trim_loop fuel io s = (s', failed) →
  ∃ dropped, trimmed s s' failed dropped.
Proof.
  revert s. induction fuel as [|fuel IH]; intros s Hwf Hl; cbn [trim_loop].
  { intros [= <- <-]. exists []. split; try done.
    - intros _. right. by destruct (disk s); [|cbn in Hl; lia].
    - intros [] ? ?; done. }
  assert (list_len (diskLRU s) = length (disk s)) as Hlen
    by (unfold disk; by rewrite values_length).
  case_decide as Hc; cycle 1.
  { intros [= <- <-]. exists []. split; try done.
    - intros _. rewrite <- (dw_bytes _ Hwf).
      destruct (decide (0 < list_len (diskLRU s))%nat); [left; lia|].
      right. destruct (disk s); [done|cbn in *; lia].
    - intros [] ? ?; done. }
  destruct (list_front (diskLRU s)) as [e|] eqn:Hf; cycle 1.
  { exfalso. unfold list_front, list_len in *. destruct (elems (diskLRU s)); [cbn in *; lia|done]. }
  cbn [mbind option_bind]. destruct (elt_value e (diskLRU s)) as [v|] eqn:Hv; cycle 1.
  { exfalso. unfold list_front, elt_value in *. destruct (elems (diskLRU s)) as [|[]]; [done|].
    cbn in *. simplify_eq. rewrite bool_decide_true in Hv by done. done. }
  destruct (index_front _ _ _ _ _ (dw_index _ Hwf) Hf Hv) as [Hk Hm]. fold (disk s) in Hm.
  destruct (remove_file io (de_path v) s) as [s1 fl] eqn:Hrm.
  destruct (remove_file_spec _ _ _ _ _ Hrm) as (Hs1 & Hdir & _).
  assert (disk_wf s1) as Hwf1.
  { rewrite Hs1. destruct Hwf. by split. }
  assert (disk s1 = disk s) as Hd1 by (by rewrite Hs1).
  assert (outside_index s1 = outside_index s) as Ho1 by (by rewrite Hs1).
  destruct fl.
  { intros [= <- <-]. exists []. split; try done.
    - intros p. by rewrite Hdir.
    - intros [] ? ?; done. }
  intros Hrun. pose proof (removeDiskLocked_step s1 (de_key v) Hwf1) as [Hwf2 Hd2 Ho2 Hdir2].
  rewrite Hd1 in Hd2.
  assert (length (disk (removeDiskLocked (de_key v) s1)) ≤ fuel)%nat as Hl2.
  { rewrite Hd2. rewrite Hm in Hl. cbn in Hl. lia. }
  destruct (IH _ Hwf2 Hl2 Hrun) as (dropped & [T1 T2 T3 T4 T5 T6]).
  assert (diskLimit (removeDiskLocked (de_key v) s1) = diskLimit s) as Hlim
    by (rewrite Ho1 in Ho2; by injection Ho2).
  assert (disk s = (v :: dropped) ++ disk s') as Hsplit by (rewrite Hm, <- Hd2, T2; done).
  exists (v :: dropped). split; [done|done|congruence| |by rewrite <- Hlim|].
  - intros p. rewrite T4, Hdir2, Hdir. cbn [fmap list_fmap]. rewrite lookup_delete.
    repeat case_decide; set_solver.
  - intros [|d0 d] e0 r Heq; cbn in Heq; injection Heq as -> Heq.
    + rewrite Heq in Hsplit. change (e0 :: r ++ disk s') with ((e0 :: r) ++ disk s').
      rewrite <- Hsplit, <- (dw_bytes _ Hwf). lia.
    + rewrite <- Hlim. by eapply T6.
Qed.

Lemma trimDiskLocked_spec io s s' failed :
  disk_wf s → trimDiskLocked io s = (s', failed) → ∃ dropped, trimmed s s' failed dropped.
Proof.
  intros Hwf. apply trim_loop_spec; [done|]. unfold disk. by rewrite values_length.
Qed.

(** ** The two caches together *)
Definition store_wf (s : chunkStore) : Prop := mem_wf s ∧ disk_wf s.

(** The bytes a lookup of [k] can return. *)
Definition disk_holds (s : chunkStore) (k : chunkKey) (d : bytes) : Prop :=
  is_Some (diskReady s !! k) ∧ ∃ t, dir s !! chunkPath k = Some (mkDirFile RegularFile d t).
Definition holds (s : chunkStore) (k : chunkKey) (d : bytes) : Prop :=
  mem_lookup s k = Some d ∨ disk_holds s k d.

(** Every file operation of the program uses a temporary name of its own. *)
Definition io_ok (io : diskIO) : Prop := has_suffix (put_temp io) ".part" = true.

Lemma chunkPath_not_part k io : io_ok io → chunkPath k ≠ put_temp io.
Proof.
  unfold io_ok, chunkPath. intros Hio Heq. rewrite <- Heq in Hio. clear Heq.
  rewrite <- !str_app_assoc in Hio. revert Hio.
  generalize ((sanitizeVersion (version k) +:+ "-") +:+ format_int (index k)) as u. intros u.
  unfold has_suffix. rewrite andb_true_iff. intros [_ H2%bool_decide_eq_true]. revert H2.
  rewrite str_length_app. cbn [String.length].
  replace (String.length u + 6 - 5)%nat with (String.length u + 1)%nat by lia.
  induction u as [|c u IH]; [done|]. rewrite str_app_cons. cbn [String.length Nat.add str_from].
  exact IH.
Qed.

Lemma mem_step_holds s s' l (P : chunkKey → bytes → Prop) :
  store_wf s → mem_step s s' l → total l ≤ Z.max 0 (memoryLimit s) →
  (∀ k d, mkEntry k d ∈ l → holds s k d ∨ P k d) →
  store_wf s' ∧ ∀ k d, holds s' k d → holds s k d ∨ P k d.
Proof.
  intros [Hm Hd] Hs Ht Hl. pose proof (mem_step_wf _ _ _ Hs Ht) as Hm'.
  pose proof (disk_wf_frame _ _ (ms_disk _ _ _ Hs) Hd) as Hd'.
  split; [done|]. intros k d [Hk|Hk].
  - apply Hl. rewrite <- (ms_mem _ _ _ Hs). by apply mem_lookup_elem.
  - left. right. pose proof (ms_disk _ _ _ Hs) as Hf. injection Hf as _ _ _ Hr _ _ Hdir.
    unfold disk_holds in *. by rewrite Hr, Hdir in Hk.
Qed.

Lemma outside_index_fields s s' :
  outside_index s' = outside_index s →
  mem_part s' = mem_part s ∧ diskPath s' = diskPath s ∧ diskLimit s' = diskLimit s.
Proof. by intros [= ? ? ? ? ? ?]; unfold mem_part; split_and!; congruence. Qed.

Lemma mem_lookup_frame s s' k : mem_part s' = mem_part s → mem_lookup s' k = mem_lookup s k.
Proof. intros H. unfold mem_lookup. by rewrite (mem_frame _ _ H). Qed.

(** An index change that adds no key and no file only shrinks what lookups return. *)
Lemma disk_shrink_holds s s' :
  store_wf s → disk_wf s' → outside_index s' = outside_index s →
  (∀ k, k ∈ de_key <$> disk s' → k ∈ de_key <$> disk s) →
  (∀ p f, dir s' !! p = Some f → dir s !! p = Some f) →
  store_wf s' ∧ ∀ k d, holds s' k d → holds s k d.
Proof.
  intros [Hm Hd] Hd' Ho Hk Hdir. apply outside_index_fields in Ho as (Ho & _).
  split; [split; [by eapply mem_wf_frame|done]|].
  intros k d [H|[H1 [t H2]]]; [left; by rewrite <- (mem_lookup_frame _ _ _ Ho)|].
  right. split; [|exists t; by apply Hdir].
  apply ready_iff, Hk in H1; [|done]. by apply ready_iff.
Qed.

Lemma elem_of_fmap_del {V} (key : V → chunkKey) k k' l :
  k ∈ key <$> del_key key k' l → k ∈ key <$> l.
Proof.
  intros (v & -> & [_ Hv]%elem_of_del_key)%list_elem_of_fmap. apply list_elem_of_fmap. by exists v.
Qed.

Lemma remove_file_dir io path s p f :
  dir (remove_file io path s).1 !! p = Some f → dir s !! p = Some f.
Proof.
  destruct (remove_file io path s) as [s' fl] eqn:Hr.
  destruct (remove_file_spec _ _ _ _ _ Hr) as (_ & Hdir & _). cbn. rewrite Hdir.
  destruct fl; [done|]. by intros [_ ?]%lookup_delete_Some.
Qed.
Lemma remove_file_frame io path s :
  outside_index (remove_file io path s).1 = outside_index s ∧
  disk (remove_file io path s).1 = disk s ∧
  (disk_wf s → disk_wf (remove_file io path s).1).
Proof.
  destruct (remove_file io path s) as [s' fl] eqn:Hr.
  destruct (remove_file_spec _ _ _ _ _ Hr) as (Hs & _). cbn. rewrite Hs. split_and!; try done.
  intros []. by split.
Qed.

Lemma forgetDisk_holds io key path s :
  store_wf s →
  store_wf (forgetDisk io key path s) ∧
  ∀ k d, holds (forgetDisk io key path s) k d → holds s k d.
Proof.
  intros Hwf. unfold forgetDisk. destruct (removeDiskLocked_step s key (proj2 Hwf)) as [W1 W2 W3 W4].
  destruct (remove_file_frame io path (removeDiskLocked key s)) as (F1 & F2 & F3).
  apply disk_shrink_holds; [done|by apply F3|congruence| |].
  - intros k. rewrite F2, W2. apply elem_of_fmap_del.
  - intros p f Hp. apply remove_file_dir in Hp. by rewrite W4 in Hp.
Qed.

Lemma trimmed_holds s s' failed dropped :
  store_wf s → trimmed s s' failed dropped →
  store_wf s' ∧ ∀ k d, holds s' k d → holds s k d.
Proof.
  intros Hwf [T1 T2 T3 T4 _ _]. apply disk_shrink_holds; [done|done|done| |].
  - intros k. rewrite T2, fmap_app, elem_of_app. tauto.
  - intros p f. rewrite T4. by case_decide.
Qed.

Lemma lru_put_elem limit key data l e :
  e ∈ lru_put limit key data l → e ∈ l ∨ e = mkEntry key data.
Proof.
  unfold lru_put. case_decide; [by left|]. intros Hin%elem_of_lru_evict.
  apply elem_of_app in Hin as [[_ ?]%elem_of_del_key| ->%list_elem_of_singleton]; tauto.
Qed.

Lemma putMemory_holds s key data :
  store_wf s →
  store_wf (putMemory key data s) ∧
  ∀ k d, holds (putMemory key data s) k d → holds s k d ∨ (k = key ∧ d = data).
Proof.
  intros Hwf. eapply mem_step_holds; [done|apply putMemory_step, Hwf|apply lru_put_total, Hwf|].
  intros k d [Hin|[= -> ->]]%lru_put_elem; [|by right].
  left. left. apply mem_lookup_elem; [apply Hwf|done].
Qed.

Lemma mem_sub_holds s s' l :
  store_wf s → mem_step s s' l → total l ≤ total (mem s) → (∀ e, e ∈ l → e ∈ mem s) →
  store_wf s' ∧ ∀ k d, holds s' k d → holds s k d.
Proof.
  intros Hwf Hs Ht Hin. destruct (mem_step_holds s s' l (λ _ _, False) Hwf Hs) as [H1 H2].
  - pose proof (mw_limit _ (proj1 Hwf)). lia.
  - intros k d He. left. left. apply mem_lookup_elem; [apply Hwf|]. by apply Hin.
  - split; [done|]. intros k d Hk. by destruct (H2 _ _ Hk).
Qed.

Lemma total_filter (P : cacheEntry → Prop) `{∀ e, Decision (P e)} l : total (filter P l) ≤ total l.
Proof.
  induction l as [|e l IH]; [done|]. rewrite filter_cons, total_cons.
  pose proof (entry_len_nonneg e). case_decide; rewrite ?total_cons; lia.
Qed.

Lemma removal_holds s s' (P : cacheEntry → Prop) `{∀ e, Decision (P e)} :
  store_wf s → mem_step s s' (filter P (mem s)) →
  store_wf s' ∧ ∀ k d, holds s' k d → holds s k d.
Proof.
  intros Hwf Hs. eapply mem_sub_holds; [done|done|apply total_filter|].
  by intros e [_ ?]%list_elem_of_filter.
Qed.
Lemma clearMemory_holds s :
  store_wf s →
  store_wf (clearMemory s).1 ∧ ∀ k d, holds (clearMemory s).1 k d → holds s k d.
Proof.
  intros Hwf. eapply mem_sub_holds; [done|apply clearMemory_step, Hwf|apply total_nonneg|].
  intros e He. by apply not_elem_of_nil in He.
Qed.

(** ** Lookups *)
Lemma getWithTouch_holds io key touch s s' r :
  store_wf s → getWithTouch io key touch s = (s', r) →
  store_wf s' ∧ (∀ k d, holds s' k d → holds s k d) ∧ (∀ d, r = Some d → holds s key d).
Proof.
  intros Hwf. pose proof Hwf as [Hm Hd]. unfold getWithTouch.
  destruct (memory s !! key) as [e|] eqn:Hk.
  { destruct (memory_Some _ _ _ Hm Hk) as (v & Hv & Hf & Hkey). rewrite Hv. intros [= <- <-].
    assert (∀ d, Some (ce_data v) = Some d → holds s key d) as Hr.
    { intros d [= <-]. left. unfold mem_lookup. by rewrite Hf. }
    destruct touch; [|done]. pose proof (touch_step _ _ _ Hm Hk) as Hs.
    destruct (mem_sub_holds _ _ _ Hwf Hs) as [H1 H2]; [| |by split_and!].
    - rewrite total_touch; [done|by apply mem_NoDup].
    - unfold lru_touch. rewrite Hf. intros w [[_ ?]%elem_of_del_key|Hw]%elem_of_app; [done|].
      apply list_elem_of_singleton in Hw as ->. by apply find_key_Some in Hf as [_ ?]. }
  case_decide; [by intros [= <- <-]|].
  destruct (diskReady s !! key) as [len|] eqn:Hr; [|by intros [= <- <-]].
  pose proof (touchDiskLocked_step s key Hd) as [W1 W2 W3 W4].
  assert (store_wf (touchDiskLocked key s) ∧
          ∀ k d, holds (touchDiskLocked key s) k d → holds s k d) as [Hwf1 Hh1].
  { apply disk_shrink_holds; [done|done|done| |by rewrite W4].
    intros k. rewrite W2. by rewrite touch_perm by (by apply disk_NoDup). }
  destruct (read_file io (chunkPath key) (touchDiskLocked key s)) as [data|] eqn:Hread.
  - intros [= <- <-]. destruct (putMemory_holds _ key data Hwf1) as [H1 H2].
    assert (holds s key data) as Hh.
    { right. split; [eauto|]. unfold read_file in Hread. rewrite W4 in Hread.
      destruct (dir s !! chunkPath key) as [[[] dat t]|]; try done.
      destruct (read_fails io _); [done|]. simplify_eq. eauto. }
    split_and!; [done| |by intros d [= <-]]. intros k d Hkd.
    destruct (H2 _ _ Hkd) as [?|[-> ->]]; [by apply Hh1|done].
  - intros [= <- <-]. destruct (forgetDisk_holds io key (chunkPath key) _ Hwf1) as [H1 H2].
    split_and!; [done|naive_solver|done].
Qed.

Lemma length_of_holds key s s' r :
  store_wf s → length_of key s = (s', r) →
  store_wf s' ∧ ∀ k d, holds s' k d → holds s k d.
Proof.
  intros Hwf. unfold length_of. destruct (memory s !! key); [by intros [= <- <-]|].
  case_decide; [by intros [= <- <-]|]. destruct (diskReady s !! key); intros [= <- <-]; [|done].
  pose proof (touchDiskLocked_step s key (proj2 Hwf)) as [W1 W2 W3 W4].
  apply disk_shrink_holds; [done|done|done| |by rewrite W4].
  intros k. rewrite W2. rewrite touch_perm; [done|]. apply disk_NoDup, Hwf.
Qed.

(** ** Writing to the disk cache *)
Lemma temp_write_holds io data s :
  io_ok io → store_wf s →
  store_wf (remove_temp io (write_temp io data s)) ∧
  ∀ k d, holds (remove_temp io (write_temp io data s)) k d → holds s k d.
Proof.
  intros Hio Hwf. unfold remove_temp.
  destruct (remove_file_frame io (put_temp io) (write_temp io data s)) as (F1 & F2 & F3).
  destruct (outside_index_fields _ _ F1) as (F4 & _).
  destruct Hwf as [Hm Hd].
  assert (disk_wf (write_temp io data s)) as Hd1 by (destruct Hd; by split).
  split; [split; [eapply mem_wf_frame; [exact F4|]; by apply (mem_wf_frame s)|by apply F3]|].
  intros k d [H|[H1 [t H2]]].
  - left. by rewrite (mem_lookup_frame _ _ _ F4) in H.
  - right. split.
    + apply ready_iff in H1; [|by apply F3]. rewrite F2 in H1. by apply ready_iff.
    + exists t. apply remove_file_dir in H2. cbn in H2.
      rewrite lookup_insert_ne in H2; [done|]. by apply not_eq_sym, chunkPath_not_part.
Qed.

Lemma putDisk_holds io key data s s' failed :
  io_ok io → key_ok key → store_wf s → putDisk io key data s = (s', failed) →
  store_wf s' ∧
  ∀ k d, key_ok k → holds s' k d → holds s k d ∨ (k = key ∧ d = data).
Proof.
  intros Hio Hkey Hwf. unfold putDisk. case_decide; [intros [= <- <-]; by eauto|].
  assert (∀ w, let s1 := remove_temp io (write_temp io w s) in
    store_wf s1 ∧ ∀ k d, key_ok k → holds s1 k d → holds s k d ∨ (k = key ∧ d = data)) as Hfault.
  { intros w. destruct (temp_write_holds io w s Hio Hwf). split; [done|]. by eauto. }
  destruct (put_fault io) as [f|].
  { destruct f; intros [= <- <-]; [by eauto|apply Hfault..]. }
  set (s1 := s <| dir ::= _ |>). intros Htrim.
  assert (mem_wf s1 ∧ disk_wf s1) as [Hm1 Hd1].
  { destruct Hwf as [Hm Hd]. split; [by apply (mem_wf_frame s)|]. destruct Hd. by split. }
  pose proof (addDiskLocked_step s1 key (chunkPath key) (zlen data) Hd1 (zlen_nonneg _))
    as [W1 W2 W3 W4].
  destruct (outside_index_fields _ _ W3) as (W5 & _).
  destruct (trimDiskLocked_spec _ _ _ _ W1 Htrim) as [dropped Ht].
  destruct (trimmed_holds (addDiskLocked key (chunkPath key) (zlen data) s1) s' failed dropped)
    as [H1 H2]; [split; [by apply (mem_wf_frame s1)|done]|done|].
  split; [done|]. intros k d Hk Hh. apply H2 in Hh as [Hh|[Hr [t Hf]]].
  - left. left. rewrite (mem_lookup_frame _ _ _ W5) in Hh. done.
  - destruct (decide (k = key)) as [->|Hne].
    + rewrite W4 in Hf. subst s1. cbn in Hf. rewrite lookup_insert_eq in Hf.
      injection Hf as <- <-. by right.
    + left. right. split.
      * apply ready_iff in Hr; [|done]. apply ready_iff; [apply Hwf|]. rewrite W2 in Hr.
        rewrite fmap_app, elem_of_app in Hr. destruct Hr as [Hr|Hr].
        -- by apply elem_of_fmap_del in Hr.
        -- apply list_elem_of_singleton in Hr. done.
      * exists t. rewrite W4 in Hf. subst s1. cbn in Hf.
        assert (chunkPath key ≠ chunkPath k) by (intros Heq; by apply chunkPath_inj in Heq).
        rewrite lookup_insert_ne in Hf by done. by apply lookup_delete_Some in Hf as [_ ?].
Qed.
