(* ===== verification/ChunkRestart.v ===== *)
(** * Starting the chunk store on the directory an earlier process left

    [newChunkStore] removes partial files, indexes the [.chunk] files by the
    key their name parses to and trims.  The directory and the index agree
    ([disk_sync]) while the program writes; from such a directory the next
    process rebuilds the same index. *)
From stdpp Require Import sorting.
From S2P Require Import Prelude GoList GoStrings ChunkKeys ChunkStore ChunkMemory ChunkDisk.

Lemma emptyStore_wf ml dp dl d : 0 ≤ ml → store_wf (emptyStore ml dp dl d).
Proof.
  intros Hml. split; split; try apply index_wf_new; try done.
  - change (0 ≤ Z.max 0 ml). lia.
  - intros e He. by apply not_elem_of_nil in He.
Qed.

Definition indexed_entry (key : chunkKey) (p : string * dirFile) : diskCacheEntry :=
  mkDiskEntry key p.1 (zlen (df_data p.2)).

(** Indexing never touches the directory or the memory cache. *)
Lemma index_files_wf files s :
  disk_wf s →
  disk_wf (index_files files s) ∧ outside_index (index_files files s) = outside_index s ∧
  dir (index_files files s) = dir s.
Proof.
  unfold index_files. revert s. induction files as [|p files IH]; intros s Hwf; [done|]. cbn [foldl].
  destruct (parseChunkFileName p.1) as [key|]; [|by apply IH].
  destruct (addDiskLocked_step s key p.1 (zlen (df_data p.2)) Hwf (zlen_nonneg _)) as [W _ F D].
  destruct (IH _ W) as (H1 & H2 & H3). split_and!; [done|congruence|congruence].
Qed.

(** Distinct names that parse give one entry each, in order. *)
Lemma index_files_entries files s (key : string → chunkKey) :
  disk_wf s → (∀ p, p ∈ files → parseChunkFileName p.1 = Some (key p.1)) →
  NoDup ((λ p, key p.1) <$> files) →
  (∀ p, p ∈ files → key p.1 ∉ de_key <$> disk s) →
  disk (index_files files s) = disk s ++ ((λ p, indexed_entry (key p.1) p) <$> files).
Proof.
  unfold index_files. revert s.
  induction files as [|p files IH]; intros s Hwf Hp Hnd Hn; [by rewrite app_nil_r|].
  cbn [foldl]. rewrite (Hp p) by left. rewrite fmap_cons in Hnd. apply NoDup_cons in Hnd as [Hp1 Hnd].
  destruct (addDiskLocked_step s (key p.1) p.1 (zlen (df_data p.2)) Hwf (zlen_nonneg _)) as [W E _ _].
  rewrite del_key_id in E by (apply Hn; by left).
  rewrite IH; [|done|intros q Hq; apply Hp; by right|done|].
  - rewrite E, <- app_assoc. done.
  - intros q Hq. rewrite E, fmap_app, not_elem_of_app. split; [apply Hn; by right|].
    intros Heq%list_elem_of_singleton. apply Hp1, list_elem_of_fmap. by exists q.
Qed.

Lemma newChunkStore_wf io ml dp dl d s :
  newChunkStore io ml dp dl d = Ok s →
  store_wf s ∧ mem s = [] ∧ memoryLimit s = ml ∧ diskPath s = dp ∧ diskLimit s = dl ∧
  (∀ p f, dir s !! p = Some f → d !! p = Some f) ∧
  (dp ≠ "" → 0 < dl → disk_total (disk s) ≤ dl).
Proof.
  unfold newChunkStore. case_decide as Hneg; [done|].
  assert (store_wf (emptyStore ml dp dl d)) as Hwf0 by (apply emptyStore_wf; lia).
  case_decide as Hd; cycle 1.
  { intros [= <-]. split_and!; try done. intros. destruct Hd. done. }
  destruct (mkdir_fails io); [done|].
  unfold removePartialFiles. destruct (readdir_fails io) eqn:Hrd; [done|]. case_decide; [done|].
  cbn [mbind result_bind]. unfold loadDiskIndex. rewrite Hrd.
  set (s1 := (emptyStore ml dp dl d) <| dir ::= _ |>).
  assert (disk_wf s1) as Hd1 by (destruct Hwf0 as [_ []]; by split).
  destruct (index_files_wf (chunk_files s1) s1 Hd1) as (W & F & D).
  destruct (trimDiskLocked io (index_files (chunk_files s1) s1)) as [s2 [e|]] eqn:Ht; [done|].
  intros [= <-]. destruct (trimDiskLocked_spec _ _ _ _ W Ht) as [dropped [T1 T2 T3 T4 T5 _]].
  rewrite F in T3. apply outside_index_fields in T3 as (M & P & L).
  apply outside_index_fields in F as (_ & _ & FL).
  split_and!.
  - split; [|done]. apply (mem_wf_frame _ _ M). apply (mem_wf_frame (emptyStore ml dp dl d)); [done|].
    apply Hwf0.
  - by rewrite (mem_frame _ _ M).
  - by injection M.
  - done.
  - done.
  - intros p f. rewrite T4, D. case_decide; [done|]. subst s1. cbn.
    by intros [? _]%map_lookup_filter_Some.
  - intros _ Hpos. destruct (T5 eq_refl) as [Hle|Hnil]; [by rewrite FL in Hle|].
    rewrite Hnil. cbn. lia.
Qed.

Lemma newChunkStore_holds io ml dp dl d s k b :
  newChunkStore io ml dp dl d = Ok s → holds s k b →
  ∃ t, d !! chunkPath k = Some (mkDirFile RegularFile b t).
Proof.
  intros (_ & Hm & _ & _ & _ & Hd & _)%newChunkStore_wf [H|[_ [t H]]].
  - unfold mem_lookup in H. by rewrite Hm in H.
  - exists t. by apply Hd.
Qed.

(** ** Directory and index in step *)
Record disk_sync (s : chunkStore) : Prop := {
  sync_files : ∀ e, e ∈ disk s → key_ok (de_key e) ∧ de_path e = chunkPath (de_key e) ∧
    ∃ f, dir s !! de_path e = Some f ∧ df_kind f = RegularFile ∧ zlen (df_data f) = de_size e;
  sync_index : ∀ p f, dir s !! p = Some f → is_chunk_file (p, f) →
    ∃ e, e ∈ disk s ∧ de_path e = p
}.

Lemma chunkPath_suffix k : has_suffix (chunkPath k) ".chunk" = true.
Proof. unfold chunkPath. rewrite <- !str_app_assoc. apply has_suffix_app. Qed.

Lemma disk_keys_unique s e e' :
  disk_wf s → e ∈ disk s → e' ∈ disk s → de_key e = de_key e' → e = e'.
Proof.
  intros Hwf He He' Hk. pose proof (disk_NoDup _ Hwf) as Hnd.
  pose proof (find_key_unique de_key _ _ _ Hnd He eq_refl) as H1.
  pose proof (find_key_unique de_key _ _ _ Hnd He' eq_refl) as H2. congruence.
Qed.

Lemma trimmed_sync s s' failed dropped :
  disk_wf s → disk_sync s → trimmed s s' failed dropped → disk_sync s'.
Proof.
  intros Hwf [S1 S2] [T1 T2 T3 T4 _ _].
  assert (∀ e, e ∈ disk s' → de_path e ∉ de_path <$> dropped) as Hkeep.
  { intros e He (e' & Hp & He')%list_elem_of_fmap.
    assert (e ∈ disk s) as H1 by (rewrite T2; apply elem_of_app; by right).
    assert (e' ∈ disk s) as H2 by (rewrite T2; apply elem_of_app; by left).
    destruct (S1 _ H1) as (K1 & P1 & _), (S1 _ H2) as (K2 & P2 & _).
    rewrite P1, P2 in Hp. apply chunkPath_inj in Hp; [|done|done].
    pose proof (disk_NoDup _ Hwf) as Hnd. rewrite T2, fmap_app in Hnd.
    apply NoDup_app in Hnd as (_ & Hdisj & _). apply (Hdisj (de_key e')).
    - apply list_elem_of_fmap. by exists e'.
    - rewrite <- Hp. apply list_elem_of_fmap. by exists e. }
  split.
  - intros e He. destruct (S1 e) as (? & ? & f & ? & ?); [rewrite T2; apply elem_of_app; by right|].
    split_and!; [done|done|]. exists f. rewrite T4, decide_False by (by apply Hkeep). done.
  - intros p f. rewrite T4. case_decide as Hin; [done|]. intros Hp Hc.
    destruct (S2 p f Hp Hc) as (e & He & <-). exists e. split; [|done].
    rewrite T2 in He. apply elem_of_app in He as [He|He]; [|done].
    destruct Hin. apply list_elem_of_fmap. by exists e.
Qed.

(** The store [putDisk] trims: the file is in place and indexed last. *)
Definition putDisk_added (io : diskIO) (key : chunkKey) (data : bytes) (s : chunkStore) : chunkStore :=
  addDiskLocked key (chunkPath key) (zlen data)
    (s <| dir ::= λ d, <[chunkPath key := mkDirFile RegularFile data (put_time io)]>
                         (delete (put_temp io) d) |>).

Lemma putDisk_good io key data s :
  put_fault io = None → zlen data ≠ 0 → ¬ disk_disabled s →
  putDisk io key data s = trimDiskLocked io (putDisk_added io key data s).
Proof. intros Hf Hl Hd. unfold putDisk. by rewrite Hf, decide_False by tauto. Qed.

Lemma putDisk_added_step io key data s :
  disk_wf s →
  disk_wf (putDisk_added io key data s) ∧
  disk (putDisk_added io key data s)
    = del_key de_key key (disk s) ++ [mkDiskEntry key (chunkPath key) (zlen data)] ∧
  outside_index (putDisk_added io key data s) = outside_index s ∧
  dir (putDisk_added io key data s)
    = <[chunkPath key := mkDirFile RegularFile data (put_time io)]> (delete (put_temp io) (dir s)).
Proof.
  intros Hwf. unfold putDisk_added. set (s1 := s <| dir ::= _ |>).
  assert (disk_wf s1) as Hd1 by (destruct Hwf; by split).
  by destruct (addDiskLocked_step s1 key (chunkPath key) (zlen data) Hd1 (zlen_nonneg _)).
Qed.

Lemma putDisk_added_sync io key data s :
  io_ok io → key_ok key → disk_wf s → disk_sync s → disk_sync (putDisk_added io key data s).
Proof.
  intros Hio Hkey Hwf [S1 S2]. destruct (putDisk_added_step io key data s Hwf) as (_ & E & _ & Hdir).
  split; rewrite E, Hdir.
  - intros e [[Hne He]%elem_of_del_key| ->%list_elem_of_singleton]%elem_of_app.
    + destruct (S1 e He) as (K & P & f & Hf1 & Hf2). split_and!; [done|done|]. exists f.
      rewrite lookup_insert_ne; [|rewrite P; intros Hc; by apply chunkPath_inj in Hc].
      rewrite lookup_delete_ne; [done|]. rewrite P. by apply not_eq_sym, chunkPath_not_part.
    + cbn. split_and!; [done|done|]. eexists. by rewrite lookup_insert_eq.
  - intros p f. rewrite lookup_insert. case_decide as Hp.
    + intros _ _. exists (mkDiskEntry key (chunkPath key) (zlen data)). split; [|done].
      apply elem_of_app. right. by left.
    + intros [_ Hpf]%lookup_delete_Some Hc. destruct (S2 p f Hpf Hc) as (e & He & <-).
      exists e. split; [|done]. apply elem_of_app. left. apply elem_of_del_key. split; [|done].
      intros <-. destruct (S1 e He) as (_ & P & _). congruence.
Qed.

Lemma putDisk_sync io key data s s' failed :
  io_ok io → key_ok key → disk_wf s → disk_sync s → put_fault io = None →
  putDisk io key data s = (s', failed) → disk_sync s'.
Proof.
  intros Hio Hkey Hwf Hsync Hf. unfold putDisk. rewrite Hf.
  case_decide; [by intros [= <- <-]|]. intros Htrim.
  destruct (putDisk_added_step io key data s Hwf) as (W & _).
  destruct (trimDiskLocked_spec _ _ _ _ W Htrim) as [dropped Ht].
  eapply trimmed_sync; [exact W| |exact Ht]. by apply putDisk_added_sync.
Qed.

(** ** Restart *)
Lemma restart_files s :
  disk_sync s →
  let d := filter (λ p, ¬ is_partial p) (dir s) in
  ∀ p f, (p, f) ∈ filter is_chunk_file (map_to_list d) ↔
    dir s !! p = Some f ∧ ∃ e, e ∈ disk s ∧ de_path e = p.
Proof.
  intros [S1 S2] d p f. rewrite list_elem_of_filter, elem_of_map_to_list. subst d.
  rewrite map_lookup_filter_Some. split.
  - intros [Hc [Hp _]]. split; [done|]. by eapply S2.
  - intros [Hp (e & He & <-)]. destruct (S1 e He) as (K & P & f' & Hf & Hk & _).
    rewrite Hf in Hp. injection Hp as ->. rewrite P in *. split_and!; [|done|].
    + split; [done|apply chunkPath_suffix].
    + intros [_ Hpart]. cbn in Hpart.
      apply (chunkPath_not_part (de_key e) (mkDiskIO (λ _, false) (λ _, false) false false None
               (chunkPath (de_key e)) 0)); done.
Qed.

Definition key_of_name (name : string) : chunkKey :=
  default (mkChunkKey "" 0) (parseChunkFileName name).

(** The rebuilt index is the old one up to order. *)
Lemma restart_disk s :
  disk_wf s → disk_sync s →
  let s1 := (emptyStore (memoryLimit s) (diskPath s) (diskLimit s) (dir s))
              <| dir ::= filter (λ p, ¬ is_partial p) |> in
  disk (index_files (chunk_files s1) s1) ≡ₚ disk s.
Proof.
  intros Hwf Hsync s1. pose proof Hsync as [S1 S2].
  assert (∀ p f, (p, f) ∈ chunk_files s1 ↔ dir s !! p = Some f ∧ ∃ e, e ∈ disk s ∧ de_path e = p)
    as Hfiles.
  { intros p f. unfold chunk_files. rewrite merge_sort_Permutation. by apply (restart_files s). }
  assert (∀ p, p ∈ chunk_files s1 → parseChunkFileName p.1 = Some (key_of_name p.1)) as Hparse.
  { intros [p f] (_ & e & He & <-)%Hfiles. destruct (S1 e He) as (K & P & _). cbn.
    unfold key_of_name. rewrite P. by rewrite parse_chunkPath. }
  assert (NoDup ((λ p, key_of_name p.1) <$> chunk_files s1)) as Hnd.
  { apply NoDup_fmap_2_strong.
    - intros [p f] [p' f'] H1 H2. pose proof (Hparse _ H1) as Q1. pose proof (Hparse _ H2) as Q2.
      apply Hfiles in H1 as (F1 & e & He & <-). apply Hfiles in H2 as (F2 & e' & He' & <-).
      destruct (S1 e He) as (K & P & _), (S1 e' He') as (K' & P' & _). cbn in *.
      rewrite P, P' in *. rewrite parse_chunkPath in Q1, Q2 by done. intros Heq.
      assert (de_key e = de_key e') as Hk by congruence. rewrite Hk in *. congruence.
    - unfold chunk_files. rewrite merge_sort_Permutation. apply NoDup_filter, NoDup_map_to_list. }
  rewrite (index_files_entries _ _ key_of_name); [|by destruct Hwf; split; try apply index_wf_new;
    cbn; set_solver|done|done|by intros ? ? ?%not_elem_of_nil].
  change (disk s1) with (@nil diskCacheEntry). rewrite app_nil_l.
  apply NoDup_Permutation.
  - apply (NoDup_fmap_1 de_key). by rewrite <- list_fmap_compose.
  - eapply NoDup_fmap_1, disk_NoDup, Hwf.
  - intros e. rewrite list_elem_of_fmap. split.
    + intros ([p f] & -> & (Hf & e1 & He & <-)%Hfiles).
      destruct (S1 e1 He) as (K & P & f' & Hf' & _ & Hl).
      cbn in *. rewrite Hf' in Hf. injection Hf as ->. unfold indexed_entry, key_of_name. cbn.
      rewrite P, parse_chunkPath by done. cbn. rewrite Hl, <- P. by destruct e1.
    + intros He. destruct (S1 e He) as (K & P & f & Hf & _ & Hl). exists (de_path e, f).
      split; [|apply Hfiles; split; [done|by exists e]].
      unfold indexed_entry, key_of_name. cbn. rewrite Hl. rewrite P, parse_chunkPath by done. cbn.
      rewrite <- P. by destruct e.
Qed.

Lemma restart_index s :
  store_wf s → disk_sync s → 0 ≤ memoryLimit s → diskPath s ≠ "" → 0 < diskLimit s →
  diskBytes s ≤ diskLimit s →
  ∃ s2, newChunkStore goodIO (memoryLimit s) (diskPath s) (diskLimit s) (dir s) = Ok s2 ∧
    (∀ k, diskReady s2 !! k = diskReady s !! k) ∧
    ∀ p f, (∃ e, e ∈ disk s ∧ de_path e = p) → dir s !! p = Some f → dir s2 !! p = Some f.
Proof.
  intros Hwf Hsync Hm Hp Hd Hlim. pose proof Hwf as [_ Hdw].
  unfold newChunkStore. rewrite decide_False by lia. rewrite decide_True by done. cbn [mkdir_fails goodIO].
  unfold removePartialFiles. cbn [readdir_fails goodIO].
  rewrite decide_False by (intros ([? ?] & _ & _ & ?)%Exists_exists; done).
  cbn [mbind result_bind]. unfold loadDiskIndex. cbn [readdir_fails goodIO].
  pose proof (restart_disk s Hdw Hsync) as Hdisk. cbv zeta in Hdisk.
  set (s1 := (emptyStore (memoryLimit s) (diskPath s) (diskLimit s) (dir s)) <| dir ::= _ |>) in *.
  assert (disk_wf s1) as Hd1 by (split; try apply index_wf_new; cbn; set_solver).
  destruct (index_files_wf (chunk_files s1) s1 Hd1) as (W & F & D).
  set (s2 := index_files (chunk_files s1) s1) in *.
  apply outside_index_fields in F as (_ & _ & FL).
  assert (trimDiskLocked goodIO s2 = (s2, None)) as ->.
  { unfold trimDiskLocked. destruct (list_len (diskLRU s2)) as [|n]; [done|]. cbn [trim_loop].
    rewrite decide_False; [done|]. rewrite (dw_bytes _ W), FL. unfold disk_total.
    rewrite Hdisk. fold (disk_total (disk s)). rewrite <- (dw_bytes _ Hdw). cbn. lia. }
  exists s2. split_and!; [done| |].
  - intros k. rewrite (dw_ready _ W), (dw_ready _ Hdw). f_equal.
    apply find_key_perm; [by apply disk_NoDup|done].
  - intros p f He Hf. rewrite D. subst s1. cbn.
    assert ((p, f) ∈ filter is_chunk_file (map_to_list (filter (λ p, ¬ is_partial p) (dir s)))) as Hin
      by (by apply restart_files).
    apply list_elem_of_filter in Hin as [_ Hin]. by apply elem_of_map_to_list in Hin.
Qed.
