(* ===== verification/ChunkCache.v ===== *)
(** * What the stream manager relies on from a chunk store

    The manager of [src/internal/stream/manager.go] calls its store through
    these operations.  The laws say that the bytes a lookup returns were put
    under that key: the manager's theorems are proved from them, and
    [chunkStore] is shown to satisfy them. *)
From S2P Require Import Prelude GoList GoStrings ChunkKeys ChunkStore ChunkMemory ChunkDisk.

Class ChunkCache (S : Type) := {
  cc_get : diskIO → chunkKey → bool → S → S * option bytes;
  cc_length : chunkKey → S → S * option Z;
  cc_put_memory : chunkKey → bytes → S → S;
  cc_put_disk : diskIO → chunkKey → bytes → S → S * option storeError;
  cc_clear : S → S * Z;
  cc_remove_range : string → Z → Z → S → S;
  cc_prune : string → Z → Z → S → S;
  cc_disk_disabled : S → bool
}.

Class ChunkCacheLaws (S : Type) `{ChunkCache S} := {
  cc_wf : S → Prop;
  cc_holds : S → chunkKey → bytes → Prop;
  cc_get_law io k touch s s' r :
    cc_wf s → cc_get io k touch s = (s', r) →
    cc_wf s' ∧ (∀ k' d, cc_holds s' k' d → cc_holds s k' d) ∧ (∀ d, r = Some d → cc_holds s k d);
  cc_length_law k s s' r :
    cc_wf s → cc_length k s = (s', r) →
    cc_wf s' ∧ (∀ k' d, cc_holds s' k' d → cc_holds s k' d);
  cc_put_memory_law k d s :
    cc_wf s → cc_wf (cc_put_memory k d s) ∧
    ∀ k' d', cc_holds (cc_put_memory k d s) k' d' → cc_holds s k' d' ∨ (k' = k ∧ d' = d);
  cc_put_disk_law io k d s s' e :
    io_ok io → key_ok k → cc_wf s → cc_put_disk io k d s = (s', e) →
    cc_wf s' ∧
    ∀ k' d', key_ok k' → cc_holds s' k' d' → cc_holds s k' d' ∨ (k' = k ∧ d' = d);
  cc_clear_law s :
    cc_wf s → cc_wf (cc_clear s).1 ∧ ∀ k d, cc_holds (cc_clear s).1 k d → cc_holds s k d;
  cc_remove_range_law ver a b s :
    cc_wf s → cc_wf (cc_remove_range ver a b s) ∧
    ∀ k d, cc_holds (cc_remove_range ver a b s) k d → cc_holds s k d;
  cc_prune_law ver a b s :
    cc_wf s → cc_wf (cc_prune ver a b s) ∧
    ∀ k d, cc_holds (cc_prune ver a b s) k d → cc_holds s k d
}.

#[export] Instance chunkStore_cache : ChunkCache chunkStore := {
  cc_get := getWithTouch;
  cc_length := length_of;
  cc_put_memory := putMemory;
  cc_put_disk := putDisk;
  cc_clear := clearMemory;
  cc_remove_range := removeMemoryRange;
  cc_prune := pruneMemoryWindow;
  cc_disk_disabled := λ s, bool_decide (disk_disabled s)
}.

Lemma removeMemoryRange_holds ver a b s :
  store_wf s →
  store_wf (removeMemoryRange ver a b s) ∧
  ∀ k d, holds (removeMemoryRange ver a b s) k d → holds s k d.
Proof. intros H. eapply removal_holds; [done|]. apply removeMemoryRange_step, H. Qed.
Lemma pruneMemoryWindow_holds ver a b s :
  store_wf s →
  store_wf (pruneMemoryWindow ver a b s) ∧
  ∀ k d, holds (pruneMemoryWindow ver a b s) k d → holds s k d.
Proof. intros H. eapply removal_holds; [done|]. apply pruneMemoryWindow_step, H. Qed.

#[export] Instance chunkStore_laws : ChunkCacheLaws chunkStore := {
  cc_wf := store_wf;
  cc_holds := holds;
  cc_get_law := getWithTouch_holds;
  cc_length_law := length_of_holds;
  cc_put_memory_law k d s H := putMemory_holds s k d H;
  cc_put_disk_law := putDisk_holds;
  cc_clear_law := clearMemory_holds;
  cc_remove_range_law := removeMemoryRange_holds;
  cc_prune_law := pruneMemoryWindow_holds
}.

(** ** Sequences of operations on the store *)
Inductive store_op :=
| OpGet (io : diskIO) (k : chunkKey) (touch : bool)
| OpLength (k : chunkKey)
| OpPutMemory (k : chunkKey) (d : bytes)
| OpPutDisk (io : diskIO) (k : chunkKey) (d : bytes)
| OpClear
| OpRemoveRange (ver : string) (a b : Z)
| OpPrune (ver : string) (a b : Z).

Definition run_op (op : store_op) (s : chunkStore) : chunkStore :=
  match op with
  | OpGet io k touch => (getWithTouch io k touch s).1
  | OpLength k => (length_of k s).1
  | OpPutMemory k d => putMemory k d s
  | OpPutDisk io k d => (putDisk io k d s).1
  | OpClear => (clearMemory s).1
  | OpRemoveRange ver a b => removeMemoryRange ver a b s
  | OpPrune ver a b => pruneMemoryWindow ver a b s
  end.
Definition run_ops (ops : list store_op) (s : chunkStore) : chunkStore := foldl (flip run_op) s ops.

(** The keys and temporary names are those the program makes. *)
Definition op_ok (op : store_op) : Prop :=
  match op with OpPutDisk io k _ => io_ok io ∧ key_ok k | _ => True end.
Definition op_puts (k : chunkKey) (d : bytes) (op : store_op) : Prop :=
  match op with OpPutMemory k' d' | OpPutDisk _ k' d' => k' = k ∧ d' = d | _ => False end.

Lemma run_op_holds op s :
  op_ok op → store_wf s →
  store_wf (run_op op s) ∧
  ∀ k d, key_ok k → holds (run_op op s) k d → holds s k d ∨ op_puts k d op.
Proof.
  intros Hop Hwf. destruct op as [io k t|k|k d|io k d| |v a b|v a b]; cbn.
  - destruct (getWithTouch io k t s) as [s' r] eqn:Hg.
    destruct (getWithTouch_holds _ _ _ _ _ _ Hwf Hg) as (? & ? & _). eauto.
  - destruct (length_of k s) as [s' r] eqn:Hg.
    destruct (length_of_holds _ _ _ _ Hwf Hg) as (? & ?). eauto.
  - destruct (putMemory_holds s k d Hwf) as [? Hh]. split; [done|].
    intros k' d' _ [?|[-> ->]]%Hh; tauto.
  - destruct (putDisk io k d s) as [s' e] eqn:Hg. destruct Hop as [Hio Hk].
    destruct (putDisk_holds _ _ _ _ _ _ Hio Hk Hwf Hg) as [? Hh]. split; [done|].
    intros k' d' Hk' Hd'. destruct (Hh _ _ Hk' Hd') as [?|[-> ->]]; tauto.
  - destruct (clearMemory_holds s Hwf). eauto.
  - destruct (removeMemoryRange_holds v a b s Hwf). eauto.
  - destruct (pruneMemoryWindow_holds v a b s Hwf). eauto.
Qed.

Lemma run_ops_holds ops s :
  Forall op_ok ops → store_wf s →
  store_wf (run_ops ops s) ∧
  ∀ k d, key_ok k → holds (run_ops ops s) k d → holds s k d ∨ Exists (op_puts k d) ops.
Proof.
  revert s. induction ops as [|op ops IH]; intros s Hops Hwf; [by eauto|].
  apply Forall_cons in Hops as [Hop Hops]. destruct (run_op_holds op s Hop Hwf) as [Hwf1 Hh1].
  destruct (IH _ Hops Hwf1) as [Hwf2 Hh2]. split; [done|]. intros k d Hk Hd.
  destruct (Hh2 k d Hk Hd) as [Hd1|]; [|right; by apply Exists_cons_tl].
  destruct (Hh1 k d Hk Hd1) as [|]; [by left|right; by apply Exists_cons_hd].
Qed.
