(* ===== verification/ChunkProps.v ===== *)
(** * Properties of the chunk store *)
From S2P Require Import Prelude GoList GoStrings ChunkKeys ChunkStore ChunkMemory ChunkDisk ChunkRestart ChunkCache.

(** ** Shared facts *)
Lemma run_op_limits op s :
  store_wf s →
  memoryLimit (run_op op s) = memoryLimit s ∧ diskLimit (run_op op s) = diskLimit s.
Proof.
  intros [Hm Hd].
  assert (∀ s' l, mem_step s s' l → memoryLimit s' = memoryLimit s ∧ diskLimit s' = diskLimit s)
    as Hms by (intros s' l [_ _ _ ? Hf]; split; [done|by injection Hf]).
  assert (∀ s0 s', memoryLimit s0 = memoryLimit s → diskLimit s0 = diskLimit s →
    outside_index s' = outside_index s0 →
    memoryLimit s' = memoryLimit s ∧ diskLimit s' = diskLimit s) as Hds.
  { intros s0 s' H1 H2 (Hp & _ & Hl)%outside_index_fields. injection Hp. split; congruence. }
  destruct op as [io k t|k|k d|io k d| |v a b|v a b]; cbn.
  - unfold getWithTouch. destruct (memory s !! k); [by destruct t|]. case_decide; [done|].
    destruct (diskReady s !! k); [|done].
    pose proof (touchDiskLocked_step s k Hd) as [W1 _ W3 W4].
    destruct (Hds s _ eq_refl eq_refl W3) as [L1 L2].
    destruct (read_file _ _ _) as [data|]; cbn [fst].
    + assert (mem_wf (touchDiskLocked k s)) as Hm1
        by (apply outside_index_fields in W3 as (? & _); by eapply mem_wf_frame).
      destruct (putMemory_step _ k data Hm1) as [_ _ _ ? Hf]. injection Hf. split; congruence.
    + unfold forgetDisk. pose proof (removeDiskLocked_step _ k W1) as [_ _ Hf _].
      destruct (remove_file_frame io (chunkPath k) (removeDiskLocked k (touchDiskLocked k s)))
        as (Hg & _). eapply Hds; [exact L1|exact L2|congruence].
  - unfold length_of. destruct (memory s !! k); [done|]. case_decide; [done|].
    destruct (diskReady s !! k); [|done]. by apply (Hds s), touchDiskLocked_step.
  - apply (Hms _ _ (putMemory_step s k d Hm)).
  - unfold putDisk. case_decide; [done|].
    destruct (put_fault io) as [[| w | |]|]; cbn [fst]; try done;
      try (eapply Hds; [| |apply (remove_file_frame io (put_temp io))]; done).
    set (s1 := s <| dir ::= _ |>). assert (disk_wf s1) as Hd1 by (destruct Hd; by split).
    pose proof (addDiskLocked_step s1 k (chunkPath k) (zlen d) Hd1 (zlen_nonneg _)) as [W _ F _].
    destruct (trimDiskLocked _ _) as [s2 e] eqn:Ht.
    destruct (trimDiskLocked_spec _ _ _ _ W Ht) as [dropped [_ _ T _ _ _]].
    eapply (Hds s1); [done|done|]. cbn. congruence.
  - apply (Hms _ _ (clearMemory_step s Hm)).
  - apply (Hms _ _ (proj2 (removeMemoryRange_step v a b s Hm))).
  - apply (Hms _ _ (proj2 (pruneMemoryWindow_step v a b s Hm))).
Qed.

Lemma run_ops_limits ops s :
  Forall op_ok ops → store_wf s →
  memoryLimit (run_ops ops s) = memoryLimit s ∧ diskLimit (run_ops ops s) = diskLimit s.
Proof.
  revert s. induction ops as [|op ops IH]; intros s Hops Hwf; [done|].
  apply Forall_cons in Hops as [Hop Hops]. destruct (run_op_limits op s Hwf) as [H1 H2].
  destruct (IH _ Hops (proj1 (run_op_holds op s Hop Hwf))) as [H3 H4].
  unfold run_ops in *. cbn. split; congruence.
Qed.

Lemma remove_file_ok io p s :
  (∀ p, remove_fails io p = false) → (remove_file io p s).2 = false.
Proof. intros H. unfold remove_file. destruct (dir s !! p); [by rewrite H|done]. Qed.
Lemma trim_loop_ok fuel io s : (∀ p, remove_fails io p = false) → (trim_loop fuel io s).2 = None.
Proof.
  intros H. revert s. induction fuel as [|fuel IH]; intros s; cbn; [done|].
  case_decide; [|done]. destruct (_ ≫= _) as [v|]; [|done].
  pose proof (remove_file_ok io (de_path v) s H) as Hr.
  destruct (remove_file io (de_path v) s) as [s1 fl]. cbn in Hr. subst fl. apply IH.
Qed.

(** Example inputs for the witnesses. *)
Definition demoFile : File := mkFile "42" 10 7.
Definition demoKey (i : Z) : chunkKey := mkChunkKey (chunkVersion demoFile 4) i.
Definition demoBytes (n : nat) : bytes := replicate n Byte.x61.
Definition demoStore : chunkStore := emptyStore 10 "cache" 10 ∅.
Definition demoIO : diskIO := goodIO.
Definition demoOps : list store_op :=
  [OpPutMemory (demoKey 0) (demoBytes 4); OpPutMemory (demoKey 1) (demoBytes 4);
   OpGet goodIO (demoKey 0) true; OpPutMemory (demoKey 2) (demoBytes 3);
   OpPutDisk goodIO (demoKey 1) (demoBytes 4); OpPrune (chunkVersion demoFile 4) 0 1].

Lemma demoStore_wf : store_wf demoStore.
Proof. apply emptyStore_wf. lia. Qed.
Lemma demoKey_ok i : 0 ≤ i < 2 ^ 63 → key_ok (demoKey i).
Proof.
  intros. split_and!; [apply chunkVersion_nonempty| |cbn; lia|cbn; lia].
  apply chunkVersion_plain. intros c [->|[->|[]]]; eauto.
Qed.

(** ** Claims *)

(** C29: Whatever sequence of cache operations runs on a store that
    [newChunkStore] opened, a lookup that returns bytes for a key returns bytes
    that were put under exactly that key by one of the operations, or that the
    key's own cache file held when the process started. *)
Theorem store_integrity io0 ml dp dl d0 s0 ops io k touch s' d :
  newChunkStore io0 ml dp dl d0 = Ok s0 → Forall op_ok ops → key_ok k →
  getWithTouch io k touch (run_ops ops s0) = (s', Some d) →
  Exists (op_puts k d) ops ∨ ∃ t, d0 !! chunkPath k = Some (mkDirFile RegularFile d t).
Proof.
  intros Hnew Hops Hk Hget.
  destruct (newChunkStore_wf _ _ _ _ _ _ Hnew) as (Hwf0 & _).
  destruct (run_ops_holds ops s0 Hops Hwf0) as [Hwf Hh].
  destruct (getWithTouch_holds _ _ _ _ _ _ Hwf Hget) as (_ & _ & Hd).
  destruct (Hh k d Hk (Hd d eq_refl)) as [H|H]; [right|by left].
  by eapply newChunkStore_holds.
Qed.
Lemma store_integrity_witness :
  Exists (op_puts (demoKey 0) (demoBytes 4)) demoOps ∨
  ∃ t, (∅ : gmap string dirFile) !! chunkPath (demoKey 0) = Some (mkDirFile RegularFile (demoBytes 4) t).
Proof.
  apply (store_integrity goodIO 10 "cache" 10 ∅ demoStore demoOps goodIO (demoKey 0) true
           (getWithTouch goodIO (demoKey 0) true (run_ops demoOps demoStore)).1).
  - vm_compute. reflexivity.
  - repeat apply Forall_cons_2; try exact I; [|apply Forall_nil_2].
    split; [reflexivity|apply demoKey_ok; lia].
  - apply demoKey_ok. lia.
  - vm_compute. reflexivity.
Defined.

(** C30: After any sequence of cache operations the memory cache's byte counter
    is exactly the size of what it holds and within its limit, no key is held
    twice, the key index agrees with the list, and the disk counter is exactly
    the sum of the indexed sizes. *)
Theorem store_accounting io0 ml dp dl d0 s0 ops :
  newChunkStore io0 ml dp dl d0 = Ok s0 → Forall op_ok ops →
  let s := run_ops ops s0 in
  memoryBytes s = total (mem s) ∧ 0 ≤ memoryBytes s ≤ ml ∧ NoDup (ce_key <$> mem s) ∧
  (∀ k, is_Some (memory s !! k) ↔ k ∈ ce_key <$> mem s) ∧
  diskBytes s = disk_total (disk s) ∧ 0 ≤ diskBytes s ∧ NoDup (de_key <$> disk s) ∧
  (∀ k, is_Some (diskReady s !! k) ↔ k ∈ de_key <$> disk s).
Proof.
  intros Hnew Hops s. destruct (newChunkStore_wf _ _ _ _ _ _ Hnew) as (Hwf0 & _ & Hl & _).
  destruct (run_ops_holds ops s0 Hops Hwf0) as [[Hm Hd] _].
  destruct (run_ops_limits ops s0 Hops Hwf0) as [Hlim _].
  fold s in Hm, Hd, Hlim. rewrite (mw_bytes _ Hm), (dw_bytes _ Hd).
  pose proof (mw_limit _ Hm) as Hle. rewrite Hlim, Hl in Hle.
  assert (0 ≤ ml) by (unfold newChunkStore in Hnew; case_decide; [done|lia]).
  pose proof (total_nonneg (mem s)).
  split_and!; [done|lia|lia|by apply mem_NoDup|intros k; by apply mem_key_iff|done| |
               by apply disk_NoDup|intros k; by apply ready_iff].
  apply zsum_nonneg, Hd.
Qed.
Lemma store_accounting_witness :
  let s := run_ops demoOps demoStore in memoryBytes s = total (mem s) ∧ memoryBytes s = 4.
Proof.
  split; [|vm_compute; reflexivity].
  refine (proj1 (store_accounting goodIO 10 "cache" 10 ∅ demoStore demoOps _ _)).
  - vm_compute. reflexivity.
  - repeat apply Forall_cons_2; try exact I; [|apply Forall_nil_2].
    split; [reflexivity|apply demoKey_ok; lia].
Defined.

(** C31: [putMemory] implements a byte-bounded LRU list: the entry becomes the
    newest, the oldest entries are dropped one by one until the rest fits and
    no further, data larger than the limit changes nothing, and the disk cache
    is untouched. *)
Theorem putMemory_refines_lru s key data :
  mem_wf s →
  let s' := putMemory key data s in
  mem s' = lru_put (memoryLimit s) key data (mem s) ∧ mem_wf s' ∧ disk_part s' = disk_part s ∧
  (0 < memoryLimit s → zlen data ≤ memoryLimit s → mem_lookup s' key = Some data) ∧
  (0 < memoryLimit s → zlen data ≤ memoryLimit s →
   ∀ d e r, del_key ce_key key (mem s) ++ [mkEntry key data] = d ++ e :: r → mem s' = r →
     memoryLimit s < total (e :: r)).
Proof.
  intros Hwf s'. pose proof (putMemory_step s key data Hwf) as [H1 H2 H3 H4 H5].
  pose proof (putMemory_wf s key data Hwf) as Hwf'. fold s' in H1, H2, H3, H4, H5, Hwf'.
  split_and!; [done|done|done| |]; intros Hpos Hfit.
  - apply mem_lookup_elem; [done|]. rewrite H3. unfold lru_put.
    rewrite decide_False by lia. by apply lru_evict_keeps_last.
  - intros d e r Heq Hr. rewrite H3 in Hr. unfold lru_put in Hr.
    rewrite decide_False in Hr by lia. by eapply lru_evict_maximal.
Qed.
Lemma putMemory_refines_lru_witness :
  let s := run_ops [OpPutMemory (demoKey 0) (demoBytes 4); OpPutMemory (demoKey 1) (demoBytes 4)]
             demoStore in
  mem (putMemory (demoKey 2) (demoBytes 3) s)
  = lru_put 10 (demoKey 2) (demoBytes 3) (mem s) ∧
  mem (putMemory (demoKey 2) (demoBytes 3) s)
  = [mkEntry (demoKey 1) (demoBytes 4); mkEntry (demoKey 2) (demoBytes 3)].
Proof.
  split; [|vm_compute; reflexivity].
  refine (proj1 (putMemory_refines_lru
    (run_ops [OpPutMemory (demoKey 0) (demoBytes 4); OpPutMemory (demoKey 1) (demoBytes 4)]
       demoStore) (demoKey 2) (demoBytes 3) _)).
  repeat apply putMemory_wf. apply demoStore_wf.
Defined.

(** [pruneMemoryWindow] gives the same cache for every order in which Go's
    map iteration visits the keys: the chunks of other files and those inside
    the window stay, in the same recency order, all others go. *)
Theorem prune_any_order order ver start end_ s :
  mem_wf s → order ≡ₚ (map_to_list (memory s)).*1 →
  mem (pruneMemoryWindow_in order ver start end_ s)
  = filter (λ e, ¬ outside_window ver start end_ (ce_key e)) (mem s) ∧
  memoryBytes (pruneMemoryWindow_in order ver start end_ s)
  = memoryBytes (pruneMemoryWindow ver start end_ s) ∧
  mem_wf (pruneMemoryWindow_in order ver start end_ s).
Proof.
  intros Hwf Ho. destruct (pruneMemoryWindow_in_step order ver start end_ s Hwf Ho) as [H1 H2].
  destruct (pruneMemoryWindow_step ver start end_ s Hwf) as [H3 H4].
  split_and!; [apply H2| |done]. by rewrite (ms_bytes _ _ _ H2), (ms_bytes _ _ _ H4),
    (ms_mem _ _ _ H2), (ms_mem _ _ _ H4).
Qed.
Lemma prune_any_order_witness :
  let s := run_ops [OpPutMemory (demoKey 0) (demoBytes 4); OpPutMemory (demoKey 1) (demoBytes 4)]
             demoStore in
  mem (pruneMemoryWindow_in [demoKey 1; demoKey 0] (chunkVersion demoFile 4) 1 3 s)
  = filter (λ e, ¬ outside_window (chunkVersion demoFile 4) 1 3 (ce_key e)) (mem s).
Proof.
  refine (proj1 (prune_any_order [demoKey 1; demoKey 0] (chunkVersion demoFile 4) 1 3
    (run_ops [OpPutMemory (demoKey 0) (demoBytes 4); OpPutMemory (demoKey 1) (demoBytes 4)]
       demoStore) _ _)).
  - repeat apply putMemory_wf. apply demoStore_wf.
  - vm_compute. first [apply Permutation_refl | apply Permutation_swap].
Defined.

(** When the disk cache is on and no file operation fails, [putDisk]
    returns no error, leaves the disk usage within the limit, indexes the chunk
    and stores bytes that read back unchanged; only the least recently used
    files are dropped, each one because the limit was still exceeded. *)
Theorem putDisk_bounded io key data s :
  io_ok io → key_ok key → disk_wf s → disk_sync s → put_fault io = None →
  (∀ p, remove_fails io p = false) → ¬ disk_disabled s → data ≠ [] → zlen data ≤ diskLimit s →
  let '(s', failed) := putDisk io key data s in
  failed = None ∧ diskBytes s' ≤ diskLimit s' ∧ diskReady s' !! key = Some (zlen data) ∧
  read_file goodIO (chunkPath key) s' = Some data ∧
  ∃ dropped, del_key de_key key (disk s) ++ [mkDiskEntry key (chunkPath key) (zlen data)]
             = dropped ++ disk s' ∧
    ∀ d e r, dropped = d ++ e :: r → diskLimit s < disk_total (e :: r ++ disk s').
Proof.
  intros Hio Hkey Hwf Hsync Hf Hrm Hen Hne Hfit.
  assert (zlen data ≠ 0) by (intros ?%zlen_0; done).
  rewrite putDisk_good by done.
  destruct (putDisk_added_step io key data s Hwf) as (W & E & F & D).
  pose proof (putDisk_added_sync io key data s Hio Hkey Hwf Hsync) as Hsync2.
  pose proof (trim_loop_ok (list_len (diskLRU (putDisk_added io key data s))) io _ Hrm
    : (trimDiskLocked io (putDisk_added io key data s)).2 = None) as Hok.
  destruct (trimDiskLocked io (putDisk_added io key data s)) as [s' failed] eqn:Ht.
  cbn in Hok. subst failed.
  destruct (trimDiskLocked_spec _ _ _ _ W Ht) as [dropped Htr].
  pose proof (trimmed_sync _ _ _ _ W Hsync2 Htr) as [S1 _].
  destruct Htr as [T1 T2 T3 T4 T5 T6]. rewrite E in T2.
  apply outside_index_fields in F as (_ & _ & FL).
  apply outside_index_fields in T3 as (_ & _ & TL). rewrite FL in T5, T6.
  assert (mkDiskEntry key (chunkPath key) (zlen data) ∈ disk s') as Hin.
  { destruct (exists_last (l := disk s')) as (l & x & Hl).
    - intros Hnil. rewrite Hnil, app_nil_r in T2.
      specialize (T6 _ (mkDiskEntry key (chunkPath key) (zlen data)) [] (eq_sym T2)).
      rewrite Hnil in T6. cbn in T6. lia.
    - rewrite Hl, app_assoc in T2. apply app_inj_tail in T2 as [_ ->].
      rewrite Hl. apply elem_of_app. right. by left. }
  destruct (S1 _ Hin) as (_ & _ & f & Hf' & Hk & Hlen). cbn in Hf'.
  split_and!; [done| | | |by exists dropped].
  - rewrite (dw_bytes _ T1), TL, FL. destruct T5 as [|Hnil]; [done|lia|].
    rewrite Hnil in Hin. by apply not_elem_of_nil in Hin.
  - rewrite (dw_ready _ T1).
    by rewrite (find_key_unique de_key _ _ _ (disk_NoDup _ T1) Hin eq_refl).
  - pose proof Hf' as Hf2. rewrite T4, D in Hf2. case_decide; [done|].
    rewrite lookup_insert_eq in Hf2. injection Hf2 as <-.
    unfold read_file. by rewrite Hf'.
Qed.
Lemma putDisk_bounded_witness :
  let s := run_ops [OpPutDisk demoIO (demoKey 0) (demoBytes 6)] demoStore in
  (putDisk demoIO (demoKey 1) (demoBytes 5) s).2 = None ∧
  disk (putDisk demoIO (demoKey 1) (demoBytes 5) s).1
  = [mkDiskEntry (demoKey 1) (chunkPath (demoKey 1)) 5].
Proof.
  assert (disk_wf demoStore) as Hd0 by apply demoStore_wf.
  assert (disk_sync demoStore) as Hs0.
  { split; [intros e He; by apply not_elem_of_nil in He|].
    intros p f Hp. cbn in Hp. by rewrite lookup_empty in Hp. }
  assert (key_ok (demoKey 0)) as Hk0 by (apply demoKey_ok; lia).
  pose proof (putDisk_bounded demoIO (demoKey 1) (demoBytes 5)
    (run_ops [OpPutDisk demoIO (demoKey 0) (demoBytes 6)] demoStore)) as Hb.
  split; [|vm_compute; reflexivity].
  destruct (putDisk demoIO (demoKey 1) (demoBytes 5) _) as [s' failed].
  refine (proj1 (Hb _ _ _ _ _ _ _ _ _)).
  - reflexivity.
  - apply demoKey_ok. lia.
  - apply run_ops_holds; [|apply demoStore_wf]. apply Forall_cons_2; [by split|apply Forall_nil_2].
  - eapply (putDisk_sync demoIO (demoKey 0) (demoBytes 6) demoStore); done.
  - reflexivity.
  - reflexivity.
  - vm_compute. by intros [|].
  - done.
  - vm_compute. discriminate.
Defined.

(** C32: A process that starts on the directory an earlier one left in step with
    its index rebuilds the same index, and a lookup of any indexed chunk reads
    back the bytes the earlier process had in the file. *)
Theorem restart_recovers_cache s :
  store_wf s → disk_sync s → 0 ≤ memoryLimit s → ¬ disk_disabled s → diskBytes s ≤ diskLimit s →
  ∃ s2, newChunkStore goodIO (memoryLimit s) (diskPath s) (diskLimit s) (dir s) = Ok s2 ∧
    (∀ k, diskReady s2 !! k = diskReady s !! k) ∧
    ∀ k n, diskReady s !! k = Some n →
      ∃ data, read_file goodIO (chunkPath k) s = Some data ∧ zlen data = n ∧
              (get goodIO k s2).2 = Some data.
Proof.
  intros Hwf Hsync Hm Hen Hlim. unfold disk_disabled in Hen.
  destruct (restart_index s Hwf Hsync Hm) as (s2 & Hnew & Hr & Hd); [tauto|lia|done|].
  exists s2. split_and!; [done|done|]. intros k n Hk.
  destruct (newChunkStore_wf _ _ _ _ _ _ Hnew) as ([Hm2 _] & Hnil & _ & Hp2 & Hl2 & _).
  pose proof (dw_ready _ (proj2 Hwf) k) as Hsz. rewrite Hk in Hsz. symmetry in Hsz.
  apply fmap_Some in Hsz as (e & [<- He]%find_key_Some & ->).
  destruct Hsync as [S1 _]. destruct (S1 e He) as (_ & P & [kd data t] & Hf & Hreg & Hlen).
  cbn in Hreg, Hlen. subst kd. rewrite P in Hf.
  assert (dir s2 !! chunkPath (de_key e) = Some (mkDirFile RegularFile data t)) as Hf2
    by (apply Hd; [by exists e|done]).
  exists data. split_and!; [unfold read_file; by rewrite Hf|done|].
  unfold get, getWithTouch.
  assert (memory s2 !! de_key e = None) as ->.
  { apply eq_None_not_Some. rewrite (mem_key_iff _ _ Hm2), Hnil. apply not_elem_of_nil. }
  rewrite decide_False by (unfold disk_disabled; rewrite Hp2, Hl2; tauto).
  rewrite Hr, Hk. unfold read_file.
  assert (dir (touchDiskLocked (de_key e) s2) = dir s2) as ->
    by (unfold touchDiskLocked; by destruct (diskEntries s2 !! de_key e)).
  by rewrite Hf2.
Qed.
Lemma restart_recovers_cache_witness :
  let s := run_ops [OpPutDisk demoIO (demoKey 0) (demoBytes 6)] demoStore in
  ∃ s2, newChunkStore goodIO 10 "cache" 10 (dir s) = Ok s2 ∧
    (∀ k, diskReady s2 !! k = diskReady s !! k) ∧
    ∀ k n, diskReady s !! k = Some n →
      ∃ data, read_file goodIO (chunkPath k) s = Some data ∧ zlen data = n ∧
              (get goodIO k s2).2 = Some data.
Proof.
  assert (store_wf demoStore) as Hd0 by apply demoStore_wf.
  assert (key_ok (demoKey 0)) as Hk0 by (apply demoKey_ok; lia).
  refine (restart_recovers_cache (run_ops [OpPutDisk demoIO (demoKey 0) (demoBytes 6)] demoStore)
            _ _ _ _ _).
  - apply run_ops_holds; [|done]. apply Forall_cons_2; [by split|apply Forall_nil_2].
  - eapply (putDisk_sync demoIO (demoKey 0) (demoBytes 6) demoStore); [done|done|apply Hd0| |done|].
    + split; [intros e He; by apply not_elem_of_nil in He|].
      intros p f Hp. cbn in Hp. by rewrite lookup_empty in Hp.
    + apply surjective_pairing.
  - vm_compute. discriminate.
  - vm_compute. by intros [|].
  - vm_compute. discriminate.
Defined.

(** The cache file name of a chunk parses back to the chunk's key, so the
    next process indexes the file under the key it was written for. *)
Theorem chunk_file_name_roundtrip file cs i :
  all_digits (FSID file) → 0 ≤ i < 2 ^ 63 →
  parseChunkFileName (chunkPath (mkChunkKey (chunkVersion file cs) i))
  = Some (mkChunkKey (chunkVersion file cs) i).
Proof.
  intros Hf Hi. apply parse_chunkPath.
  split_and!; [apply chunkVersion_nonempty|by apply chunkVersion_plain|cbn; lia|cbn; lia].
Qed.
Lemma chunk_file_name_roundtrip_witness :
  chunkPath (mkChunkKey (chunkVersion demoFile 4) 11) = "42-10-7-chunk-4-11.chunk" ∧
  parseChunkFileName "42-10-7-chunk-4-11.chunk" = Some (mkChunkKey "42-10-7-chunk-4" 11).
Proof.
  split; [reflexivity|]. apply (chunk_file_name_roundtrip demoFile 4 11); [|lia].
  intros c [->|[->|[]]]; eauto.
Defined.

(** Two chunks share a cache file only if they are the same chunk of the
    same file: FSID, size, modification time and index all agree. *)
Theorem chunk_file_identifies_chunk file file' cs i i' :
  all_digits (FSID file) → all_digits (FSID file') →
  0 ≤ Size file < 2 ^ 63 → 0 ≤ MTM file < 2 ^ 63 → 0 ≤ Size file' < 2 ^ 63 → 0 ≤ MTM file' < 2 ^ 63 →
  0 ≤ i < 2 ^ 63 → 0 ≤ i' < 2 ^ 63 →
  chunkPath (mkChunkKey (chunkVersion file cs) i) = chunkPath (mkChunkKey (chunkVersion file' cs) i') →
  file = file' ∧ i = i'.
Proof.
  intros Hf Hf' ? ? ? ? ? ? Heq.
  assert (∀ f j, all_digits (FSID f) → 0 ≤ j < 2 ^ 63 → key_ok (mkChunkKey (chunkVersion f cs) j)) as Hok.
  { intros f j ? ?.
    split_and!; [apply chunkVersion_nonempty|by apply chunkVersion_plain|cbn; lia|cbn; lia]. }
  apply chunkPath_inj in Heq as [= Hv ->]; [|by apply Hok..].
  split; [|done]. by eapply chunkVersion_same.
Qed.
Lemma chunk_file_identifies_chunk_witness :
  mkFile "42" 10 7 = mkFile "42" 10 7 ∧ 3 = 3.
Proof.
  apply (chunk_file_identifies_chunk (mkFile "42" 10 7) (mkFile "42" 10 7) 4 3 3);
    first [intros c [->|[->|[]]]; eauto | cbn; lia | reflexivity].
Defined.
