(* ===== verification/TaskHeap.v ===== *)
(** * Download tasks and their priority queue ([src/internal/stream/manager.go])

    The [task] object, the methods of [taskHeap], and the functions of
    [container/heap] the manager calls on it.  Tasks are shared objects: the
    queue holds identifiers, [h_objs] maps an identifier to the object, and
    [Swap], [Push] and [Pop] write the back pointer [t_index].  An operation
    that Go would stop with an index panic yields [None]. *)
From Stdlib Require Import ZifyNat.
From S2P Require Import Prelude GoList GoStrings ChunkKeys ChunkStore.

(** [type priority] *)
Inductive priority := priorityForeground | priorityNear | priorityAhead | priorityBack.
#[export] Instance priority_eq_dec : EqDecision priority.
Proof. solve_decision. Defined.
Definition priority_num (p : priority) : Z :=
  match p with
  | priorityForeground => 0 | priorityNear => 1 | priorityAhead => 2 | priorityBack => 3
  end.

(** What a download, a wait or a call of the manager can fail with. *)
Inductive streamErr :=
| ErrCanceled | ErrDeadline | ErrUnexpectedEOF | ErrRemote | ErrChunkFailed (cause : streamErr)
| ErrClosed | ErrReleased | ErrArgument.
#[export] Instance streamErr_eq_dec : EqDecision streamErr.
Proof. solve_decision. Defined.

(** [type task].  [t_canceled] is [ctx.Err() != nil], [t_closed] that [done]
    is closed, [t_hedgeCancel] that the field is not nil, and [t_startedAt] is
    0 for the zero time. *)
Record task := mkTask {
  t_key : chunkKey; t_file : File; t_offset : Z; t_length : Z;
  t_priority : priority; t_epoch : Z; t_seq : Z; t_index : Z;
  t_canceled : bool; t_closed : bool; t_data : bytes; t_err : option streamErr;
  t_started : bool; t_finished : bool; t_foreground : bool; t_hedged : bool;
  t_hedgeCancel : bool; t_startedAt : Z
}.
#[export] Instance task_eta : Eta task := λ t,
  mkTask (t_key t) (t_file t) (t_offset t) (t_length t) (t_priority t) (t_epoch t) (t_seq t)
    (t_index t) (t_canceled t) (t_closed t) (t_data t) (t_err t) (t_started t) (t_finished t)
    (t_foreground t) (t_hedged t) (t_hedgeCancel t) (t_startedAt t).

(** [type taskHeap] and the task objects it points to *)
Record taskHeap := mkHeap { h_queue : list nat; h_objs : gmap nat task }.
#[export] Instance taskHeap_eta : Eta taskHeap := λ h, mkHeap (h_queue h) (h_objs h).

Section operations.
Implicit Types (h : taskHeap) (id i j n : nat).

Definition Len h : nat := length (h_queue h).
Definition heap_at h i : option task := h_queue h !! i ≫= λ id, h_objs h !! id.

Definition Less i j h : option bool :=
  a ← heap_at h i; b ← heap_at h j;
  Some (if decide (t_priority a ≠ t_priority b)
        then bool_decide (priority_num (t_priority a) < priority_num (t_priority b))
        else bool_decide (t_seq a < t_seq b)).

Definition set_index (x : Z) id h : taskHeap :=
  h <| h_objs ::= alter (λ t, t <| t_index := x |>) id |>.

Definition Swap i j h : option taskHeap :=
  a ← h_queue h !! i; b ← h_queue h !! j;
  Some (set_index (Z.of_nat j) a (set_index (Z.of_nat i) b
          (h <| h_queue ::= λ q, <[j := a]> (<[i := b]> q) |>))).

Definition Push id h : taskHeap :=
  set_index (Z.of_nat (Len h)) id h <| h_queue ::= λ q, q ++ [id] |>.

Definition Pop h : option (nat * taskHeap) :=
  id ← last (h_queue h);
  Some (id, (set_index (-1) id h) <| h_queue ::= take (Len h - 1) |>).

(** [container/heap]: [up] and [down]; the index falls, or rises below
    [n], at every turn. *)
Fixpoint heap_up (fuel : nat) j h : option taskHeap :=
  match fuel with
  | O => None
  | S fuel =>
      let i := ((j - 1) / 2)%nat in
      if decide (i = j) then Some h
      else
        less ← Less j i h;
        if negb less then Some h
        else Swap i j h ≫= heap_up fuel i
  end.

Fixpoint heap_down (fuel : nat) i n h : option (nat * taskHeap) :=
  match fuel with
  | O => None
  | S fuel =>
      let j1 := (2 * i + 1)%nat in
      if decide (n ≤ j1)%nat then Some (i, h)
      else
        j ← (if decide (j1 + 1 < n)%nat then
               less ← Less (j1 + 1) j1 h; Some (if (less : bool) then (j1 + 1)%nat else j1)
             else Some j1);
        less ← Less j i h;
        if negb less then Some (i, h)
        else Swap i j h ≫= heap_down fuel j n
  end.

Definition heap_push id h : option taskHeap :=
  let h := Push id h in heap_up (Len h) (Len h - 1) h.

Definition heap_pop h : option (nat * taskHeap) :=
  if decide (Len h = 0%nat) then None
  else
    let n := (Len h - 1)%nat in
    h ← Swap 0 n h;
    '(_, h) ← heap_down (S n) 0 n h;
    Pop h.

(** The index a task records can be -1 once it left the queue: [down] and
    [up] then stop at once. *)
Definition heap_fix (index : Z) h : option taskHeap :=
  if decide (index = -1) then Some h
  else if decide (index < 0) then None
  else
    let i := Z.to_nat index in
    '(i', h) ← heap_down (S (Len h)) i (Len h) h;
    if decide (i < i')%nat then Some h else heap_up (S i) i h.
End operations.

(** ** Rank order *)
Definition rank (t : task) : Z * Z := (priority_num (t_priority t), t_seq t).
Definition rank_lt (a b : Z * Z) : Prop := a.1 < b.1 ∨ (a.1 = b.1 ∧ a.2 < b.2).
#[export] Instance rank_lt_dec : RelDecision rank_lt.
Proof. unfold RelDecision, rank_lt. intros. apply _. Defined.

Lemma priority_num_inj p q : priority_num p = priority_num q → p = q.
Proof. by destruct p, q. Qed.

(** The rank of the task an identifier names, and of the one at a position. *)
Definition id_rank (objs : gmap nat task) (id : nat) : Z * Z := from_option rank (0, 0) (objs !! id).
Definition pos_rank (h : taskHeap) (i : nat) : Z * Z := id_rank (h_objs h) (h_queue h !!! i).

Definition allocated (h : taskHeap) : Prop := ∀ id, id ∈ h_queue h → is_Some (h_objs h !! id).

Lemma heap_at_pos h i :
  allocated h → (i < Len h)%nat → ∃ t, heap_at h i = Some t ∧ rank t = pos_rank h i.
Proof.
  intros Ha Hi. unfold heap_at, pos_rank, id_rank, Len in *.
  destruct (lookup_lt_is_Some_2 _ _ Hi) as [id Hid].
  destruct (Ha id) as [t Ht]; [by eapply list_elem_of_lookup_2|].
  exists t. rewrite (list_lookup_total_correct _ _ _ Hid), Hid. cbn. by rewrite Ht.
Qed.

Lemma Less_spec h i j :
  allocated h → (i < Len h)%nat → (j < Len h)%nat →
  Less i j h = Some (bool_decide (rank_lt (pos_rank h i) (pos_rank h j))).
Proof.
  intros Ha Hi Hj. destruct (heap_at_pos h i Ha Hi) as (a & Hat & <-).
  destruct (heap_at_pos h j Ha Hj) as (b & Hbt & <-). unfold Less. rewrite Hat, Hbt. cbn.
  f_equal. unfold rank_lt, rank. cbn. case_decide as Hp.
  - apply bool_decide_ext. split; [tauto|]. intros [?|[He _]]; [done|].
    by apply priority_num_inj in He.
  - rewrite Hp. apply bool_decide_ext. lia.
Qed.

(** ** What every operation keeps: the objects but for their index *)
Definition but_index (t : task) : task := t <| t_index := 0 |>.
Record same_tasks (h h' : taskHeap) : Prop := {
  st_objs : ∀ id, but_index <$> h_objs h' !! id = but_index <$> h_objs h !! id;
  st_queue : h_queue h' ≡ₚ h_queue h;
  st_others : ∀ id, id ∉ h_queue h → h_objs h' !! id = h_objs h !! id
}.

#[export] Instance same_tasks_refl : Reflexive same_tasks.
Proof. by split. Qed.
#[export] Instance same_tasks_trans : Transitive same_tasks.
Proof.
  intros h1 h2 h3 [O1 Q1 X1] [O2 Q2 X2]. split; [congruence|by rewrite Q2|].
  intros id Hid. rewrite X2, X1; [done|done|]. by rewrite Q1.
Qed.

Lemma but_index_rank (objs objs' : gmap nat task) id :
  but_index <$> objs' !! id = but_index <$> objs !! id → id_rank objs' id = id_rank objs id.
Proof.
  unfold id_rank. intros H. destruct (objs' !! id) as [t|], (objs !! id) as [t'|]; try done.
  cbn in H. injection H as _ _ _ _ Hp _ Hs. cbn. unfold rank. by rewrite Hp, Hs.
Qed.
Lemma but_index_is_Some (objs objs' : gmap nat task) (id : nat) :
  but_index <$> objs' !! id = but_index <$> objs !! id → is_Some (objs' !! id) ↔ is_Some (objs !! id).
Proof.
  intros H. rewrite <- (fmap_is_Some but_index (objs' !! id)), H. apply fmap_is_Some.
Qed.

Lemma same_tasks_rank h h' id : same_tasks h h' → id_rank (h_objs h') id = id_rank (h_objs h) id.
Proof. intros Hs. apply but_index_rank, Hs. Qed.
Lemma same_tasks_allocated h h' : same_tasks h h' → allocated h → allocated h'.
Proof.
  intros Hs Ha id Hid. apply (but_index_is_Some (h_objs h)); [apply Hs|].
  apply Ha. by rewrite <- (st_queue _ _ Hs).
Qed.
Lemma same_tasks_Len h h' : same_tasks h h' → Len h' = Len h.
Proof. intros Hs. unfold Len. by rewrite (st_queue _ _ Hs). Qed.

(** Back pointers: the task at position [p] records [p]. *)
Definition indexed (h : taskHeap) : Prop :=
  ∀ p id, h_queue h !! p = Some id → t_index <$> h_objs h !! id = Some (Z.of_nat p).

Record queue_wf (h : taskHeap) : Prop := {
  qw_NoDup : NoDup (h_queue h);
  qw_indexed : indexed h
}.
Lemma queue_wf_allocated h : queue_wf h → allocated h.
Proof.
  intros [_ Hi] id [p Hp]%list_elem_of_lookup. apply Hi in Hp.
  destruct (h_objs h !! id); [done|]. done.
Qed.

Lemma set_index_but x id h id' :
  but_index <$> h_objs (set_index x id h) !! id' = but_index <$> h_objs h !! id'.
Proof.
  cbn. rewrite lookup_alter. case_decide; [subst|done]. by destruct (h_objs h !! id').
Qed.

Lemma set_index_index x id h id' :
  is_Some (h_objs h !! id) →
  t_index <$> h_objs (set_index x id h) !! id'
  = if decide (id' = id) then Some x else t_index <$> h_objs h !! id'.
Proof.
  intros [t Ht]. cbn. rewrite lookup_alter.
  case_decide; [subst|]; [rewrite decide_True by done|by rewrite decide_False by done].
  by rewrite Ht.
Qed.
Lemma set_index_is_Some x id h id' :
  is_Some (h_objs (set_index x id h) !! id') ↔ is_Some (h_objs h !! id').
Proof. apply but_index_is_Some, set_index_but. Qed.

Lemma swap_lookup (q : list nat) i j a b p :
  q !! i = Some a → q !! j = Some b →
  <[j := a]> (<[i := b]> q) !! p
  = if decide (p = j) then Some a else if decide (p = i) then Some b else q !! p.
Proof.
  intros Hi Hj. apply lookup_lt_Some in Hi as Hli, Hj as Hlj.
  rewrite list_lookup_insert, length_insert. repeat case_decide; try lia; try done.
  - rewrite list_lookup_insert. repeat case_decide; try lia; done.
  - rewrite list_lookup_insert. repeat case_decide; try lia; done.
Qed.

Lemma swap_perm (q : list nat) i j a b :
  q !! i = Some a → q !! j = Some b → <[j := a]> (<[i := b]> q) ≡ₚ q.
Proof.
  intros Hi Hj. apply lookup_lt_Some in Hi as Hli, Hj as Hlj.
  apply Permutation_inj. split; [by rewrite !length_insert|].
  exists (λ p, if decide (p = j) then i else if decide (p = i) then j else p). split.
  - intros p p'. repeat case_decide; lia.
  - intros p. rewrite (swap_lookup _ _ _ a b) by done. repeat case_decide; subst; done.
Qed.

Lemma Swap_spec h i j :
  queue_wf h → (i < Len h)%nat → (j < Len h)%nat →
  ∃ h', Swap i j h = Some h' ∧ queue_wf h' ∧ same_tasks h h' ∧
    ∀ p, pos_rank h' p = if decide (p = j) then pos_rank h i
                         else if decide (p = i) then pos_rank h j else pos_rank h p.
Proof.
  intros Hwf Hi Hj. pose proof (queue_wf_allocated h Hwf) as Hall.
  destruct Hwf as [Hnd Hidx]. unfold Len in *.
  destruct (lookup_lt_is_Some_2 _ _ Hi) as [a Ha], (lookup_lt_is_Some_2 _ _ Hj) as [b Hb].
  unfold Swap. rewrite Ha, Hb. eexists. split; [reflexivity|].
  set (h' := set_index _ _ _).
  assert (h_queue h' = <[j := a]> (<[i := b]> (h_queue h))) as Hq by done.
  assert (same_tasks h h') as Hs.
  { split.
    - intros id. unfold h'. by rewrite !set_index_but.
    - rewrite Hq. by apply swap_perm.
    - intros id Hid. unfold h'. cbn.
      rewrite !lookup_alter_ne; [done| |]; intros ->; apply Hid; by eapply list_elem_of_lookup_2. }
  split_and!; [split| |]; [| |done|].
  - by rewrite (st_queue _ _ Hs).
  - intros p id. unfold h' at 2. rewrite !set_index_index.
    + rewrite Hq, (swap_lookup _ _ _ a b) by done.
      assert (∀ p p' x, h_queue h !! p = Some x → h_queue h !! p' = Some x → p = p') as Huniq
        by (intros ???; by apply NoDup_lookup).
      repeat case_decide; intros; simplify_eq; first [done | by apply Hidx | exfalso; eauto].
    + eapply Hall, list_elem_of_lookup_2, Hb.
    + apply set_index_is_Some. eapply Hall, list_elem_of_lookup_2, Ha.
  - intros p. unfold pos_rank. rewrite (same_tasks_rank h) by done. rewrite Hq.
    rewrite !list_lookup_total_alt, (swap_lookup _ _ _ a b) by done.
    rewrite Ha, Hb. repeat case_decide; done.
Qed.

(** ** Heap order *)
#[local] Ltac Zify.zify_post_hook ::= Z.to_euclidean_division_equations.

Definition parent (k : nat) : nat := ((k - 1) / 2)%nat.
Definition in_order (h : taskHeap) (k : nat) : Prop :=
  ¬ rank_lt (pos_rank h k) (pos_rank h (parent k)).
Definition ordered_to (n : nat) (h : taskHeap) : Prop := ∀ k, (0 < k < n)%nat → in_order h k.
Definition heap_wf (h : taskHeap) : Prop := queue_wf h ∧ ordered_to (Len h) h.

(** Only the element at [j] may rank below its parent. *)
Definition up_ready (j : nat) (h : taskHeap) : Prop :=
  ∀ k, (0 < k < Len h)%nat →
    (k ≠ j → in_order h k) ∧
    (parent k = j → (0 < j)%nat → ¬ rank_lt (pos_rank h k) (pos_rank h (parent j))).

Ltac ranks :=
  unfold in_order, rank_lt in *;
  repeat match goal with |- context [pos_rank ?h ?k] => is_var h; destruct (pos_rank h k) end;
  cbn in *; lia.

Lemma heap_up_spec fuel j h :
  queue_wf h → (j < Len h)%nat → (j < fuel)%nat → up_ready j h →
  ∃ h', heap_up fuel j h = Some h' ∧ same_tasks h h' ∧ heap_wf h'.
Proof.
  revert j h. induction fuel as [|fuel IH]; intros j h Hwf Hj Hf Hup; [lia|]. cbn [heap_up].
  fold (parent j). case_decide as Hpj.
  { exists h. split_and!; [done|done|split; [done|]]. intros k Hk. apply (proj1 (Hup k Hk)). unfold parent in *; lia. }
  assert (0 < j ∧ parent j < j)%nat as [Hj0 Hpl] by (unfold parent in *; lia).
  rewrite Less_spec by first [done | lia | by apply queue_wf_allocated]. cbn [mbind option_bind].
  case_bool_decide as Hlt; cbn [negb]; cycle 1.
  { exists h. split_and!; [done|done|split; [done|]]. intros k Hk.
    destruct (decide (k = j)) as [->|]; [exact Hlt|by apply (proj1 (Hup k Hk))]. }
  destruct (Swap_spec h (parent j) j Hwf) as (h1 & -> & Hwf1 & Hs & Hr); [lia..|].
  cbn [mbind option_bind]. pose proof (same_tasks_Len _ _ Hs) as HL.
  destruct (IH (parent j) h1 Hwf1) as (h' & -> & Hs' & Hok); [lia|lia| |].
  - intros k Hk. rewrite HL in Hk. pose proof (Hup k Hk) as [H1 H2].
    unfold in_order. rewrite !Hr. split.
    + intros Hkp. rewrite (decide_False (P := k = parent j)) by done.
      destruct (decide (k = j)) as [->|Hkj].
      * rewrite decide_False by lia. rewrite decide_True by done. ranks.
      * specialize (H1 Hkj). unfold in_order in H1.
        destruct (decide (parent k = j)) as [He|]; [by apply H2|].
        destruct (decide (parent k = parent j)) as [He|]; [|done].
        rewrite He in H1. ranks.
    + intros Hkp Hp0.
      assert (in_order h (parent j)) as Hpp by (apply (proj1 (Hup (parent j) ltac:(lia))); lia).
      rewrite (decide_False (P := parent (parent j) = j)) by (unfold parent in *; lia).
      rewrite (decide_False (P := parent (parent j) = parent j)) by (unfold parent in *; lia).
      destruct (decide (k = j)) as [->|Hkj]; [exact Hpp|].
      rewrite decide_False by (intros ->; unfold parent in *; lia).
      specialize (H1 Hkj). unfold in_order in H1, Hpp. rewrite Hkp in H1. ranks.
  - exists h'. split_and!; [done|by etrans|apply Hok..].
Qed.

(** The element at [i] may rank above its children, or below its parent. *)
Definition down_ready (i n : nat) (h : taskHeap) : Prop :=
  ∀ k, (0 < k < n)%nat →
    (k ≠ i → parent k ≠ i → in_order h k) ∧
    (parent k = i → (0 < i)%nat → ¬ rank_lt (pos_rank h k) (pos_rank h (parent i))).

Lemma heap_down_spec fuel i n h :
  queue_wf h → (n ≤ Len h)%nat → (i < n)%nat → (n < fuel + i)%nat → down_ready i n h →
  ∃ i' h', heap_down fuel i n h = Some (i', h') ∧ queue_wf h' ∧ same_tasks h h' ∧
    (∀ p, (n ≤ p)%nat → h_queue h' !! p = h_queue h !! p) ∧
    ((i' = i ∧ h' = h ∧ ∀ k, (0 < k < n)%nat → parent k = i → in_order h k) ∨
     ((i < i')%nat ∧ ordered_to n h')).
Proof.
  revert i h. induction fuel as [|fuel IH]; intros i h Hwf Hn Hi Hf Hdn; [lia|]. cbn [heap_down].
  case_decide as Hleaf.
  { exists i, h. split_and!; [done..|]. left. split_and!; [done..|]. intros k Hk.
    unfold parent. lia. }
  pose proof (queue_wf_allocated h Hwf) as Hal.
  set (pick := if decide (2 * i + 1 + 1 < n)%nat then _ else _).
  assert (∃ j, pick = Some j ∧ (0 < j < n)%nat ∧ parent j = i ∧
    ∀ k, (0 < k < n)%nat → parent k = i → ¬ rank_lt (pos_rank h k) (pos_rank h j)) as (j & -> & Hj & Hpj & Hmin).
  { subst pick. case_decide as H2.
    - rewrite Less_spec by (done || lia). cbn [mbind option_bind].
      eexists. split; [reflexivity|]. case_bool_decide as Hl; split_and!; unfold parent; try lia;
        intros k Hk Hpk; (assert (k = 2 * i + 1 ∨ k = 2 * i + 1 + 1)%nat as [-> | ->] by lia); ranks.
    - eexists. split; [reflexivity|]. split_and!; unfold parent; try lia.
      intros k Hk Hpk. assert (k = 2 * i + 1)%nat as -> by lia. ranks. }
  cbn [mbind option_bind]. rewrite Less_spec by (done || lia). cbn [mbind option_bind].
  case_bool_decide as Hlt; cbn [negb]; cycle 1.
  { exists i, h. split_and!; [done..|]. left. split_and!; [done..|]. intros k Hk Hpk.
    specialize (Hmin k Hk Hpk). unfold in_order. rewrite Hpk. ranks. }
  destruct (Swap_spec h i j Hwf) as (h1 & Hsw & Hwf1 & Hs & Hr); [lia..|].
  rewrite Hsw. cbn [mbind option_bind]. pose proof (same_tasks_Len _ _ Hs) as HL.
  assert (i < j)%nat as Hij by (unfold parent in Hpj; lia).
  assert (∀ p, (n ≤ p)%nat → h_queue h1 !! p = h_queue h !! p) as Hkeep.
  { intros p Hp. unfold Swap in Hsw. destruct (h_queue h !! i) as [a|] eqn:Ea; [|done].
    destruct (h_queue h !! j) as [b|] eqn:Eb; [|done]. cbn in Hsw. injection Hsw as <-.
    cbn. rewrite (swap_lookup _ _ _ a b) by done. by rewrite !decide_False by lia. }
  assert (∀ k, (0 < k < n)%nat → parent k ≠ j → in_order h1 k) as Hrest.
  { intros k Hk Hpkj. unfold in_order. rewrite !Hr.
    rewrite (decide_False (P := parent k = j)) by done.
    destruct (Hdn k Hk) as [H1 H2]. unfold in_order in H1.
    destruct (decide (k = j)) as [->|Hkj]; [rewrite decide_True by done; ranks|].
    destruct (decide (k = i)) as [->|Hki].
    - rewrite decide_False by (unfold parent; lia). apply (Hdn j); [done|done|lia].
    - destruct (decide (parent k = i)) as [Hpi|Hpi]; [by apply Hmin|by apply H1]. }
  destruct (IH j h1 Hwf1) as (i' & h' & -> & Hwf' & Hs' & Hk' & Hcase); [lia|lia|lia| |].
  - intros k Hk. split; [intros _ ?; by apply Hrest|]. intros Hpk Hj0. rewrite !Hr, Hpj.
    rewrite (decide_False (P := i = j)), (decide_True (P := i = i)) by lia.
    destruct (decide (k = j)) as [->|]; [unfold parent in *; lia|].
    rewrite (decide_False (P := k = i)) by (intros ->; unfold parent in *; lia).
    destruct (Hdn k Hk) as [H1 _]. unfold in_order in H1. rewrite Hpk in H1. apply H1; unfold parent in *; lia.
  - exists i', h'. split_and!; [done|done|by etrans|intros p Hp; rewrite Hk', Hkeep; done|].
    right. destruct Hcase as [(-> & -> & Hc)|[Hlt' Ho]]; [|split; [lia|done]].
    split; [done|]. intros k Hk. destruct (decide (parent k = j)); [by apply Hc|by apply Hrest].
Qed.

(** ** The operations the manager calls *)
Lemma empty_heap_wf objs : heap_wf (mkHeap [] objs).
Proof. split; [split; [apply NoDup_nil_2|by intros p id]|]. unfold Len. cbn. intros k ?. lia. Qed.

Lemma pos_rank_same h h' p :
  h_queue h' !! p = h_queue h !! p →
  (∀ id, but_index <$> h_objs h' !! id = but_index <$> h_objs h !! id) →
  pos_rank h' p = pos_rank h p.
Proof.
  intros Hq Ho. unfold pos_rank. rewrite !list_lookup_total_alt, Hq. by apply but_index_rank.
Qed.
Lemma pos_rank_id h p id : h_queue h !! p = Some id → pos_rank h p = id_rank (h_objs h) id.
Proof. intros Hp. unfold pos_rank. by rewrite (list_lookup_total_correct _ _ _ Hp). Qed.

Lemma Push_but id h id' :
  but_index <$> h_objs (Push id h) !! id' = but_index <$> h_objs h !! id'.
Proof. apply (set_index_but (Z.of_nat (Len h)) id h). Qed.

Lemma Push_wf id h :
  queue_wf h → id ∉ h_queue h → is_Some (h_objs h !! id) → queue_wf (Push id h).
Proof.
  intros [Hnd Hi] Hid Hex. split.
  - cbn. apply NoDup_app. split_and!; [done| |apply NoDup_singleton].
    intros x Hx ->%list_elem_of_singleton. done.
  - intros p id' Hp. change (h_objs (Push id h)) with (h_objs (set_index (Z.of_nat (Len h)) id h)).
    rewrite set_index_index by done. change (h_queue (Push id h)) with (h_queue h ++ [id]) in Hp.
    apply lookup_app_Some in Hp as [Hp|[Hge [Hl ->]%list_lookup_singleton_Some]].
    + rewrite decide_False; [by apply Hi|]. intros ->. apply Hid. by eapply list_elem_of_lookup_2.
    + rewrite decide_True by done. unfold Len. f_equal. lia.
Qed.

(** [heap.Push]: the task joins the queue, order and back pointers kept. *)
Lemma heap_push_spec id h :
  heap_wf h → id ∉ h_queue h → is_Some (h_objs h !! id) →
  ∃ h', heap_push id h = Some h' ∧ heap_wf h' ∧ h_queue h' ≡ₚ id :: h_queue h ∧
    (∀ id', but_index <$> h_objs h' !! id' = but_index <$> h_objs h !! id') ∧
    (∀ id', id' ≠ id → id' ∉ h_queue h → h_objs h' !! id' = h_objs h !! id').
Proof.
  intros [Hwf Ho] Hid Hex. unfold heap_push. pose proof (Push_wf id h Hwf Hid Hex) as Hwf1.
  assert (Len (Push id h) = S (Len h)) as HL by (unfold Len; cbn; rewrite length_app; cbn; lia).
  assert (∀ p, (p < Len h)%nat → pos_rank (Push id h) p = pos_rank h p) as Hr.
  { intros p Hp. apply pos_rank_same; [by apply lookup_app_l|apply Push_but]. }
  destruct (heap_up_spec (Len (Push id h)) (Len (Push id h) - 1) (Push id h) Hwf1)
    as (h' & -> & Hs & Hok); [lia|lia| |].
  - intros k Hk. split.
    + intros Hne. unfold in_order. rewrite !Hr by (unfold parent; lia). apply Ho. lia.
    + unfold parent. lia.
  - exists h'. split_and!; [done|done| | |].
    + rewrite (st_queue _ _ Hs). symmetry. apply Permutation_cons_append.
    + intros id'. rewrite (st_objs _ _ Hs). apply Push_but.
    + intros id' Hne Hn. rewrite (st_others _ _ Hs).
      * cbn. by rewrite lookup_alter_ne.
      * cbn. rewrite not_elem_of_app, list_elem_of_singleton. done.
Qed.

(** The root of an ordered heap ranks below no other element. *)
Lemma ordered_root n h k : ordered_to n h → (k < n)%nat → ¬ rank_lt (pos_rank h k) (pos_rank h 0).
Proof.
  intros Ho. induction k as [k IH] using lt_wf_ind. intros Hk.
  destruct (decide (k = 0%nat)) as [->|]; [ranks|].
  specialize (IH (parent k) ltac:(unfold parent; lia) ltac:(unfold parent; lia)).
  specialize (Ho k ltac:(lia)). ranks.
Qed.

Lemma Pop_spec h n :
  queue_wf h → Len h = S n → ordered_to n h →
  ∃ id h', Pop h = Some (id, h') ∧ heap_wf h' ∧ h_queue h !! n = Some id ∧
    h_queue h = h_queue h' ++ [id] ∧
    (∀ id', but_index <$> h_objs h' !! id' = but_index <$> h_objs h !! id') ∧
    (∀ id', id' ≠ id → h_objs h' !! id' = h_objs h !! id') ∧
    t_index <$> h_objs h' !! id = Some (-1).
Proof.
  intros Hwf HL Ho. pose proof (queue_wf_allocated h Hwf) as Hal.
  destruct (exists_last (l := h_queue h)) as (q & id & Hq).
  { intros E. unfold Len in HL. by rewrite E in HL. }
  assert (n = length q) as Hn by (unfold Len in HL; rewrite Hq, length_app in HL; cbn in HL; lia).
  assert (is_Some (h_objs h !! id)) as Hex by (apply Hal; rewrite Hq; apply elem_of_app; right; by left).
  destruct Hwf as [Hnd Hi]. rewrite Hq in Hnd. apply NoDup_app in Hnd as (Hndq & Hdisj & _).
  assert (id ∉ q) as Hidq by (intros Hin; apply (Hdisj id Hin); by left).
  unfold Pop. rewrite Hq, last_snoc. cbn [mbind option_bind].
  set (h' := set_field h_queue _ _). exists id, h'.
  assert (h_queue h' = q) as Hq'.
  { unfold h'. cbn. rewrite HL, Hq. replace (S n - 1)%nat with (length q) by lia.
    apply take_app_length. }
  assert (∀ id', but_index <$> h_objs h' !! id' = but_index <$> h_objs h !! id') as Hb
    by apply (set_index_but (-1) id h).
  split_and!; [done| | |by rewrite Hq'|done| |].
  - split; [split|].
    + by rewrite Hq'.
    + intros p id'. rewrite Hq'. change (h_objs h') with (h_objs (set_index (-1) id h)).
      rewrite set_index_index by done. intros Hl.
      rewrite decide_False by (intros ->; by eapply Hidq, list_elem_of_lookup_2).
      apply Hi. rewrite Hq. by apply lookup_app_l_Some.
    + unfold Len. rewrite Hq'. intros k Hk. unfold in_order.
      assert (∀ p, (p < length q)%nat → pos_rank h' p = pos_rank h p) as Hr.
      { intros p Hp. apply pos_rank_same; [|done]. by rewrite Hq', Hq, lookup_app_l. }
      rewrite !Hr by (unfold parent; lia).
      apply Ho. lia.
  - by rewrite lookup_app_r, Hn, Nat.sub_diag by lia.
  - intros id' Hne. cbn. by rewrite lookup_alter_ne.
  - change (h_objs h') with (h_objs (set_index (-1) id h)).
    rewrite set_index_index by done. by rewrite decide_True.
Qed.

(** Everything [heap.Pop] does before it removes the last element. *)
Lemma pop_down_spec h h1 n :
  queue_wf h1 → Len h1 = S n → ordered_to (S n) h →
  (∀ p, p ≠ 0%nat → p ≠ n → pos_rank h1 p = pos_rank h p) →
  ∃ i' h2, heap_down (S n) 0 n h1 = Some (i', h2) ∧ queue_wf h2 ∧ same_tasks h1 h2 ∧
    h_queue h2 !! n = h_queue h1 !! n ∧ ordered_to n h2.
Proof.
  intros Hwf1 HL Ho Hr. destruct (decide (n = 0%nat)) as [Hn0|Hn0].
  { rewrite Hn0. exists 0%nat, h1. split_and!; try done. intros k ?. lia. }
  assert (∀ k, (0 < k < n)%nat → parent k ≠ 0%nat → in_order h1 k) as Hk0.
  { intros k Hk Hp. unfold in_order. rewrite !Hr by (unfold parent in *; lia). apply Ho. lia. }
  destruct (heap_down_spec (S n) 0 n h1 Hwf1) as (i' & h2 & E & W & S2 & K & C); [lia..| |].
  - intros k Hk. split; [intros _; by apply Hk0|lia].
  - exists i', h2. split_and!; [done|done|done|by apply K|].
    destruct C as [(-> & -> & C)|[_ C]]; [|done]. intros k Hk.
    destruct (decide (parent k = 0%nat)); [by apply C|by apply Hk0].
Qed.

(** [heap.Pop]: the removed task ranks below no task that stays, its index
    becomes -1, and order and back pointers of the rest are kept. *)
Lemma heap_pop_spec h :
  heap_wf h → h_queue h ≠ [] →
  ∃ id h', heap_pop h = Some (id, h') ∧ heap_wf h' ∧ h_queue h ≡ₚ id :: h_queue h' ∧
    (∀ id', but_index <$> h_objs h' !! id' = but_index <$> h_objs h !! id') ∧
    (∀ id', id' ∉ h_queue h → h_objs h' !! id' = h_objs h !! id') ∧
    t_index <$> h_objs h' !! id = Some (-1) ∧
    (∀ id', id' ∈ h_queue h → ¬ rank_lt (id_rank (h_objs h) id') (id_rank (h_objs h) id)).
Proof.
  intros [Hwf Ho] Hne. unfold heap_pop.
  assert (Len h ≠ 0)%nat as HL0 by (unfold Len; destruct (h_queue h); done).
  rewrite decide_False by done. destruct (Len h) as [|n] eqn:HL; [done|]. clear HL0.
  replace (S n - 1)%nat with n by lia.
  destruct (Swap_spec h 0 n Hwf) as (h1 & -> & Hwf1 & Hs1 & Hr1); [lia..|]. cbn [mbind option_bind].
  pose proof (same_tasks_Len _ _ Hs1) as HL1. rewrite HL in HL1.
  destruct (pop_down_spec h h1 n Hwf1 HL1) as (i' & h2 & -> & Hwf2 & Hs2 & Hn2 & Ho2); [done| |].
  { intros p ??. rewrite Hr1. by rewrite !decide_False. }
  cbn [mbind option_bind]. pose proof (same_tasks_Len _ _ Hs2) as HL2. rewrite HL1 in HL2.
  assert (same_tasks h h2) as Hs by (by etrans).
  destruct (Pop_spec h2 n Hwf2 HL2 Ho2) as (id & h' & -> & Hwf' & Hid & Hq & Hb & Hx & Hm1).
  assert (h_queue h ≡ₚ id :: h_queue h') as Hperm
    by (rewrite <- (st_queue _ _ Hs), Hq; symmetry; apply Permutation_cons_append).
  exists id, h'. split_and!; [done|apply Hwf'..|done| | |done|].
  - intros id'. rewrite Hb. apply Hs.
  - intros id' Hn. rewrite Hx; [by apply Hs|]. intros ->. apply Hn. rewrite Hperm. by left.
  - intros id' [p Hp]%list_elem_of_lookup. rewrite <- (pos_rank_id _ _ _ Hp).
    assert (id_rank (h_objs h) id = pos_rank h 0) as ->.
    { rewrite Hn2 in Hid. apply pos_rank_id in Hid. rewrite <- (same_tasks_rank _ _ id Hs1), <- Hid.
      rewrite Hr1. by rewrite decide_True. }
    apply (ordered_root (S n)); [done|]. apply lookup_lt_Some in Hp. unfold Len in HL. lia.
Qed.

(** [heap.Fix] after the rank of the task at position [i] changed. *)
Lemma heap_fix_spec i h :
  queue_wf h → (i < Len h)%nat → down_ready i (Len h) h →
  ∃ h', heap_fix (Z.of_nat i) h = Some h' ∧ same_tasks h h' ∧ heap_wf h'.
Proof.
  intros Hwf Hi Hd. unfold heap_fix. rewrite !decide_False, Nat2Z.id by lia.
  destruct (heap_down_spec (S (Len h)) i (Len h) h Hwf) as (i' & h1 & -> & Hwf1 & Hs1 & _ & Hc);
    [lia|lia|lia|done|]. cbn [mbind option_bind].
  destruct Hc as [(-> & -> & Hc)|[Hlt Ho]].
  - rewrite decide_False by lia. apply heap_up_spec; [done|done|lia|]. intros k Hk.
    destruct (Hd k Hk) as [H1 H2]. split; [|done]. intros Hne.
    destruct (decide (parent k = i)); [by apply Hc|by apply H1].
  - rewrite decide_True by done. exists h1. split_and!; [done|done|split; [done|]].
    by rewrite (same_tasks_Len _ _ Hs1).
Qed.

(** Raising the urgency of the task at [i] leaves the heap ready for [Fix]. *)
Lemma down_ready_update h objs' i :
  ordered_to (Len h) h → (i < Len h)%nat →
  (∀ p, p ≠ i → (p < Len h)%nat → pos_rank (mkHeap (h_queue h) objs') p = pos_rank h p) →
  down_ready i (Len h) (mkHeap (h_queue h) objs').
Proof.
  intros Ho Hi Hr k Hk. split.
  - intros Hki Hpi. unfold in_order. rewrite !Hr by (unfold parent in *; lia). by apply Ho.
  - intros Hpk Hi0. rewrite !Hr by (unfold parent in *; lia).
    pose proof (Ho k Hk) as H1. pose proof (Ho i ltac:(lia)) as H2.
    unfold in_order in H1, H2. rewrite Hpk in H1. ranks.
Qed.
