(* ===== verification/QueueProps.v ===== *)
(** * Properties of the task queue ([taskHeap] of [src/internal/stream/manager.go])

    The queue as a priority queue: draining it, and promoting a queued task
    the way [ensureTask] does. *)
From Stdlib Require Import Sorting.Sorted.
From S2P Require Import Prelude GoList GoStrings ChunkKeys ChunkStore TaskHeap.

(** [n] calls of [heap.Pop]. *)
Fixpoint drain (n : nat) (h : taskHeap) : option (list nat * taskHeap) :=
  match n with
  | O => Some ([], h)
  | S n =>
      '(id, h) ← heap_pop h;
      '(ids, h) ← drain n h;
      Some (id :: ids, h)
  end.

(** Of two tasks taken in this order, the later one is not more urgent. *)
Definition taken_before (objs : gmap nat task) (a b : nat) : Prop :=
  ¬ rank_lt (id_rank objs b) (id_rank objs a).

(** Only the ranks count. *)
Lemma taken_before_objs objs objs' ids :
  (∀ id, id_rank objs' id = id_rank objs id) →
  StronglySorted (taken_before objs) ids → StronglySorted (taken_before objs') ids.
Proof.
  intros Hr. induction 1 as [|a l _ IH Ha]; [constructor|]. constructor; [done|].
  apply (Forall_impl _ _ _ Ha). intros b. unfold taken_before. by rewrite !Hr.
Qed.

Lemma heap_empty_wf objs : heap_wf (mkHeap [] objs).
Proof.
  split; [split; [by apply NoDup_nil_2|]|].
  - intros p id Hp. cbn in Hp. by rewrite lookup_nil in Hp.
  - intros k Hk. cbn in Hk. lia.
Qed.

Lemma drain_spec n h :
  heap_wf h → Len h = n →
  ∃ ids h', drain n h = Some (ids, h') ∧ h_queue h' = [] ∧ ids ≡ₚ h_queue h ∧
    StronglySorted (taken_before (h_objs h)) ids.
Proof.
  revert h. induction n as [|n IH]; intros h Hwf Hn.
  { exists [], h. split_and!; [done| |by rewrite (nil_length_inv _ Hn)|constructor].
    by apply nil_length_inv. }
  destruct (heap_pop_spec h Hwf) as (id & h1 & Hp & Hwf1 & Hq & Hb & _ & _ & Hmin);
    [by intros Hnil; unfold Len in Hn; rewrite Hnil in Hn|].
  destruct (IH h1 Hwf1) as (ids & h' & Hd & He & Hids & Hs).
  { apply Permutation_length in Hq as Hl. unfold Len in *. cbn in Hl. lia. }
  exists (id :: ids), h'. cbn [drain]. rewrite Hp. cbn [mbind option_bind]. rewrite Hd.
  split_and!; [done|done|by rewrite Hq, Hids|]. constructor.
  - revert Hs. apply taken_before_objs. intros id'. symmetry. by apply but_index_rank.
  - apply Forall_forall. intros b Hin. apply Hmin. rewrite Hq. right. by rewrite <- Hids.
Qed.

(** The queue [tasks] pushed one by one. *)
Definition fill (ids : list nat) (h : taskHeap) : option taskHeap :=
  foldl (λ r id, r ≫= heap_push id) (Some h) ids.

Lemma fill_spec ids h :
  heap_wf h → NoDup (ids ++ h_queue h) → (∀ id, id ∈ ids → is_Some (h_objs h !! id)) →
  ∃ h', fill ids h = Some h' ∧ heap_wf h' ∧ h_queue h' ≡ₚ ids ++ h_queue h ∧
    (∀ id, id_rank (h_objs h') id = id_rank (h_objs h) id).
Proof.
  unfold fill. revert h. induction ids as [|id ids IH]; intros h Hwf Hnd Hex; [by exists h|].
  cbn [foldl mbind option_bind]. cbn in Hnd. apply NoDup_cons in Hnd as [Hn Hnd].
  rewrite elem_of_app in Hn.
  destruct (heap_push_spec id h Hwf) as (h1 & -> & Hwf1 & Hq & Hb & _);
    [tauto|apply Hex; left|].
  destruct (IH h1 Hwf1) as (h' & -> & Hwf' & Hq' & Hr).
  - rewrite Hq. rewrite <- Permutation_middle. apply NoDup_cons. split; [|done].
    rewrite elem_of_app. tauto.
  - intros id' Hid'. apply (but_index_is_Some (h_objs h)); [apply Hb|]. apply Hex. by right.
  - exists h'. split_and!; [done|done| |].
    + rewrite Hq', Hq. cbn. by rewrite Permutation_middle.
    + intros id'. rewrite Hr. apply but_index_rank, Hb.
Qed.

(** Three queued downloads: two of the read-ahead and one a caller waits for. *)
Definition queued (i : Z) (p : priority) (seq : Z) : task :=
  {| t_key := mkChunkKey "v" i; t_file := mkFile "1" 9 0; t_offset := i * 4; t_length := 4;
     t_priority := p; t_epoch := 0; t_seq := seq; t_index := -1; t_canceled := false;
     t_closed := false; t_data := []; t_err := None; t_started := false; t_finished := false;
     t_foreground := false; t_hedged := false; t_hedgeCancel := false; t_startedAt := 0 |}.
Definition threeTasks : gmap nat task :=
  list_to_map [(0%nat, queued 0 priorityAhead 1); (1%nat, queued 1 priorityNear 2);
               (2%nat, queued 2 priorityForeground 3)].
Definition threeQueued : taskHeap := default (mkHeap [] ∅) (fill [0; 1; 2]%nat (mkHeap [] threeTasks)).
Definition firstQueued : task :=
  default (queued 0 priorityBack 0) (h_objs threeQueued !! 0%nat).
Lemma threeQueued_fill : fill [0; 1; 2]%nat (mkHeap [] threeTasks) = Some threeQueued.
Proof. vm_compute. reflexivity. Qed.
Lemma threeQueued_wf : heap_wf threeQueued.
Proof.
  destruct (fill_spec [0; 1; 2]%nat (mkHeap [] threeTasks) (heap_empty_wf _)) as (h & Hf & Hwf & _).
  - cbn. repeat constructor; set_solver.
  - intros id Hid. repeat (apply elem_of_cons in Hid as [->|Hid]; [by eexists|]).
    by apply not_elem_of_nil in Hid.
  - rewrite threeQueued_fill in Hf. by injection Hf as ->.
Qed.

(** C34: Tasks pushed in any order and then popped until the queue is empty come out
    all, each once, by priority and within a priority by age: [heap.Push] and
    [heap.Pop] with [taskHeap]'s methods never index out of range and sort. *)
Theorem queue_drains_in_order ids objs :
  NoDup ids → (∀ id, id ∈ ids → is_Some (objs !! id)) →
  ∃ h taken h', fill ids (mkHeap [] objs) = Some h ∧
    drain (length ids) h = Some (taken, h') ∧ h_queue h' = [] ∧ taken ≡ₚ ids ∧
    StronglySorted (taken_before objs) taken.
Proof.
  intros Hnd Hex.
  destruct (fill_spec ids (mkHeap [] objs) (heap_empty_wf objs)) as (h & Hf & Hwf & Hq & Hr);
    [by rewrite app_nil_r|done|].
  cbn in Hq. rewrite app_nil_r in Hq.
  destruct (drain_spec (length ids) h Hwf) as (taken & h' & Hd & He & Ht & Hs);
    [by apply Permutation_length|].
  exists h, taken, h'. split_and!; [done..|by rewrite Ht|].
  revert Hs. apply taken_before_objs. intros id. symmetry. apply Hr.
Qed.
Lemma queue_drains_in_order_witness :
  ∃ h taken h', fill [0; 1; 2]%nat (mkHeap [] threeTasks) = Some h ∧
    drain 3 h = Some (taken, h') ∧ taken = [2; 1; 0]%nat.
Proof.
  destruct (queue_drains_in_order [0; 1; 2]%nat threeTasks) as (h & taken & h' & Hf & Hd & _).
  - repeat constructor; set_solver.
  - intros id Hid. repeat (apply elem_of_cons in Hid as [->|Hid]; [by eexists|]).
    by apply not_elem_of_nil in Hid.
  - exists h, taken, h'. split; [exact Hf|]. split; [exact Hd|].
    vm_compute in Hf. injection Hf as <-. vm_compute in Hd. by injection Hd as <- _.
Defined.

(** Giving a queued task another priority and calling [heap.Fix] with the
    index the task records restores the heap: the same tasks stay queued, their
    back pointers stay right, and nothing but indices changes. *)
Theorem promote_keeps_queue h id t prio :
  heap_wf h → id ∈ h_queue h → h_objs h !! id = Some t →
  let h1 := h <| h_objs ::= <[id := t <| t_priority := prio |>]> |> in
  ∃ h', heap_fix (t_index t) h1 = Some h' ∧ heap_wf h' ∧ h_queue h' ≡ₚ h_queue h ∧
    ∀ id', but_index <$> h_objs h' !! id' = but_index <$> h_objs h1 !! id'.
Proof.
  intros [[Hnd Hidx] Ho] [p Hp]%list_elem_of_lookup Ht h1.
  pose proof (Hidx p id Hp) as Hti. rewrite Ht in Hti. injection Hti as ->.
  pose proof (lookup_lt_Some _ _ _ Hp) as Hlt.
  assert (queue_wf h1) as Hwf1.
  { split; [done|]. intros q id' Hq. cbn. rewrite lookup_insert. pose proof (Hidx q id' Hq) as Hi.
    case_decide; [subst|done]. by rewrite Ht in Hi. }
  destruct (heap_fix_spec p h1 Hwf1) as (h' & Hf & Hs & Hwf'); [done| |].
  - refine (down_ready_update h _ p Ho Hlt _). intros q Hne Hq.
    apply lookup_lt_is_Some_2 in Hq as [id' Hq]. unfold pos_rank. cbn.
    rewrite !(list_lookup_total_correct _ _ _ Hq). unfold id_rank.
    rewrite lookup_insert_ne; [done|]. intros <-. apply Hne. by eapply NoDup_lookup.
  - exists h'. split_and!; [exact Hf|done|apply Hs|apply Hs].
Qed.
Lemma promote_keeps_queue_witness :
  ∃ h', heap_fix (t_index firstQueued)
    (threeQueued <| h_objs ::= <[0%nat := firstQueued <| t_priority := priorityForeground |>]> |>) = Some h' ∧ heap_wf h' ∧
    fst <$> heap_pop h' = Some 0%nat.
Proof.
  destruct (promote_keeps_queue threeQueued 0%nat firstQueued priorityForeground threeQueued_wf)
    as (h' & Hf & Hwf & _).
  - vm_compute. apply list_elem_of_In. right. left. reflexivity.
  - vm_compute. reflexivity.
  - exists h'. split; [exact Hf|]. split; [exact Hwf|].
    vm_compute in Hf. injection Hf as <-. vm_compute. reflexivity.
Defined.
