(* ===== verification/StreamConfig.v ===== *)
(** * Stream settings and the hedge delay ([src/internal/stream/manager.go])

    [Config], its defaults and the normalisation [NewManager] starts with;
    the window of download latencies and the delay after which a foreground
    read is hedged.  Durations are nanoseconds, as [time.Duration] counts them. *)
From stdpp Require Import sorting.
From S2P Require Import Prelude.

(** [type Config] *)
Record Config := mkConfig {
  ChunkSize : Z; ForwardGap : Z; SeekThreshold : Z; Workers : Z; LowWatermark : Z;
  TargetBuffer : Z; BackBuffer : Z; MemoryCache : Z; DiskCache : Z; CachePath : string;
  Hedge : bool; Diagnostics : bool; HedgeMinDelay : Z; HedgeMaxDelay : Z;
  SessionWorkers : Z; IdleReclaim : Z
}.
#[export] Instance Config_eta : Eta Config := λ c,
  mkConfig (ChunkSize c) (ForwardGap c) (SeekThreshold c) (Workers c) (LowWatermark c)
    (TargetBuffer c) (BackBuffer c) (MemoryCache c) (DiskCache c) (CachePath c) (Hedge c)
    (Diagnostics c) (HedgeMinDelay c) (HedgeMaxDelay c) (SessionWorkers c) (IdleReclaim c).

Definition millisecond : Z := 1000000.
Definition second : Z := 1000 * millisecond.
Definition MiB (n : Z) : Z := n * 2 ^ 20.

Definition DefaultConfig : Config := {|
  ChunkSize := MiB 1; ForwardGap := MiB 8; SeekThreshold := MiB 16; Workers := 8;
  LowWatermark := MiB 128; TargetBuffer := MiB 256; BackBuffer := MiB 32;
  MemoryCache := MiB 320; DiskCache := MiB 2048; CachePath := "";
  Hedge := true; Diagnostics := false;
  HedgeMinDelay := 300 * millisecond; HedgeMaxDelay := 800 * millisecond;
  SessionWorkers := 6; IdleReclaim := 600 * second
|}.

(** The statements of [NewManager] up to the creation of the store; [None] is
    the error of negative cache limits. *)
Definition orElse (bad : bool) (default v : Z) : Z := if bad then default else v.

Definition sessionWorkers (workers v : Z) : Z :=
  if decide (v ≤ 0 ∨ workers < v) then
    let v := workers - 2 in if decide (v ≤ 0) then workers else v
  else v.

Definition normalize (cfg : Config) : option Config :=
  let d := DefaultConfig in
  let cfg := cfg <| ChunkSize ::= λ v, orElse (bool_decide (v ≤ 0)) (ChunkSize d) v |> in
  let cfg := cfg <| ForwardGap ::= λ v, orElse (bool_decide (v ≤ 0)) (ForwardGap d) v |> in
  let cfg := cfg <| SeekThreshold ::=
    λ v, orElse (bool_decide (v < ForwardGap cfg)) (SeekThreshold d) v |> in
  let cfg := cfg <| Workers ::= λ v, orElse (bool_decide (v ≤ 0)) (Workers d) v |> in
  let cfg := cfg <| LowWatermark ::= λ v, orElse (bool_decide (v ≤ 0)) (LowWatermark d) v |> in
  let cfg := cfg <| TargetBuffer ::=
    λ v, orElse (bool_decide (v < LowWatermark cfg)) (TargetBuffer d) v |> in
  let cfg := cfg <| BackBuffer ::= λ v, orElse (bool_decide (v ≤ 0)) (BackBuffer d) v |> in
  if decide (MemoryCache cfg < 0 ∨ DiskCache cfg < 0) then None
  else
    let cfg := cfg <| HedgeMinDelay ::= λ v, orElse (bool_decide (v ≤ 0)) (HedgeMinDelay d) v |> in
    let cfg := cfg <| HedgeMaxDelay ::=
      λ v, orElse (bool_decide (v < HedgeMinDelay cfg)) (HedgeMaxDelay d) v |> in
    let cfg := cfg <| SessionWorkers ::= sessionWorkers (Workers cfg) |> in
    Some (cfg <| IdleReclaim ::= λ v, orElse (bool_decide (v ≤ 0)) (IdleReclaim d) v |>).

(** What the manager relies on in its settings. *)
Record config_ok (cfg : Config) : Prop := {
  co_chunk : 0 < ChunkSize cfg; co_gap : 0 < ForwardGap cfg;
  co_workers : 0 < Workers cfg; co_low : 0 < LowWatermark cfg; co_target : 0 < TargetBuffer cfg;
  co_back : 0 < BackBuffer cfg; co_memory : 0 ≤ MemoryCache cfg; co_disk : 0 ≤ DiskCache cfg;
  co_hedge : 0 < HedgeMinDelay cfg; co_hedge_max : 0 < HedgeMaxDelay cfg;
  co_session : 0 < SessionWorkers cfg ≤ Workers cfg; co_idle : 0 < IdleReclaim cfg
}.

Lemma normalize_ok cfg cfg' : normalize cfg = Some cfg' → config_ok cfg'.
Proof.
  unfold normalize. cbv zeta. case_decide as Hneg; [done|]. intros [= <-].
  assert (∀ d v, 0 < d → 0 < orElse (bool_decide (v ≤ 0)) d v) as Hpos
    by (intros d v ?; unfold orElse; case_bool_decide; lia).
  assert (∀ d v m, 0 < d → 0 < m → 0 < orElse (bool_decide (v < m)) d v) as Hmin
    by (intros d v m ??; unfold orElse; case_bool_decide; lia).
  assert (∀ w v, 0 < w → 0 < sessionWorkers w v ≤ w) as Hsess
    by (intros w v ?; unfold sessionWorkers; repeat case_decide; lia).
  destruct cfg. cbn in Hneg.
  split; cbn; first [by apply Hpos | by apply Hmin, Hpos | by apply Hsess, Hpos | lia].
Qed.

Section latencies.
Implicit Types (latencies : list Z) (latencyNext latency : Z).

Definition maxSamples : nat := 32.

(** [recordLatencyLocked] on the fields [latencies] and [latencyNext]. *)
Definition recordLatencyLocked latency (st : list Z * Z) : list Z * Z :=
  let '(latencies, latencyNext) := st in
  if decide (latency ≤ 0) then st
  else if decide (length latencies < maxSamples)%nat then (latencies ++ [latency], latencyNext)
  else (<[Z.to_nat (Z.rem latencyNext (Z.of_nat maxSamples)) := latency]> latencies,
        latencyNext +! 1).

(** [hedgeDelay]; Go divides towards zero. *)
Definition hedgeDelay (cfg : Config) latencies : Z :=
  match latencies with
  | [] => HedgeMinDelay cfg
  | _ =>
      let samples := merge_sort Z.le latencies in
      let p95 := samples !!! Z.to_nat (Z.quot (zlen samples * 95 - 1) 100) in
      let delay := p95 +! Z.quot p95 2 in
      if decide (delay < HedgeMinDelay cfg) then HedgeMinDelay cfg
      else if decide (HedgeMaxDelay cfg < delay) then HedgeMaxDelay cfg
      else delay
  end.
End latencies.

(** The window holds the positive samples recorded last, up to rotation: the
    slot overwritten next is that of the oldest. *)
Definition recent (n : nat) (l : list Z) : list Z := drop (length l - n) l.
Definition window_of (st : list Z * Z) (history : list Z) : Prop :=
  (length history ≤ maxSamples)%nat ∧ st = (history, 0) ∨
  (maxSamples ≤ length history)%nat ∧ length st.1 = maxSamples ∧ 0 ≤ st.2 ∧
  st.2 = Z.of_nat (length history - maxSamples) ∧
  ∀ i, (i < maxSamples)%nat →
    st.1 !! ((Z.to_nat st.2 + i) mod maxSamples)%nat = recent maxSamples history !! i.

Lemma recent_snoc l x i :
  (maxSamples ≤ length l)%nat → (i < maxSamples)%nat →
  recent maxSamples (l ++ [x]) !! i
  = if decide (i = maxSamples - 1)%nat then Some x else recent maxSamples l !! (S i).
Proof.
  intros Hl Hi. unfold recent. rewrite !lookup_drop, length_app. cbn [length].
  case_decide as Hd.
  - rewrite lookup_app_r by lia. replace (_ - length l)%nat with 0%nat by lia. done.
  - rewrite lookup_app_l by lia. f_equal. lia.
Qed.

Lemma record_window st history latency :
  window_of st history → Z.of_nat (length history) < 2 ^ 62 →
  window_of (recordLatencyLocked latency st) (history ++ (if decide (latency ≤ 0) then [] else [latency])).
Proof.
  destruct st as [ls next]. unfold recordLatencyLocked. intros Hw Hlen.
  case_decide as Hpos; [by rewrite app_nil_r|].
  destruct Hw as [[Hl [= -> ->]]|(Hl & H1 & H2 & H3 & H4)]; cbn [fst snd] in *.
  - case_decide as Hlt.
    + left. rewrite length_app. cbn. split; [lia|done].
    + right. assert (length history = maxSamples) as Hm by lia. cbn [fst snd].
      rewrite length_app, length_insert. cbn [length]. split_and!; [lia|done|..].
      * by rewrite w64_id by (unfold in64; lia).
      * rewrite w64_id by (unfold in64; lia). lia.
      * intros i Hi. rewrite recent_snoc by lia. rewrite w64_id by (unfold in64; lia).
        change (Z.to_nat (Z.rem 0 _)) with 0%nat. change (Z.to_nat (0 + 1)) with 1%nat.
        unfold recent. rewrite Hm, Nat.sub_diag, drop_0. unfold maxSamples in *.
        case_decide as Hd.
        -- rewrite Hd. change ((1 + (32 - 1)) mod 32)%nat with 0%nat.
           apply list_lookup_insert_eq. lia.
        -- rewrite Nat.mod_small by lia. apply list_lookup_insert_ne. lia.
  - rewrite decide_False by lia. right. cbn [fst snd].
    assert (w64 (next + 1) = next + 1) as -> by (apply w64_id; unfold in64; lia).
    rewrite length_app, length_insert. cbn [length]. split_and!; [lia|done|lia|lia|].
    intros i Hi. rewrite recent_snoc by lia.
    rewrite Z.rem_mod_nonneg by lia. rewrite Z2Nat.inj_mod by lia. rewrite Nat2Z.id.
    replace (Z.to_nat (next + 1) + i)%nat with (Z.to_nat next + S i)%nat by lia.
    assert (maxSamples ≠ 0)%nat as Hm0 by done.
    case_decide as Hd.
    + rewrite Hd. replace (Z.to_nat next + S (maxSamples - 1))%nat with (Z.to_nat next + 1 * maxSamples)%nat
        by lia. rewrite Nat.Div0.mod_add. apply list_lookup_insert_eq. rewrite H1.
      by apply Nat.mod_upper_bound.
    + rewrite list_lookup_insert_ne; [apply H4; lia|].
      pose proof (Nat.Div0.div_mod (Z.to_nat next) 32) as E1.
      pose proof (Nat.Div0.div_mod (Z.to_nat next + S i) 32) as E2.
      unfold maxSamples in *. intros Heq. lia.
Qed.

Lemma hedgeDelay_bounds cfg latencies :
  HedgeMinDelay cfg `min` HedgeMaxDelay cfg ≤ hedgeDelay cfg latencies
    ≤ HedgeMinDelay cfg `max` HedgeMaxDelay cfg.
Proof. unfold hedgeDelay. destruct latencies; [lia|]. repeat case_decide; lia. Qed.
