(* ===== verification/Access.v ===== *)
(** * Probe, stream or seek? ([src/internal/stream/manager.go])

    How the manager classifies the reads of one open handle: the [Handle]
    fields, [observeHandleLocked] and [isProbeEdge]. *)
From S2P Require Import Prelude GoStrings ChunkKeys StreamConfig.

(** [type accessMode], [type readEvent], [type observation] *)
Inductive accessMode := modeProbe | modeStream.
Inductive readEvent := readEventNone | readEventStart | readEventSeek.
Record observation := mkObservation { ob_mode : accessMode; ob_event : readEvent; ob_streamRead : bool }.

#[export] Instance accessMode_eq_dec : EqDecision accessMode.
Proof. solve_decision. Defined.
#[export] Instance readEvent_eq_dec : EqDecision readEvent.
Proof. solve_decision. Defined.

(** [type Handle] *)
Record Handle := mkHandle {
  hd_file : File; hd_id : Z; lastOffset : Z; lastLength : Z; forwardReads : Z;
  hd_mode : accessMode; hd_tailProbe : bool; hd_epoch : Z; released : bool
}.
#[export] Instance Handle_eta : Eta Handle := λ h,
  mkHandle (hd_file h) (hd_id h) (lastOffset h) (lastLength h) (forwardReads h) (hd_mode h)
    (hd_tailProbe h) (hd_epoch h) (released h).

(** [&Handle{manager: m, file: file, id: id, lastOffset: -1, mode: modeProbe}] *)
Definition newHandle (file : File) (id : Z) : Handle :=
  mkHandle file id (-1) 0 0 modeProbe false 0 false.

Definition isProbeEdge (file : File) (offset : Z) : bool :=
  if decide (Size file ≤ 0 ∨ offset < 0) then false
  else bool_decide (offset < MiB 8 ∨ Size file - MiB 8 ≤ offset).

Section observe.
Context (cfg : Config).
Implicit Types (handle : Handle) (offset length : Z).

Definition headProbeEdge (size : Z) : Z := if decide (MiB 256 ≤ size) then MiB 8 else 0.
Definition smallFile (size : Z) : bool := bool_decide (size < MiB 1 *! 4).
Definition probeThreshold (size : Z) : Z :=
  if smallFile size then
    let half := Z.quot (ChunkSize cfg) 2 in if decide (half ≤ 0) then 1 else half
  else 128 * 2 ^ 10.
Definition probeEdge (size : Z) : Z := if smallFile size then ChunkSize cfg else MiB 1.
Definition isTailProbe (size offset length : Z) : bool :=
  bool_decide (0 < size ∧ length ≤ probeThreshold size ∧ size -! probeEdge size ≤ offset).

(** [handle.lastOffset, handle.lastLength = offset, length] *)
Definition remember offset length handle : Handle :=
  handle <| lastOffset := offset |> <| lastLength := length |>.

Definition forwardSeekThreshold : Z :=
  if decide (SeekThreshold cfg < TargetBuffer cfg) then TargetBuffer cfg else SeekThreshold cfg.

(** The statements after the probe cases: count forward reads, detect seeks. *)
Definition observeAccess (tailProbe : bool) handle offset length : Handle * observation :=
  let size := Size (hd_file handle) in
  let count handle event :=
    let '(handle, event) :=
      if decide (2 ≤ forwardReads handle ∧ hd_mode handle ≠ modeStream)
      then (handle <| hd_mode := modeStream |>, readEventStart) else (handle, event) in
    (remember offset length handle,
     mkObservation (hd_mode handle) event (bool_decide (hd_mode handle = modeStream))) in
  if decide (0 ≤ lastOffset handle) then
    let expected := lastOffset handle +! lastLength handle in
    let distance := offset -! expected in
    let edgeProbe := bool_decide (length ≤ probeThreshold size ∧
                                  (offset < probeEdge size ∨ tailProbe = true)) in
    if decide (edgeProbe = true ∧ offset ≠ lastOffset handle ∧
               (distance < 0 ∨ SeekThreshold cfg < distance))
    then (handle, mkObservation (hd_mode handle) readEventNone false)
    else if decide (offset ≠ lastOffset handle ∧ hd_mode handle = modeStream ∧
                    (distance < 0 ∨ forwardSeekThreshold < distance))
    then count (handle <| forwardReads := 1 |> <| hd_mode := modeProbe |>) readEventSeek
    else if decide (offset = lastOffset handle) then count handle readEventNone
    else if decide (0 ≤ distance ∧ distance ≤ ForwardGap cfg)
    then count (handle <| forwardReads ::= λ n, n +! 1 |>) readEventNone
    else count (handle <| forwardReads := 1 |>) readEventNone
  else count (handle <| forwardReads := 1 |>) readEventNone.

Definition observeHandleLocked handle offset length : Handle * observation :=
  let size := Size (hd_file handle) in
  let tailProbe := isTailProbe size offset length in
  let probe handle := (handle, mkObservation modeProbe readEventNone false) in
  if decide (lastOffset handle < 0 ∧ tailProbe = true)
  then probe (remember offset length (handle <| hd_tailProbe := true |>))
  else if decide (hd_tailProbe handle = true ∧ tailProbe = true)
  then probe (remember offset length handle)
  else
    let handle :=
      if hd_tailProbe handle then
        handle <| hd_tailProbe := false |> <| lastOffset := -1 |> <| lastLength := 0 |>
          <| forwardReads := 0 |> <| hd_mode := modeProbe |>
      else handle in
    if decide (0 < headProbeEdge size ∧ hd_mode handle ≠ modeStream ∧ tailProbe = false ∧
               offset < headProbeEdge size)
    then probe ((remember offset length handle) <| forwardReads := 0 |>)
    else observeAccess tailProbe handle offset length.
End observe.

(** ** How a handle's classification evolves *)

Definition same_identity (h h' : Handle) : Prop :=
  hd_file h' = hd_file h ∧ hd_id h' = hd_id h ∧ hd_epoch h' = hd_epoch h ∧ released h' = released h.

(** What an observation says about the mode before and after it. *)
Definition mode_change (before : accessMode) (h' : Handle) (ob : observation) : Prop :=
  (ob_streamRead ob = true → ob_mode ob = modeStream ∧ hd_mode h' = modeStream) ∧
  (ob_event ob = readEventStart → ob_mode ob = modeStream ∧ ob_streamRead ob = true) ∧
  (ob_event ob = readEventSeek → ob_mode ob = modeProbe ∧ before = modeStream ∧
     hd_mode h' = modeProbe ∧ forwardReads h' = 1).

Lemma observeAccess_spec cfg tailProbe h offset length h' ob :
  observeAccess cfg tailProbe h offset length = (h', ob) →
  same_identity h h' ∧ mode_change (hd_mode h) h' ob.
Proof.
  unfold observeAccess. destruct h. cbn.
  repeat (case_decide; cbn); intros [= <- <-]; split; try done;
    split_and!; cbn; intros; simplify_eq; destruct_and?; try done;
    by (case_bool_decide || destruct hd_mode0).
Qed.

(** A probe leaves the identity alone and reports no event. *)
Lemma observe_spec cfg h offset length h' ob :
  observeHandleLocked cfg h offset length = (h', ob) →
  same_identity h h' ∧ mode_change (hd_mode h) h' ob.
Proof.
  unfold observeHandleLocked. case_decide; [by intros [= <- <-]|].
  case_decide; [by intros [= <- <-]|]. destruct (hd_tailProbe h).
  - case_decide; [by intros [= <- <-]|]. intros Ho; apply observeAccess_spec in Ho as [Hi Hm].
    split; [exact Hi|]. destruct Hm as (M1 & M2 & M3). split_and!; [done|done|].
    intros He. by destruct (M3 He) as (_ & ? & _).
  - case_decide; [by intros [= <- <-]|]. apply observeAccess_spec.
Qed.

(** Identity fields never change. *)
Lemma observe_frame cfg h offset length h' ob :
  observeHandleLocked cfg h offset length = (h', ob) →
  hd_file h' = hd_file h ∧ hd_id h' = hd_id h ∧ hd_epoch h' = hd_epoch h ∧ released h' = released h.
Proof. intros Heq. exact (proj1 (observe_spec _ _ _ _ _ _ Heq)). Qed.

(** A read counts as streamed exactly in stream mode, and an event marks a
    change of mode. *)
Lemma observe_mode cfg h offset length h' ob :
  observeHandleLocked cfg h offset length = (h', ob) →
  (ob_streamRead ob = true → ob_mode ob = modeStream ∧ hd_mode h' = modeStream) ∧
  (ob_event ob = readEventStart → ob_mode ob = modeStream ∧ ob_streamRead ob = true) ∧
  (ob_event ob = readEventSeek → ob_mode ob = modeProbe ∧ hd_mode h = modeStream ∧
     hd_mode h' = modeProbe ∧ forwardReads h' = 1).
Proof. intros Heq. exact (proj2 (observe_spec _ _ _ _ _ _ Heq)). Qed.

(** In stream mode, a read that continues close enough never seeks. *)
Lemma observe_continue cfg h offset length h' ob :
  hd_mode h = modeStream → hd_tailProbe h = false → 0 ≤ lastOffset h →
  0 ≤ offset -! (lastOffset h +! lastLength h) ≤ SeekThreshold cfg →
  observeHandleLocked cfg h offset length = (h', ob) →
  ob_event ob = readEventNone ∧ ob_mode ob = modeStream ∧ ob_streamRead ob = true ∧
  hd_mode h' = modeStream ∧ lastOffset h' = offset ∧ lastLength h' = length ∧ hd_tailProbe h' = false.
Proof.
  intros Hm Ht Hl Hd. unfold observeHandleLocked, observeAccess, forwardSeekThreshold.
  rewrite Ht, decide_False by lia. rewrite decide_False by (by intros []).
  rewrite decide_False by (rewrite Hm; tauto). rewrite decide_True by done.
  rewrite decide_False by lia.
  rewrite decide_False by (case_decide; lia).
  repeat case_decide; cbn; rewrite ?Hm; intros Heq;
    repeat (case_decide || case_match); simplify_eq/=; rewrite ?Hm in *; destruct_and?; done.
Qed.

(** In stream mode, a jump past both thresholds that is no edge probe seeks. *)
Lemma observe_jump cfg h offset length :
  hd_mode h = modeStream → hd_tailProbe h = false → 0 ≤ lastOffset h → offset ≠ lastOffset h →
  (offset -! (lastOffset h +! lastLength h) < 0 ∨
   forwardSeekThreshold cfg < offset -! (lastOffset h +! lastLength h)) →
  probeThreshold cfg (Size (hd_file h)) < length →
  observeHandleLocked cfg h offset length
  = (remember offset length (h <| forwardReads := 1 |> <| hd_mode := modeProbe |>),
     mkObservation modeProbe readEventSeek false).
Proof.
  intros Hm Ht Hl Hne Hd Hp. unfold observeHandleLocked, observeAccess.
  rewrite Ht, decide_False by lia. rewrite decide_False by (by intros []).
  rewrite decide_False by (rewrite Hm; tauto). rewrite decide_True by done.
  rewrite decide_False by (intros [Hb _]; apply bool_decide_eq_true in Hb; lia).
  rewrite decide_True by done. reflexivity.
Qed.

(** ** Sequential reading *)

(** [n] reads of [length] bytes, one after the other from [offset] on. *)
Fixpoint read_on (cfg : Config) (n : nat) (offset length : Z) (h : Handle) : list observation :=
  match n with
  | O => []
  | S n => let '(h, ob) := observeHandleLocked cfg h offset length in
           ob :: read_on cfg n (offset + length) length h
  end.

Lemma observe_first cfg file id offset length :
  probeThreshold cfg (Size file) < length → headProbeEdge (Size file) ≤ offset → 0 ≤ offset →
  observeHandleLocked cfg (newHandle file id) offset length
  = ((remember offset length (newHandle file id)) <| forwardReads := 1 |>,
     mkObservation modeProbe readEventNone false).
Proof.
  intros Hl Hh Ho. unfold observeHandleLocked, observeAccess. cbn [hd_file newHandle].
  assert (isTailProbe cfg (Size file) offset length = false) as ->
    by (apply bool_decide_eq_false; lia).
  rewrite decide_False by (by intros [_ ?]). cbn [hd_tailProbe newHandle].
  rewrite decide_False by (by intros [? _]). rewrite decide_False by lia.
  cbn [lastOffset newHandle]. rewrite decide_False by lia. reflexivity.
Qed.

(** A handle that has counted one forward read, its last [length] bytes ending
    at [offset]. *)
Record one_read (h : Handle) (offset length : Z) : Prop := {
  or_mode : hd_mode h = modeProbe; or_tail : hd_tailProbe h = false;
  or_reads : forwardReads h = 1; or_last : 0 ≤ lastOffset h;
  or_end : lastOffset h + lastLength h = offset; or_length : lastLength h = length
}.

(** The read that continues it starts the stream. *)
Lemma observe_second cfg h offset length :
  one_read h offset length →
  probeThreshold cfg (Size (hd_file h)) < length → headProbeEdge (Size (hd_file h)) ≤ offset →
  0 < length → 0 ≤ ForwardGap cfg → offset + length < 2 ^ 62 →
  ∃ h', observeHandleLocked cfg h offset length = (h', mkObservation modeStream readEventStart true) ∧
    hd_mode h' = modeStream ∧ hd_tailProbe h' = false ∧ lastOffset h' = offset ∧ lastLength h' = length.
Proof.
  intros [Hm Ht Hf H0 He Hn] Hl Hh Hp Hg Hr. unfold observeHandleLocked, observeAccess. cbv zeta.
  assert (isTailProbe cfg (Size (hd_file h)) offset length = false) as ->
    by (apply bool_decide_eq_false; lia).
  rewrite Ht. rewrite decide_False by (by intros [_ ?]). rewrite decide_False by (by intros [? _]).
  rewrite decide_False by lia. rewrite decide_True by done.
  assert (offset -! (lastOffset h +! lastLength h) = 0) as ->.
  { rewrite He, (w64_id offset) by (unfold in64; lia). rewrite Z.sub_diag. done. }
  rewrite decide_False by (intros [Hb _]; apply bool_decide_eq_true in Hb; lia).
  rewrite decide_False by (rewrite Hm; intros (_ & ? & _); done).
  rewrite decide_False by lia. rewrite decide_True by lia. cbn [forwardReads hd_mode]. cbn.
  rewrite Hf, decide_True by (rewrite Hm; done). by eexists.
Qed.

Lemma read_on_stream cfg n offset length h :
  hd_mode h = modeStream → hd_tailProbe h = false → 0 ≤ lastOffset h →
  lastOffset h + lastLength h = offset → 0 < length → 0 ≤ offset → 0 ≤ SeekThreshold cfg →
  offset + Z.of_nat n * length < 2 ^ 62 →
  read_on cfg n offset length h = replicate n (mkObservation modeStream readEventNone true).
Proof.
  revert offset h. induction n as [|n IH]; intros offset h Hm Ht Hl Ho Hp H0 Hs Hr; [done|].
  cbn [read_on replicate]. destruct (observeHandleLocked cfg h offset length) as [h' ob] eqn:E.
  assert (0 ≤ Z.of_nat n * length) by nia.
  assert (0 ≤ offset -! (lastOffset h +! lastLength h) ≤ SeekThreshold cfg) as Hd.
  { rewrite Ho. rewrite (w64_id offset) by (unfold in64; lia). rewrite Z.sub_diag. vm_compute w64. lia. }
  destruct (observe_continue cfg h offset length h' ob Hm Ht Hl Hd E) as (E1 & E2 & E3 & E4 & E5 & E6 & E7).
  rewrite (IH (offset + length) h'); [|done|done|lia|lia|lia|lia|lia|lia].
  f_equal. destruct ob. cbn in *. by subst.
Qed.

(** From the second read on, sequential reads are a stream that never seeks. *)
Lemma read_on_restart cfg n offset length h :
  one_read h offset length →
  probeThreshold cfg (Size (hd_file h)) < length → headProbeEdge (Size (hd_file h)) ≤ offset →
  0 < length → 0 ≤ ForwardGap cfg → 0 ≤ SeekThreshold cfg →
  offset + Z.of_nat (S n) * length < 2 ^ 62 →
  read_on cfg (S n) offset length h
  = mkObservation modeStream readEventStart true :: replicate n (mkObservation modeStream readEventNone true).
Proof.
  intros H1 Hl Hh Hp Hg Hs Hr. pose proof (or_last _ _ _ H1). pose proof (or_end _ _ _ H1).
  pose proof (or_length _ _ _ H1). cbn [read_on].
  assert (0 ≤ Z.of_nat n * length) by nia.
  destruct (observe_second cfg h offset length H1) as (h' & -> & Hm & Ht & Ho & Hn); [done..|lia|].
  f_equal. apply read_on_stream; [done|done|lia|lia|done|lia|done|lia].
Qed.
