(* ===== verification/AccessProps.v ===== *)
(** * Properties of the access classification ([observeHandleLocked] of
    [src/internal/stream/manager.go])

    Sequential reads of a handle become a stream after two reads and stay one;
    a jump of a stream is a seek, after which the stream starts again. *)
From S2P Require Import Prelude GoStrings ChunkKeys StreamConfig Access.

(** C35: A freshly opened handle that reads on sequentially, in reads larger
    than the probe threshold and past the head probe region, is a probe once,
    starts the stream with the second read, and stays in stream mode with no
    further event: sequential playback never counts as a seek. *)
Theorem sequential_reads_stream cfg file id offset length n :
  probeThreshold cfg (Size file) < length → headProbeEdge (Size file) ≤ offset → 0 ≤ offset →
  0 < length → 0 ≤ ForwardGap cfg → 0 ≤ SeekThreshold cfg →
  offset + Z.of_nat (S (S n)) * length < 2 ^ 62 →
  read_on cfg (S (S n)) offset length (newHandle file id)
  = mkObservation modeProbe readEventNone false
    :: mkObservation modeStream readEventStart true
    :: replicate n (mkObservation modeStream readEventNone true).
Proof.
  intros Hl Hh Ho Hp Hg Hs Hr. cbn [read_on]. rewrite observe_first by done. f_equal.
  apply (read_on_restart cfg n (offset + length) length); [|cbn; done || lia..].
  split; cbn; done || lia.
Qed.
Lemma sequential_reads_stream_witness :
  read_on DefaultConfig 5 (16 * 2 ^ 20) (2 ^ 20) (newHandle (mkFile "1" (2 ^ 32) 0) 1)
  = [mkObservation modeProbe readEventNone false; mkObservation modeStream readEventStart true;
     mkObservation modeStream readEventNone true; mkObservation modeStream readEventNone true;
     mkObservation modeStream readEventNone true].
Proof.
  refine (sequential_reads_stream DefaultConfig (mkFile "1" (2 ^ 32) 0) 1 (16 * 2 ^ 20) (2 ^ 20) 3 _ _ _ _ _ _ _);
    by vm_compute.
Defined.

(** A handle in stream mode that jumps back, or ahead by more than both
    the seek threshold and the target buffer, reports exactly one seek; reading
    on from there starts the stream again with the next read. *)
Theorem seek_restarts_stream cfg h offset length n :
  hd_mode h = modeStream → hd_tailProbe h = false → 0 ≤ lastOffset h → offset ≠ lastOffset h →
  (offset -! (lastOffset h +! lastLength h) < 0 ∨
   forwardSeekThreshold cfg < offset -! (lastOffset h +! lastLength h)) →
  probeThreshold cfg (Size (hd_file h)) < length → headProbeEdge (Size (hd_file h)) ≤ offset + length →
  0 ≤ offset → 0 < length → 0 ≤ ForwardGap cfg → 0 ≤ SeekThreshold cfg →
  offset + Z.of_nat (S (S n)) * length < 2 ^ 62 →
  read_on cfg (S (S n)) offset length h
  = mkObservation modeProbe readEventSeek false
    :: mkObservation modeStream readEventStart true
    :: replicate n (mkObservation modeStream readEventNone true).
Proof.
  intros Hm Ht Hl Hne Hd Hp Hh Ho Hlen Hg Hs Hr. cbn [read_on].
  rewrite (observe_jump cfg h offset length) by done. f_equal.
  apply (read_on_restart cfg n (offset + length) length); [|cbn; done || lia..].
  split; cbn; done || lia.
Qed.
Definition playing : Handle :=
  mkHandle (mkFile "1" (2 ^ 32) 0) 1 (16 * 2 ^ 20) (2 ^ 20) 2 modeStream false 0 false.
Lemma seek_restarts_stream_witness :
  read_on DefaultConfig 3 (2 ^ 31) (2 ^ 20) playing
  = [mkObservation modeProbe readEventSeek false; mkObservation modeStream readEventStart true;
     mkObservation modeStream readEventNone true].
Proof.
  refine (seek_restarts_stream DefaultConfig playing (2 ^ 31) (2 ^ 20) 1 _ _ _ _ _ _ _ _ _ _ _ _);
    try (by vm_compute). right. by vm_compute.
Defined.
