(* ===== verification/Manager.v ===== *)
(** * The stream manager's critical sections ([src/internal/stream/manager.go])

    The state the manager's mutex protects and one function per critical
    section or atomic helper, under the source's names.  The manager is
    parametric in its chunk store, of which it only uses the [ChunkCache]
    operations.  Tasks are shared objects named by identifiers ([TaskHeap]).
    A function that can panic in Go (nil dereference, index out of range,
    closing a closed channel, sending on a closed one) returns [None] there. *)
From S2P Require Import Prelude GoList GoStrings ChunkKeys ChunkStore ChunkCache TaskHeap StreamConfig Access.

(** [type session] *)
Record session := mkSession {
  se_file : File; se_epoch : Z; activeHandle : Z; streamAnchor : Z; cursor : Z; refs : Z;
  inflight : Z; slowStreak : Z; lastAccess : Z; lastSummary : Z; scheduleSet : bool;
  scheduleEpoch : Z; scheduledFloor : Z; scheduledNear : Z; scheduledEnd : Z;
  se_hedges : Z; dlinkRefreshes : Z
}.
#[export] Instance session_eta : Eta session := λ s,
  mkSession (se_file s) (se_epoch s) (activeHandle s) (streamAnchor s) (cursor s) (refs s)
    (inflight s) (slowStreak s) (lastAccess s) (lastSummary s) (scheduleSet s) (scheduleEpoch s)
    (scheduledFloor s) (scheduledNear s) (scheduledEnd s) (se_hedges s) (dlinkRefreshes s).
Definition newSession (file : File) (now : Z) : session :=
  mkSession file 0 0 0 0 0 0 0 now 0 false 0 0 0 0 0 0.

(** What a worker does with the task it took: the number of the download
    attempt, the bytes or error to store, then to commit, then to queue for disk. *)
Inductive workerPc :=
| WRead (attempt : Z) | WPut (r : result streamErr bytes) | WCommit (r : result streamErr bytes)
| WDisk (data : bytes).
(** The goroutine [startHedge] starts. *)
Inductive hedgePc := HRead | HPut (data : bytes) | HPublish (data : bytes) | HDisk (data : bytes).

(** A call of [readAt] past [prepareRead]: its arguments, what [prepareRead]
    returned, the chunks fetched so far and where [waitChunk] stands. *)
Inductive readerPc :=
| RGet | REnsure | RLock | RMark (id : nat) | RWait (id : nat) | RDone (r : result streamErr bytes).
Record readCall := mkRead {
  rd_file : File; rd_offset : Z; rd_length : Z; rd_epoch : Z; rd_mode : accessMode;
  rd_stream : bool; rd_chunks : list bytes; rd_pc : readerPc
}.
#[export] Instance readCall_eta : Eta readCall := λ r,
  mkRead (rd_file r) (rd_offset r) (rd_length r) (rd_epoch r) (rd_mode r) (rd_stream r)
    (rd_chunks r) (rd_pc r).

(** [type Manager], with its goroutines: [m_idle] workers wait in [nextTask],
    [m_running] and [m_hedging] map a task to the worker and the hedge that
    download it, [m_reads] are the calls of [readAt] in progress, and
    [m_releasing] the handles between the two critical sections of [Release].
    [m_nextTask] is the next unused task identifier. *)
Record manager (S : Type) := mkManager {
  m_cfg : Config; m_store : S; m_heap : taskHeap; m_nextTask : nat;
  m_tasks : gmap chunkKey nat; m_sessions : gmap string session;
  m_closed : bool; m_sequence : Z; m_nextHandle : Z;
  m_diskWrites : list cacheEntry; m_diskClosed : bool; m_latencies : list Z * Z;
  m_idleTimer : option (Z * Z); m_idleEpoch : Z; m_lastActivity : Z;
  m_downloaded : Z; m_retries : Z; m_hedges : Z;
  m_handles : gmap Z Handle; m_releasing : gset Z; m_idle : nat;
  m_running : gmap nat workerPc; m_hedging : gmap nat hedgePc; m_reads : gmap nat readCall
}.
Arguments mkManager {S}.
Arguments m_cfg {S}. Arguments m_store {S}. Arguments m_heap {S}. Arguments m_nextTask {S}.
Arguments m_tasks {S}. Arguments m_sessions {S}. Arguments m_closed {S}.
Arguments m_sequence {S}. Arguments m_nextHandle {S}. Arguments m_diskWrites {S}.
Arguments m_diskClosed {S}. Arguments m_latencies {S}. Arguments m_idleTimer {S}.
Arguments m_idleEpoch {S}. Arguments m_lastActivity {S}. Arguments m_downloaded {S}.
Arguments m_retries {S}. Arguments m_hedges {S}. Arguments m_handles {S}.
Arguments m_releasing {S}. Arguments m_idle {S}. Arguments m_running {S}.
Arguments m_hedging {S}. Arguments m_reads {S}.
#[export] Instance manager_eta {S} : Eta (manager S) := λ m,
  mkManager (m_cfg m) (m_store m) (m_heap m) (m_nextTask m) (m_tasks m) (m_sessions m) (m_closed m)
    (m_sequence m) (m_nextHandle m) (m_diskWrites m) (m_diskClosed m) (m_latencies m)
    (m_idleTimer m) (m_idleEpoch m) (m_lastActivity m) (m_downloaded m) (m_retries m) (m_hedges m)
    (m_handles m) (m_releasing m) (m_idle m) (m_running m) (m_hedging m) (m_reads m).

Section manager.
Context {S : Type} `{!ChunkCache S}.
Implicit Types (m : manager S) (file : File) (ver : string) (id : nat) (now : Z).

Definition obj m id : option task := h_objs (m_heap m) !! id.
Definition set_task id (f : task → task) m : manager S :=
  m <| m_heap ::= λ h, h <| h_objs ::= alter f id |> |>.
Definition set_session ver (f : session → session) m : manager S :=
  m <| m_sessions ::= alter f ver |>.
Definition versionOf m file : string := chunkVersion file (ChunkSize (m_cfg m)).

(** [close(task.done)] *)
Definition close_done id m : option (manager S) :=
  t ← obj m id;
  if t_closed t then None else Some (set_task id (λ t, t <| t_closed := true |>) m).

(** [if m.tasks[task.key] == task { delete(m.tasks, task.key) }] *)
Definition forget_task (key : chunkKey) id m : manager S :=
  if decide (m_tasks m !! key = Some id) then m <| m_tasks ::= delete key |> else m.

(** ** Sessions *)
Definition sessionLocked file now m : manager S :=
  match m_sessions m !! versionOf m file with
  | Some _ => m
  | None => m <| m_sessions ::= <[versionOf m file := newSession file now]> |>
  end.

Definition unfinished m id : bool := from_option (λ t, negb (t_finished t)) false (obj m id).
Definition version_busy ver m : Prop :=
  Exists (λ p, version p.1 = ver ∧ unfinished m p.2 = true) (map_to_list (m_tasks m)).
#[export] Instance version_busy_dec ver m : Decision (version_busy ver m).
Proof. unfold version_busy. apply _. Defined.

Definition cleanupSessionLocked ver m : manager S :=
  match m_sessions m !! ver with
  | None => m
  | Some s =>
      if decide (0 < refs s ∨ 0 < inflight s) then m
      else if decide (version_busy ver m) then m
      else m <| m_sessions ::= delete ver |>
  end.

Definition sessionWorkerLimitLocked m : Z :=
  let active := filter (λ p, 0 < refs p.2 ∧ activeHandle p.2 ≠ 0) (map_to_list (m_sessions m)) in
  if decide (1 < length active)%nat then SessionWorkers (m_cfg m) else Workers (m_cfg m).

Definition should_cancel ver (currentEpoch : Z) (t : task) : Prop :=
  version (t_key t) = ver ∧ t_epoch t < currentEpoch ∧ t_priority t ≠ priorityForeground.
#[export] Instance should_cancel_dec ver e t : Decision (should_cancel ver e t).
Proof. unfold should_cancel. apply _. Defined.

(** [for _, task := range m.tasks { if P { task.cancel() } }] *)
Definition cancel_tasks (P : task → Prop) `{!∀ t, Decision (P t)} m : manager S :=
  foldr (λ p, set_task p.2 (λ t, if decide (P t) then t <| t_canceled := true |> else t)) m
    (map_to_list (m_tasks m)).
Definition cancelSessionTasksLocked ver (currentEpoch : Z) m : manager S :=
  cancel_tasks (should_cancel ver currentEpoch) m.

Definition inScheduledWindowLocked m (s : session) (offset : Z) : bool :=
  if decide (scheduleSet s = false ∨ scheduleEpoch s ≠ se_epoch s ∨ ChunkSize (m_cfg m) ≤ 0 ∨
             offset < 0)
  then false
  else
    let index := Z.quot offset (ChunkSize (m_cfg m)) in
    bool_decide (scheduledFloor s ≤ index ∧ index ≤ scheduledEnd s).

(** ** Idle memory *)
Definition scheduleIdleReclaimAfterLocked (delay : Z) m : manager S :=
  if m_closed m then m
  else
    let delay := if decide (delay ≤ 0) then millisecond else delay in
    let m := m <| m_idleEpoch ::= λ e, e + 1 |> in
    m <| m_idleTimer := Some (m_idleEpoch m, delay) |>.
Definition cancelIdleReclaimLocked m : manager S :=
  m <| m_idleEpoch ::= λ e, e + 1 |> <| m_idleTimer := None |>.
Definition markActivityLocked now m : manager S :=
  if m_closed m then m
  else
    let m := m <| m_lastActivity := now |> in
    match m_idleTimer m with
    | None => scheduleIdleReclaimAfterLocked (IdleReclaim (m_cfg m)) m
    | Some _ => m
    end.

Definition clear_window (s : session) : session :=
  s <| scheduleSet := false |> <| scheduledFloor := 0 |> <| scheduledNear := 0 |>
    <| scheduledEnd := 0 |>.
(** [reclaimIdleMemory]: the manager and, when it reclaimed, the bytes. *)
Definition reclaimIdleMemory (epoch : Z) now m : manager S * option Z :=
  if decide (m_closed m = true ∨ epoch ≠ m_idleEpoch m) then (m, None)
  else
    let m := m <| m_idleTimer := None |> in
    let remaining := IdleReclaim (m_cfg m) - (now - m_lastActivity m) in
    if decide (0 < remaining) then (scheduleIdleReclaimAfterLocked remaining m, None)
    else if decide (m_tasks m ≠ ∅) then (scheduleIdleReclaimAfterLocked second m, None)
    else if decide (Exists (λ p, 0 < inflight p.2) (map_to_list (m_sessions m)))
    then (scheduleIdleReclaimAfterLocked second m, None)
    else
      let m := m <| m_sessions ::= fmap clear_window |> in
      let '(store, streamBytes) := cc_clear (m_store m) in
      (m <| m_store := store |>, Some streamBytes).

(** ** Handles *)
Definition Open file now m : manager S * option Z :=
  if decide (FSID file = "" ∨ m_closed m = true) then (m, None)
  else
    let m := sessionLocked file now (markActivityLocked now m) in
    let m := set_session (versionOf m file)
               (λ s, s <| refs ::= λ n, n + 1 |> <| lastAccess := m_lastActivity m |>) m in
    let m := m <| m_nextHandle ::= λ n, n + 1 |> in
    let id := m_nextHandle m in
    (m <| m_handles ::= <[id := newHandle file id]> |>, Some id).

(** [Release], first the handle's and then the manager's critical section. *)
Definition Release_mark (hid : Z) m : manager S :=
  match m_handles m !! hid with
  | Some h =>
      if released h then m
      else m <| m_handles ::= <[hid := h <| released := true |>]> |>
             <| m_releasing ::= λ R, {[hid]} ∪ R |>
  | None => m
  end.
Definition Release_commit (hid : Z) now m : manager S :=
  match m_handles m !! hid with
  | None => m
  | Some h =>
      let m := m <| m_releasing ::= λ R, R ∖ {[hid]} |> in
      let ver := versionOf m (hd_file h) in
      match m_sessions m !! ver with
      | None => m
      | Some s =>
          let m := set_session ver (λ s, if decide (0 < refs s) then s <| refs ::= λ n, n - 1 |>
                                         else s) m in
          let m :=
            if decide (activeHandle s = hd_id h) then
              cancelSessionTasksLocked ver (se_epoch s + 1)
                (set_session ver (λ s, s <| se_epoch ::= λ e, e + 1 |> <| activeHandle := 0 |>) m)
            else m in
          cleanupSessionLocked ver (set_session ver (λ s, s <| lastAccess := now |>) m)
      end
  end.
End manager.
