(* ===== verification/ManagerTasks.v ===== *)
(** * Tasks, reads and scheduling of the stream manager ([src/internal/stream/manager.go])

    The rest of the manager's operations: [prepareRead], [ensureTask],
    [nextTask], the worker's [download] and [finishTask], hedging, the disk
    queue, [scheduleBuffer] and [scheduleProbe], the assembly of [readAt],
    [BufferAhead] and [Close]. *)
From S2P Require Import Prelude GoList GoStrings ChunkKeys ChunkStore ChunkCache TaskHeap StreamConfig Access Manager.

(** What [prepareRead] returns next to the error. *)
Record prepared := mkPrepared {
  pr_epoch : Z; pr_mode : accessMode; pr_stream : bool; pr_event : readEvent; pr_log : bool
}.

(** What [ensureTask] returns: nil, a finished task of its own with [data], or
    a task of the table. *)
Inductive ensured := EClosed | EVirtual (data : bytes) | ETask (id : nat).

Section manager.
Context {S : Type} `{!ChunkCache S}.
Implicit Types (m : manager S) (file : File) (ver : string) (id : nat) (now hid : Z).

(** ** Reads of a handle *)

(** [s.activeHandle = handle.id; s.streamAnchor = offset] *)
Definition set_active hid (offset : Z) (s : session) : session :=
  s <| activeHandle := hid |> <| streamAnchor := offset |>.
(** A new epoch: older background tasks are canceled, the handle is active. *)
Definition takeover ver (epoch : Z) hid (offset : Z) m : manager S :=
  set_session ver (set_active hid offset)
    (cancelSessionTasksLocked ver epoch (set_session ver (λ s, s <| se_epoch := epoch |>) m)).

(** The branches on [event]: the manager, the event and [independentRead]. *)
Definition apply_event ver (s : session) hid (offset : Z) (within : bool) (ob : observation) m
    : manager S * readEvent * bool :=
  let event := if within then
                 match ob_event ob with readEventSeek => readEventNone | e => e end
               else ob_event ob in
  match event with
  | readEventSeek =>
      if decide (activeHandle s ≠ 0 ∧ activeHandle s ≠ hid) then (m, readEventNone, true)
      else (takeover ver (se_epoch s + 1) hid offset m, event, false)
  | readEventStart =>
      if decide (activeHandle s ≠ 0 ∧ activeHandle s ≠ hid ∧ within = false)
      then (takeover ver (se_epoch s + 1) hid offset m, event, false)
      else if decide (activeHandle s = 0)
      then (set_session ver (set_active hid offset) m, event, false)
      else (m, event, false)
  | readEventNone =>
      if decide (ob_mode ob = modeStream ∧ activeHandle s = 0)
      then (set_session ver (set_active hid offset) m, readEventStart, false)
      else (m, event, false)
  end.

Definition prepareRead hid (offset length : Z) now m : manager S * result streamErr prepared :=
  match m_handles m !! hid with
  | None => (m, Err ErrArgument)
  | Some handle =>
      if released handle then (m, Err ErrReleased)
      else
        let '(handle, observed) := observeHandleLocked (m_cfg m) handle offset length in
        let m := m <| m_handles ::= <[hid := handle]> |> in
        if m_closed m then (m, Err ErrClosed)
        else
          let m := sessionLocked (hd_file handle) now (markActivityLocked now m) in
          let ver := versionOf m (hd_file handle) in
          let s := default (newSession (hd_file handle) now) (m_sessions m !! ver) in
          let within := inScheduledWindowLocked m s offset in
          let '(m, event, independent) := apply_event ver s (hd_id handle) offset within observed m in
          let s' := default s (m_sessions m !! ver) in
          let m := m <| m_handles ::= <[hid := handle <| hd_epoch := se_epoch s' |>]> |> in
          let streamRead := negb independent && ob_streamRead observed &&
                            (bool_decide (activeHandle s' = hd_id handle) || within) in
          let end_ := offset +! length in
          let m := set_session ver
            (λ s, s <| lastAccess := now |>
                    <| cursor ::= λ c, if streamRead && bool_decide (c < end_) then end_ else c |>) m in
          let logEvent := bool_decide (se_epoch s' ≠ se_epoch s) ||
            bool_decide (event = readEventStart ∧ activeHandle s = 0 ∧ activeHandle s' = hd_id handle) in
          (m, Ok (mkPrepared (se_epoch s') (ob_mode observed) streamRead event logEvent))
  end.

(** ** Tasks *)
Definition chunk_length m file (index : Z) : Z :=
  let offset := index *! ChunkSize (m_cfg m) in
  let length := ChunkSize (m_cfg m) in
  if decide (0 < Size file ∧ Size file < offset +! length) then Size file -! offset else length.

Definition newTask m file (index epoch : Z) (prio : priority) : task :=
  {| t_key := mkChunkKey (versionOf m file) index; t_file := file;
     t_offset := index *! ChunkSize (m_cfg m); t_length := chunk_length m file index;
     t_priority := prio; t_epoch := epoch; t_seq := m_sequence m + 1; t_index := -1;
     t_canceled := false; t_closed := false; t_data := []; t_err := None;
     t_started := false; t_finished := false; t_foreground := false; t_hedged := false;
     t_hedgeCancel := false; t_startedAt := 0 |}.

(** A new task: table, object store and queue. *)
Definition add_task file (index epoch : Z) (prio : priority) m : option (manager S * ensured) :=
  let t := newTask m file index epoch prio in
  let id := m_nextTask m in
  let m := m <| m_sequence ::= λ n, n + 1 |> <| m_nextTask ::= Datatypes.S |>
             <| m_tasks ::= <[t_key t := id]> |>
             <| m_heap ::= λ h, h <| h_objs ::= <[id := t]> |> |> in
  h ← heap_push id (m_heap m);
  Some (m <| m_heap := h |>, ETask id).

(** [ensureTask] from [m.mu.Lock()] on *)
Definition ensureTask_locked file (index epoch : Z) (prio : priority) m
    : option (manager S * ensured) :=
  let key := mkChunkKey (versionOf m file) index in
  if m_closed m then Some (m, EClosed)
  else
    let create :=
      if decide (chunk_length m file index ≤ 0) then Some (m, EVirtual [])
      else add_task file index epoch prio m in
    match m_tasks m !! key with
    | None => create
    | Some id =>
        t ← obj m id;
        if decide (t_finished t = false ∧ t_canceled t = false) then
          if decide (priority_num prio < priority_num (t_priority t) ∧ t_started t = false) then
            let m := set_task id (λ t, t <| t_priority := prio |>) m in
            h ← heap_fix (t_index t) (m_heap m);
            Some (m <| m_heap := h |>, ETask id)
          else Some (m, ETask id)
        else create
    end.

Definition ensureTask io file (index epoch : Z) (prio : priority) m
    : option (manager S * ensured) :=
  let key := mkChunkKey (versionOf m file) index in
  let '(store, hit) := cc_get io key true (m_store m) in
  let m := m <| m_store := store |> in
  match hit with
  | Some data => Some (m, EVirtual data)
  | None => ensureTask_locked file index epoch prio m
  end.

Definition ensureBackgroundTask io file (index epoch : Z) (prio : priority) m
    : option (manager S) :=
  let key := mkChunkKey (versionOf m file) index in
  let '(store, hit) := cc_length key (m_store m) in
  let m := m <| m_store := store |> in
  match hit with
  | Some _ => Some m
  | None => fst <$> ensureTask io file index epoch prio m
  end.

Definition markForeground id m : manager S :=
  set_task id (λ t, if t_finished t then t else t <| t_foreground := true |>) m.

(** The fields a task gets when it ends, before [close(task.done)]. *)
Definition finish_with (data : bytes) (err : option streamErr) (t : task) : task :=
  t <| t_finished := true |> <| t_data := data |> <| t_err := err |>.

Definition discardCanceledTaskLocked id m : option (manager S) :=
  t ← obj m id;
  if t_finished t then Some m
  else
    let m := set_task id (finish_with (t_data t) (Some ErrCanceled)) m in
    m ← close_done id (forget_task (t_key t) id m);
    Some (cleanupSessionLocked (version (t_key t)) m).

Definition push_all (ids : list nat) m : option (manager S) :=
  foldl (λ r id, m ← r; h ← heap_push id (m_heap m); Some (m <| m_heap := h |>)) (Some m) ids.

(** Taking the task: what [nextTask] does when it returns it. *)
Definition start_task id (ver : string) now m : manager S :=
  set_session ver (λ s, s <| inflight ::= λ n, n + 1 |>)
    (set_task id (λ t, t <| t_started := true |> <| t_startedAt := now |>) m).

(** The session's limit holds back background tasks only. *)
Definition over_limit m (t : task) : Prop :=
  match m_sessions m !! version (t_key t) with
  | Some s => t_priority t ≠ priorityForeground ∧ sessionWorkerLimitLocked m ≤ inflight s
  | None => False
  end.
#[export] Instance over_limit_dec m t : Decision (over_limit m t).
Proof. unfold over_limit. destruct (m_sessions m !! version (t_key t)); apply _. Defined.

(** One pass over the queue: the inner loop of [nextTask]. *)
Fixpoint next_loop (fuel : nat) (skipped : list nat) now m : option (manager S * option nat) :=
  match fuel with
  | O => None
  | Datatypes.S fuel =>
      if decide (h_queue (m_heap m) = []) then
        m ← push_all skipped m; Some (m, None)
      else
        '(id, h) ← heap_pop (m_heap m);
        let m := m <| m_heap := h |> in
        t ← obj m id;
        if t_finished t then next_loop fuel skipped now m
        else if t_canceled t then
          m ← discardCanceledTaskLocked id m; next_loop fuel skipped now m
        else if decide (over_limit m t) then next_loop fuel (skipped ++ [id]) now m
        else
          m ← push_all skipped (start_task id (version (t_key t)) now m);
          Some (m, Some id)
  end.
(** [None] in the result: the worker goes back to waiting. *)
Definition nextTask now m : option (manager S * option nat) :=
  next_loop (Datatypes.S (length (h_queue (m_heap m)))) [] now m.

(** ** Downloads *)

(** What [ReadStreamRange] answers for [length] bytes, as [download] and the
    hedge judge it. *)
Definition judge (length : Z) (reply : result streamErr bytes) : result streamErr bytes :=
  match reply with
  | Ok data => if decide (zlen data = length) then Ok data else Err ErrUnexpectedEOF
  | Err e => Err e
  end.

(** One attempt of [download]: its loop runs twice. *)
Definition download_attempt id (attempt : Z) (reply : result streamErr bytes) m
    : option (manager S * workerPc) :=
  t ← obj m id;
  match judge (t_length t) reply with
  | Ok data => Some (m <| m_downloaded ::= λ n, n + zlen data |>, WPut (Ok data))
  | Err e =>
      if t_canceled t then Some (m, WPut (Err ErrCanceled))
      else
        let m := m <| m_retries ::= λ n, n + 1 |> in
        if decide (attempt + 1 < 2) then Some (m, WRead (attempt + 1))
        else Some (m, WPut (Err (ErrChunkFailed e)))
  end.

(** [if err == nil { m.store.putMemory(task.key, data) }] *)
Definition put_result (key : chunkKey) (r : result streamErr bytes) m : manager S :=
  match r with Ok data => m <| m_store ::= cc_put_memory key data |> | Err _ => m end.

(** [finishTask] between [m.mu.Lock()] and [m.mu.Unlock()]: the flag says
    whether the task was still unfinished. *)
Definition finishTask_locked id (r : result streamErr bytes) (latency : Z) m
    : option (manager S * bool) :=
  t ← obj m id;
  let ver := version (t_key t) in
  let m := set_session ver (λ s, if decide (t_started t = true ∧ 0 < inflight s)
                                 then s <| inflight ::= λ n, n - 1 |> else s) m in
  if t_finished t then Some (cleanupSessionLocked ver m, false)
  else
    let m := set_task id (λ t, t <| t_hedgeCancel := false |>) m in
    let m := match r with
             | Ok data => set_task id (finish_with data None) m
             | Err e => set_task id (finish_with [] (Some e)) m
             end in
    let m := forget_task (t_key t) id m in
    let m := if decide (is_ok r = true ∧ t_startedAt t ≠ 0)
             then m <| m_latencies ::= recordLatencyLocked latency |> else m in
    let m := if decide (t_foreground t = true ∧ t_hedged t = false)
             then set_session ver (λ s, s <| slowStreak := 0 |>) m else m in
    m ← close_done id m;
    Some (cleanupSessionLocked ver m, true).

Definition queueDiskWrite (key : chunkKey) (data : bytes) m : option (manager S) :=
  if decide (cc_disk_disabled (m_store m) = true ∨ zlen data = 0) then Some m
  else if m_diskClosed m then None
  else if decide (zlen (m_diskWrites m) < Workers (m_cfg m) * 8)
  then Some (m <| m_diskWrites ::= λ q, q ++ [mkEntry key data] |>)
  else Some m.

(** [diskWriter]: one turn of its loop. *)
Definition diskWriter io m : manager S :=
  match m_diskWrites m with
  | [] => m
  | e :: rest =>
      m <| m_diskWrites := rest |> <| m_store ::= λ s, (cc_put_disk io (ce_key e) (ce_data e) s).1 |>
  end.

(** ** Hedging *)

(** The manager, and whether the download link is invalidated. *)
Definition startHedge id m : option (manager S * bool) :=
  t ← obj m id;
  if decide (m_closed m = true ∨ t_finished t = true ∨ t_hedged t = true ∨ t_canceled t = true)
  then Some (m, false)
  else
    let ver := version (t_key t) in
    let m := set_task id (λ t, t <| t_hedged := true |> <| t_hedgeCancel := true |>) m in
    let m := m <| m_hedges ::= λ n, n + 1 |> <| m_hedging ::= <[id := HRead]> |> in
    let slow := from_option (λ s, bool_decide (3 ≤ slowStreak s + 1)) false (m_sessions m !! ver) in
    let m := set_session ver
      (λ s, (s <| se_hedges ::= λ n, n + 1 |> <| slowStreak ::= λ n, n + 1 |>)
            <| slowStreak ::= λ n, if slow then 0 else n |>
            <| dlinkRefreshes ::= λ n, if slow then n + 1 else n |>) m in
    Some (m, slow).

(** [publishHedge] from [m.mu.Lock()] on; the flag is its result. *)
Definition publishHedge_locked id (data : bytes) m : option (manager S * bool) :=
  t ← obj m id;
  if t_finished t then Some (m, false)
  else
    let m := set_task id (λ t, (finish_with data (t_err t) t) <| t_hedgeCancel := false |>
                                 <| t_canceled := true |>) m in
    m ← close_done id (forget_task (t_key t) id m);
    Some (m <| m_downloaded ::= λ n, n + zlen data |>, true).

(** ** Shutdown *)

(** The first critical section of [Close]: every task context derives from
    [m.ctx], which [m.cancel] cancels. *)
Definition Close_begin m : manager S :=
  if m_closed m then m
  else
    let m := cancelIdleReclaimLocked (m <| m_closed := true |>) in
    m <| m_heap ::= λ h, h <| h_objs ::= fmap (λ t, t <| t_canceled := true |>) |> |>.
(** [m.wg.Wait()] has returned: no worker and no hedge is left. *)
Definition all_done m : Prop := m_idle m = 0%nat ∧ m_running m = ∅ ∧ m_hedging m = ∅.
Definition Close_finish m : manager S := m <| m_diskClosed := true |>.

Definition maybeLogSummary file now m : manager S :=
  match m_sessions m !! versionOf m file with
  | None => m
  | Some s =>
      if decide (now - lastSummary s < 5 * second) then m
      else set_session (versionOf m file) (λ s, s <| lastSummary := now |>) m
  end.

(** ** Read-ahead *)
Record bufferPlan := mkPlan { bp_start : Z; bp_near : Z; bp_end : Z; bp_floor : Z }.

(** The chunk range around [cursor]; [None] when there is nothing ahead. *)
Definition buffer_range (cfg : Config) file (cursor : Z) : option bufferPlan :=
  if decide (Size file ≤ cursor ∧ 0 < Size file) then None
  else
    let cs := ChunkSize cfg in
    let endOffset := cursor +! TargetBuffer cfg in
    let endOffset := if decide (0 < Size file ∧ Size file < endOffset) then Size file else endOffset in
    if decide (endOffset ≤ cursor) then None
    else
      let end_ := Z.quot (endOffset -! 1) cs in
      let nearEnd := Z.quot (cursor +! MiB 64) cs in
      let nearEnd := if decide (end_ < nearEnd) then end_ else nearEnd in
      let floorOffset := cursor -! BackBuffer cfg in
      let floorOffset := if decide (floorOffset < 0) then 0 else floorOffset in
      Some (mkPlan (Z.quot cursor cs) nearEnd end_ (Z.quot floorOffset cs)).

Definition update_window (p : bufferPlan) (epoch : Z) (s : session) : session :=
  if decide (scheduleSet s = false ∨ scheduleEpoch s ≠ epoch) then
    s <| scheduleSet := true |> <| scheduleEpoch := epoch |> <| scheduledFloor := bp_floor p |>
      <| scheduledNear := bp_near p |> <| scheduledEnd := bp_end p |>
  else
    s <| scheduledFloor ::= Z.max (bp_floor p) |> <| scheduledNear ::= Z.max (bp_near p) |>
      <| scheduledEnd ::= Z.max (bp_end p) |>.

(** [for index := a; index <= b; index++] *)
Definition upto (a b : Z) : list Z := seqZ a (b - a + 1).

(** The [ensureBackgroundTask] calls of [scheduleBuffer], in order. *)
Definition buffer_calls (cfg : Config) (reset : bool) (p : bufferPlan)
    (previousNear previousEnd cursor : Z) : list (Z * priority) :=
  if reset then
    ((λ i, (i, priorityNear)) <$> upto (bp_start p) (bp_near p)) ++
    ((λ i, (i, priorityAhead)) <$> upto (bp_near p + 1) (bp_end p)) ++
    (if decide (BackBuffer cfg ≤ 0 ∨ cursor ≤ 0) then []
     else (λ i, (i, priorityBack)) <$> upto (bp_floor p) (Z.quot (cursor - 1) (ChunkSize cfg)))
  else
    ((λ i, (i, priorityNear)) <$>
       upto (Z.max (previousNear + 1) (bp_start p)) (Z.min (bp_near p) previousEnd)) ++
    ((λ i, (i, if decide (i ≤ bp_near p) then priorityNear else priorityAhead)) <$>
       upto (previousEnd + 1) (bp_end p)).

Definition run_calls io file (epoch : Z) (calls : list (Z * priority)) m : option (manager S) :=
  foldl (λ r c, m ← r; ensureBackgroundTask io file c.1 epoch c.2 m) (Some m) calls.

Definition scheduleBuffer io file (cursor epoch : Z) m : option (manager S) :=
  match buffer_range (m_cfg m) file cursor with
  | None => Some m
  | Some p =>
      let ver := versionOf m file in
      match m_sessions m !! ver with
      | None => Some m
      | Some s =>
          if decide (se_epoch s ≠ epoch ∨ activeHandle s = 0) then Some m
          else
            let reset := bool_decide (scheduleSet s = false ∨ scheduleEpoch s ≠ epoch) in
            let m := set_session ver (update_window p epoch) m in
            let m :=
              if reset then m <| m_store ::= cc_prune ver (bp_floor p) (bp_end p) |>
              else if decide (scheduledFloor s < bp_floor p)
              then m <| m_store ::= cc_remove_range ver (scheduledFloor s) (bp_floor p) |> else m in
            run_calls io file epoch
              (buffer_calls (m_cfg m) reset p (scheduledNear s) (scheduledEnd s) cursor) m
      end
  end.

Definition scheduleProbe io file (offset epoch : Z) m : option (manager S) :=
  let cs := ChunkSize (m_cfg m) in
  if decide (cs ≤ 0 ∨ Size file ≤ 0 ∨ offset < 0 ∨ Size file ≤ offset) then Some m
  else
    let endOffset := offset +! MiB 16 in
    let endOffset := if decide (Size file < endOffset) then Size file else endOffset in
    run_calls io file epoch
      ((λ i, (i, priorityNear)) <$> upto (Z.quot offset cs) (Z.quot (endOffset -! 1) cs)) m.

(** ** [readAt] *)

(** The checks before [prepareRead]: an immediate answer, or the length to read. *)
Definition readAt_clip file (offset length : Z) : result streamErr (option Z) :=
  if decide (FSID file = "") then Err ErrArgument
  else if decide (offset < 0 ∨ length < 0) then Err ErrArgument
  else if decide (length = 0 ∨ (0 < Size file ∧ Size file ≤ offset)) then Ok None
  else if decide (0 < Size file ∧ Size file < offset +! length) then Ok (Some (Size file -! offset))
  else Ok (Some length).

(** The loop that copies the chunks; [acc] is [result[:written]]. *)
Fixpoint assemble (cs offset length : Z) (index : Z) (chunks : list bytes) (acc : bytes)
    : result streamErr bytes :=
  match chunks with
  | [] => if decide (zlen acc ≠ length) then Err ErrUnexpectedEOF else Ok acc
  | data :: rest =>
      let chunkOffset := index *! cs in
      let start := if decide (chunkOffset < offset) then offset -! chunkOffset else 0 in
      let available := zlen data -! start in
      let need := length -! zlen acc in
      let available := if decide (need < available) then need else available in
      if decide (available ≤ 0) then Err ErrUnexpectedEOF
      else assemble cs offset length (index + 1) rest (acc ++ slice data start available)
  end.

Definition first_chunk (cs : Z) (r : readCall) : Z := Z.quot (rd_offset r) cs.
Definition last_chunk (cs : Z) (r : readCall) : Z := Z.quot (rd_offset r +! rd_length r -! 1) cs.
(** The length of [chunks]. *)
Definition chunk_count (cs : Z) (r : readCall) : Z := last_chunk cs r -! first_chunk cs r +! 1.
(** Whether [make] of a slice of [n] elements of [size] bytes succeeds: it
    panics when [n] is negative or the slice is larger than any allocation,
    which on 64-bit Linux is 2^48 bytes.  (The memory is taken to be there.) *)
Definition makeslice (size n : Z) : bool := bool_decide (0 ≤ n ∧ n * size ≤ 2 ^ 48).
Definition sizeof_slice : Z := 24.
Definition touchCache (r : readCall) : bool :=
  negb (bool_decide (rd_mode r = modeStream)) || negb (rd_stream r).

Definition BufferAhead_chunk (cs within : Z) (first : bool) (ready chunkLength : Z)
    : Z * bool :=
  if first && bool_decide (chunkLength ≤ within) then (ready, false)
  else
    let length := if first then chunkLength - within else chunkLength in
    (ready + length, bool_decide (cs ≤ chunkLength)).
(** [BufferAhead]; the loop ends at the first chunk the store lacks, so
    [fuel] bounds the number of chunks it holds. *)
Fixpoint ahead_loop (fuel : nat) ver (cs within index : Z) (first : bool) (ready : Z) (s : S) : S * Z :=
  match fuel with
  | O => (s, ready)
  | Datatypes.S fuel =>
      match cc_length (mkChunkKey ver index) s with
      | (s, None) => (s, ready)
      | (s, Some chunkLength) =>
          let '(ready, go) := BufferAhead_chunk cs within first ready chunkLength in
          if go then ahead_loop fuel ver cs within (index + 1) false ready s else (s, ready)
      end
  end.
Definition BufferAhead (fuel : nat) file (cursor : Z) m : manager S * Z :=
  if decide (cursor < 0) then (m, 0)
  else
    let cs := ChunkSize (m_cfg m) in
    let '(store, ready) :=
      ahead_loop fuel (versionOf m file) cs (Z.rem cursor cs) (Z.quot cursor cs) true 0 (m_store m) in
    (m <| m_store := store |>, ready).
End manager.
