(* ===== verification/ManagerSteps.v ===== *)
(** * The stream manager as a transition system

    Callers, workers, hedges, the disk writer and the idle timer run
    concurrently; the manager's and the store's mutexes make each critical
    section atomic.  A [label] names one such section with the data Go leaves
    open (times, what the remote answers, which file operations fail).
    [enabled] says when a goroutine can take it, [perform] what it does;
    [perform] is [None] where Go panics.  [reachable] closes the state of
    [NewManager] under all interleavings. *)
From S2P Require Import Prelude GoList GoStrings ChunkKeys ChunkStore ChunkCache TaskHeap StreamConfig Access Manager ManagerTasks.

Inductive label :=
(* callers *)
| LOpen (file : File) (now : Z)
| LReleaseMark (hid : Z)
| LReleaseCommit (hid now : Z)
| LRead (rid : nat) (hid offset length now : Z)
| LGet (rid : nat) (io : diskIO)
| LEnsure (rid : nat) (io : diskIO)
| LLock (rid : nat)
| LMark (rid : nat)
| LWaited (rid : nat)
| LCtxDone (rid : nat) (e : streamErr)
| LWindow (file : File) (cursor epoch : Z)
| LBackground (file : File) (index epoch : Z) (prio : priority)
| LStoreGet (io : diskIO) (key : chunkKey) (touch : bool)
| LStoreLength (key : chunkKey)
| LPrune (ver : string) (a b : Z)
| LRemoveRange (ver : string) (a b : Z)
(* workers *)
| LNext (now : Z)
| LAttempt (id : nat) (reply : result streamErr bytes)
| LWorkerPut (id : nat)
| LWorkerCommit (id : nat) (latency : Z)
| LWorkerDisk (id : nat)
| LWorkerExit
(* hedges *)
| LHedge (id : nat)
| LHedgeReply (id : nat) (reply : result streamErr bytes)
| LHedgePut (id : nat)
| LHedgePublish (id : nat)
| LHedgeDisk (id : nat)
(* the other goroutines *)
| LDiskWriter (io : diskIO)
| LIdle (epoch now : Z)
| LSummary (file : File) (now : Z)
| LClose
| LCloseDone.

Section steps.
Context {S : Type} `{!ChunkCache S}.
Implicit Types (m : manager S) (id rid : nat).

Definition set_read rid (f : readCall → readCall) m : manager S := m <| m_reads ::= alter f rid |>.
Definition got_chunk (data : bytes) (r : readCall) : readCall :=
  r <| rd_chunks ::= λ cs, cs ++ [data] |> <| rd_pc := RGet |>.
Definition go_to (pc : readerPc) (r : readCall) : readCall := r <| rd_pc := pc |>.

Definition next_chunk m (r : readCall) : Z :=
  first_chunk (ChunkSize (m_cfg m)) r + zlen (rd_chunks r).
Definition next_key m (r : readCall) : chunkKey :=
  mkChunkKey (versionOf m (rd_file r)) (next_chunk m r).

(** The caller's goroutine is at [pc]. *)
Definition at_pc m rid (P : readerPc → Prop) : Prop :=
  from_option (λ r, P (rd_pc r)) False (m_reads m !! rid).
#[export] Instance at_pc_dec m rid P `{!∀ pc, Decision (P pc)} : Decision (at_pc m rid P).
Proof. unfold at_pc. destruct (m_reads m !! rid); cbn; apply _. Defined.

Definition is_RGet (pc : readerPc) : bool := match pc with RGet => true | _ => false end.
Definition is_REnsure (pc : readerPc) : bool := match pc with REnsure => true | _ => false end.
Definition is_RLock (pc : readerPc) : bool := match pc with RLock => true | _ => false end.
Definition is_RMark (pc : readerPc) : bool := match pc with RMark _ => true | _ => false end.
Definition is_RWait (pc : readerPc) : bool := match pc with RWait _ => true | _ => false end.
Definition is_RDone (pc : readerPc) : bool := match pc with RDone _ => true | _ => false end.
Definition waits_for id (r : readCall) : bool :=
  match rd_pc r with RWait id' => bool_decide (id = id') | _ => false end.

Definition at_worker m id (P : workerPc → bool) : bool := from_option P false (m_running m !! id).
Definition is_WRead (pc : workerPc) : bool := match pc with WRead _ => true | _ => false end.
Definition is_WPut (pc : workerPc) : bool := match pc with WPut _ => true | _ => false end.
Definition is_WCommit (pc : workerPc) : bool := match pc with WCommit _ => true | _ => false end.
Definition is_WDisk (pc : workerPc) : bool := match pc with WDisk _ => true | _ => false end.

Definition at_hedge m id (P : hedgePc → bool) : bool := from_option P false (m_hedging m !! id).
Definition is_HRead (pc : hedgePc) : bool := match pc with HRead => true | _ => false end.
Definition is_HPut (pc : hedgePc) : bool := match pc with HPut _ => true | _ => false end.
Definition is_HPublish (pc : hedgePc) : bool := match pc with HPublish _ => true | _ => false end.
Definition is_HDisk (pc : hedgePc) : bool := match pc with HDisk _ => true | _ => false end.

Definition closed_done m id : bool := from_option t_closed false (obj m id).

Definition enabled (l : label) m : Prop :=
  match l with
  | LReleaseCommit hid _ => hid ∈ m_releasing m
  | LRead rid _ _ _ _ => m_reads m !! rid = None
  | LGet rid _ => at_pc m rid (λ pc, is_RGet pc = true)
  | LEnsure rid _ => at_pc m rid (λ pc, is_REnsure pc = true)
  | LLock rid => at_pc m rid (λ pc, is_RLock pc = true)
  | LMark rid => at_pc m rid (λ pc, is_RMark pc = true)
  | LWaited rid =>
      at_pc m rid (λ pc, match pc with RWait id => closed_done m id = true | _ => False end)
  | LCtxDone rid _ => at_pc m rid (λ pc, is_RDone pc = false)
  | LNext _ => (0 < m_idle m)%nat ∧ m_closed m = false
  | LAttempt id _ => at_worker m id is_WRead = true
  | LWorkerPut id => at_worker m id is_WPut = true
  | LWorkerCommit id _ => at_worker m id is_WCommit = true
  | LWorkerDisk id => at_worker m id is_WDisk = true
  | LWorkerExit => (0 < m_idle m)%nat ∧ m_closed m = true
  | LHedge id => Hedge (m_cfg m) = true ∧
                 Exists (λ p, waits_for id p.2 = true) (map_to_list (m_reads m))
  | LHedgeReply id _ => at_hedge m id is_HRead = true
  | LHedgePut id => at_hedge m id is_HPut = true
  | LHedgePublish id => at_hedge m id is_HPublish = true
  | LHedgeDisk id => at_hedge m id is_HDisk = true
  | LDiskWriter _ => m_diskWrites m ≠ []
  | LCloseDone => m_closed m = true ∧ all_done m
  | _ => True
  end.

(** A worker that is through with its task waits for the next. *)
Definition worker_free id m : manager S := m <| m_running ::= delete id |> <| m_idle ::= Datatypes.S |>.
Definition worker_at id (pc : workerPc) m : manager S := m <| m_running ::= <[id := pc]> |>.
Definition hedge_at id (pc : hedgePc) m : manager S := m <| m_hedging ::= <[id := pc]> |>.
Definition hedge_gone id m : manager S := m <| m_hedging ::= delete id |>.

(** The section of [scheduleBuffer] under the mutex. *)
Definition scheduleWindow (file : File) (cursor epoch : Z) m : manager S :=
  match buffer_range (m_cfg m) file cursor with
  | None => m
  | Some p =>
      let ver := versionOf m file in
      match m_sessions m !! ver with
      | None => m
      | Some s => if decide (se_epoch s ≠ epoch ∨ activeHandle s = 0) then m
                  else set_session ver (update_window p epoch) m
      end
  end.

(** The entry of [readAt]: nothing is read when the answer is immediate.  Then
    the slice of chunks is made, which panics when the end of the read wraps. *)
Definition readAt_begin rid (hid offset length now : Z) m : option (manager S) :=
  match m_handles m !! hid with
  | None => Some m
  | Some h =>
      match readAt_clip (hd_file h) offset length with
      | Ok (Some length) =>
          let cs := ChunkSize (m_cfg m) in
          match prepareRead hid offset length now m with
          | (m, Ok p) =>
              let r := mkRead (hd_file h) offset length (pr_epoch p) (pr_mode p) (pr_stream p) [] RGet in
              if makeslice sizeof_slice (chunk_count cs r)
              then Some (m <| m_reads ::= <[rid := r]> |>) else None
          | (m, Err _) => Some m
          end
      | _ => Some m
      end
  end.

(** One [store.get] of [waitChunk], or the copy once every chunk is there, into
    a slice that is made then. *)
Definition reader_get rid (touch : readCall → bool) (miss : readerPc) io m : option (manager S) :=
  r ← m_reads m !! rid;
  let cs := ChunkSize (m_cfg m) in
  if decide (last_chunk cs r < next_chunk m r) then
    if makeslice 1 (rd_length r) then
      Some (set_read rid (go_to (RDone (assemble cs (rd_offset r) (rd_length r) (first_chunk cs r)
                                         (rd_chunks r) []))) m)
    else None
  else
    let '(store, hit) := cc_get io (next_key m r) (touch r) (m_store m) in
    let m := m <| m_store := store |> in
    Some (set_read rid (match hit with Some data => got_chunk data | None => go_to miss end) m).

Definition reader_lock rid m : option (manager S) :=
  r ← m_reads m !! rid;
  '(m, e) ← ensureTask_locked (rd_file r) (next_chunk m r) (rd_epoch r) priorityForeground m;
  Some (set_read rid (match e with
                      | EClosed => go_to (RDone (Err ErrClosed))
                      | EVirtual data => got_chunk data
                      | ETask id => go_to (RMark id)
                      end) m).

Definition reader_mark rid m : option (manager S) :=
  r ← m_reads m !! rid;
  match rd_pc r with
  | RMark id => Some (set_read rid (go_to (RWait id)) (markForeground id m))
  | _ => None
  end.

Definition reader_waited rid m : option (manager S) :=
  r ← m_reads m !! rid;
  match rd_pc r with
  | RWait id =>
      t ← obj m id;
      Some (set_read rid (match t_err t with
                          | None => got_chunk (t_data t)
                          | Some e => go_to (RDone (Err e))
                          end) m)
  | _ => None
  end.

Definition worker_step id (f : workerPc → option (manager S)) m : option (manager S) :=
  m_running m !! id ≫= f.
Definition hedge_step id (f : hedgePc → option (manager S)) m : option (manager S) :=
  m_hedging m !! id ≫= f.
Definition key_of m id : option chunkKey := t_key <$> obj m id.

Definition worker_commit id (latency : Z) (r : result streamErr bytes) m : option (manager S) :=
  '(m, first) ← finishTask_locked id r latency m;
  match r, first with
  | Ok data, true => Some (worker_at id (WDisk data) m)
  | _, _ => Some (worker_free id m)
  end.
Definition hedge_publish id (data : bytes) m : option (manager S) :=
  '(m, first) ← publishHedge_locked id data m;
  Some (if (first : bool) then hedge_at id (HDisk data) m else hedge_gone id m).

Definition take_next now m : option (manager S) :=
  '(m, found) ← nextTask now m;
  Some (match found with
        | Some id => worker_at id (WRead 0) m <| m_idle ::= Nat.pred |>
        | None => m
        end).

Definition perform (l : label) m : option (manager S) :=
  match l with
  | LOpen file now => Some (Open file now m).1
  | LReleaseMark hid => Some (Release_mark hid m)
  | LReleaseCommit hid now => Some (Release_commit hid now m)
  | LRead rid hid offset length now => readAt_begin rid hid offset length now m
  | LGet rid io => reader_get rid touchCache REnsure io m
  | LEnsure rid io => reader_get rid (λ _, true) RLock io m
  | LLock rid => reader_lock rid m
  | LMark rid => reader_mark rid m
  | LWaited rid => reader_waited rid m
  | LCtxDone rid e => Some (set_read rid (go_to (RDone (Err e))) m)
  | LWindow file cursor epoch => Some (scheduleWindow file cursor epoch m)
  | LBackground file index epoch prio => fst <$> ensureTask_locked file index epoch prio m
  | LStoreGet io key touch => Some (m <| m_store ::= λ s, (cc_get io key touch s).1 |>)
  | LStoreLength key => Some (m <| m_store ::= λ s, (cc_length key s).1 |>)
  | LPrune ver a b => Some (m <| m_store ::= cc_prune ver a b |>)
  | LRemoveRange ver a b => Some (m <| m_store ::= cc_remove_range ver a b |>)
  | LNext now => take_next now m
  | LAttempt id reply =>
      worker_step id (λ pc, match pc with
        | WRead k => '(m, pc) ← download_attempt id k reply m; Some (worker_at id pc m)
        | _ => None end) m
  | LWorkerPut id =>
      worker_step id (λ pc, match pc with
        | WPut r => key ← key_of m id; Some (worker_at id (WCommit r) (put_result key r m))
        | _ => None end) m
  | LWorkerCommit id latency =>
      worker_step id (λ pc, match pc with
        | WCommit r => worker_commit id latency r m | _ => None end) m
  | LWorkerDisk id =>
      worker_step id (λ pc, match pc with
        | WDisk data => key ← key_of m id; m ← queueDiskWrite key data m; Some (worker_free id m)
        | _ => None end) m
  | LWorkerExit => Some (m <| m_idle ::= Nat.pred |>)
  | LHedge id => fst <$> startHedge id m
  | LHedgeReply id reply =>
      hedge_step id (λ pc, t ← obj m id;
        Some (match judge (t_length t) reply with
              | Ok data => hedge_at id (HPut data) m
              | Err _ => hedge_gone id m end)) m
  | LHedgePut id =>
      hedge_step id (λ pc, match pc with
        | HPut data => key ← key_of m id; Some (hedge_at id (HPublish data) (put_result key (Ok data) m))
        | _ => None end) m
  | LHedgePublish id =>
      hedge_step id (λ pc, match pc with HPublish data => hedge_publish id data m | _ => None end) m
  | LHedgeDisk id =>
      hedge_step id (λ pc, match pc with
        | HDisk data => key ← key_of m id; m ← queueDiskWrite key data m; Some (hedge_gone id m)
        | _ => None end) m
  | LDiskWriter io => Some (diskWriter io m)
  | LIdle epoch now => Some (reclaimIdleMemory epoch now m).1
  | LSummary file now => Some (maybeLogSummary file now m)
  | LClose => Some (Close_begin m)
  | LCloseDone => Some (Close_finish m)
  end.

(** The steps that panic in a [make] of [readAt]: a read of an open handle that
    is neither refused nor answered at once and whose slice of chunks cannot be
    made, and the last step of a read whose bytes cannot. *)
Definition make_panics (l : label) m : Prop :=
  match l with
  | LRead rid hid offset length now =>
      ∃ h len, m_handles m !! hid = Some h ∧ readAt_clip (hd_file h) offset length = Ok (Some len) ∧
        released h = false ∧ m_closed m = false ∧
        makeslice sizeof_slice
          (Z.quot (offset +! len -! 1) (ChunkSize (m_cfg m)) -! Z.quot offset (ChunkSize (m_cfg m)) +! 1) = false
  | LGet rid _ | LEnsure rid _ =>
      ∃ r, m_reads m !! rid = Some r ∧ last_chunk (ChunkSize (m_cfg m)) r < next_chunk m r ∧
        makeslice 1 (rd_length r) = false
  | _ => False
  end.

(** [NewManager]: the workers of [cfg] start idle. *)
Definition newManager (cfg : Config) (store : S) : manager S :=
  {| m_cfg := cfg; m_store := store; m_heap := mkHeap [] ∅; m_nextTask := 0;
     m_tasks := ∅; m_sessions := ∅; m_closed := false; m_sequence := 0; m_nextHandle := 0;
     m_diskWrites := []; m_diskClosed := false; m_latencies := ([], 0); m_idleTimer := None;
     m_idleEpoch := 0; m_lastActivity := 0; m_downloaded := 0; m_retries := 0; m_hedges := 0;
     m_handles := ∅; m_releasing := ∅; m_idle := Z.to_nat (Workers cfg); m_running := ∅;
     m_hedging := ∅; m_reads := ∅ |}.

Inductive reachable (m0 : manager S) : manager S → Prop :=
| reach_start : reachable m0 m0
| reach_step l m m' :
    reachable m0 m → enabled l m → perform l m = Some m' → reachable m0 m'.
End steps.

(** [NewManager] on the cache directory [d]: the settings are normalised, then
    the chunk store is opened. *)
Definition NewManager (io : diskIO) (cfg : Config) (d : gmap string dirFile)
    : option (manager chunkStore) :=
  cfg ← normalize cfg;
  match newChunkStore io (MemoryCache cfg) (CachePath cfg) (DiskCache cfg) d with
  | Ok store => Some (newManager cfg store)
  | Err _ => None
  end.
