(* ===== verification/ManagerTable.v ===== *)
(** * The manager's task table, queue and goroutines fit together

    The invariant [tasks_wf]: every task of the table is unfinished, every live
    task is in the table under its key, every unfinished task is in the queue
    or held by a worker, done channels are closed exactly when a task is
    finished, and the queue is an ordered heap with exact back pointers.  The
    operations keep it and never panic. *)
From S2P Require Import Prelude GoList GoStrings ChunkKeys ChunkStore ChunkCache TaskHeap StreamConfig Access Manager ManagerTasks ManagerSteps.

(** A heap's shape only depends on the rank and index of its tasks. *)
Definition heap_fields (t : task) : Z * (Z * Z) := (t_index t, rank t).

Lemma heap_wf_objs h objs' :
  (∀ id, id ∈ h_queue h → heap_fields <$> objs' !! id = heap_fields <$> h_objs h !! id) →
  heap_wf h → heap_wf (mkHeap (h_queue h) objs').
Proof.
  intros Hf [[Hnd Hi] Ho].
  assert (∀ p, (p < Len h)%nat → pos_rank (mkHeap (h_queue h) objs') p = pos_rank h p) as Hr.
  { intros p [id Hid]%lookup_lt_is_Some_2. rewrite (pos_rank_id h p id Hid).
    rewrite (pos_rank_id (mkHeap (h_queue h) objs') p id Hid). cbn.
    apply list_elem_of_lookup_2 in Hid. specialize (Hf id Hid). unfold id_rank.
    destruct (objs' !! id), (h_objs h !! id); try done. cbn in *. unfold heap_fields in Hf. congruence. }
  split; [split; [done|]|].
  - intros p id Hid. cbn in *. specialize (Hi p id Hid).
    apply list_elem_of_lookup_2 in Hid. specialize (Hf id Hid).
    destruct (objs' !! id), (h_objs h !! id); try done. cbn in *. unfold heap_fields in Hf. congruence.
  - intros k Hk. unfold in_order. change (Len (mkHeap (h_queue h) objs')) with (Len h) in Hk.
    rewrite !Hr by (unfold parent; lia). by apply Ho.
Qed.

Section table.
Context {S : Type} `{!ChunkCache S}.
Implicit Types (m : manager S) (id rid : nat) (t : task).

Definition awaits (pc : readerPc) id : Prop := pc = RMark id ∨ pc = RWait id.

(** [X]: tasks taken off the queue by a [nextTask] that has not returned. *)
Record tasks_wf_but (X : list nat) m : Prop := {
  tw_heap : heap_wf (m_heap m);
  tw_fresh id t : obj m id = Some t → (id < m_nextTask m)%nat;
  tw_table k id : m_tasks m !! k = Some id →
    ∃ t, obj m id = Some t ∧ t_key t = k ∧ t_finished t = false;
  tw_live id t : obj m id = Some t → t_finished t = false → t_canceled t = false →
    m_tasks m !! t_key t = Some id;
  tw_queue id t : obj m id = Some t → t_finished t = false → t_started t = false →
    id ∈ h_queue (m_heap m) ∨ id ∈ X;
  tw_unstarted id t : obj m id = Some t → id ∈ h_queue (m_heap m) ∨ id ∈ X → t_started t = false;
  tw_closed id t : obj m id = Some t → t_closed t = t_finished t;
  tw_running id pc : m_running m !! id = Some pc →
    ∃ t, obj m id = Some t ∧ t_started t = true;
  tw_started id t : obj m id = Some t → t_started t = true → t_finished t = false →
    ∃ pc, m_running m !! id = Some pc ∧ is_WDisk pc = false;
  tw_hedging id pc : m_hedging m !! id = Some pc → ∃ t, obj m id = Some t ∧ t_hedged t = true;
  tw_reads rid r id : m_reads m !! rid = Some r → awaits (rd_pc r) id → is_Some (obj m id);
  tw_skip : NoDup X ∧ ∀ id, id ∈ X → id ∉ h_queue (m_heap m) ∧ is_Some (obj m id)
}.
Definition tasks_wf := tasks_wf_but [].

(** What the invariant reads of a manager. *)
Definition task_view m := (m_heap m, m_nextTask m, m_tasks m, m_running m, m_hedging m, m_reads m).
Lemma view_heap m m' : task_view m' = task_view m → m_heap m' = m_heap m.
Proof. by intros [= ? ? ? ? ? ?]. Qed.
Lemma view_obj m m' id : task_view m' = task_view m → obj m' id = obj m id.
Proof. unfold obj. by intros ->%view_heap. Qed.
Lemma tasks_wf_view X m m' : task_view m' = task_view m → tasks_wf_but X m → tasks_wf_but X m'.
Proof.
  intros Hv Hwf. destruct m, m'. cbn in Hv. injection Hv as -> -> -> -> -> ->.
  destruct Hwf. by split.
Qed.

(** ** Updates of one task *)
Lemma obj_set_task m id f id' :
  obj (set_task id f m) id' = if decide (id' = id) then f <$> obj m id else obj m id'.
Proof.
  unfold obj. cbn. rewrite lookup_alter. repeat case_decide; congruence.
Qed.
Lemma view_set_task m id f :
  task_view (set_task id f m)
  = (mkHeap (h_queue (m_heap m)) (alter f id (h_objs (m_heap m))),
     m_nextTask m, m_tasks m, m_running m, m_hedging m, m_reads m).
Proof. done. Qed.

(** An update that keeps what the queue and the table depend on, and may
    only cancel. *)
Record soft (f : task → task) : Prop := {
  so_heap t : heap_fields (f t) = heap_fields t;
  so_key t : t_key (f t) = t_key t;
  so_started t : t_started (f t) = t_started t;
  so_finished t : t_finished (f t) = t_finished t;
  so_closed t : t_closed (f t) = t_closed t;
  so_canceled t : t_canceled t = true → t_canceled (f t) = true;
  so_hedged t : t_hedged t = true → t_hedged (f t) = true
}.

Lemma set_task_soft X m id f : soft f → tasks_wf_but X m → tasks_wf_but X (set_task id f m).
Proof.
  intros [Fh Fk Fs Ff Fc Fx Fd] [W1 W2 W3 W4 W5 W6 W7 W8 W9 W10 W11 W12].
  assert (∀ id' t', obj (set_task id f m) id' = Some t' → ∃ t, obj m id' = Some t ∧
    t_key t' = t_key t ∧ t_started t' = t_started t ∧ t_finished t' = t_finished t ∧
    t_closed t' = t_closed t ∧ (t_canceled t' = false → t_canceled t = false)) as Hb.
  { intros id' t'. rewrite obj_set_task. case_decide as Hd; [subst|].
    - intros (t & Ht & ->)%fmap_Some. exists t. split_and!; try done.
      intros Hc. destruct (t_canceled t) eqn:E; [|done]. by rewrite (Fx t E) in Hc.
    - intros H. exists t'. done. }
  assert (∀ id' t, obj m id' = Some t → ∃ t', obj (set_task id f m) id' = Some t' ∧
    t_key t' = t_key t ∧ t_started t' = t_started t ∧ t_finished t' = t_finished t ∧
    (t_hedged t = true → t_hedged t' = true)) as Hf.
  { intros id' t Ht. rewrite obj_set_task. case_decide; [subst|by exists t].
    exists (f t). rewrite Ht. split_and!; auto. }
  split.
  - change (m_heap (set_task id f m)) with (mkHeap (h_queue (m_heap m)) (alter f id (h_objs (m_heap m)))).
    apply heap_wf_objs; [|done]. intros id' _. rewrite lookup_alter. case_decide; [subst|done].
    destruct (h_objs (m_heap m) !! id'); cbn; [by rewrite Fh|done].
  - intros id' t' (t & Ht & _)%Hb. by eapply W2.
  - intros k id' (t & Ht & Hk & Hfin)%W3. destruct (Hf _ _ Ht) as (t' & Ht' & Ek & Es & Ef & _).
    exists t'. split_and!; congruence.
  - intros id' t' (t & Ht & -> & _ & -> & _ & Hc)%Hb Hfin Hcan. apply W4; auto.
  - intros id' t' (t & Ht & _ & -> & -> & _)%Hb. by apply W5.
  - intros id' t' (t & Ht & _ & -> & _)%Hb. by apply W6.
  - intros id' t' (t & Ht & _ & _ & -> & -> & _)%Hb. by eapply W7.
  - intros id' pc (t & Ht & Hs)%W8. destruct (Hf _ _ Ht) as (t' & Ht' & _ & Es & _).
    exists t'. split; congruence.
  - intros id' t' (t & Ht & _ & -> & -> & _)%Hb. by eapply W9.
  - intros id' pc (t & Ht & Hd)%W10. destruct (Hf _ _ Ht) as (t' & Ht' & _ & _ & _ & Hd'). exists t'. auto.
  - intros rid r id' Hr Hw. destruct (W11 _ _ _ Hr Hw) as [t Ht].
    destruct (Hf _ _ Ht) as (t' & Ht' & _). by exists t'.
  - destruct W12 as [Hnd Hx]. split; [done|]. intros id' Hin. destruct (Hx id' Hin) as [Hq [t Ht]].
    split; [done|]. destruct (Hf _ _ Ht) as (t' & Ht' & _). by exists t'.
Qed.

Lemma soft_cancel P `{!∀ t, Decision (P t)} :
  soft (λ t, if decide (P t) then t <| t_canceled := true |> else t).
Proof. split; intros t; cbv beta; case_decide; done. Qed.
Lemma soft_foreground : soft (λ t, if t_finished t then t else t <| t_foreground := true |>).
Proof. split; intros t; cbv beta; destruct (t_finished t) eqn:E; done. Qed.
Lemma soft_hedged : soft (λ t, t <| t_hedged := true |> <| t_hedgeCancel := true |>).
Proof. by split. Qed.
Lemma soft_unhedge : soft (λ t, t <| t_hedgeCancel := false |>).
Proof. by split. Qed.

(** Canceling any set of tasks. *)
Lemma cancel_tasks_wf X P `{!∀ t, Decision (P t)} m :
  tasks_wf_but X m → tasks_wf_but X (cancel_tasks P m).
Proof.
  intros Hwf. unfold cancel_tasks.
  induction (map_to_list (m_tasks m)) as [|[k id] l IH]; cbn [foldr]; [done|].
  apply set_task_soft; [apply soft_cancel|done].
Qed.

(** ** Views of the operations that do not touch tasks *)
Lemma view_set_session ver f m : task_view (set_session ver f m) = task_view m.
Proof. done. Qed.
Lemma view_sessionLocked file now m : task_view (sessionLocked file now m) = task_view m.
Proof. unfold sessionLocked. by destruct (m_sessions m !! _). Qed.
Lemma view_cleanup ver m : task_view (cleanupSessionLocked ver m) = task_view m.
Proof. unfold cleanupSessionLocked. destruct (m_sessions m !! ver); by repeat case_decide. Qed.
Lemma view_scheduleIdle delay m : task_view (scheduleIdleReclaimAfterLocked delay m) = task_view m.
Proof. unfold scheduleIdleReclaimAfterLocked. by destruct (m_closed m). Qed.
Lemma view_markActivity now m : task_view (markActivityLocked now m) = task_view m.
Proof.
  unfold markActivityLocked. destruct (m_closed m); [done|]. cbn.
  destruct (m_idleTimer m); [done|]. by rewrite view_scheduleIdle.
Qed.
Lemma view_reclaimIdle epoch now m : task_view (reclaimIdleMemory epoch now m).1 = task_view m.
Proof.
  unfold reclaimIdleMemory. case_decide; [done|].
  repeat (case_decide; [cbn [fst]; by rewrite view_scheduleIdle|]). by destruct (cc_clear _).
Qed.
Lemma view_Open file now m : task_view (Open file now m).1 = task_view m.
Proof.
  unfold Open. case_decide; [done|]. cbn. etrans; [|apply view_markActivity].
  exact (view_sessionLocked file now (markActivityLocked now m)).
Qed.
Lemma view_Release_mark hid m : task_view (Release_mark hid m) = task_view m.
Proof. unfold Release_mark. destruct (m_handles m !! hid); [|done]. by destruct (released _). Qed.
Lemma view_queueDiskWrite key data m m' :
  queueDiskWrite key data m = Some m' → task_view m' = task_view m.
Proof.
  unfold queueDiskWrite. case_decide; [by intros [= <-]|]. destruct (m_diskClosed m); [done|].
  case_decide; by intros [= <-].
Qed.
Lemma view_put_result key r m : task_view (put_result key r m) = task_view m.
Proof. by destruct r. Qed.
Lemma view_diskWriter io m : task_view (diskWriter io m) = task_view m.
Proof. unfold diskWriter. by destruct (m_diskWrites m). Qed.
Lemma view_scheduleWindow file cursor epoch m : task_view (scheduleWindow file cursor epoch m) = task_view m.
Proof.
  unfold scheduleWindow. destruct (buffer_range _ _ _); [|done].
  destruct (m_sessions m !! _); [|done]. by case_decide.
Qed.
Lemma view_summary file now m : task_view (maybeLogSummary file now m) = task_view m.
Proof. unfold maybeLogSummary. destruct (m_sessions m !! _); [|done]. by case_decide. Qed.

(** ** Ending a task *)
Record ends (f : task → task) : Prop := {
  en_heap t : heap_fields (f t) = heap_fields t;
  en_key t : t_key (f t) = t_key t;
  en_started t : t_started (f t) = t_started t;
  en_closed t : t_closed (f t) = t_closed t;
  en_finished t : t_finished (f t) = true;
  en_hedged t : t_hedged t = true → t_hedged (f t) = true
}.
Definition end_task id (f : task → task) (key : chunkKey) m : manager S :=
  forget_task key id (set_task id (λ t, (f t) <| t_closed := true |>) m).

Lemma set_task_compose id f g m :
  set_task id g (set_task id f m) = set_task id (λ t, g (f t)) m.
Proof.
  unfold set_task. cbn. do 2 f_equal. apply alter_alter_eq.
Qed.
Lemma forget_set_task key id id' f m :
  forget_task key id (set_task id' f m) = set_task id' f (forget_task key id m).
Proof. unfold forget_task. cbn. by case_decide. Qed.

Lemma close_after_end X m id t f :
  tasks_wf_but X m → obj m id = Some t → t_finished t = false → ends f →
  close_done id (forget_task (t_key t) id (set_task id f m)) = Some (end_task id f (t_key t) m).
Proof.
  intros Hwf Ht Hfin Hf. rewrite forget_set_task. unfold close_done. rewrite obj_set_task.
  rewrite decide_True by done.
  assert (obj (forget_task (t_key t) id m) id = Some t) as ->
    by (unfold forget_task; by case_decide).
  cbn. rewrite (en_closed _ Hf), (tw_closed _ _ Hwf _ _ Ht), Hfin.
  rewrite set_task_compose. unfold end_task. by rewrite forget_set_task.
Qed.

Lemma end_task_obj key m id f id' :
  obj (end_task id f key m) id'
  = if decide (id' = id) then (λ t, (f t) <| t_closed := true |>) <$> obj m id else obj m id'.
Proof.
  unfold end_task. rewrite forget_set_task, obj_set_task.
  unfold forget_task. by repeat case_decide.
Qed.
Lemma end_task_tasks key m id f k :
  m_tasks (end_task id f key m) !! k
  = if decide (k = key ∧ m_tasks m !! key = Some id) then None else m_tasks m !! k.
Proof.
  unfold end_task, forget_task. cbn. case_decide as H; cbn.
  - rewrite lookup_delete. repeat case_decide; naive_solver.
  - rewrite decide_False; [done|]. by intros [_ ?].
Qed.
Lemma end_task_view key m id f :
  m_nextTask (end_task id f key m) = m_nextTask m ∧ m_running (end_task id f key m) = m_running m ∧
  m_hedging (end_task id f key m) = m_hedging m ∧ m_reads (end_task id f key m) = m_reads m ∧
  m_heap (end_task id f key m)
  = mkHeap (h_queue (m_heap m)) (alter (λ t, (f t) <| t_closed := true |>) id (h_objs (m_heap m))).
Proof. unfold end_task, forget_task. by case_decide. Qed.

Lemma end_task_wf X m id t f :
  tasks_wf_but X m → obj m id = Some t → t_finished t = false → ends f →
  tasks_wf_but X (end_task id f (t_key t) m).
Proof.
  intros Hwf Ht Hfin [Fh Fk Fs Fc Ff Fd].
  destruct (end_task_view (t_key t) m id f) as (Vn & Vr & Vh & Vd & Vq).
  pose proof (end_task_obj (t_key t) m id f) as Vo.
  pose proof (end_task_tasks (t_key t) m id f) as Vt.
  set (m' := end_task id f (t_key t) m) in *. clearbody m'.
  assert (∀ id' t', obj m' id' = Some t' → ∃ t0, obj m id' = Some t0 ∧
    t_key t' = t_key t0 ∧ t_started t' = t_started t0 ∧ (id' = id → t_finished t' = true ∧ t_closed t' = true) ∧
    (id' ≠ id → t' = t0)) as Hb.
  { intros id' t'. rewrite Vo. destruct (decide (id' = id)) as [->|Hd]; [|intros H'; by exists t'].
    intros (t0 & Ht0 & ->)%fmap_Some. exists t0. split_and!; try done; cbn; by rewrite ?Fk, ?Fs, ?Ff. }
  assert (∀ id', is_Some (obj m id') → is_Some (obj m' id')) as Hsome.
  { intros id' [t0 Ht0]. rewrite Vo. destruct (decide (id' = id)) as [->|]; [rewrite Ht0; by eexists|by exists t0]. }
  destruct Hwf as [W1 W2 W3 W4 W5 W6 W7 W8 W9 W10 W11 W12].
  split; rewrite ?Vn, ?Vr, ?Vh, ?Vd.
  - rewrite Vq. apply heap_wf_objs; [|done]. intros id' _. rewrite lookup_alter.
    destruct (decide (id = id')) as [->|]; [|done]. destruct (h_objs (m_heap m) !! id'); cbn; [|done].
    f_equal. etrans; [|apply Fh]. done.
  - intros id' t' (t0 & Ht0 & _)%Hb. by eapply W2.
  - intros k id'. rewrite Vt. destruct (decide _) as [|Hd]; [done|]. intros Hk.
    destruct (W3 _ _ Hk) as (t0 & Ht0 & Hk0 & Hf0). exists t0. rewrite Vo, decide_False; [done|].
    intros ->. rewrite Ht in Ht0. injection Ht0 as <-. apply Hd. by rewrite Hk0.
  - intros id' t' (t0 & Ht0 & Hk0 & _ & H1 & H2)%Hb Hf0 Hc0.
    destruct (decide (id' = id)) as [->|Hne]; [by rewrite (proj1 (H1 eq_refl)) in Hf0|].
    specialize (H2 Hne). subst t'. rewrite Vt. rewrite decide_False; [by apply W4|].
    intros [Hk' Hid]. pose proof (W4 _ _ Ht0 Hf0 Hc0). congruence.
  - intros id' t' (t0 & Ht0 & _ & _ & H1 & H2)%Hb Hf0. rewrite Vq. cbn.
    destruct (decide (id' = id)) as [->|Hne]; [by rewrite (proj1 (H1 eq_refl)) in Hf0|].
    specialize (H2 Hne). subst t'. by eapply W5.
  - intros id' t' (t0 & Ht0 & _ & -> & _)%Hb. rewrite Vq. cbn. by apply W6.
  - intros id' t' (t0 & Ht0 & _ & _ & H1 & H2)%Hb.
    destruct (decide (id' = id)) as [->|Hne]; [by destruct (H1 eq_refl) as [-> ->]|].
    specialize (H2 Hne). subst t'. by eapply W7.
  - intros id' pc (t0 & Ht0 & Hs0)%W8.
    destruct (Hsome id') as [t' Ht']; [by exists t0|]. exists t'. split; [done|].
    destruct (Hb _ _ Ht') as (t1 & Ht1 & _ & -> & _). congruence.
  - intros id' t' (t0 & Ht0 & _ & -> & H1 & H2)%Hb Hs0 Hf0.
    destruct (decide (id' = id)) as [->|Hne]; [by rewrite (proj1 (H1 eq_refl)) in Hf0|].
    specialize (H2 Hne). subst t'. by eapply W9.
  - intros id' pc (t0 & Ht0 & Hd0)%W10. rewrite Vo.
    destruct (decide (id' = id)) as [->|]; [|by exists t0]. rewrite Ht0. eexists. split; [done|]. by apply Fd.
  - intros rid r id' Hr Hw. eapply Hsome, W11; done.
  - rewrite Vq. destruct W12 as [Hnd Hx]. split; [done|]. intros id' Hin.
    destruct (Hx id' Hin). cbn. auto.
Qed.
End table.
