(* ===== verification/ManagerQueue.v ===== *)
(** * The queue operations keep the task table's invariant

    [ensureTask], [nextTask] and the push, pop and fix they are made of:
    each keeps [tasks_wf] and none panics. *)
From S2P Require Import Prelude GoList GoStrings ChunkKeys ChunkStore ChunkCache TaskHeap StreamConfig Access Manager ManagerTasks ManagerSteps ManagerTable.

Section queue.
Context {S : Type} `{!ChunkCache S}.
Implicit Types (m : manager S) (id rid : nat) (t : task) (X : list nat).

Definition pending X m id : Prop := id ∈ h_queue (m_heap m) ∨ id ∈ X.

(** What the table's invariant reads of a task, the heap aside. *)
Definition core t : task := (but_index t) <| t_priority := priorityForeground |>.
Lemma core_Some (x : option task) t' :
  core <$> x = Some (core t') → ∃ t, x = Some t ∧ core t = core t'.
Proof. destruct x as [t|]; [|done]. intros H. apply (inj Some) in H. by exists t. Qed.
Lemma but_index_core (x y : option task) :
  but_index <$> x = but_index <$> y → core <$> x = core <$> y.
Proof.
  destruct x as [t|], y as [t'|]; try done. intros H. apply (inj Some) in H. cbn. unfold core.
  by rewrite H.
Qed.

(** Rearranging the queue: the objects change in their index alone, what is
    pending stays pending unless it is finished. *)
Lemma tasks_wf_requeue X X' m h :
  tasks_wf_but X m → heap_wf h →
  (∀ id, core <$> h_objs h !! id = core <$> obj m id) →
  (∀ id, id ∈ h_queue h ∨ id ∈ X' → pending X m id) →
  (∀ id t, obj m id = Some t → t_finished t = false → pending X m id →
     id ∈ h_queue h ∨ id ∈ X') →
  NoDup X' → (∀ id, id ∈ X' → id ∉ h_queue h) →
  tasks_wf_but X' (m <| m_heap := h |>).
Proof.
  intros [W1 W2 W3 W4 W5 W6 W7 W8 W9 W10 W11 W12] Hh Ho Hin Hout Hnd Hdis.
  set (m' := m <| m_heap := h |>).
  assert (∀ id t', obj m' id = Some t' → ∃ t, obj m id = Some t ∧ t_key t' = t_key t ∧
    t_started t' = t_started t ∧ t_finished t' = t_finished t ∧ t_closed t' = t_closed t ∧
    t_canceled t' = t_canceled t) as Hb.
  { intros id t' Ht'. specialize (Ho id). unfold obj in Ht'. cbn in Ht'. rewrite Ht' in Ho.
    symmetry in Ho. apply core_Some in Ho as (t & Ht & E). exists t.
    injection E as ???????????????. done. }
  assert (∀ id t, obj m id = Some t → ∃ t', obj m' id = Some t' ∧ t_key t' = t_key t ∧
    t_started t' = t_started t ∧ t_finished t' = t_finished t ∧ t_hedged t' = t_hedged t) as Hf.
  { intros id t Ht. specialize (Ho id). rewrite Ht in Ho.
    apply core_Some in Ho as (t' & Ht' & E). exists t'.
    injection E as ???????????????. done. }
  split.
  - done.
  - intros id' t' (t & Ht & _)%Hb. by eapply W2.
  - intros k id' (t & Ht & Hk & Hfin)%W3. destruct (Hf _ _ Ht) as (t' & Ht' & Ek & Es & Ef & _).
    exists t'. split_and!; congruence.
  - intros id' t' (t & Ht & -> & _ & -> & _ & ->)%Hb. by apply W4.
  - intros id' t' (t & Ht & _ & -> & -> & _)%Hb ??. eapply Hout; [done..|]. by eapply W5.
  - intros id' t' (t & Ht & _ & -> & _)%Hb Hp. eapply W6; [done|]. by apply Hin.
  - intros id' t' (t & Ht & _ & _ & -> & -> & _)%Hb. by eapply W7.
  - intros id' pc (t & Ht & Hs)%W8. destruct (Hf _ _ Ht) as (t' & Ht' & _ & Es & _).
    exists t'. split; congruence.
  - intros id' t' (t & Ht & _ & -> & -> & _)%Hb. by eapply W9.
  - intros id' pc (t & Ht & Hd)%W10. destruct (Hf _ _ Ht) as (t' & Ht' & _ & _ & _ & Hd'). exists t'. split; congruence.
  - intros rid r id' Hr Hw. destruct (W11 _ _ _ Hr Hw) as [t Ht].
    destruct (Hf _ _ Ht) as (t' & Ht' & _). by exists t'.
  - split; [done|]. intros id' Hid'. split; [by apply Hdis|].
    assert (is_Some (obj m id')) as [t Ht].
    { destruct (Hin id' (or_intror Hid')) as [Hq|Hx]; [|by apply W12].
      by apply (queue_wf_allocated _ (proj1 W1)). }
    destruct (Hf _ _ Ht) as (t' & Ht' & _). by exists t'.
Qed.

Lemma push_wf X id m :
  tasks_wf_but (id :: X) m →
  ∃ h, heap_push id (m_heap m) = Some h ∧ tasks_wf_but X (m <| m_heap := h |>).
Proof.
  intros Hwf. destruct (tw_skip _ _ Hwf) as [[Hid Hnd]%NoDup_cons Hx].
  destruct (Hx id (list_elem_of_here _ _)) as [Hq Hex].
  destruct (heap_push_spec id (m_heap m) (tw_heap _ _ Hwf) Hq Hex) as (h & -> & Hh & Hp & Ho & _).
  exists h. split; [done|]. eapply tasks_wf_requeue; try done.
  - intros id'. apply but_index_core, Ho.
  - intros id'. rewrite Hp. unfold pending. rewrite !elem_of_cons. tauto.
  - intros id' t _ _. rewrite Hp. unfold pending. rewrite !elem_of_cons. tauto.
  - intros id' Hin. rewrite Hp, elem_of_cons. intros [->|Hin']; [done|].
    by destruct (Hx id' (list_elem_of_further _ _ _ Hin)).
Qed.

Lemma push_all_wf X m :
  tasks_wf_but X m → ∃ m', push_all X m = Some m' ∧ tasks_wf m' ∧
    m' = m <| m_heap := m_heap m' |>.
Proof.
  unfold push_all. revert m. induction X as [|id X IH]; intros m Hwf.
  { exists m. split_and!; [done|done|by destruct m]. }
  destruct (push_wf X id m Hwf) as (h & Hh & Hwf'). cbn [foldl mbind option_bind]. rewrite Hh.
  cbn [mbind option_bind]. destruct (IH _ Hwf') as (m' & Hm' & Hok & E). exists m'.
  split_and!; [done|done|]. rewrite E. by destruct m.
Qed.

Lemma pop_wf X m :
  tasks_wf_but X m → h_queue (m_heap m) ≠ [] →
  ∃ id h t, heap_pop (m_heap m) = Some (id, h) ∧ tasks_wf_but (id :: X) (m <| m_heap := h |>) ∧
    h_queue (m_heap m) ≡ₚ id :: h_queue h ∧ obj (m <| m_heap := h |>) id = Some t ∧
    t_started t = false.
Proof.
  intros Hwf Hne. destruct (heap_pop_spec _ (tw_heap _ _ Hwf) Hne)
    as (id & h & Hpop & Hh & Hp & Ho & _).
  destruct (tw_skip _ _ Hwf) as [Hnd Hx].
  pose proof (qw_NoDup _ (proj1 (tw_heap _ _ Hwf))) as Hndq. rewrite Hp in Hndq.
  apply NoDup_cons in Hndq as [Hidq Hndq].
  assert (tasks_wf_but (id :: X) (m <| m_heap := h |>)) as Hwf'.
  { eapply tasks_wf_requeue; try done.
    - intros id'. apply but_index_core, Ho.
    - intros id'. unfold pending. rewrite Hp, !elem_of_cons. tauto.
    - intros id' t _ _. unfold pending. rewrite Hp, !elem_of_cons. tauto.
    - apply NoDup_cons. split; [|done]. intros Hin%Hx. destruct Hin as [Hin _]. apply Hin.
      rewrite Hp. by left.
    - intros id' [->|Hin]%elem_of_cons; [done|]. apply Hx in Hin as [Hin _].
      intros Hc. apply Hin. rewrite Hp. by right. }
  destruct (tw_skip _ _ Hwf') as [_ Hx']. destruct (Hx' id (list_elem_of_here _ _)) as [_ [t Ht]].
  exists id, h, t. split_and!; try done. eapply tw_unstarted; [exact Hwf'|done|]. right. by left.
Qed.

(** A finished task need not go back to the queue. *)
Lemma drop_wf X id t m :
  tasks_wf_but (id :: X) m → obj m id = Some t → t_finished t = true → tasks_wf_but X m.
Proof.
  intros Hwf Ht Hfin. destruct (tw_skip _ _ Hwf) as [[Hid Hnd]%NoDup_cons Hx].
  assert (tasks_wf_but X (m <| m_heap := m_heap m |>)) as Hw.
  { eapply tasks_wf_requeue; [exact Hwf|apply Hwf|done| | |done|].
    - intros id'. unfold pending. rewrite elem_of_cons. tauto.
    - intros id' t' Ht' Hf'. unfold pending. rewrite elem_of_cons.
      intros [?|[->|?]]; [by left| |by right]. congruence.
    - intros id' Hin. by apply (Hx id' (list_elem_of_further _ _ _ Hin)). }
  by destruct m.
Qed.

Lemma discard_wf X id t m :
  tasks_wf_but X m → obj m id = Some t →
  ∃ m', discardCanceledTaskLocked id m = Some m' ∧ tasks_wf_but X m' ∧
    h_queue (m_heap m') = h_queue (m_heap m) ∧
    (∃ t', obj m' id = Some t' ∧ t_finished t' = true).
Proof.
  intros Hwf Ht. unfold discardCanceledTaskLocked. rewrite Ht. cbn [mbind option_bind].
  destruct (t_finished t) eqn:Hfin; [by exists m; eauto 6|].
  assert (ends (finish_with (t_data t) (Some ErrCanceled))) as He by by split.
  rewrite (close_after_end X _ _ t) by done. cbn [mbind option_bind].
  pose proof (end_task_wf X m id t _ Hwf Ht Hfin He) as Hwf'.
  set (m' := end_task _ _ _ _) in *. eexists. split; [done|].
  pose proof (view_cleanup (version (t_key t)) m') as Hv.
  split_and!.
  - by eapply tasks_wf_view.
  - rewrite (view_heap _ _ Hv). subst m'.
    by rewrite (proj2 (proj2 (proj2 (proj2 (end_task_view _ m id _))))).
  - rewrite (view_obj _ _ id Hv). unfold m'. rewrite end_task_obj, decide_True, Ht by done.
    by eexists.
Qed.

Lemma start_wf X id t now m :
  tasks_wf_but (id :: X) m → obj m id = Some t → t_finished t = false →
  tasks_wf_but X (worker_at id (WRead 0) (start_task id (version (t_key t)) now m)).
Proof.
  intros Hwf Ht Hfin. destruct (tw_skip _ _ Hwf) as [[Hid Hnd]%NoDup_cons Hx].
  destruct (Hx id (list_elem_of_here _ _)) as [Hq _].
  set (F := λ t : task, t <| t_started := true |> <| t_startedAt := now |>).
  assert (∀ id', obj (worker_at id (WRead 0) (start_task id (version (t_key t)) now m)) id'
    = if decide (id' = id) then Some (F t) else obj m id') as Ho.
  { intros id'. etrans; [apply (obj_set_task m id F)|]. by rewrite Ht. }
  set (m' := worker_at _ _ _) in *.
  assert (m_heap m' = mkHeap (h_queue (m_heap m)) (alter F id (h_objs (m_heap m)))) as Hh by done.
  assert (m_running m' = <[id := WRead 0]> (m_running m)) as Hr by done.
  destruct Hwf as [W1 W2 W3 W4 W5 W6 W7 W8 W9 W10 W11 W12].
  split; rewrite ?Hr; change (m_nextTask m') with (m_nextTask m);
    change (m_tasks m') with (m_tasks m); change (m_hedging m') with (m_hedging m);
    change (m_reads m') with (m_reads m); setoid_rewrite Ho || rewrite Hh; rewrite ?Hh; cbn [h_queue].
  - apply heap_wf_objs; [|done]. intros id' Hin. rewrite lookup_alter_ne; [done|]. by intros ->.
  - intros id' t'. case_decide; [subst|by apply W2]. intros _. by eapply W2.
  - intros k id' (t' & Ht' & Hk & Hf)%W3. case_decide; [subst|by exists t'].
    rewrite Ht in Ht'. injection Ht' as <-. by exists (F t).
  - intros id' t'. case_decide; [subst|by apply W4]. intros [= <-]. exact (W4 _ _ Ht).
  - intros id' t'. case_decide; [by intros [= <-]|]. intros Ht' Hf' Hs'.
    destruct (W5 _ _ Ht' Hf' Hs') as [?|[?|?]%elem_of_cons]; [by left|done|by right].
  - intros id' t'. case_decide; [subst|].
    + intros _ [?|?]; done.
    + intros Ht' Hp. eapply W6; [done|]. rewrite elem_of_cons. tauto.
  - intros id' t'. case_decide; [subst|by apply W7]. intros [= <-]. exact (W7 _ _ Ht).
  - intros id' pc. rewrite lookup_insert. case_decide; [subst|].
    + intros _. rewrite decide_True by done. by exists (F t).
    + rewrite decide_False by done. by apply W8.
  - intros id' t'. rewrite lookup_insert. case_decide; [subst|].
    + rewrite decide_True by done. intros _ _ _. by exists (WRead 0).
    + rewrite decide_False by done. by apply W9.
  - intros id' pc (t' & Ht' & Hd)%W10. case_decide; [subst|by exists t'].
    rewrite Ht in Ht'. injection Ht' as <-. by exists (F t).
  - intros rid r id' Hr' Hw. destruct (W11 _ _ _ Hr' Hw) as [t' Ht'].
    case_decide; [by eexists|by exists t'].
  - split; [done|]. intros id' Hin. destruct (Hx id' (list_elem_of_further _ _ _ Hin)) as [? [t' ?]].
    split; [done|]. case_decide; [by eexists|by exists t'].
Qed.

Lemma tasks_wf_perm X X' m : X ≡ₚ X' → tasks_wf_but X m → tasks_wf_but X' m.
Proof.
  intros Hp Hwf. destruct (tw_skip _ _ Hwf) as [Hnd Hx].
  assert (tasks_wf_but X' (m <| m_heap := m_heap m |>)) as Hw; [|by destruct m].
  eapply tasks_wf_requeue; [exact Hwf|apply Hwf|done| | | |].
  - intros id'. unfold pending. by rewrite Hp.
  - intros id' t _ _. unfold pending. by rewrite Hp.
  - by rewrite <- Hp.
  - intros id'. rewrite <- Hp. apply Hx.
Qed.

(** ** Choosing the next task *)
Lemma id_rank_obj m id : id_rank (h_objs (m_heap m)) id = from_option rank (0, 0) (obj m id).
Proof. done. Qed.
Definition eligible m id : Prop :=
  ∃ t, obj m id = Some t ∧ t_finished t = false ∧ t_canceled t = false ∧ ¬ over_limit m t.
Definition limits_ok m : Prop := 0 < Workers (m_cfg m) ∧ 0 < SessionWorkers (m_cfg m).

Lemma limit_pos m : limits_ok m → 0 < sessionWorkerLimitLocked m.
Proof. intros [? ?]. unfold sessionWorkerLimitLocked. by case_decide. Qed.

Lemma cleanup_cases ver m :
  cleanupSessionLocked ver m = m ∨
  ∃ s, m_sessions m !! ver = Some s ∧ refs s ≤ 0 ∧ inflight s ≤ 0 ∧ ¬ version_busy ver m ∧
    cleanupSessionLocked ver m = m <| m_sessions ::= delete ver |>.
Proof.
  unfold cleanupSessionLocked. destruct (m_sessions m !! ver) as [s|]; [|by left].
  case_decide; [by left|]. case_decide; [by left|]. right. exists s. split_and!; [done|lia|lia|done|done].
Qed.

Lemma over_limit_cleanup ver m t :
  limits_ok m → over_limit (cleanupSessionLocked ver m) t ↔ over_limit m t.
Proof.
  intros Hl. destruct (cleanup_cases ver m) as [->|(s & Hs & Hr & Hi & _ & ->)]; [done|].
  set (m' := m <| m_sessions ::= delete ver |>).
  assert (sessionWorkerLimitLocked m' = sessionWorkerLimitLocked m) as Hlim.
  { unfold sessionWorkerLimitLocked. cbn.
    assert (length (filter (λ p, 0 < refs p.2 ∧ activeHandle p.2 ≠ 0) (map_to_list (m_sessions m)))
      = length (filter (λ p, 0 < refs p.2 ∧ activeHandle p.2 ≠ 0) (map_to_list (delete ver (m_sessions m)))))
      as ->; [|done].
    rewrite <- (map_to_list_delete (m_sessions m) ver s) by done. rewrite filter_cons.
    cbn. rewrite decide_False by lia. done. }
  pose proof (limit_pos m Hl). unfold over_limit. rewrite Hlim. subst m'. cbn.
  rewrite lookup_delete. case_decide as Hv; [|done]. subst. rewrite Hs.
  split; [done|]. intros [_ ?]. lia.
Qed.

Lemma eligible_same m m' id :
  m_sessions m' = m_sessions m → m_cfg m' = m_cfg m →
  but_index <$> obj m' id = but_index <$> obj m id → eligible m' id ↔ eligible m id.
Proof.
  intros Hs Hc Ho. unfold eligible, over_limit, sessionWorkerLimitLocked. rewrite Hs, Hc.
  destruct (obj m' id) as [t'|], (obj m id) as [t|]; try done.
  - cbn in Ho. apply (inj Some) in Ho.
    assert (t_finished t' = t_finished t ∧ t_canceled t' = t_canceled t ∧ t_key t' = t_key t ∧
            t_priority t' = t_priority t) as (E1 & E2 & E3 & E4)
      by (unfold but_index in Ho; cbn in Ho; injection Ho as ????????????????; done).
    split; intros (t0 & [= <-] & H); eexists; (split; [done|]); revert H; by rewrite E1, E2, E3, E4.
Qed.

Lemma discard_eligible X id t m m' id' :
  tasks_wf_but X m → limits_ok m → obj m id = Some t → t_canceled t = true →
  discardCanceledTaskLocked id m = Some m' →
  (eligible m' id' ↔ eligible m id') ∧ id_rank (h_objs (m_heap m')) id' = id_rank (h_objs (m_heap m)) id'
  ∧ limits_ok m'.
Proof.
  intros Hwf Hl Ht Hc. unfold discardCanceledTaskLocked. rewrite Ht. cbn [mbind option_bind].
  destruct (t_finished t) eqn:Hfin; [by intros [= <-]|].
  rewrite (close_after_end X _ _ t) by (done || by split). cbn [mbind option_bind]. intros [= <-].
  set (F := finish_with (t_data t) (Some ErrCanceled)). set (m1 := end_task id F (t_key t) m).
  pose proof (end_task_obj (t_key t) m id F) as Ho. fold m1 in Ho.
  assert (m_cfg m1 = m_cfg m ∧ m_sessions m1 = m_sessions m) as [Ec Es]
    by (unfold m1, end_task, forget_task; by case_decide).
  assert (limits_ok m1) as Hl1 by (unfold limits_ok; by rewrite Ec).
  pose proof (view_cleanup (version (t_key t)) m1) as Hv.
  split_and!.
  - unfold eligible. setoid_rewrite over_limit_cleanup; [|done].
    rewrite (view_obj _ _ id' Hv), Ho. destruct (decide (id' = id)) as [->|].
    + rewrite Ht. split; intros (t0 & [= <-] & Hf & Hcan & _); [done|congruence].
    + unfold over_limit, sessionWorkerLimitLocked. by rewrite Ec, Es.
  - rewrite (view_heap _ _ Hv), !id_rank_obj, Ho.
    destruct (decide (id' = id)) as [->|]; [by rewrite Ht|done].
  - destruct (cleanup_cases (version (t_key t)) m1) as [->|(? & _ & _ & _ & _ & ->)]; done.
Qed.

(** The choice a worker makes among the tasks of the queue. *)
Definition chosen (m m' : manager S) (r : option nat) : Prop :=
  match r with
  | None => tasks_wf m' ∧ ∀ id, id ∈ h_queue (m_heap m) → ¬ eligible m id
  | Some id =>
      tasks_wf (worker_at id (WRead 0) m') ∧ id ∈ h_queue (m_heap m) ∧ eligible m id ∧
      ∀ id', id' ∈ h_queue (m_heap m) → eligible m id' →
        ¬ rank_lt (id_rank (h_objs (m_heap m)) id') (id_rank (h_objs (m_heap m)) id)
  end.

(** What the loop knows after popping [id] into state [m1]. *)
Lemma chosen_after_pop m m1 m' r id :
  h_queue (m_heap m) ≡ₚ id :: h_queue (m_heap m1) →
  (∀ id', eligible m1 id' ↔ eligible m id') →
  (∀ id', id_rank (h_objs (m_heap m1)) id' = id_rank (h_objs (m_heap m)) id') →
  ¬ eligible m id → chosen m1 m' r → chosen m m' r.
Proof.
  intros Hq He Hr Hid. destruct r as [x|]; cbn.
  - intros (H1 & H2 & H3 & H4). split_and!; [done|rewrite Hq; by right|by apply He|].
    intros id' Hin Hel. rewrite Hq in Hin. apply elem_of_cons in Hin as [->|Hin]; [done|].
    rewrite <- !Hr. apply H4; [done|by apply He].
  - intros [H1 H2]. split; [done|]. intros id' Hin Hel. rewrite Hq in Hin.
    apply elem_of_cons in Hin as [->|Hin]; [done|]. apply (H2 id' Hin). by apply He.
Qed.

(** Pushing back does not look at the workers. *)
Lemma push_all_worker X id pc m :
  push_all X (worker_at id pc m) = worker_at id pc <$> push_all X m.
Proof.
  unfold push_all. revert m. induction X as [|x X IH]; intros m; cbn [foldl mbind option_bind]; [done|].
  change (m_heap (worker_at id pc m)) with (m_heap m).
  destruct (heap_push x (m_heap m)) as [h|]; cbn [mbind option_bind]; [exact (IH (m <| m_heap := h |>))|].
  assert (∀ l, foldl (λ r id, m ← r; h ← heap_push id (m_heap m); Some (m <| m_heap := h |>))
    (None : option (manager S)) l = None) as -> by (induction l; done). done.
Qed.

Lemma next_loop_spec fuel X now m :
  tasks_wf_but X m → limits_ok m → (∀ id, id ∈ X → ¬ eligible m id) →
  (length (h_queue (m_heap m)) < fuel)%nat →
  ∃ m' r, next_loop fuel X now m = Some (m', r) ∧ chosen m m' r.
Proof.
  revert X m. induction fuel as [|fuel IH]; intros X m Hwf Hl Hsk Hf; [lia|]. cbn [next_loop].
  case_decide as Hq.
  { destruct (push_all_wf X m Hwf) as (m' & -> & Hwf' & _). cbn [mbind option_bind].
    exists m', None. split; [done|]. split; [done|]. rewrite Hq. intros id Hin.
    by apply not_elem_of_nil in Hin. }
  destruct (heap_pop_spec _ (tw_heap _ _ Hwf) Hq) as (id & h & Hpop & _ & _ & Ho & _ & _ & Hmin).
  destruct (pop_wf X m Hwf Hq) as (id0 & h0 & t & Hpop0 & Hwf1 & Hperm & Ht & Hst).
  rewrite Hpop in Hpop0. injection Hpop0 as <- <-. rewrite Hpop. cbn [mbind option_bind].
  set (m1 := m <| m_heap := h |>) in *. rewrite Ht. cbn [mbind option_bind].
  assert (∀ id', eligible m1 id' ↔ eligible m id') as Hel
    by (intros id'; by apply eligible_same; [done|done|apply Ho]).
  assert (∀ id', id_rank (h_objs (m_heap m1)) id' = id_rank (h_objs (m_heap m)) id') as Hrk
    by (intros id'; by apply but_index_rank).
  assert (length (h_queue (m_heap m1)) < fuel)%nat as Hf1
    by (rewrite Hperm in Hf; cbn in Hf; subst m1; cbn; lia).
  assert (∀ id', id' ∈ X → ¬ eligible m1 id') as Hsk1 by (intros id' Hin; rewrite Hel; by apply Hsk).
  destruct (t_finished t) eqn:Hfin; [|destruct (t_canceled t) eqn:Hcan; [|case_decide as Hov]].
  - destruct (IH X m1) as (m' & r & -> & Hc); [by eapply drop_wf|done|done|done|].
    exists m', r. split; [done|]. apply (chosen_after_pop m m1 _ _ id); try done.
    rewrite <- Hel. intros (t' & Ht' & ? & _). congruence.
  - destruct (discard_wf (id :: X) id t m1 Hwf1 Ht) as (m2 & Hd & Hwf2 & Hq2 & t2 & Ht2 & Hf2).
    rewrite Hd. cbn [mbind option_bind].
    assert (∀ id', (eligible m2 id' ↔ eligible m1 id') ∧
      id_rank (h_objs (m_heap m2)) id' = id_rank (h_objs (m_heap m1)) id' ∧ limits_ok m2) as Hd2
      by (intros id'; by eapply discard_eligible).
    destruct (IH X m2) as (m' & r & -> & Hc).
    + by eapply drop_wf.
    + apply (Hd2 0%nat).
    + intros id' Hin. rewrite (proj1 (Hd2 id')). by apply Hsk1.
    + by rewrite Hq2.
    + exists m', r. split; [done|]. apply (chosen_after_pop m m1 _ _ id); try done.
      * rewrite <- Hel. intros (t' & Ht' & _ & ? & _). congruence.
      * destruct r as [x|]; unfold chosen in Hc |- *; rewrite Hq2 in Hc.
        -- destruct Hc as (C1 & C2 & C3 & C4). split_and!; [done|done|by apply Hd2|].
           intros id' Hin Hel'. destruct (Hd2 id') as (E1 & E2 & _), (Hd2 x) as (_ & E3 & _).
           rewrite <- E2, <- E3. apply C4; [done|by apply E1].
        -- destruct Hc as (C1 & C2). split; [done|]. intros id' Hin. rewrite <- (proj1 (Hd2 id')).
           by apply C2.
  - destruct (IH (X ++ [id]) m1) as (m' & r & -> & Hc); [|done| |done|].
    + eapply tasks_wf_perm; [|exact Hwf1]. apply Permutation_cons_append.
    + intros id' [Hin| ->%list_elem_of_singleton]%elem_of_app; [by apply Hsk1|].
      intros (t' & Ht' & _ & _ & Hn). congruence.
    + exists m', r. split; [done|]. apply (chosen_after_pop m m1 _ _ id); try done.
      rewrite <- Hel. intros (t' & Ht' & _ & _ & Hn). congruence.
  - pose proof (start_wf X id t now m1 Hwf1 Ht Hfin) as Hwf2.
    destruct (push_all_wf X _ Hwf2) as (m3 & Hp & Hwf3 & _).
    set (m2 := start_task id (version (t_key t)) now m1) in *.
    rewrite push_all_worker in Hp. destruct (push_all X m2) as [m2'|]; [|done].
    injection Hp as <-. exists m2', (Some id). split; [done|].
    split_and!; [done|rewrite Hperm; by left|by apply Hel; exists t|].
    intros id' Hin _. by apply Hmin.
Qed.

(** ** [ensureTask] *)
Definition dead_or_absent (key : chunkKey) m : Prop :=
  ∀ id t, m_tasks m !! key = Some id → obj m id = Some t → t_finished t = true ∨ t_canceled t = true.

Lemma add_task_wf file i e p m :
  tasks_wf m → dead_or_absent (mkChunkKey (versionOf m file) i) m →
  ∃ m', add_task file i e p m = Some (m', ETask (m_nextTask m)) ∧ tasks_wf m' ∧
    (∀ id, but_index <$> obj m' id =
       but_index <$> (if decide (id = m_nextTask m) then Some (newTask m file i e p) else obj m id)) ∧
    ∃ h, m' = m <| m_sequence ::= λ n, n + 1 |> <| m_nextTask ::= Datatypes.S |>
                <| m_tasks ::= <[mkChunkKey (versionOf m file) i := m_nextTask m]> |> <| m_heap := h |>.
Proof.
  intros Hwf Hdead. unfold add_task. set (t := newTask m file i e p). set (id := m_nextTask m).
  set (m1 := _ <| m_heap ::= _ |>).
  assert (obj m id = None) as Hfresh.
  { destruct (obj m id) as [t'|] eqn:E; [|done]. pose proof (tw_fresh _ _ Hwf _ _ E). lia. }
  assert (∀ id', obj m1 id' = if decide (id' = id) then Some t else obj m id') as Ho.
  { intros id'. unfold obj. cbn. rewrite lookup_insert. repeat case_decide; congruence. }
  assert (tasks_wf_but [id] m1) as Hwf1.
  { assert (id ∉ h_queue (m_heap m)) as Hidq.
    { intros Hin. destruct (queue_wf_allocated _ (proj1 (tw_heap _ _ Hwf)) id Hin) as [? E].
      unfold obj in Hfresh. congruence. }
    destruct Hwf as [W1 W2 W3 W4 W5 W6 W7 W8 W9 W10 W11 W12].
    split; change (m_running m1) with (m_running m); change (m_hedging m1) with (m_hedging m);
      change (m_reads m1) with (m_reads m); change (m_nextTask m1) with (Datatypes.S id);
      change (m_tasks m1) with (<[t_key t := id]> (m_tasks m));
      change (h_queue (m_heap m1)) with (h_queue (m_heap m)).
    - change (m_heap m1) with (mkHeap (h_queue (m_heap m)) (<[id := t]> (h_objs (m_heap m)))).
      apply heap_wf_objs; [|done]. intros id' Hin. rewrite lookup_insert_ne; [done|congruence].
    - intros id' t'. rewrite Ho. case_decide; [lia|]. intros H'. specialize (W2 _ _ H'). lia.
    - intros k id'. rewrite lookup_insert, Ho. case_decide as Hk.
      + intros [= <-]. rewrite decide_True by done. exists t. by split_and!.
      + intros (t' & Ht' & ? & ?)%W3. rewrite decide_False by congruence. by exists t'.
    - intros id' t'. rewrite Ho. case_decide as Hd; [intros [= <-] _ _; subst; by rewrite lookup_insert_eq|].
      intros Ht' Hf Hc. rewrite lookup_insert_ne; [by apply W4|]. intros Hk.
      specialize (W4 _ _ Ht' Hf Hc). rewrite <- Hk in W4. destruct (Hdead _ _ W4 Ht'); congruence.
    - intros id' t'. rewrite Ho. case_decide; [intros; right; subst; by left|].
      intros Ht' Hf Hs. destruct (W5 _ _ Ht' Hf Hs) as [|?%not_elem_of_nil]; [by left|done].
    - intros id' t'. rewrite Ho. case_decide; [by intros [= <-]|]. intros Ht' Hp.
      eapply W6; [done|]. destruct Hp as [|?%list_elem_of_singleton]; [by left|done].
    - intros id' t'. rewrite Ho. case_decide; [by intros [= <-]|]. by apply W7.
    - intros id' pc (t' & Ht' & Hs)%W8. exists t'. rewrite Ho, decide_False by congruence. done.
    - intros id' t'. rewrite Ho. case_decide; [by intros [= <-]|]. by apply W9.
    - intros id' pc (t' & Ht' & Hd)%W10. exists t'. rewrite Ho, decide_False by congruence. done.
    - intros rid r id' Hr Hw. destruct (W11 _ _ _ Hr Hw) as [t' Ht'].
      exists t'. rewrite Ho, decide_False by congruence. done.
    - split; [apply NoDup_singleton|]. intros id' ->%list_elem_of_singleton. split; [done|].
      exists t. by rewrite Ho, decide_True. }
  destruct (heap_push_spec id (m_heap m1)) as (h & Hpush & _ & _ & Hb & _);
    [apply Hwf1|apply (tw_skip _ _ Hwf1); by left|by apply (tw_skip _ _ Hwf1); left|].
  destruct (push_wf [] id m1 Hwf1) as (h' & Hpush' & Hwf2). rewrite Hpush in Hpush'.
  injection Hpush' as <-. rewrite Hpush. cbn [mbind option_bind].
  eexists. split; [done|]. split_and!; [done| |by exists h].
  intros id'. rewrite <- Ho. apply Hb.
Qed.

(** Promoting an unstarted task of the queue. *)
Lemma promote_wf id t p m :
  tasks_wf m → obj m id = Some t → t_finished t = false → t_started t = false →
  let m1 := set_task id (λ t, t <| t_priority := p |>) m in
  ∃ h, heap_fix (t_index t) (m_heap m1) = Some h ∧ tasks_wf (m1 <| m_heap := h |>) ∧
    (∀ id', but_index <$> h_objs h !! id' = but_index <$> obj m1 id').
Proof.
  intros Hwf Ht Hf Hs m1. pose proof (tw_heap _ _ Hwf) as [[Hnd Hi] Ho].
  destruct (tw_queue _ _ Hwf _ _ Ht Hf Hs) as [Hin|?%not_elem_of_nil]; [|done].
  apply list_elem_of_lookup in Hin as [q Hq].
  assert (t_index t = Z.of_nat q) as ->.
  { specialize (Hi _ _ Hq). unfold obj in Ht. rewrite Ht in Hi. cbn in Hi. congruence. }
  pose proof (lookup_lt_Some _ _ _ Hq) as Hlt.
  set (objs' := alter (λ t, t <| t_priority := p |>) id (h_objs (m_heap m))).
  assert (m_heap m1 = mkHeap (h_queue (m_heap m)) objs') as Hh1 by done.
  assert (queue_wf (m_heap m1)) as Hqw.
  { rewrite Hh1. split; [done|]. intros q' id' Hq'. cbn in *. specialize (Hi _ _ Hq').
    subst objs'. rewrite lookup_alter. case_decide; [subst|done].
    by destruct (h_objs (m_heap m) !! id'). }
  destruct (heap_fix_spec q (m_heap m1)) as (h & -> & Hst & Hhw); [done|done| |].
  { rewrite Hh1. refine (down_ready_update (m_heap m) objs' q Ho Hlt _). intros q' Hne Hlt'.
    apply lookup_lt_is_Some_2 in Hlt' as [id' Hq'].
    rewrite (pos_rank_id (m_heap m) q' id' Hq').
    rewrite (pos_rank_id (mkHeap _ objs') q' id' Hq'). unfold id_rank. cbn. subst objs'.
    rewrite lookup_alter_ne; [done|]. intros <-. apply Hne. by eapply NoDup_lookup. }
  exists h. split; [done|]. split; [|apply Hst].
  change (m1 <| m_heap := h |>) with (m <| m_heap := h |>).
  eapply tasks_wf_requeue; [exact Hwf|done| | | |by apply NoDup_nil_2|by intros ? ?%not_elem_of_nil].
  - intros id'. transitivity (core <$> obj m1 id'); [apply but_index_core, Hst|].
    unfold m1. rewrite obj_set_task. case_decide; [subst|done]. by rewrite Ht.
  - intros id'. unfold pending. by rewrite (st_queue _ _ Hst).
  - intros id' t' _ _. unfold pending. by rewrite (st_queue _ _ Hst).
Qed.

(** [ensureTask] never panics; the task it returns exists. *)
Lemma ensureTask_locked_wf file i e p m :
  tasks_wf m →
  ∃ m' r, ensureTask_locked file i e p m = Some (m', r) ∧ tasks_wf m' ∧
    ∀ id, r = ETask id → is_Some (obj m' id).
Proof.
  intros Hwf. unfold ensureTask_locked. set (key := mkChunkKey (versionOf m file) i).
  destruct (m_closed m); [by eexists _, _|].
  set (create := if decide (chunk_length m file i ≤ 0) then _ else _).
  assert (dead_or_absent key m → ∃ m' r, create = Some (m', r) ∧ tasks_wf m' ∧
    ∀ id, r = ETask id → is_Some (obj m' id)) as Hcreate.
  { intros Hd. unfold create. case_decide; [by eexists _, _|].
    destruct (add_task_wf file i e p m Hwf Hd) as (m' & -> & Hwf' & Ho & _).
    eexists _, _. split_and!; [done|done|]. intros id [= <-]. specialize (Ho (m_nextTask m)).
    rewrite decide_True in Ho by done. by destruct (obj m' (m_nextTask m)). }
  destruct (m_tasks m !! key) as [id|] eqn:Hk.
  - destruct (tw_table _ _ Hwf _ _ Hk) as (t & Ht & Htk & Htf). rewrite Ht. cbn [mbind option_bind].
    case_decide as Hlive.
    + case_decide as Hp; [|by eexists _, _; split_and!; [done|done|intros ? [= <-]; exists t]].
      destruct (promote_wf id t p m Hwf Ht) as (h & -> & Hwf' & Hb); [by apply Hlive|by apply Hp|].
      cbn [mbind option_bind]. eexists _, _. split_and!; [done|done|].
      intros ? [= <-]. specialize (Hb id). rewrite obj_set_task, decide_True, Ht in Hb by done.
      unfold obj. cbn. by destruct (h_objs h !! id).
    + apply Hcreate. intros id' t' Hid' Ht'. rewrite Hk in Hid'. injection Hid' as <-.
      rewrite Ht in Ht'. injection Ht' as <-. destruct (t_finished t), (t_canceled t); tauto.
  - apply Hcreate. intros id t Hid. congruence.
Qed.
End queue.
