(* ===== verification/ManagerInv.v ===== *)
(** * The manager's transitions keep its invariants and never panic

    [tasks_wf] for every label of [ManagerSteps], together with the life cycle
    of workers and of the disk channel ([life_wf]). *)
From S2P Require Import Prelude GoList GoStrings ChunkKeys ChunkStore ChunkCache TaskHeap StreamConfig Access Manager ManagerTasks ManagerSteps ManagerTable ManagerQueue.

Section inv.
Context {S : Type} `{!ChunkCache S}.
Implicit Types (m : manager S) (id rid : nat) (t : task).

(** ** Goroutine positions *)
Lemma set_read_wf rid f m :
  tasks_wf m →
  (∀ r id, m_reads m !! rid = Some r → awaits (rd_pc (f r)) id → is_Some (obj m id)) →
  tasks_wf (set_read rid f m).
Proof.
  intros [W1 W2 W3 W4 W5 W6 W7 W8 W9 W10 W11 W12] Hf. split; try done.
  intros rid' r' id. cbn. rewrite lookup_alter. case_decide; [subst|by apply W11].
  intros (r & Hr & ->)%fmap_Some. by apply Hf.
Qed.
Lemma add_read_wf rid r m :
  tasks_wf m → (∀ id, ¬ awaits (rd_pc r) id) → tasks_wf (m <| m_reads ::= <[rid := r]> |>).
Proof.
  intros [W1 W2 W3 W4 W5 W6 W7 W8 W9 W10 W11 W12] Hf. split; try done.
  intros rid' r' id. cbn. rewrite lookup_insert. case_decide; [|by apply W11].
  intros [= <-] Hw. by destruct (Hf id).
Qed.

Lemma worker_at_wf id pc0 pc m :
  tasks_wf m → m_running m !! id = Some pc0 →
  (is_WDisk pc = false ∨ ∃ t, obj m id = Some t ∧ t_finished t = true) →
  tasks_wf (worker_at id pc m).
Proof.
  intros [W1 W2 W3 W4 W5 W6 W7 W8 W9 W10 W11 W12] Hr Hpc. split; try done.
  - intros id' pc'. cbn. rewrite lookup_insert. case_decide; [subst|by apply W8].
    intros _. by eapply W8.
  - intros id' t Ht Hs Hf. cbn. rewrite lookup_insert. case_decide; [subst|by eapply W9].
    destruct Hpc as [Hpc|(t' & Ht' & Hf')]; [by exists pc|].
    unfold obj in *. cbn in Ht. congruence.
Qed.
Lemma worker_free_wf id t m :
  tasks_wf m → obj m id = Some t → t_finished t = true → tasks_wf (worker_free id m).
Proof.
  intros [W1 W2 W3 W4 W5 W6 W7 W8 W9 W10 W11 W12] Ht Hf. split; try done.
  - intros id' pc'. cbn. intros [_ Hr]%lookup_delete_Some. by apply W8 in Hr.
  - intros id' t' Ht' Hs' Hf'. cbn. rewrite lookup_delete. case_decide; [subst|by eapply W9].
    unfold obj in *. cbn in Ht'. congruence.
Qed.
Lemma hedge_at_wf id pc m :
  tasks_wf m → (∃ t, obj m id = Some t ∧ t_hedged t = true) → tasks_wf (hedge_at id pc m).
Proof.
  intros [W1 W2 W3 W4 W5 W6 W7 W8 W9 W10 W11 W12] Ht. split; try done.
  intros id' pc'. cbn. rewrite lookup_insert. case_decide; [by subst|by apply W10].
Qed.
Lemma hedge_gone_wf id m : tasks_wf m → tasks_wf (hedge_gone id m).
Proof.
  intros [W1 W2 W3 W4 W5 W6 W7 W8 W9 W10 W11 W12]. split; try done.
  intros id' pc'. cbn. intros [_ Hr]%lookup_delete_Some. by apply W10 in Hr.
Qed.

(** A worker past the commit holds a finished task. *)
Lemma disk_finished id pc m :
  tasks_wf m → m_running m !! id = Some pc → is_WDisk pc = true →
  ∃ t, obj m id = Some t ∧ t_finished t = true.
Proof.
  intros Hwf Hr Hd. destruct (tw_running _ _ Hwf _ _ Hr) as (t & Ht & Hs). exists t.
  split; [done|]. destruct (t_finished t) eqn:Hf; [done|].
  destruct (tw_started _ _ Hwf _ _ Ht Hs Hf) as (pc' & Hr' & Hd'). congruence.
Qed.

(** ** Ending tasks *)
Lemma close_done_ok id t m :
  obj m id = Some t → t_closed t = false →
  close_done id m = Some (set_task id (λ t, t <| t_closed := true |>) m).
Proof. intros Ht Hc. unfold close_done. rewrite Ht. cbn. by rewrite Hc. Qed.

Definition ended_by (r : result streamErr bytes) (t : task) : task :=
  match r with Ok data => finish_with data None | Err e => finish_with [] (Some e) end
    (t <| t_hedgeCancel := false |>).
Lemma ended_by_ends r : ends (ended_by r).
Proof. by destruct r. Qed.

Lemma finishTask_unfinished id t r lat m :
  tasks_wf m → obj m id = Some t → t_finished t = false →
  ∃ m', finishTask_locked id r lat m = Some (m', true) ∧
    task_view m' = task_view (end_task id (ended_by r) (t_key t) m).
Proof.
  intros Hwf Ht Hf. unfold finishTask_locked. rewrite Ht. cbn [mbind option_bind]. rewrite Hf.
  set (m1 := set_session _ _ m).
  set (m2 := match r with Ok _ => _ | Err _ => _ end).
  assert (m2 = set_task id (ended_by r) m1) as -> by (subst m2; destruct r; exact (set_task_compose _ _ _ _)).
  set (m3 := forget_task _ _ _). set (m4 := if decide (is_ok r = true ∧ _) then _ else _).
  set (m5 := if decide (t_foreground t = true ∧ _) then _ else _).
  assert (task_view m5 = task_view m3) as Hv by (subst m5 m4; repeat case_decide; done).
  assert (obj m3 id = Some (ended_by r t)) as Ho3.
  { subst m3. rewrite forget_set_task, obj_set_task, decide_True by done.
    by assert (obj (forget_task (t_key t) id m1) id = Some t) as ->
      by (unfold forget_task; case_decide; exact Ht). }
  rewrite (close_done_ok id (ended_by r t)); cycle 1.
  { by rewrite (view_obj _ _ id Hv). }
  { rewrite (en_closed _ (ended_by_ends r)). by rewrite (tw_closed _ _ Hwf _ _ Ht). }
  cbn [mbind option_bind]. eexists. split; [done|]. rewrite view_cleanup.
  revert Hv. generalize m5. clear. intros m5 Hv. injection Hv as H1 H2 H3 H4 H5 H6.
  unfold end_task. rewrite forget_set_task. unfold task_view. cbn. rewrite H1, H2, H3, H4, H5, H6.
  subst m3. rewrite forget_set_task. unfold forget_task. cbn.
  case_decide; cbn; by rewrite alter_alter_eq.
Qed.

Lemma finishTask_wf id t r lat m :
  tasks_wf m → obj m id = Some t →
  ∃ m' b, finishTask_locked id r lat m = Some (m', b) ∧ tasks_wf m' ∧
    m_running m' = m_running m ∧ ∃ t', obj m' id = Some t' ∧ t_finished t' = true.
Proof.
  intros Hwf Ht. destruct (t_finished t) eqn:Hf.
  - unfold finishTask_locked. rewrite Ht. cbn [mbind option_bind]. rewrite Hf.
    set (m1 := set_session _ _ m).
    pose proof (view_cleanup (version (t_key t)) m1) as Hv.
    eexists _, false. split_and!; [done|by apply (tasks_wf_view [] m)| |].
    + by injection Hv.
    + exists t. rewrite (view_obj _ _ id Hv). done.
  - destruct (finishTask_unfinished id t r lat m Hwf Ht Hf) as (m' & -> & Hv).
    pose proof (end_task_wf [] m id t _ Hwf Ht Hf (ended_by_ends r)) as Hwf'.
    eexists _, true. split_and!; [done|by eapply tasks_wf_view| |].
    + injection Hv as _ _ _ -> _ _. apply end_task_view.
    + eexists. rewrite (view_obj _ _ id Hv), end_task_obj, decide_True, Ht by done. by destruct r.
Qed.

Lemma publishHedge_wf id t data m :
  tasks_wf m → obj m id = Some t → t_hedged t = true →
  ∃ m' b, publishHedge_locked id data m = Some (m', b) ∧ tasks_wf m' ∧
    ∃ t', obj m' id = Some t' ∧ t_hedged t' = true.
Proof.
  intros Hwf Ht Hd. unfold publishHedge_locked. rewrite Ht. cbn [mbind option_bind].
  destruct (t_finished t) eqn:Hf; [eexists _, _; split_and!; [done|done|by exists t]|].
  set (F := λ t0 : task, _).
  assert (ends F) as HF by by split.
  rewrite (close_after_end [] _ _ t) by done. cbn [mbind option_bind].
  eexists _, _. split; [done|]. split.
  - eapply tasks_wf_view; [|apply (end_task_wf [] m id t F Hwf Ht Hf HF)]. done.
  - change (∃ t', obj (end_task id F (t_key t) m) id = Some t' ∧ t_hedged t' = true).
    rewrite end_task_obj, decide_True, Ht by done. by eexists.
Qed.

(** ** Life cycle *)

(** The disk channel is closed only after every worker and hedge is gone,
    and there are never more downloads than workers. *)
Record life_wf m : Prop := {
  lw_disk : m_diskClosed m = true → m_closed m = true ∧ all_done m;
  lw_workers : (m_idle m + size (m_running m) ≤ Z.to_nat (Workers (m_cfg m)))%nat
}.
Definition life_view m := (m_diskClosed m, m_closed m, m_idle m, m_running m, m_hedging m, m_cfg m).
Lemma life_wf_view m m' : life_view m' = life_view m → life_wf m → life_wf m'.
Proof.
  intros Hv [W1 W2]. destruct m, m'. cbn in Hv. injection Hv as -> -> -> -> -> ->. by split.
Qed.
Lemma limits_ok_cfg m m' : m_cfg m' = m_cfg m → limits_ok m → limits_ok m'.
Proof. unfold limits_ok. by intros ->. Qed.

(** ** Labels of callers *)
Lemma reads_update_wf rid f m :
  tasks_wf m → (∀ r id, ¬ awaits (rd_pc (f r)) id) → tasks_wf (set_read rid f m).
Proof. intros Hwf Hf. apply set_read_wf; [done|]. intros r id _ Hw. by destruct (Hf r id). Qed.

Lemma reader_get_wf rid touch miss io m :
  tasks_wf m → (∀ id, ¬ awaits miss id) → is_Some (m_reads m !! rid) →
  (¬ ∃ r, m_reads m !! rid = Some r ∧ last_chunk (ChunkSize (m_cfg m)) r < next_chunk m r ∧
     makeslice 1 (rd_length r) = false) →
  ∃ m', reader_get rid touch miss io m = Some m' ∧ tasks_wf m'.
Proof.
  intros Hwf Hmiss [r Hr] Hmk. unfold reader_get. rewrite Hr. cbn [mbind option_bind].
  case_decide.
  - destruct (makeslice 1 (rd_length r)) eqn:Hm; [|by destruct Hmk; exists r]. eexists. split; [done|]. apply reads_update_wf; [done|]. intros r' id [?|?]; done.
  - destruct (cc_get io _ _ _) as [store hit]. eexists. split; [done|]. apply reads_update_wf.
    + by apply (tasks_wf_view [] m).
    + intros r' id. destruct hit; [intros [?|?]; done|apply Hmiss].
Qed.

Lemma reader_lock_wf rid m :
  tasks_wf m → is_Some (m_reads m !! rid) → ∃ m', reader_lock rid m = Some m' ∧ tasks_wf m'.
Proof.
  intros Hwf [r Hr]. unfold reader_lock. rewrite Hr. cbn [mbind option_bind].
  destruct (ensureTask_locked_wf (rd_file r) (next_chunk m r) (rd_epoch r) priorityForeground m Hwf)
    as (m' & e & -> & Hwf' & He). cbn [mbind option_bind]. eexists. split; [done|].
  apply set_read_wf; [done|]. intros r' id _. destruct e; intros [Hw|Hw]; try done.
  cbn in Hw. injection Hw as ->. by apply He.
Qed.

Lemma reader_mark_wf rid m :
  tasks_wf m → at_pc m rid (λ pc, is_RMark pc = true) →
  ∃ m', reader_mark rid m = Some m' ∧ tasks_wf m'.
Proof.
  intros Hwf Hpc. unfold at_pc in Hpc. unfold reader_mark.
  destruct (m_reads m !! rid) as [r|] eqn:Hr; [|done]. cbn in *.
  destruct (rd_pc r) as [| | |id| |] eqn:Hp; try done. eexists. split; [done|].
  destruct (tw_reads _ _ Hwf rid r id Hr) as [t Ht]; [left; done|].
  apply set_read_wf; [by apply set_task_soft; [apply soft_foreground|]|].
  intros r' id' _ [Hw|Hw]; [done|]. cbn in Hw. injection Hw as <-.
  unfold markForeground. rewrite obj_set_task, decide_True, Ht by done. by eexists.
Qed.

Lemma reader_waited_wf rid m :
  tasks_wf m →
  at_pc m rid (λ pc, match pc with RWait id => closed_done m id = true | _ => False end) →
  ∃ m', reader_waited rid m = Some m' ∧ tasks_wf m'.
Proof.
  intros Hwf Hpc. unfold at_pc in Hpc. unfold reader_waited.
  destruct (m_reads m !! rid) as [r|] eqn:Hr; [|done]. cbn in *.
  destruct (rd_pc r) as [| | | |id|] eqn:Hp; try done.
  destruct (tw_reads _ _ Hwf rid r id Hr) as [t Ht]; [right; done|]. rewrite Ht. cbn.
  eexists. split; [done|]. apply reads_update_wf; [done|]. intros r' id'.
  destruct (t_err t); intros [?|?]; done.
Qed.

Lemma prepareRead_wf hid offset length now m :
  tasks_wf m → tasks_wf (prepareRead hid offset length now m).1.
Proof.
  intros Hwf. unfold prepareRead. destruct (m_handles m !! hid) as [h|]; [|done].
  destruct (released h); [done|].
  destruct (observeHandleLocked (m_cfg m) h offset length) as [h' ob].
  set (m1 := m <| m_handles ::= _ |>). assert (tasks_wf m1) as Hwf1 by by apply (tasks_wf_view [] m).
  change (m_closed m1) with (m_closed m). destruct (m_closed m); [done|].
  set (m2 := sessionLocked _ _ _). assert (tasks_wf m2) as Hwf2.
  { apply (tasks_wf_view [] m1); [|done]. subst m2. by rewrite view_sessionLocked, view_markActivity. }
  cbv zeta. clearbody m1 m2.
  set (s := default _ _). set (within := inScheduledWindowLocked _ _ _).
  destruct (apply_event _ s _ offset within ob m2) as [[m3 ev] ind] eqn:He.
  assert (tasks_wf m3) as Hwf3.
  { revert He. unfold apply_event. set (ev0 := if within then _ else _).
    assert (∀ v e hid', tasks_wf (takeover v e hid' offset m2)) as Ht.
    { intros *. apply (tasks_wf_view [] (cancelSessionTasksLocked v e
        (set_session v (λ s, s <| se_epoch := e |>) m2))); [done|]. apply cancel_tasks_wf.
      by apply (tasks_wf_view [] m2). }
    destruct ev0; repeat case_decide; intros [= <- _ _]; try done;
      by apply (tasks_wf_view [] m2). }
  by apply (tasks_wf_view [] m3).
Qed.

(** A read of a handle that is not released is let through while the manager
    is open. *)
Lemma prepareRead_accepts hid offset length now m h :
  m_handles m !! hid = Some h →
  (∃ p, (prepareRead hid offset length now m).2 = Ok p) ↔ released h = false ∧ m_closed m = false.
Proof.
  intros Hh. unfold prepareRead. rewrite Hh. destruct (released h); [naive_solver|].
  destruct (observeHandleLocked (m_cfg m) h offset length) as [h' ob].
  change (m_closed (m <| m_handles ::= <[hid:=h']> |>)) with (m_closed m).
  destruct (m_closed m); [naive_solver|]. cbv zeta. destruct (apply_event _ _ _ _ _ _ _) as [[? ?] ?].
  split; [done|]. intros _. by eexists.
Qed.
Lemma readAt_begin_None rid hid offset length now m :
  readAt_begin rid hid offset length now m = None ↔ make_panics (LRead rid hid offset length now) m.
Proof.
  unfold readAt_begin, make_panics. destruct (m_handles m !! hid) as [h|] eqn:Hh; [|by split; [|intros (? & ? & ? & _)]].
  destruct (readAt_clip (hd_file h) offset length) as [[len|]|] eqn:Hclip;
    [|split; [done|intros (? & ? & [= <-] & ? & _); congruence]..].
  pose proof (prepareRead_accepts hid offset len now m h Hh) as Hacc.
  destruct (prepareRead hid offset len now m) as [m' [p|e]]; cbn [fst snd] in *.
  - destruct (proj1 Hacc ltac:(by exists p)) as [Hr Hc]. unfold chunk_count, last_chunk, first_chunk. cbn.
    destruct (makeslice _ _) eqn:Hm.
    + split; [done|]. intros (h' & len' & ? & ? & _ & _ & ?). simplify_eq. congruence.
    + split; [|done]. intros _. by exists h, len.
  - split; [done|]. intros (h' & len' & ? & ? & Hr & Hc & _). simplify_eq.
    destruct (proj2 Hacc (conj Hr Hc)). done.
Qed.
Lemma reader_get_None rid touch miss io m :
  is_Some (m_reads m !! rid) → reader_get rid touch miss io m = None →
  ∃ r, m_reads m !! rid = Some r ∧ last_chunk (ChunkSize (m_cfg m)) r < next_chunk m r ∧
    makeslice 1 (rd_length r) = false.
Proof.
  intros [r Hr]. unfold reader_get. rewrite Hr. cbn [mbind option_bind]. case_decide as Hl.
  - destruct (makeslice 1 (rd_length r)) eqn:Hm; [done|]. intros _. by exists r.
  - by destruct (cc_get io _ _ _).
Qed.
Lemma makeslice_chunks n : 0 ≤ n ≤ 2 ^ 40 + 1 → makeslice sizeof_slice n = true.
Proof. intros Hn. unfold makeslice, sizeof_slice. apply bool_decide_eq_true. lia. Qed.
(** What [readAt] goes on with lies in the range asked for. *)
Lemma readAt_clip_range file offset length len :
  readAt_clip file offset length = Ok (Some len) → offset + length < 2 ^ 63 →
  0 ≤ offset ∧ 0 < len ∧ len ≤ length.
Proof.
  unfold readAt_clip. repeat case_decide; intros [= <-] Hend; try lia; nowrap; lia.
Qed.
Lemma chunk_count_bounds cs offset len :
  0 < cs → 0 ≤ offset → 0 < len → offset + len < 2 ^ 63 →
  0 ≤ Z.quot (offset +! len -! 1) cs -! Z.quot offset cs +! 1 ≤ len + 1.
Proof.
  intros Hcs H0 Hl Hend. rewrite (w64_id (offset + len)), (w64_id (offset + len - 1)) by (unfold in64; lia).
  rewrite !Z.quot_div_nonneg by lia.
  pose proof (Z.div_le_mono offset (offset + len - 1) cs Hcs ltac:(lia)).
  pose proof (Z.div_pos offset cs H0 Hcs).
  assert ((offset + len - 1) / cs ≤ offset / cs + len).
  { apply Z.div_le_upper_bound; [lia|]. pose proof (Z.mul_succ_div_gt offset cs Hcs). nia. }
  assert ((offset + len - 1) / cs ≤ offset + len - 1) by (apply Z.div_le_upper_bound; [lia|nia]).
  rewrite w64_id, w64_id by (rewrite ?w64_id; unfold in64; lia). lia.
Qed.
Lemma readAt_begin_wf rid hid offset length now m :
  tasks_wf m → ¬ make_panics (LRead rid hid offset length now) m →
  ∃ m', readAt_begin rid hid offset length now m = Some m' ∧ tasks_wf m'.
Proof.
  rewrite <- readAt_begin_None. intros Hwf Hn.
  destruct (readAt_begin _ _ _ _ _ _) as [m1|] eqn:Hb; [clear Hn|done]. exists m1. split; [done|].
  revert Hb. unfold readAt_begin. destruct (m_handles m !! hid) as [h|]; [|by intros [= <-]].
  destruct (readAt_clip _ _ _) as [[len|]|]; [|by intros [= <-]..].
  pose proof (prepareRead_wf hid offset len now m Hwf) as Hp.
  destruct (prepareRead hid offset len now m) as [m' [p|]]; [|by intros [= <-]].
  destruct (makeslice _ _); [intros [= <-]|done]. apply add_read_wf; [done|]. intros id [?|?]; done.
Qed.

Lemma Release_commit_wf hid now m : tasks_wf m → tasks_wf (Release_commit hid now m).
Proof.
  intros Hwf. unfold Release_commit. destruct (m_handles m !! hid) as [h|]; [|done].
  set (m1 := m <| m_releasing ::= _ |>). assert (tasks_wf m1) as Hwf1 by by apply (tasks_wf_view [] m).
  cbv zeta. clearbody m1. set (ver := versionOf _ _).
  destruct (m_sessions m1 !! ver) as [s|]; [|done].
  set (m3 := if decide (activeHandle s = hd_id h) then _ else _).
  assert (tasks_wf m3) as Hwf3.
  { subst m3. case_decide; [apply cancel_tasks_wf|]; by apply (tasks_wf_view [] m1). }
  apply (tasks_wf_view [] m3); [|done]. etrans; [apply view_cleanup|done].
Qed.

(** ** Labels of workers, hedges and shutdown *)
Lemma startHedge_wf id m :
  tasks_wf m → is_Some (obj m id) → ∃ m' b, startHedge id m = Some (m', b) ∧ tasks_wf m'.
Proof.
  intros Hwf [t Ht]. unfold startHedge. rewrite Ht. cbn [mbind option_bind].
  case_decide; [by eexists _, _|]. cbv zeta. eexists _, _. split; [done|].
  set (m1 := set_task id _ m).
  assert (tasks_wf m1) as Hwf1 by (apply set_task_soft; [apply soft_hedged|done]).
  apply (tasks_wf_view [] (hedge_at id HRead m1)); [done|]. apply hedge_at_wf; [done|].
  unfold m1. rewrite obj_set_task, decide_True, Ht by done. by eexists.
Qed.

(** A hedge starts only where none runs, for a task that has had none. *)
Definition hedge_starts id m : Prop :=
  m_closed m = false ∧ m_hedging m !! id = None ∧
  ∃ t, obj m id = Some t ∧ t_finished t = false ∧ t_canceled t = false ∧ t_hedged t = false.
Lemma startHedge_once id m m' b :
  tasks_wf m → startHedge id m = Some (m', b) →
  m_hedging m' = m_hedging m ∨ hedge_starts id m ∧ m_hedging m' = <[id := HRead]> (m_hedging m).
Proof.
  intros Hwf. unfold startHedge. destruct (obj m id) as [t|] eqn:Ht; [|done]. cbn [mbind option_bind].
  case_decide as Hd; [intros [= <- _]; by left|]. cbv zeta. intros [= <- _]. right. split; [|done].
  assert (m_closed m = false ∧ t_finished t = false ∧ t_hedged t = false ∧ t_canceled t = false) as (H1 & H2 & H3 & H4)
    by (destruct (m_closed m), (t_finished t), (t_hedged t), (t_canceled t); tauto).
  split; [done|]. split; [|by exists t]. destruct (m_hedging m !! id) as [pc|] eqn:Hh; [|done].
  destruct (tw_hedging _ _ Hwf _ _ Hh) as (t' & Ht' & Hd'). congruence.
Qed.

Lemma Close_begin_wf m : tasks_wf m → tasks_wf (Close_begin m).
Proof.
  intros Hwf. unfold Close_begin. destruct (m_closed m); [done|].
  set (g := λ t : task, t <| t_canceled := true |>). set (m' := _ <| m_heap ::= _ |>).
  assert (∀ id, obj m' id = g <$> obj m id) as Ho by (intros id; apply lookup_fmap).
  destruct Hwf as [W1 W2 W3 W4 W5 W6 W7 W8 W9 W10 W11 W12].
  split; change (m_nextTask m') with (m_nextTask m); change (m_tasks m') with (m_tasks m);
    change (m_running m') with (m_running m); change (m_hedging m') with (m_hedging m);
    change (m_reads m') with (m_reads m);
    change (h_queue (m_heap m')) with (h_queue (m_heap m)).
  - change (m_heap m') with (mkHeap (h_queue (m_heap m)) (g <$> h_objs (m_heap m))).
    apply heap_wf_objs; [|done]. intros id _. rewrite lookup_fmap.
    by destruct (h_objs (m_heap m) !! id).
  - intros id t. rewrite Ho. intros (t0 & Ht0 & ->)%fmap_Some. by eapply W2.
  - intros k id (t & Ht & ? & ?)%W3. exists (g t). by rewrite Ho, Ht.
  - intros id t. rewrite Ho. by intros (t0 & Ht0 & ->)%fmap_Some.
  - intros id t. rewrite Ho. intros (t0 & Ht0 & ->)%fmap_Some. exact (W5 _ _ Ht0).
  - intros id t. rewrite Ho. intros (t0 & Ht0 & ->)%fmap_Some. exact (W6 _ _ Ht0).
  - intros id t. rewrite Ho. intros (t0 & Ht0 & ->)%fmap_Some. by apply (W7 _ _ Ht0).
  - intros id pc (t & Ht & ?)%W8. exists (g t). by rewrite Ho, Ht.
  - intros id t. rewrite Ho. intros (t0 & Ht0 & ->)%fmap_Some. exact (W9 _ _ Ht0).
  - intros id pc (t & Ht & ?)%W10. exists (g t). by rewrite Ho, Ht.
  - intros rid r id Hr Hw. destruct (W11 _ _ _ Hr Hw) as [t Ht]. exists (g t). by rewrite Ho, Ht.
  - destruct W12 as [Hnd Hx]. split; [done|]. by intros id ?%not_elem_of_nil.
Qed.

Lemma take_next_wf now m :
  tasks_wf m → limits_ok m → ∃ m', take_next now m = Some m' ∧ tasks_wf m'.
Proof.
  intros Hwf Hl. unfold take_next, nextTask.
  destruct (next_loop_spec (Datatypes.S (length (h_queue (m_heap m)))) [] now m) as (m' & r & -> & Hc);
    [done|done|by intros id ?%not_elem_of_nil|lia|].
  cbn [mbind option_bind]. destruct r as [id|]; (eexists; split; [done|]).
  - apply (tasks_wf_view [] (worker_at id (WRead 0) m')); [done|]. apply Hc.
  - apply Hc.
Qed.

Lemma queueDiskWrite_ok key data m :
  m_diskClosed m = false → is_Some (queueDiskWrite key data m).
Proof. intros Hc. unfold queueDiskWrite. rewrite Hc. repeat case_decide; by eexists. Qed.

(** A goroutine that is not done keeps the disk channel open. *)
Lemma disk_open m id pc :
  life_wf m → m_running m !! id = Some pc ∨ (∃ pc', m_hedging m !! id = Some pc') →
  m_diskClosed m = false.
Proof.
  intros [Hd _] Hr. destruct (m_diskClosed m); [|done].
  destruct (Hd eq_refl) as (_ & _ & H1 & H2). rewrite H1, H2 in Hr.
  destruct Hr as [Hr|[? Hr]]; by rewrite lookup_empty in Hr.
Qed.

Definition worker_label (l : label) : bool :=
  match l with
  | LNext _ | LAttempt _ _ | LWorkerPut _ | LWorkerCommit _ _ | LWorkerDisk _ | LWorkerExit => true
  | _ => false
  end.
Lemma worker_tasks l m :
  worker_label l = true → tasks_wf m → life_wf m → limits_ok m → enabled l m →
  ∃ m', perform l m = Some m' ∧ tasks_wf m'.
Proof.
  intros Hl Hwf Hlife Hlim He. destruct l; try done; cbn in He |- *.
  - by apply take_next_wf.
  - unfold at_worker in He. unfold worker_step. destruct (m_running m !! id) as [pc|] eqn:Hr; [|done].
    cbn in *. destruct pc as [k| | |]; try done.
    destruct (tw_running _ _ Hwf _ _ Hr) as (t & Ht & Hs). unfold download_attempt. rewrite Ht. cbn.
    assert (∀ m1 pc, task_view m1 = task_view m → is_WDisk pc = false → tasks_wf (worker_at id pc m1)) as Hw.
    { intros m1 pc Hv Hpc. eapply worker_at_wf; [by apply (tasks_wf_view [] m)| |by left].
      injection Hv as _ _ _ -> _ _. exact Hr. }
    destruct (judge _ _); [eexists; split; [done|]; by apply Hw|].
    destruct (t_canceled t); [eexists; split; [done|]; by apply Hw|].
    case_decide; (eexists; split; [done|]); by apply Hw.
  - unfold at_worker in He. unfold worker_step. destruct (m_running m !! id) as [pc|] eqn:Hr; [|done].
    cbn in *. destruct pc as [|r| |]; try done.
    destruct (tw_running _ _ Hwf _ _ Hr) as (t & Ht & Hs). unfold key_of. rewrite Ht. cbn.
    eexists. split; [done|]. eapply worker_at_wf; [|by destruct r|by left].
    apply (tasks_wf_view [] m); [|done]. apply view_put_result.
  - unfold at_worker in He. unfold worker_step. destruct (m_running m !! id) as [pc|] eqn:Hr; [|done].
    cbn in *. destruct pc as [| |r|]; try done.
    destruct (tw_running _ _ Hwf _ _ Hr) as (t & Ht & Hs). unfold worker_commit.
    destruct (finishTask_wf id t r latency m Hwf Ht) as (m' & b & -> & Hwf' & Hrun & t' & Ht' & Hf').
    cbn. assert (tasks_wf (worker_free id m')) by by eapply worker_free_wf.
    destruct r as [data|e]; [destruct b|]; (eexists; split; [done|]); try done.
    eapply worker_at_wf; [done|by rewrite Hrun|right; by exists t'].
  - unfold at_worker in He. unfold worker_step. destruct (m_running m !! id) as [pc|] eqn:Hr; [|done].
    cbn in *. destruct pc as [| | |data]; try done.
    destruct (disk_finished id _ m Hwf Hr eq_refl) as (t & Ht & Hf). unfold key_of. rewrite Ht. cbn.
    assert (m_diskClosed m = false) as Hdc by by (eapply disk_open; [done|left]).
    destruct (queueDiskWrite_ok (t_key t) data m Hdc) as [m' Hq]. rewrite Hq. cbn.
    apply view_queueDiskWrite in Hq. eexists. split; [done|].
    apply (worker_free_wf id t); [by apply (tasks_wf_view [] m)|by rewrite (view_obj m)|done].
  - eexists. split; [done|]. by apply (tasks_wf_view [] m).
Qed.

Definition hedge_label (l : label) : bool :=
  match l with
  | LHedge _ | LHedgeReply _ _ | LHedgePut _ | LHedgePublish _ | LHedgeDisk _ => true
  | _ => false
  end.
Lemma hedge_tasks l m :
  hedge_label l = true → tasks_wf m → life_wf m → enabled l m →
  ∃ m', perform l m = Some m' ∧ tasks_wf m'.
Proof.
  intros Hl Hwf Hlife He. destruct l; try done; cbn in He |- *;
    [|unfold at_hedge in He; unfold hedge_step;
      destruct (m_hedging m !! id) as [pc|] eqn:Hr; [|done];
      destruct (tw_hedging _ _ Hwf _ _ Hr) as (t & Ht & Hd); cbn in *; destruct pc as [|data|data|data];
      try done; unfold key_of; rewrite ?Ht; cbn ..].
  - destruct He as [_ ([rid r] & Hin & Hw)%Exists_exists]. cbn in Hw. unfold waits_for in Hw.
    destruct (rd_pc r) as [| | | |id'|] eqn:Hpc; try done. apply bool_decide_eq_true in Hw as <-.
    apply elem_of_map_to_list in Hin.
    destruct (startHedge_wf id m Hwf) as (m' & b & -> & Hwf').
    { eapply tw_reads; [done|exact Hin|by right]. }
    by eexists.
  - destruct (judge _ _); (eexists; split; [done|]).
    + by apply hedge_at_wf; [|exists t].
    + by apply hedge_gone_wf.
  - eexists. split; [done|]. apply hedge_at_wf; [by apply (tasks_wf_view [] m)|by exists t].
  - unfold hedge_publish. destruct (publishHedge_wf id t data m Hwf Ht Hd) as (m' & b & -> & Hwf' & Hex).
    cbn. eexists. split; [done|]. destruct b; [by apply hedge_at_wf|by apply hedge_gone_wf].
  - assert (m_diskClosed m = false) as Hdc by (eapply (disk_open m id (WRead 0)); [done|right; by eexists]).
    destruct (queueDiskWrite_ok (t_key t) data m Hdc) as [m' Hq]. rewrite Hq. cbn.
    apply view_queueDiskWrite in Hq. eexists. split; [done|]. apply hedge_gone_wf.
    by apply (tasks_wf_view [] m).
Qed.

(** ** Every label *)
Lemma make_panics_None l m : make_panics l m → perform l m = None.
Proof.
  destruct l; try done; cbn [perform].
  - apply readAt_begin_None.
  - intros (r & Hr & Hl & Hm). unfold reader_get. rewrite Hr. cbn. by rewrite decide_True, Hm by done.
  - intros (r & Hr & Hl & Hm). unfold reader_get. rewrite Hr. cbn. by rewrite decide_True, Hm by done.
Qed.
Lemma perform_tasks l m :
  tasks_wf m → life_wf m → limits_ok m → enabled l m → ¬ make_panics l m →
  ∃ m', perform l m = Some m' ∧ tasks_wf m'.
Proof.
  intros Hwf Hlife Hlim He Hmk.
  destruct (worker_label l) eqn:Hw; [by apply worker_tasks|].
  destruct (hedge_label l) eqn:Hh; [by apply hedge_tasks|].
  assert (∀ rid P, at_pc m rid P → is_Some (m_reads m !! rid)) as Hat.
  { intros rid P. unfold at_pc. destruct (m_reads m !! rid); [by eexists|done]. }
  destruct l; try done; cbn [enabled perform] in *;
    try (eexists; split; [reflexivity|]; apply (tasks_wf_view [] m); done).
  - eexists. split; [done|]. apply (tasks_wf_view [] m); [apply view_Open|done].
  - eexists. split; [done|]. apply (tasks_wf_view [] m); [apply view_Release_mark|done].
  - eexists. split; [done|]. by apply Release_commit_wf.
  - by apply readAt_begin_wf.
  - apply reader_get_wf; [done|by intros id [?|?]|by eapply Hat|exact Hmk].
  - apply reader_get_wf; [done|by intros id [?|?]|by eapply Hat|exact Hmk].
  - apply reader_lock_wf; [done|by eapply Hat].
  - by apply reader_mark_wf.
  - by apply reader_waited_wf.
  - eexists. split; [done|]. apply reads_update_wf; [done|]. by intros r id [?|?].
  - eexists. split; [done|]. apply (tasks_wf_view [] m); [apply view_scheduleWindow|done].
  - destruct (ensureTask_locked_wf file index epoch prio m Hwf) as (m' & r & -> & Hwf' & _).
    by eexists.
  - eexists. split; [done|]. apply (tasks_wf_view [] m); [apply view_diskWriter|done].
  - eexists. split; [done|]. apply (tasks_wf_view [] m); [apply view_reclaimIdle|done].
  - eexists. split; [done|]. apply (tasks_wf_view [] m); [apply view_summary|done].
  - eexists. split; [done|]. by apply Close_begin_wf.
Qed.
End inv.
