(* ===== verification/ManagerFrame.v ===== *)
(** * What the manager's operations leave alone

    [outer_view]: the fields no operation on tasks and sessions changes.  With
    it, the life cycle of workers and of the disk channel is an invariant, and
    every reachable state satisfies [manager_wf]. *)
From S2P Require Import Prelude GoList GoStrings ChunkKeys ChunkStore ChunkCache TaskHeap StreamConfig Access Manager ManagerTasks ManagerSteps ManagerTable ManagerQueue ManagerInv.

Section frame.
Context {S : Type} `{!ChunkCache S}.
Implicit Types (m : manager S) (id rid : nat) (t : task).

Definition outer_view m :=
  (m_cfg m, m_store m, m_closed m, m_diskClosed m, m_diskWrites m, m_idle m, m_running m,
   m_hedging m, m_reads m, m_handles m, m_releasing m).

Lemma outer_set_session ver f m : outer_view (set_session ver f m) = outer_view m.
Proof. done. Qed.
Lemma outer_set_task id f m : outer_view (set_task id f m) = outer_view m.
Proof. done. Qed.
Lemma outer_forget key id m : outer_view (forget_task key id m) = outer_view m.
Proof. unfold forget_task. by case_decide. Qed.
Lemma outer_cleanup ver m : outer_view (cleanupSessionLocked ver m) = outer_view m.
Proof. unfold cleanupSessionLocked. destruct (m_sessions m !! ver); [|done]. by repeat case_decide. Qed.
Lemma outer_close_done id m m' : close_done id m = Some m' → outer_view m' = outer_view m.
Proof.
  unfold close_done. destruct (obj m id) as [t|]; [|done]. cbn.
  destruct (t_closed t); [done|]. by intros [= <-].
Qed.
Lemma outer_cancel P `{!∀ t, Decision (P t)} m : outer_view (cancel_tasks P m) = outer_view m.
Proof. unfold cancel_tasks. by induction (map_to_list (m_tasks m)). Qed.
Lemma outer_discard id m m' : discardCanceledTaskLocked id m = Some m' → outer_view m' = outer_view m.
Proof.
  unfold discardCanceledTaskLocked. destruct (obj m id) as [t|]; [|done]. cbn [mbind option_bind].
  destruct (t_finished t); [by intros [= <-]|].
  destruct (close_done _ _) as [m1|] eqn:Hc; [|done]. intros [= <-].
  rewrite outer_cleanup, (outer_close_done _ _ _ Hc), outer_forget. done.
Qed.
Lemma outer_push_all X m m' : push_all X m = Some m' → outer_view m' = outer_view m.
Proof.
  unfold push_all. revert m. induction X as [|x X IH]; intros m; cbn [foldl]; [by intros [= <-]|].
  cbn [mbind option_bind]. destruct (heap_push x (m_heap m)) as [h|]; cbn [mbind option_bind].
  - intros H. by apply IH in H.
  - assert (∀ l, foldl (λ r id, m ← r; h ← heap_push id (m_heap m); Some (m <| m_heap := h |>))
      (None : option (manager S)) l = None) as -> by (induction l; done). done.
Qed.
Lemma outer_next_loop fuel X now m m' r :
  next_loop fuel X now m = Some (m', r) → outer_view m' = outer_view m.
Proof.
  revert X m. induction fuel as [|fuel IH]; intros X m; cbn [next_loop]; [done|].
  case_decide.
  { destruct (push_all X m) as [m1|] eqn:Hp; [|done]. intros [= <- <-]. by eapply outer_push_all. }
  destruct (heap_pop (m_heap m)) as [[id h]|]; [|done]. cbn [mbind option_bind].
  destruct (obj _ id) as [t|]; [|done]. cbn [mbind option_bind].
  destruct (t_finished t); [intros Hn; by apply IH in Hn|].
  destruct (t_canceled t).
  { destruct (discardCanceledTaskLocked id _) as [m1|] eqn:Hd; [|done]. cbn [mbind option_bind].
    intros Hn. apply IH in Hn. apply outer_discard in Hd. by rewrite Hn, Hd. }
  case_decide; [intros Hn; by apply IH in Hn|].
  destruct (push_all X _) as [m1|] eqn:Hp; [|done]. intros [= <- <-].
  apply outer_push_all in Hp. by rewrite Hp.
Qed.
Lemma outer_ensure file i e p m m' r :
  ensureTask_locked file i e p m = Some (m', r) → outer_view m' = outer_view m.
Proof.
  unfold ensureTask_locked, add_task. destruct (m_closed m) eqn:E; [by intros [= <- <-]|].
  set (create := if decide (chunk_length m file i ≤ 0) then _ else _).
  assert (create = Some (m', r) → outer_view m' = outer_view m) as Hc.
  { unfold create. case_decide; [by intros [= <- <-]|]. cbn [mbind option_bind].
    destruct (heap_push _ _); cbn [mbind option_bind]; [|done]. by intros [= <- <-]. }
  destruct (m_tasks m !! _) as [id|]; [|done]. destruct (obj m id) as [t|]; [|done].
  cbn [mbind option_bind]. case_decide; [|done]. case_decide; [|by intros [= <- <-]].
  destruct (heap_fix _ _); [|done]. by intros [= <- <-].
Qed.
Lemma outer_finish id r lat m m' b :
  finishTask_locked id r lat m = Some (m', b) → outer_view m' = outer_view m.
Proof.
  unfold finishTask_locked. destruct (obj m id) as [t|]; [|done]. cbn [mbind option_bind].
  destruct (t_finished t); [intros [= <- <-]; by rewrite outer_cleanup|].
  set (m3 := forget_task _ _ _).
  assert (outer_view m3 = outer_view m) as H3 by (subst m3; rewrite outer_forget; by destruct r).
  clearbody m3. destruct (close_done _ _) as [m1|] eqn:Hc; [|done]. intros [= <- <-].
  rewrite outer_cleanup, (outer_close_done _ _ _ Hc), <- H3. by repeat case_decide.
Qed.
Lemma outer_publish id d m m' b :
  publishHedge_locked id d m = Some (m', b) → outer_view m' = outer_view m.
Proof.
  unfold publishHedge_locked. destruct (obj m id) as [t|]; [|done]. cbn [mbind option_bind].
  destruct (t_finished t); [by intros [= <- <-]|].
  destruct (close_done _ _) as [m1|] eqn:Hc; [|done]. intros [= <- <-].
  transitivity (outer_view m1); [done|]. by rewrite (outer_close_done _ _ _ Hc), outer_forget.
Qed.
Lemma outer_sessionLocked file now m : outer_view (sessionLocked file now m) = outer_view m.
Proof. unfold sessionLocked. by destruct (m_sessions m !! _). Qed.
Lemma outer_scheduleIdle d m : outer_view (scheduleIdleReclaimAfterLocked d m) = outer_view m.
Proof. unfold scheduleIdleReclaimAfterLocked. by destruct (m_closed m). Qed.
Lemma outer_markActivity now m : outer_view (markActivityLocked now m) = outer_view m.
Proof.
  unfold markActivityLocked. destruct (m_closed m); [done|]. cbn.
  destruct (m_idleTimer m); [done|]. by rewrite outer_scheduleIdle.
Qed.
Lemma outer_scheduleWindow file c e m : outer_view (scheduleWindow file c e m) = outer_view m.
Proof.
  unfold scheduleWindow. destruct (buffer_range _ _ _); [|done].
  destruct (m_sessions m !! _); [|done]. by case_decide.
Qed.
Lemma outer_summary file now m : outer_view (maybeLogSummary file now m) = outer_view m.
Proof. unfold maybeLogSummary. destruct (m_sessions m !! _); [|done]. by case_decide. Qed.
Lemma outer_takeover v e hid off m : outer_view (takeover v e hid off m) = outer_view m.
Proof.
  unfold takeover. rewrite outer_set_session. unfold cancelSessionTasksLocked. by rewrite outer_cancel.
Qed.
Lemma outer_apply_event v s hid off w ob m :
  outer_view (apply_event v s hid off w ob m).1.1 = outer_view m.
Proof.
  unfold apply_event. destruct (if w then _ else _);
    repeat case_decide; cbn [fst]; by rewrite ?outer_takeover, ?outer_set_session.
Qed.

(** ** The life cycle *)
Lemma outer_life m m' : outer_view m' = outer_view m → life_view m' = life_view m.
Proof. destruct m, m'. intros Hv. cbn in Hv. injection Hv as -> -> -> -> -> -> -> -> -> -> ->. done. Qed.
Lemma outer_life_wf m m' : outer_view m' = outer_view m → life_wf m → life_wf m'.
Proof. intros H. by apply life_wf_view, outer_life. Qed.

Lemma prepareRead_life hid off len now m :
  life_view (prepareRead hid off len now m).1 = life_view m.
Proof.
  unfold prepareRead. destruct (m_handles m !! hid) as [h|]; [|done].
  destruct (released h); [done|]. destruct (observeHandleLocked _ _ _ _) as [h' ob].
  set (m1 := m <| m_handles ::= _ |>). change (m_closed m1) with (m_closed m).
  destruct (m_closed m); [done|]. cbv zeta. set (m2 := sessionLocked _ _ _).
  assert (life_view m2 = life_view m1) as H2
    by (apply outer_life; subst m2; by rewrite outer_sessionLocked, outer_markActivity).
  destruct (apply_event _ _ _ _ _ _ m2) as [[m3 ev] ind] eqn:He.
  assert (life_view m3 = life_view m2) as H3.
  { apply outer_life. pose proof (outer_apply_event (versionOf m2 (hd_file h'))
      (default (newSession (hd_file h') now) (m_sessions m2 !! versionOf m2 (hd_file h')))
      (hd_id h') off (inScheduledWindowLocked m2
        (default (newSession (hd_file h') now) (m_sessions m2 !! versionOf m2 (hd_file h'))) off)
      ob m2) as Ho. by rewrite He in Ho. }
  cbn [fst]. transitivity (life_view m3); [done|]. by rewrite H3, H2.
Qed.
Lemma readAt_begin_life rid hid off len now m m' :
  readAt_begin rid hid off len now m = Some m' → life_view m' = life_view m.
Proof.
  unfold readAt_begin. destruct (m_handles m !! hid); [|by intros [= <-]].
  destruct (readAt_clip _ _ _) as [[l|]|]; [|by intros [= <-]..].
  pose proof (prepareRead_life hid off l now m) as Hp.
  destruct (prepareRead hid off l now m) as [m1 [p|]]; [|by intros [= <-]].
  destruct (makeslice _ _); [by intros [= <-]|done].
Qed.
Lemma reclaimIdle_life e now m : life_view (reclaimIdleMemory e now m).1 = life_view m.
Proof.
  unfold reclaimIdleMemory. case_decide; [done|].
  repeat (case_decide; [cbn [fst]; by rewrite (outer_life _ _ (outer_scheduleIdle _ _))|]).
  by destruct (cc_clear _).
Qed.
Lemma Open_life file now m : life_view (Open file now m).1 = life_view m.
Proof.
  unfold Open. case_decide; [done|]. cbn [fst]. etrans; [|apply outer_life, outer_markActivity].
  etrans; [|apply outer_life, (outer_sessionLocked file now)]. done.
Qed.
Lemma Release_mark_life hid m : life_view (Release_mark hid m) = life_view m.
Proof. unfold Release_mark. destruct (m_handles m !! hid); [|done]. by destruct (released _). Qed.
Lemma Release_commit_life hid now m : life_view (Release_commit hid now m) = life_view m.
Proof.
  unfold Release_commit. destruct (m_handles m !! hid) as [h|]; [|done]. cbv zeta.
  set (m1 := m <| m_releasing ::= _ |>). destruct (m_sessions m1 !! _) as [s|]; [|done].
  etrans; [apply outer_life, outer_cleanup|]. case_decide; [|done].
  etrans; [|exact (eq_refl (life_view m1))]. apply outer_life.
  rewrite outer_set_session. unfold cancelSessionTasksLocked. by rewrite outer_cancel.
Qed.
Lemma queueDiskWrite_life key d m m' : queueDiskWrite key d m = Some m' → life_view m' = life_view m.
Proof.
  unfold queueDiskWrite. case_decide; [by intros [= <-]|]. destruct (m_diskClosed m) eqn:E; [done|].
  case_decide; by intros [= <-].
Qed.

Definition keeps_life m m' : Prop := life_wf m' ∧ m_cfg m' = m_cfg m.
Lemma keeps_view m m' : life_wf m → life_view m' = life_view m → keeps_life m m'.
Proof. intros Hw Hv. split; [by eapply life_wf_view|]. by injection Hv. Qed.
Lemma keeps_outer m m' : life_wf m → outer_view m' = outer_view m → keeps_life m m'.
Proof. intros Hw Hv. by apply keeps_view, outer_life. Qed.

(** The worker of a task moves on, or becomes free. *)
Lemma keeps_worker_at id pc pc0 m m1 :
  life_wf m → life_view m1 = life_view m → m_running m !! id = Some pc0 →
  keeps_life m (worker_at id pc m1).
Proof.
  intros Hw Hv Hr. pose proof (life_wf_view _ _ Hv Hw) as [W1 W2].
  assert (m_running m1 = m_running m ∧ m_cfg m1 = m_cfg m) as [Er Ec] by by injection Hv.
  split; [|done]. split.
  - intros Hd. destruct (W1 Hd) as (_ & _ & Hn & _). rewrite Er in Hn. rewrite Hn in Hr.
    by rewrite lookup_empty in Hr.
  - cbn. rewrite Er in *. by rewrite map_size_insert_Some by by exists pc0.
Qed.
Lemma keeps_worker_free id pc0 m m1 :
  life_wf m → life_view m1 = life_view m → m_running m !! id = Some pc0 →
  keeps_life m (worker_free id m1).
Proof.
  intros Hw Hv Hr. pose proof (life_wf_view _ _ Hv Hw) as [W1 W2].
  assert (m_running m1 = m_running m ∧ m_cfg m1 = m_cfg m) as [Er Ec] by by injection Hv.
  split; [|done]. split.
  - intros Hd. destruct (W1 Hd) as (_ & _ & Hn & _). rewrite Er in Hn. rewrite Hn in Hr.
    by rewrite lookup_empty in Hr.
  - cbn. rewrite Er in *. rewrite map_size_delete_Some by by exists pc0.
    assert (size (m_running m) ≠ 0%nat); [|lia].
    intros Hz%map_size_empty_iff. rewrite Hz in Hr. by rewrite lookup_empty in Hr.
Qed.
Lemma keeps_hedge m m1 (f : gmap nat hedgePc → gmap nat hedgePc) :
  life_wf m → life_view m1 = life_view m → (m_diskClosed m = true → f ∅ = ∅) →
  keeps_life m (m1 <| m_hedging ::= f |>).
Proof.
  intros Hw Hv Hf. pose proof (life_wf_view _ _ Hv Hw) as [W1 W2].
  assert (m_diskClosed m1 = m_diskClosed m ∧ m_cfg m1 = m_cfg m) as [Ed Ec] by by injection Hv.
  split; [|done]. split; [|done]. cbn. intros Hd. destruct (W1 Hd) as (Hc & Hi & Hr & Hh).
  split; [done|]. split_and!; [done|done|]. cbn. rewrite Hh. apply Hf. by rewrite <- Ed.
Qed.

Lemma worker_life l m m' :
  worker_label l = true → tasks_wf m → life_wf m → limits_ok m → enabled l m →
  perform l m = Some m' → keeps_life m m'.
Proof.
  intros Hl Hwf Hw Hlim He. destruct l; try done; cbn in He; cbn [perform]; unfold worker_step;
    [|unfold at_worker in He; destruct (m_running m !! id) as [pc|] eqn:Hr; cbn in He;
      [|discriminate He]; destruct pc as [k|r|r|data]; try discriminate He;
      cbn [mbind option_bind]..|].
  - unfold take_next. destruct (nextTask now m) as [[m1 r]|] eqn:Hn; cbn [mbind option_bind]; [|done].
    cbn [mbind option_bind]. intros [= <-].
    destruct (next_loop_spec (Datatypes.S (length (h_queue (m_heap m)))) [] now m) as (m2 & r2 & Hn2 & Hc);
      [done|done|by intros id ?%not_elem_of_nil|lia|].
    unfold nextTask in Hn. rewrite Hn in Hn2. injection Hn2 as <- <-.
    apply outer_next_loop, outer_life in Hn. destruct r as [id|]; [|by apply keeps_view].
    assert (m_running m !! id = None) as Hnr.
    { destruct (m_running m !! id) eqn:Hr; [|done]. destruct (tw_running _ _ Hwf _ _ Hr) as (t & Ht & Hs).
      rewrite (tw_unstarted _ _ Hwf id t Ht) in Hs; [done|]. left. apply Hc. }
    pose proof (life_wf_view _ _ Hn Hw) as [W1 W2]. injection Hn as Ed Ec Ei Er _ Eg.
    destruct He as [He1 He2]. split; [|done]. split; cbn.
    + intros Hd. destruct (W1 Hd) as [Hc1 _]. congruence.
    + rewrite Er, map_size_insert_None by done. rewrite Er in W2. rewrite Ei in *. lia.
  - destruct (download_attempt id k reply m) as [[m1 pc]|] eqn:Hd; cbn [mbind option_bind]; [|done]. intros [= <-].
    eapply keeps_worker_at; [done| |exact Hr]. revert Hd. unfold download_attempt.
    destruct (obj m id) as [t|]; cbn [mbind option_bind]; [|done]. cbn. destruct (judge _ _); [by intros [= <- _]|].
    destruct (t_canceled t); [by intros [= <- _]|]. case_decide; by intros [= <- _].
  - destruct (key_of m id) as [key|]; cbn [mbind option_bind]; [|done]. intros [= <-].
    eapply keeps_worker_at; [done|by destruct r|exact Hr].
  - unfold worker_commit. destruct (finishTask_locked id r latency m) as [[m1 b]|] eqn:Hf; cbn [mbind option_bind]; [|done].
    apply outer_finish, outer_life in Hf. cbn [mbind option_bind].
    destruct r, b; intros [= <-]; first [by eapply keeps_worker_at | by eapply keeps_worker_free].
  - destruct (key_of m id) as [key|]; cbn [mbind option_bind]; [|done]. cbn [mbind option_bind].
    destruct (queueDiskWrite key data m) as [m1|] eqn:Hq; cbn [mbind option_bind]; [|done]. intros [= <-].
    apply queueDiskWrite_life in Hq. by eapply keeps_worker_free.
  - intros [= <-]. destruct Hw as [W1 W2]. split; [|done]. split; cbn; [|lia].
    intros Hd. destruct (W1 Hd) as (_ & Hi & _). lia.
Qed.

Lemma hedge_life l m m' :
  hedge_label l = true → tasks_wf m → life_wf m → enabled l m → perform l m = Some m' →
  keeps_life m m'.
Proof.
  intros Hl Hwf Hw He. destruct l; try done; cbn in He; cbn [perform];
    [|unfold at_hedge in He; unfold hedge_step;
      destruct (m_hedging m !! id) as [pc|] eqn:Hr; cbn in He; [|discriminate He];
      assert (m_diskClosed m = false) as Hopen
        by (eapply (disk_open m id (WRead 0)); [done|right; by eexists]);
      destruct pc as [|data|data|data]; try discriminate He; cbn [mbind option_bind]..].
  - destruct (startHedge id m) as [[m1 b]|] eqn:Hs; cbn [mbind option_bind]; [|done]. intros [= <-]. revert Hs.
    unfold startHedge. destruct (obj m id) as [t|]; cbn [mbind option_bind]; [|done]. cbn [mbind option_bind].
    case_decide as Hc; [intros [= <- _]; by apply keeps_view|]. intros [= <- _].
    match goal with |- keeps_life _ ?r =>
      refine (keeps_hedge m (r <| m_hedging := m_hedging m |>) <[id := HRead]> Hw _ _) end; [done|].
    intros Hd. destruct (lw_disk _ Hw Hd) as [Hcl _]. tauto.
  - destruct (obj m id) as [t|]; cbn [mbind option_bind]; [|done]. intros [= <-].
    destruct (judge _ _); apply keeps_hedge; try done; by rewrite Hopen.
  - destruct (key_of m id) as [key|]; cbn [mbind option_bind]; [|done]. intros [= <-].
    apply keeps_hedge; [done|done|by rewrite Hopen].
  - unfold hedge_publish. destruct (publishHedge_locked id data m) as [[m1 b]|] eqn:Hp; cbn [mbind option_bind]; [|done].
    apply outer_publish, outer_life in Hp. intros [= <-].
    destruct b; apply keeps_hedge; try done; by rewrite Hopen.
  - destruct (key_of m id) as [key|]; cbn [mbind option_bind]; [|done]. cbn [mbind option_bind].
    destruct (queueDiskWrite key data m) as [m1|] eqn:Hq; cbn [mbind option_bind]; [|done]. intros [= <-].
    apply queueDiskWrite_life in Hq. apply keeps_hedge; [done|done|by rewrite Hopen].
Qed.

Lemma perform_life l m m' :
  tasks_wf m → life_wf m → limits_ok m → enabled l m → perform l m = Some m' → keeps_life m m'.
Proof.
  intros Hwf Hw Hlim He.
  destruct (worker_label l) eqn:Hwl; [by apply worker_life|].
  destruct (hedge_label l) eqn:Hhl; [by apply hedge_life|].
  destruct l; try done; cbn [enabled perform] in *; try (intros [= <-]; by apply keeps_view).
  - intros [= <-]. apply keeps_view, Open_life. done.
  - intros [= <-]. apply keeps_view, Release_mark_life. done.
  - intros [= <-]. apply keeps_view, Release_commit_life. done.
  - intros Hb%readAt_begin_life. by apply keeps_view.
  - unfold reader_get. destruct (m_reads m !! rid) as [r|]; cbn [mbind option_bind]; [|done]. cbn [mbind option_bind].
    case_decide; [destruct (makeslice _ _); [intros [= <-]; by apply keeps_view|done]|].
    destruct (cc_get io _ _ _). intros [= <-]. by apply keeps_view.
  - unfold reader_get. destruct (m_reads m !! rid) as [r|]; cbn [mbind option_bind]; [|done]. cbn [mbind option_bind].
    case_decide; [destruct (makeslice _ _); [intros [= <-]; by apply keeps_view|done]|].
    destruct (cc_get io _ _ _). intros [= <-]. by apply keeps_view.
  - unfold reader_lock. destruct (m_reads m !! rid) as [r|]; cbn [mbind option_bind]; [|done]. cbn [mbind option_bind].
    destruct (ensureTask_locked _ _ _ _ m) as [[m1 e]|] eqn:Hen; cbn [mbind option_bind]; [|done]. intros [= <-].
    apply outer_ensure, outer_life in Hen. by apply keeps_view.
  - unfold reader_mark. destruct (m_reads m !! rid) as [r|]; cbn [mbind option_bind]; [|done]. cbn [mbind option_bind].
    destruct (rd_pc r); try done. intros [= <-]. by apply keeps_view.
  - unfold reader_waited. destruct (m_reads m !! rid) as [r|]; cbn [mbind option_bind]; [|done]. cbn [mbind option_bind].
    destruct (rd_pc r); try done. destruct (obj m id); cbn [mbind option_bind]; [|done]. intros [= <-]. by apply keeps_view.
  - intros [= <-]. apply keeps_outer, outer_scheduleWindow. done.
  - destruct (ensureTask_locked _ _ _ _ m) as [[m1 e]|] eqn:Hen; cbn [mbind option_bind]; [|done]. intros [= <-].
    apply outer_ensure in Hen. by apply keeps_outer.
  - unfold diskWriter. destruct (m_diskWrites m); intros [= <-]; by apply keeps_view.
  - intros [= <-]. apply keeps_view, reclaimIdle_life. done.
  - intros [= <-]. apply keeps_outer, outer_summary. done.
  - intros [= <-]. unfold Close_begin. destruct (m_closed m) eqn:Hc; [by apply keeps_view|].
    destruct Hw as [W1 W2]. split; [|done]. split; [|done]. cbn. intros Hd.
    destruct (W1 Hd). congruence.
  - intros [= <-]. destruct Hw as [W1 W2]. split; [|done]. split; [|done]. cbn. by intros _.
Qed.

(** ** Reachable states *)
Record manager_wf m : Prop := {
  mgr_tasks : tasks_wf m; mgr_life : life_wf m; mgr_limits : limits_ok m
}.

Lemma newManager_wf cfg store : config_ok cfg → manager_wf (newManager cfg store).
Proof.
  intros Hc. split; [| |split; [apply Hc|apply Hc]].
  - split; try done; try (intros *; cbn; by rewrite ?lookup_empty);
      try (intros id t; unfold obj; cbn; by rewrite lookup_empty).
    + apply empty_heap_wf.
    + split; [apply NoDup_nil_2|]. by intros id ?%not_elem_of_nil.
  - split; [done|]. cbn. rewrite map_size_empty. lia.
Qed.

Lemma perform_wf l m :
  manager_wf m → enabled l m → ¬ make_panics l m → ∃ m', perform l m = Some m' ∧ manager_wf m' ∧ m_cfg m' = m_cfg m.
Proof.
  intros [Ht Hl Hm] He Hmk. destruct (perform_tasks l m Ht Hl Hm He Hmk) as (m' & Hp & Ht').
  destruct (perform_life l m m' Ht Hl Hm He Hp) as [Hl' Hc].
  exists m'. split_and!; [done| |done]. split; [done|done|]. by apply (limits_ok_cfg m).
Qed.

(** The step is taken, so it did not panic. *)
Lemma perform_kept l m m' :
  manager_wf m → enabled l m → perform l m = Some m' → manager_wf m' ∧ m_cfg m' = m_cfg m.
Proof.
  intros Hw He Hp. destruct (perform_wf l m Hw He) as (m1 & Hp' & Hwf & Hc).
  - intros Hmk%make_panics_None. congruence.
  - rewrite Hp in Hp'. injection Hp' as <-. done.
Qed.

Lemma reachable_wf cfg store m :
  config_ok cfg → reachable (newManager cfg store) m → manager_wf m ∧ m_cfg m = cfg.
Proof.
  intros Hc. induction 1 as [|l m m' Hr [IH Hcfg] He Hp]; [split; [by apply newManager_wf|done]|].
  destruct (perform_kept l m m' IH He Hp) as [Hwf Hc']. split; [done|congruence].
Qed.
End frame.
