(* ===== verification/ManagerRead.v ===== *)
(** * Cutting a read into chunks and putting it together again

    The chunk geometry of [readAt] and [ensureTask]
    ([src/internal/stream/manager.go]): which bytes a chunk covers, and that
    copying the chunks yields the requested slice of the file. *)
From S2P Require Import Prelude GoList GoStrings ChunkKeys ChunkStore ChunkCache TaskHeap StreamConfig Access Manager ManagerTasks.

Section geometry.
Context (content : bytes) (cs : Z).
Hypothesis cs_range : 0 < cs < 2 ^ 62.

Definition chunk_data (i : Z) : bytes := slice content (i * cs) cs.

Lemma chunk_data_length i : 0 ≤ i → zlen (chunk_data i) = Z.max 0 (Z.min cs (zlen content - i * cs)).
Proof. intros. unfold chunk_data. apply slice_length; lia. Qed.

(** A shorter request at the end of the file gives the whole chunk. *)
Lemma chunk_data_tail i len :
  0 ≤ i → len = Z.min cs (zlen content - i * cs) → slice content (i * cs) len = chunk_data i.
Proof.
  intros Hi Hl. unfold chunk_data. destruct (Z.le_gt_cases cs (zlen content - i * cs)).
  - by rewrite Hl, Z.min_l by lia.
  - rewrite Z.min_r in Hl by lia. destruct (Z.le_gt_cases (zlen content) (i * cs)).
    + by rewrite !slice_past by lia.
    + rewrite Hl. replace cs with ((zlen content - i * cs) + (cs - (zlen content - i * cs))) at 4 by lia.
      rewrite <- slice_app by lia.
      rewrite (slice_past content (i * cs + _)) by lia. by rewrite app_nil_r.
Qed.

Context (offset length : Z).
Hypothesis offset_range : 0 ≤ offset.
Hypothesis length_range : 0 < length.
Hypothesis end_range : offset + length < 2 ^ 62.

(** Where the copy stands before chunk [i]: on the way, past the end of the
    file, or done. *)
Definition copied (i : Z) (acc : bytes) : Prop :=
  acc = slice content offset (zlen acc) ∧ zlen acc ≤ length ∧
  (zlen acc = Z.max 0 (i * cs - offset) ∨ zlen acc = length ∨
   (zlen content ≤ i * cs ∧ offset ≤ i * cs)).

(** The bytes one turn of the loop adds. *)
Lemma copied_step i acc start available :
  0 ≤ i → (i + 1) * cs < 2 ^ 63 → offset < (i + 1) * cs → copied i acc →
  start = Z.max 0 (offset - i * cs) →
  available = Z.min (zlen (chunk_data i) - start) (length - zlen acc) → 0 < available →
  copied (i + 1) (acc ++ slice (chunk_data i) start available).
Proof.
  intros Hi Hr Ho (Ha & Hle & Hc) Hs Hav Hpos. pose proof (chunk_data_length i Hi) as Hd.
  pose proof (zlen_nonneg acc) as Hz.
  assert (zlen acc = Z.max 0 (i * cs - offset)) as Hacc by lia.
  assert (slice (chunk_data i) start available = slice content (i * cs + start) available) as ->
    by (unfold chunk_data; apply slice_slice; lia).
  assert (i * cs + start = offset + zlen acc) as -> by lia.
  assert (zlen (slice content (offset + zlen acc) available) = available) as Hlen
    by (rewrite slice_length; lia).
  unfold copied. rewrite zlen_app, Hlen. split_and!; [|lia|lia].
  rewrite Ha at 1. apply slice_app; lia.
Qed.

Definition is_chunk (i : Z) (j : nat) (d : bytes) : Prop := d = chunk_data (i + Z.of_nat j).

Lemma assemble_start i :
  0 ≤ i → i * cs < 2 ^ 62 →
  (if decide (i *! cs < offset) then offset -! i *! cs else 0) = Z.max 0 (offset - i * cs).
Proof. intros. nowrap. case_decide; nowrap; lia. Qed.

(** Whatever [readAt] returns is the requested slice. *)
Lemma assemble_sound chunks i acc b :
  0 ≤ i → (i + zlen chunks) * cs < 2 ^ 62 → offset < (i + 1) * cs →
  (∀ j d, chunks !! j = Some d → is_chunk i j d) → copied i acc →
  assemble cs offset length i chunks acc = Ok b → b = slice content offset length.
Proof.
  revert i acc. induction chunks as [|d chunks IH]; intros i acc Hi Hr Ho Hd Hc; cbn [assemble].
  { case_decide as Hl; [done|]. intros [= <-]. destruct Hc as (Ha & _ & _).
    assert (zlen acc = length) as Hz by lia. by rewrite Hz in Ha. }
  pose proof (Hd 0%nat d eq_refl) as H0. unfold is_chunk in H0. rewrite Z.add_0_r in H0. subst d.
  rewrite zlen_cons in Hr. pose proof (zlen_nonneg chunks). assert (0 ≤ zlen chunks * cs) by nia.
  rewrite assemble_start by nia. pose proof (chunk_data_length i Hi).
  destruct Hc as (Ha & Hle & Hcase) eqn:E. clear E. pose proof (zlen_nonneg acc).
  set (start := Z.max 0 (offset - i * cs)).
  assert (0 ≤ i * cs) by nia.
  assert ((if decide (length -! zlen acc < zlen (chunk_data i) -! start)
           then length -! zlen acc else zlen (chunk_data i) -! start)
          = Z.min (zlen (chunk_data i) - start) (length - zlen acc)) as ->
    by (nowrap; case_decide; lia).
  case_decide as Hav; [done|]. intros Hrun. eapply IH; [| | | |exact (copied_step i acc start _ Hi
    ltac:(nia) Ho (conj Ha (conj Hle Hcase)) eq_refl eq_refl ltac:(lia))|exact Hrun]; [lia|nia|nia|].
  intros j d Hj. specialize (Hd (Datatypes.S j) d Hj). unfold is_chunk in *.
  by replace (i + 1 + Z.of_nat j) with (i + Z.of_nat (Datatypes.S j)) by lia.
Qed.

(** With every chunk of a range inside the file, the copy succeeds. *)
Lemma assemble_complete chunks i acc :
  offset + length ≤ zlen content →
  0 ≤ i → (i + zlen chunks) * cs < 2 ^ 62 → offset < (i + 1) * cs →
  offset + length ≤ (i + zlen chunks) * cs → (chunks ≠ [] → (i + zlen chunks - 1) * cs < offset + length) →
  (∀ j d, chunks !! j = Some d → is_chunk i j d) →
  zlen acc = Z.min length (Z.max 0 (i * cs - offset)) →
  is_ok (assemble cs offset length i chunks acc) = true.
Proof.
  intros Hc. revert i acc. induction chunks as [|d chunks IH]; intros i acc Hi Hr Ho Hcov Hlast Hd Ha;
    cbn [assemble].
  { rewrite zlen_nil in Hcov. rewrite decide_False; [done|]. lia. }
  pose proof (Hd 0%nat d eq_refl) as H0. unfold is_chunk in H0. rewrite Z.add_0_r in H0. subst d.
  rewrite zlen_cons in *. specialize (Hlast ltac:(done)).
  pose proof (zlen_nonneg chunks). assert (0 ≤ zlen chunks * cs) by nia.
  assert (i * cs < offset + length) by nia. assert (0 ≤ i * cs) by nia.
  rewrite assemble_start by nia. pose proof (chunk_data_length i Hi). pose proof (zlen_nonneg acc).
  set (start := Z.max 0 (offset - i * cs)).
  assert ((if decide (length -! zlen acc < zlen (chunk_data i) -! start)
           then length -! zlen acc else zlen (chunk_data i) -! start)
          = Z.min (zlen (chunk_data i) - start) (length - zlen acc)) as ->
    by (nowrap; case_decide; lia).
  set (available := Z.min _ _). assert (0 < available ≤ length) by lia.
  rewrite decide_False by lia. apply IH; [lia|nia|nia|nia| | |].
  - intros Hne. destruct chunks; [done|]. nia.
  - intros j d Hj. specialize (Hd (Datatypes.S j) d Hj). unfold is_chunk in *.
    by replace (i + 1 + Z.of_nat j) with (i + Z.of_nat (Datatypes.S j)) by lia.
  - rewrite zlen_app. unfold chunk_data at 1. rewrite slice_slice by lia.
    rewrite slice_length by lia. lia.
Qed.
End geometry.
