(* ===== verification/ManagerContent.v ===== *)
(** * What the manager hands out is the remote file

    [content file] is the file as the remote serves it.  As long as the remote
    answers a range request of the right length with the bytes of that range,
    every chunk in the store, every successfully finished task, every entry of
    the disk queue and every chunk a reader collected is the chunk of the file
    its key names. *)
From S2P Require Import Prelude GoList GoStrings ChunkKeys ChunkStore ChunkDisk ChunkCache TaskHeap StreamConfig Access Manager ManagerTasks ManagerSteps ManagerTable ManagerQueue ManagerInv ManagerFrame ManagerRead.

(** ** How task objects evolve *)
Section grows.
Context {S : Type} `{!ChunkCache S}.
Implicit Types (m : manager S) (id rid : nat) (t : task).

(** What a task downloads, and what it gives its waiters. *)
Definition geom t := (t_key t, t_file t, t_offset t, t_length t).
Definition payload t := (t_finished t, t_data t, t_err t).

Definition geom_stays m m' : Prop :=
  ∀ id t, obj m id = Some t → ∃ t', obj m' id = Some t' ∧ geom t' = geom t.
(** No new task, and none that ended well. *)
Definition grows m m' : Prop :=
  geom_stays m m' ∧
  ∀ id t', obj m' id = Some t' →
    ∃ t, obj m id = Some t ∧ geom t' = geom t ∧ (payload t' = payload t ∨ t_err t' ≠ None).

#[export] Instance grows_refl : Reflexive grows.
Proof. intros m. split; [intros id t Ht; by exists t|]. intros id t Ht. exists t. auto. Qed.
#[export] Instance grows_trans : Transitive grows.
Proof.
  intros m1 m2 m3 [A1 B1] [A2 B2]. split.
  - intros id t Ht. destruct (A1 _ _ Ht) as (t' & Ht' & E). destruct (A2 _ _ Ht') as (t'' & Ht'' & E').
    exists t''. split; [done|congruence].
  - intros id t3 Ht3. destruct (B2 _ _ Ht3) as (t2 & Ht2 & E2 & P2).
    destruct (B1 _ _ Ht2) as (t1 & Ht1 & E1 & P1). exists t1. split_and!; [done|congruence|].
    destruct P2 as [P2|]; [|by right]. pose proof P2 as P2'. injection P2' as Pf Pd Pe.
    destruct P1 as [P1|P1]; [left|right]; congruence.
Qed.

Lemma grows_heap m m' : m_heap m' = m_heap m → grows m m'.
Proof.
  intros Hh. assert (∀ id, obj m' id = obj m id) as Ho by (intros id; unfold obj; by rewrite Hh).
  split; intros id t; rewrite Ho; eauto 6.
Qed.
Lemma grows_view m m' : task_view m' = task_view m → grows m m'.
Proof. intros Hv. by apply grows_heap, view_heap. Qed.
Lemma grows_but_index m m' :
  (∀ id, core <$> obj m' id = core <$> obj m id) → grows m m'.
Proof.
  intros Ho.
  assert (∀ t t', core t' = core t → geom t' = geom t ∧ payload t' = payload t) as Hc.
  { intros t t' E. injection E as ???????????????. unfold geom, payload. split; congruence. }
  split.
  - intros id t Ht. specialize (Ho id). rewrite Ht in Ho.
    apply core_Some in Ho as (t' & Ht' & E). exists t'. split; [done|]. by apply Hc.
  - intros id t' Ht'. specialize (Ho id). rewrite Ht' in Ho. symmetry in Ho.
    apply core_Some in Ho as (t & Ht & E). symmetry in E. apply Hc in E as [? ?]. exists t. auto.
Qed.
Lemma grows_set_task id f m :
  (∀ t, geom (f t) = geom t ∧ (payload (f t) = payload t ∨ t_err (f t) ≠ None)) →
  grows m (set_task id f m).
Proof.
  intros Hf. split; intros id' t; rewrite obj_set_task.
  - intros Ht. case_decide; [subst; rewrite Ht|by exists t]. exists (f t). split; [done|apply Hf].
  - case_decide; [subst|intros Ht; exists t; auto]. intros (t0 & Ht0 & ->)%fmap_Some.
    exists t0. split_and!; [done|apply Hf..].
Qed.
Lemma grows_cancel P `{!∀ t, Decision (P t)} m : grows m (cancel_tasks P m).
Proof.
  unfold cancel_tasks. induction (map_to_list (m_tasks m)) as [|p l IH]; [done|]. cbn [foldr].
  etrans; [exact IH|]. apply grows_set_task. intros t. case_decide; auto.
Qed.
Lemma grows_forget key id m : grows m (forget_task key id m).
Proof. apply grows_heap. unfold forget_task. by case_decide. Qed.
Lemma grows_close id m m' : close_done id m = Some m' → grows m m'.
Proof.
  unfold close_done. destruct (obj m id) as [t|]; [|done]. cbn. destruct (t_closed t); [done|].
  intros [= <-]. apply grows_set_task. auto.
Qed.
Lemma grows_discard id m m' : discardCanceledTaskLocked id m = Some m' → grows m m'.
Proof.
  unfold discardCanceledTaskLocked. destruct (obj m id) as [t|]; [|done]. cbn [mbind option_bind].
  destruct (t_finished t); [by intros [= <-]|].
  destruct (close_done _ _) as [m1|] eqn:Hc; [|done]. intros [= <-].
  etrans; [|apply grows_view, view_cleanup]. etrans; [|by eapply grows_close].
  etrans; [|apply grows_forget]. apply grows_set_task. intros t'. split; [done|by right].
Qed.
Lemma grows_push_all X m m' : tasks_wf_but X m → push_all X m = Some m' → grows m m'.
Proof.
  unfold push_all. revert m. induction X as [|x X IH]; intros m Hwf; cbn [foldl]; [by intros [= <-]|].
  cbn [mbind option_bind]. destruct (push_wf X x m Hwf) as (h & Hh & Hwf'). rewrite Hh.
  cbn [mbind option_bind]. intros Hf. etrans; [|by apply (IH _ Hwf')].
  apply grows_but_index. intros id.
  destruct (tw_skip _ _ Hwf) as [_ Hx]. destruct (Hx x (list_elem_of_here _ _)) as [Hq Hex].
  destruct (heap_push_spec x (m_heap m) (tw_heap _ _ Hwf) Hq Hex) as (h' & Hh' & _ & _ & Ho & _).
  rewrite Hh in Hh'. injection Hh' as <-. apply but_index_core, Ho.
Qed.

Lemma grows_pop m id h :
  heap_wf (m_heap m) → heap_pop (m_heap m) = Some (id, h) → grows m (m <| m_heap := h |>).
Proof.
  intros Hwf Hp. apply grows_but_index. intros id'. apply but_index_core.
  destruct (decide (h_queue (m_heap m) = [])) as [Hq|Hq].
  { unfold heap_pop, Len in Hp. rewrite Hq in Hp. done. }
  destruct (heap_pop_spec _ Hwf Hq) as (id0 & h0 & Hp0 & _ & _ & Ho & _).
  rewrite Hp in Hp0. injection Hp0 as <- <-. apply Ho.
Qed.

Lemma grows_next_loop fuel X now m m' r :
  tasks_wf_but X m → next_loop fuel X now m = Some (m', r) → grows m m'.
Proof.
  revert X m. induction fuel as [|fuel IH]; intros X m Hwf; cbn [next_loop]; [done|].
  case_decide as Hq.
  { destruct (push_all X m) as [m1|] eqn:Hp; [|done]. intros [= <- <-]. by eapply grows_push_all. }
  destruct (pop_wf X m Hwf Hq) as (id & h & t & Hpop & Hwf1 & _ & Ht & Hs).
  pose proof (grows_pop m id h (tw_heap _ _ Hwf) Hpop) as Hg.
  rewrite Hpop. cbn [mbind option_bind]. rewrite Ht. cbn [mbind option_bind].
  destruct (t_finished t) eqn:Hfin.
  { intros Hn. etrans; [exact Hg|]. eapply IH; [by eapply drop_wf|done]. }
  destruct (t_canceled t).
  { destruct (discard_wf (id :: X) id t _ Hwf1 Ht) as (m2 & Hd & Hwf2 & _ & t2 & Ht2 & Hf2).
    rewrite Hd. cbn [mbind option_bind]. intros Hn. etrans; [exact Hg|].
    etrans; [by eapply grows_discard|]. eapply IH; [by eapply drop_wf|done]. }
  case_decide.
  { intros Hn. etrans; [exact Hg|]. eapply IH; [|done].
    eapply tasks_wf_perm; [|exact Hwf1]. apply Permutation_cons_append. }
  pose proof (start_wf X id t now _ Hwf1 Ht Hfin) as Hwf2.
  destruct (push_all X _) as [m3|] eqn:Hp; [|done]. intros [= <- <-].
  pose proof (push_all_worker X id (WRead 0)
    (start_task id (version (t_key t)) now (m <| m_heap := h |>))) as Hpw.
  rewrite Hp in Hpw. etrans; [exact Hg|].
  transitivity (worker_at id (WRead 0) m3); [|by apply grows_heap].
  etrans; [|by eapply grows_push_all]. apply (grows_set_task id). auto.
Qed.

(** [ensureTask]: nothing but, perhaps, one new task. *)
Definition grows_by (new : nat → task → Prop) m m' : Prop :=
  geom_stays m m' ∧
  ∀ id t', obj m' id = Some t' →
    (∃ t, obj m id = Some t ∧ geom t' = geom t ∧ (payload t' = payload t ∨ t_err t' ≠ None)) ∨ new id t'.
Lemma grows_grows_by new m m' : grows m m' → grows_by new m m'.
Proof. intros [A B]. split; [done|]. intros id t' Ht'. left. by apply B. Qed.

Definition is_new m file i (id : nat) t' : Prop :=
  id = m_nextTask m ∧ 0 < chunk_length m file i ∧ ∃ e p, core t' = core (newTask m file i e p).

Lemma grows_ensure file i e p m m' r :
  tasks_wf m → ensureTask_locked file i e p m = Some (m', r) →
  grows_by (is_new m file i) m m' ∧
  (∀ id, r = ETask id → ∃ t, obj m' id = Some t ∧ t_key t = mkChunkKey (versionOf m file) i) ∧
  (∀ d, r = EVirtual d → d = [] ∧ chunk_length m file i ≤ 0).
Proof.
  intros Hwf. unfold ensureTask_locked. set (key := mkChunkKey (versionOf m file) i).
  destruct (m_closed m) eqn:Hcl; [by intros [= <- <-]; split_and!; [by apply grows_grows_by|..]|].
  set (create := if decide (chunk_length m file i ≤ 0) then _ else _).
  assert (dead_or_absent key m → create = Some (m', r) →
    grows_by (is_new m file i) m m' ∧
    (∀ id, r = ETask id → ∃ t, obj m' id = Some t ∧ t_key t = key) ∧
    (∀ d, r = EVirtual d → d = [] ∧ chunk_length m file i ≤ 0)) as Hcreate.
  { intros Hd. unfold create. case_decide as Hlen.
    { intros [= <- <-]. split_and!; [by apply grows_grows_by|done|]. by intros d [= <-]. }
    destruct (add_task_wf file i e p m Hwf Hd) as (m1 & -> & Hwf1 & Ho & _). intros [= <- <-].
    assert (obj m (m_nextTask m) = None) as Hfresh.
    { destruct (obj m (m_nextTask m)) eqn:E; [|done]. apply (tw_fresh _ _ Hwf) in E. lia. }
    assert (∀ id t', obj m1 id = Some t' → if decide (id = m_nextTask m)
      then core t' = core (newTask m file i e p)
      else ∃ t, obj m id = Some t ∧ core t' = core t) as Hb.
    { intros id t' Ht'. specialize (Ho id). apply but_index_core in Ho. rewrite Ht' in Ho.
      case_decide; symmetry in Ho; apply core_Some in Ho as (t & Ht & E); [by injection Ht as <-|by exists t]. }
    split_and!; [split| |done].
    - intros id t Ht. specialize (Ho id). rewrite decide_False in Ho by congruence.
      apply but_index_core in Ho. rewrite Ht in Ho. apply core_Some in Ho as (t' & Ht' & E).
      exists t'. split; [done|]. injection E as ???????????????. unfold geom. congruence.
    - intros id t' Ht'. specialize (Hb _ _ Ht'). case_decide; [right|left].
      + split_and!; [done|lia|by eexists _, _].
      + destruct Hb as (t & Ht & E). exists t. injection E as ???????????????.
        unfold geom, payload. split_and!; [done|congruence|left; congruence].
    - intros id [= <-]. specialize (Ho (m_nextTask m)). rewrite decide_True in Ho by done.
      apply but_index_core in Ho. apply core_Some in Ho as (t & Ht & E). exists t. split; [done|].
      by injection E. }
  destruct (m_tasks m !! key) as [id|] eqn:Hk; [|intros Hc; apply Hcreate; [|done]; intros ????; congruence].
  destruct (tw_table _ _ Hwf _ _ Hk) as (t & Ht & Htk & Htf). rewrite Ht. cbn [mbind option_bind].
  case_decide as Hlive; cycle 1.
  { intros Hc. apply Hcreate; [|done]. intros id' t' Hid' Ht'. rewrite Hk in Hid'.
    injection Hid' as <-. rewrite Ht in Ht'. injection Ht' as <-.
    destruct (t_finished t), (t_canceled t); tauto. }
  case_decide as Hp; [|intros [= <- <-]; split_and!; [by apply grows_grows_by| |done];
    intros ? [= <-]; by exists t].
  destruct (promote_wf id t p m Hwf Ht) as (h & -> & _ & Hb); [by apply Hlive|by apply Hp|].
  cbn [mbind option_bind]. intros [= <- <-]. split_and!; [|..|done].
  - apply grows_grows_by, grows_but_index. intros id'.
    transitivity (core <$> obj (set_task id (λ t, t <| t_priority := p |>) m) id').
    + apply but_index_core, Hb.
    + rewrite obj_set_task. case_decide; [subst; by rewrite Ht|done].
  - intros ? [= <-]. specialize (Hb id). rewrite obj_set_task, decide_True, Ht in Hb by done.
    apply but_index_core, core_Some in Hb as (t' & Ht' & E). exists t'. split; [done|].
    injection E as -> ??????????????. done.
Qed.
End grows.

(** ** The invariant *)
Section content.
Context {S : Type} `{!ChunkCache S, !ChunkCacheLaws S}.
Context (content : File → bytes) (cs : Z).
Hypothesis cs_range : 0 < cs < 2 ^ 61.
Implicit Types (m : manager S) (id rid : nat) (t : task).

(** A file as the remote lists it: a decimal FSID, a size and time in range,
    and, when the size is known, that many bytes. *)
Definition file_ok (file : File) : Prop :=
  FSID file ≠ "" ∧ all_digits (FSID file) ∧ 0 ≤ Size file < 2 ^ 61 ∧ 0 ≤ MTM file < 2 ^ 63 ∧
  (0 < Size file → zlen (content file) = Size file).
Definition file_chunk (file : File) (i : Z) : bytes := chunk_data (content file) cs i.
Definition file_key (file : File) (i : Z) : chunkKey := mkChunkKey (chunkVersion file cs) i.

(** [d] is the chunk [k] names. *)
Definition right_chunk (k : chunkKey) (d : bytes) : Prop :=
  ∀ file i, file_ok file → 0 ≤ i → k = file_key file i → d = file_chunk file i.

Lemma right_chunk_intro file i : file_ok file → right_chunk (file_key file i) (file_chunk file i).
Proof.
  intros (_ & _ & Hs & Hm & _) file' i' (_ & _ & Hs' & Hm' & _) _ [= Hv ->].
  rewrite (chunkVersion_same file file' cs); [done|lia..|done].
Qed.

Lemma file_key_ok file i : file_ok file → 0 ≤ i < 2 ^ 63 → key_ok (file_key file i).
Proof.
  intros (_ & Hd & _) Hi. split_and!;
    [apply chunkVersion_nonempty|by apply chunkVersion_plain|cbn; lia|cbn; lia].
Qed.

Record geom_right t : Prop := {
  gr_file : file_ok (t_file t);
  gr_index : ∃ i, 0 ≤ i ∧ i * cs < 2 ^ 61 ∧ t_key t = file_key (t_file t) i ∧
    t_offset t = i * cs ∧
    t_length t = if decide (0 < Size (t_file t)) then Z.min cs (Size (t_file t) - i * cs) else cs
}.
Definition payload_right t : Prop :=
  t_finished t = true → t_err t = None → right_chunk (t_key t) (t_data t).
Definition tasks_right m : Prop := ∀ id t, obj m id = Some t → geom_right t ∧ payload_right t.

Definition store_right (s : S) : Prop :=
  cc_wf s ∧ ∀ k d, key_ok k → cc_holds s k d → right_chunk k d.
Definition entry_right (e : cacheEntry) : Prop :=
  key_ok (ce_key e) ∧ right_chunk (ce_key e) (ce_data e).

Definition worker_data (pc : workerPc) : option bytes :=
  match pc with WPut (Ok d) | WCommit (Ok d) | WDisk d => Some d | _ => None end.
Definition hedge_data (pc : hedgePc) : option bytes :=
  match pc with HPut d | HPublish d | HDisk d => Some d | HRead => None end.

(** A read call: its range, the chunks so far, the task it waits for. *)
Definition read_first (r : readCall) : Z := first_chunk cs r.
Definition read_next (r : readCall) : Z := read_first r + zlen (rd_chunks r).
Definition waits_right m (r : readCall) (id : nat) : Prop :=
  ∃ t, obj m id = Some t ∧ t_key t = file_key (rd_file r) (read_next r).
Record read_right m (r : readCall) : Prop := {
  rr_file : file_ok (rd_file r);
  rr_range : 0 ≤ rd_offset r ∧ 0 < rd_length r ∧ rd_offset r + rd_length r < 2 ^ 61;
  rr_chunks : ∀ j d, rd_chunks r !! j = Some d →
    d = file_chunk (rd_file r) (read_first r + Z.of_nat j);
  rr_next : read_next r ≤ last_chunk cs r + 1;
  rr_pc : match rd_pc r with
          | RDone (Ok b) => b = slice (content (rd_file r)) (rd_offset r) (rd_length r)
          | REnsure | RLock => read_next r ≤ last_chunk cs r
          | RMark id | RWait id => read_next r ≤ last_chunk cs r ∧ waits_right m r id
          | _ => True
          end
}.

Record content_wf m : Prop := {
  cw_cs : ChunkSize (m_cfg m) = cs;
  cw_store : store_right (m_store m);
  cw_tasks : tasks_right m;
  cw_running id pc t d : m_running m !! id = Some pc → obj m id = Some t →
    worker_data pc = Some d → right_chunk (t_key t) d;
  cw_hedging id pc t d : m_hedging m !! id = Some pc → obj m id = Some t →
    hedge_data pc = Some d → right_chunk (t_key t) d;
  cw_disk : Forall entry_right (m_diskWrites m);
  cw_handles hid h : m_handles m !! hid = Some h → file_ok (hd_file h);
  cw_reads rid r : m_reads m !! rid = Some r → read_right m r
}.

(** What the invariant asks of the surroundings: files as listed, replies
    that are the requested range, sane temporary names. *)
Definition reply_right t (reply : result streamErr bytes) : Prop :=
  ∀ d, reply = Ok d → zlen d = t_length t → d = slice (content (t_file t)) (t_offset t) (t_length t).
Definition label_right m (l : label) : Prop :=
  match l with
  | LOpen file _ => file_ok file
  | LRead _ _ offset length _ => offset + length < 2 ^ 61
  | LBackground file i _ _ => file_ok file ∧ 0 ≤ i ∧ i * cs < 2 ^ 61
  | LAttempt id reply | LHedgeReply id reply => ∀ t, obj m id = Some t → reply_right t reply
  | LDiskWriter io => io_ok io
  | _ => True
  end.

(** A reply the download accepts is the task's chunk. *)
Lemma judge_right t reply d :
  geom_right t → reply_right t reply → judge (t_length t) reply = Ok d → right_chunk (t_key t) d.
Proof.
  intros [Hf (i & Hi & Hr & Hk & Ho & Hl)] Hrep. unfold judge. destruct reply as [d'|]; [|done].
  destruct (decide (zlen d' = t_length t)) as [Hlen|]; [|done]. intros [= ->]. clear Hr. rewrite (Hrep d eq_refl Hlen), Hk, Ho, Hl.
  case_decide as Hs.
  - unfold file_chunk. rewrite (chunk_data_tail _ cs); [by apply right_chunk_intro|lia|lia|].
    destruct Hf as (_ & _ & _ & _ & Hc). by rewrite (Hc Hs).
  - by apply right_chunk_intro.
Qed.

(** Evolving tasks keep it. *)
Lemma geom_right_same t t' : geom t' = geom t → geom_right t → geom_right t'.
Proof.
  intros E [Hf Hi]. injection E as Ek Ef Eo El. split; [by rewrite Ef|].
  by rewrite Ek, Ef, Eo, El.
Qed.
Lemma payload_right_same t t' :
  t_key t' = t_key t → payload t' = payload t ∨ t_err t' ≠ None → payload_right t → payload_right t'.
Proof.
  intros Ek [E|Hne] Hp Hfin Herr; [|done]. injection E as Ef Ed Ee. rewrite Ek, Ed. apply Hp; congruence.
Qed.
Lemma grows_by_right new m m' :
  grows_by new m m' → (∀ id t, new id t → obj m' id = Some t → geom_right t ∧ payload_right t) →
  tasks_right m → tasks_right m'.
Proof.
  intros [_ Hb] Hn Ht id t' Ht'. destruct (Hb _ _ Ht') as [(t & Hto & Eg & Ep)|Hnew]; [|by eapply Hn].
  destruct (Ht _ _ Hto) as [Hg Hp]. split; [by eapply geom_right_same|].
  eapply payload_right_same; [|exact Ep|done]. by injection Eg.
Qed.
Lemma grows_right m m' : grows m m' → tasks_right m → tasks_right m'.
Proof.
  intros Hg. apply (grows_by_right (λ _ _, False)); [by apply grows_grows_by|done].
Qed.
Lemma geom_stays_key m m' id t :
  geom_stays m m' → obj m id = Some t → ∃ t', obj m' id = Some t' ∧ t_key t' = t_key t.
Proof. intros Hg Ht. destruct (Hg _ _ Ht) as (t' & Ht' & E). exists t'. split; [done|]. by injection E. Qed.
Lemma waits_right_stays m m' r id : geom_stays m m' → waits_right m r id → waits_right m' r id.
Proof.
  intros Hg (t & Ht & Hk). destruct (geom_stays_key _ _ _ _ Hg Ht) as (t' & Ht' & E).
  exists t'. split; [done|congruence].
Qed.
Lemma read_right_stays m m' r : geom_stays m m' → read_right m r → read_right m' r.
Proof.
  intros Hg [H1 H2 H3 H4 H5]. split; try done.
  destruct (rd_pc r); try done; (split; [apply H5|]; eapply waits_right_stays; [done|apply H5]).
Qed.
(** Data kept for a task that stays. *)
Lemma kept_right m m' id t t' d :
  geom_stays m m' → obj m id = Some t → obj m' id = Some t' → right_chunk (t_key t) d →
  right_chunk (t_key t') d.
Proof.
  intros Hg Ht Ht' Hr. destruct (geom_stays_key _ _ _ _ Hg Ht) as (t'' & Ht'' & E).
  rewrite Ht' in Ht''. injection Ht'' as <-. by rewrite E.
Qed.
End content.
