(* ===== verification/ManagerServes.v ===== *)
(** * Every transition keeps the content invariant

    [content_wf] of [ManagerContent] for every label whose surroundings behave
    ([label_right]), and from there for every reachable state. *)
From S2P Require Import Prelude GoList GoStrings ChunkKeys ChunkStore ChunkDisk ChunkCache TaskHeap StreamConfig Access Manager ManagerTasks ManagerSteps ManagerTable ManagerQueue ManagerInv ManagerFrame ManagerRead ManagerContent.

Section serves.
Context {S : Type} `{!ChunkCache S, !ChunkCacheLaws S}.
Context (content : File → bytes) (cs : Z).
Hypothesis cs_range : 0 < cs < 2 ^ 61.
Implicit Types (m : manager S) (id rid : nat) (t : task).
#[local] Abbreviation content_wf := (content_wf content cs).
#[local] Abbreviation store_right := (store_right content cs).
#[local] Abbreviation right_chunk := (right_chunk content cs).
#[local] Abbreviation read_right := (read_right content cs).
#[local] Abbreviation tasks_right := (tasks_right content cs).
#[local] Abbreviation entry_right := (entry_right content cs).

(** ** The store *)
Lemma get_right io k touch (s s' : S) r :
  store_right s → cc_get io k touch s = (s', r) →
  store_right s' ∧ ∀ d, r = Some d → key_ok k → right_chunk k d.
Proof.
  intros [Hw Hh] Hg. destruct (cc_get_law _ _ _ _ _ _ Hw Hg) as (Hw' & Hs & Hd).
  split; [split; [done|]; eauto|]. intros d Hr Hk. by apply Hh, Hd.
Qed.
Lemma length_right k (s s' : S) r : store_right s → cc_length k s = (s', r) → store_right s'.
Proof.
  intros [Hw Hh] Hg. destruct (cc_length_law _ _ _ _ Hw Hg) as (Hw' & Hs). split; [done|]. eauto.
Qed.
Lemma put_memory_right k d (s : S) : store_right s → right_chunk k d → store_right (cc_put_memory k d s).
Proof.
  intros [Hw Hh] Hr. destruct (cc_put_memory_law k d s Hw) as (Hw' & Hs). split; [done|].
  intros k' d' Hk [H|[-> ->]]%Hs; [by apply Hh|done].
Qed.
Lemma put_disk_right io k d (s : S) :
  store_right s → io_ok io → entry_right (mkEntry k d) → store_right (cc_put_disk io k d s).1.
Proof.
  intros [Hw Hh] Hio [Hk Hr]. destruct (cc_put_disk io k d s) as [s' e] eqn:Hp.
  destruct (cc_put_disk_law _ _ _ _ _ _ Hio Hk Hw Hp) as (Hw' & Hs). split; [done|].
  intros k' d' Hk' Hd'. destruct (Hs k' d' Hk' Hd') as [H|[-> ->]]; [by apply Hh|exact Hr].
Qed.
Lemma shrink_right (s s' : S) :
  store_right s → cc_wf s' ∧ (∀ k d, cc_holds s' k d → cc_holds s k d) → store_right s'.
Proof. intros [Hw Hh] [Hw' Hs]. split; [done|]. eauto. Qed.

(** ** Updating one part of the state *)
Lemma content_frame new m m' :
  content_wf m → tasks_wf m → outer_view m' = outer_view m → grows_by new m m' →
  (∀ id t, new id t → obj m' id = Some t → geom_right content cs t ∧ payload_right content cs t) →
  content_wf m'.
Proof.
  intros [C1 C2 C3 C4 C5 C6 C7 C8] Hwf Hv Hg Hn.
  assert (∀ id, is_Some (obj m id) → ∀ t', obj m' id = Some t' → ∃ t, obj m id = Some t ∧ t_key t' = t_key t) as Hb.
  { intros id [t Ht] t' Ht'. exists t. split; [done|].
    destruct (geom_stays_key _ _ _ _ (proj1 Hg) Ht) as (t'' & Ht'' & E). congruence. }
  assert (m_cfg m' = m_cfg m ∧ m_store m' = m_store m ∧ m_running m' = m_running m ∧
          m_hedging m' = m_hedging m ∧ m_reads m' = m_reads m ∧ m_handles m' = m_handles m ∧
          m_diskWrites m' = m_diskWrites m) as (E1 & E2 & E3 & E4 & E5 & E6 & E7)
    by (by injection Hv).
  split; rewrite ?E1, ?E2, ?E3, ?E4, ?E5, ?E6, ?E7; try done.
  - by eapply grows_by_right.
  - intros id pc t' d Hr Ht' Hd. destruct (tw_running _ _ Hwf _ _ Hr) as (t0 & Ht0 & _).
    destruct (Hb id ltac:(by exists t0) t' Ht') as (t & Ht & ->). by eapply C4.
  - intros id pc t' d Hr Ht' Hd. destruct (tw_hedging _ _ Hwf _ _ Hr) as (t0 & Ht0 & _).
    destruct (Hb id ltac:(by exists t0) t' Ht') as (t & Ht & ->). by eapply C5.
  - intros rid r Hr. eapply read_right_stays; [apply Hg|]. by eapply C8.
Qed.
Lemma content_grows m m' :
  content_wf m → tasks_wf m → outer_view m' = outer_view m → grows m m' → content_wf m'.
Proof.
  intros Hc Hwf Hv Hg. eapply (content_frame (λ _ _, False)); try done. by apply grows_grows_by.
Qed.

Lemma content_set_read rid f m :
  content_wf m → (∀ r, m_reads m !! rid = Some r → read_right m (f r)) → content_wf (set_read rid f m).
Proof.
  intros [C1 C2 C3 C4 C5 C6 C7 C8] Hf. split; try done. intros rid' r'. cbn. rewrite lookup_alter.
  intros Hr'. assert (read_right m r') as Hrr; [|by destruct Hrr; split].
  destruct (decide (rid = rid')) as [->|]; [|by eapply C8].
  apply fmap_Some in Hr' as (r & Hr & ->). by apply Hf.
Qed.
Lemma content_store s' m : content_wf m → store_right s' → content_wf (m <| m_store := s' |>).
Proof.
  intros [C1 C2 C3 C4 C5 C6 C7 C8] Hs. split; try done.
  intros rid r Hr. destruct (C8 rid r Hr). by split.
Qed.
Lemma content_worker_at id pc m :
  content_wf m → (∀ t d, obj m id = Some t → worker_data pc = Some d → right_chunk (t_key t) d) →
  content_wf (worker_at id pc m).
Proof.
  intros [C1 C2 C3 C4 C5 C6 C7 C8] Hd. split; try done.
  - intros id' pc' t d. cbn. rewrite lookup_insert.
    destruct (decide (id = id')) as [->|]; [intros [= <-]; apply Hd|apply C4].
  - intros rid r Hr. destruct (C8 rid r Hr). by split.
Qed.
Lemma content_worker_free id m : content_wf m → content_wf (worker_free id m).
Proof.
  intros [C1 C2 C3 C4 C5 C6 C7 C8]. split; try done.
  - intros id' pc' t d. cbn. intros [_ Hr]%lookup_delete_Some. by apply C4.
  - intros rid r Hr. destruct (C8 rid r Hr). by split.
Qed.
Lemma content_hedge_at id pc m :
  content_wf m → (∀ t d, obj m id = Some t → hedge_data pc = Some d → right_chunk (t_key t) d) →
  content_wf (hedge_at id pc m).
Proof.
  intros [C1 C2 C3 C4 C5 C6 C7 C8] Hd. split; try done.
  - intros id' pc' t d. cbn. rewrite lookup_insert.
    destruct (decide (id = id')) as [->|]; [intros [= <-]; apply Hd|apply C5].
  - intros rid r Hr. destruct (C8 rid r Hr). by split.
Qed.
Lemma content_hedge_gone id m : content_wf m → content_wf (hedge_gone id m).
Proof.
  intros [C1 C2 C3 C4 C5 C6 C7 C8]. split; try done.
  - intros id' pc' t d. cbn. intros [_ Hr]%lookup_delete_Some. by apply C5.
  - intros rid r Hr. destruct (C8 rid r Hr). by split.
Qed.
Lemma content_queue_disk key d m m' :
  content_wf m → entry_right (mkEntry key d) → queueDiskWrite key d m = Some m' → content_wf m'.
Proof.
  intros [C1 C2 C3 C4 C5 C6 C7 C8] He. unfold queueDiskWrite. case_decide; [by intros [= <-]|].
  destruct (m_diskClosed m); [done|]. case_decide; [|by intros [= <-]]. intros [= <-]. split; try done.
  - apply Forall_app_2; [done|]. by apply Forall_singleton.
  - intros rid r Hr. destruct (C8 rid r Hr). by split.
Qed.
(** The parts of the state the invariant reads. *)
Definition content_view m :=
  (m_cfg m, m_store m, m_heap m, m_running m, m_hedging m, m_diskWrites m, m_handles m, m_reads m).
Lemma content_wf_view m m' : content_view m' = content_view m → content_wf m → content_wf m'.
Proof.
  intros Hv [C1 C2 C3 C4 C5 C6 C7 C8]. destruct m, m'. cbn in Hv.
  injection Hv as -> -> -> -> -> -> -> ->. split; try done.
  intros rid r Hr. destruct (C8 rid r Hr). by split.
Qed.

(** Changes to sessions, the idle timer, counters and the like. *)
Lemma content_same m m' :
  outer_view m' = outer_view m → m_heap m' = m_heap m → content_wf m → tasks_wf m → content_wf m'.
Proof. intros Hv Hh Hc Hwf. eapply content_grows; try done. by apply grows_heap. Qed.

Lemma task_entry id t d m :
  content_wf m → obj m id = Some t → right_chunk (t_key t) d → entry_right (mkEntry (t_key t) d).
Proof.
  intros Hc Ht Hr. split; [|done]. cbn.
  destruct (proj1 (cw_tasks _ _ _ Hc _ _ Ht)) as [Hf (i & Hi & Hcs & -> & _)].
  apply (file_key_ok content); [done|nia].
Qed.

(** ** Readers *)
Lemma next_key_right m r : content_wf m → read_right m r → next_key m r = file_key cs (rd_file r) (read_next cs r).
Proof. intros Hc Hr. unfold next_key, next_chunk, versionOf. by rewrite (cw_cs _ _ _ Hc). Qed.

Lemma read_bounds m r :
  read_right m r → 0 ≤ read_first cs r ∧ 0 ≤ read_next cs r ∧ read_first cs r * cs ≤ rd_offset r < (read_first cs r + 1) * cs ∧
  last_chunk cs r * cs < rd_offset r + rd_length r ≤ (last_chunk cs r + 1) * cs ∧ 0 ≤ last_chunk cs r.
Proof.
  intros [_ (H1 & H2 & H3) _ _ _]. unfold read_next, read_first, first_chunk, last_chunk.
  pose proof (zlen_nonneg (rd_chunks r)). nowrap.
  pose proof (Z.quot_pos (rd_offset r) cs ltac:(lia) ltac:(lia)).
  pose proof (Z.quot_pos (rd_offset r + rd_length r - 1) cs ltac:(lia) ltac:(lia)).
  rewrite !Z.quot_div_nonneg in * by lia.
  pose proof (Z.div_mod (rd_offset r) cs ltac:(lia)). pose proof (Z.mod_pos_bound (rd_offset r) cs ltac:(lia)).
  pose proof (Z.div_mod (rd_offset r + rd_length r - 1) cs ltac:(lia)).
  pose proof (Z.mod_pos_bound (rd_offset r + rd_length r - 1) cs ltac:(lia)). nia.
Qed.

Lemma read_key_ok m r : read_right m r → read_next cs r ≤ last_chunk cs r → key_ok (file_key cs (rd_file r) (read_next cs r)).
Proof.
  intros Hr Hn. destruct (read_bounds m r Hr) as (H1 & H2 & _ & H3 & _).
  apply (file_key_ok content); [apply Hr|]. pose proof (rr_range _ _ _ _ Hr). nia.
Qed.

(** A chunk that arrives is the next one. *)
Lemma got_chunk_right m r d :
  read_right m r → read_next cs r ≤ last_chunk cs r →
  right_chunk (file_key cs (rd_file r) (read_next cs r)) d → read_right m (got_chunk d r).
Proof.
  intros Hr Hn Hd. destruct (read_bounds m r Hr) as (_ & H0 & _).
  assert (d = file_chunk content cs (rd_file r) (read_next cs r)) as ->
    by (apply Hd; [apply Hr|done|done]).
  destruct Hr as [H1 H2 H3 H4 H5]. split; try done.
  - intros j d. unfold got_chunk. cbn. intros [Hj|[Hj Hl]]%lookup_app_Some; [by apply H3|].
    apply list_lookup_singleton_Some in Hl as [Hj0 <-]. unfold read_next. f_equal.
    unfold zlen, read_first, first_chunk. cbn. lia.
  - unfold read_next, read_first, first_chunk in *. cbn. rewrite zlen_app, zlen_cons, zlen_nil.
    change (last_chunk cs (got_chunk _ r)) with (last_chunk cs r). lia.
Qed.

Lemma assemble_right m r b :
  read_right m r → last_chunk cs r < read_next cs r →
  assemble cs (rd_offset r) (rd_length r) (first_chunk cs r) (rd_chunks r) [] = Ok b →
  b = slice (content (rd_file r)) (rd_offset r) (rd_length r).
Proof.
  intros Hr Hn. destruct (read_bounds m r Hr) as (H1 & H2 & H3 & H4 & H5).
  destruct Hr as [_ Hrange Hch Hle _]. unfold read_next, read_first in *.
  apply (assemble_sound (content (rd_file r)) cs); try lia.
  - nia.
  - intros j d Hj. by apply Hch.
  - unfold copied. rewrite zlen_nil, slice_nil by lia. split_and!; [done|lia|lia].
Qed.

Lemma go_to_right m r pc :
  read_right m r →
  match pc with
  | RDone (Ok b) => b = slice (content (rd_file r)) (rd_offset r) (rd_length r)
  | REnsure | RLock => read_next cs r ≤ last_chunk cs r
  | RMark id | RWait id => read_next cs r ≤ last_chunk cs r ∧ waits_right cs m r id
  | _ => True
  end → read_right m (go_to pc r).
Proof. intros [H1 H2 H3 H4 H5] Hp. by split. Qed.

Lemma reader_get_content rid touch miss io m m' :
  content_wf m → (miss = REnsure ∨ miss = RLock) →
  reader_get rid touch miss io m = Some m' → content_wf m'.
Proof.
  intros Hc Hmiss. unfold reader_get. destruct (m_reads m !! rid) as [r|] eqn:Hr; [|done].
  cbn [mbind option_bind]. pose proof (cw_reads _ _ _ Hc _ _ Hr) as Hrr.
  assert (ChunkSize (m_cfg m) = cs) as Ecs by apply Hc. rewrite Ecs.
  assert (next_chunk m r = read_next cs r) as En by (unfold next_chunk, read_next; by rewrite Ecs).
  rewrite En. case_decide as Hlast.
  { destruct (makeslice _ _); [|done].
    intros [= <-]. apply content_set_read; [done|]. intros r' Hr'. rewrite Hr in Hr'.
    injection Hr' as <-. apply go_to_right; [done|].
    destruct (assemble _ _ _ _ _ _) as [b|] eqn:Ha; [|done]. by apply (assemble_right m). }
  destruct (cc_get io _ _ _) as [store hit] eqn:Hg. intros [= <-].
  destruct (get_right _ _ _ _ _ _ (cw_store _ _ _ Hc) Hg) as [Hs Hhit].
  apply content_set_read; [by apply content_store|]. intros r' Hr'. change (m_reads m !! rid = Some r') in Hr'.
  rewrite Hr in Hr'. injection Hr' as <-.
  apply (read_right_stays content cs m); [by apply grows_heap|].
  rewrite (next_key_right m r Hc Hrr) in Hhit.
  destruct hit as [d|]; [apply got_chunk_right; [done|lia|]|apply go_to_right; [done|]].
  - apply Hhit; [done|]. apply (read_key_ok m); [done|lia].
  - destruct Hmiss as [-> | ->]; lia.
Qed.

(** A task created for chunk [i] of a listed file has the right range. *)
Lemma new_task_right m file i id t :
  content_wf m → file_ok content file → 0 ≤ i → i * cs < 2 ^ 61 → is_new m file i id t →
  geom_right content cs t ∧ payload_right content cs t.
Proof.
  intros Hc Hf Hi Hr (_ & Hpos & e & p & E). pose proof (cw_cs _ _ _ Hc) as Ecs.
  assert (chunk_length m file i = if decide (0 < Size file) then Z.min cs (Size file - i * cs) else cs) as Hlen.
  { unfold chunk_length. rewrite Ecs. destruct Hf as (_ & _ & Hs & _). nowrap.
    destruct (decide (0 < Size file)) as [Hp|Hp];
      [|rewrite decide_False by lia; done].
    case_decide; nowrap; lia. }
  injection E as Ek Ef Eo El _ _ _ _ Ed Ee _ Efin _ _ _ _. cbn in *.
  split; [split|].
  - by rewrite Ef.
  - exists i. rewrite Ek, Ef, Eo, El. unfold file_key, versionOf. rewrite Ecs. nowrap. done.
  - intros Hfin. rewrite Efin in Hfin. done.
Qed.

Lemma ensure_content file i e p m m' r :
  content_wf m → tasks_wf m → file_ok content file → 0 ≤ i → i * cs < 2 ^ 61 →
  ensureTask_locked file i e p m = Some (m', r) →
  content_wf m' ∧
  (∀ id, r = ETask id → ∃ t, obj m' id = Some t ∧ t_key t = file_key cs file i) ∧
  (∀ d, r = EVirtual d → d = file_chunk content cs file i).
Proof.
  intros Hc Hwf Hf Hi Hr He. destruct (grows_ensure _ _ _ _ _ _ _ Hwf He) as (Hg & Hid & Hv).
  pose proof (cw_cs _ _ _ Hc) as Ecs. split_and!.
  - eapply content_frame; [done|done|by eapply outer_ensure|exact Hg|].
    intros id t Hnew _. by eapply new_task_right.
  - intros id ->. destruct (Hid id eq_refl) as (t & Ht & Hk). exists t. split; [done|].
    rewrite Hk. unfold file_key, versionOf. by rewrite Ecs.
  - intros d ->. destruct (Hv d eq_refl) as [-> Hlen]. symmetry. unfold file_chunk, chunk_data.
    destruct Hf as (_ & _ & Hs & _ & Hz). unfold chunk_length in Hlen. rewrite Ecs in Hlen.
    revert Hlen. nowrap. case_decide as Hd; nowrap; [|lia]. intros Hlen. apply slice_past.
    rewrite Hz by lia. lia.
Qed.

Lemma reader_lock_content rid m m' :
  content_wf m → tasks_wf m → at_pc m rid (λ pc, is_RLock pc = true) →
  reader_lock rid m = Some m' → content_wf m'.
Proof.
  intros Hc Hwf Hpc. unfold reader_lock, at_pc in *. destruct (m_reads m !! rid) as [r|] eqn:Hr; [|done].
  cbn in Hpc. destruct (rd_pc r) eqn:Epc; try done. cbn [mbind option_bind].
  pose proof (cw_reads _ _ _ Hc _ _ Hr) as Hrr. pose proof (rr_pc _ _ _ _ Hrr) as Hn. rewrite Epc in Hn.
  assert (next_chunk m r = read_next cs r) as En
    by (unfold next_chunk, read_next; by rewrite (cw_cs _ _ _ Hc)).
  destruct (read_bounds m r Hrr) as (B1 & B2 & B3 & B4 & B5). pose proof (rr_range _ _ _ _ Hrr).
  destruct (ensureTask_locked _ _ _ _ m) as [[m1 e]|] eqn:He; [|done]. cbn [mbind option_bind]. intros [= <-].
  rewrite En in He. destruct (ensure_content _ _ _ _ _ _ _ Hc Hwf (rr_file _ _ _ _ Hrr) B2 ltac:(nia) He)
    as (Hc1 & Hid & Hvirt).
  assert (m_reads m1 = m_reads m) as Ereads by (apply outer_ensure in He; by injection He).
  apply content_set_read; [done|]. intros r' Hr'. rewrite Ereads, Hr in Hr'. injection Hr' as <-.
  assert (read_right m1 r) as Hrr1 by (apply (cw_reads _ _ _ Hc1 rid); by rewrite Ereads).
  destruct e as [|d|id]; [by apply go_to_right| |apply go_to_right; [done|]].
  - apply got_chunk_right; [done|done|]. rewrite (Hvirt d eq_refl). apply right_chunk_intro, Hrr.
  - split; [done|]. by apply Hid.
Qed.

Lemma reader_mark_content rid m m' :
  content_wf m → tasks_wf m → reader_mark rid m = Some m' → content_wf m'.
Proof.
  intros Hc Hwf. unfold reader_mark. destruct (m_reads m !! rid) as [r|] eqn:Hr; [|done].
  cbn [mbind option_bind]. destruct (rd_pc r) as [| | |id| |] eqn:Epc; try done. intros [= <-].
  pose proof (cw_reads _ _ _ Hc _ _ Hr) as Hrr. pose proof (rr_pc _ _ _ _ Hrr) as Hn. rewrite Epc in Hn.
  assert (grows m (markForeground id m)) as Hg
    by (apply grows_set_task; intros t; destruct (t_finished t); auto).
  assert (content_wf (markForeground id m)) as Hc1 by by eapply content_grows.
  apply content_set_read; [done|]. intros r' Hr'. change (m_reads m !! rid = Some r') in Hr'.
  rewrite Hr in Hr'. injection Hr' as <-. apply go_to_right; [by apply (cw_reads _ _ _ Hc1 rid)|].
  split; [apply Hn|]. eapply waits_right_stays; [apply Hg|apply Hn].
Qed.

Lemma reader_waited_content rid m m' :
  content_wf m → tasks_wf m → enabled (LWaited rid) m → reader_waited rid m = Some m' → content_wf m'.
Proof.
  intros Hc Hwf He. cbn in He. unfold at_pc in He. unfold reader_waited.
  destruct (m_reads m !! rid) as [r|] eqn:Hr; [|done].
  cbn [mbind option_bind]. cbn in He. destruct (rd_pc r) as [| | | |id|] eqn:Epc; try done.
  pose proof (cw_reads _ _ _ Hc _ _ Hr) as Hrr. pose proof (rr_pc _ _ _ _ Hrr) as Hn. rewrite Epc in Hn.
  destruct Hn as [Hn (t & Ht & Hk)]. rewrite Ht. cbn [mbind option_bind]. intros [= <-].
  apply content_set_read; [done|]. intros r' Hr'. rewrite Hr in Hr'. injection Hr' as <-.
  destruct (t_err t) eqn:Eerr; [by apply go_to_right|]. apply got_chunk_right; [done|done|].
  rewrite <- Hk. apply (cw_tasks _ _ _ Hc _ _ Ht); [|done].
  unfold closed_done in He. rewrite Ht in He. cbn in He. by rewrite (tw_closed _ _ Hwf _ _ Ht) in He.
Qed.

(** ** Workers and hedges *)

(** Ending a task with the bytes of its chunk. *)
Lemma end_content m m' id t d :
  content_wf m → tasks_wf m → obj m id = Some t → right_chunk (t_key t) d →
  outer_view m' = outer_view m →
  (∃ t', obj m' id = Some t' ∧ geom t' = geom t ∧
         (t_data t' = d ∨ payload t' = payload t ∨ t_err t' ≠ None)) →
  (∀ id', id' ≠ id → obj m' id' = obj m id') → content_wf m'.
Proof.
  intros Hc Hwf Ht Hd Hv (t' & Ht' & Eg & Hdata) Hrest.
  assert (grows_by (λ id0 _, id0 = id) m m') as Hg.
  { split.
    - intros id0 t0 Ht0. destruct (decide (id0 = id)) as [->|Hne].
      + rewrite Ht in Ht0. injection Ht0 as <-. by exists t'.
      + exists t0. by rewrite Hrest.
    - intros id0 t0 Ht0. destruct (decide (id0 = id)) as [->|Hne]; [by right|left].
      rewrite Hrest in Ht0 by done. exists t0. auto. }
  eapply content_frame; [done|done|done|exact Hg|]. intros id0 t0 -> Ht0.
  rewrite Ht' in Ht0. injection Ht0 as <-. destruct (cw_tasks _ _ _ Hc _ _ Ht) as [Hgr Hpr].
  assert (t_key t' = t_key t) as Ek by by injection Eg.
  split; [by eapply geom_right_same|]. destruct Hdata as [<-|[Hp|Hp]].
  - intros _ _. by rewrite Ek.
  - eapply payload_right_same; [done|by left|done].
  - eapply payload_right_same; [done|by right|done].
Qed.

Lemma finish_content id t r lat m m' b :
  content_wf m → tasks_wf m → obj m id = Some t → (∀ d, r = Ok d → right_chunk (t_key t) d) →
  finishTask_locked id r lat m = Some (m', b) →
  content_wf m' ∧ ∀ t', obj m' id = Some t' → t_key t' = t_key t.
Proof.
  intros Hc Hwf Ht Hr Hfin. pose proof (outer_finish _ _ _ _ _ _ Hfin) as Hv.
  destruct (t_finished t) eqn:Hf.
  - unfold finishTask_locked in Hfin. rewrite Ht in Hfin. cbn [mbind option_bind] in Hfin.
    rewrite Hf in Hfin. injection Hfin as <- <-. set (m1 := set_session _ _ m) in *.
    pose proof (view_cleanup (version (t_key t)) m1) as Hvw. split.
    + apply (content_same m); [done| |done|done]. by rewrite (view_heap _ _ Hvw).
    + intros t'. rewrite (view_obj _ _ id Hvw). change (obj m id = Some t' → t_key t' = t_key t). congruence.
  - destruct (finishTask_unfinished id t r lat m Hwf Ht Hf) as (m2 & Hfin2 & Hvw).
    rewrite Hfin in Hfin2. injection Hfin2 as <- ->.
    assert (∀ id', obj m' id' = if decide (id' = id)
      then Some ((ended_by r t) <| t_closed := true |>) else obj m id') as Ho.
    { intros id'. rewrite (view_obj _ _ id' Hvw), end_task_obj, Ht. done. }
    split; [|intros t'; rewrite Ho, decide_True by done; intros [= <-]; by destruct r].
    destruct r as [d|e].
    + apply (end_content m m' id t d); [done|done|done|by apply Hr|done| |].
      * eexists. rewrite Ho, decide_True by done. split; [done|]. split; [done|by left].
      * intros id' Hne. by rewrite Ho, decide_False.
    + eapply content_grows; [done|done|done|]. split.
      * intros id' t' Ht'. rewrite Ho. case_decide; [subst|by exists t'].
        rewrite Ht in Ht'. injection Ht' as <-. by eexists.
      * intros id' t'. rewrite Ho. case_decide; [subst|intros H'; exists t'; auto].
        intros [= <-]. exists t. split_and!; [done|done|by right].
Qed.

Lemma publish_content id t d m m' b :
  content_wf m → tasks_wf m → obj m id = Some t → right_chunk (t_key t) d →
  publishHedge_locked id d m = Some (m', b) →
  content_wf m' ∧ ∀ t', obj m' id = Some t' → t_key t' = t_key t.
Proof.
  intros Hc Hwf Ht Hr Hp. pose proof (outer_publish _ _ _ _ _ Hp) as Hv. revert Hp.
  unfold publishHedge_locked. rewrite Ht. cbn [mbind option_bind].
  destruct (t_finished t) eqn:Hf.
  { intros [= <- <-]. split; [done|]. intros t'. congruence. }
  set (F := λ t0 : task, _). assert (ends F) as HF by by split.
  rewrite (close_after_end [] _ _ t) by done. cbn [mbind option_bind]. intros [= <- <-].
  assert (∀ id', obj (end_task id F (t_key t) m) id' = if decide (id' = id)
    then Some ((F t) <| t_closed := true |>) else obj m id') as Ho
    by (intros id'; by rewrite end_task_obj, Ht).
  split; [|intros t'; change (obj (end_task id F (t_key t) m) id = Some t' → t_key t' = t_key t);
           rewrite Ho, decide_True by done; by intros [= <-]].
  apply (end_content m _ id t d); [done|done|done|done|done| |].
  - exists ((F t) <| t_closed := true |>). split; [|split; [done|by left]].
    change (obj (end_task id F (t_key t) m) id = Some ((F t) <| t_closed := true |>)).
    by rewrite Ho, decide_True.
  - intros id' Hne. change (obj (end_task id F (t_key t) m) id' = obj m id').
    by rewrite Ho, decide_False.
Qed.

Lemma attempt_content id k reply m m' pc :
  content_wf m → (∀ t, obj m id = Some t → reply_right content t reply) →
  download_attempt id k reply m = Some (m', pc) → content_wf (worker_at id pc m').
Proof.
  intros Hc Hrep. unfold download_attempt. destruct (obj m id) as [t|] eqn:Ht; [|done].
  cbn [mbind option_bind].
  assert (∀ pc, content_view m' = content_view m →
    (∀ d, worker_data pc = Some d → right_chunk (t_key t) d) → content_wf (worker_at id pc m')) as Hgo.
  { intros pc' Hv Hd. apply content_worker_at; [by eapply content_wf_view|]. intros t' d Ht' Hd'.
    assert (t' = t) as ->; [|by apply Hd].
    injection Hv as _ _ Hh _ _ _ _ _. unfold obj in *. congruence. }
  destruct (judge (t_length t) reply) as [d|e] eqn:Hj.
  - intros [= <- <-]. apply Hgo; [done|]. intros d' [= <-].
    eapply judge_right; [done|by apply (cw_tasks _ _ _ Hc id)|by apply Hrep|done].
  - destruct (t_canceled t); [intros [= <- <-]; by apply Hgo|].
    case_decide; intros [= <- <-]; by apply Hgo.
Qed.

Lemma key_of_obj id t m : obj m id = Some t → key_of m id = Some (t_key t).
Proof. unfold key_of. by intros ->. Qed.

Lemma worker_content l m m' :
  worker_label l = true → manager_wf m → content_wf m → label_right content cs m l → enabled l m →
  perform l m = Some m' → content_wf m'.
Proof.
  intros Hl [Hwf Hlife Hlim] Hc Hlr He. destruct l; try done; cbn in He; cbn [perform]; unfold worker_step;
    [|unfold at_worker in He; destruct (m_running m !! id) as [pc|] eqn:Hr; cbn in He;
      [|discriminate He]; destruct pc as [k|r|r|data]; try discriminate He;
      cbn [mbind option_bind]; destruct (tw_running _ _ Hwf _ _ Hr) as (t & Ht & _)..|].
  - unfold take_next. destruct (nextTask now m) as [[m1 r]|] eqn:Hn; cbn [mbind option_bind]; [|done].
    intros [= <-]. unfold nextTask in Hn. pose proof (outer_next_loop _ _ _ _ _ _ Hn) as Hv.
    apply grows_next_loop in Hn; [|done].
    assert (content_wf m1) as Hc1 by by eapply content_grows.
    destruct r as [id|]; [|done].
    apply (content_wf_view (worker_at id (WRead 0) m1)); [done|]. by apply content_worker_at.
  - destruct (download_attempt id k reply m) as [[m1 pc]|] eqn:Hd; cbn [mbind option_bind]; [|done].
    intros [= <-]. by eapply attempt_content.
  - rewrite (key_of_obj _ _ _ Ht). cbn [mbind option_bind]. intros [= <-].
    assert (∀ d, r = Ok d → right_chunk (t_key t) d) as Hd.
    { intros d ->. by eapply (cw_running _ _ _ Hc id). }
    apply content_worker_at.
    + destruct r as [d|]; [|done]. apply content_store; [done|].
      apply put_memory_right; [apply Hc|by apply Hd].
    + intros t' d Ht' Hd'. assert (t' = t) as -> by (destruct r; unfold obj in *; cbn in Ht'; congruence).
      apply Hd. destruct r; cbn in Hd'; congruence.
  - unfold worker_commit. destruct (finishTask_locked id r latency m) as [[m1 b]|] eqn:Hf;
      cbn [mbind option_bind]; [|done].
    assert (∀ d, r = Ok d → right_chunk (t_key t) d) as Hd.
    { intros d ->. by eapply (cw_running _ _ _ Hc id). }
    destruct (finish_content _ _ _ _ _ _ _ Hc Hwf Ht Hd Hf) as [Hc1 Hk].
    destruct r as [d|], b; intros [= <-]; try by apply content_worker_free.
    apply content_worker_at; [done|]. intros t' d' Ht' [= <-]. rewrite (Hk _ Ht'). by apply Hd.
  - rewrite (key_of_obj _ _ _ Ht). cbn [mbind option_bind].
    destruct (queueDiskWrite (t_key t) data m) as [m1|] eqn:Hq; cbn [mbind option_bind]; [|done].
    intros [= <-]. apply content_worker_free. eapply content_queue_disk; [done| |done].
    eapply task_entry; [done|done|]. by eapply (cw_running _ _ _ Hc id).
  - intros [= <-]. by apply (content_wf_view m).
Qed.

Lemma hedge_content l m m' :
  hedge_label l = true → manager_wf m → content_wf m → label_right content cs m l → enabled l m →
  perform l m = Some m' → content_wf m'.
Proof.
  intros Hl [Hwf Hlife Hlim] Hc Hlr He. destruct l; try done; cbn in He; cbn [perform]; unfold hedge_step;
    [|unfold at_hedge in He; destruct (m_hedging m !! id) as [pc|] eqn:Hr; cbn in He;
      [|discriminate He]; destruct pc as [|data|data|data]; try discriminate He;
      cbn [mbind option_bind]; destruct (tw_hedging _ _ Hwf _ _ Hr) as (t & Ht & _)..].
  - destruct (startHedge id m) as [[m1 b]|] eqn:Hs; [|done]. intros [= <-]. revert Hs.
    unfold startHedge. destruct (obj m id) as [t|] eqn:Ht; [|done]. cbn [mbind option_bind].
    case_decide as Hcl; [by intros [= <- _]|]. intros [= <- _].
    set (m1 := set_task id (λ t, t <| t_hedged := true |> <| t_hedgeCancel := true |>) m).
    assert (content_wf m1) as Hc1.
    { eapply content_grows; [done|done|done|]. apply grows_set_task. auto. }
    apply (content_wf_view (hedge_at id HRead m1)); [done|]. by apply content_hedge_at.
  - rewrite Ht. cbn [mbind option_bind]. intros [= <-].
    destruct (judge _ _) as [d|] eqn:Hj; [|by apply content_hedge_gone].
    apply content_hedge_at; [done|]. intros t' d' Ht' [= <-]. rewrite Ht in Ht'. injection Ht' as <-.
    eapply judge_right; [done|by apply (cw_tasks _ _ _ Hc id)|by apply Hlr|done].
  - rewrite (key_of_obj _ _ _ Ht). cbn [mbind option_bind]. intros [= <-].
    assert (right_chunk (t_key t) data) as Hd by by eapply (cw_hedging _ _ _ Hc id).
    apply content_hedge_at.
    + apply content_store; [done|]. by apply put_memory_right; [apply Hc|].
    + intros t' d' Ht' [= <-]. change (obj m id = Some t') in Ht'. rewrite Ht in Ht'.
      by injection Ht' as <-.
  - unfold hedge_publish. destruct (publishHedge_locked id data m) as [[m1 b]|] eqn:Hp;
      cbn [mbind option_bind]; [|done]. intros [= <-].
    assert (right_chunk (t_key t) data) as Hd by by eapply (cw_hedging _ _ _ Hc id).
    destruct (publish_content _ _ _ _ _ _ Hc Hwf Ht Hd Hp) as [Hc1 Hk].
    destruct b; [|by apply content_hedge_gone]. apply content_hedge_at; [done|].
    intros t' d' Ht' [= <-]. by rewrite (Hk _ Ht').
  - rewrite (key_of_obj _ _ _ Ht). cbn [mbind option_bind].
    destruct (queueDiskWrite (t_key t) data m) as [m1|] eqn:Hq; cbn [mbind option_bind]; [|done].
    intros [= <-]. apply content_hedge_gone. eapply content_queue_disk; [done| |done].
    eapply task_entry; [done|done|]. by eapply (cw_hedging _ _ _ Hc id).
Qed.

(** ** Handles and new read calls *)
Lemma content_handles m hid h :
  content_wf m → file_ok content (hd_file h) → content_wf (m <| m_handles ::= <[hid := h]> |>).
Proof.
  intros [C1 C2 C3 C4 C5 C6 C7 C8] Hf. split; try done.
  - intros hid' h'. cbn. rewrite lookup_insert. case_decide; [by intros [= <-]|by apply C7].
  - intros rid r Hr. destruct (C8 rid r Hr). by split.
Qed.

Lemma prepareRead_content hid off len now m :
  content_wf m → tasks_wf m → content_wf (prepareRead hid off len now m).1.
Proof.
  intros Hc Hwf. unfold prepareRead. destruct (m_handles m !! hid) as [h|] eqn:Hh; [|done].
  destruct (released h); [done|].
  destruct (observeHandleLocked (m_cfg m) h off len) as [h' ob] eqn:Hob.
  apply observe_frame in Hob as (Ef & _). pose proof (cw_handles _ _ _ Hc _ _ Hh) as Hf.
  set (m1 := m <| m_handles ::= _ |>).
  assert (content_wf m1) as Hc1 by (apply content_handles; [done|by rewrite Ef]).
  assert (tasks_wf m1) as Hwf1 by by apply (tasks_wf_view [] m).
  change (m_closed m1) with (m_closed m). destruct (m_closed m); [done|]. cbv zeta.
  set (m2 := sessionLocked _ _ _).
  assert (task_view m2 = task_view m1) as Hv2 by (subst m2; by rewrite view_sessionLocked, view_markActivity).
  assert (content_wf m2) as Hc2.
  { apply (content_same m1); [|by apply view_heap|done|done].
    subst m2. by rewrite outer_sessionLocked, outer_markActivity. }
  assert (tasks_wf m2) as Hwf2 by by apply (tasks_wf_view [] m1).
  clearbody m1 m2. set (s := default _ _). set (within := inScheduledWindowLocked _ _ _).
  destruct (apply_event _ s _ off within ob m2) as [[m3 ev] ind] eqn:He.
  assert (content_wf m3 ∧ grows m2 m3) as [Hc3 _].
  { pose proof (outer_apply_event (versionOf m2 (hd_file h')) s (hd_id h') off within ob m2) as Hv.
    rewrite He in Hv. cbn [fst] in Hv. assert (grows m2 m3) as Hg; [|split; [by eapply content_grows|done]].
    revert He. unfold apply_event. set (ev0 := if within then _ else _).
    assert (∀ v e hid', grows m2 (takeover v e hid' off m2)) as Ht.
    { intros *. unfold takeover. etrans; [|by apply grows_heap].
      etrans; [|apply grows_cancel]. by apply grows_heap. }
    destruct ev0; repeat case_decide; intros [= <- _ _]; by (apply Ht || apply grows_heap). }
  cbn [fst].
  apply (content_wf_view (m3 <| m_handles ::= <[hid := h' <| hd_epoch := se_epoch
    (default s (m_sessions m3 !! versionOf m2 (hd_file h'))) |>]> |>)); [done|].
  apply content_handles; [done|]. cbn. by rewrite Ef.
Qed.

Lemma prepareRead_frame hid off len now m :
  m_reads (prepareRead hid off len now m).1 = m_reads m ∧ m_cfg (prepareRead hid off len now m).1 = m_cfg m.
Proof.
  unfold prepareRead. destruct (m_handles m !! hid) as [h|]; [|done].
  destruct (released h); [done|]. destruct (observeHandleLocked (m_cfg m) h off len) as [h' ob].
  set (m1 := m <| m_handles ::= _ |>). change (m_closed m1) with (m_closed m).
  destruct (m_closed m); [done|]. cbv zeta. set (m2 := sessionLocked _ _ _).
  assert (outer_view m2 = outer_view m1) as H2
    by (subst m2; by rewrite outer_sessionLocked, outer_markActivity).
  destruct (apply_event _ _ _ _ _ _ m2) as [[m3 ev] ind] eqn:He.
  pose proof (f_equal (λ x, outer_view x.1.1) He) as H3. cbn [fst] in H3.
  rewrite outer_apply_event, H2 in H3. cbn [fst].
  split; [change (m_reads m3 = m_reads m)|change (m_cfg m3 = m_cfg m)]; by injection H3.
Qed.

Lemma readAt_begin_content rid hid off len now m m1 :
  content_wf m → tasks_wf m → off + len < 2 ^ 61 →
  readAt_begin rid hid off len now m = Some m1 → content_wf m1.
Proof.
  intros Hc Hwf Hlen. unfold readAt_begin. destruct (m_handles m !! hid) as [h|] eqn:Hh; [|by intros [= <-]].
  pose proof (cw_handles _ _ _ Hc _ _ Hh) as Hf.
  destruct (readAt_clip (hd_file h) off len) as [[l|]|] eqn:Hclip; [|by intros [= <-]..].
  pose proof (prepareRead_content hid off l now m Hc Hwf) as Hp.
  destruct (prepareRead hid off l now m) as [m' [p|]]; [|by intros [= <-]]. cbn [fst] in Hp.
  set (r := mkRead _ _ _ _ _ _ _ _). destruct (makeslice _ _); [intros [= <-]|done].
  pose proof Hp as [C1 C2 C3 C4 C5 C6 C7 C8].
  assert (0 ≤ off ∧ 0 < l ∧ off + l < 2 ^ 61) as Hrange.
  { destruct Hf as (_ & _ & Hs & _). revert Hclip. unfold readAt_clip.
    repeat case_decide; intros [= <-]; try lia; nowrap; lia. }
  assert (read_right m' r) as Hr.
  { split; try done. unfold read_next, read_first, first_chunk, last_chunk. cbn. rewrite zlen_nil.
    nowrap. rewrite !Z.quot_div_nonneg by lia.
    pose proof (Z.div_le_mono off (off + l - 1) cs ltac:(lia) ltac:(lia)). lia. }
  split; try done. intros rid' r'. cbn. rewrite lookup_insert.
  case_decide; [intros [= <-]|intros Hr'; specialize (C8 _ _ Hr')]; [destruct Hr|destruct C8]; by split.
Qed.

Lemma Open_content file now m :
  content_wf m → tasks_wf m → file_ok content file → content_wf (Open file now m).1.
Proof.
  intros Hc Hwf Hf. unfold Open. case_decide; [done|]. cbn [fst].
  set (m2 := sessionLocked file now (markActivityLocked now m)).
  assert (content_wf m2) as Hc2.
  { apply (content_same m); [subst m2; by rewrite outer_sessionLocked, outer_markActivity| |done|done].
    apply view_heap. subst m2. by rewrite view_sessionLocked, view_markActivity. }
  clearbody m2. eapply content_wf_view; [|apply content_handles; [exact Hc2|]]; [done|exact Hf].
Qed.

Lemma Release_commit_content hid now m :
  content_wf m → tasks_wf m → content_wf (Release_commit hid now m).
Proof.
  intros Hc Hwf. unfold Release_commit. destruct (m_handles m !! hid) as [h|]; [|done]. cbv zeta.
  set (m1 := m <| m_releasing ::= _ |>).
  assert (content_wf m1) as Hc1 by by apply (content_wf_view m).
  assert (tasks_wf m1) as Hwf1 by by apply (tasks_wf_view [] m).
  clearbody m1. set (ver := versionOf _ _). destruct (m_sessions m1 !! ver) as [s|]; [|done].
  set (m3 := if decide (activeHandle s = hd_id h) then _ else _).
  assert (outer_view m3 = outer_view m1 ∧ grows m1 m3) as [Hv Hg].
  { subst m3. case_decide; [|split; [done|by apply grows_heap]].
    unfold cancelSessionTasksLocked. rewrite outer_cancel. split; [done|].
    etrans; [|apply grows_cancel]. by apply grows_heap. }
  clearbody m3. eapply (content_grows m1); [done|done|..].
  - by rewrite outer_cleanup.
  - etrans; [exact Hg|]. apply grows_heap.
    etrans; [apply view_heap, (view_cleanup ver)|]. done.
Qed.

Lemma Close_begin_content m : content_wf m → tasks_wf m → content_wf (Close_begin m).
Proof.
  intros Hc Hwf. unfold Close_begin. destruct (m_closed m) eqn:Hcl; [done|].
  set (g := λ t : task, t <| t_canceled := true |>).
  assert (content_wf (m <| m_heap ::= λ h, h <| h_objs ::= fmap g |> |>)) as Hc1.
  { eapply content_grows; [done|done|done|].
    assert (∀ id, obj (m <| m_heap ::= λ h, h <| h_objs ::= fmap g |> |>) id = g <$> obj m id) as Ho
      by (intros id; apply lookup_fmap).
    split; intros id t Ht.
    - exists (g t). by rewrite Ho, Ht.
    - rewrite Ho in Ht. apply fmap_Some in Ht as (t0 & Ht0 & ->). exists t0. auto. }
  eapply content_wf_view; [|exact Hc1]. done.
Qed.

Lemma reclaimIdle_content e now m : content_wf m → content_wf (reclaimIdleMemory e now m).1.
Proof.
  intros Hc. unfold reclaimIdleMemory. case_decide; [done|].
  assert (∀ d, content_view (scheduleIdleReclaimAfterLocked d (m <| m_idleTimer := None |>)) = content_view m) as Hs
    by (intros d; unfold scheduleIdleReclaimAfterLocked; cbn; by destruct (m_closed m)).
  repeat (case_decide; [cbn [fst]; apply (content_wf_view m); [apply Hs|done]|]).
  pose proof (shrink_right _ _ (cw_store _ _ _ Hc) (cc_clear_law (m_store m) (proj1 (cw_store _ _ _ Hc)))) as Hst.
  change (m_store (_ <| m_sessions ::= fmap clear_window |>)) with (m_store m).
  destruct (cc_clear (m_store m)) as [st n]. cbn [fst] in *.
  apply (content_wf_view (m <| m_store := st |>)); [done|]. by apply content_store.
Qed.

Lemma perform_content l m m' :
  manager_wf m → content_wf m → label_right content cs m l → enabled l m →
  perform l m = Some m' → content_wf m'.
Proof.
  intros Hm Hc Hlr He. pose proof (mgr_tasks _ Hm) as Hwf.
  destruct (worker_label l) eqn:Hwl; [by apply worker_content|].
  destruct (hedge_label l) eqn:Hhl; [by apply hedge_content|].
  destruct l; try done; cbn [enabled perform label_right] in *;
    try (intros [= <-]; by apply (content_wf_view m)).
  - intros [= <-]. by apply Open_content.
  - intros [= <-]. unfold Release_mark. destruct (m_handles m !! hid) as [h|] eqn:Hh; [|done].
    destruct (released h); [done|].
    apply (content_wf_view (m <| m_handles ::= <[hid := h <| released := true |>]> |>)); [done|].
    apply content_handles; [done|]. exact (cw_handles _ _ _ Hc hid h Hh).
  - intros [= <-]. by apply Release_commit_content.
  - by apply readAt_begin_content.
  - apply reader_get_content; [done|by left].
  - apply reader_get_content; [done|by right].
  - by apply reader_lock_content.
  - by apply reader_mark_content.
  - by apply reader_waited_content.
  - intros [= <-]. apply content_set_read; [done|]. intros r Hr.
    apply go_to_right; [by apply (cw_reads _ _ _ Hc rid)|done].
  - intros [= <-]. apply (content_same m); [apply outer_scheduleWindow| |done|done].
    apply view_heap, view_scheduleWindow.
  - destruct (ensureTask_locked _ _ _ _ m) as [[m1 r]|] eqn:Hen; [|done]. intros [= <-].
    destruct Hlr as (Hf & Hi & Hr). by eapply ensure_content.
  - intros [= <-]. apply content_store; [done|]. destruct (cc_get io key touch (m_store m)) eqn:Hg.
    by apply get_right in Hg as [? _]; [|apply Hc].
  - intros [= <-]. apply content_store; [done|]. destruct (cc_length key (m_store m)) eqn:Hg.
    by apply length_right in Hg; [|apply Hc].
  - intros [= <-]. apply content_store; [done|].
    apply (shrink_right (m_store m)); [apply Hc|]. apply cc_prune_law, Hc.
  - intros [= <-]. apply content_store; [done|].
    apply (shrink_right (m_store m)); [apply Hc|]. apply cc_remove_range_law, Hc.
  - intros [= <-]. unfold diskWriter. destruct (m_diskWrites m) as [|en rest] eqn:Hd; [done|].
    pose proof (cw_disk _ _ _ Hc) as Hfa. rewrite Hd in Hfa. apply Forall_cons in Hfa as [Hen Hrest].
    assert (content_wf (m <| m_store := (cc_put_disk io (ce_key en) (ce_data en) (m_store m)).1 |>)) as Hc1.
    { apply content_store; [done|]. apply put_disk_right; [apply Hc|done|]. by destruct en. }
    destruct Hc1 as [C1 C2 C3 C4 C5 C6 C7 C8]. split; try done.
    intros rid r Hr. destruct (C8 rid r Hr). by split.
  - intros [= <-]. by apply reclaimIdle_content.
  - intros [= <-]. apply (content_same m); [apply outer_summary| |done|done].
    apply view_heap, view_summary.
  - intros [= <-]. by apply Close_begin_content.
Qed.

(** ** Reachable with well-behaved surroundings *)
Inductive served (m0 : manager S) : manager S → Prop :=
| served_start : served m0 m0
| served_step l m m' :
    served m0 m → label_right content cs m l → enabled l m → perform l m = Some m' → served m0 m'.

Lemma newManager_content cfg store :
  ChunkSize cfg = cs → store_right store → content_wf (newManager cfg store).
Proof.
  intros Hcs Hst. split; try done; try (intros *; unfold obj; cbn; by rewrite ?lookup_empty).
Qed.

Lemma served_wf cfg store m :
  config_ok cfg → ChunkSize cfg = cs → store_right store → served (newManager cfg store) m →
  manager_wf m ∧ content_wf m.
Proof.
  intros Hcfg Hcs Hst. induction 1 as [|l m m' _ [IH1 IH2] Hl He Hp].
  { split; [by apply newManager_wf|by apply newManager_content]. }
  split; [by eapply perform_kept|exact (perform_content l m m' IH1 IH2 Hl He Hp)].
Qed.
End serves.
