(* ===== verification/ManagerSeek.v ===== *)
(** * Seeks, epochs and the scheduled window

    What [prepareRead] does to the session of a handle: which reads take the
    session over, which background tasks that cancels, and which chunks
    [scheduleBuffer] asks for. *)
From S2P Require Import Prelude GoList GoStrings ChunkKeys ChunkStore ChunkCache TaskHeap StreamConfig Access Manager ManagerTasks ManagerSteps ManagerTable ManagerQueue ManagerInv ManagerFrame.

Section seek.
Context {S : Type} `{!ChunkCache S}.
Implicit Types (m : manager S) (id : nat) (t : task) (s : session).

(** The task objects after [for _, task := range m.tasks { if P { task.cancel() } }]. *)
Lemma cancel_fold_obj P `{!∀ t, Decision (P t)} (l : list (chunkKey * nat)) m id t :
  (∀ t, P (t <| t_canceled := true |>) ↔ P t) → obj m id = Some t →
  obj (foldr (λ p, set_task p.2 (λ t, if decide (P t) then t <| t_canceled := true |> else t)) m l) id
  = Some (if decide (P t ∧ id ∈ l.*2) then t <| t_canceled := true |> else t).
Proof.
  intros HP Ht. induction l as [|[k id'] l IH]; cbn [foldr fmap list_fmap snd].
  { rewrite decide_False; [done|]. by intros [_ ?%not_elem_of_nil]. }
  rewrite obj_set_task. destruct (decide (id = id')) as [<-|Hne]; rewrite IH; [cbn [fmap option_fmap option_map]|].
  - destruct (decide (P t ∧ id ∈ l.*2)) as [[Hp Hin]|Hn].
    + rewrite (decide_True (P := P (t <| t_canceled := true |>))) by by apply HP.
      rewrite decide_True; [done|]. split; [done|by right].
    + destruct (decide (P t)) as [Hp|Hp].
      * rewrite decide_True; [done|]. split; [done|by left].
      * rewrite decide_False; [done|]. by intros [? _].
  - do 2 f_equal. apply decide_ext. rewrite elem_of_cons. naive_solver.
Qed.

Lemma cancelSession_obj ver e m id t :
  tasks_wf m → obj m id = Some t → m_tasks m !! t_key t = Some id →
  obj (cancelSessionTasksLocked ver e m) id
  = Some (if decide (should_cancel ver e t) then t <| t_canceled := true |> else t).
Proof.
  intros Hwf Ht Hk. unfold cancelSessionTasksLocked, cancel_tasks.
  rewrite (cancel_fold_obj _ _ _ _ t); [|done|done]. f_equal.
  assert (id ∈ (map_to_list (m_tasks m)).*2) as Hin.
  { apply list_elem_of_fmap. exists (t_key t, id). split; [done|]. by apply elem_of_map_to_list. }
  destruct (decide (should_cancel ver e t)); [rewrite decide_True by tauto|rewrite decide_False by tauto]; done.
Qed.

(** A read on an open manager through a live handle of a known session: the
    state before the event is applied. *)
Record ready m (hid offset length now : Z) (h : Handle) s : Prop := {
  rd_handle : m_handles m !! hid = Some h;
  rd_live : released h = false;
  rd_open : m_closed m = false;
  rd_session : m_sessions m !! versionOf m (hd_file h) = Some s
}.

Lemma markActivity_same now m :
  m_sessions (markActivityLocked now m) = m_sessions m ∧ m_tasks (markActivityLocked now m) = m_tasks m ∧
  m_heap (markActivityLocked now m) = m_heap m ∧ m_cfg (markActivityLocked now m) = m_cfg m.
Proof.
  unfold markActivityLocked, scheduleIdleReclaimAfterLocked.
  destruct (m_closed m) eqn:Hc; [done|]. cbn. destruct (m_idleTimer m); [done|]. cbn. by rewrite Hc.
Qed.

(** [prepareRead] in terms of [apply_event] on an equivalent state. *)
Lemma prepareRead_ready m hid offset length now h s :
  ready m hid offset length now h s →
  ∃ m2, m_heap m2 = m_heap m ∧ m_tasks m2 = m_tasks m ∧ m_sessions m2 = m_sessions m ∧
    task_view m2 = task_view m ∧
    let ver := versionOf m (hd_file h) in
    let ob := (observeHandleLocked (m_cfg m) h offset length).2 in
    let within := inScheduledWindowLocked m s offset in
    let '(m3, ev, independent) := apply_event ver s (hd_id h) offset within ob m2 in
    let '(m', r) := prepareRead hid offset length now m in
    m_heap m' = m_heap m3 ∧ m_tasks m' = m_tasks m3 ∧
    let s3 := default s (m_sessions m3 !! ver) in
    (∃ c, m_sessions m' !! ver = (λ s, s <| lastAccess := now |> <| cursor := c |>) <$> m_sessions m3 !! ver) ∧
    ∃ log, r = Ok (mkPrepared (se_epoch s3) (ob_mode ob)
                     (negb independent && ob_streamRead ob &&
                      (bool_decide (activeHandle s3 = hd_id h) || within)) ev log).
Proof.
  intros [Hh Hr Hc Hs]. unfold prepareRead. rewrite Hh, Hr.
  destruct (observeHandleLocked (m_cfg m) h offset length) as [h' ob] eqn:Ho.
  destruct (observe_frame _ _ _ _ _ _ Ho) as (Ef & Ei & _). cbn [snd].
  set (m1 := m <| m_handles ::= <[hid := h']> |>). change (m_closed m1) with (m_closed m). rewrite Hc.
  destruct (markActivity_same now m1) as (E1 & E2 & E3 & E4).
  assert (sessionLocked (hd_file h') now (markActivityLocked now m1) = markActivityLocked now m1) as Hsl.
  { unfold sessionLocked, versionOf. rewrite E1, E4, Ef. change (m_sessions m1) with (m_sessions m).
    change (m_cfg m1) with (m_cfg m). unfold versionOf in Hs. by rewrite Hs. }
  cbv zeta. rewrite Hsl. set (m2 := markActivityLocked now m1) in *.
  assert (versionOf m2 (hd_file h') = versionOf m (hd_file h)) as -> by (unfold versionOf; by rewrite E4, Ef).
  rewrite E1. change (m_sessions m1) with (m_sessions m). rewrite Hs, Ei. cbn [from_option id].
  assert (inScheduledWindowLocked m2 s offset = inScheduledWindowLocked m s offset) as ->
    by (unfold inScheduledWindowLocked; by rewrite E4).
  exists m2. split_and!; [done|done|done|by (unfold m2; rewrite view_markActivity)|].
  destruct (apply_event _ _ _ _ _ _ m2) as [[m3 ev] ind]. cbn.
  split_and!; [done|done| |by eexists].
  rewrite lookup_alter_eq. destruct (m_sessions m3 !! versionOf m (hd_file h)) as [s3|]; [|by exists 0].
  by eexists.
Qed.
End seek.

(** ** The range [scheduleBuffer] covers *)
Lemma elem_of_upto i a b : i ∈ upto a b ↔ a ≤ i ≤ b.
Proof. unfold upto. rewrite elem_of_seqZ. lia. Qed.
Lemma elem_of_calls (f : Z → priority) i p a b :
  (i, p) ∈ ((λ j, (j, f j)) <$> upto a b) ↔ a ≤ i ≤ b ∧ p = f i.
Proof.
  rewrite list_elem_of_fmap. setoid_rewrite elem_of_upto. split.
  - intros (j & [= -> ->] & ?). done.
  - intros [? ->]. by exists i.
Qed.

(** Settings and positions far from the end of [int64]. *)
Record buffer_sane (cfg : Config) (file : File) (cursor : Z) : Prop := {
  bs_chunk : 0 < ChunkSize cfg;
  bs_target : 0 < TargetBuffer cfg < 2 ^ 61;
  bs_back : 0 ≤ BackBuffer cfg < 2 ^ 61;
  bs_cursor : 0 ≤ cursor < 2 ^ 61;
  bs_size : 0 ≤ Size file < 2 ^ 61
}.

Lemma buffer_range_spec cfg file cursor p :
  buffer_sane cfg file cursor → buffer_range cfg file cursor = Some p →
  let last := if decide (0 < Size file) then Z.min (Size file) (cursor + TargetBuffer cfg)
              else cursor + TargetBuffer cfg in
  bp_start p = cursor `div` ChunkSize cfg ∧
  bp_end p = (last - 1) `div` ChunkSize cfg ∧ cursor < last ∧
  bp_near p = Z.min (bp_end p) ((cursor + MiB 64) `div` ChunkSize cfg) ∧
  bp_floor p = Z.max 0 (cursor - BackBuffer cfg) `div` ChunkSize cfg.
Proof.
  intros [H1 H2 H3 H4 H5]. unfold buffer_range, MiB. case_decide; [done|].
  assert (w64 (cursor + TargetBuffer cfg) = cursor + TargetBuffer cfg) as -> by (apply w64_id; unfold in64; lia).
  set (e := if decide (0 < Size file ∧ _) then _ else _).
  assert (e = if decide (0 < Size file) then Z.min (Size file) (cursor + TargetBuffer cfg)
              else cursor + TargetBuffer cfg) as <- by (subst e; repeat case_decide; lia).
  assert (e < 2 ^ 62) by (subst e; case_decide; lia).
  case_decide; [done|]. intros [= <-]. cbn [bp_start bp_end bp_near bp_floor]. nowrap.
  rewrite !Z.quot_div_nonneg by (try case_decide; lia).
  split_and!; [done|done|lia| |].
  - case_decide; lia.
  - f_equal. case_decide; lia.
Qed.

Lemma buffer_range_order cfg file cursor p :
  buffer_sane cfg file cursor → buffer_range cfg file cursor = Some p →
  0 ≤ bp_floor p ≤ bp_start p ∧ bp_start p ≤ bp_near p ≤ bp_end p ∧
  (0 < Size file → bp_end p * ChunkSize cfg < Size file).
Proof.
  intros Hs Hp. destruct (buffer_range_spec _ _ _ _ Hs Hp) as (E1 & E2 & Hlt & E3 & E4).
  destruct Hs as [H1 H2 H3 H4 H5]. rewrite E3, E1, E4. unfold MiB.
  set (last := if decide (0 < Size file) then _ else _) in *.
  pose proof (Z.div_le_mono cursor (last - 1) (ChunkSize cfg) ltac:(lia) ltac:(lia)).
  pose proof (Z.div_le_mono cursor (cursor + 64 * 2 ^ 20) (ChunkSize cfg) ltac:(lia) ltac:(lia)).
  pose proof (Z.div_le_mono (Z.max 0 (cursor - BackBuffer cfg)) cursor (ChunkSize cfg) ltac:(lia) ltac:(lia)).
  pose proof (Z.div_pos (Z.max 0 (cursor - BackBuffer cfg)) (ChunkSize cfg) ltac:(lia) ltac:(lia)).
  split_and!; [lia|lia|lia|lia|]. intros Hsz.
  pose proof (Z.mul_div_le (last - 1) (ChunkSize cfg) ltac:(lia)).
  assert (last ≤ Size file) by (subst last; rewrite decide_True by done; lia). lia.
Qed.
