(* ===== verification/ManagerDemo.v ===== *)
(** * Running the manager on concrete inputs

    [enabled] is decidable, so runs given as lists of labels evaluate; the
    witnesses of the manager's properties are such runs. *)
From S2P Require Import Prelude GoList GoStrings ChunkKeys ChunkStore ChunkMemory ChunkDisk ChunkRestart ChunkCache TaskHeap StreamConfig Access Manager ManagerTasks ManagerSteps ManagerRead ManagerContent ManagerServes.

Section run.
Context {S : Type} `{!ChunkCache S}.
Implicit Types (m : manager S).

#[export] Instance all_done_dec m : Decision (all_done m).
Proof. unfold all_done. apply _. Defined.
#[export] Instance enabled_dec l m : Decision (enabled l m).
Proof.
  destruct l; cbn [enabled]; try apply _. apply at_pc_dec. intros []; cbn; apply _.
Defined.

Definition run_label (l : label) m : option (manager S) :=
  if decide (enabled l m) then perform l m else None.
Definition run_labels (ls : list label) m : option (manager S) :=
  foldl (λ r l, r ≫= run_label l) (Some m) ls.

Lemma run_labels_snoc ls l m : run_labels (ls ++ [l]) m = run_labels ls m ≫= run_label l.
Proof. unfold run_labels. by rewrite foldl_app. Qed.

Lemma run_labels_reachable ls m m' : run_labels ls m = Some m' → reachable m m'.
Proof.
  revert m'. induction ls as [|l ls IH] using rev_ind; intros m'.
  { intros [= <-]. constructor. }
  rewrite run_labels_snoc. destruct (run_labels ls m) as [m1|]; [|done]. cbn.
  unfold run_label. case_decide as He; [|done]. intros Hp. by eapply reach_step; [apply IH|..].
Qed.

(** [label_right] as far as a run on one file needs it. *)
Context `{!ChunkCacheLaws S} (content : File → bytes) (cs : Z) (file : File).
Definition reply_check m (id : nat) (reply : result streamErr bytes) : bool :=
  match obj m id, reply with
  | Some t, Ok d => bool_decide (zlen d ≠ t_length t ∨
                      d = slice (content (t_file t)) (t_offset t) (t_length t))
  | _, _ => true
  end.
Definition label_check m (l : label) : bool :=
  match l with
  | LOpen f _ => bool_decide (f = file)
  | LRead _ _ offset length _ => bool_decide (offset + length < 2 ^ 61)
  | LBackground f i _ _ => bool_decide (f = file ∧ 0 ≤ i ∧ i * cs < 2 ^ 61)
  | LAttempt id reply | LHedgeReply id reply => reply_check m id reply
  | LDiskWriter io => bool_decide (io_ok io)
  | _ => true
  end.
Lemma label_check_right m l :
  file_ok content file → label_check m l = true → label_right content cs m l.
Proof.
  intros Hf. destruct l; cbn; try done; try (by intros ->%bool_decide_eq_true);
    try (intros H%bool_decide_eq_true; naive_solver);
    unfold reply_check; intros H t Ht d -> Hl; rewrite Ht in H;
    apply bool_decide_eq_true in H; naive_solver.
Qed.
Definition serve_labels (ls : list label) m : option (manager S) :=
  foldl (λ r l, m ← r; if label_check m l then run_label l m else None) (Some m) ls.
Lemma serve_labels_served ls m m' :
  file_ok content file → serve_labels ls m = Some m' → served content cs m m'.
Proof.
  intros Hf. revert m'. induction ls as [|l ls IH] using rev_ind; intros m'.
  { intros [= <-]. constructor. }
  unfold serve_labels. rewrite foldl_app. fold (serve_labels ls m). cbn.
  destruct (serve_labels ls m) as [m1|]; [|done]. cbn.
  destruct (label_check m1 l) eqn:Hl; [|done]. unfold run_label. case_decide as He; [|done].
  intros Hp. eapply served_step; [by apply IH|by apply label_check_right|done|done].
Qed.
End run.

(** ** Example inputs *)
Definition sampleFile : File := mkFile "42" 10 7.
Definition sampleBytes : bytes :=
  [Byte.x30; Byte.x31; Byte.x32; Byte.x33; Byte.x34; Byte.x35; Byte.x36; Byte.x37; Byte.x38; Byte.x39].
Definition sampleContent (f : File) : bytes :=
  if decide (f = sampleFile) then sampleBytes else replicate (Z.to_nat (Size f)) Byte.x00.
Definition sampleConfig : Config :=
  DefaultConfig <| ChunkSize := 4 |> <| Workers := 2 |> <| SessionWorkers := 1 |>
    <| MemoryCache := 100 |> <| DiskCache := 100 |> <| CachePath := "cache" |>.
Definition sampleManager : manager chunkStore :=
  newManager sampleConfig (emptyStore 100 "cache" 100 ∅).

Lemma sampleFile_ok : file_ok sampleContent sampleFile.
Proof.
  split_and!; try done. intros c [->|[->|[]]]; eauto.
Qed.
Lemma sampleManager_new : NewManager goodIO sampleConfig ∅ = Some sampleManager.
Proof. vm_compute. reflexivity. Qed.

(** Handle 1 reads bytes 2..8: chunk 0 is downloaded by the worker, chunk 1
    by a hedge, and both reach the reader. *)
Definition sampleRun : list label :=
  [LOpen sampleFile 1; LRead 1 1 2 6 2; LGet 1 goodIO; LEnsure 1 goodIO; LLock 1; LMark 1; LNext 3;
   LAttempt 0 (Ok [Byte.x30; Byte.x31; Byte.x32; Byte.x33]); LWorkerPut 0; LWorkerCommit 0 5;
   LWorkerDisk 0; LWaited 1; LGet 1 goodIO; LEnsure 1 goodIO; LLock 1; LMark 1; LNext 9; LHedge 1;
   LHedgeReply 1 (Ok [Byte.x34; Byte.x35; Byte.x36; Byte.x37]); LHedgePut 1; LHedgePublish 1;
   LWaited 1; LGet 1 goodIO].
Example sampleRun_result :
  (m ← run_labels sampleRun sampleManager; r ← m_reads m !! 1%nat; Some (rd_pc r))
  = Some (RDone (Ok [Byte.x32; Byte.x33; Byte.x34; Byte.x35; Byte.x36; Byte.x37])).
Proof. vm_compute. reflexivity. Qed.

(** A larger file, streamed through handle 1, with one chunk read ahead. *)
Definition movieFile : File := mkFile "77" 100 3.
Definition seekRun : list label :=
  [LOpen movieFile 1; LRead 1 1 10 4 2; LRead 2 1 14 4 3; LBackground movieFile 8 0 priorityAhead].
Definition seekState : manager chunkStore := default sampleManager (run_labels seekRun sampleManager).
(** A second handle starts streaming elsewhere and owns the session. *)
Definition takenRun : list label :=
  seekRun ++ [LOpen movieFile 4; LRead 3 2 50 4 5; LRead 4 2 54 4 6].
Definition takenState : manager chunkStore := default sampleManager (run_labels takenRun sampleManager).
Definition handle_of (m : manager chunkStore) (hid : Z) : Handle :=
  default (newHandle movieFile 0) (m_handles m !! hid).
Definition session_of (m : manager chunkStore) (file : File) : session :=
  default (newSession file 0) (m_sessions m !! versionOf m file).
