(* ===== verification/ManagerProps.v ===== *)
(** * Properties of the stream manager

    Over all interleavings of its goroutines: what reads return, which steps
    panic, how tasks and workers are kept, what seeks cancel and what is read
    ahead. *)
From S2P Require Import Prelude GoList GoStrings ChunkKeys ChunkStore ChunkMemory ChunkDisk ChunkRestart ChunkCache TaskHeap StreamConfig Access Manager ManagerTasks ManagerSteps ManagerTable ManagerQueue ManagerInv ManagerFrame ManagerRead ManagerContent ManagerServes ManagerSeek ManagerDemo.

(** ** Shared facts *)
Lemma NewManager_inv io cfg d m0 :
  NewManager io cfg d = Some m0 →
  ∃ cfg' store, config_ok cfg' ∧ m0 = newManager cfg' store ∧
    newChunkStore io (MemoryCache cfg') (CachePath cfg') (DiskCache cfg') d = Ok store.
Proof.
  unfold NewManager. destruct (normalize cfg) as [cfg'|] eqn:Hn; [|done]. cbn.
  destruct (newChunkStore _ _ _ _ _) as [store|] eqn:Hs; [|done]. intros [= <-].
  exists cfg', store. split_and!; [by eapply normalize_ok|done|done].
Qed.

Lemma NewManager_reachable_wf io cfg d m0 m :
  NewManager io cfg d = Some m0 → reachable m0 m → manager_wf m ∧ m_cfg m = m_cfg m0.
Proof.
  intros (cfg' & store & Hc & -> & _)%NewManager_inv Hr.
  by destruct (reachable_wf _ _ _ Hc Hr) as [? ->].
Qed.

(** The cache directory a process starts on holds chunks of the files. *)
Definition dir_right (content : File → bytes) (cs : Z) (d : gmap string dirFile) : Prop :=
  ∀ k b t, key_ok k → d !! chunkPath k = Some (mkDirFile RegularFile b t) → right_chunk content cs k b.

Lemma newChunkStore_right content cs io ml dp dl d s :
  newChunkStore io ml dp dl d = Ok s → dir_right content cs d → store_right content cs s.
Proof.
  intros Hn Hd. split; [by destruct (newChunkStore_wf _ _ _ _ _ _ Hn)|].
  intros k b Hk Hh. destruct (newChunkStore_holds _ _ _ _ _ _ _ _ Hn Hh) as [t Ht]. by eapply Hd.
Qed.

Lemma NewManager_served content io cfg d m0 m :
  NewManager io cfg d = Some m0 → ChunkSize (m_cfg m0) < 2 ^ 61 →
  dir_right content (ChunkSize (m_cfg m0)) d →
  served content (ChunkSize (m_cfg m0)) m0 m →
  manager_wf m ∧ content_wf content (ChunkSize (m_cfg m0)) m.
Proof.
  intros (cfg' & store & Hc & -> & Hs)%NewManager_inv Hcs Hd Hr.
  eapply (served_wf content); [|done|done| |done].
  - pose proof (co_chunk _ Hc). cbn in *. lia.
  - by eapply newChunkStore_right.
Qed.

(** The state [sampleRun] leads to. *)
Definition sampleFinal : manager chunkStore := default sampleManager (run_labels sampleRun sampleManager).
Lemma sampleFinal_run : run_labels sampleRun sampleManager = Some sampleFinal.
Proof. vm_compute. reflexivity. Qed.
(** The finished read of [sampleRun]. *)
Definition sampleRead : readCall :=
  default (mkRead sampleFile 0 0 0 modeProbe false [] RGet) (m_reads sampleFinal !! 1%nat).

(** ** Claims *)

(** C2: Whatever a call of ReadAt returns, under any interleaving of callers,
    workers, hedges and cache traffic, is exactly the requested slice of the
    remote file, provided the remote answers a range request that has the
    right length with the bytes of that range and the cache directory held
    chunks of the files. *)
Theorem read_returns_file_bytes content io cfg d m0 m rid r b :
  NewManager io cfg d = Some m0 → ChunkSize (m_cfg m0) < 2 ^ 61 →
  dir_right content (ChunkSize (m_cfg m0)) d →
  served content (ChunkSize (m_cfg m0)) m0 m →
  m_reads m !! rid = Some r → rd_pc r = RDone (Ok b) →
  b = slice (content (rd_file r)) (rd_offset r) (rd_length r).
Proof.
  intros Hn Hcs Hd Hs Hr Hpc. destruct (NewManager_served _ _ _ _ _ _ Hn Hcs Hd Hs) as [_ Hc].
  pose proof (rr_pc _ _ _ _ (cw_reads _ _ _ Hc _ _ Hr)) as H. by rewrite Hpc in H.
Qed.
Lemma read_returns_file_bytes_witness :
  [Byte.x32; Byte.x33; Byte.x34; Byte.x35; Byte.x36; Byte.x37]
  = slice (sampleContent (rd_file sampleRead)) (rd_offset sampleRead) (rd_length sampleRead).
Proof.
  refine (read_returns_file_bytes sampleContent goodIO sampleConfig ∅ sampleManager sampleFinal 1 sampleRead _
            sampleManager_new _ _ _ _ _).
  - vm_compute. reflexivity.
  - intros k b t _ Hk. by rewrite lookup_empty in Hk.
  - refine (serve_labels_served sampleContent 4 sampleFile sampleRun _ _ sampleFile_ok _).
    vm_compute. reflexivity.
  - vm_compute. reflexivity.
  - vm_compute. reflexivity.
Defined.

(** C3: The only steps of any goroutine that panic are those of a [make] in
    readAt: a read, let through by a manager that is open, the length of whose
    slice of chunks is negative (its end overflows an int64) or too large to
    allocate, and the last step of a read for more bytes than can be allocated.
    No other step panics: no heap operation leaves the queue's bounds, no done
    channel is closed twice, nothing is sent on the closed disk channel and no
    task pointer is nil.  In particular a read whose end does not overflow and
    that asks for no more than 2^40 bytes starts without a panic. *)
Theorem manager_never_panics io cfg d m0 m l :
  NewManager io cfg d = Some m0 → reachable m0 m → enabled l m →
  (perform l m = None ↔ make_panics l m) ∧
  (∀ rid hid offset length now, l = LRead rid hid offset length now →
     offset + length < 2 ^ 63 → length ≤ 2 ^ 40 → is_Some (perform l m)).
Proof.
  intros Hn Hr He. destruct (NewManager_reachable_wf _ _ _ _ _ Hn Hr) as [Hwf Hcfg].
  assert (0 < ChunkSize (m_cfg m)) as Hcs.
  { destruct (NewManager_inv _ _ _ _ Hn) as (cfg' & store & Hc & -> & _). rewrite Hcfg. apply Hc. }
  assert (¬ make_panics l m → is_Some (perform l m)) as Hs.
  { intros Hmk. destruct (perform_wf l m Hwf He Hmk) as (m' & -> & _). by eexists. }
  split; [split; [|apply make_panics_None]|].
  - intros Hp. destruct (perform l m) eqn:E; [done|].
    assert (¬ ¬ make_panics l m) as Hnn by (intros Hmk%Hs; by destruct Hmk).
    destruct l; try (exfalso; apply Hnn; intros []; fail); cbn [perform enabled] in E, He; unfold at_pc in He.
    + by apply readAt_begin_None.
    + eapply reader_get_None, E. destruct (m_reads m !! rid); [by eexists|done].
    + eapply reader_get_None, E. destruct (m_reads m !! rid); [by eexists|done].
  - intros rid hid offset length now -> Hend Hlen. apply Hs. intros (h & len & _ & Hclip & _ & _ & Hm).
    apply readAt_clip_range in Hclip as (H0 & H1 & H2); [|done].
    rewrite makeslice_chunks in Hm; [done|].
    pose proof (chunk_count_bounds (ChunkSize (m_cfg m)) offset len Hcs H0 H1 ltac:(lia)). lia.
Qed.
Lemma manager_never_panics_witness :
  is_Some (perform (LNext 20) sampleFinal) ∧ is_Some (perform LClose sampleFinal).
Proof.
  assert (reachable sampleManager sampleFinal) as Hr
    by (apply (run_labels_reachable sampleRun), sampleFinal_run).
  assert (∀ l, enabled l sampleFinal → ¬ make_panics l sampleFinal → is_Some (perform l sampleFinal)) as H.
  { intros l He Hmk.
    pose proof (proj1 (manager_never_panics goodIO sampleConfig ∅ sampleManager sampleFinal l sampleManager_new Hr He)) as H.
    destruct (perform l sampleFinal) as [m|]; [by exists m|]. destruct (Hmk (proj1 H eq_refl)). }
  split; apply H; try (intros []; fail); vm_compute; try exact I; split; [lia|reflexivity].
Defined.

(** The overflow happens: a read of a file of unknown size, on a manager that
    just opened it. *)
Definition wrapLabels : list label := [LOpen (mkFile "42" 0 7) 1].
Definition wrapState : manager chunkStore := default sampleManager (run_labels wrapLabels sampleManager).
Lemma read_end_wraps_panics :
  reachable sampleManager wrapState ∧ perform (LRead 1 1 (2 ^ 62) (2 ^ 62 + 1) 2) wrapState = None.
Proof. split; [apply (run_labels_reachable wrapLabels); vm_compute; reflexivity|vm_compute; reflexivity]. Qed.

(** C4: At most one live task (neither finished nor canceled) exists for a
    chunk, and it is the one the chunk's key maps to; a key never maps to a
    finished task.  No task is lost: an unfinished task is either in the queue
    or in the hands of a worker, and a task's done channel is closed exactly
    when it is finished.  (A hedge of the live task, or a canceled task that
    still runs, may download the same chunk besides.) *)
Theorem tasks_unique_and_kept io cfg d m0 m :
  NewManager io cfg d = Some m0 → reachable m0 m →
  (∀ id t, obj m id = Some t → t_finished t = false → t_canceled t = false → m_tasks m !! t_key t = Some id) ∧
  (∀ id id' t t', obj m id = Some t → obj m id' = Some t' →
     t_finished t = false → t_canceled t = false → t_finished t' = false → t_canceled t' = false →
     t_key t = t_key t' → id = id') ∧
  (∀ id t, obj m id = Some t → t_finished t = false →
     (t_started t = false ∧ id ∈ h_queue (m_heap m)) ∨
     (t_started t = true ∧ ∃ pc, m_running m !! id = Some pc ∧ is_WDisk pc = false)) ∧
  (∀ id t, obj m id = Some t → t_closed t = t_finished t) ∧
  (∀ k id, m_tasks m !! k = Some id → ∃ t, obj m id = Some t ∧ t_key t = k ∧ t_finished t = false).
Proof.
  intros Hn Hr. destruct (NewManager_reachable_wf _ _ _ _ _ Hn Hr) as [[Hwf _ _] _]. split_and!.
  - apply Hwf.
  - intros id id' t t' Ht Ht' F C F' C' Hk.
    pose proof (tw_live _ _ Hwf _ _ Ht F C) as H1. pose proof (tw_live _ _ Hwf _ _ Ht' F' C') as H2.
    rewrite Hk in H1. congruence.
  - intros id t Ht F. destruct (t_started t) eqn:Hs; [right|left].
    + split; [done|]. by eapply tw_started.
    + split; [done|]. destruct (tw_queue _ _ Hwf _ _ Ht F Hs) as [|?%not_elem_of_nil]; done.
  - apply Hwf.
  - apply Hwf.
Qed.
Lemma tasks_unique_and_kept_witness :
  m_tasks sampleFinal = ∅ ∧ (∀ id t, obj sampleFinal id = Some t → t_closed t = t_finished t).
Proof.
  split; [vm_compute; reflexivity|].
  refine (proj1 (proj2 (proj2 (proj2 (tasks_unique_and_kept goodIO sampleConfig ∅ sampleManager sampleFinal
    sampleManager_new _))))).
  apply (run_labels_reachable sampleRun), sampleFinal_run.
Defined.

(** C5: A worker that asks for work gets an eligible task (unfinished, not
    canceled, its session below its worker limit unless foreground) such that
    no eligible task of the queue is more urgent by priority and then age; it
    goes back to waiting only when no task of the queue is eligible. *)
Theorem next_task_most_urgent io cfg d m0 m now :
  NewManager io cfg d = Some m0 → reachable m0 m →
  ∃ m' r, nextTask now m = Some (m', r) ∧
    match r with
    | None => ∀ id, id ∈ h_queue (m_heap m) → ¬ eligible m id
    | Some id => id ∈ h_queue (m_heap m) ∧ eligible m id ∧
        ∀ id', id' ∈ h_queue (m_heap m) → eligible m id' →
          ¬ rank_lt (id_rank (h_objs (m_heap m)) id') (id_rank (h_objs (m_heap m)) id)
    end.
Proof.
  intros Hn Hr. destruct (NewManager_reachable_wf _ _ _ _ _ Hn Hr) as [[Hwf _ Hlim] _].
  destruct (next_loop_spec (S (length (h_queue (m_heap m)))) [] now m) as (m' & r & Hrun & Hc);
    [done|done|by intros id ?%not_elem_of_nil|lia|].
  exists m', r. split; [done|]. destruct r; apply Hc.
Qed.
Lemma next_task_most_urgent_witness :
  ∃ m' r, nextTask 3 (default sampleManager (run_labels (take 5 sampleRun) sampleManager)) = Some (m', r)
    ∧ r = Some 0%nat.
Proof.
  destruct (next_task_most_urgent goodIO sampleConfig ∅ sampleManager
    (default sampleManager (run_labels (take 5 sampleRun) sampleManager)) 3 sampleManager_new)
    as (m' & r & Hn & _).
  - apply (run_labels_reachable (take 5 sampleRun)). vm_compute. reflexivity.
  - exists m', r. split; [exact Hn|]. vm_compute in Hn. injection Hn as _ <-. reflexivity.
Defined.

(** C28: Workers hold at most [Workers] tasks at a time.  The hedges run on top
    of them, and each has a task of its own: a hedge starts only for a task that
    is neither finished nor canceled and has had no hedge, while the manager is
    open.  Once Close has closed the disk channel no worker and no hedge is
    left. *)
Theorem workers_bounded io cfg d m0 m :
  NewManager io cfg d = Some m0 → reachable m0 m →
  (size (m_running m) ≤ Z.to_nat (Workers (m_cfg m0)))%nat ∧
  (∀ id pc, m_hedging m !! id = Some pc → ∃ t, obj m id = Some t ∧ t_hedged t = true) ∧
  (∀ id m', perform (LHedge id) m = Some m' →
     m_hedging m' = m_hedging m ∨ hedge_starts id m ∧ m_hedging m' = <[id := HRead]> (m_hedging m)) ∧
  (m_diskClosed m = true → m_closed m = true ∧ all_done m).
Proof.
  intros Hn Hr. destruct (NewManager_reachable_wf _ _ _ _ _ Hn Hr) as [[Hwf [H1 H2] _] Hc].
  rewrite Hc in H2. split_and!; [lia|apply Hwf| |done].
  intros id m'. cbn [perform]. destruct (startHedge id m) as [[m1 b]|] eqn:Hs; [|done].
  intros [= <-]. by eapply startHedge_once.
Qed.
Lemma workers_bounded_witness :
  (size (m_running sampleFinal) ≤ 2)%nat.
Proof.
  refine (proj1 (workers_bounded goodIO sampleConfig ∅ sampleManager sampleFinal sampleManager_new _)).
  apply (run_labels_reachable sampleRun), sampleFinal_run.
Defined.

(** C7: While another handle owns the playback session, a read that looks like
    a seek changes neither the session's epoch, owner and anchor nor any task:
    a separate metadata or range read does not cancel the active playback. *)
Theorem independent_seek_keeps_playback {S} `{!ChunkCache S} (m : manager S)
    hid offset length now h s :
  ready m hid offset length now h s →
  activeHandle s ≠ 0 → activeHandle s ≠ hd_id h →
  ob_event (observeHandleLocked (m_cfg m) h offset length).2 = readEventSeek →
  let '(m', r) := prepareRead hid offset length now m in
  m_heap m' = m_heap m ∧
  (∃ s', m_sessions m' !! versionOf m (hd_file h) = Some s' ∧ se_epoch s' = se_epoch s ∧
     activeHandle s' = activeHandle s ∧ streamAnchor s' = streamAnchor s) ∧
  ∃ p, r = Ok p ∧ pr_epoch p = se_epoch s ∧ pr_mode p = modeProbe ∧ pr_stream p = false.
Proof.
  intros Hready Ha Hne Hev. pose proof (rd_session _ _ _ _ _ _ _ Hready) as Hs.
  destruct (prepareRead_ready _ _ _ _ _ _ _ Hready) as (m2 & E1 & E2 & E3 & _ & H). cbv zeta in H.
  destruct (observeHandleLocked (m_cfg m) h offset length) as [h' ob] eqn:Ho. cbn [snd] in *.
  destruct (observe_mode _ _ _ _ _ _ Ho) as (Hstream & _ & Hseek).
  destruct (Hseek Hev) as (Hmode & _).
  assert (ob_streamRead ob = false) as Hsr.
  { destruct (ob_streamRead ob) eqn:E; [|done]. destruct (Hstream eq_refl). congruence. }
  unfold apply_event in H. rewrite Hev, Hmode in H.
  destruct (inScheduledWindowLocked m s offset);
    [rewrite decide_False in H by (intros [? ?]; done)|rewrite decide_True in H by done];
    destruct (prepareRead hid offset length now m) as [m' r];
    destruct H as (H1 & _ & [c H3] & log & ->); rewrite E3, Hs in H3; cbn [fmap option_fmap option_map] in H3;
    rewrite E3, Hs; (split_and!; [congruence|eexists; split_and!; [exact H3|done..]|]);
    (eexists; split_and!; [done|done|done|]); cbn [pr_stream]; rewrite Hsr; by rewrite ?andb_false_r.
Qed.

Lemma independent_seek_keeps_playback_witness :
  activeHandle (session_of takenState movieFile) = 2 ∧
  m_heap (prepareRead 1 2 4 7 takenState).1 = m_heap takenState.
Proof.
  split; [vm_compute; reflexivity|].
  pose proof (independent_seek_keeps_playback takenState 1 2 4 7 (handle_of takenState 1)
    (session_of takenState movieFile)) as H.
  destruct (prepareRead 1 2 4 7 takenState) as [m' r]. refine (proj1 (H _ _ _ _)).
  - split; vm_compute; reflexivity.
  - vm_compute. discriminate.
  - vm_compute. discriminate.
  - vm_compute. reflexivity.
Defined.

(** C6: A seek of the handle that owns the session (or of any handle when none
    does) outside the scheduled window starts a new epoch owned by that handle
    and cancels exactly the live background tasks of older epochs of the same
    file; foreground tasks and other files' tasks go on. *)
Theorem seek_cancels_background {S} `{!ChunkCache S} (m : manager S)
    hid offset length now h s :
  manager_wf m → ready m hid offset length now h s →
  activeHandle s = 0 ∨ activeHandle s = hd_id h →
  ob_event (observeHandleLocked (m_cfg m) h offset length).2 = readEventSeek →
  inScheduledWindowLocked m s offset = false →
  let m' := (prepareRead hid offset length now m).1 in
  (∃ s', m_sessions m' !! versionOf m (hd_file h) = Some s' ∧ se_epoch s' = se_epoch s + 1 ∧
     activeHandle s' = hd_id h ∧ streamAnchor s' = offset) ∧
  ∀ id t, obj m id = Some t → m_tasks m !! t_key t = Some id →
    obj m' id = Some (if decide (version (t_key t) = versionOf m (hd_file h) ∧
                                 t_epoch t ≤ se_epoch s ∧ t_priority t ≠ priorityForeground)
                      then t <| t_canceled := true |> else t).
Proof.
  intros Hwf Hready Ha Hev Hwin m'. pose proof (rd_session _ _ _ _ _ _ _ Hready) as Hs.
  destruct (prepareRead_ready _ _ _ _ _ _ _ Hready) as (m2 & E1 & E2 & E3 & Ev & H). cbv zeta in H.
  unfold apply_event in H. rewrite Hev, Hwin in H. rewrite decide_False in H by tauto. subst m'.
  destruct (prepareRead hid offset length now m) as [m' r]. cbn [fst].
  destruct H as (H1 & H2 & [c H3] & _).
  set (ver := versionOf m (hd_file h)) in *.
  set (m3 := set_session ver (λ s0, s0 <| se_epoch := se_epoch s + 1 |>) m2) in *.
  assert (tasks_wf m3) as Hwf3.
  { apply (tasks_wf_view [] m); [|apply Hwf]. exact Ev. }
  split.
  - unfold takeover in H3.
    assert (m_sessions (cancelSessionTasksLocked ver (se_epoch s + 1) m3) = m_sessions m3) as Hsame.
    { unfold cancelSessionTasksLocked, cancel_tasks. by induction (map_to_list (m_tasks m3)). }
    unfold set_session at 1 in H3. cbn in H3. rewrite lookup_alter_eq in H3.
    change (m_sessions (cancelSessionTasksLocked ver (se_epoch s + 1) _)) with
      (m_sessions (cancelSessionTasksLocked ver (se_epoch s + 1) m3)) in H3.
    rewrite Hsame in H3. subst m3. cbn in H3. rewrite lookup_alter_eq, E3, Hs in H3.
    cbn in H3. eexists. split; [exact H3|done].
  - intros id t Ht Hk. unfold obj at 1. rewrite H1.
    change (obj (cancelSessionTasksLocked ver (se_epoch s + 1) m3) id = Some
      (if decide (version (t_key t) = ver ∧ t_epoch t ≤ se_epoch s ∧ t_priority t ≠ priorityForeground)
       then t <| t_canceled := true |> else t)).
    rewrite (cancelSession_obj ver (se_epoch s + 1) m3 id t Hwf3).
    + f_equal. apply decide_ext. unfold should_cancel. split; intros (? & ? & ?); split_and!; done || lia.
    + rewrite <- Ht. apply (view_obj m m3). exact Ev.
    + change (m_tasks m2 !! t_key t = Some id). by rewrite E2.
Qed.
Lemma seek_cancels_background_witness :
  ∃ s', m_sessions (prepareRead 1 2 4 5 seekState).1 !! versionOf seekState movieFile = Some s' ∧
    se_epoch s' = 1 ∧ activeHandle s' = 1 ∧ streamAnchor s' = 2.
Proof.
  refine (proj1 (seek_cancels_background seekState 1 2 4 5 (handle_of seekState 1)
    (session_of seekState movieFile) _ _ _ _ _)).
  - apply (NewManager_reachable_wf goodIO sampleConfig ∅ sampleManager); [exact sampleManager_new|].
    apply (run_labels_reachable seekRun). vm_compute. reflexivity.
  - split; vm_compute; reflexivity.
  - right. vm_compute. reflexivity.
  - vm_compute. reflexivity.
  - vm_compute. reflexivity.
Defined.

(** C33: The chunks scheduleBuffer asks for lie between the floor and the end of
    its window. When it (re)starts a window it asks for every chunk from the
    cursor to the end, the near ones first; when it moves the window it asks
    for every chunk past the previous end and promotes every chunk that came
    near, so read-ahead leaves no gap. *)
Theorem read_ahead_covers cfg file cursor p reset prevNear prevEnd :
  buffer_sane cfg file cursor → buffer_range cfg file cursor = Some p →
  let calls := buffer_calls cfg reset p prevNear prevEnd cursor in
  (reset = true → 0 < BackBuffer cfg →
     (∀ i, bp_start p ≤ i ≤ bp_end p →
        (i, if decide (i ≤ bp_near p) then priorityNear else priorityAhead) ∈ calls) ∧
     (∀ i q, (i, q) ∈ calls → bp_floor p ≤ i ≤ bp_end p)) ∧
  (reset = false →
     (∀ i, prevEnd < i ≤ bp_end p →
        (i, if decide (i ≤ bp_near p) then priorityNear else priorityAhead) ∈ calls) ∧
     (∀ i, bp_start p ≤ i ≤ bp_near p → prevNear < i → (i, priorityNear) ∈ calls) ∧
     (∀ i q, (i, q) ∈ calls → prevNear < i ∨ prevEnd < i) ∧
     (∀ i q, (i, q) ∈ calls → i ≤ bp_end p)) ∧
  (0 < Size file → bp_end p * ChunkSize cfg < Size file).
Proof.
  intros Hs Hp calls. destruct (buffer_range_order _ _ _ _ Hs Hp) as (O1 & O2 & O3).
  destruct (buffer_range_spec _ _ _ _ Hs Hp) as (E1 & _). destruct Hs as [H1 H2 H3 H4 H5].
  subst calls. unfold buffer_calls. split_and!; [intros -> Hb|intros ->|done].
  - split.
    + intros i Hi. rewrite !elem_of_app, !elem_of_calls. case_decide; [left|right; left]; split; done || lia.
    + intros i q. rewrite !elem_of_app. intros [Hc|[Hc|Hc]].
      * apply elem_of_calls in Hc. lia.
      * apply elem_of_calls in Hc. lia.
      * case_decide; [by apply not_elem_of_nil in Hc|]. apply elem_of_calls in Hc as [Hc _].
        assert (Z.quot (cursor - 1) (ChunkSize cfg) ≤ bp_start p); [|lia].
        rewrite E1, Z.quot_div_nonneg by lia. apply Z.div_le_mono; lia.
  - split_and!.
    + intros i Hi. rewrite elem_of_app. right.
      apply (elem_of_calls (λ i, if decide (i ≤ bp_near p) then priorityNear else priorityAhead)).
      split; [lia|done].
    + intros i Hi Hn. rewrite elem_of_app. destruct (decide (i ≤ prevEnd)); [left|right].
      * apply elem_of_calls. split; [lia|done].
      * apply (elem_of_calls (λ i, if decide (i ≤ bp_near p) then priorityNear else priorityAhead)).
        split; [lia|]. by rewrite decide_True by lia.
    + intros i q. rewrite elem_of_app. intros [Hc|Hc].
      * apply elem_of_calls in Hc. lia.
      * apply (elem_of_calls (λ i, if decide (i ≤ bp_near p) then priorityNear else priorityAhead)) in Hc. lia.
    + intros i q. rewrite elem_of_app. intros [Hc|Hc].
      * apply elem_of_calls in Hc. lia.
      * apply (elem_of_calls (λ i, if decide (i ≤ bp_near p) then priorityNear else priorityAhead)) in Hc. lia.
Qed.
Lemma read_ahead_covers_witness :
  buffer_range sampleConfig movieFile 18 = Some (mkPlan 4 24 24 0) ∧
  ∀ i, 4 ≤ i ≤ 24 → (i, if decide (i ≤ 24) then priorityNear else priorityAhead) ∈
    buffer_calls sampleConfig true (mkPlan 4 24 24 0) 0 0 18.
Proof.
  split; [vm_compute; reflexivity|].
  refine (proj1 (proj1 (read_ahead_covers sampleConfig movieFile 18 (mkPlan 4 24 24 0) true 0 0 _ _)
    eq_refl _)).
  - split; vm_compute; repeat split; discriminate.
  - vm_compute. reflexivity.
  - vm_compute. reflexivity.
Defined.

(** NewManager only runs with sane settings: positive chunk size, worker
    count, buffer sizes and delays, non-negative cache limits, and a session
    limit between 1 and the number of workers. *)
Theorem settings_normalized io cfg d m0 :
  NewManager io cfg d = Some m0 → config_ok (m_cfg m0) ∧ 0 ≤ MemoryCache cfg ∧ 0 ≤ DiskCache cfg.
Proof.
  intros Hn. destruct (NewManager_inv _ _ _ _ Hn) as (cfg' & store & Hc & -> & _). split; [done|].
  revert Hn. unfold NewManager, normalize. cbv zeta. case_decide as Hneg; [done|]. intros _.
  destruct cfg. cbn in *. lia.
Qed.
Lemma settings_normalized_witness : config_ok (m_cfg sampleManager).
Proof. refine (proj1 (settings_normalized goodIO sampleConfig ∅ sampleManager sampleManager_new)). Defined.

(** However many latencies are recorded, the window holds the last 32
    positive ones, the next slot to overwrite being that of the oldest; and
    the hedge delay stays between the configured bounds. *)
Theorem latency_window cfg history :
  Z.of_nat (length history) < 2 ^ 62 →
  let st := foldl (λ st x, recordLatencyLocked x st) ([], 0) history in
  window_of st (filter (λ x, 0 < x) history) ∧
  HedgeMinDelay cfg `min` HedgeMaxDelay cfg ≤ hedgeDelay cfg st.1
    ≤ HedgeMinDelay cfg `max` HedgeMaxDelay cfg.
Proof.
  intros Hl st. split; [|apply hedgeDelay_bounds]. subst st.
  induction history as [|x history IH] using rev_ind; [left; cbn; split; [lia|done]|].
  rewrite length_app in Hl. cbn [length] in Hl. specialize (IH ltac:(lia)).
  rewrite foldl_app, filter_app. cbn [foldl].
  pose proof (length_filter (λ y, 0 < y) history) as Hf.
  apply (record_window _ _ x) in IH; [|lia]. rewrite filter_cons, filter_nil.
  destruct (decide (x ≤ 0)); [rewrite decide_False in * by lia|rewrite decide_True in * by lia]; exact IH.
Qed.
Lemma latency_window_witness :
  window_of (foldl (λ st x, recordLatencyLocked x st) ([], 0) [5; -1; 7]) [5; 7].
Proof. refine (proj1 (latency_window DefaultConfig [5; -1; 7] _)). vm_compute. reflexivity. Defined.
