(* ===== verification/Goroutines.v ===== *)
(** * Goroutines as programs of atomic actions

    A [prog] is Go code cut at the points where other goroutines can run: a
    critical section on the shared state ([Do]), a call of an outside service
    ([Call]), a wait for a channel that is closed when a result is published
    ([Wait], which the caller's context can end early), and a group of
    goroutines joined by a [sync.WaitGroup] ([Par]).  [step] runs one action;
    what Go leaves open (which goroutine runs, times, what a service answers)
    is the [choice].

    The rules below prove three things of a program under every interleaving:
    its results satisfy a postcondition, it never waits for a result nobody
    publishes, and it takes finitely many steps. *)
From S2P Require Import Prelude.

Section prog.
(** The shared state, the open input of a critical section, the requests and
    answers of the service, a published result, and a context's error. *)
Context {St In Q P R X : Type}.

Inductive prog : Type → Type :=
| Ret {A} (a : A) : prog A
| Do {A B} (f : In → St → B * St) (k : B → prog A) : prog A
| Call {A} (q : Q) (k : P → prog A) : prog A
| Wait {A} (id : nat) (k : R + X → prog A) : prog A
| Par {A B} (n : nat) (ps : nat → prog B) (k : list B → prog A) : prog A.

Fixpoint bind {A B} (p : prog A) (g : A → prog B) : prog B :=
  match p in prog A return (A → prog B) → prog B with
  | Ret a => λ g, g a
  | Do f k => λ g, Do f (λ b, bind (k b) g)
  | Call q k => λ g, Call q (λ a, bind (k a) g)
  | Wait id k => λ g, Wait id (λ r, bind (k r) g)
  | Par n ps k => λ g, Par n ps (λ bs, bind (k bs) g)
  end g.

#[export] Instance prog_ret : MRet prog := @Ret.
#[export] Instance prog_bind : MBind prog := λ A B g p, bind p g.

Definition value {A} (p : prog A) : option A :=
  match p with Ret a => Some a | _ => None end.
Definition upd {B} (i : nat) (q : prog B) (ps : nat → prog B) (j : nat) : prog B :=
  if decide (j = i) then q else ps j.

Inductive choice :=
| CDo (e : In) | CCall (a : P) | CWake | CGiveUp (x : X) | CChild (i : nat) (c : choice) | CJoin.

(** The channels of the state: [None] while nothing is published. *)
Context (table : St → gmap nat (option R)).

Fixpoint step {A} (p : prog A) (c : choice) (s : St) : option (prog A * St) :=
  match p in prog A return option (prog A * St) with
  | Ret _ => None
  | Do f k => match c with CDo e => let '(b, s') := f e s in Some (k b, s') | _ => None end
  | Call q k => match c with CCall a => Some (k a, s) | _ => None end
  | Wait id k =>
      match c with
      | CWake => match table s !! id with Some (Some r) => Some (k (inl r), s) | _ => None end
      | CGiveUp x => Some (k (inr x), s)
      | _ => None
      end
  | Par n ps k =>
      match c with
      | CChild i c => if decide (i < n)%nat then
                        match step (ps i) c s with
                        | Some (q, s') => Some (Par n (upd i q ps) k, s')
                        | None => None
                        end
                      else None
      | CJoin => match mapM (λ i, value (ps i)) (seq 0 n) with
                 | Some bs => Some (k bs, s)
                 | None => None
                 end
      | _ => None
      end
  end.

(** The service's answers are among those it may give. *)
Context (answers : Q → P → Prop).
Fixpoint allowed {A} (p : prog A) (c : choice) : Prop :=
  match p with
  | Call q _ => match c with CCall a => answers q a | _ => True end
  | Par _ ps _ => match c with CChild i c => allowed (ps i) c | _ => True end
  | _ => True
  end.
(** No context ends. *)
Fixpoint patient (c : choice) : Prop :=
  match c with CGiveUp _ => False | CChild _ c => patient c | _ => True end.

(** ** Ownership

    A goroutine owns the channels it has to close.  [Inv g s] is the state's
    invariant, [g] what every goroutine may know of a channel for good. *)
Context {T : Type} (Inv : gmap nat T → St → Prop).

Definition is_pending (s : St) (id : nat) : Prop := table s !! id = Some None.
Record moves (s : St) (own : gset nat) (s' : St) (own' : gset nat) : Prop := {
  mv_pending : ∀ id, is_pending s' id ↔ (is_pending s id ∧ id ∉ own) ∨ id ∈ own';
  mv_fresh : ∀ id, id ∈ own' → id ∈ own ∨ ¬ is_pending s id
}.
Definition owned (s : St) (own : gset nat) : Prop := ∀ id, id ∈ own → is_pending s id.

Fixpoint ok {A} (K : gmap nat T) (own : gset nat) (p : prog A)
    (post : gmap nat T → gset nat → A → Prop) : Prop :=
  match p in prog A return (gmap nat T → gset nat → A → Prop) → Prop with
  | Ret a => λ post, ∀ K', K ⊆ K' → post K' own a
  | Do f k => λ post, ∀ e s g, Inv g s → K ⊆ g → owned s own →
      ∃ g' own', Inv g' (f e s).2 ∧ g ⊆ g' ∧ moves s own (f e s).2 own' ∧
        ok g' own' (k (f e s).1) post
  | Call q k => λ post, ∀ a, answers q a → ok K own (k a) post
  | Wait id k => λ post, own = ∅ ∧ is_Some (K !! id) ∧
      (∀ s g r, Inv g s → K ⊆ g → table s !! id = Some (Some r) → ok K ∅ (k (inl r)) post) ∧
      ∀ x, ok K ∅ (k (inr x)) post
  | Par n ps k => λ post, ∃ owns Rs,
      (∀ id, id ∈ own ↔ ∃ i, (i < n)%nat ∧ id ∈ owns i) ∧
      (∀ i j, (i < n)%nat → (j < n)%nat → i ≠ j → owns i ## owns j) ∧
      (∀ i, (i < n)%nat → ok K (owns i) (ps i) (λ _ own b, own = ∅ ∧ Rs i b)) ∧
      ∀ bs, length bs = n → (∀ i b, bs !! i = Some b → Rs i b) → ok K ∅ (k bs) post
  end post.

(** A call on its own: it ends owning nothing. *)
Definition safe {A} (K : gmap nat T) (p : prog A) (post : A → Prop) : Prop :=
  ok K ∅ p (λ _ own a, own = ∅ ∧ post a).

Lemma ok_mono {A} (p : prog A) K K' own (post post' : gmap nat T → gset nat → A → Prop) :
  K ⊆ K' → (∀ K own a, post K own a → post' K own a) → ok K own p post → ok K' own p post'.
Proof.
  revert K K' own post post'.
  induction p as [A a|A B f k IH|A q k IH|A id k IH|A B n ps IHp k IH];
    intros K K' own post post' HK Hp; cbn.
  - intros H K1 HK1. apply Hp, H. by transitivity K'.
  - intros H e s g Hi Hg Ho. destruct (H e s g Hi (transitivity HK Hg) Ho) as (g' & own' & H1 & H2 & H3 & H4).
    exists g', own'. split_and!; [done..|]. by apply (IH _ g' g' own' post post').
  - intros H a Ha. apply (IH a K K' own post post'); auto.
  - intros (-> & [t Ht] & H1 & H2). split_and!; [done| | |].
    + exists t. by eapply lookup_weaken.
    + intros s g r Hi Hg Hr. apply (IH (inl r) K K' ∅ post post'); [done|done|].
      apply (H1 s g r); [done|by transitivity K'|done].
    + intros x. apply (IH (inr x) K K' ∅ post post'); auto.
  - intros (owns & Rs & Ho & Hd & H1 & H2). exists owns, Rs. split_and!; [done|done| |].
    + intros i Hi. apply (IHp i K K' _ _ _ HK (λ _ _ _ H, H)), H1, Hi.
    + intros bs Hl Hb. apply (IH bs K K' ∅ post post'); auto.
Qed.

Lemma ok_bind {A B} (p : prog A) (g : A → prog B) K own post1 post :
  ok K own p post1 →
  (∀ K' own' a, K ⊆ K' → post1 K' own' a → ok K' own' (g a) post) →
  ok K own (bind p g) post.
Proof.
  revert K own post1 post g.
  induction p as [A a|A C f k IH|A q k IH|A id k IH|A C n ps IHp k IH];
    intros K own post1 post g; cbn.
  - intros H Hg. apply Hg; [done|]. by apply H.
  - intros H Hg e s g0 Hi HK Ho. destruct (H e s g0 Hi HK Ho) as (g' & own' & H1 & H2 & H3 & H4).
    exists g', own'. split_and!; [done..|]. eapply IH; [done|].
    intros K' own'' a HK'. apply Hg. transitivity g0; [done|]. by transitivity g'.
  - intros H Hg a Ha. eapply IH; eauto.
  - intros (-> & Hk & H1 & H2) Hg. split_and!; [done|done| |].
    + intros s g0 r Hi HK Hr. eapply (IH (inl r)); eauto.
    + intros x. eapply IH; eauto.
  - intros (owns & Rs & Ho & Hd & H1 & H2) Hg. exists owns, Rs. split_and!; [done..|].
    intros bs Hl Hb. eapply IH; eauto.
Qed.

(** ** Every step keeps a program [ok] *)
Lemma moves_refl s own : owned s own → moves s own s own.
Proof.
  intros Ho. split; [|tauto]. intros id. split.
  - intros H. destruct (decide (id ∈ own)); tauto.
  - intros [[H _]|H]; [done|by apply Ho].
Qed.

Lemma moves_owned s own s' own' : moves s own s' own' → owned s' own'.
Proof. intros Hm id Hid. apply (mv_pending _ _ _ _ Hm). by right. Qed.

(** What another goroutine owns stays pending, and stays apart. *)
Lemma moves_other s own s' own' other :
  moves s own s' own' → owned s other → other ## own → owned s' other ∧ other ## own'.
Proof.
  intros Hm Ho Hd. split.
  - intros id Hid. apply (mv_pending _ _ _ _ Hm). left. split; [by apply Ho|]. set_solver.
  - intros id Hid Hid'. destruct (mv_fresh _ _ _ _ Hm id Hid') as [|Hn]; [set_solver|].
    by apply Hn, Ho.
Qed.

Lemma step_ok {A} (p : prog A) K own post c s g p' s' :
  ok K own p post → Inv g s → K ⊆ g → owned s own →
  allowed p c → step p c s = Some (p', s') →
  ∃ g' own', Inv g' s' ∧ g ⊆ g' ∧ moves s own s' own' ∧ ok g' own' p' post.
Proof.
  revert K own post c s g p' s'.
  induction p as [A a|A B f k IH|A q k IH|A id k IH|A B n ps IHp k IH];
    intros K own post c s g p' s' Hok Hi HK Ho Ha Hs; cbn in *; [done| | | |].
  - destruct c; try done. destruct (Hok e s g Hi HK Ho) as (g' & own' & H1 & H2 & H3 & H4).
    destruct (f e s) as [b s1]. injection Hs as <- <-. by exists g', own'.
  - destruct c; try done. injection Hs as <- <-. exists g, own.
    split_and!; [done|done|by apply moves_refl|].
    apply (ok_mono _ K g own post post HK); auto.
  - destruct Hok as (-> & Hk & H1 & H2). destruct c; try done.
    + destruct (table s !! id) as [[r|]|] eqn:Hr; try done. injection Hs as <- <-.
      exists g, ∅. split_and!; [done|done|by apply moves_refl|].
      apply (ok_mono _ K g ∅ post post HK); [done|]. by apply (H1 s g).
    + injection Hs as <- <-. exists g, ∅. split_and!; [done|done|by apply moves_refl|].
      apply (ok_mono _ K g ∅ post post HK); [done|]. apply H2.
  - destruct Hok as (owns & Rs & Hown & Hd & H1 & H2). destruct c; try done.
    + case_decide as Hlt; [|done]. destruct (step (ps i) c s) as [[q s1]|] eqn:Hq; [|done].
      injection Hs as <- <-.
      assert (∀ j, (j < n)%nat → owned s (owns j)) as Hoj.
      { intros j Hj id Hid. apply Ho, Hown. eauto. }
      destruct (IHp i K (owns i) _ c s g q s1 (H1 i Hlt) Hi HK (Hoj i Hlt) Ha Hq)
        as (g' & own' & I1 & I2 & I3 & I4).
      exists g', ((own ∖ owns i) ∪ own'). split_and!; [done|done| |].
      { split.
        - intros id. rewrite (mv_pending _ _ _ _ I3), elem_of_union, elem_of_difference.
          assert (id ∈ own → is_pending s id) as Hp by apply Ho.
          assert (id ∈ owns i → id ∈ own) as Hi' by (intros ?; apply Hown; eauto).
          destruct (decide (id ∈ own)), (decide (id ∈ owns i)); tauto.
        - intros id [[Hid _]%elem_of_difference|Hid]%elem_of_union; [by left|].
          destruct (mv_fresh _ _ _ _ I3 id Hid); [left; apply Hown; eauto|by right]. }
      exists (λ j, if decide (j = i) then own' else owns j), Rs. split_and!.
      * intros id. rewrite elem_of_union, elem_of_difference, Hown. split.
        -- intros [[(j & Hj & Hid) Hn]|Hid]; [|exists i; by rewrite decide_True].
           exists j. rewrite decide_False by congruence. done.
        -- intros (j & Hj & Hid). case_decide; [by right|]. left. split; [eauto|].
           pose proof (Hd j i Hj Hlt). set_solver.
      * intros j1 j2 Hj1 Hj2 Hne.
        assert (∀ j, (j < n)%nat → j ≠ i → owns j ## own') as Hapart.
        { intros j Hj Hji. apply (moves_other s (owns i) s1 own' (owns j) I3); [by apply Hoj|].
          by apply Hd. }
        repeat case_decide; subst; [done|symmetry; by apply Hapart|by apply Hapart|by apply Hd].
      * intros j Hj. unfold upd. case_decide; [by subst|].
        apply (ok_mono _ K g' _ _ _ (transitivity HK I2) (λ _ _ _ H, H)), H1, Hj.
      * intros bs Hl Hb. apply (ok_mono _ K g' ∅ post post (transitivity HK I2)); auto.
    + destruct (mapM (λ i, value (ps i)) (seq 0 n)) as [bs|] eqn:Hbs; [|done].
      injection Hs as <- <-. apply mapM_Some in Hbs.
      assert (∀ i, (i < n)%nat → ∃ b, bs !! i = Some b ∧ value (ps i) = Some b) as Hv.
      { intros i Hlt. destruct (Forall2_lookup_l _ _ _ i i Hbs) as (b & Hb & Hb').
        { by apply lookup_seq_lt. } eauto. }
      assert (∀ i b, (i < n)%nat → value (ps i) = Some b → owns i = ∅ ∧ Rs i b) as Hr.
      { intros i b Hlt Hval. pose proof (H1 i Hlt) as Hok. destruct (ps i); try done.
        cbn in Hok, Hval. injection Hval as ->. by apply (Hok K). }
      exists g, ∅. split_and!; [done|done| |].
      * assert (own = ∅) as ->; [|by apply moves_refl].
        apply set_eq. intros id. split; [|set_solver]. rewrite Hown.
        intros (i & Hlt & Hid). destruct (Hv i Hlt) as (b & _ & Hval).
        destruct (Hr i b Hlt Hval) as [Hemp _]. by rewrite Hemp in Hid.
      * apply (ok_mono _ K g ∅ post post HK); [done|]. apply H2.
        -- apply Forall2_length in Hbs. by rewrite length_seq in Hbs.
        -- intros i b Hb. assert (i < n)%nat as Hlt.
           { apply lookup_lt_Some in Hb. apply Forall2_length in Hbs. rewrite length_seq in Hbs. lia. }
           destruct (Hv i Hlt) as (b' & Hb' & Hval). assert (b' = b) as -> by congruence.
           by apply Hr.
Qed.

(** Any number of steps, the service answering as it may. *)
Inductive runs {A} : prog A → St → prog A → St → Prop :=
| runs_here p s : runs p s p s
| runs_step p s c p1 s1 p' s' :
    allowed p c → step p c s = Some (p1, s1) → runs p1 s1 p' s' → runs p s p' s'.

Lemma runs_ok {A} (p p' : prog A) K own post s s' g :
  runs p s p' s' → ok K own p post → Inv g s → K ⊆ g → owned s own →
  ∃ g' own', Inv g' s' ∧ g ⊆ g' ∧ owned s' own' ∧
    (∀ id, is_pending s' id → id ∈ own' ∨ (is_pending s id ∧ id ∉ own)) ∧ ok g' own' p' post.
Proof.
  intros Hr. revert K own g. induction Hr as [p s|p s c p1 s1 p' s' Ha Hs Hr IH];
    intros K own g Hok Hi HK Ho.
  - exists g, own. split_and!; [done|done|done| |by apply (ok_mono _ K g own post post HK)].
    intros id Hid. destruct (decide (id ∈ own)); tauto.
  - destruct (step_ok p K own post c s g p1 s1 Hok Hi HK Ho Ha Hs) as (g1 & own1 & I1 & I2 & I3 & I4).
    destruct (IH g1 own1 g1 I4 I1 ltac:(done) (moves_owned _ _ _ _ I3)) as (g' & own' & J1 & J2 & J3 & J4 & J5).
    exists g', own'. split_and!; [done|by transitivity g1|done| |done].
    intros id Hid. destruct (J4 id Hid) as [|[Hp Hn]]; [by left|].
    apply (mv_pending _ _ _ _ I3) in Hp as [|]; [by right|done].
Qed.

Lemma runs_trans {A} (p1 p2 p3 : prog A) s1 s2 s3 :
  runs p1 s1 p2 s2 → runs p2 s2 p3 s3 → runs p1 s1 p3 s3.
Proof. induction 1; [done|]. intros. eapply runs_step; eauto. Qed.
Lemma runs_one {A} (p : prog A) s c p' s' :
  allowed p c → step p c s = Some (p', s') → runs p s p' s'.
Proof. intros. eapply runs_step; [done..|constructor]. Qed.

Lemma value_Ret {A} (p : prog A) a : value p = Some a → p = Ret a.
Proof. destruct p; cbn; try done. by intros [= ->]. Qed.

(** A given sequence of choices, and that the service may answer so. *)
Fixpoint play {A} (cs : list choice) (p : prog A) (s : St) : option (prog A * St) :=
  match cs with
  | [] => Some (p, s)
  | c :: cs => match step p c s with Some (p, s) => play cs p s | None => None end
  end.
Fixpoint all_allowed {A} (cs : list choice) (p : prog A) (s : St) : Prop :=
  match cs with
  | [] => True
  | c :: cs => allowed p c ∧ match step p c s with Some (p, s) => all_allowed cs p s | None => True end
  end.
Lemma play_runs {A} cs (p p' : prog A) s s' :
  play cs p s = Some (p', s') → all_allowed cs p s → runs p s p' s'.
Proof.
  revert p s. induction cs as [|c cs IH]; intros p s; cbn; [intros [= -> ->]; constructor|].
  destruct (step p c s) as [[p1 s1]|] eqn:Hs; [|done]. intros Hp [Ha Hr].
  eapply runs_step; [done|exact Hs|]. by apply IH.
Qed.

(** The result of a finished program. *)
Lemma value_ok {A} (p : prog A) K own post a :
  ok K own p post → value p = Some a → post K own a.
Proof.
  destruct p; cbn; try done. intros H [= ->]. by apply H.
Qed.

(** ** No program waits for ever *)
Lemma mapM_all {B} (ps : nat → prog B) n :
  (∀ i, (i < n)%nat → is_Some (value (ps i))) →
  is_Some (mapM (λ i, value (ps i)) (seq 0 n)).
Proof.
  intros H. apply mapM_is_Some, Forall_forall. intros i Hi. apply H. apply elem_of_seq in Hi. lia.
Qed.

Lemma find_unfinished {B} (ps : nat → prog B) n :
  (∀ i, (i < n)%nat → is_Some (value (ps i))) ∨ ∃ i, (i < n)%nat ∧ value (ps i) = None.
Proof.
  induction n as [|n [IH|(i & Hi & Hv)]]; [left; lia| |right; exists i; split; [lia|done]].
  destruct (value (ps n)) eqn:Hn; [left|right; exists n; split; [lia|done]].
  intros i Hi. destruct (decide (i = n)) as [->|]; [by eexists|]. apply IH. lia.
Qed.

(** A program that is not finished can take a step with no context ending,
    unless it owns nothing and waits for a channel that is still open. *)
Lemma progress {A} (p : prog A) K own post s g :
  inhabited In → (∀ q, ∃ a, answers q a) → (∀ g s id, Inv g s → is_Some (g !! id) → is_Some (table s !! id)) →
  ok K own p post → Inv g s → K ⊆ g → value p = None →
  (∃ c p' s', patient c ∧ allowed p c ∧ step p c s = Some (p', s')) ∨
  (own = ∅ ∧ ∃ id, is_pending s id).
Proof.
  intros [e0] Hans Hdom. revert K own post.
  induction p as [A a|A B f k IH|A q k IH|A id k IH|A B n ps IHp k IH];
    intros K own post Hok Hi HK Hv; cbn in *; [done| | | |].
  - left. exists (CDo e0). cbn. destruct (f e0 s) as [b s']. eauto.
  - left. destruct (Hans q) as [a Ha]. exists (CCall a). cbn. eauto.
  - destruct Hok as (-> & [t Ht] & _). destruct (Hdom g s id Hi) as [o Ho].
    { exists t. by eapply lookup_weaken. }
    destruct o as [r|]; [left|right; split; [done|by exists id]].
    exists CWake. cbn. rewrite Ho. eauto.
  - destruct Hok as (owns & Rs & Hown & Hd & H1 & H2).
    destruct (find_unfinished ps n) as [Hall|(i & Hi' & Hn)].
    { left. destruct (mapM_all ps n Hall) as [bs Hbs]. exists CJoin. cbn. rewrite Hbs. eauto. }
    assert ((∃ i, (i < n)%nat ∧ ∃ c q s', patient c ∧ allowed (ps i) c ∧ step (ps i) c s = Some (q, s')) ∨
            (∀ i, (i < n)%nat → owns i = ∅) ∧ ∃ id, is_pending s id) as [Hstep|[Hemp Hp]].
    { pose proof (IHp i K (owns i) _ (H1 i Hi') Hi HK Hn) as [|[_ Hpend]]; [left; eauto|].
      assert (∀ n', (n' ≤ n)%nat →
        (∃ i, (i < n)%nat ∧ ∃ c q s', patient c ∧ allowed (ps i) c ∧ step (ps i) c s = Some (q, s')) ∨
        ∀ i, (i < n')%nat → owns i = ∅) as Hscan.
      { induction n' as [|n' IHn]; intros Hn'; [right; lia|].
        destruct IHn as [|Hemp]; [lia|by left|].
        destruct (value (ps n')) as [b|] eqn:Hb.
        - right. intros j Hj. destruct (decide (j = n')) as [->|]; [|apply Hemp; lia].
          by destruct (value_ok _ _ _ _ _ (H1 n' ltac:(lia)) Hb).
        - destruct (IHp n' K (owns n') _ (H1 n' ltac:(lia)) Hi HK Hb) as [|[He _]];
            [left; exists n'; split; [lia|done]|].
          right. intros j Hj. destruct (decide (j = n')) as [->|]; [done|]. apply Hemp. lia. }
      destruct (Hscan n) as [|He]; [done|by left|right; done]. }
    + left. destruct Hstep as (j & Hj & c & q & s' & Hc & Ha & Hs).
      exists (CChild j c). cbn. rewrite decide_True by done. rewrite Hs. eauto.
    + right. split; [|done]. apply set_eq. intros id. split; [|set_solver]. rewrite Hown.
      intros (j & Hj & Hid). by rewrite (Hemp j Hj) in Hid.
Qed.

(** ** Every program takes finitely many steps *)
Definition steps_to {A} (p' p : prog A) : Prop := ∃ c s s', step p c s = Some (p', s').

Definition one_steps {B} (n : nat) (ps' ps : nat → prog B) : Prop :=
  ∃ i q, (i < n)%nat ∧ steps_to q (ps i) ∧ ps' = upd i q ps.

Lemma one_steps_acc {B} n (ps : nat → prog B) :
  (∀ i, (i < n)%nat → Acc steps_to (ps i)) → Acc (one_steps n) ps.
Proof.
  revert ps. induction n as [|n IHn]; intros ps Hps.
  { constructor. intros ps' (i & q & Hi & _). lia. }
  pose proof (Hps n ltac:(lia)) as Hn. remember (ps n) as x eqn:Hx.
  revert ps Hx Hps. induction Hn as [x _ IHx]; intros ps -> Hps.
  assert (Acc (one_steps n) ps) as Hacc by (apply IHn; intros; apply Hps; lia).
  induction Hacc as [ps _ IHps]. constructor. intros ps' (i & q & Hi & Hq & ->).
  assert (∀ j, (j < S n)%nat → Acc steps_to (upd i q ps j)) as Hps'.
  { intros j Hj. unfold upd. case_decide; [subst|by apply Hps]. by apply (Acc_inv (Hps i Hi)). }
  destruct (decide (i = n)) as [->|Hne].
  - apply (IHx q Hq); [|done]. unfold upd. by rewrite decide_True.
  - assert (upd i q ps n = ps n) as Hsame by (unfold upd; by rewrite decide_False by done).
    apply IHps; [|rewrite Hsame; exact IHx|done].
    exists i, q. split_and!; [lia|done|done].
Qed.

Lemma steps_acc {A} (p : prog A) : Acc steps_to p.
Proof.
  induction p as [A a|A B f k IH|A q k IH|A id k IH|A B n ps IHp k IH]; constructor;
    intros p' (c & s & s' & Hs); cbn in Hs; [discriminate| | | |].
  - destruct c; try discriminate. destruct (f e s). injection Hs as <- _. apply IH.
  - destruct c; try discriminate. injection Hs as <- _. apply IH.
  - destruct c; try discriminate; [|injection Hs as <- _; apply IH].
    destruct (table s !! id) as [[r|]|]; try discriminate. injection Hs as <- _. apply IH.
  - assert (∀ qs, Acc (one_steps n) qs → Acc steps_to (Par n qs k)) as Hpar.
    { induction 1 as [qs _ IHqs]. constructor. intros q' (c' & s1 & s1' & Hq). cbn in Hq.
      destruct c'; try discriminate.
      - case_decide; [|discriminate]. destruct (step (qs i) c' s1) as [[q s2]|] eqn:Hq1; [|discriminate].
        injection Hq as <- _. apply IHqs. exists i, q. split_and!; [done|by exists c', s1, s2|done].
      - destruct (mapM (λ i, value (qs i)) (seq 0 n)) as [bs|]; [|discriminate]. injection Hq as <- _. apply IH. }
    refine (Acc_inv (Hpar ps (one_steps_acc n ps (λ i _, IHp i))) _). exists c, s, s'. exact Hs.
Qed.

(** ** Calls that run together

    [n] goroutines on a state where no channel is open: whatever order they
    run in, they stop only when all have finished, with results that satisfy
    their postconditions; and they do stop. *)
Definition together {B} (n : nat) (ps : nat → prog B) : prog (list B) := Par n ps Ret.

Section together.
Context {B : Type} (n : nat) (ps : nat → prog B) (Rs : nat → B → Prop).
Context (s : St) (g : gmap nat T).
Context (Hsafe : ∀ i, (i < n)%nat → safe g (ps i) (Rs i)) (Hinv : Inv g s)
  (Hidle : ∀ id, ¬ is_pending s id).

Definition all_right (bs : list B) : Prop := length bs = n ∧ ∀ i b, bs !! i = Some b → Rs i b.

Lemma together_ok : ok g ∅ (together n ps) (λ _ own bs, own = ∅ ∧ all_right bs).
Proof.
  exists (λ _, ∅), Rs. split_and!.
  - intros id. split; [set_solver|]. intros (i & _ & Hid). by apply not_elem_of_empty in Hid.
  - set_solver.
  - intros i Hi. by apply Hsafe.
  - intros bs Hl Hb K' _. done.
Qed.

Lemma together_runs p' s' :
  runs (together n ps) s p' s' →
  ∃ g' own', Inv g' s' ∧ g ⊆ g' ∧ (∀ id, is_pending s' id → id ∈ own') ∧
    ok g' own' p' (λ _ own bs, own = ∅ ∧ all_right bs).
Proof.
  intros Hr. destruct (runs_ok _ _ g ∅ _ _ _ g Hr together_ok Hinv) as (g' & own' & I1 & I2 & I3 & I4 & I5);
    [done|set_solver|].
  exists g', own'. split_and!; [done|done| |done]. intros id Hid.
  destruct (I4 id Hid) as [|[Hp _]]; [done|]. by destruct (Hidle id).
Qed.

Lemma together_right p' s' bs :
  runs (together n ps) s p' s' → value p' = Some bs → all_right bs ∧ ∃ g', Inv g' s'.
Proof.
  intros Hr Hv. destruct (together_runs _ _ Hr) as (g' & own' & I1 & _ & _ & I4).
  split; [|by exists g']. exact (proj2 (value_ok _ _ _ _ _ I4 Hv)).
Qed.

Context (He : inhabited In) (Hans : ∀ q, ∃ a, answers q a)
  (Hdom : ∀ g s id, Inv g s → is_Some (g !! id) → is_Some (table s !! id)).

Lemma together_progress p' s' :
  runs (together n ps) s p' s' →
  is_Some (value p') ∨ ∃ c p'' s'', patient c ∧ allowed p' c ∧ step p' c s' = Some (p'', s'').
Proof.
  intros Hr. destruct (together_runs _ _ Hr) as (g' & own' & I1 & _ & I3 & I4).
  destruct (value p') as [bs|] eqn:Hv; [by left; eexists|right].
  destruct (progress p' g' own' _ s' g' He Hans Hdom I4 I1) as [|[-> [id Hid]]]; [done|done|done|].
  destruct (not_elem_of_empty (C:=gset nat) id). by apply I3.
Qed.

Lemma together_finishes p' s' :
  runs (together n ps) s p' s' → ∃ bs s'', runs p' s' (Ret bs) s'' ∧ all_right bs.
Proof.
  intros Hr. revert s' Hr. induction (steps_acc p') as [p _ IH]. intros s' Hr.
  destruct (together_progress _ _ Hr) as [[bs Hv]|(c & p1 & s1 & _ & Ha & Hs)].
  - exists bs, s'. split; [|by apply (together_right _ _ _ Hr Hv)].
    assert (p = Ret bs) as -> by (by apply value_Ret). constructor.
  - destruct (IH p1) with (s' := s1) as (bs & s2 & Hr' & Hb).
    + by exists c, s', s1.
    + apply (runs_trans _ p _ _ s' _ Hr). by apply (runs_one p s' c).
    + exists bs, s2. split; [|done]. by eapply runs_step.
Qed.
End together.
End prog.
