(* ===== verification/GoErrors.v ===== *)
(** * Errors as Go code examines them

    [errors.Is] against the sentinels the program names, and the text of
    [err.Error()], which [ClassifyDownloadError] searches. *)
From Stdlib Require Import Strings.Ascii.
From S2P Require Import Prelude GoStrings.

Inductive sentinel := EOF | UnexpectedEOF | CtxCanceled | CtxDeadline | NoProgress.
#[export] Instance sentinel_eq_dec : EqDecision sentinel.
Proof. solve_decision. Defined.

(** An error: the sentinel its chain of [%w] ends in, and its text. *)
Record goError := mkError { err_is : option sentinel; err_text : string }.
#[export] Instance goError_eq_dec : EqDecision goError.
Proof. solve_decision. Defined.

Definition errors_Is (e : goError) (t : sentinel) : bool := bool_decide (err_is e = Some t).
Definition sentinel_text (t : sentinel) : string :=
  match t with
  | EOF => "EOF" | UnexpectedEOF => "unexpected EOF"
  | CtxCanceled => "context canceled" | CtxDeadline => "context deadline exceeded"
  | NoProgress => "multiple Read calls return no data or error"
  end.
(** [errors.New(text)], a sentinel itself, and [fmt.Errorf("...: %w", t)]. *)
Definition errors_New (text : string) : goError := mkError None text.
Definition sentinel_err (t : sentinel) : goError := mkError (Some t) (sentinel_text t).
Definition wrap (text : string) (e : goError) : goError :=
  mkError (err_is e) (text +:+ ": " +:+ err_text e).

(** [strings.ToLower] on ASCII letters; the other bytes of the messages are
    not looked for. *)
Definition lower (c : ascii) : ascii :=
  let n := N_of_ascii c in
  if decide (65 ≤ n ∧ n ≤ 90)%N then ascii_of_N (n + 32) else c.
Fixpoint to_lower (s : string) : string :=
  match s with EmptyString => EmptyString | String c s => String (lower c) (to_lower s) end.

(** [strings.TrimSpace]: the spaces are those of [unicode.IsSpace], in UTF-8
    one byte, two (U+0085, U+00A0) or three (U+1680, U+2000 to U+200A, U+2028,
    U+2029, U+202F, U+205F, U+3000).  No byte is both the first of one and a
    later one of another, so a suffix is trimmed when it reads as spaces. *)
Definition is_space (c : ascii) : bool :=
  let n := N_of_ascii c in bool_decide (n = 32 ∨ 9 ≤ n ∧ n ≤ 13)%N.
Definition is_space2 (a b : ascii) : bool :=
  bool_decide (N_of_ascii a = 194 ∧ (N_of_ascii b = 133 ∨ N_of_ascii b = 160))%N.
Definition is_space3 (a b c : ascii) : bool :=
  let '(a, b, c) := (N_of_ascii a, N_of_ascii b, N_of_ascii c) in
  bool_decide (a = 225 ∧ b = 154 ∧ c = 128 ∨
               a = 226 ∧ b = 128 ∧ (128 ≤ c ∧ c ≤ 138 ∨ c = 168 ∨ c = 169 ∨ c = 175) ∨
               a = 226 ∧ b = 129 ∧ c = 159 ∨
               a = 227 ∧ b = 128 ∧ c = 128)%N.
Fixpoint trim_left (s : string) : string :=
  match s with
  | EmptyString => EmptyString
  | String a r =>
      if is_space a then trim_left r
      else match r with
           | String b r2 =>
               if is_space2 a b then trim_left r2
               else match r2 with
                    | String c r3 => if is_space3 a b c then trim_left r3 else s
                    | EmptyString => s
                    end
           | EmptyString => s
           end
  end.
Fixpoint trim_right (s : string) : string :=
  match s with
  | EmptyString => EmptyString
  | String c r => if decide (trim_left s = EmptyString) then EmptyString else String c (trim_right r)
  end.
Definition trim_space (s : string) : string := trim_right (trim_left s).
(** An ASCII character that is no space. *)
Definition plain_char (c : ascii) : bool := negb (is_space c) && bool_decide (N_of_ascii c < 128)%N.
Lemma trim_left_plain c s : plain_char c = true → trim_left (String c s) = String c s.
Proof.
  unfold plain_char. rewrite andb_true_iff, negb_true_iff, bool_decide_eq_true. intros [Hc Hn]. cbn [trim_left]. rewrite Hc.
  destruct s as [|b [|d s]]; [done|..].
  - unfold is_space2. by rewrite bool_decide_false by lia.
  - unfold is_space2, is_space3. by rewrite !bool_decide_false by lia.
Qed.
Lemma trim_space_none s : (∀ c, str_mem c s → plain_char c = true) → trim_space s = s.
Proof.
  intros Hs. unfold trim_space.
  assert (trim_left s = s) as -> by (destruct s as [|c s]; [done|]; apply trim_left_plain, Hs; by left).
  induction s as [|c s IH]; [done|]. cbn [trim_right]. rewrite trim_left_plain by (apply Hs; by left).
  rewrite decide_False by done. f_equal. apply IH. intros d Hd. apply Hs. by right.
Qed.

(** The verb [%q] on a string of printable ASCII characters, which is what
    header values hold. *)
Definition dquote : ascii := ascii_of_N 34.
Fixpoint quote_body (s : string) : string :=
  match s with
  | EmptyString => String dquote EmptyString
  | String c r =>
      if decide (c = dquote ∨ c = "\"%char) then String "\" (String c (quote_body r))
      else String c (quote_body r)
  end.
Definition quote (s : string) : string := String dquote (quote_body s).

(** [type DownloadErrorKind] of [src/internal/remote/remote.go] *)
Inductive DownloadErrorKind :=
| DownloadErrorOther | DownloadErrorTransport | DownloadErrorAuth | DownloadErrorRange | DownloadErrorEOF.
#[export] Instance DownloadErrorKind_eq_dec : EqDecision DownloadErrorKind.
Proof. solve_decision. Defined.

Definition ClassifyDownloadError (err : option goError) : DownloadErrorKind :=
  match err with
  | None => DownloadErrorOther
  | Some err =>
      if errors_Is err EOF || errors_Is err UnexpectedEOF then DownloadErrorEOF
      else
        let message := to_lower (err_text err) in
        if contains message "status=401" || contains message "status=403"
           || contains message "unauthorized" || contains message "forbidden" then DownloadErrorAuth
        else if contains message "status=416" || contains message "content range"
        then DownloadErrorRange
        else if errors_Is err CtxDeadline || errors_Is err CtxCanceled
                || contains message "timeout" || contains message "connection reset"
        then DownloadErrorTransport
        else DownloadErrorOther
  end.
