(* ===== verification/GoMonads.v ===== *)
(** * Sequential effects: state, and state with errors

    [stateM S A] is a function of the code that reads and writes a state [S];
    [errorM S A] is one that returns [(A, error)], where [err != nil] returns
    early and keeps what was written. *)
From S2P Require Import Prelude GoErrors.

Definition stateM (S A : Type) : Type := S → A * S.
#[export] Instance stateM_ret {S} : MRet (stateM S) := λ A a s, (a, s).
#[export] Instance stateM_bind {S} : MBind (stateM S) := λ A B f m s, let '(a, s) := m s in f a s.
Definition gets {S A} (f : S → A) : stateM S A := λ s, (f s, s).
Definition modify {S} (f : S → S) : stateM S unit := λ s, (tt, f s).

Definition errorM (S A : Type) : Type := S → result goError A * S.
#[export] Instance errorM_ret {S} : MRet (errorM S) := λ A a s, (Ok a, s).
#[export] Instance errorM_bind {S} : MBind (errorM S) := λ A B f m s,
  match m s with (Ok a, s) => f a s | (Err e, s) => (Err e, s) end.
Definition fail {S A} (e : goError) : errorM S A := λ s, (Err e, s).
Definition asks {S A} (f : S → A) : errorM S A := λ s, (Ok (f s), s).

(** [for _, a := range l { if err := f(a); err != nil { return err } }] *)
Fixpoint each {S A} (f : A → errorM S unit) (l : list A) : errorM S unit :=
  match l with
  | [] => mret tt
  | a :: l => _ ← f a; each f l
  end.

Lemma errorM_bind_Ok {S A B} (m : errorM S A) (f : A → errorM S B) s b s' :
  (m ≫= f) s = (Ok b, s') → ∃ a s1, m s = (Ok a, s1) ∧ f a s1 = (Ok b, s').
Proof. unfold mbind, errorM_bind. destruct (m s) as [[a|e] s1]; [eauto|done]. Qed.
Lemma errorM_bind_run {S A B} (m : errorM S A) (f : A → errorM S B) s a s1 :
  m s = (Ok a, s1) → (m ≫= f) s = f a s1.
Proof. unfold mbind, errorM_bind. by intros ->. Qed.
