(* ===== verification/ReadCache.v ===== *)
(** * The read cache of the remote reader ([src/internal/remote/remote.go])

    The [Reader]'s fields and its critical sections: the cache of downloaded
    windows (a map, an index by fsid, the order of use and the byte count), the
    cache of download links, and the reads in flight. *)
From S2P Require Import Prelude GoStrings GoErrors.

(** [type cacheKey], [cachedRead], [cachedLink], [inflightRead].  A read in
    flight is [None] until [close(done)]. *)
Record cacheKey := mkCacheKey { ck_fsid : string; ck_offset : Z }.
#[export] Instance cacheKey_eq_dec : EqDecision cacheKey.
Proof. solve_decision. Defined.
#[export] Instance cacheKey_countable : Countable cacheKey.
Proof.
  refine (inj_countable' (λ k, (ck_fsid k, ck_offset k)) (λ p, mkCacheKey p.1 p.2) _). by intros [].
Defined.
Record cachedRead := mkCached { cr_fsid : string; cr_offset : Z; cr_data : bytes }.
(** [baidu.DownloadLink]: 0 is the zero time. *)
Record DownloadLink := mkLink { lk_URL : string; lk_ExpiresAt : Z }.
Record cachedLink := mkCachedLink { cl_link : DownloadLink; cl_expiresAt : Z }.
Definition outcome : Type := bytes * option goError.

(** [type Reader].  [r_client] names the client; [r_objs] are the
    [inflightRead] objects, [r_inflight] the map to them. *)
Record Reader := mkReader {
  r_client : option nat;
  links : gmap string cachedLink;
  cached : gmap cacheKey cachedRead;
  cacheByFSID : gmap string (gset cacheKey);
  cacheOrder : list cacheKey;
  cacheBytes : Z; cacheLimit : Z;
  inflight : gmap cacheKey nat;
  concurrency : Z; chunkSize : Z;
  r_objs : gmap nat (option outcome); r_next : nat
}.
#[export] Instance Reader_eta : Eta Reader := λ r,
  mkReader (r_client r) (links r) (cached r) (cacheByFSID r) (cacheOrder r) (cacheBytes r)
    (cacheLimit r) (inflight r) (concurrency r) (chunkSize r) (r_objs r) (r_next r).

Definition prefetchBytes : Z := 8 * 2 ^ 20.

Definition NewReader (client : option nat) : Reader :=
  {| r_client := client; links := ∅; cached := ∅; cacheByFSID := ∅; cacheOrder := [];
     cacheBytes := 0; cacheLimit := 64 * 2 ^ 20; inflight := ∅; concurrency := 1;
     chunkSize := 8 * 2 ^ 20; r_objs := ∅; r_next := 0 |}.

Section operations.
Implicit Types (r : Reader) (fsid : string) (offset length : Z) (key : cacheKey) (now : Z).

(** ** Cached windows *)
Definition size_of (c : cachedRead) : Z := zlen (cr_data c).
Definition bucket_of fsid r : gset cacheKey := default ∅ (cacheByFSID r !! fsid).

(** The window holds [offset, offset+length). *)
Definition serves (c : cachedRead) offset length : bool :=
  negb (bool_decide (cr_data c = []) || bool_decide (offset < cr_offset c)) &&
  bool_decide (offset +! length ≤ cr_offset c +! size_of c).

(** [copy(order[index:], order[index+1:]); order[len-1] = key] at the first
    index that holds [key] and is not the last. *)
Fixpoint promote key (order : list cacheKey) : list cacheKey :=
  match order with
  | [] => []
  | k :: rest => if decide (k = key ∧ rest ≠ []) then rest ++ [key] else k :: promote key rest
  end.

(** The loop over the keys of the bucket, in the order the map yields them. *)
Fixpoint read_bucket (keys : list cacheKey) offset length r : option (bytes * Reader) :=
  match keys with
  | [] => None
  | key :: keys =>
      match cached r !! key with
      | Some c =>
          if serves c offset length
          then Some (slice (cr_data c) (offset -! cr_offset c) length, r <| cacheOrder ::= promote key |>)
          else read_bucket keys offset length r
      | None => read_bucket keys offset length r
      end
  end.
(** An iteration order of a bucket, starting with the keys of [first]. *)
Definition iteration (first : list cacheKey) (bucket : gset cacheKey) : list cacheKey :=
  filter (λ k, k ∈ bucket) first ++ filter (λ k, k ∉ first) (elements bucket).
Definition readCachedLocked (first : list cacheKey) fsid offset length r : option bytes * Reader :=
  match read_bucket (iteration first (bucket_of fsid r)) offset length r with
  | Some (data, r) => (Some data, r)
  | None => (None, r)
  end.
Definition ReadCachedWindow (first : list cacheKey) fsid offset length r : option bytes * Reader :=
  if decide (length ≤ 0) then (None, r) else readCachedLocked first fsid offset length r.

Definition removeCachedKeyLocked key r : Reader :=
  match cached r !! key with
  | None => r
  | Some c =>
      let r := r <| cacheBytes ::= λ n, n - size_of c |> <| cached ::= delete key |> in
      match cacheByFSID r !! ck_fsid key with
      | None => r
      | Some bucket =>
          let bucket := bucket ∖ {[key]} in
          r <| cacheByFSID ::= if decide (bucket = ∅) then delete (ck_fsid key)
                               else <[ck_fsid key := bucket]> |>
      end
  end.

(** Drops the first occurrence. *)
Fixpoint remove_first key (order : list cacheKey) : list cacheKey :=
  match order with
  | [] => []
  | k :: rest => if decide (k = key) then rest else k :: remove_first key rest
  end.

(** The loop [for r.cacheBytes > r.cacheLimit && len(r.cacheOrder) > 0]; one
    turn consumes one key. *)
Fixpoint evict_reads (order : list cacheKey) r : Reader :=
  match order with
  | [] => r <| cacheOrder := [] |>
  | oldest :: rest =>
      if decide (cacheLimit r < cacheBytes r)
      then evict_reads rest (removeCachedKeyLocked oldest (r <| cacheOrder := rest |>))
      else r <| cacheOrder := order |>
  end.

Definition storeCachedLocked fsid offset (data : bytes) r : Reader :=
  if decide (zlen data = 0 ∨ cacheLimit r < zlen data) then r
  else
    let key := mkCacheKey fsid offset in
    let r := match cached r !! key with
             | Some _ => (removeCachedKeyLocked key r) <| cacheOrder ::= remove_first key |>
             | None => r
             end in
    let r := r <| cached ::= <[key := mkCached fsid offset data]> |>
               <| cacheByFSID ::= <[fsid := {[key]} ∪ bucket_of fsid r]> |>
               <| cacheOrder ::= λ o, o ++ [key] |> <| cacheBytes ::= λ n, n + zlen data |> in
    evict_reads (cacheOrder r) r.

Definition clearCachedReadsLocked r : Reader :=
  r <| cached := ∅ |> <| cacheByFSID := ∅ |> <| cacheOrder := [] |> <| cacheBytes := 0 |>.
Definition clearReadCacheLocked r : Reader := (clearCachedReadsLocked r) <| inflight := ∅ |>.
Definition ClearReadCache r : Z * Reader := (cacheBytes r, clearCachedReadsLocked r).

(** ** Settings *)
Definition SetDownloadOptions (c cs : Z) r : Reader :=
  let c := if decide (c ≤ 0) then 1 else c in
  let cs := if decide (cs ≤ 0) then 8 * 2 ^ 20 else cs in
  clearReadCacheLocked (r <| concurrency := c |> <| chunkSize := cs |>).
Definition ChunkSize_of r : Z := if decide (chunkSize r ≤ 0) then 8 * 2 ^ 20 else chunkSize r.
Definition SetClient (client : option nat) r : Reader :=
  clearReadCacheLocked (r <| r_client := client |> <| links := ∅ |>).

(** ** Download links *)
(** The critical section of [InvalidateDownloadLink]. *)
Definition dropLink fsid r : Reader := r <| links ::= delete fsid |>.
Definition tenMinutes : Z := 600 * 10 ^ 9.
(** [reply] is what [client.GetDownloadLink] answers if it is asked. *)
Definition downloadLink fsid now (reply : result goError DownloadLink) r
    : result goError DownloadLink * Reader :=
  let ask :=
    match reply with
    | Err e => (Err e, r)
    | Ok link =>
        let expiresAt := if decide (lk_ExpiresAt link = 0) then now + tenMinutes else lk_ExpiresAt link in
        (Ok link, r <| links ::= <[fsid := mkCachedLink link expiresAt]> |>)
    end in
  match links r !! fsid with
  | Some c => if decide (now < cl_expiresAt c) then (Ok (cl_link c), r) else ask
  | None => ask
  end.

(** ** Reads in flight *)
Definition beginInflight fsid windowOffset r : (nat * bool) * Reader :=
  let key := mkCacheKey fsid windowOffset in
  match inflight r !! key with
  | Some id => ((id, false), r)
  | None =>
      let id := r_next r in
      ((id, true), r <| r_next ::= S |> <| r_objs ::= <[id := None]> |> <| inflight ::= <[key := id]> |>)
  end.
(** [close] of an open channel publishes the outcome. *)
Definition finishInflight fsid windowOffset (id : nat) (data : bytes) (err : option goError) r : Reader :=
  let key := mkCacheKey fsid windowOffset in
  let r := if decide (inflight r !! key = Some id) then r <| inflight ::= delete key |> else r in
  r <| r_objs ::= <[id := Some (data, err)]> |>.
End operations.
