(* ===== verification/ReadCacheInv.v ===== *)
(** * The read cache is consistent

    The invariant of the four cache fields of the remote [Reader] and that
    every critical section keeps it, with what each does to the cached data. *)
From S2P Require Import Prelude GoStrings GoErrors ReadCache.

Implicit Types (r : Reader) (fsid : string) (offset length : Z) (key k : cacheKey).

Definition weight r k : Z := from_option size_of 0 (cached r !! k).

(** The invariant, but for the byte limit. *)
Record cache_pre r : Prop := {
  cp_order : NoDup (cacheOrder r);
  cp_dom : ∀ k, k ∈ cacheOrder r ↔ is_Some (cached r !! k);
  cp_key : ∀ k c, cached r !! k = Some c →
    cr_fsid c = ck_fsid k ∧ cr_offset c = ck_offset k ∧ cr_data c ≠ [];
  cp_index : ∀ k, k ∈ bucket_of (ck_fsid k) r ↔ is_Some (cached r !! k);
  cp_bucket : ∀ fsid b, cacheByFSID r !! fsid = Some b → b ≠ ∅ ∧ ∀ k, k ∈ b → ck_fsid k = fsid;
  cp_bytes : cacheBytes r = zsum (weight r) (cacheOrder r)
}.
Definition cache_wf r : Prop := cache_pre r ∧ cacheBytes r ≤ cacheLimit r.

(** The fields the invariant reads. *)
Definition cache_view r := (cached r, cacheByFSID r, cacheOrder r, cacheBytes r).

Lemma cache_pre_view r r' : cache_view r' = cache_view r → cache_pre r → cache_pre r'.
Proof.
  unfold cache_view. intros [= H1 H2 H3 H4] [P1 P2 P3 P4 P5 P6].
  split; unfold bucket_of, weight; rewrite ?H1, ?H2, ?H3, ?H4; done.
Qed.

Lemma size_of_nonneg c : 0 ≤ size_of c.
Proof. apply zlen_nonneg. Qed.
Lemma weight_nonneg r k : 0 ≤ weight r k.
Proof. unfold weight. destruct (cached r !! k); cbn; [apply size_of_nonneg|lia]. Qed.

Lemma remove_first_filter key order :
  NoDup order → remove_first key order = filter (λ k, k ≠ key) order.
Proof.
  induction order as [|k order IH]; [done|]. intros [Hn Hnd]%NoDup_cons. cbn [remove_first].
  rewrite filter_cons. destruct (decide (k = key)) as [->|].
  - rewrite decide_False by tauto. symmetry. apply filter_all. by intros z Hz ->.
  - rewrite decide_True by done. by rewrite IH.
Qed.

Lemma promote_perm key order : promote key order ≡ₚ order.
Proof.
  induction order as [|k order IH]; [done|]. cbn [promote]. case_decide as Hk.
  - destruct Hk as [-> _]. symmetry. apply Permutation_cons_append.
  - by rewrite IH.
Qed.

(** ** Removal *)
Lemma remove_frame key r :
  cacheOrder (removeCachedKeyLocked key r) = cacheOrder r ∧
  cacheLimit (removeCachedKeyLocked key r) = cacheLimit r ∧
  cached (removeCachedKeyLocked key r) = delete key (cached r) ∧
  cacheBytes (removeCachedKeyLocked key r) = cacheBytes r - weight r key.
Proof.
  unfold removeCachedKeyLocked, weight. destruct (cached r !! key) as [c|] eqn:Hc.
  - cbn. destruct (cacheByFSID r !! ck_fsid key); done.
  - split_and!; [done|done| |cbn; lia]. symmetry. by apply delete_id.
Qed.
Lemma remove_order key r o :
  removeCachedKeyLocked key (r <| cacheOrder := o |>) = (removeCachedKeyLocked key r) <| cacheOrder := o |>.
Proof.
  unfold removeCachedKeyLocked. cbn. destruct (cached r !! key); [|done].
  by destruct (cacheByFSID r !! ck_fsid key).
Qed.

Lemma remove_bucket key r fsid b :
  cache_pre r → cacheByFSID (removeCachedKeyLocked key r) !! fsid = Some b →
  b ≠ ∅ ∧ ∃ b0, cacheByFSID r !! fsid = Some b0 ∧ b = b0 ∖ {[key]}.
Proof.
  intros Hp. unfold removeCachedKeyLocked. destruct (cached r !! key) as [c|] eqn:Hc.
  - cbn. destruct (cacheByFSID r !! ck_fsid key) as [b0|] eqn:Hb; cbn.
    + case_decide as He; cbn.
      * rewrite lookup_delete_Some. intros [Hne Hf]. destruct (cp_bucket _ Hp _ _ Hf) as [Hn Hk].
        split; [done|]. exists b. split; [done|]. apply set_eq. intros k.
        destruct (decide (k = key)) as [->|]; [|set_solver]. split; [|set_solver].
        intros Hin. by destruct Hne, (Hk _ Hin).
      * rewrite lookup_insert_Some. intros [[<- <-]|[Hne Hf]]; [by eauto|].
        destruct (cp_bucket _ Hp _ _ Hf) as [Hn Hk]. split; [done|]. exists b. split; [done|].
        apply set_eq. intros k. destruct (decide (k = key)) as [->|]; [|set_solver].
        split; [|set_solver]. intros Hin. by destruct Hne, (Hk _ Hin).
    + assert (key ∈ bucket_of (ck_fsid key) r) as Hin by (apply (cp_index _ Hp); by rewrite Hc).
      unfold bucket_of in Hin. rewrite Hb in Hin. cbn in Hin. set_solver.
  - intros Hf. destruct (cp_bucket _ Hp _ _ Hf) as [Hn Hk]. split; [done|]. exists b. split; [done|].
    apply set_eq. intros k. destruct (decide (k = key)) as [->|]; [|set_solver]. split; [|set_solver].
    intros Hin. assert (is_Some (cached r !! key)) as [? ?]; [|congruence].
    apply (cp_index _ Hp). unfold bucket_of. by rewrite (Hk _ Hin), Hf.
Qed.

Lemma remove_index key r k :
  cache_pre r → k ∈ bucket_of (ck_fsid k) (removeCachedKeyLocked key r) ↔
  k ∈ bucket_of (ck_fsid k) r ∧ k ≠ key.
Proof.
  intros Hp. unfold bucket_of, removeCachedKeyLocked. destruct (cached r !! key) as [c|] eqn:Hc.
  - cbn. destruct (cacheByFSID r !! ck_fsid key) as [b|] eqn:Hb; cbn.
    + case_decide as He; cbn.
      * rewrite lookup_delete. case_decide as Hk; [|split; [|tauto]; intros; split; [done|congruence]].
        rewrite <- Hk, Hb. cbn. set_solver.
      * rewrite lookup_insert. case_decide as Hk; [|split; [|tauto]; intros; split; [done|congruence]].
        rewrite <- Hk, Hb. cbn. set_solver.
    + split; [|tauto]. intros Hin. split; [done|]. intros ->. rewrite Hb in Hin. cbn in Hin. set_solver.
  - split; [|tauto]. intros Hin. split; [done|]. intros ->.
    apply (cp_index _ Hp) in Hin as [? ?]. congruence.
Qed.

Lemma remove_pre key r :
  cache_pre r →
  cache_pre ((removeCachedKeyLocked key r) <| cacheOrder := filter (λ k, k ≠ key) (cacheOrder r) |>).
Proof.
  intros Hp. destruct (remove_frame key r) as (E1 & E2 & E3 & E4). destruct Hp as [P1 P2 P3 P4 P5 P6] eqn:HP.
  split; cbn.
  - by apply NoDup_filter.
  - intros k. rewrite E3, list_elem_of_filter, P2. rewrite lookup_delete. case_decide; subst.
    + split; [tauto|]. by intros [? ?].
    + split; [tauto|done].
  - intros k c. rewrite E3, lookup_delete_Some. intros [_ Hc]. by apply P3.
  - intros k. change (bucket_of (ck_fsid k) _) with (bucket_of (ck_fsid k) (removeCachedKeyLocked key r)).
    rewrite remove_index by done. rewrite E3, P4, lookup_delete. case_decide; subst.
    + split; [tauto|]. by intros [? ?].
    + split; [tauto|done].
  - intros fsid b Hb. destruct (remove_bucket key r fsid b Hp Hb) as (Hne & b0 & Hb0 & ->).
    split; [done|]. intros k Hk. apply (proj2 (P5 _ _ Hb0)). set_solver.
  - rewrite E4, P6. transitivity (zsum (weight r) (filter (λ k, k ≠ key) (cacheOrder r))).
    2: { apply zsum_ext. intros k [Hne _]%list_elem_of_filter. unfold weight. cbn.
         by rewrite E3, lookup_delete_ne. }
    destruct (decide (key ∈ cacheOrder r)) as [Hin|Hn].
    + rewrite (zsum_pick (weight r) _ key) by done. lia.
    + rewrite filter_all by (intros z Hz ->; by apply Hn).
      assert (weight r key = 0); [|lia]. unfold weight. destruct (cached r !! key) eqn:Hc; [|done]. destruct Hn. apply P2. by rewrite Hc.
Qed.

(** ** Eviction *)
Lemma pop_order_pre r oldest rest :
  cache_pre r → cacheOrder r = oldest :: rest →
  cache_pre (removeCachedKeyLocked oldest (r <| cacheOrder := rest |>)).
Proof.
  intros Hp Ho. rewrite remove_order. pose proof (remove_pre oldest r Hp) as H.
  pose proof (cp_order _ Hp) as Hnd. rewrite Ho in H, Hnd. apply NoDup_cons in Hnd as [Hn _].
  rewrite filter_cons, decide_False in H by tauto.
  rewrite filter_all in H by (intros z Hz ->; by apply Hn). exact H.
Qed.

(** What [evict_reads] leaves: the longest suffix of the order within
    the limit, and the entries of the keys that stayed. *)
Record evicted r r' : Prop := {
  ev_pre : cache_pre r';
  ev_limit : cacheLimit r' = cacheLimit r;
  ev_fits : cacheBytes r' ≤ cacheLimit r';
  ev_suffix : ∃ gone, cacheOrder r = gone ++ cacheOrder r';
  ev_cached : ∀ k, cached r' !! k = if decide (k ∈ cacheOrder r') then cached r !! k else None;
  ev_most : ∀ g s, cacheOrder r = g ++ s → zsum (weight r) s ≤ cacheLimit r →
    ∃ g', cacheOrder r' = g' ++ s
}.

Lemma pre_cached r k : cache_pre r → cached r !! k = if decide (k ∈ cacheOrder r) then cached r !! k else None.
Proof.
  intros Hp. case_decide as Hn; [done|]. apply eq_None_not_Some. by rewrite <- (cp_dom _ Hp).
Qed.

Lemma evict_reads_spec order r :
  cache_pre r → cacheOrder r = order → 0 ≤ cacheLimit r → evicted r (evict_reads order r).
Proof.
  revert r. induction order as [|oldest rest IH]; intros r Hp Ho Hl; cbn [evict_reads].
  - assert (r <| cacheOrder := [] |> = r) as -> by (destruct r; cbn in *; by subst).
    split; [done|done| |by exists []|intros k; by apply pre_cached|intros g s ? _; by exists g].
    rewrite (cp_bytes _ Hp), Ho. done.
  - case_decide as Hover.
    + pose proof (pop_order_pre r oldest rest Hp Ho) as Hp1. rewrite remove_order in Hp1 |- *.
      destruct (remove_frame oldest r) as (E1 & E2 & E3 & E4).
      pose proof (cp_order _ Hp) as Hnd. rewrite Ho in Hnd. apply NoDup_cons in Hnd as [Hn Hnd].
      destruct (IH _ Hp1) as [I1 I2 I3 [gone I4] I5 I6]; [done|cbn; lia|]. 
      split; [exact I1|etransitivity; [exact I2|exact E2]|exact I3| | |].
      * exists (oldest :: gone). rewrite Ho. cbn. f_equal. exact I4.
      * intros k. rewrite I5. case_decide as Hk; [|done].
        change (cached (removeCachedKeyLocked oldest r) !! k = cached r !! k).
        rewrite E3. apply lookup_delete_ne. intros ->. apply Hn.
        change rest with (cacheOrder ((removeCachedKeyLocked k r) <| cacheOrder := rest |>)).
        rewrite I4. apply elem_of_app. by right.
      * intros g s Hgs Hfit. rewrite Ho in Hgs. destruct g as [|x g].
        { cbn in Hgs. subst s. rewrite <- Ho, <- (cp_bytes _ Hp) in Hfit. lia. }
        injection Hgs as <- Hr. apply (I6 g s); [exact Hr|].
        assert (cacheLimit ((removeCachedKeyLocked oldest r) <| cacheOrder := rest |>) = cacheLimit r)
          as -> by exact E2.
        erewrite zsum_ext; [exact Hfit|]. intros k Hk. unfold weight. cbn.
        rewrite E3, lookup_delete_ne; [done|]. intros <-. apply Hn. rewrite Hr. apply elem_of_app. by right.
    + assert (r <| cacheOrder := oldest :: rest |> = r) as -> by (destruct r; cbn in *; by subst).
      split; [done|done|lia|by exists []|intros k; by apply pre_cached|intros g s ? _; by exists g].
Qed.

(** ** Storing a window *)
Definition inserted fsid offset (data : bytes) r : Reader :=
  let key := mkCacheKey fsid offset in
  r <| cached ::= <[key := mkCached fsid offset data]> |>
    <| cacheByFSID ::= <[fsid := {[key]} ∪ bucket_of fsid r]> |>
    <| cacheOrder ::= λ o, o ++ [key] |> <| cacheBytes ::= λ n, n + zlen data |>.

Lemma insert_pre fsid offset data r :
  cache_pre r → cached r !! mkCacheKey fsid offset = None → data ≠ [] →
  cache_pre (inserted fsid offset data r).
Proof.
  intros [P1 P2 P3 P4 P5 P6] Hnone Hd. unfold inserted. remember (mkCacheKey fsid offset) as key eqn:Hkey.
  assert (key ∉ cacheOrder r) as Hn by (rewrite P2, Hnone; by intros [? ?]).
  split; unfold bucket_of; cbn [cached cacheOrder cacheByFSID cacheBytes set_field].
  - apply NoDup_app. split_and!; [done|set_solver|apply NoDup_singleton].
  - intros k. rewrite elem_of_app, P2, list_elem_of_singleton, lookup_insert.
    case_decide as Hk; [split; [by eexists|right; congruence]|]. split; [intros [?| ->]; done|by left].
  - intros k c. rewrite lookup_insert_Some. intros [[<- <-]|[_ Hc]]; [by subst|by apply P3].
  - intros k. rewrite !lookup_insert. destruct (decide (fsid = ck_fsid k)) as [->|Hne]; cbn.
    + rewrite elem_of_union, elem_of_singleton. fold (bucket_of (ck_fsid k) r). rewrite P4.
      case_decide as Hk; [split; [by eexists|left; congruence]|]. split; [intros [->|?]; done|by right].
    + rewrite decide_False by (intros <-; by subst key). apply P4.
  - intros fs b. rewrite lookup_insert_Some. intros [[<- <-]|[_ Hb]]; [|by apply P5].
    split; [set_solver|]. intros k [->%elem_of_singleton|Hk]%elem_of_union; [by subst|].
    unfold bucket_of in Hk. destruct (cacheByFSID r !! fsid) as [b|] eqn:Hb; [|set_solver].
    by apply (P5 _ _ Hb).
  - match goal with |- _ = zsum (weight ?R) _ =>
      assert (weight R key = zlen data) as Hw;
        [|assert (∀ k, k ∈ cacheOrder r → weight R k = weight r k) as Hx] end.
    + unfold weight. cbn [cached set_field]. by rewrite lookup_insert_eq.
    + intros k Hk. unfold weight. cbn [cached set_field]. rewrite lookup_insert_ne; [done|]. by intros <-.
    + rewrite zsum_app, zsum_cons, zsum_nil, Hw, (zsum_ext _ _ _ Hx), P6. lia.
Qed.

(** The order of use once [key] has become the most recent. *)
Definition refreshed key r : list cacheKey := filter (λ k, k ≠ key) (cacheOrder r) ++ [key].
Definition weight_with key (data : bytes) r k : Z := if decide (k = key) then zlen data else weight r k.

(** The cache after a window that fits is stored: the longest part of the
    refreshed order that fits, oldest entries first to go. *)
Record stored fsid offset (data : bytes) r r' : Prop := {
  st_hit : cached r' !! mkCacheKey fsid offset = Some (mkCached fsid offset data);
  st_suffix : ∃ gone, refreshed (mkCacheKey fsid offset) r = gone ++ cacheOrder r';
  st_most : ∀ g s, refreshed (mkCacheKey fsid offset) r = g ++ s →
    zsum (weight_with (mkCacheKey fsid offset) data r) s ≤ cacheLimit r → ∃ g', cacheOrder r' = g' ++ s
}.

(** The preparation of a store: the key is in no field any more. *)
Lemma dropped_spec key r :
  cache_pre r →
  let r1 := match cached r !! key with
            | Some _ => (removeCachedKeyLocked key r) <| cacheOrder ::= remove_first key |>
            | None => r end in
  cache_pre r1 ∧ cached r1 = delete key (cached r) ∧ cacheLimit r1 = cacheLimit r ∧
  cacheOrder r1 = filter (λ k, k ≠ key) (cacheOrder r).
Proof.
  intros Hp. cbv zeta. destruct (cached r !! key) as [c|] eqn:Hc.
  - destruct (remove_frame key r) as (E1 & E2 & E3 & E4). split_and!; [|exact E3|exact E2|].
    + pose proof (remove_pre key r Hp) as H. rewrite <- remove_first_filter in H by apply Hp.
      rewrite <- E1 in H. exact H.
    + rewrite <- remove_first_filter by apply Hp. rewrite <- E1. done.
  - split_and!; [done|by rewrite delete_id|done|]. symmetry. apply filter_all. intros k Hk ->.
    apply (cp_dom _ Hp) in Hk as [? ?]. congruence.
Qed.

Lemma storeCached_spec fsid offset data r :
  cache_wf r →
  let r' := storeCachedLocked fsid offset data r in
  cache_wf r' ∧ cacheLimit r' = cacheLimit r ∧
  (∀ k c, cached r' !! k = Some c →
     (k = mkCacheKey fsid offset ∧ c = mkCached fsid offset data ∧ data ≠ []) ∨ cached r !! k = Some c) ∧
  (data ≠ [] → zlen data ≤ cacheLimit r → stored fsid offset data r r').
Proof.
  intros [Hp Hl]. unfold storeCachedLocked. pose proof (zlen_nonneg data) as Hz.
  case_decide as Hskip; cbv zeta.
  { split_and!; [by split|done|by right|]. intros Hd Hfit. destruct Hskip as [Hs|]; [|lia].
    by apply zlen_0 in Hs. }
  set (key := mkCacheKey fsid offset).
  pose proof (dropped_spec key r Hp) as Hdrop. cbv zeta in Hdrop.
  set (r1 := match cached r !! key with Some _ => _ | None => r end) in *.
  destruct Hdrop as (Hp1 & Hc1 & Hl1 & Ho1).
  assert (data ≠ []) as Hd by (intros ->; apply Hskip; by left).
  assert (cached r1 !! key = None) as Hn1 by (by rewrite Hc1, lookup_delete_eq).
  pose proof (insert_pre fsid offset data r1 Hp1 Hn1 Hd) as Hp2.
  change (evict_reads _ _) with (evict_reads (cacheOrder (inserted fsid offset data r1)) (inserted fsid offset data r1)).
  assert (0 ≤ cacheLimit (inserted fsid offset data r1)) as H0.
  { cbn. rewrite Hl1. pose proof (cp_bytes _ Hp) as Hb. pose proof (zsum_nonneg (weight r) (cacheOrder r)) as Hnn.
    rewrite <- Hb in Hnn. pose proof (Hnn (λ k _, weight_nonneg r k)). lia. }
  destruct (evict_reads_spec _ _ Hp2 eq_refl H0) as [V1 V2 V3 V4 V5 V6].
  assert (cacheOrder (inserted fsid offset data r1) = refreshed key r) as Hord
    by (unfold refreshed; by rewrite <- Ho1).
  assert (∀ k, k ∈ refreshed key r → weight (inserted fsid offset data r1) k = weight_with key data r k) as Hw.
  { intros k _. unfold weight, weight_with. cbn. fold key. rewrite lookup_insert.
    repeat case_decide; try congruence; [done|]. by rewrite Hc1, lookup_delete_ne. }
  rewrite Hord in *. set (r' := evict_reads _ _) in *.
  assert (∀ g s, refreshed key r = g ++ s → zsum (weight_with key data r) s ≤ cacheLimit r →
    ∃ g', cacheOrder r' = g' ++ s) as Hmost.
  { intros g s Hgs Hfit. apply (V6 g s Hgs). etransitivity; [|etransitivity; [exact Hfit|]].
    - rewrite (zsum_ext _ (weight_with key data r)); [done|]. intros k Hk. apply Hw. rewrite Hgs.
      apply elem_of_app. by right.
    - cbn. rewrite Hl1. done. }
  split_and!; [by split|etransitivity; [exact V2|exact Hl1]| |].
  - intros k c Hc. rewrite V5 in Hc. case_decide; [|done]. cbn in Hc. fold key in Hc.
    apply lookup_insert_Some in Hc as [[<- <-]|[Hne Hc]]; [by left|right].
    rewrite Hc1 in Hc. by apply lookup_delete_Some in Hc as [_ ?].
  - intros _ Hfit. split; [|exact V4|exact Hmost].
    rewrite V5. cbn. fold key. rewrite lookup_insert_eq, decide_True; [done|].
    destruct (Hmost (filter (λ k, k ≠ key) (cacheOrder r)) [key]) as [g' Hg]; [done| |].
    { rewrite zsum_cons, zsum_nil. unfold weight_with. rewrite decide_True by done. lia. }
    rewrite Hg. set_solver.
Qed.

(** ** The other critical sections *)
Lemma clear_wf r : 0 ≤ cacheLimit r → cache_wf (clearCachedReadsLocked r).
Proof.
  intros Hl. split; [|done]. split; cbn; try done.
  - by apply NoDup_nil_2.
  - intros k. rewrite lookup_empty. split; [by intros ?%not_elem_of_nil|by intros [? ?]].
  - intros k. unfold bucket_of. cbn. rewrite lookup_empty. cbn.
    split; [by intros ?%not_elem_of_empty|by intros [? ?]].
Qed.

Lemma read_bucket_spec keys offset length r data r' :
  read_bucket keys offset length r = Some (data, r') →
  ∃ k c, k ∈ keys ∧ cached r !! k = Some c ∧ serves c offset length = true ∧
    data = slice (cr_data c) (offset -! cr_offset c) length ∧ r' = r <| cacheOrder ::= promote k |>.
Proof.
  induction keys as [|k keys IH]; cbn [read_bucket]; [done|].
  assert (read_bucket keys offset length r = Some (data, r') → ∃ k' c, k' ∈ k :: keys ∧
    cached r !! k' = Some c ∧ serves c offset length = true ∧
    data = slice (cr_data c) (offset -! cr_offset c) length ∧ r' = r <| cacheOrder ::= promote k' |>) as Hrest.
  { intros H. destruct (IH H) as (k' & c & Hk & ?). exists k', c. split; [by right|done]. }
  destruct (cached r !! k) as [c|] eqn:Hc; [|exact Hrest].
  destruct (serves c offset length) eqn:Hs; [|exact Hrest].
  intros [= <- <-]. exists k, c. split_and!; [left|done..].
Qed.

Lemma elem_of_iteration first bucket k : k ∈ iteration first bucket → k ∈ bucket.
Proof.
  unfold iteration. rewrite elem_of_app, !list_elem_of_filter, elem_of_elements. tauto.
Qed.

(** A read of the cache changes only the order of use, and what it finds is
    part of a cached window of the file. *)
Lemma readCached_spec first fsid offset length r :
  cache_wf r →
  let '(hit, r') := readCachedLocked first fsid offset length r in
  cache_wf r' ∧ r' = r <| cacheOrder := cacheOrder r' |> ∧
  ∀ data, hit = Some data →
    ∃ k c, ck_fsid k = fsid ∧ cached r !! k = Some c ∧ serves c offset length = true ∧
      data = slice (cr_data c) (offset -! ck_offset k) length.
Proof.
  intros [Hp Hl]. unfold readCachedLocked.
  destruct (read_bucket _ offset length r) as [[data r']|] eqn:Hb; cycle 1.
  { split; [by split|]. split; [by destruct r|done]. }
  apply read_bucket_spec in Hb as (k & c & Hk & Hc & Hs & -> & ->). apply elem_of_iteration in Hk.
  destruct (cp_key _ Hp _ _ Hc) as (K1 & K2 & K3). split_and!.
  - assert (promote k (cacheOrder r) ≡ₚ cacheOrder r) as Hperm by apply promote_perm.
    split; [|exact Hl]. destruct Hp as [P1 P2 P3 P4 P5 P6]. split; [|..|]; cbn; try done.
    + by rewrite Hperm.
    + intros k'. by rewrite Hperm.
    + rewrite P6. change (zsum (weight r) (cacheOrder r) = zsum (weight r) (promote k (cacheOrder r))).
      by rewrite Hperm.
  - done.
  - intros data [= <-]. exists k, c. split_and!; [|done|done|by rewrite K2].
    unfold bucket_of in Hk. destruct (cacheByFSID r !! fsid) as [b|] eqn:Hf; cbn in Hk; [|set_solver].
    by apply (cp_bucket _ Hp _ _ Hf).
Qed.

(** A read finds a window that serves it, whatever the order of iteration. *)
Lemma readCached_hits first fsid offset length r k c :
  cache_pre r → cached r !! k = Some c → ck_fsid k = fsid → serves c offset length = true →
  is_Some (readCachedLocked first fsid offset length r).1.
Proof.
  intros Hp Hc <- Hs. unfold readCachedLocked.
  assert (k ∈ iteration first (bucket_of (ck_fsid k) r)) as Hk.
  { assert (k ∈ bucket_of (ck_fsid k) r) as Hb by (apply (cp_index _ Hp); by rewrite Hc).
    unfold iteration. rewrite elem_of_app, !list_elem_of_filter, elem_of_elements.
    destruct (decide (k ∈ first)); tauto. }
  revert Hk. generalize (iteration first (bucket_of (ck_fsid k) r)) as keys. clear first.
  induction keys as [|k' keys IH]; [by intros ?%not_elem_of_nil|]. cbn [read_bucket].
  intros [<-|Hk]%elem_of_cons.
  - rewrite Hc, Hs. by eexists.
  - destruct (cached r !! k') as [c'|]; [|by apply IH].
    destruct (serves c' offset length); [by eexists|by apply IH].
Qed.
