(* ===== verification/Remote.v ===== *)
(** * The remote reader's operations ([src/internal/remote/remote.go])

    [ReadRange], [Prefetch], [ReadExactRange] and [ReadStreamRange] as
    programs of atomic actions on the [Reader]: each critical section, each
    call of the client and each wait on a read in flight is one action.

    [readConcurrent] starts a goroutine per chunk where the code hands the
    chunks to a bounded number of workers; a chunk no worker took before the
    context ended is skipped. *)
From S2P Require Import Prelude GoStrings GoErrors Goroutines ReadCache.

(** The open inputs of a critical section: the clock, the link the client
    would answer, [ctx.Err()], the order a map is iterated in, whether the
    context ended before a worker took the chunk, and which error came first. *)
Record env := mkEnv {
  e_now : Z; e_link : result goError DownloadLink; e_ctx : option goError;
  e_first : list cacheKey; e_skip : bool; e_pick : nat
}.
(** What the programs ask of the client, by its name; an answer is the bytes
    read and the error. *)
Inductive request :=
| QReadRange (client : nat) (fsid : string) (offset length : Z)
| QRefreshAuth (client : nat)
| QInvalidateDownloadLink (client : nat) (fsid : string).

Definition rprog : Type → Type := @prog Reader env request outcome outcome goError.
#[export] Instance rprog_ret : MRet rprog := @prog_ret _ _ _ _ _ _.
#[export] Instance rprog_bind : MBind rprog := @prog_bind _ _ _ _ _ _.
Definition ret {A} (a : A) : rprog A := Ret a.
Definition crit {A} (f : env → Reader → A * Reader) : rprog A := Do f Ret.
Definition update (f : Reader → Reader) : rprog unit := crit (λ _ r, (tt, f r)).
Abbreviation reply := (result goError bytes).

Section operations.
Implicit Types (fsid : string) (client : nat) (offset length : Z).

(** [ctx.Err()] *)
Definition ctxErr : rprog (option goError) := crit (λ e r, (e_ctx e, r)).
Definition currentClient : rprog (option nat) := crit (λ _ r, (r_client r, r)).
Definition getDownloadLink fsid : rprog (result goError DownloadLink) :=
  crit (λ e, downloadLink fsid (e_now e) (e_link e)).
(** [InvalidateDownloadLink] tells the client to drop its link, too, if it
    keeps any. *)
Definition InvalidateDownloadLink fsid : rprog unit :=
  if decide (fsid = "") then ret tt
  else
    client ← crit (λ _ r, (r_client r, dropLink fsid r));
    match client with
    | Some client => Call (QInvalidateDownloadLink client fsid) (λ _, Ret tt)
    | None => ret tt
    end.
Definition readCached fsid offset length : rprog (option bytes) :=
  crit (λ e, readCachedLocked (e_first e) fsid offset length).
Definition storeCached fsid offset (data : bytes) : rprog unit :=
  update (storeCachedLocked fsid offset data).

Definition errLength : goError := errors_New "length must be non-negative".
Definition errOffset : goError := errors_New "offset must be non-negative".
Definition errFsid : goError := errors_New "fsid is required".
Definition shortRead (what : string) offset (n length : Z) : goError :=
  wrap (what +:+ " at " +:+ format_int offset +:+ " returned " +:+ format_int n +:+ " of "
        +:+ format_int length +:+ " bytes") (sentinel_err UnexpectedEOF).
Definition zeros length : bytes := replicate (Z.to_nat length) Byte.x00.

(** [if err == nil && n != len(data)], where the read has to be full. *)
Definition check_full (full : option string) offset length (answer : outcome) : outcome :=
  match answer, full with
  | (data, None), Some what =>
      if decide (zlen data = length) then answer
      else (data, Some (shortRead what offset (zlen data) length))
  | _, _ => answer
  end.
Definition refreshIfAuth client (e : goError) : rprog unit :=
  if decide (ClassifyDownloadError (Some e) = DownloadErrorAuth)
  then Call (QRefreshAuth client) (λ _, Ret tt) else Ret tt.

(** The loop [for attempt := 0; attempt < 2; attempt++]. *)
Fixpoint fetch (tries : nat) (full : option string) client fsid offset length (lastErr : option goError)
    : rprog reply :=
  match tries with
  | O => ret (match lastErr with Some e => Err e | None => Ok [] end)
  | S tries =>
      Call (QReadRange client fsid offset length) (λ answer,
        match check_full full offset length answer with
        | (data, None) => ret (Ok data)
        | (_, Some e) =>
            c ← ctxErr;
            match c with
            | Some c => ret (Err c)
            | None => _ ← refreshIfAuth client e; fetch tries full client fsid offset length (Some e)
            end
        end)
  end.

(** ** Reads in flight *)
Definition sliceForWindow (data : bytes) (windowOffset offset length : Z) : bytes :=
  let start := offset -! windowOffset in
  let start := if decide (start < 0) then 0 else start in
  if decide (zlen data ≤ start) then []
  else
    let end_ := start +! length in
    let end_ := if decide (zlen data < end_) then zlen data else end_ in
    slice data start (end_ - start).
(** The [select] on [inflight.done] and [ctx.Done()]. *)
Definition awaitInflight (id : nat) (windowOffset offset length : Z) : rprog reply :=
  Wait id (λ r, ret match r with
                    | inl (data, None) => Ok (sliceForWindow data windowOffset offset length)
                    | inl (_, Some e) => Err e
                    | inr e => Err e
                    end).
Definition waitInflight fsid (windowOffset offset length : Z) : rprog (option reply) :=
  found ← crit (λ _ r, (inflight r !! mkCacheKey fsid windowOffset, r));
  match found with
  | None => ret None
  | Some id => r ← awaitInflight id windowOffset offset length; ret (Some r)
  end.
Definition begin fsid (windowOffset : Z) : rprog (nat * bool) :=
  crit (λ _, beginInflight fsid windowOffset).
Definition finish fsid (windowOffset : Z) (id : nat) (data : bytes) (err : option goError) : rprog unit :=
  update (finishInflight fsid windowOffset id data err).

(** The part [readSequential] and [readChunk] share: the read of the window
    [fetchOffset, fetchOffset + fetchLength) on behalf of [offset, length]. *)
Definition readWindow (full : option string) client fsid (fetchOffset fetchLength offset length : Z)
    (answer : bytes → bytes) : rprog reply :=
  hit ← readCached fsid offset length;
  match hit with
  | Some data => ret (Ok data)
  | None =>
      waited ← waitInflight fsid fetchOffset offset length;
      match waited with
      | Some r => ret r
      | None =>
          '(id, owner) ← begin fsid fetchOffset;
          if (owner : bool) then
            got ← fetch 2 full client fsid fetchOffset fetchLength None;
            match got with
            | Ok data =>
                _ ← finish fsid fetchOffset id data None;
                _ ← storeCached fsid fetchOffset data;
                ret (Ok (answer data))
            | Err e => _ ← finish fsid fetchOffset id [] (Some e); ret (Err e)
            end
          else awaitInflight id fetchOffset offset length
      end
  end.

Definition alignOffset offset (size : Z) : Z :=
  if decide (size ≤ 0 ∨ offset ≤ 0) then 0 else Z.quot offset size * size.
Definition windowLength length (chunkSize : Z) : Z :=
  let fetchLength := if decide (length < prefetchBytes) then prefetchBytes else length in
  if decide (fetchLength < chunkSize) then chunkSize else fetchLength.
Definition readSequential client fsid offset length (chunkSize : Z) : rprog reply :=
  let fetchLength := windowLength length chunkSize in
  let fetchOffset := alignOffset offset fetchLength in
  readWindow None client fsid fetchOffset fetchLength offset length
    (λ data, sliceForWindow data fetchOffset offset length).
Definition readChunk client fsid offset length : rprog reply :=
  readWindow (Some "read chunk") client fsid offset length offset length (λ data, data).

(** ** Concurrent chunks *)

(** [copy(dst, chunk)] into [dst], zeroed, of [n] bytes. *)
Definition copy_into (n : Z) (chunk : bytes) : bytes :=
  take (Z.to_nat n) chunk ++ zeros (n - zlen chunk).
Definition piece_length length (chunkSize : Z) (index : nat) : Z :=
  let begin := Z.of_nat index * chunkSize in
  let end_ := begin + chunkSize in
  (if decide (length < end_) then length else end_) - begin.
(** One chunk: [None] when the context ended before a worker took it. *)
Definition chunkJob client fsid offset length (chunkSize : Z) (index : nat) : rprog (option reply) :=
  skip ← crit (λ e r, (e_skip e, r));
  if (skip : bool) then ret None
  else
    r ← readChunk client fsid (offset + Z.of_nat index * chunkSize) (piece_length length chunkSize index);
    ret (Some r).

Definition errors_of (rs : list (option reply)) : list goError :=
  omap (λ r, match r with Some (Err e) => Some e | _ => None end) rs.
(** [buf], each chunk copied to its place. *)
Definition assembled length (chunkSize : Z) (rs : list (option reply)) : bytes :=
  concat (imap (λ index r, copy_into (piece_length length chunkSize index)
    match r with Some (Ok chunk) => chunk | _ => [] end) rs).
(** What is returned once [wg.Wait()] is through. *)
Definition joined length (chunkSize : Z) (rs : list (option reply)) (e : env) : reply :=
  match errors_of rs with
  | [] =>
      match e_ctx e with
      | Some c => Err c
      | None => if decide (None ∈ rs) then Err (sentinel_err CtxCanceled)
                else Ok (assembled length chunkSize rs)
      end
  | first :: rest => Err (default first ((first :: rest) !! e_pick e))
  end.

Definition readConcurrent client fsid offset length (chunkSize concurrency : Z) : rprog reply :=
  if decide (length ≤ 0) then ret (Ok [])
  else
    let chunkSize := if decide (chunkSize ≤ 0) then 8 * 2 ^ 20 else chunkSize in
    let total := Z.quot (length +! chunkSize -! 1) chunkSize in
    if decide (total ≤ 1) then readSequential client fsid offset length chunkSize
    else Par (Z.to_nat total) (chunkJob client fsid offset length chunkSize)
           (λ rs, crit (λ e r, (joined length chunkSize rs e, r))).

Definition readWithOptions client fsid offset length : rprog reply :=
  '(concurrency, chunkSize) ← crit (λ _ r, ((concurrency r, chunkSize r), r));
  if decide (concurrency ≤ 1) then readSequential client fsid offset length chunkSize
  else readConcurrent client fsid offset length chunkSize concurrency.

(** ** The reader's methods *)
Definition ReadExactRange fsid offset length : rprog reply :=
  if decide (length < 0) then ret (Err errLength)
  else if decide (fsid = "") then ret (Err errFsid)
  else
    client ← currentClient;
    match client with
    | None => ret (Ok (zeros length))
    | Some client =>
        link ← getDownloadLink fsid;
        match link with
        | Err e => ret (Err e)
        | Ok _ =>
            hit ← readCached fsid offset length;
            match hit with
            | Some data => ret (Ok data)
            | None =>
                got ← fetch 2 (Some "read exact range") client fsid offset length None;
                match got with
                | Ok data => _ ← storeCached fsid offset data; ret (Ok data)
                | Err e => ret (Err e)
                end
            end
        end
    end.

Definition ReadStreamRange fsid offset length : rprog reply :=
  if decide (length < 0) then ret (Err errLength)
  else if decide (fsid = "") then ret (Err errFsid)
  else
    client ← currentClient;
    match client with
    | None => ret (Ok (zeros length))
    | Some client =>
        Call (QReadRange client fsid offset length) (λ answer,
          match check_full (Some "stream range") offset length answer with
          | (data, None) => ret (Ok data)
          | (_, Some e) => _ ← refreshIfAuth client e; ret (Err e)
          end)
    end.

Definition ReadRange fsid offset length : rprog reply :=
  if decide (length < 0) then ret (Err errLength)
  else if decide (fsid = "") then ret (Err errFsid)
  else
    client ← currentClient;
    match client with
    | None => ret (Ok (zeros length))
    | Some client =>
        link ← getDownloadLink fsid;
        match link with
        | Err e => ret (Err e)
        | Ok _ =>
            hit ← readCached fsid offset length;
            match hit with
            | Some data => ret (Ok data)
            | None =>
                got ← readWithOptions client fsid offset length;
                match got with
                | Err e => ret (Err e)
                | Ok data =>
                    if decide (length ≤ zlen data) then ret (Ok data)
                    else
                      missing ← ReadExactRange fsid (offset +! zlen data) (length - zlen data);
                      match missing with
                      | Err e => ret (Err e)
                      | Ok missing =>
                          let result := data ++ missing in
                          if decide (zlen result = length) then ret (Ok result)
                          else ret (Err (shortRead "read range" offset (zlen result) length))
                      end
                end
            end
        end
    end.

Definition Prefetch fsid offset length : rprog (result goError unit) :=
  if decide (length ≤ 0) then ret (Ok tt)
  else if decide (fsid = "") then ret (Err errFsid)
  else if decide (offset < 0) then ret (Err errOffset)
  else
    c ← ctxErr;
    match c with
    | Some c => ret (Err c)
    | None =>
        client ← currentClient;
        match client with
        | None => ret (Ok tt)
        | Some client =>
            link ← getDownloadLink fsid;
            match link with
            | Err e => ret (Err e)
            | Ok _ =>
                hit ← readCached fsid offset length;
                match hit with
                | Some _ => ret (Ok tt)
                | None =>
                    '(concurrency, chunkSize) ← crit (λ _ r, ((concurrency r, chunkSize r), r));
                    got ← (if decide (concurrency ≤ 1 ∨ length ≤ chunkSize)
                           then ReadExactRange fsid offset length
                           else readConcurrent client fsid offset length chunkSize concurrency);
                    ret (match got with Ok _ => Ok tt | Err e => Err e end)
                end
            end
        end
    end.
End operations.
