(* ===== verification/RemoteInv.v ===== *)
(** * The remote reader under concurrent calls

    The invariant of the [Reader] (its caches and finished reads hold bytes of
    the remote files) and, for each method, that it keeps the invariant, owns
    the reads in flight it starts until it has published them, and returns the
    bytes asked for. *)
From S2P Require Import Prelude GoStrings GoErrors Goroutines ReadCache ReadCacheInv Remote.

Section remote.
(** The remote files, by fsid, and whether reads are sequential. *)
Context (content : string → bytes) (sequential : Prop).
Context (Hsize : ∀ fsid, zlen (content fsid) < 2 ^ 62).
Implicit Types (r : Reader) (fsid : string) (offset length : Z) (data : bytes).

(** [data] is what the file holds from [offset] on. *)
Definition part fsid offset data : Prop := data = slice (content fsid) offset (zlen data).
Definition prefix_part fsid offset length data : Prop := part fsid offset data ∧ zlen data ≤ length.
Definition exact fsid offset length data : Prop :=
  data = slice (content fsid) offset length ∧ zlen data = length.

(** A range whose end is an [int64]: the requests the reader makes. *)
Definition requested offset length : Prop := 0 ≤ offset ∧ 0 ≤ length ∧ offset + length < 2 ^ 63.
(** A read the client answers without an error is a prefix of the range. *)
Definition answers (q : request) (a : outcome) : Prop :=
  match q, a with
  | QReadRange _ fsid offset length, (data, None) => requested offset length → prefix_part fsid offset length data
  | _, _ => True
  end.

Record reader_wf (g : gmap nat cacheKey) r : Prop := {
  rw_cache : cache_wf r;
  rw_limit : 0 ≤ cacheLimit r;
  rw_content : ∀ k c, cached r !! k = Some c → 0 ≤ ck_offset k ∧ part (ck_fsid k) (ck_offset k) (cr_data c);
  rw_known : ∀ id, is_Some (g !! id) ↔ is_Some (r_objs r !! id);
  rw_fresh : ∀ id, is_Some (r_objs r !! id) → (id < r_next r)%nat;
  rw_inflight : ∀ k id, inflight r !! k = Some id → g !! id = Some k;
  rw_done : ∀ id k data, g !! id = Some k → r_objs r !! id = Some (Some (data, None)) →
    part (ck_fsid k) (ck_offset k) data;
  rw_client : is_Some (r_client r);
  rw_chunk : 0 < chunkSize r < 2 ^ 61;
  rw_sequential : sequential → concurrency r ≤ 1
}.

Abbreviation okr := (ok r_objs answers reader_wf).
Definition keeps {A} (own : gset nat) (P : A → Prop) (_ : gmap nat cacheKey) (own' : gset nat) (a : A) : Prop :=
  own' = own ∧ P a.

(** The range a call asks for. *)
Definition in_range offset length : Prop := 0 ≤ offset ∧ 0 ≤ length ∧ offset + length < 2 ^ 62.

(** ** Facts about slices *)
Lemma part_zlen fsid offset data : 0 ≤ offset → data ≠ [] → part fsid offset data →
  offset + zlen data ≤ zlen (content fsid).
Proof.
  intros H0 Hne Hp. pose proof (zlen_nonneg data). destruct (decide (zlen data = 0)) as [Hz|Hz].
  { by apply zlen_0 in Hz. }
  assert (zlen data = zlen (slice (content fsid) offset (zlen data))) as Hl by (by rewrite <- Hp).
  rewrite slice_length in Hl by done. lia.
Qed.

Lemma slice_zlen {A} (l : list A) off len : slice l off (zlen (slice l off len)) = slice l off len.
Proof.
  unfold slice, zlen. rewrite Nat2Z.id, length_take. apply list_eq. intros i.
  rewrite !lookup_take. repeat case_decide; try done; try lia.
  symmetry. apply lookup_ge_None. lia.
Qed.
Lemma part_slice fsid offset length : part fsid offset (slice (content fsid) offset length).
Proof. unfold part. by rewrite slice_zlen. Qed.

(** A sub-range of a part of the file. *)
Lemma part_sub fsid (w offset n : Z) data :
  0 ≤ w → w ≤ offset → 0 ≤ n → offset + n ≤ w + zlen data → part fsid w data →
  exact fsid offset n (slice data (offset - w) n).
Proof.
  intros H1 H2 H3 H4 Hp. split.
  - rewrite Hp at 1. rewrite slice_slice by lia. f_equal. lia.
  - rewrite slice_length by lia. lia.
Qed.

Lemma exact_part fsid offset length data : exact fsid offset length data → part fsid offset data.
Proof. intros [H1 H2]. unfold part. by rewrite H2. Qed.
Lemma exact_prefix fsid offset length data : exact fsid offset length data → prefix_part fsid offset length data.
Proof. intros H. split; [by eapply exact_part|]. destruct H as [_ ->]. done. Qed.
Lemma prefix_exact fsid offset length data :
  prefix_part fsid offset length data → length ≤ zlen data → exact fsid offset length data.
Proof. intros [Hp Hl] Hge. assert (zlen data = length) as <- by lia. done. Qed.

Lemma exact_app fsid offset length data rest :
  0 ≤ offset → prefix_part fsid offset length data →
  exact fsid (offset + zlen data) (length - zlen data) rest → exact fsid offset length (data ++ rest).
Proof.
  intros H0 [Hp Hl] [Hr Hrl]. pose proof (zlen_nonneg data). split; [|rewrite zlen_app; lia].
  rewrite Hp at 1. rewrite Hr. rewrite slice_app by lia. f_equal. lia.
Qed.

Lemma slice_prefix_full data n : 0 ≤ n → zlen data ≤ n → slice data 0 n = data.
Proof. intros. unfold slice, zlen in *. rewrite drop_0. apply take_ge. lia. Qed.

Lemma sliceForWindow_part fsid (w : Z) offset length data :
  0 ≤ w ≤ offset → in_range offset length → part fsid w data →
  prefix_part fsid offset length (sliceForWindow data w offset length).
Proof.
  intros Hw (H0 & Hl & Hr) Hp. pose proof (zlen_nonneg data). unfold sliceForWindow. cbv zeta.
  rewrite (w64_id (offset - w)) by (unfold in64; lia). rewrite (decide_False (P := offset - w < 0)) by lia.
  case_decide as Hpast.
  { split; [|rewrite zlen_nil; lia]. unfold part. rewrite zlen_nil. by rewrite slice_nil by lia. }
  rewrite w64_id by (unfold in64; lia).
  assert (∃ n, 0 ≤ n ≤ length ∧ offset + n ≤ w + zlen data ∧
    (if decide (zlen data < offset - w + length) then zlen data else offset - w + length) - (offset - w) = n)
    as (n & Hn & Hle & ->).
  { case_decide; [exists (zlen data - (offset - w))|exists length]; lia. }
  pose proof (part_sub fsid w offset n data ltac:(lia) ltac:(lia) ltac:(lia) ltac:(lia) Hp) as He.
  split; [by eapply exact_part|]. destruct He as [_ He]. lia.
Qed.

(** ** Rules for the programs *)
Abbreviation post_of A := (gmap nat cacheKey → gset nat → A → Prop) (only parsing).

(** Sequencing after a program that leaves the ownership alone. *)
Lemma ok_then {A B} (p : rprog A) (k : A → rprog B) K own P (post : post_of B) :
  okr K own p (keeps own P) →
  (∀ K' a, K ⊆ K' → P a → okr K' own (k a) post) →
  okr K own (p ≫= k) post.
Proof.
  intros Hp Hk. eapply ok_bind; [exact Hp|].
  intros K' own' a HK [-> HP]. by apply Hk.
Qed.

(** A critical section that starts and ends no read. *)
Lemma ok_crit {A} (f : env → Reader → A * Reader) K own (P : A → Prop) :
  (∀ e r g, reader_wf g r → K ⊆ g →
     reader_wf g (f e r).2 ∧ r_objs (f e r).2 = r_objs r ∧ P (f e r).1) →
  okr K own (crit f) (keeps own P).
Proof.
  intros H e r g Hi HK Ho. destruct (H e r g Hi HK) as (H1 & H2 & H3).
  exists g, own. split_and!; [done|done| |by intros K' _].
  pose proof (moves_refl r_objs r own Ho) as [M1 M2]. split; unfold is_pending in *; rewrite ?H2; done.
Qed.
Lemma ok_query {A} (f : env → Reader → A) K own (P : A → Prop) :
  (∀ e r g, reader_wf g r → K ⊆ g → P (f e r)) →
  okr K own (crit (λ e r, (f e r, r))) (keeps own P).
Proof. intros H. apply ok_crit. intros e r g Hi HK. split_and!; [done|done|]. by eapply H. Qed.

Lemma ok_ret {A} (a : A) K own (P : A → Prop) : P a → okr K own (ret a) (keeps own P).
Proof. intros H K' _. done. Qed.

(** The fields each part of the invariant reads. *)
Definition rest_view r := (inflight r, r_objs r, r_next r, r_client r, chunkSize r, concurrency r).

Lemma reader_wf_cache g r r' :
  reader_wf g r → rest_view r' = rest_view r → cacheLimit r' = cacheLimit r → cache_wf r' →
  (∀ k c, cached r' !! k = Some c → 0 ≤ ck_offset k ∧ part (ck_fsid k) (ck_offset k) (cr_data c)) →
  reader_wf g r'.
Proof.
  unfold rest_view. intros [] [= H1 H2 H3 H4 H5 H6] Hl Hc Hp.
  split; rewrite ?H1, ?H2, ?H3, ?H4, ?H5, ?H6, ?Hl; done.
Qed.

Lemma cache_wf_view r r' :
  cache_view r' = cache_view r → cacheLimit r' = cacheLimit r → cache_wf r → cache_wf r'.
Proof.
  intros Hv Hl [Hp Hb]. split; [by eapply cache_pre_view|]. injection Hv as _ _ _ ->. by rewrite Hl.
Qed.

Lemma storeCached_view fsid offset data r :
  rest_view (storeCachedLocked fsid offset data r) = rest_view r.
Proof.
  assert (∀ k r, rest_view (removeCachedKeyLocked k r) = rest_view r) as Hrem.
  { intros k r0. unfold removeCachedKeyLocked. destruct (cached r0 !! k); [|done]. cbn.
    by destruct (cacheByFSID r0 !! ck_fsid k). }
  assert (∀ o r, rest_view (evict_reads o r) = rest_view r) as Hev.
  { induction o as [|k o IH]; intros r0; cbn [evict_reads]; [done|]. case_decide; [|done].
    rewrite IH, Hrem. done. }
  unfold storeCachedLocked. case_decide; [done|]. rewrite Hev.
  destruct (cached r !! mkCacheKey fsid offset); [|done].
  exact (Hrem (mkCacheKey fsid offset) r).
Qed.

(** ** Each critical section *)
Lemma readCached_ok K own fsid offset length :
  in_range offset length →
  okr K own (readCached fsid offset length)
    (keeps own (λ hit, ∀ data, hit = Some data → exact fsid offset length data)).
Proof.
  intros (H0 & Hl & Hr). apply ok_crit. intros e r g Hi _.
  pose proof (readCached_spec (e_first e) fsid offset length r (rw_cache _ _ Hi)) as H.
  destruct (readCachedLocked (e_first e) fsid offset length r) as [hit r'].
  destruct H as (Hwf & Heq & Hhit). cbn [fst snd]. split_and!.
  - rewrite Heq in Hwf |- *. by apply (reader_wf_cache g r); [..|apply Hi].
  - by rewrite Heq.
  - intros data Hd. destruct (Hhit data Hd) as (k & c & <- & Hc & Hs & ->).
    destruct (rw_content _ _ Hi _ _ Hc) as [Hk Hp].
    destruct (cp_key _ (proj1 (rw_cache _ _ Hi)) _ _ Hc) as (_ & Ho & Hne).
    pose proof (part_zlen _ _ _ Hk Hne Hp) as Hend. pose proof (Hsize (ck_fsid k)).
    unfold serves, size_of in Hs. rewrite !andb_true_iff, negb_true_iff, orb_false_iff in Hs.
    destruct Hs as [[_ Hs1] Hs2]. apply bool_decide_eq_false in Hs1. apply bool_decide_eq_true in Hs2.
    pose proof (zlen_nonneg (cr_data c)). rewrite Ho in *.
    rewrite !w64_id in Hs2 by (unfold in64; lia). rewrite w64_id by (unfold in64; lia).
    apply part_sub; lia || done.
Qed.

Lemma storeCached_ok K own fsid offset data :
  0 ≤ offset → part fsid offset data → okr K own (storeCached fsid offset data) (keeps own (λ _, True)).
Proof.
  intros H0 Hp. apply ok_crit. intros e r g Hi _. cbn [fst snd].
  destruct (storeCached_spec fsid offset data r (rw_cache _ _ Hi)) as (Hwf & Hl & Hc & _).
  pose proof (storeCached_view fsid offset data r) as Hv. split_and!; [|by injection Hv|done].
  apply (reader_wf_cache g r); [done|done|done|done|].
  intros k c Hk. destruct (Hc k c Hk) as [(-> & -> & _)|Hold]; [done|by apply Hi].
Qed.

Lemma getDownloadLink_ok K own fsid :
  okr K own (getDownloadLink fsid) (keeps own (λ _, True)).
Proof.
  apply ok_crit. intros e r g Hi _. unfold downloadLink.
  assert (∀ fs l, reader_wf g (r <| links ::= <[fs := l]> |>)) as Hset.
  { intros fs l. apply (reader_wf_cache g r); [done|done|done| |apply Hi].
    apply (cache_wf_view r); [done|done|apply Hi]. }
  destruct (links r !! fsid) as [c|]; [case_decide; [done|]|]; destruct (e_link e); cbn;
    split_and!; first [done | apply Hset].
Qed.

Lemma client_ok K own : okr K own currentClient (keeps own is_Some).
Proof. apply ok_query. intros e r g Hi _. apply Hi. Qed.
Lemma ctxErr_ok K own : okr K own ctxErr (keeps own (λ _, True)).
Proof. by apply ok_query. Qed.

Lemma refresh_ok K own client e : okr K own (refreshIfAuth client e) (keeps own (λ _, True)).
Proof. unfold refreshIfAuth. case_decide; [|by apply ok_ret]. intros a _. by apply ok_ret. Qed.

Lemma InvalidateDownloadLink_ok K own fsid :
  okr K own (InvalidateDownloadLink fsid) (keeps own (λ _, True)).
Proof.
  unfold InvalidateDownloadLink. case_decide; [by apply ok_ret|].
  eapply (ok_then _ _ _ _ (λ _, True)).
  - apply ok_crit. intros e r g Hi _. cbn. split_and!; [|done..].
    apply (reader_wf_cache g r); [done|done|done| |apply Hi].
    apply (cache_wf_view r); [done|done|apply Hi].
  - intros K1 [client|] _ _; [|by apply ok_ret]. intros a _. by apply ok_ret.
Qed.

Lemma in_range_requested offset length : in_range offset length → requested offset length.
Proof. unfold in_range, requested. lia. Qed.
Lemma check_full_Ok full client fsid offset length a data :
  requested offset length → answers (QReadRange client fsid offset length) a → check_full full offset length a = (data, None) →
  prefix_part fsid offset length data ∧ (full ≠ None → zlen data = length).
Proof.
  intros Hq. destruct a as [d [e|]]; cbn; [by destruct full|]. intros Hp%(λ H, H Hq). destruct full as [what|].
  - case_decide; intros [= ->]. done.
  - intros [= ->]. done.
Qed.

Lemma fetch_ok tries full client fsid offset length lastErr K own :
  requested offset length → (tries = O → lastErr ≠ None) →
  okr K own (fetch tries full client fsid offset length lastErr)
    (keeps own (λ got, ∀ data, got = Ok data →
       prefix_part fsid offset length data ∧ (full ≠ None → zlen data = length))).
Proof.
  intros Hq. revert lastErr K. induction tries as [|tries IH]; intros lastErr K Hlast; cbn [fetch].
  { apply ok_ret. destruct lastErr; [done|]. by destruct Hlast. }
  intros a Ha. destruct (check_full full offset length a) as [data [e|]] eqn:Hc.
  - eapply ok_then; [apply ctxErr_ok|]. intros K1 [c|] _ _; [by apply ok_ret|].
    eapply ok_then; [apply refresh_ok|]. intros K2 _ _ _. by apply IH.
  - apply ok_ret. intros data' [= <-]. by apply (check_full_Ok full client fsid offset length a data).
Qed.

(** ** Reads in flight *)
Definition known (K : gmap nat cacheKey) (id : nat) fsid (w : Z) : Prop :=
  K !! id = Some (mkCacheKey fsid w).

Lemma await_ok K id fsid (w : Z) offset length :
  0 ≤ w ≤ offset → in_range offset length → known K id fsid w →
  okr K ∅ (awaitInflight id w offset length)
    (keeps ∅ (λ got, ∀ data, got = Ok data → prefix_part fsid offset length data)).
Proof.
  intros Hw Hr Hk. split_and!; [done|by eexists| |intros x; by apply ok_ret].
  intros r g [data err] Hi HK Hd. apply ok_ret. destruct err as [e|]; [done|].
  intros data' [= <-]. apply (sliceForWindow_part fsid w); [done|done|].
  apply (rw_done _ _ Hi id (mkCacheKey fsid w)); [by eapply lookup_weaken|done].
Qed.

Lemma waitInflight_ok K fsid (w : Z) offset length :
  0 ≤ w ≤ offset → in_range offset length →
  okr K ∅ (waitInflight fsid w offset length)
    (keeps ∅ (λ got, ∀ data, got = Some (Ok data) → prefix_part fsid offset length data)).
Proof.
  intros Hw Hr. apply ok_bind with (post1 := λ K' own' (found : option nat),
    own' = ∅ ∧ ∀ id, found = Some id → known K' id fsid w).
  - intros e r g Hi HK Ho. exists g, ∅. split_and!; [done|done|by apply moves_refl|].
    intros K' HK'. split; [done|]. intros id Hid. eapply lookup_weaken; [|exact HK'].
    apply (rw_inflight _ _ Hi). exact Hid.
  - intros K' own' found HK' [-> Hf]. destruct found as [id|]; [|by apply ok_ret].
    eapply ok_then; [apply (await_ok K' id fsid); [done|done|by apply Hf]|]. intros K2 got _ Hgot. apply ok_ret.
    intros data [= ->]. by apply Hgot.
Qed.

Lemma begin_ok K fsid (w : Z) :
  okr K ∅ (begin fsid w)
    (λ K' own' a, known K' a.1 fsid w ∧ own' = if (a.2 : bool) then {[a.1]} else ∅).
Proof.
  intros e r g Hi HK Ho. unfold beginInflight.
  destruct (inflight r !! mkCacheKey fsid w) as [id|] eqn:Hf; cbn [fst snd].
  - exists g, ∅. split_and!; [done|done|by apply moves_refl|]. intros K' HK'. split; [|done].
    eapply lookup_weaken; [|exact HK']. by apply (rw_inflight _ _ Hi).
  - set (id := r_next r).
    assert (r_objs r !! id = None) as Hnone.
    { apply eq_None_not_Some. intros Hs. pose proof (rw_fresh _ _ Hi _ Hs). unfold id in *. lia. }
    assert (g !! id = None) as Hg by (apply eq_None_not_Some; rewrite (rw_known _ _ Hi), Hnone; by intros [? ?]).
    exists (<[id := mkCacheKey fsid w]> g), {[id]}. split_and!.
    + destruct Hi as [I1 I2 I3 I4 I5 I6 I7 I8 I9 I10].
      split; cbn [cached cacheLimit inflight r_objs r_next r_client chunkSize concurrency set_field];
        [|done|done| | | | |done|done|done].
      * apply (cache_wf_view r); done.
      * intros i. rewrite !lookup_insert. case_decide; [|apply I4]. split; by eexists.
      * intros i. rewrite lookup_insert. case_decide as Hi; [unfold id in Hi; lia|].
        intros Hs. specialize (I5 i Hs). lia.
      * intros k i. rewrite lookup_insert_Some. intros [[<- <-]|[_ Hk]]; [by rewrite lookup_insert_eq|].
        rewrite lookup_insert_ne; [by apply I6|]. intros <-. apply I6 in Hk. congruence.
      * intros i k data. rewrite !lookup_insert. case_decide; [done|]. apply I7.
    + by apply insert_subseteq.
    + split; unfold is_pending; cbn.
      * intros i. rewrite lookup_insert, elem_of_singleton. case_decide as Hi'; [subst i|].
        -- split; [by right|done].
        -- split; [intros ?; left; split; [done|set_solver]|]. intros [[? _]|?]; congruence.
      * intros i ->%elem_of_singleton. right. by rewrite Hnone.
    + intros K' HK'. split; [|done]. eapply lookup_weaken; [|exact HK']. apply lookup_insert_eq.
Qed.

(** The owner publishes what it read. *)
Lemma finish_ok K id fsid (w : Z) data err :
  known K id fsid w → (err = None → part fsid w data) →
  okr K {[id]} (finish fsid w id data err) (keeps ∅ (λ _, True)).
Proof.
  intros Hk Hp e r g Hi HK Ho. cbn [fst snd]. exists g, ∅.
  assert (g !! id = Some (mkCacheKey fsid w)) as Hg by (by eapply lookup_weaken).
  assert (is_pending r_objs r id) as Hpend by (apply Ho; set_solver).
  assert (∃ r', finishInflight fsid w id data err r = r' ∧ cache_view r' = cache_view r ∧
    (cacheLimit r', r_next r', r_client r', chunkSize r', concurrency r')
    = (cacheLimit r, r_next r, r_client r, chunkSize r, concurrency r) ∧
    r_objs r' = <[id := Some (data, err)]> (r_objs r) ∧
    ∀ k i, inflight r' !! k = Some i → inflight r !! k = Some i) as (r' & -> & Hv & Hrest & Ho' & Hin).
  { eexists. split; [reflexivity|]. unfold finishInflight. case_decide; split_and!; try done.
    intros k i. cbn. by intros [_ ?]%lookup_delete_Some. }
  injection Hrest as E1 E2 E3 E4 E5. split_and!; [|done| |by intros K' _].
  - destruct Hi as [I1 I2 I3 I4 I5 I6 I7 I8 I9 I10]. split; rewrite ?E1, ?E2, ?E3, ?E4, ?E5; try done.
    + by apply (cache_wf_view r).
    + injection Hv as -> _ _ _. done.
    + intros i. rewrite Ho', lookup_insert. case_decide; [subst i|done]. rewrite Hg. split; by eexists.
    + intros i. rewrite Ho', lookup_insert. case_decide; [subst i|by apply I5]. intros _.
      apply I5. unfold is_pending in Hpend. by rewrite Hpend.
    + intros k i Hki. by apply I6, Hin.
    + intros i k d Hi' Hd. rewrite Ho', lookup_insert in Hd. case_decide; [subst i|by eapply I7].
      assert (k = mkCacheKey fsid w) as -> by congruence. injection Hd as -> ->. by apply Hp.
  - split; unfold is_pending; rewrite ?Ho'.
    + intros i. rewrite lookup_insert, elem_of_empty, elem_of_singleton. case_decide as Hi'; [subst i|].
      * split; [done|]. intros [[_ ?]|?]; done.
      * split; [intros ?; left; split; [done|congruence]|]. intros [[? _]|?]; done.
    + set_solver.
Qed.

(** ** One window *)
Lemma readWindow_ok full client fsid (w n : Z) offset length answer K (P : bytes → Prop) :
  0 ≤ w ≤ offset → in_range offset length → requested w n →
  (∀ data, exact fsid offset length data → P data) →
  (∀ data, prefix_part fsid offset length data → P data) →
  (∀ data, prefix_part fsid w n data → (full ≠ None → zlen data = n) → P (answer data)) →
  okr K ∅ (readWindow full client fsid w n offset length answer)
    (keeps ∅ (λ got, ∀ data, got = Ok data → P data)).
Proof.
  intros Hw Hr Hq He Hpre Hans. unfold readWindow.
  eapply ok_then; [by apply readCached_ok|]. intros K1 [data|] _ Hhit.
  { apply ok_ret. intros data' [= <-]. by apply He, Hhit. }
  eapply ok_then; [by apply waitInflight_ok|]. intros K2 [got|] _ Hgot.
  { apply ok_ret. intros data ->. by apply Hpre, Hgot. }
  eapply ok_bind; [apply begin_ok|]. intros K3 own [id owner] _ [Hk ->]. cbn [fst snd] in *.
  destruct owner; cycle 1.
  { eapply ok_mono; [| |by apply (await_ok K3 id fsid w)]; [done|].
    intros K' own' got [-> Hg]. split; [done|]. intros data ->. by apply Hpre, Hg. }
  eapply ok_then; [by apply fetch_ok|]. intros K4 [data|e] HK4 Hdata.
  - destruct (Hdata data eq_refl) as [Hp Hf].
    eapply ok_bind; [apply (finish_ok K4 id fsid w)|].
    + by eapply lookup_weaken.
    + intros _. apply Hp.
    + intros K5 own' _ _ [-> _]. eapply ok_then; [apply storeCached_ok; [lia|apply Hp]|].
      intros K6 _ _ _. apply ok_ret. intros data' [= <-]. by apply Hans.
  - eapply ok_bind; [apply (finish_ok K4 id fsid w)|].
    + by eapply lookup_weaken.
    + done.
    + intros K5 own' _ _ [-> _]. by apply ok_ret.
Qed.

Lemma alignOffset_range offset (size : Z) : 0 ≤ offset → 0 ≤ alignOffset offset size ≤ offset.
Proof.
  intros H. unfold alignOffset. case_decide; [lia|].
  rewrite Z.quot_div_nonneg by lia. pose proof (Z.div_mod offset size ltac:(lia)).
  pose proof (Z.mod_pos_bound offset size ltac:(lia)). pose proof (Z.div_pos offset size ltac:(lia) ltac:(lia)).
  nia.
Qed.

Definition okay {A} (P : bytes → Prop) (wrap : reply → A) (a : A) : Prop :=
  ∀ data, a = wrap (Ok data) → P data.

Lemma windowLength_range length (cs : Z) :
  0 ≤ length < 2 ^ 62 → cs < 2 ^ 61 → 0 ≤ windowLength length cs < 2 ^ 62.
Proof. intros Hl Hcs. unfold windowLength, prefetchBytes. cbv zeta. repeat case_decide; lia. Qed.
Lemma readSequential_ok K client fsid offset length (cs : Z) :
  in_range offset length → cs < 2 ^ 61 →
  okr K ∅ (readSequential client fsid offset length cs)
    (keeps ∅ (λ got, ∀ data, got = Ok data → prefix_part fsid offset length data)).
Proof.
  intros Hr Hcs. pose proof Hr as (H0 & Hl & Hmax).
  pose proof (alignOffset_range offset (windowLength length cs) H0).
  pose proof (windowLength_range length cs ltac:(lia) Hcs).
  apply readWindow_ok; [done|done|unfold requested; lia|apply exact_prefix|done|].
  intros data Hp _. by apply (sliceForWindow_part fsid); [..|apply Hp].
Qed.
Lemma readChunk_ok K client fsid offset length :
  in_range offset length →
  okr K ∅ (readChunk client fsid offset length)
    (keeps ∅ (λ got, ∀ data, got = Ok data → prefix_part fsid offset length data)).
Proof.
  intros Hr. assert (0 ≤ offset) as H0 by apply Hr.
  apply readWindow_ok; [lia|done|by apply in_range_requested|apply exact_prefix|done|done].
Qed.

(** ** Concurrent chunks *)
Lemma zlen_zeros n : 0 ≤ n → zlen (zeros n) = n.
Proof. intros H. unfold zlen, zeros. rewrite length_replicate. lia. Qed.
Lemma copy_into_zlen n chunk : 0 ≤ n → zlen (copy_into n chunk) = n.
Proof.
  intros H. unfold copy_into. rewrite zlen_app. unfold zeros, zlen.
  rewrite length_take, length_replicate. lia.
Qed.
Lemma piece_length_min length (cs : Z) i :
  piece_length length cs i = Z.min length (Z.of_nat i * cs + cs) - Z.of_nat i * cs.
Proof. unfold piece_length. cbv zeta. case_decide; lia. Qed.
Lemma assembled_zlen length (cs : Z) rs :
  0 < cs → (Z.of_nat (List.length rs) - 1) * cs < length →
  zlen (assembled length cs rs) = Z.min length (Z.of_nat (List.length rs) * cs) ∨ rs = [].
Proof.
  intros Hcs. induction rs as [|r rs IH] using rev_ind; [by right|]. intros Hlt. left.
  rewrite length_app in *. cbn [List.length] in *. unfold assembled in *.
  rewrite imap_app, concat_app, zlen_app. cbn [imap concat]. rewrite app_nil_r, Nat.add_0_r.
  assert ((Z.of_nat (List.length rs)) * cs < length) as Hlt' by lia.
  rewrite piece_length_min, copy_into_zlen, Nat2Z.inj_add, Z.mul_add_distr_r by lia.
  change (Z.of_nat 1) with 1. rewrite Z.mul_1_l.
  destruct (IH ltac:(lia)) as [Hn| ->]; [rewrite Hn; lia|].
  cbn [imap concat List.length Z.of_nat]. rewrite zlen_nil. lia.
Qed.

Lemma joined_zlen length (cs : Z) rs e data :
  0 < cs → 0 < length → Z.of_nat (List.length rs) = Z.quot (length + cs - 1) cs →
  joined length cs rs e = Ok data → zlen data = length.
Proof.
  intros Hcs Hl Hn. unfold joined. destruct (errors_of rs); [|done]. destruct (e_ctx e); [done|].
  case_decide; [done|]. intros [= <-]. rewrite Z.quot_div_nonneg in Hn by lia.
  pose proof (Z.div_mod (length + cs - 1) cs ltac:(lia)).
  pose proof (Z.mod_pos_bound (length + cs - 1) cs ltac:(lia)).
  destruct (assembled_zlen length cs rs Hcs) as [->| ->]; [nia|nia|].
  cbn in Hn. assert (1 ≤ (length + cs - 1) / cs) by (apply Z.div_le_lower_bound; lia). lia.
Qed.

Lemma readConcurrent_ok K client fsid offset length (cs c : Z) :
  in_range offset length → 0 < cs < 2 ^ 61 →
  okr K ∅ (readConcurrent client fsid offset length cs c)
    (keeps ∅ (λ got, ∀ data, got = Ok data → zlen data = length ∨ prefix_part fsid offset length data)).
Proof.
  intros Hr Hcs. pose proof Hr as (H0 & Hl & Hmax). unfold readConcurrent. case_decide as Hz.
  { apply ok_ret. intros data [= <-]. left. rewrite zlen_nil. lia. }
  cbv zeta. rewrite (decide_False (P := cs ≤ 0)) by lia.
  rewrite !w64_id by (unfold in64; rewrite ?w64_id; unfold in64; lia).
  case_decide as Htotal.
  { eapply ok_mono; [done| |apply readSequential_ok; [done|lia]]. intros K' own' got [-> Hg]. split; [done|].
    intros data ->. right. by apply Hg. }
  exists (λ _, ∅), (λ _ _, True). split_and!.
  - intros id. split; [set_solver|]. intros (i & _ & Hid). by apply not_elem_of_empty in Hid.
  - set_solver.
  - intros i Hi. unfold chunkJob. eapply ok_then; [by apply (ok_query (λ e _, e_skip e) _ _ (λ _, True))|].
    intros K1 [|] _ _; [by apply ok_ret|].
    eapply ok_then; [apply readChunk_ok|intros K2 got _ _; by apply ok_ret].
    assert (Z.of_nat i * cs < length).
    { rewrite Z.quot_div_nonneg in Hi by lia.
      pose proof (Z.div_mod (length + cs - 1) cs ltac:(lia)).
      pose proof (Z.mod_pos_bound (length + cs - 1) cs ltac:(lia)). nia. }
    unfold in_range. rewrite piece_length_min. nia.
  - intros rs Hlen _. eapply ok_mono; [done| |apply (ok_query (λ e _, joined length cs rs e) K ∅
      (λ got, ∀ data, got = Ok data → zlen data = length))].
    + intros K' own' got [-> Hg]. split; [done|]. intros data ->. left. by apply Hg.
    + intros e r g _ _ data. apply joined_zlen; [lia|lia|]. rewrite Hlen, Z2Nat.id; [done|].
      lia.
Qed.

(** ** The methods *)
Lemma settings_ok K own :
  okr K own (crit (λ _ r, ((concurrency r, chunkSize r), r)))
    (keeps own (λ a, 0 < a.2 < 2 ^ 61 ∧ (sequential → a.1 ≤ 1))).
Proof. apply ok_query. intros e r g Hi _. split; apply Hi. Qed.

Lemma readWithOptions_ok K client fsid offset length :
  in_range offset length →
  okr K ∅ (readWithOptions client fsid offset length)
    (keeps ∅ (λ got, ∀ data, got = Ok data →
       (zlen data = length ∧ ¬ sequential) ∨ prefix_part fsid offset length data)).
Proof.
  intros Hr. eapply ok_then; [apply settings_ok|]. intros K1 [c cs] _ [Hcs Hseq]. cbn [fst snd] in *.
  case_decide.
  - eapply ok_mono; [done| |apply readSequential_ok; [done|lia]]. intros K' own' got [-> Hg]. split; [done|].
    intros data ->. right. by apply Hg.
  - eapply ok_mono; [done| |by apply readConcurrent_ok]. intros K' own' got [-> Hg]. split; [done|].
    intros data ->. destruct (Hg data eq_refl); [left|by right]. split; [done|]. intros Hs.
    specialize (Hseq Hs). lia.
Qed.

Lemma ReadExactRange_ok K fsid offset length :
  in_range offset length →
  okr K ∅ (ReadExactRange fsid offset length)
    (keeps ∅ (λ got, ∀ data, got = Ok data → exact fsid offset length data)).
Proof.
  intros Hr. unfold ReadExactRange. case_decide; [by apply ok_ret|]. case_decide; [by apply ok_ret|].
  eapply ok_then; [apply client_ok|]. intros K1 client _ [c ->].
  eapply ok_then; [apply getDownloadLink_ok|]. intros K2 [l|e] _ _; [|by apply ok_ret].
  eapply ok_then; [by apply readCached_ok|]. intros K3 [data|] _ Hhit.
  { apply ok_ret. intros data' [= <-]. by apply Hhit. }
  eapply ok_then; [apply fetch_ok; [by apply in_range_requested|done]|]. intros K4 [data|e] _ Hd; [|by apply ok_ret].
  destruct (Hd data eq_refl) as [Hp Hf]. specialize (Hf ltac:(done)).
  eapply ok_then; [apply storeCached_ok; [apply Hr|apply Hp]|]. intros K5 _ _ _. apply ok_ret.
  intros data' [= <-]. apply (prefix_exact _ _ _ _ Hp). lia.
Qed.

Lemma ReadStreamRange_ok K fsid offset length :
  in_range offset length → okr K ∅ (ReadStreamRange fsid offset length)
    (keeps ∅ (λ got, ∀ data, got = Ok data → exact fsid offset length data)).
Proof.
  intros Hr. unfold ReadStreamRange. case_decide; [by apply ok_ret|]. case_decide; [by apply ok_ret|].
  eapply ok_then; [apply client_ok|]. intros K1 client _ [c ->]. intros a Ha.
  destruct (check_full _ offset length a) as [data [e|]] eqn:Hc.
  - eapply ok_then; [apply refresh_ok|]. intros K2 _ _ _. by apply ok_ret.
  - apply ok_ret. intros data' [= <-].
    destruct (check_full_Ok _ c fsid offset length a data (in_range_requested _ _ Hr) Ha Hc) as [Hp Hf].
    apply (prefix_exact _ _ _ _ Hp). specialize (Hf ltac:(done)). lia.
Qed.

Lemma ReadRange_ok K fsid offset length :
  in_range offset length →
  okr K ∅ (ReadRange fsid offset length)
    (keeps ∅ (λ got, ∀ data, got = Ok data →
       zlen data = length ∧ (sequential → exact fsid offset length data))).
Proof.
  intros Hr. unfold ReadRange. case_decide; [by apply ok_ret|]. case_decide; [by apply ok_ret|].
  eapply ok_then; [apply client_ok|]. intros K1 client _ [c ->].
  eapply ok_then; [apply getDownloadLink_ok|]. intros K2 [l|e] _ _; [|by apply ok_ret].
  eapply ok_then; [by apply readCached_ok|]. intros K3 [data|] _ Hhit.
  { apply ok_ret. intros data' [= <-]. pose proof (Hhit data eq_refl) as He. split; [apply He|done]. }
  eapply ok_then; [by apply readWithOptions_ok|]. intros K4 [data|e] _ Hd; [|by apply ok_ret].
  specialize (Hd data eq_refl). pose proof (zlen_nonneg data). case_decide as Hlen.
  { apply ok_ret. intros data' [= <-]. destruct Hd as [[Hz Hn]|Hp]; [done|].
    pose proof (prefix_exact _ _ _ _ Hp Hlen) as He. split; [apply He|done]. }
  destruct Hd as [[Hz _]|Hp]; [lia|]. destruct Hr as (Hr0 & Hl & Hmax).
  rewrite w64_id by (unfold in64; lia).
  eapply ok_then; [apply ReadExactRange_ok; split_and!; lia|]. intros K5 [rest|e] _ Hrest; [|by apply ok_ret].
  pose proof (exact_app fsid offset length data rest Hr0 Hp (Hrest rest eq_refl)) as He.
  case_decide; apply ok_ret; [|done]. intros data' [= <-]. split; [apply He|done].
Qed.

Lemma Prefetch_ok K fsid offset length :
  in_range offset length → okr K ∅ (Prefetch fsid offset length) (keeps ∅ (λ _, True)).
Proof.
  intros Hr. unfold Prefetch. case_decide; [by apply ok_ret|]. case_decide; [by apply ok_ret|].
  case_decide; [by apply ok_ret|].
  eapply ok_then; [apply ctxErr_ok|]. intros K1 [e|] _ _; [by apply ok_ret|].
  eapply ok_then; [apply client_ok|]. intros K2 client _ [c ->].
  eapply ok_then; [apply getDownloadLink_ok|]. intros K3 [l|e] _ _; [|by apply ok_ret].
  eapply ok_then; [by apply readCached_ok|]. intros K4 [data|] _ _; [by apply ok_ret|].
  eapply ok_then; [apply settings_ok|]. intros K5 [conc cs] _ [Hcs _]. cbn [fst snd] in *.
  case_decide.
  - eapply ok_then; [by apply ReadExactRange_ok|]. intros K6 got _ _. by apply ok_ret.
  - eapply ok_then; [by apply readConcurrent_ok|]. intros K6 got _ _. by apply ok_ret.
Qed.

(** ** All of the reader's calls *)
Inductive call :=
| CReadRange fsid offset length | CReadExactRange fsid offset length
| CReadStreamRange fsid offset length | CPrefetch fsid offset length
| CReadCachedWindow fsid offset length | CInvalidateDownloadLink fsid
| CSetDownloadOptions (concurrency chunkSize : Z) | CSetClient (client : nat) | CClearReadCache.

Definition done_with (f : Reader → Reader) : rprog reply := _ ← update f; ret (Ok []).
Definition notCached : goError := errors_New "not cached".

Definition run_call (c : call) : rprog reply :=
  match c with
  | CReadRange fsid offset length => ReadRange fsid offset length
  | CReadExactRange fsid offset length => ReadExactRange fsid offset length
  | CReadStreamRange fsid offset length => ReadStreamRange fsid offset length
  | CPrefetch fsid offset length =>
      got ← Prefetch fsid offset length;
      ret (match got with Ok _ => Ok [] | Err e => Err e end)
  | CReadCachedWindow fsid offset length =>
      hit ← crit (λ e, ReadCachedWindow (e_first e) fsid offset length);
      ret (match hit with Some data => Ok data | None => Err notCached end)
  | CInvalidateDownloadLink fsid => (_ ← InvalidateDownloadLink fsid; ret (Ok []))
  | CSetDownloadOptions c cs => done_with (SetDownloadOptions c cs)
  | CSetClient client => done_with (SetClient (Some client))
  | CClearReadCache => done_with (λ r, (ClearReadCache r).2)
  end.

(** Arguments in range. *)
Definition call_ok (c : call) : Prop :=
  match c with
  | CReadRange _ offset length | CReadExactRange _ offset length | CReadStreamRange _ offset length
  | CPrefetch _ offset length | CReadCachedWindow _ offset length => in_range offset length
  | CSetDownloadOptions c cs => cs < 2 ^ 61 ∧ (sequential → c ≤ 1)
  | _ => True
  end.
(** What a call that succeeds returns. *)
Definition call_right (c : call) (got : reply) : Prop :=
  match c, got with
  | CReadRange fsid offset length, Ok data =>
      zlen data = length ∧ (sequential → exact fsid offset length data)
  | CReadExactRange fsid offset length, Ok data | CReadStreamRange fsid offset length, Ok data
  | CReadCachedWindow fsid offset length, Ok data => exact fsid offset length data
  | _, _ => True
  end.

Lemma done_with_ok f K (P : reply → Prop) :
  (∀ r g, reader_wf g r → reader_wf g (f r) ∧ r_objs (f r) = r_objs r) → P (Ok []) →
  okr K ∅ (done_with f) (keeps ∅ P).
Proof.
  intros Hf HP. eapply ok_then; [apply (ok_crit _ K ∅ (λ _, True))|intros K' _ _ _; by apply ok_ret].
  intros e r g Hi _. cbn. destruct (Hf r g Hi). done.
Qed.

Lemma reader_wf_cleared g r r' :
  reader_wf g r → (∀ k id, inflight r' !! k = Some id → inflight r !! k = Some id) →
  (r_objs r', r_next r') = (r_objs r, r_next r) → is_Some (r_client r') →
  0 < chunkSize r' < 2 ^ 61 → (sequential → concurrency r' ≤ 1) →
  cached r' = ∅ → cache_wf r' → 0 ≤ cacheLimit r' → reader_wf g r'.
Proof.
  intros [I1 I2 I3 I4 I5 I6 I7 I8 I9 I10] Hin [= E1 E2] Hc Hcs Hq He Hwf Hl.
  split; rewrite ?E1, ?E2; try done.
  - intros k c. by rewrite He, lookup_empty.
  - intros k id Hk. by apply I6, Hin.
Qed.

Lemma call_safe K c : call_ok c → okr K ∅ (run_call c) (keeps ∅ (call_right c)).
Proof.
  destruct c as [f o l|f o l|f o l|f o l|f o l|f|c cs|cl|]; cbn [call_ok run_call]; intros Hr.
  - eapply ok_mono; [done| |by apply ReadRange_ok]. intros K' own [d|e] [-> H]; split; try done. by apply H.
  - eapply ok_mono; [done| |by apply ReadExactRange_ok]. intros K' own [d|e] [-> H]; split; try done. by apply H.
  - eapply ok_mono; [done| |by apply ReadStreamRange_ok]. intros K' own [d|e] [-> H]; split; try done. by apply H.
  - eapply ok_then; [by apply Prefetch_ok|]. intros K1 got _ _. by apply ok_ret.
  - eapply (ok_then _ _ _ _ (λ hit, ∀ data, hit = Some data → exact f o l data)).
    + unfold ReadCachedWindow. destruct (decide (l ≤ 0)); [by apply ok_query|]. by apply readCached_ok.
    + intros K1 [d|] _ Hd; apply ok_ret; [by apply Hd|done].
  - eapply ok_then; [apply InvalidateDownloadLink_ok|]. intros K1 [] _ _. by apply ok_ret.
  - apply done_with_ok; [|done]. intros r g Hi. split; [|done].
    apply (reader_wf_cleared g r); cbn; try done; try apply Hi.
    + repeat case_decide; lia.
    + intros Hs. destruct Hr as [_ Hr]. specialize (Hr Hs). case_decide; lia.
    + apply (cache_wf_view (clearCachedReadsLocked r)); [done|done|]. apply clear_wf, Hi.
  - apply done_with_ok; [|done]. intros r g Hi. split; [|done].
    apply (reader_wf_cleared g r); cbn; try done; try apply Hi.
    apply (cache_wf_view (clearCachedReadsLocked r)); [done|done|]. apply clear_wf, Hi.
  - apply done_with_ok; [|done]. intros r g Hi. split; [|done].
    apply (reader_wf_cleared g r); cbn; try done; try apply Hi. apply clear_wf. apply Hi.
Qed.

(** A new reader with a client. *)
Lemma NewReader_wf client : reader_wf ∅ (NewReader (Some client)).
Proof.
  split; cbn; try done.
  - split; [|done]. split; cbn; try done; [by apply NoDup_nil_2| |].
    + intros k. rewrite lookup_empty. split; [by intros ?%not_elem_of_nil|by intros [? ?]].
    + intros k. unfold bucket_of. cbn. rewrite lookup_empty. cbn.
      split; [by intros ?%not_elem_of_empty|by intros [? ?]].
  - intros id. rewrite !lookup_empty. split; by intros [? ?].
  - intros id [? Hid]. by rewrite lookup_empty in Hid.
Qed.
End remote.
