(* ===== verification/RemoteProps.v ===== *)
(** * Properties of the remote reader ([src/internal/remote/remote.go])

    What concurrent calls of the reader return, that they always return, how
    the window cache behaves, and where parallel chunk reads lose bytes. *)
From S2P Require Import Prelude GoStrings GoErrors Goroutines ReadCache ReadCacheInv Remote RemoteInv.
From S2P Require Import GoList ChunkKeys ChunkStore ChunkCache TaskHeap ManagerContent.

(** The calls, each in its own goroutine. *)
Definition calls_run (calls : list call) : rprog (list reply) :=
  together (length calls) (λ i, from_option run_call (ret (Err notCached)) (calls !! i)).

Lemma calls_safe content sequential calls g :
  (∀ fsid, zlen (content fsid) < 2 ^ 62) → Forall (call_ok sequential) calls →
  ∀ i, (i < length calls)%nat →
    safe r_objs (answers content) (reader_wf content sequential) g
      (from_option run_call (ret (Err notCached)) (calls !! i))
      (λ got, ∀ c, calls !! i = Some c → call_right content sequential c got).
Proof.
  intros Hs Hc i [c Hi]%lookup_lt_is_Some_2. rewrite Hi. cbn. rewrite Forall_lookup in Hc.
  eapply ok_mono; [done| |by apply (call_safe content sequential Hs g c), (Hc i)].
  intros K own got [-> Hg]. split; [done|]. by intros c' [= <-].
Qed.

Lemma answers_total content q : ∃ a, answers content q a.
Proof. exists ([], Some (sentinel_err EOF)). by destruct q. Qed.

(** ** Example runs *)
Definition demoContent (_ : string) : bytes :=
  [Byte.x31; Byte.x32; Byte.x33; Byte.x34; Byte.x35; Byte.x36].
Lemma demoContent_size fsid : zlen (demoContent fsid) < 2 ^ 62.
Proof. by vm_compute. Qed.
Definition demoEnv : env := mkEnv 0 (Ok (mkLink "https://d" 60)) None [] false 0.
Definition once (i : nat) : @choice env outcome goError := CChild i (CDo demoEnv).
Definition answer_with (i : nat) (data : bytes) : @choice env outcome goError :=
  CChild i (CCall (data, None)).

(** One read of a new reader. *)
Definition oneCall : list call := [CReadRange "7" 2 3].
Definition oneRun : list (@choice env outcome goError) :=
  replicate 7 (once 0) ++ [answer_with 0 (demoContent "7")] ++ replicate 2 (once 0) ++ [CJoin].
Definition oneReader : Reader := NewReader (Some 0%nat).
Definition oneEnd : rprog (list reply) * Reader :=
  default (calls_run oneCall, oneReader) (play r_objs oneRun (calls_run oneCall) oneReader).
Lemma oneRun_runs :
  runs r_objs (answers demoContent) (calls_run oneCall) oneReader oneEnd.1 oneEnd.2.
Proof.
  apply (play_runs r_objs (answers demoContent) oneRun).
  - vm_compute. reflexivity.
  - vm_compute. repeat split; discriminate.
Qed.
Lemma oneEnd_value : value oneEnd.1 = Some [Ok [Byte.x33; Byte.x34; Byte.x35]].
Proof. vm_compute. reflexivity. Qed.
Lemma NewReader_idle client id : ¬ is_pending r_objs (NewReader client) id.
Proof. unfold is_pending. cbn. by rewrite lookup_empty. Qed.

(** ** Claims *)

(** C36: Whatever the interleaving of concurrent calls with each other, with
    cache clearing and with a change of client or settings, a call that
    succeeds returns exactly as many bytes as asked; an exact, streamed or
    cached read returns exactly the bytes of the file, and so does ReadRange
    while downloads are sequential (concurrency at most 1, the default); and
    the caches keep holding bytes of the files within the byte limit. *)
Theorem concurrent_reads_right content sequential calls r g p' r' results :
  (∀ fsid, zlen (content fsid) < 2 ^ 62) → reader_wf content sequential g r →
  (∀ id, ¬ is_pending r_objs r id) → Forall (call_ok sequential) calls →
  runs r_objs (answers content) (calls_run calls) r p' r' → value p' = Some results →
  length results = length calls ∧
  (∀ i c got, calls !! i = Some c → results !! i = Some got → call_right content sequential c got) ∧
  ∃ g', reader_wf content sequential g' r'.
Proof.
  intros Hs Hwf Hidle Hc Hr Hv.
  destruct (together_right r_objs (answers content) (reader_wf content sequential) (length calls) _ _ r g
    (calls_safe content sequential calls g Hs Hc) Hwf Hidle p' r' results Hr Hv) as [[Hl Hb] Hg].
  split_and!; [done| |done]. intros i c got Hi Hgot. by apply (Hb i got).
Qed.
Lemma concurrent_reads_right_witness :
  ∃ data, value oneEnd.1 = Some [Ok data] ∧ data = slice (demoContent "7") 2 3.
Proof.
  exists [Byte.x33; Byte.x34; Byte.x35]. split; [exact oneEnd_value|].
  destruct (concurrent_reads_right demoContent True oneCall oneReader ∅ oneEnd.1 oneEnd.2 _
    demoContent_size (NewReader_wf demoContent True 0) (NewReader_idle _)
    ltac:(repeat constructor; lia) oneRun_runs oneEnd_value) as (_ & H & _).
  exact (proj1 (proj2 (H 0%nat _ _ eq_refl eq_refl) I)).
Defined.

(** C37: Calls never deadlock and never run for ever: whatever the calls have
    done so far, as long as one is not finished some goroutine can go on
    without any context being canceled, every schedule is finite, and a
    schedule on which all calls return exists. In particular a reader that
    waits for another reader's download always has a downloader that will
    publish. *)
Theorem concurrent_reads_finish content sequential calls r g p' r' :
  (∀ fsid, zlen (content fsid) < 2 ^ 62) → reader_wf content sequential g r →
  (∀ id, ¬ is_pending r_objs r id) → Forall (call_ok sequential) calls →
  runs r_objs (answers content) (calls_run calls) r p' r' →
  (is_Some (value p') ∨
   ∃ c p'' r'', patient c ∧ allowed (answers content) p' c ∧ step r_objs p' c r' = Some (p'', r'')) ∧
  Acc (steps_to r_objs) p' ∧
  ∃ results r'', runs r_objs (answers content) p' r' (Ret results) r''.
Proof.
  intros Hs Hwf Hidle Hc Hr.
  pose proof (calls_safe content sequential calls g Hs Hc) as Hsafe.
  assert (inhabited env) as He by exact (inhabits demoEnv).
  assert (∀ g s id, reader_wf content sequential g s → is_Some (g !! id) → is_Some (r_objs s !! id)) as Hd
    by (intros g' s id Hi; apply Hi).
  split_and!.
  - exact (together_progress r_objs (answers content) (reader_wf content sequential) _ _ _ r g Hsafe Hwf Hidle
      He (answers_total content) Hd p' r' Hr).
  - apply steps_acc.
  - destruct (together_finishes r_objs (answers content) (reader_wf content sequential) _ _ _ r g Hsafe Hwf Hidle
      He (answers_total content) Hd p' r' Hr) as (bs & s2 & Hrun & _). by exists bs, s2.
Qed.
Lemma concurrent_reads_finish_witness :
  ∃ results r'', runs r_objs (answers demoContent) (calls_run oneCall) oneReader (Ret results) r''.
Proof.
  refine (proj2 (proj2 (concurrent_reads_finish demoContent True oneCall oneReader ∅ _ _
    demoContent_size (NewReader_wf demoContent True 0) (NewReader_idle _) _ (runs_here _ _ _ _)))).
  repeat constructor; lia.
Defined.

(** A window that fits the cache can be read back at once: after storing
    it, every read inside the window hits. The byte count stays within the
    limit, and what is evicted to make room are the least recently used
    windows, no more of them than needed. *)
Theorem store_then_hit first fsid offset data r off len :
  cache_wf r → data ≠ [] → zlen data ≤ cacheLimit r →
  0 ≤ offset → offset + zlen data < 2 ^ 62 → offset ≤ off → 0 ≤ len → off + len ≤ offset + zlen data →
  let r' := storeCachedLocked fsid offset data r in
  is_Some (readCachedLocked first fsid off len r').1 ∧ cache_wf r' ∧ cacheLimit r' = cacheLimit r ∧
  stored fsid offset data r r'.
Proof.
  intros Hwf Hd Hfit H0 Hmax Ho Hlen Hend r'.
  destruct (storeCached_spec fsid offset data r Hwf) as (Hwf' & Hl & _ & Hin). fold r' in Hwf', Hl, Hin.
  specialize (Hin Hd Hfit). split_and!; [|done..].
  apply (readCached_hits first fsid off len r' (mkCacheKey fsid offset) (mkCached fsid offset data));
    [apply Hwf'|apply Hin|done|].
  unfold serves, size_of. cbn. rewrite !bool_decide_eq_false_2 by (done || lia). cbn.
  rewrite !w64_id by (unfold in64; pose proof (zlen_nonneg data); lia). by apply bool_decide_eq_true.
Qed.
Lemma store_then_hit_witness :
  (readCachedLocked [] "7" 2 3 (storeCachedLocked "7" 0 (demoContent "7") oneReader)).1
  = Some [Byte.x33; Byte.x34; Byte.x35] ∧
  is_Some (readCachedLocked [] "7" 2 3 (storeCachedLocked "7" 0 (demoContent "7") oneReader)).1.
Proof.
  split; [vm_compute; reflexivity|].
  refine (proj1 (store_then_hit [] "7" 0 (demoContent "7") oneReader 2 3 _ _ _ _ _ _ _ _));
    try (by vm_compute). apply (rw_cache demoContent True ∅), NewReader_wf.
Defined.

(** The stream manager's downloads get what they rely on: whatever calls
    run at the same time, a ReadStreamRange of a task's range that succeeds
    returns the bytes of that range, which is what the manager's own
    correctness asks of a download. *)
Theorem stream_reply_fits_task content sequential calls r g p' r' results i t got :
  (∀ fsid, zlen (content fsid) < 2 ^ 62) → reader_wf content sequential g r →
  (∀ id, ¬ is_pending r_objs r id) → Forall (call_ok sequential) calls →
  runs r_objs (answers content) (calls_run calls) r p' r' → value p' = Some results →
  calls !! i = Some (CReadStreamRange (FSID (t_file t)) (t_offset t) (t_length t)) →
  results !! i = Some got →
  reply_right (λ file, content (FSID file)) t
    match got with Ok data => Ok data | Err _ => Err ErrRemote end.
Proof.
  intros Hs Hwf Hidle Hc Hr Hv Hi Hgot data Hd Hlen. destruct got as [d|e]; [|done]. injection Hd as ->.
  destruct (together_right r_objs (answers content) (reader_wf content sequential) (length calls) _ _ r g
    (calls_safe content sequential calls g Hs Hc) Hwf Hidle p' r' results Hr Hv) as [[_ Hb] _].
  exact (proj1 (Hb i _ Hgot _ Hi)).
Qed.
Definition streamCalls : list call := [CReadStreamRange "7" 0 4].
Definition streamRun : list (@choice env outcome goError) :=
  [once 0; answer_with 0 (take 4 (demoContent "7")); CJoin].
Definition streamEnd : rprog (list reply) * Reader :=
  default (calls_run streamCalls, oneReader) (play r_objs streamRun (calls_run streamCalls) oneReader).
Definition streamTask : task :=
  {| t_key := mkChunkKey "v" 0; t_file := mkFile "7" 6 0; t_offset := 0; t_length := 4;
     t_priority := priorityForeground; t_epoch := 0; t_seq := 1; t_index := -1; t_canceled := false;
     t_closed := false; t_data := []; t_err := None; t_started := true; t_finished := false;
     t_foreground := true; t_hedged := false; t_hedgeCancel := false; t_startedAt := 1 |}.
Lemma streamRun_runs :
  runs r_objs (answers demoContent) (calls_run streamCalls) oneReader streamEnd.1 streamEnd.2.
Proof.
  apply (play_runs r_objs (answers demoContent) streamRun).
  - vm_compute. reflexivity.
  - vm_compute. repeat split; discriminate.
Qed.
Lemma stream_reply_fits_task_witness :
  reply_right (λ file, demoContent (FSID file)) streamTask
    (Ok [Byte.x31; Byte.x32; Byte.x33; Byte.x34]).
Proof.
  exact (stream_reply_fits_task demoContent True streamCalls oneReader ∅ streamEnd.1 streamEnd.2
    [Ok [Byte.x31; Byte.x32; Byte.x33; Byte.x34]] 0 streamTask _ demoContent_size (NewReader_wf demoContent True 0)
    (NewReader_idle _) ltac:(repeat constructor; lia) streamRun_runs
    ltac:(vm_compute; reflexivity) eq_refl eq_refl).
Defined.

(** ** Parallel chunks can lose bytes

    Two overlapping reads with two connections: the second one's first chunk
    starts where the shorter last chunk of the first is already in flight.  It
    waits for that download, copies the bytes it has, and returns the rest of
    the chunk as zeros, without an error. *)
Definition lossyCalls : list call := [CReadRange "7" 0 3; CReadRange "7" 2 4].
Definition lossyReader : Reader := SetDownloadOptions 2 2 oneReader.
Definition chunk_once (i j : nat) : @choice env outcome goError := CChild i (CChild j (CDo demoEnv)).
Definition chunk_answer (i j : nat) (data : bytes) : @choice env outcome goError :=
  CChild i (CChild j (CCall (data, None))).
Definition lossyRun : list (@choice env outcome goError) :=
  replicate 4 (once 0) ++ replicate 4 (chunk_once 0 1)
  ++ replicate 4 (once 1) ++ replicate 3 (chunk_once 1 0)
  ++ [chunk_answer 0 1 [Byte.x33]] ++ replicate 2 (chunk_once 0 1)
  ++ [CChild 1 (CChild 0 CWake)]
  ++ replicate 4 (chunk_once 1 1) ++ [chunk_answer 1 1 [Byte.x35; Byte.x36]] ++ replicate 2 (chunk_once 1 1)
  ++ replicate 4 (chunk_once 0 0) ++ [chunk_answer 0 0 [Byte.x31; Byte.x32]] ++ replicate 2 (chunk_once 0 0)
  ++ [CChild 0 CJoin; once 0; CChild 1 CJoin; once 1; CJoin].
Definition lossyEnd : rprog (list reply) * Reader :=
  default (calls_run lossyCalls, lossyReader) (play r_objs lossyRun (calls_run lossyCalls) lossyReader).

Lemma concurrent_chunks_lose_bytes :
  runs r_objs (answers demoContent) (calls_run lossyCalls) lossyReader lossyEnd.1 lossyEnd.2 ∧
  value lossyEnd.1 = Some [Ok [Byte.x31; Byte.x32; Byte.x33]; Ok [Byte.x33; Byte.x00; Byte.x35; Byte.x36]] ∧
  slice (demoContent "7") 2 4 = [Byte.x33; Byte.x34; Byte.x35; Byte.x36].
Proof.
  split_and!; [|vm_compute; reflexivity..]. apply (play_runs r_objs (answers demoContent) lossyRun).
  - vm_compute. reflexivity.
  - vm_compute. repeat split; discriminate.
Qed.
