(* ===== verification/BaiduClient.v ===== *)
(** * The Baidu API client ([src/internal/baidu/client.go])

    What the client makes of the service's answers: the paging of [List], the
    cache of download links, and a ranged download checked against its
    [Content-Range].  HTTP, URLs and JSON decoding are outside: an answer is
    the decoded response or the error of the exchange. *)
From Stdlib Require Import Ascii.
From S2P Require Import Prelude GoStrings GoErrors ReadCache.

(** [baidu.RemoteEntry] and [apiListEntry], [apiFileMeta] *)
Record RemoteEntry := mkRemoteEntry {
  re_FSID : string; re_ServerName : string; re_Path : string; re_Size : Z; re_IsDir : bool;
  re_ServerMTime : Z; re_LocalMTime : Z; re_MD5 : string
}.
Record apiEntry := mkApiEntry {
  ae_fsid : Z; ae_serverName : string; ae_path : string; ae_size : Z; ae_isdir : Z;
  ae_serverMTime : Z; ae_localMTime : Z; ae_md5 : string; ae_dlink : string
}.
Record apiListResponse := mkListResponse {
  lr_entries : list apiEntry; lr_hasMore : Z; lr_next : Z; lr_errorCode : Z; lr_errorMsg : string
}.
Record apiFileMetaResponse := mkMetaResponse {
  mr_entries : list apiEntry; mr_list : list apiEntry; mr_errorCode : Z; mr_errorMsg : string
}.
Record apiFileManagerResponse := mkManagerResponse {
  fm_errorCode : Z; fm_errorMsg : string; fm_errorMsg2 : string
}.

Definition metaToRemote (m : apiEntry) : RemoteEntry :=
  mkRemoteEntry (format_int (ae_fsid m)) (ae_serverName m) (ae_path m) (ae_size m)
    (bool_decide (ae_isdir m ≠ 0)) (ae_serverMTime m) (ae_localMTime m) (ae_md5 m).

(** ** Exchanges

    What the HTTP client returns for a request of the metadata API: the error
    of the exchange, or the status, the [Location] header and the body, or the
    error of reading it. *)
Record rawResponse := mkRaw {
  rw_status : Z; rw_location : string; rw_body : result goError string
}.
Abbreviation exchange := (result goError rawResponse).

(** [doJSON]; [getJSON] differs in how the request is built.  [decode] is
    [json.Unmarshal] into the response's type. *)
Definition doJSON {A} (decode : string → result goError A) (answer : exchange) : result goError A :=
  resp ← answer;
  body ← rw_body resp;
  if decide (400 ≤ rw_status resp)
  then Err (errors_New ("baidu api failed: " +:+ trim_space body))
  else decode body.

(** ** Listing *)
Section listing.
(** The answer to the request with a given [start].  The marks of one call
    increase, so none is asked for twice. *)
Context (server : Z → result goError apiListResponse).

Fixpoint List_loop (fuel : nat) (mark : Z) (out : list RemoteEntry)
    : option (result goError (list RemoteEntry)) :=
  match fuel with
  | O => None
  | S fuel =>
      match server mark with
      | Err e => Some (Err e)
      | Ok resp =>
          if decide (lr_errorCode resp ≠ 0 ∧ lr_errorCode resp ≠ 109)
          then Some (Err (errors_New ("baidu list failed: " +:+ lr_errorMsg resp)))
          else
            let out := out ++ map metaToRemote (lr_entries resp) in
            if decide (lr_hasMore resp = 0 ∨ lr_next resp ≤ mark ∨ lr_entries resp = [])
            then Some (Ok out)
            else List_loop fuel (lr_next resp) out
      end
  end.
Definition List (fuel : nat) : option (result goError (list RemoteEntry)) := List_loop fuel 0 [].
End listing.

Definition first_entry (resp : apiFileMetaResponse) : option apiEntry :=
  head (if decide (mr_entries resp = []) then mr_list resp else mr_entries resp).
Definition emptyEntry : RemoteEntry := mkRemoteEntry "" "" "" 0 false 0 0 "".
Definition Stat (answer : result goError apiFileMetaResponse) : result goError RemoteEntry :=
  resp ← answer;
  if decide (mr_errorCode resp ≠ 0) then Err (errors_New ("baidu stat failed: " +:+ mr_errorMsg resp))
  else Ok (from_option metaToRemote emptyEntry (first_entry resp)).

(** ** The client's state: tokens and download links *)
Record APIClient := mkAPIClient {
  accessToken : string; refreshToken : string; ac_links : gmap string DownloadLink
}.
#[export] Instance APIClient_eta : Eta APIClient := λ c,
  mkAPIClient (accessToken c) (refreshToken c) (ac_links c).
Implicit Types (c : APIClient) (fsid : string) (now : Z).

Definition cachedDownloadLink fsid now c : option DownloadLink * APIClient :=
  match ac_links c !! fsid with
  | None => (None, c)
  | Some link =>
      if decide (lk_ExpiresAt link ≠ 0 ∧ lk_ExpiresAt link < now)
      then (None, c <| ac_links ::= delete fsid |>)
      else (Some link, c)
  end.
Definition cacheDownloadLink fsid (link : DownloadLink) c : APIClient :=
  c <| ac_links ::= <[fsid := link]> |>.
Definition InvalidateDownloadLink fsid c : APIClient :=
  if decide (fsid = "") then c else c <| ac_links ::= delete fsid |>.

(** The answer to the [HEAD] request; the error of reading a refusal's body is
    dropped. *)
Definition resolveDownloadURL (link : string) (answer : exchange) : result goError string :=
  resp ← answer;
  if decide (400 ≤ rw_status resp)
  then Err (errors_New ("download head failed: "
             +:+ trim_space (str_to (match rw_body resp with Ok b => b | Err _ => "" end) 512)))
  else Ok (if decide (rw_location resp = "") then link else rw_location resp).

(** What [GetDownloadLink] asks the service for, if it has to. *)
Definition download_link (meta : result goError apiFileMetaResponse) : result goError string :=
  resp ← meta;
  if decide (mr_errorCode resp ≠ 0) then Err (errors_New ("baidu dlink failed: " +:+ mr_errorMsg resp))
  else match first_entry resp with
       | None => Err (errors_New "missing file metadata")
       | Some e => if decide (ae_dlink e = "") then Err (errors_New "missing download link")
                   else Ok (ae_dlink e)
       end.
(** [now] when the cache is looked up and [later] when the link is stored. *)
Definition GetDownloadLink fsid now (meta : result goError apiFileMetaResponse)
    (head : exchange) (later : Z) c : result goError DownloadLink * APIClient :=
  let '(hit, c) := cachedDownloadLink fsid now c in
  match hit with
  | Some link => (Ok link, c)
  | None =>
      match (link ← download_link meta; resolveDownloadURL link head) with
      | Err e => (Err e, c)
      | Ok finalURL =>
          let out := mkLink finalURL (later + tenMinutes) in
          (Ok out, cacheDownloadLink fsid out c)
      end
  end.

(** The token endpoint's answer, decoded by [decode] to the two tokens, and
    what [onTokenUpdate] returns. *)
Definition RefreshAuth (decode : string → result goError (string * string)) (answer : exchange)
    (onTokenUpdate : string → string → option goError) c : option goError * APIClient :=
  if decide (refreshToken c = "") then (Some (errors_New "refresh token is required"), c)
  else
    match (resp ← answer; body ← rw_body resp;
           if decide (400 ≤ rw_status resp)
           then Err (errors_New ("refresh failed: " +:+ trim_space body))
           else decode body) with
    | Err e => (Some e, c)
    | Ok (access, refresh) =>
        if decide (access = "") then (Some (errors_New "missing access token"), c)
        else
          let c := c <| accessToken := access |>
                     <| refreshToken ::= λ old, if decide (refresh = "") then old else refresh |>
                     <| ac_links := ∅ |> in
          (onTokenUpdate (accessToken c) (refreshToken c), c)
    end.

Definition Delete_result (answer : result goError apiFileManagerResponse) : option goError :=
  match answer with
  | Err e => Some e
  | Ok resp =>
      if decide (fm_errorCode resp = 0) then None
      else
        let msg := if decide (fm_errorMsg resp = "") then fm_errorMsg2 resp else fm_errorMsg resp in
        let msg := if decide (msg = "") then "errno=" +:+ format_int (fm_errorCode resp) else msg in
        Some (errors_New ("baidu delete failed: " +:+ msg))
  end.
(** [None] stands for no request at all. *)
Definition Delete (paths : list string) (answer : result goError apiFileManagerResponse) : option goError :=
  if decide (paths = []) then None else Delete_result answer.

(** ** Ranged downloads *)
Definition badRange (value : string) : goError := errors_New ("invalid content range " +:+ quote value).
Definition parseContentRange (value : string) : result goError (Z * Z * Z) :=
  let bad := Err (badRange value) in
  if negb (has_prefix value "bytes ") then bad
  else
    match split2 (trim_prefix value "bytes ") "/" with
    | [range; total] =>
        match split2 range "-" with
        | [first; last] =>
            match parse_int64 first with
            | None => bad
            | Some start =>
                match parse_int64 last with
                | None => bad
                | Some end_ =>
                    if decide (end_ < start) then bad
                    else if decide (total = "*") then Ok (start, end_, -1)
                    else match parse_int64 total with
                         | None => bad
                         | Some total => if decide (total ≤ end_) then bad else Ok (start, end_, total)
                         end
                end
            end
        | _ => bad
        end
    | _ => bad
    end.

(** A response: its status, its [Content-Range], and the body as the network delivers it: pieces, each with the
    error the [Read] that ends it reports.  A [Read] for [k] bytes returns at
    most [k] bytes of a piece; an error is reported again by later reads; past
    the last piece a [Read] returns no bytes and [io.EOF]. *)
Definition body_reads : Type := list (bytes * option goError).
Record httpResponse := mkResponse {
  hr_status : Z; hr_contentRange : string; hr_body : body_reads
}.
Definition next_read (k : Z) (b : body_reads) : (bytes * option goError) * body_reads :=
  match b with
  | [] => (([], Some (sentinel_err EOF)), [])
  | (data, err) :: rest =>
      if decide (zlen data ≤ k)
      then ((data, err), match err with None => rest | Some _ => [([], err)] end)
      else ((take (Z.to_nat k) data, None), (drop (Z.to_nat k) data, err) :: rest)
  end.
(** The bytes a reader of the body gets in all. *)
Fixpoint stream (b : body_reads) : bytes :=
  match b with
  | [] => []
  | (data, None) :: rest => data ++ stream rest
  | (data, Some _) :: _ => data
  end.
(** The text of a refusal: the first 512 bytes of its body. *)
Definition response_text (b : body_reads) : string :=
  trim_space (String.string_of_list_byte (take 512 (stream b))).
(** [n, err] with the [n] bytes of [dst]. *)
Definition read_result : Type := bytes * option goError.

Definition bodyError (n want : Z) (e : goError) : goError :=
  wrap ("download range body length " +:+ format_int n +:+ ", declared " +:+ format_int want) e.
Definition timeoutError (n want : Z) (e : goError) : goError :=
  wrap ("download range body timeout after " +:+ format_int n +:+ " of " +:+ format_int want +:+ " bytes") e.

(** The loop [for n < want]; [ctx] is [downloadCtx.Err()] when it is asked.
    The result is the bytes so far, and the rest of the body or the error. *)
Fixpoint read_loop (fuel : nat) (ctx : option goError) (want : Z) (got : bytes) (body : body_reads)
    : bytes * result goError body_reads :=
  match fuel with
  | O => (got, Ok body)
  | S fuel =>
      if decide (want ≤ zlen got) then (got, Ok body)
      else
        let '((data, err), body) := next_read (want - zlen got) body in
        let got := got ++ data in
        match err with
        | Some readErr =>
            match ctx with
            | Some ctxErr => (got, Err (timeoutError (zlen got) want ctxErr))
            | None =>
                if decide (errors_Is readErr EOF = true ∧ zlen got = want) then (got, Ok body)
                else (got, Err (bodyError (zlen got) want
                       (if errors_Is readErr EOF then sentinel_err UnexpectedEOF else readErr)))
            end
        | None =>
            if decide (data = []) then (got, Err (bodyError (zlen got) want (sentinel_err NoProgress)))
            else read_loop fuel ctx want got body
        end
  end.

(** The read past the declared length, which must find nothing. *)
Definition read_extra (ctx : option goError) (want : Z) (got : bytes) (body : body_reads) : read_result :=
  let '((extra, err), _) := next_read 1 body in
  if decide (extra ≠ []) then (got, Some (errors_New ("download range exceeded declared length "
                                                      +:+ format_int want)))
  else match err with
       | Some e =>
           if errors_Is e EOF then (got, None)
           else match ctx with
                | Some c => (got, Some (timeoutError (zlen got) want c))
                | None => (got, Some e)
                end
       | None => (got, None)
       end.

Definition startError (start offset : Z) : goError :=
  errors_New ("download content range starts at " +:+ format_int start +:+ ", want " +:+ format_int offset).
Definition endError (rangeEnd end_ : Z) : goError :=
  errors_New ("download content range ends at " +:+ format_int rangeEnd +:+ ", requested at most "
              +:+ format_int end_).
Definition earlyEnd (rangeEnd end_ : Z) : goError :=
  wrap ("download content range ends at " +:+ format_int rangeEnd +:+ " before requested end "
        +:+ format_int end_) (sentinel_err UnexpectedEOF).
Definition statusError (status : Z) (text : string) : goError :=
  errors_New ("download range failed: status=" +:+ format_int status +:+ " body=" +:+ text).

(** The checks on a response, up to the reading of its body: the declared
    length. *)
Definition check_response (offset length : Z) (resp : httpResponse) : result goError Z :=
  if decide (hr_status resp ≠ 206) then Err (statusError (hr_status resp) (response_text (hr_body resp)))
  else
    let end_ := offset +! length -! 1 in
    match parseContentRange (hr_contentRange resp) with
    | Err e => Err e
    | Ok (start, rangeEnd, total) =>
        if decide (start ≠ offset) then Err (startError start offset)
        else if decide (end_ < rangeEnd) then Err (endError rangeEnd end_)
        else if decide (rangeEnd < end_ ∧ ¬ (0 ≤ total ∧ rangeEnd = total - 1))
        then Err (earlyEnd rangeEnd end_)
        else Ok (rangeEnd - start + 1)
    end.

(** [ReadRange]: [link] is what [GetDownloadLink] returned, [answer] what the
    exchange gave, [ctx] the state of the context. *)
Definition ReadRange (offset length : Z) (link : result goError DownloadLink)
    (answer : result goError httpResponse) (ctx : option goError) : read_result :=
  if decide (offset < 0) then ([], Some (errors_New "offset must be non-negative"))
  else if decide (length = 0) then ([], None)
  else match link with
       | Err e => ([], Some e)
       | Ok _ =>
           match answer with
           | Err e => ([], Some match ctx with
                                | Some c => wrap "download range timed out or canceled" c
                                | None => e end)
           | Ok resp =>
               match check_response offset length resp with
               | Err e => ([], Some e)
               | Ok want =>
                   match read_loop (Z.to_nat want) ctx want [] (hr_body resp) with
                   | (got, Err e) => (got, Some e)
                   | (got, Ok body) => read_extra ctx want got body
                   end
               end
           end
       end.

(** ** Lemmas *)
Lemma next_read_stream k b data err b' :
  0 ≤ k → next_read k b = ((data, err), b') →
  zlen data ≤ k ∧ stream b = data ++ stream b'.
Proof.
  intros Hk. unfold next_read. destruct b as [|[d e] rest].
  { intros [= <- <- <-]. rewrite zlen_nil. done. }
  case_decide as Hd; intros [= <- <- <-].
  - split; [done|]. destruct e; cbn; [by rewrite app_nil_r|done].
  - split; [unfold zlen in *; rewrite length_take; lia|].
    destruct e; cbn; [by rewrite take_drop|]. by rewrite app_assoc, take_drop.
Qed.

Lemma read_loop_spec fuel ctx want got body got' r :
  zlen got ≤ want → want - zlen got ≤ Z.of_nat fuel →
  read_loop fuel ctx want got body = (got', r) →
  ∃ more, got' = got ++ more ∧ zlen got' ≤ want ∧
    match r with
    | Ok body' => zlen got' = want ∧ stream body = more ++ stream body'
    | Err _ => ∃ rest, stream body = more ++ rest
    end.
Proof.
  revert got body. induction fuel as [|fuel IH]; intros got body Hw Hf; cbn [read_loop].
  { intros [= <- <-]. exists []. rewrite app_nil_r. split_and!; [done|done|lia|done]. }
  case_decide as Hfull.
  { intros [= <- <-]. exists []. rewrite app_nil_r. split_and!; [done|done|lia|done]. }
  destruct (next_read (want - zlen got) body) as [[data err] body1] eqn:Hn.
  destruct (next_read_stream (want - zlen got) _ _ _ _ ltac:(lia) Hn) as [Hd Hs].
  assert (zlen (got ++ data) ≤ want) as Hle by (rewrite zlen_app; lia).
  assert (∃ rest, stream body = data ++ rest) as Hrest by eauto.
  destruct err as [e|].
  - destruct ctx as [c|]; [intros [= <- <-]; exists data; done|].
    case_decide as Heof; intros [= <- <-]; exists data; [|done]. by destruct Heof as [_ ->].
  - case_decide as Hz; [intros [= <- <-]; by exists data|]. intros Hr.
    pose proof (zlen_nonneg data). assert (zlen data ≠ 0) by (intros ?; by apply Hz, zlen_0).
    destruct (IH _ _ Hle ltac:(rewrite zlen_app; lia) Hr) as (more & -> & Hl & Hm).
    exists (data ++ more). rewrite app_assoc. split_and!; [done|done|].
    destruct r as [b'|e].
    + destruct Hm as [Hz' Hs']. split; [done|]. by rewrite Hs, Hs', app_assoc.
    + destruct Hm as [rest Hs']. exists rest. by rewrite Hs, Hs', app_assoc.
Qed.

(** What an accepted [Content-Range] says. *)
Lemma parseContentRange_Ok value start end_ total :
  parseContentRange value = Ok (start, end_, total) →
  0 ≤ start ≤ end_ ∧ (total = -1 ∨ end_ < total).
Proof.
  unfold parseContentRange. destruct (has_prefix value "bytes "); [|done]. cbn [negb].
  destruct (split2 (trim_prefix value "bytes ") "/") as [|range [|tot [|]]]; try done.
  destruct (split2 range "-") as [|first [|last [|]]] eqn:Hs; try done.
  apply split2_two in Hs as [_ Hm].
  destruct (parse_int64 first) as [s|] eqn:Hf; [|done].
  pose proof (parse_int64_nonneg _ _ Hm Hf).
  destruct (parse_int64 last) as [e|]; [|done]. case_decide; [done|].
  case_decide; [intros [= <- <- <-]; split; [lia|by left]|].
  destruct (parse_int64 tot) as [n|]; [|done]. case_decide; [done|]. intros [= <- <- <-]. lia.
Qed.

(** A response that passes the checks declares a part of the range asked for,
    all of it unless the file ends there. *)
Lemma check_response_Ok offset length resp want :
  0 ≤ offset → 0 < length → offset + length < 2 ^ 63 →
  check_response offset length resp = Ok want →
  hr_status resp = 206 ∧ 0 < want ≤ length ∧
  ∃ total, parseContentRange (hr_contentRange resp) = Ok (offset, offset + want - 1, total) ∧
    (want < length → total = offset + want).
Proof.
  intros H0 Hl Hmax. unfold check_response. case_decide as Hst; [done|]. cbv zeta.
  rewrite (w64_id (offset + length)), w64_id by (unfold in64; rewrite ?w64_id; unfold in64; lia).
  destruct (parseContentRange _) as [[[s e] tot]|] eqn:Hp; [|done].
  case_decide as Hs; [done|]. case_decide; [done|]. case_decide as Hearly; [done|]. intros [= <-].
  apply parseContentRange_Ok in Hp as [Hse Htot]. assert (s = offset) as -> by lia.
  split_and!; [lia|lia|lia|]. exists tot. split; [f_equal; f_equal; f_equal; lia|lia].
Qed.

(** A read that succeeds passed every check. *)
Lemma ReadRange_Ok offset length link answer ctx data :
  0 < length → offset + length < 2 ^ 63 → ReadRange offset length link answer ctx = (data, None) →
  0 ≤ offset ∧ ∃ resp, answer = Ok resp ∧ check_response offset length resp = Ok (zlen data) ∧
    ∃ rest, stream (hr_body resp) = data ++ rest.
Proof.
  intros Hl Hmax. unfold ReadRange. case_decide; [done|]. case_decide; [lia|].
  destruct link as [l|e]; [|done]. destruct answer as [resp|e]; [|by destruct ctx].
  destruct (check_response offset length resp) as [want|e] eqn:Hc; [|done].
  destruct (check_response_Ok offset length resp want ltac:(lia) Hl Hmax Hc) as (_ & Hw & _).
  destruct (read_loop (Z.to_nat want) ctx want [] (hr_body resp)) as [got [body|e]] eqn:Hr; [|done].
  assert (zlen ([] : bytes) = 0) as Hnil by apply zlen_nil.
  destruct (read_loop_spec (Z.to_nat want) _ want [] _ _ _ ltac:(rewrite Hnil; lia) ltac:(rewrite Hnil; lia) Hr)
    as (more & Hgot & _ & Hz & Hs). cbn in Hgot. subst more.
  unfold read_extra. destruct (next_read 1 body) as [[extra err] body']. case_decide; [done|].
  intros Hres. assert (got = data) as ->.
  { destruct err as [e|]; [|by injection Hres]. destruct (errors_Is e EOF); [by injection Hres|].
    by destruct ctx. }
  split; [lia|]. exists resp. rewrite Hz. eauto.
Qed.

(** ** Listing *)

(** The marks [List] asks for, for [fuel] requests at most. *)
Fixpoint marks (server : Z → result goError apiListResponse) (fuel : nat) (mark : Z) : list Z :=
  match fuel with
  | O => []
  | S fuel =>
      mark :: match server mark with
              | Err _ => []
              | Ok resp =>
                  if decide ((lr_errorCode resp ≠ 0 ∧ lr_errorCode resp ≠ 109) ∨
                             lr_hasMore resp = 0 ∨ lr_next resp ≤ mark ∨ lr_entries resp = [])
                  then [] else marks server fuel (lr_next resp)
              end
  end.

(** A service that pages through [all], [n] entries at a time. *)
Definition page_of (all : list apiEntry) (n : Z) (mark : Z) : result goError apiListResponse :=
  let page := slice all mark n in
  Ok (mkListResponse page (if decide (mark + n < zlen all) then 1 else 0) (mark + n) 0 "").

Lemma List_loop_pages all n fuel mark out :
  0 < n → 0 ≤ mark → zlen all - mark < Z.of_nat fuel * n → 0 < Z.of_nat fuel →
  List_loop (page_of all n) fuel mark out
  = Some (Ok (out ++ map metaToRemote (drop (Z.to_nat mark) all))).
Proof.
  intros Hn. revert mark out. induction fuel as [|fuel IH]; intros mark out Hm Hf Hpos; [lia|].
  cbn [List_loop page_of]. cbn [lr_errorCode lr_entries lr_hasMore lr_next].
  rewrite decide_False by lia. case_decide as Hstop.
  - do 3 f_equal. destruct Hstop as [Hmore|[Hnext|Hempty]]; [|lia|].
    + case_decide; [done|]. unfold slice. rewrite take_ge; [done|]. rewrite length_drop. unfold zlen in *. lia.
    + assert (zlen (slice all mark n) = 0) as Hz by (by rewrite Hempty).
      rewrite slice_length in Hz by lia. rewrite Hempty, drop_ge; [done|]. unfold zlen in *. lia.
  - assert (mark + n < zlen all) as Hlt.
    { destruct (decide (mark + n < zlen all)) as [|Hge]; [done|]. destruct Hstop. left.
      cbn [lr_hasMore]. by destruct (decide (mark + n < zlen all)). }
    rewrite IH; [|lia|lia|lia]. do 2 f_equal. rewrite <- app_assoc. f_equal.
    rewrite <- map_app. f_equal. unfold slice. rewrite Z2Nat.inj_add, <- drop_drop by lia.
    apply take_drop.
Qed.
