(* ===== verification/ClientProps.v ===== *)
(** * What the Baidu client promises

    A ranged download returns the bytes of the file or an error, whatever the
    response; [Content-Range] headers are read back as they are written;
    listings collect every page and end; a download link is served from the
    cache for as long as it is valid and no longer. *)
From Stdlib Require Import Ascii Sorting.Sorted.
From S2P Require Import Prelude GoList GoStrings GoErrors ReadCache Remote RemoteInv BaiduClient.

(** ** Content ranges *)
Definition contentRange (start end_ : Z) (total : string) : string :=
  "bytes " +:+ format_int start +:+ String "-" (format_int end_) +:+ String "/" total.

(** A [Content-Range] header with a total, or with ["*"] for an unknown
    one, is read back as the numbers it was written from; a range that ends
    at or past its total is refused. *)
Theorem content_range_roundtrip start end_ total :
  0 ≤ start ≤ end_ → end_ < 2 ^ 63 → 0 ≤ total < 2 ^ 63 →
  parseContentRange (contentRange start end_ "*") = Ok (start, end_, -1) ∧
  parseContentRange (contentRange start end_ (format_int total))
  = if decide (end_ < total) then Ok (start, end_, total)
    else Err (badRange (contentRange start end_ (format_int total))).
Proof.
  intros Hse He Ht.
  assert (∀ t, split2 (trim_prefix (contentRange start end_ t) "bytes ") "/"
               = [format_int start +:+ String "-" (format_int end_); t]) as Hsplit.
  { intros t. transitivity (split2 ((format_int start +:+ String "-" (format_int end_)) +:+ String "/" t) "/").
    { unfold contentRange. by rewrite trim_prefix_app, str_app_assoc, str_app_cons. }
    apply split2_app. rewrite str_mem_app. cbn. intros [Hm|[Hm|Hm]].
    - revert Hm. apply format_int_no; [lia|done].
    - done.
    - revert Hm. apply format_int_no; [lia|done]. }
  assert (∀ t, has_prefix (contentRange start end_ t) "bytes " = true) as Hp.
  { intros t. apply has_prefix_app. }
  unfold parseContentRange. rewrite !Hp, !Hsplit. cbn [negb].
  rewrite split2_app by (apply format_int_no; [lia|done]).
  rewrite !parse_format_int by (unfold in64; lia).
  rewrite (decide_False (P := end_ < start)) by lia. split; [done|].
  destruct (decide (format_int total = "*")) as [Hstar|_].
  { assert (str_mem "*" (format_int total)) as Hm by (rewrite Hstar; by left).
    exfalso. revert Hm. apply format_int_no; [lia|done]. }
  repeat case_decide; (done || lia).
Qed.
Lemma content_range_roundtrip_witness :
  parseContentRange (contentRange 100 199 (format_int 1000)) = Ok (100, 199, 1000) ∧
  parseContentRange "bytes 100-199/1000" = Ok (100, 199, 1000).
Proof.
  split; [|vm_compute; reflexivity].
  exact (proj2 (content_range_roundtrip 100 199 1000 ltac:(lia) ltac:(lia) ltac:(lia))).
Defined.

(** ** Ranged downloads *)

(** A response that tells the truth about the file: what its header declares
    is a range of the file, with the file's size if it gives one, and the body
    starts with bytes of that range; it may be cut short or run on. *)
Definition truthful (file : bytes) (resp : httpResponse) : Prop :=
  ∀ start end_ total,
    hr_status resp = 206 → parseContentRange (hr_contentRange resp) = Ok (start, end_, total) →
    end_ < zlen file ∧ (total = -1 ∨ total = zlen file) ∧
    take (Z.to_nat (end_ - start + 1)) (stream (hr_body resp))
      `prefix_of` slice file start (end_ - start + 1).

Lemma client_read_slice file offset length link answer ctx data :
  0 ≤ length → offset + length < 2 ^ 63 → (∀ resp, answer = Ok resp → truthful file resp) →
  BaiduClient.ReadRange offset length link answer ctx = (data, None) → data = slice file offset length.
Proof.
  intros Hl Hmax Htruth Hread.
  destruct (decide (length = 0)) as [->|Hnz].
  { unfold BaiduClient.ReadRange in Hread. case_decide; [done|]. rewrite decide_True in Hread by done.
    injection Hread as <-. done. }
  apply ReadRange_Ok in Hread as (H0 & resp & Ha & Hc & rest & Hs); [|lia|done].
  apply check_response_Ok in Hc as (Hst & Hw & total & Hp & Hend); [|lia..].
  destruct (Htruth resp Ha _ _ _ Hst Hp) as (He & Htot & Hpre).
  replace (offset + zlen data - 1 - offset + 1) with (zlen data) in Hpre by lia.
  rewrite Hs, take_app_length' in Hpre by (unfold zlen; lia).
  assert (slice file offset (zlen data) = data) as Hd.
  { destruct Hpre as [tail Ht]. assert (zlen tail = 0) as Hz.
    { apply (f_equal zlen) in Ht. rewrite zlen_app, slice_length in Ht by lia.
      pose proof (zlen_nonneg tail). lia. }
    apply zlen_0 in Hz as ->. by rewrite app_nil_r in Ht. }
  destruct (decide (zlen data = length)) as [<-|Hne]; [done|].
  specialize (Hend ltac:(lia)). rewrite <- Hd at 1. unfold slice.
  rewrite !take_ge; [done|rewrite length_drop; unfold zlen in *; lia..].
Qed.
Lemma slice_prefix content fsid offset length :
  0 ≤ length → prefix_part content fsid offset length (slice (content fsid) offset length).
Proof. split; [apply part_slice|]. unfold slice, zlen. rewrite length_take. lia. Qed.

(** C38: Whatever pieces and errors the network delivers, a ranged download
    that reports no error has returned exactly the bytes of the range asked
    for, up to the end of the file: never fewer, never others.  This is what
    the reader of [remote.go] relies on. *)
Theorem range_read_sound (content : string → bytes) client fsid offset length link answer ctx data :
  0 ≤ length → offset + length < 2 ^ 63 →
  (∀ resp, answer = Ok resp → truthful (content fsid) resp) →
  BaiduClient.ReadRange offset length link answer ctx = (data, None) →
  data = slice (content fsid) offset length ∧
  answers content (QReadRange client fsid offset length) (data, None).
Proof.
  intros Hl Hmax Htruth Hread. apply client_read_slice with (file := content fsid) in Hread as ->; [|done..].
  split; [done|]. intros _. apply slice_prefix. lia.
Qed.
Definition sixBytes : bytes := [Byte.x31; Byte.x32; Byte.x33; Byte.x34; Byte.x35; Byte.x36].
Definition lastBytes : httpResponse :=
  mkResponse 206 "bytes 4-5/6" [([Byte.x35], None); ([Byte.x36], Some (sentinel_err EOF))].
Definition someLink : result goError DownloadLink := Ok (mkLink "https://d.example/7" 600).
Lemma range_read_sound_witness :
  BaiduClient.ReadRange 4 8 someLink (Ok lastBytes) None = ([Byte.x35; Byte.x36], None) ∧
  [Byte.x35; Byte.x36] = slice sixBytes 4 8.
Proof.
  split; [vm_compute; reflexivity|].
  refine (proj1 (range_read_sound (λ _, sixBytes) 0 "7" 4 8 someLink (Ok lastBytes) None
    [Byte.x35; Byte.x36] ltac:(lia) ltac:(lia) _ eq_refl)).
  intros resp [= <-] start end_ total _ Hp. vm_compute in Hp. injection Hp as <- <- <-.
  split; [vm_compute; reflexivity|]. split; [by right|]. exists []. vm_compute. reflexivity.
Defined.

(** A body delivered without errors, in pieces of at least one byte. *)
Definition clean (body : body_reads) : Prop := Forall (λ p, p.1 ≠ [] ∧ p.2 = None) body.

Lemma next_read_clean k body :
  0 < k → clean body →
  ∃ data err body', next_read k body = ((data, err), body') ∧ clean body' ∧
    stream body = data ++ stream body' ∧ zlen data ≤ k ∧
    (err = None ∧ data ≠ [] ∨ err = Some (sentinel_err EOF) ∧ data = [] ∧ stream body = []).
Proof.
  intros Hk Hc. destruct body as [|[d e] rest]; cbn [next_read].
  { eexists _, _, _. split; [done|]. rewrite zlen_nil. split_and!; [done|done|lia|by right]. }
  inversion Hc as [|?? [Hne He] Hrest]; subst. cbn in Hne, He. subst e. case_decide as Hd.
  - eexists _, _, _. split; [done|]. split_and!; [done|done|done|by left].
  - eexists _, _, _. split; [done|]. assert (0 < zlen d - k) by lia. unfold zlen in *.
    split_and!.
    + constructor; [|done]. split; [|done]. cbn. intros Hz. apply (f_equal List.length) in Hz.
      rewrite length_drop in Hz. cbn in Hz. lia.
    + cbn. by rewrite app_assoc, take_drop.
    + rewrite length_take. lia.
    + left. split; [done|]. intros Hz. apply (f_equal List.length) in Hz.
      rewrite length_take in Hz. cbn in Hz. lia.
Qed.

(** The loop on a clean body: the declared bytes, or all there are and an
    [io.ErrUnexpectedEOF]. *)
Lemma read_loop_clean fuel want got body :
  clean body → zlen got ≤ want → want - zlen got ≤ Z.of_nat fuel →
  if decide (want ≤ zlen got + zlen (stream body))
  then ∃ more body', read_loop fuel None want got body = (got ++ more, Ok body') ∧
         zlen (got ++ more) = want ∧ clean body' ∧ stream body = more ++ stream body'
  else read_loop fuel None want got body
       = (got ++ stream body, Err (bodyError (zlen (got ++ stream body)) want (sentinel_err UnexpectedEOF))).
Proof.
  revert got body. induction fuel as [|fuel IH]; intros got body Hc Hw Hf; cbn [read_loop].
  { pose proof (zlen_nonneg (stream body)). rewrite decide_True by lia.
    exists [], body. rewrite app_nil_r. split_and!; [done|lia|done|done]. }
  destruct (decide (want ≤ zlen got)) as [Hfull|Hfull].
  { pose proof (zlen_nonneg (stream body)). rewrite decide_True by lia.
    exists [], body. rewrite app_nil_r. split_and!; [done|lia|done|done]. }
  destruct (next_read_clean (want - zlen got) body ltac:(lia) Hc)
    as (data & err & body' & -> & Hc' & Hs & Hd & [(-> & Hne)|(-> & -> & He)]); cbn beta iota zeta.
  - rewrite (decide_False (P := data = [])) by done.
    assert (0 < zlen data) by (pose proof (zlen_nonneg data); assert (zlen data ≠ 0)
      by (intros ?; by apply Hne, zlen_0); lia).
    specialize (IH (got ++ data) body' Hc' ltac:(rewrite zlen_app; lia) ltac:(rewrite zlen_app; lia)).
    rewrite Hs. rewrite zlen_app in IH. rewrite zlen_app, !app_assoc.
    rewrite <- (Z.add_assoc (zlen got)) in IH. case_decide.
    + destruct IH as (more & b & -> & Hz & Hcb & Hsb). exists (data ++ more), b.
      rewrite !app_assoc. split_and!; [done|done|done|]. by rewrite Hsb, app_assoc.
    + exact IH.
  - rewrite He, !app_nil_r, zlen_nil. rewrite !decide_False; [done| |lia].
    intros [_ Heq]. lia.
Qed.

(** C39: On a body delivered without network errors, in whatever pieces, the
    download returns the declared bytes if exactly those arrive; all that
    arrived and an error of kind [DownloadErrorEOF] if fewer do; and an error
    if more do. *)
Theorem clean_body_outcomes offset length link resp want :
  0 < length → 0 ≤ offset → offset + length < 2 ^ 63 →
  check_response offset length resp = Ok want → clean (hr_body resp) →
  let body := stream (hr_body resp) in
  match BaiduClient.ReadRange offset length (Ok link) (Ok resp) None with
  | (data, None) => data = body ∧ zlen body = want
  | (data, Some e) =>
      data = take (Z.to_nat want) body ∧
      (zlen body < want ∧ ClassifyDownloadError (Some e) = DownloadErrorEOF ∨
       want < zlen body)
  end.
Proof.
  intros Hl H0 Hmax Hc Hcl. cbv zeta. unfold BaiduClient.ReadRange.
  rewrite (decide_False (P := offset < 0)), (decide_False (P := length = 0)), Hc by lia.
  apply check_response_Ok in Hc as (_ & Hw & _); [|lia..].
  assert (zlen ([] : bytes) = 0) as Hnil by apply zlen_nil.
  pose proof (read_loop_clean (Z.to_nat want) want [] (hr_body resp) Hcl
    ltac:(rewrite Hnil; lia) ltac:(rewrite Hnil; lia)) as Hloop.
  rewrite Hnil in Hloop. cbn [app] in Hloop. case_decide as Hlen.
  - destruct Hloop as (more & b & -> & Hz & Hb & Hs). unfold read_extra.
    destruct (next_read_clean 1 b ltac:(lia) Hb)
      as (data & err & b' & -> & _ & Hsb & Hd & [(-> & Hne)|(-> & -> & He)]); cbn beta iota zeta.
    + rewrite decide_True by done. split.
      { rewrite Hs, take_app_length' by (unfold zlen in *; lia). done. }
      right. rewrite Hs, Hsb, !zlen_app. pose proof (zlen_nonneg (stream b')).
      assert (zlen data ≠ 0) by (intros ?; by apply Hne, zlen_0).
      pose proof (zlen_nonneg data). lia.
    + rewrite decide_False by auto. cbn. rewrite Hs, He, app_nil_r. done.
  - rewrite Hloop. split; [rewrite take_ge; [done|unfold zlen in *; lia]|].
    left. split; [lia|]. done.
Qed.
Lemma clean_body_outcomes_witness :
  check_response 4 8 (mkResponse 206 "bytes 4-5/6" [([Byte.x35], None)]) = Ok 2 ∧
  zlen [Byte.x35] < 2.
Proof.
  split; [vm_compute; reflexivity|].
  pose proof (clean_body_outcomes 4 8 (mkLink "https://d.example/7" 600)
    (mkResponse 206 "bytes 4-5/6" [([Byte.x35], None)]) 2 ltac:(lia) ltac:(lia) ltac:(lia) eq_refl
    ltac:(by repeat constructor)) as H.
  vm_compute in H. destruct H as [_ [[H _]|H]]; [exact H|discriminate].
Defined.

(** ** Listing *)

(** C40: Against a service that pages through a directory's entries, [n > 0]
    at a time, [List] returns every entry once, in order. *)
Theorem list_collects_all_pages all n fuel :
  0 < n → zlen all < Z.of_nat fuel * n →
  BaiduClient.List (page_of all n) fuel = Some (Ok (map metaToRemote all)).
Proof.
  intros Hn Hf. unfold BaiduClient.List.
  rewrite List_loop_pages; [by rewrite drop_0|lia..|].
  pose proof (zlen_nonneg all). nia.
Qed.
Definition entryNamed (i : Z) : apiEntry := mkApiEntry i "f" "/f" 1 0 0 0 "" "".
Lemma list_collects_all_pages_witness :
  BaiduClient.List (page_of (map entryNamed [1; 2; 3; 4; 5]) 2) 3
  = Some (Ok (map metaToRemote (map entryNamed [1; 2; 3; 4; 5]))).
Proof. apply list_collects_all_pages; vm_compute; reflexivity. Defined.

Lemma marks_increase server fuel mark :
  StronglySorted Z.lt (marks server fuel mark) ∧ Forall (λ m, mark ≤ m) (marks server fuel mark).
Proof.
  revert mark. induction fuel as [|fuel IH]; intros mark; cbn [marks]; [split; constructor|].
  destruct (server mark) as [resp|e]; [|repeat constructor; lia].
  case_decide as Hstop; [repeat constructor; lia|].
  destruct (IH (lr_next resp)) as [Hs Hle]. split; constructor; try done; try lia;
    (eapply Forall_impl; [exact Hle|]; cbn; lia).
Qed.
Lemma List_loop_ends server bound fuel mark out :
  (∀ m resp, server m = Ok resp → lr_next resp ≤ bound) →
  bound - mark < Z.of_nat fuel → 0 < Z.of_nat fuel → is_Some (List_loop server fuel mark out).
Proof.
  intros Hb. revert mark out. induction fuel as [|fuel IH]; intros mark out Hf Hpos; [lia|].
  cbn [List_loop]. destruct (server mark) as [resp|e] eqn:Hm; [|eauto].
  case_decide; [eauto|]. cbv zeta. case_decide as Hstop; [eauto|].
  specialize (Hb _ _ Hm). apply IH; lia.
Qed.

(** The marks are the requests [List] makes: it depends on no other answer. *)
Lemma List_loop_asks server server' fuel mark out :
  (∀ m, m ∈ marks server fuel mark → server' m = server m) →
  List_loop server' fuel mark out = List_loop server fuel mark out.
Proof.
  revert mark out. induction fuel as [|fuel IH]; intros mark out Hm; [done|].
  cbn [marks] in Hm. cbn [List_loop]. rewrite (Hm mark) by (left). cbv zeta.
  destruct (server mark) as [resp|e]; [|done].
  destruct (decide (lr_errorCode resp ≠ 0 ∧ lr_errorCode resp ≠ 109)) as [|He]; [done|].
  destruct (decide (lr_hasMore resp = 0 ∨ lr_next resp ≤ mark ∨ lr_entries resp = [])) as [|Hstop]; [done|].
  apply IH. intros m Hin. apply Hm. right. rewrite decide_False; [done|]. by intros [?|?].
Qed.

(** Whatever the service answers, [List] never asks for the same page
    twice, its marks increase from one request to the next, and it ends: with
    marks up to [bound] it makes at most [bound + 1] requests. *)
Theorem list_ends server bound fuel :
  0 ≤ bound → (∀ m resp, server m = Ok resp → lr_next resp ≤ bound) → bound < Z.of_nat fuel →
  is_Some (BaiduClient.List server fuel) ∧ StronglySorted Z.lt (marks server fuel 0) ∧
  (∀ more, marks server (fuel + more) 0 = marks server fuel 0) ∧
  (∀ server', (∀ m, m ∈ marks server fuel 0 → server' m = server m) →
    BaiduClient.List server' fuel = BaiduClient.List server fuel).
Proof.
  intros H0 Hb Hf. split; [by eapply List_loop_ends; [done|lia..]|].
  split; [apply marks_increase|]. split; [|intros server'; apply List_loop_asks]. intros more.
  assert (∀ mark, bound - mark < Z.of_nat fuel → 0 < Z.of_nat fuel →
    marks server (fuel + more) mark = marks server fuel mark) as Hm; [|apply Hm; lia].
  clear Hf. induction fuel as [|fuel IH]; intros mark Hf Hpos; [lia|]. cbn [marks Nat.add].
  destruct (server mark) as [resp|e] eqn:Hs; [|done]. case_decide as Hstop; [done|].
  specialize (Hb _ _ Hs). rewrite IH; [done|lia..].
Qed.
Definition stuckServer : Z → result goError apiListResponse :=
  λ _, Ok (mkListResponse [entryNamed 1] 1 3 0 "").
Lemma list_ends_witness :
  is_Some (BaiduClient.List stuckServer 4) ∧ marks stuckServer 4 0 = [0; 3].
Proof.
  split; [|vm_compute; reflexivity].
  exact (proj1 (list_ends stuckServer 3 4 ltac:(lia) ltac:(intros m resp [= <-]; cbn; lia) ltac:(lia))).
Defined.

(** ** Download links *)

(** What the service answers when it is asked for a link. *)
Definition asked (meta : result goError apiFileMetaResponse) (head : exchange) (later : Z)
    : result goError DownloadLink :=
  link ← download_link meta; url ← resolveDownloadURL link head; Ok (mkLink url (later + tenMinutes)).
Lemma GetDownloadLink_miss fsid now meta head later c :
  (cachedDownloadLink fsid now c).1 = None →
  (GetDownloadLink fsid now meta head later c).1 = asked meta head later.
Proof.
  unfold GetDownloadLink, asked. destruct (cachedDownloadLink fsid now c) as [hit c']. cbn. intros ->.
  destruct (download_link meta) as [link|e]; [|done]. cbn.
  by destruct (resolveDownloadURL link head).
Qed.

(** A link [GetDownloadLink] returned is returned again, without asking
    the service and without a change of state, until it expires; once it has
    expired, or was invalidated, or the tokens were renewed, the service is
    asked.  Invalidating one file's link leaves the others'. *)
Theorem download_link_lifetime fsid now meta head later c link c' :
  fsid ≠ "" → GetDownloadLink fsid now meta head later c = (Ok link, c') →
  let valid now := lk_ExpiresAt link = 0 ∨ now ≤ lk_ExpiresAt link in
  (∀ now meta head later, valid now → GetDownloadLink fsid now meta head later c' = (Ok link, c')) ∧
  (∀ now meta head later, ¬ valid now →
    (GetDownloadLink fsid now meta head later c').1 = asked meta head later) ∧
  (∀ now meta head later,
    (GetDownloadLink fsid now meta head later (InvalidateDownloadLink fsid c')).1 = asked meta head later) ∧
  (∀ other now, other ≠ fsid →
    (cachedDownloadLink other now (InvalidateDownloadLink fsid c')).1 = (cachedDownloadLink other now c').1) ∧
  (∀ decode answer update err c'', RefreshAuth decode answer update c' = (err, c'') →
    accessToken c'' ≠ accessToken c' →
    ∀ now meta head later, (GetDownloadLink fsid now meta head later c'').1 = asked meta head later).
Proof.
  intros Hfs Hget. cbv zeta.
  assert (ac_links c' !! fsid = Some link) as Hin.
  { unfold GetDownloadLink, cachedDownloadLink in Hget.
    destruct (ac_links c !! fsid) as [l|] eqn:Hl.
    - case_decide; cbn in Hget; [|by injection Hget as <- <-].
      destruct (download_link meta) as [u|]; [|done]. cbn in Hget.
      destruct (resolveDownloadURL u head); [|done]. injection Hget as <- <-. apply lookup_insert_eq.
    - destruct (download_link meta) as [u|]; [|done]. cbn in Hget.
      destruct (resolveDownloadURL u head); [|done]. injection Hget as <- <-. apply lookup_insert_eq. }
  split_and!.
  - intros now' meta' head' later' Hv. unfold GetDownloadLink, cachedDownloadLink. rewrite Hin.
    rewrite decide_False by lia. done.
  - intros now' meta' head' later' Hv. apply GetDownloadLink_miss. unfold cachedDownloadLink.
    rewrite Hin. by rewrite decide_True by lia.
  - intros. apply GetDownloadLink_miss. unfold cachedDownloadLink, InvalidateDownloadLink.
    rewrite decide_False by done. cbn. by rewrite lookup_delete_eq.
  - intros other now' Hne. unfold cachedDownloadLink, InvalidateDownloadLink.
    rewrite decide_False by done. cbn. rewrite lookup_delete_ne by done.
    destruct (ac_links c' !! other); [|done]. by case_decide.
  - intros decode answer update err c'' Hr Htok now' meta' head' later'. apply GetDownloadLink_miss.
    unfold RefreshAuth in Hr. case_decide; [by injection Hr as <- <-|].
    match type of Hr with match ?m with _ => _ end = _ => destruct m as [[access refresh]|] end;
      [|by injection Hr as <- <-].
    case_decide; injection Hr as <- <-; [done|]. unfold cachedDownloadLink. cbn. by rewrite lookup_empty.
Qed.
Definition oneLink : APIClient := mkAPIClient "t" "r" ∅.
Definition metaAnswer : result goError apiFileMetaResponse :=
  Ok (mkMetaResponse [mkApiEntry 7 "f" "/f" 6 0 0 0 "" "https://d.example/7"] [] 0 "").
Definition headAnswer : exchange := Ok (mkRaw 302 "https://cdn.example/7" (Ok "")).
Definition downRaw : exchange := Err (errors_New "down").
Lemma download_link_lifetime_witness :
  GetDownloadLink "7" 0 metaAnswer headAnswer 0 oneLink
  = (Ok (mkLink "https://cdn.example/7" tenMinutes),
     cacheDownloadLink "7" (mkLink "https://cdn.example/7" tenMinutes) oneLink) ∧
  (GetDownloadLink "7" 5 (Err (errors_New "down")) downRaw 5
    (cacheDownloadLink "7" (mkLink "https://cdn.example/7" tenMinutes) oneLink)).1
  = Ok (mkLink "https://cdn.example/7" tenMinutes).
Proof.
  split; [vm_compute; reflexivity|].
  assert (GetDownloadLink "7" 0 metaAnswer headAnswer 0 oneLink
    = (Ok (mkLink "https://cdn.example/7" tenMinutes),
       cacheDownloadLink "7" (mkLink "https://cdn.example/7" tenMinutes) oneLink)) as H
    by (vm_compute; reflexivity).
  by rewrite (proj1 (download_link_lifetime "7" 0 metaAnswer headAnswer 0 oneLink _ _ ltac:(done) H)
    5 (Err (errors_New "down")) downRaw 5 ltac:(right; vm_compute; discriminate)).
Defined.
