(* ===== verification/MetaStore.v ===== *)
(** * The metadata store ([src/internal/store/store.go])

    The table [entries] as the list of its rows in the order of their ids, and
    the statements of the file run on it.  A statement may fail, with the error
    the database reports: [db_faults] says which of the coming ones do.  The
    database handle is there: [Open] refuses a nil one. *)
From Stdlib Require Import Ascii.
From stdpp Require Import sorting.
From S2P Require Import Prelude GoStrings GoErrors GoMonads GoPath GoSort.

Record Entry := mkEntry {
  en_ID : Z; en_FSID : string; en_Parent : string; en_Path : string; en_Name : string; en_Size : Z;
  en_IsDir : bool; en_MTM : Z; en_MD5 : string; en_LastSyncAt : Z; en_ExpiresAt : Z; en_Negative : bool
}.
#[export] Instance Entry_eta : Eta Entry := λ e,
  mkEntry (en_ID e) (en_FSID e) (en_Parent e) (en_Path e) (en_Name e) (en_Size e) (en_IsDir e)
    (en_MTM e) (en_MD5 e) (en_LastSyncAt e) (en_ExpiresAt e) (en_Negative e).
#[export] Instance Entry_eq_dec : EqDecision Entry.
Proof. solve_decision. Defined.

(** The rows, the next id, and the outcomes of the coming statements. *)
Record DB := mkDB { db_rows : list Entry; db_next : Z; db_faults : list (option goError) }.
#[export] Instance DB_eta : Eta DB := λ d, mkDB (db_rows d) (db_next d) (db_faults d).
Definition newDB : DB := mkDB [] 1 [].

(** ** Statements *)
Abbreviation sqlM := (errorM DB).

(** One statement: it fails and changes nothing, or runs. *)
Definition statement {A} (run : DB → A * DB) : sqlM A := λ db,
  match db_faults db with
  | Some e :: rest => (Err e, db <| db_faults := rest |>)
  | faults => let '(a, db) := run (db <| db_faults := tail faults |>) in (Ok a, db)
  end.
Definition exec (change : DB → DB) : sqlM unit := statement (λ db, (tt, change db)).
Definition query {A} (ask : list Entry → A) : sqlM A := statement (λ db, (ask (db_rows db), db)).

(** [Begin], the statements, [Commit]; the deferred [Rollback] undoes them when
    [Commit] was not reached or failed. *)
Definition transaction {A} (body : sqlM A) : sqlM A := λ db,
  match (a ← (_ ← exec (λ db, db); body); _ ← exec (λ db, db); mret a) db with
  | (Ok a, db') => (Ok a, db')
  | (Err e, db') => (Err e, db <| db_faults := db_faults db' |>)
  end.

(** [insert ... on conflict(path) do update set ...]: every column but the id. *)
Definition has_path (path : string) (e : Entry) : Prop := en_Path e = path.
#[export] Instance has_path_dec path e : Decision (has_path path e).
Proof. unfold has_path. apply _. Defined.
Definition with_path (path : string) (rows : list Entry) : list Entry := filter (has_path path) rows.
Definition insert_row (e : Entry) (db : DB) : DB :=
  db <| db_rows ::= λ rows, rows ++ [e <| en_ID := db_next db |>] |> <| db_next ::= Z.succ |>.
Definition upsert (e : Entry) (db : DB) : DB :=
  if decide (with_path (en_Path e) (db_rows db) = []) then insert_row e db
  else db <| db_rows ::= map (λ r, if decide (has_path (en_Path e) r) then e <| en_ID := en_ID r |> else r) |>.
(** [on conflict(path) do nothing] *)
Definition insert_new (e : Entry) (db : DB) : DB :=
  if decide (with_path (en_Path e) (db_rows db) = []) then insert_row e db else db.
Definition has_parent (parent : string) (e : Entry) : Prop := en_Parent e = parent.
#[export] Instance has_parent_dec parent e : Decision (has_parent parent e).
Proof. unfold has_parent. apply _. Defined.
Definition keep_rows (P : Entry → bool) (db : DB) : DB := db <| db_rows ::= filter (λ e, Is_true (P e)) |>.

(** ** The operator [like]

    ['%'] stands for any bytes and ['_'] for one character, which in UTF-8 is a
    byte and the continuation bytes that follow a leading one; ASCII letters
    match in either case. *)
Definition byte_of (c : ascii) : Z := Z.of_N (N_of_ascii c).
Fixpoint skip_continuation (s : string) : string :=
  match s with
  | String c r => if decide (128 ≤ byte_of c < 192) then skip_continuation r else s
  | EmptyString => EmptyString
  end.
Definition skip_character (c : ascii) (rest : string) : string :=
  if decide (192 ≤ byte_of c) then skip_continuation rest else rest.
Fixpoint like (pattern s : string) {struct pattern} : bool :=
  match pattern with
  | EmptyString => bool_decide (s = "")
  | String c p =>
      if decide (c = "%"%char) then
        (fix any (s : string) : bool :=
           like p s || match s with EmptyString => false | String _ s => any s end) s
      else
        match s with
        | EmptyString => false
        | String d s =>
            if decide (c = "_"%char) then like p (skip_character d s)
            else bool_decide (lower c = lower d) && like p s
        end
  end.

(** ** The operations *)
Section operations.
Context `{!NameOrder Entry en_Name}.
Implicit Types (path parentID : string) (e : Entry) (entries : list Entry) (now : Z).

Definition upsertEntries entries : sqlM unit :=
  if decide (entries = []) then mret tt
  else transaction (_ ← exec (λ db, db) (* Prepare *); each (λ e, exec (upsert e)) entries).
Definition UpsertEntry e : sqlM unit := exec (upsert e).
Definition UpsertEntries entries : sqlM unit := upsertEntries entries.
Definition UpsertFromRemote parent entries : sqlM unit :=
  upsertEntries (map (λ e, if decide (en_Parent e = "") then e <| en_Parent := parent |> else e) entries).

Definition GetByPath path : sqlM (option Entry) := query (λ rows, head (with_path path rows)).
Definition GetChildrenByParent parentID : sqlM (list Entry) :=
  query (λ rows, by_name en_Name (filter (has_parent parentID) rows)).
Definition ListChildren path : sqlM (list Entry) :=
  if decide (path = "/") then GetChildrenByParent "0"
  else
    parent ← GetByPath path;
    match parent with
    | None => mret []
    | Some parent => GetChildrenByParent (en_FSID parent)
    end.

Definition ReplaceChildren parentID entries : sqlM unit :=
  transaction
    (_ ← exec (keep_rows (λ e, bool_decide (¬ has_parent parentID e)));
     if decide (entries = []) then mret tt
     else _ ← exec (λ db, db) (* Prepare *); each (λ e, exec (upsert e)) entries).

(** Seconds of the clock [now], in nanoseconds. *)
Definition unix now : Z := now / 10 ^ 9.
Definition day : Z := 24 * 3600 * 10 ^ 9.
Definition rootEntry (now later : Z) : Entry :=
  mkEntry 0 "0" "" "/" "" 0 true 0 "" (unix now) (unix (later + day)) false.
Definition EnsureRoot (now later : Z) : sqlM unit := exec (insert_new (rootEntry now later)).
Definition ExpirePath path : sqlM unit :=
  exec (λ db, db <| db_rows ::= map (λ r, if decide (has_path path r) then r <| en_ExpiresAt := 0 |> else r) |>).
Definition refuseRoot : goError := errors_New "refuse to delete root".
Definition DeletePath path : sqlM unit :=
  if decide (path = "" ∨ path = "/") then fail refuseRoot
  else
    let pattern := trim_right_slashes path +:+ "/%" in
    exec (keep_rows (λ e, negb (bool_decide (has_path path e) || like pattern (en_Path e)))).
End operations.

(** [Sorted] of a copy of the list. *)
Definition SortedEntries `{!NameOrder Entry en_Name} (entries : list Entry) : list Entry :=
  by_name en_Name entries.
Definition DebugString (e : Entry) : string := en_Path e +:+ " (" +:+ en_Name e +:+ ")".
