(* ===== verification/MetaStoreInv.v ===== *)
(** * The metadata store as a finite map

    The table is a map from paths to entries: a small Hoare logic relates the
    statements of [MetaStore] to changes of that map, keeps the table well
    formed, and shows which operations change nothing when they fail. *)
From stdpp Require Import sorting.
From S2P Require Import Prelude GoStrings GoErrors GoMonads GoPath MetaStore.

Create HintDb sql.

(** [path] is unique, and the ids, given out in order, are those of the rows. *)
Record db_wf (db : DB) : Prop := {
  wf_paths : NoDup (map en_Path (db_rows db));
  wf_ids : StronglySorted Z.lt (map en_ID (db_rows db));
  wf_next : Forall (λ e, 0 < en_ID e < db_next db) (db_rows db);
  wf_pos : 0 < db_next db
}.

(** The map the table stands for; ids are the table's own. *)
Definition strip (e : Entry) : Entry := e <| en_ID := 0 |>.
Definition keyed (e : Entry) : string * Entry := (en_Path e, strip e).
Definition tbl (rows : list Entry) : gmap string Entry := list_to_map (keyed <$> rows).
Definition table (db : DB) : gmap string Entry := tbl (db_rows db).

Lemma keyed_fst rows : (keyed <$> rows).*1 = map en_Path rows.
Proof. by rewrite <- list_fmap_compose. Qed.
Lemma tbl_cons e rows : tbl (e :: rows) = <[en_Path e := strip e]> (tbl rows).
Proof. done. Qed.
Lemma tbl_lookup rows path : tbl rows !! path = strip <$> head (with_path path rows).
Proof.
  induction rows as [|e rows IH]; [done|]. rewrite tbl_cons. unfold with_path in *. rewrite filter_cons.
  case_decide as Hp; unfold has_path in Hp.
  - subst path. by rewrite lookup_insert_eq.
  - by rewrite lookup_insert_ne.
Qed.
Lemma tbl_None rows path : with_path path rows = [] ↔ tbl rows !! path = None.
Proof. rewrite tbl_lookup. by destruct (with_path path rows). Qed.
Lemma tbl_Some rows path x :
  NoDup (map en_Path rows) → tbl rows !! path = Some x ↔ ∃ e, e ∈ rows ∧ en_Path e = path ∧ strip e = x.
Proof.
  intros Hnd. unfold tbl. rewrite <- elem_of_list_to_map by (by rewrite keyed_fst).
  rewrite list_elem_of_fmap. unfold keyed. split.
  - intros (e & [= -> ->] & He). eauto.
  - intros (e & He & <- & <-). eauto.
Qed.
Lemma path_not_in path rows : with_path path rows = [] → path ∉ map en_Path rows.
Proof.
  intros Hw Hin. apply list_elem_of_fmap in Hin as (e & -> & He).
  assert (e ∈ with_path (en_Path e) rows) as Hf by (by apply list_elem_of_filter).
  rewrite Hw in Hf. by apply not_elem_of_nil in Hf.
Qed.

(** ** Changes of the rows *)
Lemma tbl_alter path g h rows :
  NoDup (map en_Path rows) → (∀ e, en_Path e = path → en_Path (g e) = path ∧ strip (g e) = h (strip e)) →
  tbl (map (λ e, if decide (has_path path e) then g e else e) rows) = alter h path (tbl rows).
Proof.
  intros Hnd Hg. induction rows as [|e rows IH]; [symmetry; apply alter_empty|].
  cbn [map] in Hnd |- *. apply NoDup_cons in Hnd as [Hn Hnd]. rewrite !tbl_cons, IH by done.
  case_decide as Hp; unfold has_path in Hp.
  - destruct (Hg e Hp) as [-> ->]. rewrite Hp. subst path.
    assert (tbl rows !! en_Path e = None) as Hno.
    { apply tbl_None. destruct (with_path (en_Path e) rows) as [|x l] eqn:Hw; [done|].
      assert (x ∈ with_path (en_Path e) rows) as Hx by (rewrite Hw; by left).
      apply list_elem_of_filter in Hx as [Hx1 Hx2]. destruct Hn. rewrite <- Hx1.
      by apply (list_elem_of_fmap_2 en_Path). }
    by rewrite alter_insert_eq, (alter_id' _ (tbl rows)) by done.
  - by rewrite alter_insert_ne by done.
Qed.

Lemma tbl_filter (P : Entry → Prop) `{!∀ e, Decision (P e)} (Q : string * Entry → Prop) `{!∀ kx, Decision (Q kx)} rows :
  NoDup (map en_Path rows) → (∀ e, P e ↔ Q (keyed e)) → tbl (filter P rows) = filter Q (tbl rows).
Proof.
  intros Hnd HPQ. induction rows as [|e rows IH]; [done|].
  cbn [map] in Hnd. apply NoDup_cons in Hnd as [Hn Hnd].
  assert (tbl rows !! en_Path e = None) as Hno.
  { apply not_elem_of_list_to_map_1. by rewrite keyed_fst. }
  rewrite filter_cons, tbl_cons. destruct (decide (P e)) as [Hp|Hp].
  - rewrite tbl_cons, IH, map_filter_insert_True; [done| |done]. by apply HPQ in Hp.
  - rewrite IH, map_filter_insert_False by (done || (intros Hq; by apply Hp, HPQ)).
    by rewrite delete_id.
Qed.

Lemma tbl_upsert e db : db_wf db → table (upsert e db) = <[en_Path e := strip e]> (table db).
Proof.
  intros Hwf. unfold upsert. case_decide as Hnew.
  - unfold table, tbl. cbn [db_rows insert_row set_field]. rewrite fmap_app. apply list_to_map_snoc. rewrite keyed_fst. by apply path_not_in.
  - transitivity (alter (λ _, strip e) (en_Path e) (table db)); unfold table.
    { apply (tbl_alter (en_Path e) (λ r, e <| en_ID := en_ID r |>) (λ _, strip e)
        (db_rows db)); [apply Hwf|done]. }
    destruct (tbl (db_rows db) !! en_Path e) as [x|] eqn:Hx; [|by apply tbl_None in Hx].
    apply map_eq. intros p. destruct (decide (p = en_Path e)) as [->|Hne].
    + by rewrite lookup_alter_eq, Hx, lookup_insert_eq.
    + by rewrite lookup_alter_ne, lookup_insert_ne.
Qed.

(** ** Well-formedness *)
Lemma insert_row_wf e db : db_wf db → with_path (en_Path e) (db_rows db) = [] → db_wf (insert_row e db).
Proof.
  intros [H1 H2 H3 H4] Hnew. split; cbn.
  - rewrite map_app. apply NoDup_app. split; [done|]. split; [|apply NoDup_singleton].
    intros p Hp Hin. apply list_elem_of_singleton in Hin as ->. by eapply path_not_in.
  - rewrite map_app. cbn. apply StronglySorted_app_2; [|done|repeat constructor].
    intros x y Hx Hy. apply list_elem_of_singleton in Hy as ->.
    apply list_elem_of_fmap in Hx as (r & -> & Hr). rewrite Forall_forall in H3. apply H3 in Hr. lia.
  - apply Forall_app. split; [|repeat constructor; cbn; lia].
    eapply Forall_impl; [exact H3|]. cbn. lia.
  - lia.
Qed.
Lemma map_rows_wf f db :
  db_wf db → (∀ e, e ∈ db_rows db → en_Path (f e) = en_Path e ∧ en_ID (f e) = en_ID e) →
  db_wf (db <| db_rows ::= map f |>).
Proof.
  intros [H1 H2 H3 H4] Hf.
  assert (map en_Path (map f (db_rows db)) = map en_Path (db_rows db)) as Hp.
  { rewrite map_map. apply map_ext_in. intros e He. apply Hf. by apply list_elem_of_In. }
  assert (map en_ID (map f (db_rows db)) = map en_ID (db_rows db)) as Hi.
  { rewrite map_map. apply map_ext_in. intros e He. apply Hf. by apply list_elem_of_In. }
  split; cbn; [by rewrite Hp|by rewrite Hi| |done].
  apply Forall_map. rewrite Forall_forall in *. intros e He. cbn. destruct (Hf e He) as [_ ->]. by apply H3.
Qed.
Lemma upsert_wf e db : db_wf db → db_wf (upsert e db).
Proof.
  intros Hwf. unfold upsert. case_decide; [by apply insert_row_wf|]. apply map_rows_wf; [done|].
  intros r _. case_decide as Hp; [|done]. split; [symmetry; apply Hp|done].
Qed.
Lemma keep_rows_wf P db : db_wf db → db_wf (keep_rows P db).
Proof.
  intros [H1 H2 H3 H4]. unfold keep_rows. split; cbn; [| | |done].
  - induction (db_rows db) as [|e rows IH]; [done|]. cbn [map] in H1. apply NoDup_cons in H1 as [Hn H1].
    inversion H2; inversion H3; subst. rewrite filter_cons. case_decide; [|by apply IH]. cbn [map].
    apply NoDup_cons. split; [|by apply IH]. intros Hin. apply Hn.
    apply list_elem_of_fmap in Hin as (r & Hr & Hr'). rewrite Hr.
    apply (list_elem_of_fmap_2 en_Path). by apply list_elem_of_filter in Hr' as [_ ?].
  - clear H1 H3. induction (db_rows db) as [|e rows IH]; [done|]. cbn [map] in H2. inversion H2 as [|?? Hs Ha]; subst.
    rewrite filter_cons. case_decide; [|by apply IH]. cbn [map]. constructor; [by apply IH|].
    rewrite Forall_forall in *. intros x Hx. apply Ha.
    apply list_elem_of_fmap in Hx as (r & -> & Hr). apply (list_elem_of_fmap_2 en_ID).
    by apply list_elem_of_filter in Hr as [_ ?].
  - rewrite Forall_forall in *. intros e He. apply list_elem_of_filter in He as [_ He]. by apply H3.
Qed.

(** ** A Hoare logic for statements

    [triple m Q]: from a well-formed table [m] ends in one, and if it returns
    [a] without an error, [Q a] relates the maps before and after. *)
Abbreviation entries_map := (gmap string Entry).
Definition triple {A} (m : sqlM A) (Q : A → entries_map → entries_map → Prop) : Prop :=
  ∀ db r db', db_wf db → m db = (r, db') →
    db_wf db' ∧ ∀ a, r = Ok a → Q a (table db) (table db').
(** The rows and ids are as they were if [m] fails. *)
Definition same_rows (db db' : DB) : Prop := db_rows db' = db_rows db ∧ db_next db' = db_next db.
Definition atomic {A} (m : sqlM A) : Prop := ∀ db e db', m db = (Err e, db') → same_rows db db'.
Definition readonly {A} (m : sqlM A) : Prop := ∀ db r db', m db = (r, db') → same_rows db db'.

Lemma same_rows_wf db db' : same_rows db db' → db_wf db → db_wf db'.
Proof. intros [E1 E2] [H1 H2 H3 H4]. split; by rewrite ?E1, ?E2. Qed.
Lemma same_rows_table db db' : same_rows db db' → table db' = table db.
Proof. intros [E _]. unfold table. by rewrite E. Qed.

Lemma statement_run {A} (run : DB → A * DB) db r db' :
  statement run db = (r, db') →
  (∃ e, r = Err e ∧ same_rows db db') ∨
  (∃ db0, same_rows db db0 ∧ r = Ok (run db0).1 ∧ db' = (run db0).2).
Proof.
  unfold statement. intros H.
  assert (∀ faults, (let '(a, db1) := run (db <| db_faults := faults |>) in (Ok a, db1)) = (r, db') →
    ∃ db0, same_rows db db0 ∧ r = Ok (run db0).1 ∧ db' = (run db0).2) as Hrun.
  { intros faults Hf. exists (db <| db_faults := faults |>). split; [done|].
    destruct (run (db <| db_faults := faults |>)) as [a d]. by injection Hf as <- <-. }
  destruct (db_faults db) as [|[e|] rest]; [right; by eapply Hrun| |right; by eapply Hrun].
  injection H as <- <-. left. by exists e.
Qed.

Lemma triple_mono {A} (m : sqlM A) (Q Q' : A → entries_map → entries_map → Prop) :
  triple m Q → (∀ a t t', Q a t t' → Q' a t t') → triple m Q'.
Proof. intros H HQ db r db' Hwf Hm. destruct (H _ _ _ Hwf Hm) as [? Hq]. split; [done|]. intros a Ha. by apply HQ, Hq. Qed.
Lemma triple_ret {A} (a : A) : triple (mret a) (λ b t t', b = a ∧ t' = t).
Proof. intros db r db' Hwf [= <- <-]. split; [done|]. by intros b [= ->]. Qed.
Lemma triple_fail {A} e : triple (fail e : sqlM A) (λ _ _ _, False).
Proof. intros db r db' Hwf [= <- <-]. done. Qed.
Lemma triple_bind {A B} (m : sqlM A) (f : A → sqlM B) Q (R : A → B → entries_map → entries_map → Prop) :
  triple m Q → (∀ a, triple (f a) (R a)) →
  triple (m ≫= f) (λ b t t', ∃ a t1, Q a t t1 ∧ R a b t1 t').
Proof.
  intros Hm Hf db r db' Hwf. unfold mbind, errorM_bind. destruct (m db) as [[a|e] db1] eqn:Hrun.
  - destruct (Hm _ _ _ Hwf Hrun) as [Hwf1 HQ]. intros Hrun2.
    destruct (Hf a _ _ _ Hwf1 Hrun2) as [Hwf2 HR].
    split; [done|]. intros b Hb. exists a, (table db1). split; [by apply HQ|by apply HR].
  - intros [= <- <-]. split; [|done]. by apply (Hm _ _ _ Hwf Hrun).
Qed.
Lemma triple_exec change (Q : entries_map → entries_map → Prop) :
  (∀ db, db_wf db → db_wf (change db) ∧ Q (table db) (table (change db))) →
  triple (exec change) (λ _, Q).
Proof.
  intros Hc db r db' Hwf Hs. apply statement_run in Hs as [(e & -> & Hsame)|(db0 & Hsame & -> & ->)].
  - split; [by eapply same_rows_wf|done].
  - cbn. rewrite <- (same_rows_table _ _ Hsame). split; [|intros _ _]; apply Hc; by eapply same_rows_wf.
Qed.
Lemma triple_query {A} (ask : list Entry → A) :
  triple (query ask) (λ a t t', t' = t ∧ ∃ db, db_wf db ∧ table db = t ∧ a = ask (db_rows db)).
Proof.
  intros db r db' Hwf Hs. apply statement_run in Hs as [(e & -> & Hsame)|(db0 & Hsame & -> & ->)].
  - split; [by eapply same_rows_wf|done].
  - cbn. split; [by eapply same_rows_wf|]. intros a [= <-]. split; [by apply same_rows_table|].
    exists db. split_and!; [done|done|]. by rewrite (proj1 Hsame).
Qed.
Lemma triple_noop : triple (exec (λ db, db)) (λ _ t t', t' = t).
Proof. by apply triple_exec. Qed.
Lemma triple_transaction {A} (body : sqlM A) Q : triple body Q → triple (transaction body) Q.
Proof.
  intros Hb db r db' Hwf. unfold transaction.
  assert (triple (a ← (_ ← exec (λ db, db); body); _ ← exec (λ db, db); mret a) Q) as Ht.
  { eapply triple_mono.
    - eapply triple_bind; [eapply triple_bind; [apply triple_noop|intros u; exact Hb]|].
      intros a. eapply triple_bind; [apply triple_noop|]. intros u. apply triple_ret.
    - intros a t t' (a' & t1 & (u & t0 & Ht0 & HQ) & H2). cbn in H2.
      destruct H2 as (u' & t2 & Ht2 & Ha & Ht). by subst. }
  destruct ((a ← (_ ← exec (λ db, db); body); _ ← exec (λ db, db); mret a) db) as [[a|e] db1] eqn:Hrun;
    intros [= <- <-].
  - by apply (Ht _ _ _ Hwf Hrun).
  - split; [by apply (same_rows_wf db)|done].
Qed.
Lemma triple_each (f : Entry → sqlM unit) (h : Entry → entries_map → entries_map) l :
  (∀ e, triple (f e) (λ _ t t', t' = h e t)) →
  triple (each f l) (λ _ t t', t' = foldl (λ t e, h e t) t l).
Proof.
  intros Hf. induction l as [|e l IH]; cbn [each foldl].
  - eapply triple_mono; [apply triple_ret|]. by intros [] t t' [_ ->].
  - eapply triple_mono; [eapply triple_bind; [apply Hf|intros u; apply IH]|].
    by intros [] t t' (u & t1 & -> & ->).
Qed.

Lemma atomic_statement {A} (run : DB → A * DB) : atomic (statement run).
Proof. intros db e db' Hs. by apply statement_run in Hs as [(? & _ & ?)|(? & _ & ? & _)]. Qed.
Lemma readonly_query {A} (ask : list Entry → A) : readonly (query ask).
Proof.
  intros db r db' Hs. by apply statement_run in Hs as [(? & _ & ?)|(? & ? & _ & ->)].
Qed.
Lemma atomic_transaction {A} (body : sqlM A) : atomic (transaction body).
Proof. intros db e db'. unfold transaction. case_match. case_match; [done|]. by intros [= _ <-]. Qed.
Lemma readonly_bind {A B} (m : sqlM A) (f : A → sqlM B) :
  readonly m → (∀ a, readonly (f a)) → readonly (m ≫= f).
Proof.
  intros Hm Hf db r db'. unfold mbind, errorM_bind. destruct (m db) as [[a|e] db1] eqn:Hrun.
  - intros Hr. apply Hm in Hrun as [E1 E2]. apply Hf in Hr as [E3 E4]. split; congruence.
  - intros [= _ <-]. by apply Hm in Hrun.
Qed.
Lemma readonly_atomic {A} (m : sqlM A) : readonly m → atomic m.
Proof. intros H db e db'. apply H. Qed.

(** ** Without faults every operation succeeds *)
Definition succeeds {A} (m : sqlM A) : Prop :=
  ∀ db, db_faults db = [] → ∃ a db', m db = (Ok a, db') ∧ db_faults db' = [].
Lemma succeeds_ret {A} (a : A) : succeeds (mret a).
Proof. intros db Hf. by exists a, db. Qed.
Lemma succeeds_bind {A B} (m : sqlM A) (f : A → sqlM B) :
  succeeds m → (∀ a, succeeds (f a)) → succeeds (m ≫= f).
Proof.
  intros Hm Hf db Hdb. destruct (Hm db Hdb) as (a & db1 & Hrun & H1).
  destruct (Hf a db1 H1) as (b & db2 & Hrun2 & H2). exists b, db2. split; [|done].
  by rewrite (errorM_bind_run _ _ _ _ _ Hrun).
Qed.
Lemma succeeds_exec change : (∀ db, db_faults (change db) = db_faults db) → succeeds (exec change).
Proof.
  intros Hc [rows next faults] Hf. cbn in Hf. subst faults.
  exists tt, (change (mkDB rows next [])). split; [done|]. by rewrite Hc.
Qed.
Lemma succeeds_query {A} (ask : list Entry → A) : succeeds (query ask).
Proof. intros [rows next faults] Hf. cbn in Hf. subst faults. by eexists _, _. Qed.
Lemma succeeds_each {A} (f : A → sqlM unit) l : (∀ a, succeeds (f a)) → succeeds (each f l).
Proof. intros Hf. induction l as [|a l IH]; [apply succeeds_ret|]. by apply succeeds_bind. Qed.
Lemma succeeds_transaction {A} (body : sqlM A) : succeeds body → succeeds (transaction body).
Proof.
  intros Hb db Hf. unfold transaction.
  destruct (succeeds_bind (_ ← exec (λ db, db); body) (λ a, _ ← exec (λ db, db); mret a)
    ltac:(by apply succeeds_bind; [apply succeeds_exec|])
    ltac:(intros a; by apply succeeds_bind; [apply succeeds_exec|intros _; apply succeeds_ret]) db Hf)
    as (a & db' & -> & H). by exists a, db'.
Qed.
Lemma upsert_faults e db : db_faults (upsert e db) = db_faults db.
Proof. unfold upsert. by case_decide. Qed.
#[export] Hint Resolve succeeds_ret succeeds_bind succeeds_exec succeeds_query succeeds_each
  succeeds_transaction upsert_faults : sql.
