(* ===== verification/MetaStoreSpec.v ===== *)
(** * The abstract metadata store

    What each operation does to a finite map from paths to entries and what it
    answers, and the proof that the statements of [MetaStore] do it. *)
From Stdlib Require Import Ascii.
From stdpp Require Import sorting.
From S2P Require Import Prelude GoStrings GoErrors GoMonads GoPath GoSort MetaStore MetaStoreInv.

(** ** The abstract store *)
Inductive store_op :=
| OpUpsertEntry (e : Entry) | OpUpsertEntries (entries : list Entry)
| OpUpsertFromRemote (parent : string) (entries : list Entry)
| OpReplaceChildren (parent : string) (entries : list Entry)
| OpExpirePath (path : string) | OpDeletePath (path : string) | OpEnsureRoot (now later : Z)
| OpGetByPath (path : string) | OpGetChildrenByParent (parent : string) | OpListChildren (path : string).
Inductive answer := ADone | AEntry (e : option Entry) | AEntries (l : list Entry).

Definition insert_all (entries : list Entry) (t : entries_map) : entries_map :=
  foldl (λ t e, <[en_Path e := strip e]> t) t entries.
Definition set_parent (parent : string) (e : Entry) : Entry :=
  if decide (en_Parent e = "") then e <| en_Parent := parent |> else e.
Definition deleted (path : string) (e : Entry) : bool :=
  bool_decide (has_path path e) || like (trim_right_slashes path +:+ "/%") (en_Path e).
Definition spec_change (op : store_op) (t : entries_map) : entries_map :=
  match op with
  | OpUpsertEntry e => insert_all [e] t
  | OpUpsertEntries entries => insert_all entries t
  | OpUpsertFromRemote parent entries => insert_all (map (set_parent parent) entries) t
  | OpReplaceChildren parent entries =>
      insert_all entries (filter (λ kx, en_Parent kx.2 ≠ parent) t)
  | OpExpirePath path => alter (λ e, e <| en_ExpiresAt := 0 |>) path t
  | OpDeletePath path => filter (λ kx, deleted path kx.2 = false) t
  | OpEnsureRoot now later =>
      match t !! "/" with Some _ => t | None => <["/" := rootEntry now later]> t end
  | _ => t
  end.
(** The entries of a parent. *)
Definition children (parent : string) (t : entries_map) : list Entry :=
  (map_to_list (filter (λ kx, en_Parent kx.2 = parent) t)).*2.
Definition lists (l : list Entry) (wanted : list Entry) : Prop :=
  strip <$> l ≡ₚ wanted ∧ Sorted (λ a b, String.le (en_Name a) (en_Name b)) l.
Definition spec_answer (op : store_op) (t : entries_map) (a : answer) : Prop :=
  match op, a with
  | OpGetByPath path, AEntry e => strip <$> e = t !! path
  | OpGetChildrenByParent parent, AEntries l => lists l (children parent t)
  | OpListChildren path, AEntries l =>
      lists l (if decide (path = "/") then children "0" t
               else match t !! path with Some e => children (en_FSID e) t | None => [] end)
  | (OpGetByPath _ | OpGetChildrenByParent _ | OpListChildren _), _ => False
  | _, _ => a = ADone
  end.

Section refinement.
Context `{!NameOrder Entry en_Name}.

Definition run_op (op : store_op) : sqlM answer :=
  match op with
  | OpUpsertEntry e => _ ← UpsertEntry e; mret ADone
  | OpUpsertEntries entries => _ ← UpsertEntries entries; mret ADone
  | OpUpsertFromRemote parent entries => _ ← UpsertFromRemote parent entries; mret ADone
  | OpReplaceChildren parent entries => _ ← ReplaceChildren parent entries; mret ADone
  | OpExpirePath path => _ ← ExpirePath path; mret ADone
  | OpDeletePath path => _ ← DeletePath path; mret ADone
  | OpEnsureRoot now later => _ ← EnsureRoot now later; mret ADone
  | OpGetByPath path => e ← GetByPath path; mret (AEntry e)
  | OpGetChildrenByParent parent => l ← GetChildrenByParent parent; mret (AEntries l)
  | OpListChildren path => l ← ListChildren path; mret (AEntries l)
  end.

Lemma upsert_triple e : triple (exec (upsert e)) (λ _ t t', t' = <[en_Path e := strip e]> t).
Proof. apply triple_exec. intros db Hwf. split; [by apply upsert_wf|by apply tbl_upsert]. Qed.
Lemma upserts_triple entries :
  triple (_ ← exec (λ db, db); each (λ e, exec (upsert e)) entries) (λ _ t t', t' = insert_all entries t).
Proof.
  eapply triple_mono.
  - eapply triple_bind; [apply triple_noop|]. intros u.
    apply (triple_each _ (λ e t, <[en_Path e := strip e]> t)). apply upsert_triple.
  - by intros a t t' (u & t1 & -> & ->).
Qed.
Lemma upsertEntries_triple entries : triple (upsertEntries entries) (λ _ t t', t' = insert_all entries t).
Proof.
  unfold upsertEntries. case_decide as He; [|apply triple_transaction, upserts_triple].
  subst. eapply triple_mono; [apply triple_ret|]. by intros [] t t' [_ ->].
Qed.
Lemma upsertEntries_atomic entries : atomic (upsertEntries entries).
Proof. unfold upsertEntries. case_decide; [by intros db e db'|apply atomic_transaction]. Qed.

Lemma keep_triple (P : Entry → bool) :
  (∀ e, P (strip e) = P e) →
  triple (exec (keep_rows P)) (λ _ t t', t' = filter (λ kx, Is_true (P kx.2)) t).
Proof.
  intros HP. apply triple_exec. intros db Hwf. split; [by apply keep_rows_wf|].
  unfold table, keep_rows. cbn [db_rows set_field].
  apply (tbl_filter (λ e, Is_true (P e)) (λ kx, Is_true (P kx.2))); [apply Hwf|].
  intros e. cbn. by rewrite HP.
Qed.

Lemma ReplaceChildren_triple parent entries :
  triple (ReplaceChildren parent entries) (λ _ t t', t' = spec_change (OpReplaceChildren parent entries) t).
Proof.
  apply triple_transaction. eapply triple_mono.
  - eapply triple_bind; [by apply keep_triple|]. intros u.
    refine (_ : triple _ (λ _ t t', t' = insert_all entries t)).
    case_decide as He; [|apply upserts_triple]. subst.
    eapply triple_mono; [apply triple_ret|]. by intros [] t t' [_ ->].
  - intros a t t' (u & t1 & -> & ->). cbn. f_equal. apply map_filter_ext. intros k x _.
    rewrite bool_decide_spec. done.
Qed.
Lemma ExpirePath_triple path :
  triple (ExpirePath path) (λ _ t t', t' = spec_change (OpExpirePath path) t).
Proof.
  apply triple_exec. intros db Hwf. split.
  - apply map_rows_wf; [done|]. intros e _. by case_decide.
  - apply (tbl_alter path (λ e, e <| en_ExpiresAt := 0 |>) (λ e, e <| en_ExpiresAt := 0 |>)); [apply Hwf|done].
Qed.
Lemma DeletePath_triple path :
  triple (DeletePath path) (λ _ t t', t' = spec_change (OpDeletePath path) t).
Proof.
  unfold DeletePath. case_decide; [by eapply triple_mono; [apply triple_fail|]|].
  eapply triple_mono; [by apply keep_triple|]. intros _ t t' ->. cbn. apply map_filter_ext.
  intros k x _. cbn. unfold deleted. rewrite Is_true_true. apply negb_true_iff.
Qed.
Lemma EnsureRoot_triple now later :
  triple (EnsureRoot now later) (λ _ t t', t' = spec_change (OpEnsureRoot now later) t).
Proof.
  apply triple_exec. intros db Hwf. unfold insert_new. pose proof (tbl_upsert (rootEntry now later) db Hwf) as Ht.
  pose proof (upsert_wf (rootEntry now later) db Hwf) as Hw. unfold upsert in Ht, Hw.
  assert (with_path "/" (db_rows db) = [] ↔ table db !! "/" = None) as Hno by apply tbl_None.
  change (en_Path (rootEntry now later)) with "/" in *. cbn [spec_change].
  destruct (decide (with_path "/" (db_rows db) = [])) as [He|He].
  - split; [done|]. by rewrite Ht, (proj1 Hno He).
  - split; [done|]. destruct (table db !! "/"); [done|]. by destruct He; apply Hno.
Qed.

(** ** Answers *)
Lemma children_rows parent db :
  db_wf db → children parent (table db) ≡ₚ strip <$> filter (has_parent parent) (db_rows db).
Proof.
  intros Hwf. unfold children, table.
  rewrite <- (tbl_filter (has_parent parent)) by (done || apply Hwf). unfold tbl.
  rewrite map_to_list_to_map.
  - by rewrite <- list_fmap_compose.
  - rewrite keyed_fst. apply (keep_rows_wf (λ e, bool_decide (has_parent parent e)) db) in Hwf as [Hnd _ _ _].
    cbn in Hnd. erewrite list_filter_iff; [exact Hnd|]. intros e. cbn. by rewrite bool_decide_spec.
Qed.
Lemma GetByPath_triple path :
  triple (GetByPath path) (λ e t t', t' = t ∧ strip <$> e = t !! path).
Proof.
  eapply triple_mono; [apply triple_query|]. intros a t t' (-> & db & Hwf & <- & ->).
  split; [done|]. symmetry. apply tbl_lookup.
Qed.
Lemma GetChildrenByParent_triple parent :
  triple (GetChildrenByParent parent) (λ l t t', t' = t ∧ lists l (children parent t)).
Proof.
  eapply triple_mono; [apply triple_query|]. intros a t t' (-> & db & Hwf & <- & ->).
  split; [done|]. split; [|apply by_name_sorted]. by rewrite by_name_perm, children_rows.
Qed.
Lemma ListChildren_triple path :
  triple (ListChildren path) (λ l t t', t' = t ∧ spec_answer (OpListChildren path) t (AEntries l)).
Proof.
  unfold ListChildren. cbn. case_decide; [apply GetChildrenByParent_triple|].
  eapply triple_mono.
  - eapply triple_bind; [apply GetByPath_triple|]. intros parent.
    refine (_ : triple _ (λ l t t', t' = t ∧ lists l (match parent with
      Some e => children (en_FSID e) t | None => [] end))).
    destruct parent as [e|]; [apply GetChildrenByParent_triple|].
    eapply triple_mono; [apply triple_ret|]. intros l t t' [-> ->]. repeat constructor.
  - intros l t t' (parent & t1 & [-> Hp] & -> & Hl). rewrite <- Hp. split; [done|].
    by destruct parent.
Qed.
Lemma ListChildren_readonly path : readonly (ListChildren path).
Proof.
  unfold ListChildren. case_decide; [apply readonly_query|].
  apply readonly_bind; [apply readonly_query|]. intros [e|]; [apply readonly_query|].
  by intros db r db' [= _ <-].
Qed.

Lemma answered {A} (m : sqlM A) (f : A → answer) (op : store_op) (Q : A → entries_map → entries_map → Prop) db r db' :
  triple m Q → atomic m → db_wf db →
  (∀ a t t', Q a t t' → t' = spec_change op t ∧ spec_answer op t (f a)) →
  (a ← m; mret (f a)) db = (r, db') →
  db_wf db' ∧ match r with
              | Ok a => table db' = spec_change op (table db) ∧ spec_answer op (table db) a
              | Err _ => same_rows db db'
              end.
Proof.
  intros Hm Hat Hwf HQ. unfold mbind, errorM_bind. destruct (m db) as [[a|e] db1] eqn:Hrun; intros [= <- <-].
  - destruct (Hm _ _ _ Hwf Hrun) as [Hwf1 H]. split; [done|]. by apply HQ, H.
  - split; [by apply (Hm _ _ _ Hwf Hrun)|]. by eapply Hat.
Qed.

(** ** Success without faults *)
Lemma GetByPath_succeeds path : succeeds (GetByPath path).
Proof. apply succeeds_query. Qed.
Lemma ListChildren_succeeds path : succeeds (ListChildren path).
Proof.
  unfold ListChildren. case_decide; [apply succeeds_query|].
  apply succeeds_bind; [apply succeeds_query|]. intros [e|]; [apply succeeds_query|apply succeeds_ret].
Qed.
Lemma ReplaceChildren_succeeds parent entries : succeeds (ReplaceChildren parent entries).
Proof.
  apply succeeds_transaction, succeeds_bind; [by apply succeeds_exec|]. intros u.
  case_decide; [apply succeeds_ret|]. apply succeeds_bind; [by apply succeeds_exec|].
  intros u'. apply succeeds_each. auto with sql.
Qed.
Lemma UpsertEntry_succeeds e : succeeds (UpsertEntry e).
Proof. apply succeeds_exec, upsert_faults. Qed.
End refinement.

(** ** The children of a changed map *)
Lemma children_insert parent path x (t : entries_map) :
  en_Parent x = parent → (∀ y, t !! path = Some y → en_Parent y ≠ parent) →
  children parent (<[path := x]> t) ≡ₚ x :: children parent t.
Proof.
  intros Hx Ht. unfold children. rewrite map_filter_insert_True by done.
  rewrite map_to_list_insert; [done|]. apply map_lookup_filter_None. right.
  intros y Hy Hp. by apply (Ht y).
Qed.
Lemma children_insert_other parent path x (t : entries_map) :
  en_Parent x ≠ parent → (∀ y, t !! path = Some y → en_Parent y ≠ parent) →
  children parent (<[path := x]> t) = children parent t.
Proof.
  intros Hx Ht. unfold children. do 2 f_equal. apply map_filter_insert_not'; [done|]. intros y Hy. by apply Ht.
Qed.
Lemma insert_all_lookup entries t path :
  path ∉ map en_Path entries → insert_all entries t !! path = t !! path.
Proof.
  unfold insert_all. revert t. induction entries as [|e l IH]; intros t Hn; [done|]. cbn.
  cbn in Hn. apply not_elem_of_cons in Hn as [Hne Hn]. rewrite IH by done. by rewrite lookup_insert_ne.
Qed.
(** After a replacement the children are the new entries. *)
Lemma children_replaced parent entries t :
  NoDup (map en_Path entries) → Forall (λ e, en_Parent e = parent) entries →
  children parent (insert_all entries (filter (λ kx, en_Parent kx.2 ≠ parent) t)) ≡ₚ strip <$> entries.
Proof.
  intros Hnd Hp. set (t0 := filter _ t).
  assert (∀ path y, t0 !! path = Some y → en_Parent y ≠ parent) as Ht0.
  { intros path y Hy. by apply map_lookup_filter_Some in Hy as [_ ?]. }
  induction entries as [|e l IH] using rev_ind.
  - cbn. unfold children. assert (filter (λ kx, en_Parent kx.2 = parent) t0 = ∅) as ->; [|by rewrite map_to_list_empty].
    apply map_empty_filter. intros path y Hy Hpy. by apply (Ht0 path y).
  - rewrite map_app in Hnd. apply NoDup_app in Hnd as (Hnd & Hdis & _).
    apply Forall_app in Hp as [Hp He]. apply Forall_cons in He as [He _].
    unfold insert_all. rewrite foldl_app. cbn [foldl]. fold (insert_all l t0).
    rewrite children_insert; [|exact He|].
    + rewrite IH by done. rewrite fmap_app. cbn. by rewrite Permutation_app_comm.
    + intros y. rewrite insert_all_lookup; [apply Ht0|]. intros Hin. apply (Hdis _ Hin). by left.
Qed.
