(* ===== verification/MetaStoreProps.v ===== *)
(** * What the metadata store promises

    Its operations refine those of a finite map from paths to entries, and
    change nothing when they fail; deleting a path removes what is below it. *)
From Stdlib Require Import Ascii.
From stdpp Require Import sorting.
From S2P Require Import Prelude GoStrings GoErrors GoMonads GoPath GoSort MetaStore MetaStoreInv MetaStoreSpec.

Section refinement.
Context `{!NameOrder Entry en_Name}.

(** C11: Every operation of the metadata store refines the operation of a finite
    map from paths to entries: it keeps the table well formed; if it succeeds
    the map changes and the answer is as the abstract operation says, children
    in the order of their names; if a statement fails, wherever in the
    operation, the rows are exactly as they were. *)
Theorem store_refines_map op db r db' :
  db_wf db → run_op op db = (r, db') →
  db_wf db' ∧ match r with
              | Ok a => table db' = spec_change op (table db) ∧ spec_answer op (table db) a
              | Err _ => same_rows db db'
              end.
Proof.
  intros Hwf. destruct op; cbn [run_op].
  - eapply answered; [apply upsert_triple|apply atomic_statement|done|]. by intros a t t' ->.
  - eapply answered; [apply upsertEntries_triple|apply upsertEntries_atomic|done|]. by intros a t t' ->.
  - eapply answered; [apply upsertEntries_triple|apply upsertEntries_atomic|done|]. by intros a t t' ->.
  - eapply answered; [apply ReplaceChildren_triple|apply atomic_transaction|done|]. by intros a t t' ->.
  - eapply answered; [apply ExpirePath_triple|apply atomic_statement|done|]. by intros a t t' ->.
  - eapply answered; [apply DeletePath_triple| |done|by intros a t t' ->]. unfold DeletePath.
    case_decide; [by intros d e d' [= _ <-]|apply atomic_statement].
  - eapply answered; [apply EnsureRoot_triple|apply atomic_statement|done|]. by intros a t t' ->.
  - eapply answered; [apply GetByPath_triple|apply atomic_statement|done|]. by intros a t t' [-> H].
  - eapply answered; [apply GetChildrenByParent_triple|apply atomic_statement|done|]. by intros a t t' [-> H].
  - eapply answered; [apply ListChildren_triple|apply readonly_atomic, ListChildren_readonly|done|].
    by intros a t t' [-> H].
Qed.
End refinement.
Lemma newDB_wf : db_wf newDB.
Proof. split; cbn; [apply NoDup_nil_2|constructor|constructor|lia]. Qed.
Definition demoEntry (fsid parent path name : string) : Entry :=
  mkEntry 0 fsid parent path name 6 false 0 "" 0 0 false.
Definition demoChildren : list Entry :=
  [demoEntry "2" "0" "/b" "b"; demoEntry "1" "0" "/a" "a"; demoEntry "9" "7" "/d/x" "x"].
Definition demoDB : DB := (UpsertEntries demoChildren newDB).2.
(** The second insertion of the transaction fails. *)
Definition faultyDB : DB := demoDB <| db_faults := [None; None; None; None; Some (errors_New "disk full")] |>.
Lemma store_refines_map_witness :
  table demoDB = insert_all demoChildren ∅ ∧
  same_rows faultyDB (run_op (NameOrder0 := merge_order en_Name) (OpReplaceChildren "0" demoChildren) faultyDB).2.
Proof.
  pose proof (store_refines_map (NameOrder0 := merge_order en_Name) (OpUpsertEntries demoChildren) newDB (Ok ADone) demoDB
    newDB_wf ltac:(vm_compute; reflexivity)) as [Hwf [Ht _]].
  split; [exact Ht|].
  exact (proj2 (store_refines_map (NameOrder0 := merge_order en_Name) (OpReplaceChildren "0" demoChildren) faultyDB
    (Err (errors_New "disk full")) _ (same_rows_wf demoDB faultyDB (conj eq_refl eq_refl) Hwf)
    ltac:(vm_compute; reflexivity))).
Defined.

(** ** Deleting a path *)
Lemma like_percent p s :
  like (String "%" p) s = like p s || match s with EmptyString => false | String _ s => like (String "%" p) s end.
Proof. by destruct s. Qed.
Lemma like_rest s : like "%" s = true.
Proof. induction s as [|c s IH]; [done|]. by rewrite like_percent, IH, orb_true_r. Qed.
(** A pattern that starts with a text matches what starts with that text, even
    if the text has wildcards. *)
Lemma like_app p q r : like q r = true → like (p +:+ q) (p +:+ r) = true.
Proof.
  intros Hq. induction p as [|c p IH]; [done|]. rewrite !str_app_cons.
  destruct (decide (c = "%"%char)) as [->|Hp].
  - rewrite like_percent. apply orb_true_iff. right.
    destruct (p +:+ r) as [|d s] eqn:Hs; cbn; rewrite IH; done.
  - cbn [like]. rewrite decide_False by done. case_decide as Hu.
    + subst c. unfold skip_character. rewrite decide_False; [done|]. by vm_compute.
    + by rewrite bool_decide_true, IH.
Qed.
Definition no_wildcards (p : string) : Prop := ¬ str_mem "%" p ∧ ¬ str_mem "_" p.
Lemma like_text p q s :
  no_wildcards p → like (p +:+ q) s = true →
  ∃ a r, s = a +:+ r ∧ to_lower a = to_lower p ∧ like q r = true.
Proof.
  revert s. induction p as [|c p IH]; intros s [H1 H2] Hl; [by exists "", s|].
  rewrite str_app_cons in Hl. cbn in H1, H2. cbn [like] in Hl.
  rewrite decide_False in Hl by (intros ->; tauto). destruct s as [|d s]; [done|].
  rewrite decide_False in Hl by (intros ->; tauto). apply andb_true_iff in Hl as [Hc Hl].
  apply bool_decide_eq_true in Hc.
  destruct (IH s) as (a & r & -> & Ha & Hr); [by split; tauto|done|].
  exists (String d a), r. split; [done|]. split; [|done]. cbn. by rewrite Hc, Ha.
Qed.
Lemma str_mem_trim c p : str_mem c (trim_right_slashes p) → str_mem c p.
Proof.
  induction p as [|d p IH]; [done|]. cbn. case_decide; [done|]. cbn. tauto.
Qed.
Lemma no_wildcards_trim p : no_wildcards p → no_wildcards (trim_right_slashes p).
Proof. intros [H1 H2]. split; intros H; [apply H1|apply H2]; by apply str_mem_trim. Qed.
Lemma lower_slash d : lower d = slash → d = slash.
Proof. destruct d as [[] [] [] [] [] [] [] []]; vm_compute; congruence. Qed.
Lemma like_below r : like "/%" r = true ↔ ∃ rest, r = String slash rest.
Proof.
  split.
  - destruct r as [|d r]; [done|]. cbn [like]. intros Hl. do 2 rewrite decide_False in Hl by done.
    apply andb_true_iff in Hl as [Hd _]. apply bool_decide_eq_true in Hd.
    exists r. f_equal. by apply lower_slash.
  - intros [rest ->]. apply (like_app "/" "%" rest), like_rest.
Qed.

(** [e] is at [path] or below it. *)
Definition under (path : string) (e : Entry) : Prop :=
  en_Path e = path ∨ ∃ rest, en_Path e = trim_right_slashes path +:+ String slash rest.
(** The same, for ASCII letters of either case. *)
Definition under_nocase (path : string) (e : Entry) : Prop :=
  en_Path e = path ∨
  ∃ a rest, en_Path e = a +:+ String slash rest ∧ to_lower a = to_lower (trim_right_slashes path).

(** The rows [DeletePath] removes. *)
Lemma deleted_under path e : under path e → deleted path e = true.
Proof.
  unfold deleted, has_path. intros [Heq|[rest Heq]]; [by rewrite bool_decide_true|].
  apply orb_true_iff. right. rewrite Heq. apply like_app, like_below. eauto.
Qed.
Lemma deleted_plain path e : no_wildcards path → deleted path e = true → under_nocase path e.
Proof.
  unfold deleted. rewrite orb_true_iff, bool_decide_eq_true. intros Hno [Hp|Hl]; [by left|right].
  apply like_text in Hl as (a & r & Heq & Ha & Hr); [|by apply no_wildcards_trim].
  apply like_below in Hr as [rest ->]. eauto.
Qed.

(** [DeletePath] removes the row of the path and every row below it, and
    refuses the root; when the path has no ['%'] or ['_'] it removes nothing
    but what is below the path, up to the case of letters. *)
Theorem delete_path_subtree path db r db' :
  db_wf db → DeletePath path db = (r, db') →
  match r with
  | Err _ => db_rows db' = db_rows db
  | Ok _ =>
      path ≠ "" ∧ path ≠ "/" ∧ (∀ e, e ∈ db_rows db' → e ∈ db_rows db ∧ ¬ under path e) ∧
      (no_wildcards path → ∀ e, e ∈ db_rows db → ¬ under_nocase path e → e ∈ db_rows db')
  end.
Proof.
  intros Hwf. unfold DeletePath. case_decide as Hroot; [by intros [= <- <-]|].
  intros Hs. apply statement_run in Hs as [(e & -> & [Hsame _])|(db0 & [Hsame _] & -> & ->)]; [done|].
  cbn. rewrite Hsame. split; [tauto|]. split; [tauto|]. split.
  - intros e [Hk He]%list_elem_of_filter. split; [done|]. intros Hu%deleted_under.
    unfold deleted in Hu. by rewrite Hu in Hk.
  - intros Hno e He Hout. apply list_elem_of_filter. split; [|done].
    destruct (deleted path e) eqn:Hd; [by apply deleted_plain in Hd|]. unfold deleted in Hd. by rewrite Hd.
Qed.
Definition treeEntries : list Entry :=
  [demoEntry "1" "0" "/a_b" "a_b"; demoEntry "2" "1" "/a_b/x" "x"; demoEntry "3" "0" "/ab" "ab"].
Definition treeDB : DB := (UpsertEntries treeEntries newDB).2.
Lemma treeDB_wf : db_wf treeDB.
Proof. by apply (upsertEntries_triple treeEntries newDB (Ok tt) treeDB newDB_wf). Qed.
Lemma delete_path_subtree_witness :
  map en_Path (db_rows (DeletePath "/a_b" treeDB).2) = ["/ab"] ∧
  ∀ e, e ∈ db_rows (DeletePath "/a_b" treeDB).2 → ¬ under "/a_b" e.
Proof.
  split; [vm_compute; reflexivity|]. intros e He.
  exact (proj2 (proj1 (proj2 (proj2 (delete_path_subtree "/a_b" treeDB (Ok tt) _ treeDB_wf
    ltac:(vm_compute; reflexivity)))) e He)).
Defined.

(** With a wildcard in the path, rows of another directory go too. *)
Lemma delete_path_takes_siblings :
  let db := (UpsertEntries [demoEntry "1" "0" "/a_b" "a_b"; demoEntry "2" "0" "/axb" "axb";
                            demoEntry "3" "2" "/axb/film" "film"] newDB).2 in
  map en_Path (db_rows db) = ["/a_b"; "/axb"; "/axb/film"] ∧
  map en_Path (db_rows (DeletePath "/a_b" db).2) = ["/axb"].
Proof. vm_compute. done. Qed.
