(* ===== verification/NegativeCache.v ===== *)
(** * The negative cache ([src/internal/cache/negative.go])

    The paths a lookup found missing, with the time it did. *)
From S2P Require Import Prelude.

Record NegativeCache := mkNegative { nc_ttl : Z; nc_entries : gmap string Z }.
#[export] Instance NegativeCache_eta : Eta NegativeCache := λ c, mkNegative (nc_ttl c) (nc_entries c).

Definition NewNegativeCache (ttl : Z) : NegativeCache := mkNegative ttl ∅.
Definition MarkMissing (path : string) (now : Z) (c : NegativeCache) : NegativeCache :=
  c <| nc_entries ::= <[path := now]> |>.
Definition IsMissing (path : string) (now : Z) (c : NegativeCache) : bool * NegativeCache :=
  match nc_entries c !! path with
  | None => (false, c)
  | Some ts =>
      if decide (nc_ttl c < now - ts) then (false, c <| nc_entries ::= delete path |>)
      else (true, c)
  end.

(** A path is reported missing from its mark until the time to live is over. *)
Lemma IsMissing_spec path now c :
  (IsMissing path now c).1 = true ↔ ∃ ts, nc_entries c !! path = Some ts ∧ now - ts ≤ nc_ttl c.
Proof.
  unfold IsMissing. destruct (nc_entries c !! path) as [ts|].
  - case_decide; cbn; split; try done; [intros (t & [= <-] & ?); lia|]. intros _. exists ts. split; [done|lia].
  - cbn. split; [done|]. by intros (t & ? & _).
Qed.
Lemma IsMissing_hit path now c : (IsMissing path now c).1 = true → (IsMissing path now c).2 = c.
Proof. unfold IsMissing. destruct (nc_entries c !! path); [|done]. by case_decide. Qed.
