(* ===== verification/Filesystem.v ===== *)
(** * The file system ([src/internal/fs/filesystem.go])

    The handlers of the mount as programs on the world they act on: the
    metadata store, the remote drive, the negative cache, the refresh token
    and the clock.  Handlers are taken one at a time; each call of the store,
    the drive and the clock is one action, in the order of the code.  The
    receivers and the store are there ([NewFilesystem] is given them). *)
From stdpp Require Import sorting.
From S2P Require Import Prelude GoStrings GoErrors GoMonads GoPath GoSort ChunkKeys BaiduClient MetaStore NegativeCache.

(** What the file system asks of the remote reader: [List] and [Delete]. *)
Class Drive (S : Type) := {
  drive_List : string → stateM S (result goError (list RemoteEntry));
  drive_Delete : list string → stateM S (option goError)
}.

Inductive Errno := EIO | ENOENT | EROFS | ENOTDIR | EISDIR | EPERM.
#[export] Instance Errno_eq_dec : EqDecision Errno.
Proof. solve_decision. Defined.

(** The fields of [Filesystem] that do not change after the mount; [gids] is
    the set, [hasRemote] whether [remote != nil]. *)
Record Filesystem := mkFilesystem {
  ttl : Z; primaryGID : Z; gids : gset Z; rootPath : string; hasRemote : bool;
  enableDelete : bool; traceReads : bool
}.
Definition minute : Z := 60 * 10 ^ 9.
Definition first_gid (gids : list Z) : Z := default 0 (head (filter (λ g, g ≠ 0) gids)).
Definition NewFilesystem (remote : bool) (gids : list Z) (root : string) : Filesystem :=
  {| ttl := minute; primaryGID := first_gid gids; gids := list_to_set gids;
     rootPath := if decide (root = "") then "/" else root; hasRemote := remote;
     enableDelete := false; traceReads := false |}.

(** The world of the handlers.  The clock advances by the next of [w_ticks] at
    each reading; [w_token] is whether the channel [refreshMu] is full. *)
Record World (S : Type) := mkWorld {
  w_db : DB; w_remote : S; w_negative : option NegativeCache; w_token : bool; w_now : Z; w_ticks : list Z
}.
Arguments mkWorld {S} _ _ _ _ _ _.
Arguments w_db {S} _.
Arguments w_remote {S} _.
Arguments w_negative {S} _.
Arguments w_token {S} _.
Arguments w_now {S} _.
Arguments w_ticks {S} _.
#[export] Instance World_eta {S} : Eta (World S) := λ w,
  mkWorld (w_db w) (w_remote w) (w_negative w) (w_token w) (w_now w) (w_ticks w).

(** ** Directory entries and attributes *)
Definition S_IFDIR : Z := 16384.
Definition S_IFREG : Z := 32768.
Record DirEntry := mkDirEntry { de_Name : string; de_Mode : Z }.
Definition entry_mode (e : Entry) : Z := if en_IsDir e then S_IFDIR else S_IFREG.
Definition dirEntries `{!NameOrder DirEntry de_Name} (children : list Entry) : list DirEntry :=
  by_name de_Name (map (λ e, mkDirEntry (en_Name e) (entry_mode e)) children).

Record Attr := mkAttr {
  at_Mode : Z; at_Gid : Z; at_Mtime : Z; at_Atime : Z; at_Ctime : Z; at_Size : Z; at_Blocks : Z
}.
#[export] Instance Attr_eta : Eta Attr := λ a,
  mkAttr (at_Mode a) (at_Gid a) (at_Mtime a) (at_Atime a) (at_Ctime a) (at_Size a) (at_Blocks a).
(** [uint64(z)] *)
Definition u64 (z : Z) : Z := z mod 2 ^ 64.
Definition dirMode (f : Filesystem) : Z := if decide (gids f = ∅) then 493 else 488.
Definition fileMode (f : Filesystem) : Z := if decide (gids f = ∅) then 420 else 416.

(** ** Paths *)
Definition trimRootPrefix (rootPath fullPath : string) : string :=
  if decide (rootPath = "" ∨ rootPath = "/") then fullPath
  else if decide (fullPath = rootPath) then ""
  else if has_prefix fullPath (rootPath +:+ "/") then trim_prefix fullPath rootPath
  else fullPath.
Definition JoinPath (parent name : string) : string :=
  if decide (parent = "" ∨ parent = "/") then Join "/" name else Join parent name.
(** The [Path] of the row made for an entry of the root. *)
Definition root_child_path (root : string) (entry : RemoteEntry) : string :=
  let rel := trimRootPrefix root (re_Path entry) in
  let rel := if decide (rel = "") then re_ServerName entry else rel in
  let rel := if negb (bool_decide (rel = "")) && negb (has_prefix rel "/") then "/" +:+ rel else rel in
  Join root rel.

Section handlers.
Context {S : Type} `{!Drive S} `{!NameOrder Entry en_Name} `{!NameOrder DirEntry de_Name}.
Context (f : Filesystem).
Abbreviation fsM := (stateM (World S)).
Implicit Types (path name : string) (e : Entry) (b : bool).

(** ** Actions *)
Definition Now : fsM Z := λ w, (w_now w, w <| w_now ::= Z.add (hd 0 (w_ticks w)) |> <| w_ticks ::= tail |>).
Definition call_store {A} (m : sqlM A) : fsM (result goError A) := λ w,
  let '(r, db) := m (w_db w) in (r, w <| w_db := db |>).
Definition remote_List path : fsM (result goError (list RemoteEntry)) := λ w,
  let '(r, s) := drive_List path (w_remote w) in (r, w <| w_remote := s |>).
Definition remote_Delete (paths : list string) : fsM (option goError) := λ w,
  let '(r, s) := drive_Delete paths (w_remote w) in (r, w <| w_remote := s |>).

Definition markMissing path : fsM unit :=
  now ← Now;
  modify (λ w, w <| w_negative ::= λ c,
    Some (MarkMissing path now (default (NewNegativeCache (30 * 10 ^ 9)) c)) |>).
Definition isMissing path : fsM bool := λ w,
  match w_negative w with
  | None => (false, w)
  | Some c =>
      let '(now, w) := Now w in
      let '(b, c) := IsMissing path now c in (b, w <| w_negative := Some c |>)
  end.
Definition tryRefreshToken : fsM bool := λ w, (negb (w_token w), w <| w_token := true |>).
Definition releaseRefreshToken : fsM unit := modify (λ w, w <| w_token := false |>).

(** ** Refreshing *)
Definition childExpiresAt b : fsM Z :=
  if b then mret 0 else (now ← Now; mret (unix (now + ttl f))).
Definition existingMTime path : fsM Z :=
  r ← call_store (GetByPath path);
  mret (match r with Ok (Some e) => en_MTM e | _ => 0 end).
(** The row made for an entry of a listing. *)
Definition remote_row (parent path : string) (entry : RemoteEntry) : fsM Entry :=
  expires ← childExpiresAt (re_IsDir entry);
  now ← Now;
  mret (mkEntry 0 (re_FSID entry) parent path (re_ServerName entry) (re_Size entry) (re_IsDir entry)
          (re_ServerMTime entry) (re_MD5 entry) (unix now) expires false).
(** The directory's own row, renewed: the return value of the refreshes. *)
Definition renew_directory (fsid parent path name : string) : fsM (option goError) :=
  mtm ← existingMTime path;
  now ← Now;
  later ← Now;
  r ← call_store (UpsertEntry (mkEntry 0 fsid parent path name 0 true mtm "" (unix now) (unix (later + ttl f)) false));
  mret (match r with Ok _ => None | Err e => Some e end).

Definition refreshRoot : fsM (option goError) :=
  if negb (hasRemote f) then mret None
  else
    listed ← remote_List (rootPath f);
    match listed with
    | Err e => mret (Some e)
    | Ok entries =>
        mapped ← mapM (λ entry, remote_row "0" (root_child_path (rootPath f) entry) entry) entries;
        r ← call_store (ReplaceChildren "0" mapped);
        match r with
        | Err e => mret (Some e)
        | Ok _ => renew_directory "0" "" (rootPath f) ""
        end
    end.

Definition refreshDir (dirPath fsid : string) : fsM (option goError) :=
  if negb (hasRemote f) then mret None
  else
    listed ← remote_List dirPath;
    match listed with
    | Err e => mret (Some e)
    | Ok entries =>
        mapped ← mapM (λ entry, remote_row fsid (re_Path entry) entry) entries;
        r ← call_store (ReplaceChildren fsid mapped);
        match r with
        | Err e => mret (Some e)
        | Ok _ =>
            existing ← call_store (GetByPath dirPath);
            let parent := match existing with
                          | Ok (Some e) => if decide (en_Parent e = "") then "0" else en_Parent e
                          | _ => "0"
                          end in
            renew_directory fsid parent dirPath (Base dirPath)
        end
    end.

(** The loop over the children of [current]; [walk] is the recursive call.
    The result is [None] when the fuel ran out below. *)
Fixpoint refresh_children (walk : string → gset string → fsM (option (option goError * gset string)))
    (children : list Entry) (visited : gset string) : fsM (option (option goError * gset string)) :=
  match children with
  | [] => mret (Some (None, visited))
  | child :: children =>
      if negb (en_IsDir child) then refresh_children walk children visited
      else
        r ← (if hasRemote f then refreshDir (en_Path child) (en_FSID child) else mret None);
        match r with
        | Some e => mret (Some (Some e, visited))
        | None =>
            r ← walk (en_Path child) visited;
            match r with
            | Some (None, visited) => refresh_children walk children visited
            | r => mret r
            end
        end
  end.
Fixpoint refreshKnownDirectories (fuel : nat) (current : string) (visited : gset string)
    : fsM (option (option goError * gset string)) :=
  match fuel with
  | O => mret None
  | Datatypes.S fuel =>
      if decide (current ∈ visited) then mret (Some (None, visited))
      else
        let visited := {[current]} ∪ visited in
        listed ← call_store (ListChildren current);
        match listed with
        | Err e => mret (Some (Some e, visited))
        | Ok children => refresh_children (refreshKnownDirectories fuel) children visited
        end
  end.

(** [if !tryRefreshToken() { return nil }; defer releaseRefreshToken()] *)
Definition with_token {A} (skipped : A) (body : fsM A) : fsM A :=
  got ← tryRefreshToken;
  if negb (got : bool) then mret skipped
  else out ← body; _ ← releaseRefreshToken; mret out.
Definition RefreshAll (fuel : nat) : fsM (option (option goError)) :=
  if negb (hasRemote f) then mret (Some None)
  else with_token (Some None)
    (r ← refreshRoot;
     match r with
     | Some e => mret (Some (Some e))
     | None => walked ← refreshKnownDirectories fuel (rootPath f) ∅; mret (fst <$> walked)
     end).
Definition RefreshRootOnly : fsM (option goError) :=
  if negb (hasRemote f) then mret None else with_token None refreshRoot.

Definition shouldRefresh path : fsM bool :=
  if negb (hasRemote f) then mret false
  else if decide (ttl f ≤ 0) then mret true
  else
    let path := if decide (path = "") then rootPath f else path in
    current ← call_store (GetByPath path);
    match current with
    | Ok (Some e) =>
        if decide (en_ExpiresAt e = 0) then mret true
        else now ← Now; mret (bool_decide (en_ExpiresAt e * 10 ^ 9 - now ≤ 0))
    | _ => mret true
    end.

(** ** Handlers of directories

    [Readdir] and [Lookup] of the root and of a node share their shape: list
    the children, after a refresh if one is due and [refresh] is given. *)
Definition fresh_children (path : string) (refresh : option (fsM (option goError)))
    : fsM (result Errno (list Entry)) :=
  listed ← call_store (ListChildren path);
  match listed with
  | Err _ => mret (Err EIO)
  | Ok children =>
      due ← shouldRefresh path;
      match refresh with
      | Some refresh =>
          if (due : bool) then
            r ← refresh;
            match r with
            | Some _ => mret (Err EIO)
            | None =>
                listed ← call_store (ListChildren path);
                mret (match listed with Err _ => Err EIO | Ok children => Ok children end)
            end
          else mret (Ok children)
      | None => mret (Ok children)
      end
  end.
Definition root_children : fsM (result Errno (list Entry)) := fresh_children (rootPath f) (Some refreshRoot).
Definition node_children (n : Entry) : fsM (result Errno (list Entry)) :=
  fresh_children (en_Path n)
    (if hasRemote f && en_IsDir n then Some (refreshDir (en_Path n) (en_FSID n)) else None).

Definition Readdir : fsM (result Errno (list DirEntry)) :=
  r ← root_children; mret (dirEntries <$> r).
Definition entryNode_Readdir (n : Entry) : fsM (result Errno (list DirEntry)) :=
  r ← node_children n; mret (dirEntries <$> r).

(** [inodeTime(mtm).Unix()] *)
Definition inodeTime (mtm : Z) : fsM Z :=
  if decide (0 < mtm) then mret mtm else (now ← Now; mret (unix now)).
Definition fillEntryOut e (mode : Z) (out : Attr) : fsM Attr :=
  let perm := if en_IsDir e then dirMode f else fileMode f in
  t ← inodeTime (en_MTM e);
  let out := out <| at_Mode := Z.lor mode perm |> <| at_Gid := primaryGID f |>
                 <| at_Mtime := u64 t |> <| at_Atime := u64 t |> <| at_Ctime := u64 t |>
                 <| at_Size := u64 (en_Size e) |> in
  mret (if en_IsDir e then out <| at_Size := 0 |> <| at_Blocks := 0 |>
        else out <| at_Blocks := u64 (u64 (en_Size e) + 511) / 512 |>).

(** The search of [Lookup] in the children, and what it does on a miss. *)
Definition find_child name (children : list Entry) : option Entry :=
  head (filter (λ e, en_Name e = name) children).
Definition lookup_in (childPath name : string) (children : fsM (result Errno (list Entry))) (out : Attr)
    : fsM (result Errno (Entry * Attr)) :=
  missing ← isMissing childPath;
  if (missing : bool) then mret (Err ENOENT)
  else
    listed ← children;
    match listed with
    | Err e => mret (Err e)
    | Ok children =>
        match find_child name children with
        | Some child => out ← fillEntryOut child (entry_mode child) out; mret (Ok (child, out))
        | None => _ ← markMissing childPath; mret (Err ENOENT)
        end
    end.
Definition Lookup name (out : Attr) : fsM (result Errno (Entry * Attr)) :=
  lookup_in (JoinPath (rootPath f) name) name root_children out.
Definition entryNode_Lookup (n : Entry) name (out : Attr) : fsM (result Errno (Entry * Attr)) :=
  lookup_in (JoinPath (en_Path n) name) name (node_children n) out.

Definition Getattr (out : Attr) : fsM Attr :=
  now ← Now;
  let t := u64 (unix now) in
  mret (out <| at_Mode := Z.lor S_IFDIR (dirMode f) |> <| at_Gid := primaryGID f |>
            <| at_Mtime := t |> <| at_Atime := t |> <| at_Ctime := t |> <| at_Size := 0 |>).
Definition entryNode_Getattr (n : Entry) (out : Attr) : fsM Attr := fillEntryOut n (entry_mode n) out.

Definition deleteChild (parentPath name : string) (wantDir : bool) : fsM (option Errno) :=
  if negb (hasRemote f) then mret (Some EIO)
  else if negb (enableDelete f) then mret (Some EROFS)
  else
    listed ← call_store (ListChildren parentPath);
    match listed with
    | Err _ => mret (Some EIO)
    | Ok children =>
        match find_child name children with
        | None => mret (Some ENOENT)
        | Some target =>
            if wantDir && negb (en_IsDir target) then mret (Some ENOTDIR)
            else if negb wantDir && en_IsDir target then mret (Some EISDIR)
            else if decide (en_Path target = "" ∨ en_Path target = rootPath f ∨ en_Path target = "/")
            then mret (Some EPERM)
            else
              deleted ← remote_Delete [en_Path target];
              match deleted with
              | Some _ => mret (Some EIO)
              | None =>
                  r ← call_store (DeletePath (en_Path target));
                  match r with
                  | Err _ => mret (Some EIO)
                  | Ok _ => _ ← markMissing (en_Path target); mret None
                  end
              end
        end
    end.
Definition Unlink name := deleteChild (rootPath f) name false.
Definition Rmdir name := deleteChild (rootPath f) name true.
Definition entryNode_Unlink (n : Entry) name := deleteChild (en_Path n) name false.
Definition entryNode_Rmdir (n : Entry) name := deleteChild (en_Path n) name true.

(** The children [populate] adds to the root's inode. *)
Definition populate : fsM (list Entry) :=
  listed ← call_store (ListChildren (rootPath f));
  mret (match listed with Ok entries => entries | Err _ => [] end).
Definition OnAdd (fuel : nat) : fsM (list Entry) :=
  children ← populate; _ ← RefreshAll fuel; mret children.
End handlers.
