(* ===== verification/FilesystemInv.v ===== *)
(** * Runs of the file system's handlers

    What the actions and the refreshes do to a world whose database is well
    formed and has no faults to come, and that every handler keeps the table
    well formed, whatever fails. *)
From stdpp Require Import sorting.
From S2P Require Import Prelude GoStrings GoErrors GoMonads GoPath GoSort BaiduClient MetaStore MetaStoreInv MetaStoreSpec NegativeCache Filesystem.

Create HintDb fs.

Section runs.
Context {S : Type} `{!Drive S} `{!NameOrder Entry en_Name} `{!NameOrder DirEntry de_Name}.
Context (f : Filesystem).
Implicit Types (w : World S) (path name : string) (e n : Entry).

(** Only the clock of [w'] differs, and it did not go back. *)
Definition clocked w : Prop := Forall (λ t, 0 ≤ t) (w_ticks w).
Definition later w w' : Prop :=
  (w_db w', w_remote w', w_negative w', w_token w') = (w_db w, w_remote w, w_negative w, w_token w) ∧
  (clocked w → clocked w' ∧ w_now w ≤ w_now w').
Lemma later_refl w : later w w.
Proof. split; [done|]. intros. split; [done|lia]. Qed.
Lemma later_trans w1 w2 w3 : later w1 w2 → later w2 w3 → later w1 w3.
Proof.
  intros [E1 H1] [E2 H2]. split; [congruence|]. intros Hc. destruct (H1 Hc) as [Hc1 ?].
  destruct (H2 Hc1). split; [done|lia].
Qed.
Lemma Now_run w : ∃ w', Now w = (w_now w, w') ∧ later w w'.
Proof.
  eexists. split; [reflexivity|]. split; [done|]. intros Hc. unfold clocked in *. cbn.
  destruct (w_ticks w) as [|t ts]; cbn; [split; [done|lia]|].
  inversion Hc; subst. split; [done|lia].
Qed.

(** The database is well formed and its coming statements succeed. *)
Definition healthy w : Prop := db_wf (w_db w) ∧ db_faults (w_db w) = [].
Abbreviation wtable w := (table (w_db w)).

Lemma store_run {A} (m : sqlM A) Q w :
  triple m Q → succeeds m → healthy w →
  ∃ a db', call_store m w = (Ok a, w <| w_db := db' |>) ∧ db_wf db' ∧ db_faults db' = [] ∧
    Q a (wtable w) (table db').
Proof.
  intros Hm Hs [Hwf Hf]. destruct (Hs _ Hf) as (a & db' & Hrun & Hf').
  destruct (Hm _ _ _ Hwf Hrun) as [Hwf' HQ]. exists a, db'. unfold call_store. rewrite Hrun.
  split_and!; [done|done|done|by apply HQ].
Qed.

(** ** Rows made from a listing *)
Definition row_of (parent : string) (place : RemoteEntry → string) (r : RemoteEntry) (e : Entry) : Prop :=
  en_ID e = 0 ∧ en_FSID e = re_FSID r ∧ en_Parent e = parent ∧ en_Path e = place r ∧
  en_Name e = re_ServerName r ∧ en_Size e = re_Size r ∧ en_IsDir e = re_IsDir r ∧
  en_MTM e = re_ServerMTime r ∧ en_MD5 e = re_MD5 r.
Lemma remote_row_run parent place r w :
  ∃ e w', remote_row f parent (place r) r w = (e, w') ∧ row_of parent place r e ∧ later w w'.
Proof.
  unfold remote_row, childExpiresAt. unfold mbind, stateM_bind. destruct (re_IsDir r) eqn:Hd; cbn.
  - eexists _, _. split; [reflexivity|]. split; [unfold row_of; cbn; split_and!; done|].
    by destruct (Now_run w) as (w' & [= <-] & ?).
  - eexists _, _. split; [reflexivity|]. split; [unfold row_of; cbn; split_and!; done|].
    eapply later_trans; [by destruct (Now_run w) as (w' & [= <-] & Hl); exact Hl|].
    by destruct (Now_run (w <| w_now ::= Z.add (hd 0 (w_ticks w)) |> <| w_ticks ::= tail |>))
      as (w' & [= <-] & ?).
Qed.
Lemma remote_rows_run parent place rs w :
  ∃ es w', mapM (λ r, remote_row f parent (place r) r) rs w = (es, w') ∧
    Forall2 (row_of parent place) rs es ∧ later w w'.
Proof.
  revert w. induction rs as [|r rs IH]; intros w.
  - exists [], w. split_and!; [done|constructor|apply later_refl].
  - destruct (remote_row_run parent place r w) as (e & w1 & H1 & He & Hl1).
    destruct (IH w1) as (es & w2 & H2 & Hes & Hl2). exists (e :: es), w2.
    split_and!; [|by constructor|by eapply later_trans]. cbn [mapM]. unfold mbind, stateM_bind in *.
    rewrite H1, H2. done.
Qed.
Lemma rows_facts parent place rs es :
  Forall2 (row_of parent place) rs es →
  map en_Path es = map place rs ∧ Forall (λ e, en_Parent e = parent) es ∧ strip <$> es = es ∧
  map (λ e, (en_Name e, en_IsDir e)) es = map (λ r, (re_ServerName r, re_IsDir r)) rs.
Proof.
  induction 1 as [|r e rs es (H0 & H1 & H2 & H3 & H4 & H5 & H6 & _) _ (I1 & I2 & I3 & I4)]; [by repeat constructor|].
  change (strip <$> e :: es) with (strip e :: (strip <$> es)). cbn [map]. rewrite I1, I3, I4, H3, H4, H6. split_and!; [done|by constructor| |done].
  f_equal. unfold strip. destruct e. cbn in H0 |- *. by rewrite H0.
Qed.

(** ** Refreshes *)
Lemma existingMTime_run path w :
  healthy w → ∃ m w', existingMTime path w = (m, w') ∧ healthy w' ∧ wtable w' = wtable w ∧
    w' = w <| w_db := w_db w' |>.
Proof.
  intros Hh. destruct (store_run _ _ w (GetByPath_triple path) (GetByPath_succeeds path) Hh)
    as (a & db' & Hrun & Hwf & Hf & Ht & _).
  unfold existingMTime. unfold mbind, stateM_bind. rewrite Hrun. by eexists _, _.
Qed.

(** The row of a directory that was renewed at [now]. *)
Definition directory_row (fsid parent path name : string) (since : Z) e : Prop :=
  en_FSID e = fsid ∧ en_Parent e = parent ∧ en_Path e = path ∧ en_IsDir e = true ∧
  unix (since + ttl f) ≤ en_ExpiresAt e.
Lemma renew_run fsid parent path name w :
  healthy w →
  ∃ e w', renew_directory f fsid parent path name w = (None, w') ∧ healthy w' ∧
    (w_remote w', w_negative w', w_token w') = (w_remote w, w_negative w, w_token w) ∧
    wtable w' = <[path := e]> (wtable w) ∧
    (clocked w → clocked w' ∧ w_now w ≤ w_now w' ∧ directory_row fsid parent path name (w_now w) e).
Proof.
  intros Hh. unfold renew_directory.
  destruct (existingMTime_run path w Hh) as (m & w1 & H1 & Hh1 & Ht1 & Hw1).
  destruct (Now_run w1) as (w2 & H2 & [Hd2 Hc2]). destruct (Now_run w2) as (w3 & H3 & [Hd3 Hc3]).
  set (e := mkEntry 0 fsid parent path name 0 true m "" (unix (w_now w1)) (unix (w_now w2 + ttl f)) false).
  assert (healthy w3) as Hh3 by (unfold healthy in *; injection Hd3 as -> _ _ _; injection Hd2 as -> _ _ _; done).
  destruct (store_run _ _ w3 (upsert_triple e) (UpsertEntry_succeeds e) Hh3) as (u & db' & H4 & Hwf & Hf & Ht).
  exists e, (w3 <| w_db := db' |>). split.
  { unfold mbind, stateM_bind. rewrite H1. cbn beta iota zeta. rewrite H2. cbn beta iota zeta. rewrite H3.
    cbn beta iota zeta. fold e. unfold UpsertEntry. by rewrite H4. }
  injection Hd2 as E1 E2 E3 E4. injection Hd3 as F1 F2 F3 F4. split_and!.
  - done.
  - cbn. rewrite F2, F3, F4, E2, E3, E4, Hw1. done.
  - cbn. rewrite Ht, F1, E1, Ht1. done.
  - intros Hc. assert (clocked w1) as Hc1 by (by rewrite Hw1).
    destruct (Hc2 Hc1) as [Hc2' ?]. destruct (Hc3 Hc2') as [Hc3' ?].
    assert (w_now w1 = w_now w) as Hn by (by rewrite Hw1). cbn.
    split; [done|]. split; [lia|]. unfold directory_row, unix. cbn. split_and!; try done.
    apply Z.div_le_mono; lia.
Qed.

(** The table once the children of [fsid] are replaced. *)
Definition replaced fsid (es : list Entry) (t : entries_map) : entries_map :=
  insert_all es (filter (λ kx, en_Parent kx.2 ≠ fsid) t).
Definition parent_in path (t : entries_map) : string :=
  match t !! path with Some e => if decide (en_Parent e = "") then "0" else en_Parent e | None => "0" end.
Lemma replace_run fsid place path rs w s' :
  healthy w → drive_List path (w_remote w) = (Ok rs, s') →
  ∃ es w1 w2, remote_List path w = (Ok rs, w1) ∧
    (mapped ← mapM (λ r, remote_row f fsid (place r) r) rs; call_store (ReplaceChildren fsid mapped)) w1
    = (Ok tt, w2) ∧
    Forall2 (row_of fsid place) rs es ∧ healthy w2 ∧ w_remote w2 = s' ∧
    (w_negative w2, w_token w2) = (w_negative w, w_token w) ∧
    wtable w2 = replaced fsid es (wtable w) ∧ (clocked w → clocked w2 ∧ w_now w ≤ w_now w2).
Proof.
  intros Hh Hl. destruct (remote_rows_run fsid place rs (w <| w_remote := s' |>)) as (es & w1 & H1 & Hes & [E Hc]).
  injection E as E1 E2 E3 E4.
  assert (healthy w1) as Hh1 by (unfold healthy in *; by rewrite E1).
  destruct (store_run _ _ w1 (ReplaceChildren_triple fsid es) (ReplaceChildren_succeeds fsid es) Hh1)
    as ([] & db' & H2 & Hwf & Hf & Ht).
  exists es, (w <| w_remote := s' |>), (w1 <| w_db := db' |>). split_and!.
  - unfold remote_List. by rewrite Hl.
  - unfold mbind, stateM_bind in *. rewrite H1. exact H2.
  - done.
  - done.
  - done.
  - cbn. by rewrite E3, E4.
  - cbn. rewrite Ht, E1. done.
  - exact Hc.
Qed.

Lemma refreshDir_run path fsid rs w s' :
  hasRemote f = true → healthy w → drive_List path (w_remote w) = (Ok rs, s') →
  ∃ es e w', refreshDir f path fsid w = (None, w') ∧ Forall2 (row_of fsid re_Path) rs es ∧ healthy w' ∧
    w_remote w' = s' ∧ (w_negative w', w_token w') = (w_negative w, w_token w) ∧
    wtable w' = <[path := e]> (replaced fsid es (wtable w)) ∧
    (clocked w → clocked w' ∧ w_now w ≤ w_now w' ∧
      directory_row fsid (parent_in path (replaced fsid es (wtable w))) path (Base path) (w_now w) e).
Proof.
  intros Hr Hh Hl. destruct (replace_run fsid re_Path path rs w s' Hh Hl)
    as (es & w1 & w2 & H1 & H2 & Hes & Hh2 & Hs2 & Hn2 & Ht2 & Hc2).
  destruct (store_run _ _ w2 (GetByPath_triple path) (GetByPath_succeeds path) Hh2)
    as (x & db3 & H3 & Hwf3 & Hf3 & Ht3 & Hx).
  set (w3 := w2 <| w_db := db3 |>).
  set (parent := match x with Some e => if decide (en_Parent e = "") then "0" else en_Parent e | None => "0" end).
  destruct (renew_run fsid parent path (Base path) w3 (conj Hwf3 Hf3))
    as (e & w4 & H4 & Hh4 & Hs4 & Ht4 & Hc4).
  exists es, e, w4. split.
  { unfold refreshDir. rewrite Hr. cbn [negb]. unfold mbind, stateM_bind in *. rewrite H1. cbn beta iota zeta.
    match type of H2 with (let '(_, _) := ?m in _) = _ => destruct m as [mapped w1'] end. rewrite H2. cbn beta iota zeta. rewrite H3. cbn beta iota zeta.
    exact H4. }
  injection Hs4 as S1 S2 S3. injection Hn2 as N1 N2. split_and!.
  - done.
  - done.
  - rewrite S1. exact Hs2.
  - rewrite S2, S3. cbn. by rewrite N1, N2.
  - rewrite Ht4. cbn. by rewrite Ht3, Ht2.
  - intros Hc. destruct (Hc2 Hc) as [Hcl ?]. destruct (Hc4 Hcl) as (? & Hn & Hrow). cbn in Hn.
    split; [done|]. split; [lia|]. assert (parent = parent_in path (replaced fsid es (wtable w))) as <-.
    { unfold parent_in. rewrite <- Ht2, <- Hx. unfold parent. by destruct x. }
    destruct Hrow as (R1 & R2 & R3 & R4 & R5). split_and!; try done.
    etransitivity; [|exact R5]. cbn. unfold unix. apply Z.div_le_mono; lia.
Qed.

Lemma refreshRoot_run rs w s' :
  hasRemote f = true → healthy w → drive_List (rootPath f) (w_remote w) = (Ok rs, s') →
  ∃ es e w', refreshRoot f w = (None, w') ∧ Forall2 (row_of "0" (root_child_path (rootPath f))) rs es ∧
    healthy w' ∧ w_remote w' = s' ∧ (w_negative w', w_token w') = (w_negative w, w_token w) ∧
    wtable w' = <[rootPath f := e]> (replaced "0" es (wtable w)) ∧
    (clocked w → clocked w' ∧ w_now w ≤ w_now w' ∧ directory_row "0" "" (rootPath f) "" (w_now w) e).
Proof.
  intros Hr Hh Hl.
  destruct (replace_run "0" (root_child_path (rootPath f)) (rootPath f) rs w s' Hh Hl)
    as (es & w1 & w2 & H1 & H2 & Hes & Hh2 & Hs2 & Hn2 & Ht2 & Hc2).
  destruct (renew_run "0" "" (rootPath f) "" w2 Hh2) as (e & w4 & H4 & Hh4 & Hs4 & Ht4 & Hc4).
  exists es, e, w4. split.
  { unfold refreshRoot. rewrite Hr. cbn [negb]. unfold mbind, stateM_bind in *. rewrite H1. cbn beta iota zeta.
    match type of H2 with (let '(_, _) := ?m in _) = _ => destruct m as [mapped w1'] end. rewrite H2. cbn beta iota zeta. exact H4. }
  injection Hs4 as S1 S2 S3. injection Hn2 as N1 N2. split_and!.
  - done.
  - done.
  - by rewrite S1.
  - by rewrite S2, S3, N1, N2.
  - by rewrite Ht4, Ht2.
  - intros Hc. destruct (Hc2 Hc) as [Hcl ?]. destruct (Hc4 Hcl) as (? & Hn & Hrow).
    split; [done|]. split; [lia|].
    destruct Hrow as (R1 & R2 & R3 & R4 & R5). split_and!; try done.
    etransitivity; [|exact R5]. unfold unix. apply Z.div_le_mono; lia.
Qed.

(** ** Listing a directory *)

(** [w'] has the tables, the drive and the flags of [w]; its clock went on. *)
Definition like_world w w' : Prop :=
  healthy w' ∧ wtable w' = wtable w ∧
  (w_remote w', w_negative w', w_token w') = (w_remote w, w_negative w, w_token w) ∧
  (clocked w → clocked w' ∧ w_now w ≤ w_now w').
Lemma like_world_refl w : healthy w → like_world w w.
Proof. intros H. split_and!; [done|done|done|]. intros Hc. split; [done|lia]. Qed.
Lemma like_world_trans w1 w2 w3 : like_world w1 w2 → like_world w2 w3 → like_world w1 w3.
Proof.
  intros (A1 & A2 & A3 & A4) (B1 & B2 & B3 & B4). split_and!; [done|congruence|congruence|].
  intros Hc. destruct (A4 Hc) as [Hc2 ?]. destruct (B4 Hc2). split; [done|lia].
Qed.
Lemma ListChildren_run path w :
  healthy w → ∃ l w', call_store (ListChildren path) w = (Ok l, w') ∧ like_world w w' ∧ w_now w' = w_now w ∧
    spec_answer (OpListChildren path) (wtable w) (AEntries l).
Proof.
  intros Hh. destruct (store_run _ _ w (ListChildren_triple path) (ListChildren_succeeds path) Hh)
    as (l & db' & Hrun & Hwf & Hf & Ht & Hl).
  exists l, (w <| w_db := db' |>). split_and!; [done| |done|done].
  split_and!; [done|exact Ht|done|]. intros Hc. split; [done|cbn; lia].
Qed.

(** A refresh of [path] is due. *)
Definition due path w : Prop :=
  ttl f ≤ 0 ∨
  match wtable w !! (if decide (path = "") then rootPath f else path) with
  | None => True
  | Some e => en_ExpiresAt e = 0 ∨ en_ExpiresAt e * 10 ^ 9 ≤ w_now w
  end.
Lemma shouldRefresh_run path w :
  hasRemote f = true → healthy w →
  ∃ b w', shouldRefresh f path w = (b, w') ∧ like_world w w' ∧ (b = true ↔ due path w).
Proof.
  intros Hr Hh. unfold shouldRefresh, due. rewrite Hr. cbn [negb]. case_decide as Httl.
  { exists true, w. split_and!; [done|by apply like_world_refl|tauto]. }
  set (p := if decide (path = "") then rootPath f else path).
  destruct (store_run _ _ w (GetByPath_triple p) (GetByPath_succeeds p) Hh) as (x & db' & Hrun & Hwf & Hf & Ht & Hx).
  assert (like_world w (w <| w_db := db' |>)) as Hlike.
  { split_and!; [done|exact Ht|done|]. intros Hc. split; [done|cbn; lia]. }
  unfold mbind, stateM_bind. rewrite Hrun, <- Hx. destruct x as [e|]; cbn [fmap option_fmap option_map].
  - case_decide as H0; [exists true; eexists; split_and!; [done|done|cbn; tauto]|].
    destruct (Now_run (w <| w_db := db' |>)) as (w' & Hn & [E Hc]). rewrite Hn.
    eexists _, w'. split; [done|]. split.
    + eapply like_world_trans; [exact Hlike|]. injection E as E1 E2 E3 E4.
      split_and!; [unfold healthy; by rewrite E1|by rewrite E1|by rewrite E2, E3, E4|exact Hc].
    + rewrite bool_decide_eq_true. cbn. split; [right; right; lia|]. intros [?|[?|?]]; lia.
  - exists true. eexists. split_and!; [done|done|tauto].
Qed.

Lemma children_after fsid path e es rs place (t : entries_map) :
  Forall2 (row_of fsid place) rs es → NoDup (map place rs) → path ∉ map place rs → en_Parent e ≠ fsid →
  children fsid (<[path := e]> (replaced fsid es t)) ≡ₚ es.
Proof.
  intros Hrows Hnd Hn He. destruct (rows_facts _ _ _ _ Hrows) as (Hp & Hpar & Hst & _).
  rewrite children_insert_other; [|done|].
  - unfold replaced. rewrite children_replaced; [by rewrite Hst|by rewrite Hp|done].
  - intros y. unfold replaced. rewrite insert_all_lookup by (by rewrite Hp).
    intros Hy. by apply map_lookup_filter_Some in Hy as [_ ?].
Qed.
Lemma parent_in_replaced fsid path es rs place (t : entries_map) :
  Forall2 (row_of fsid place) rs es → path ∉ map place rs → fsid ≠ "0" →
  parent_in path (replaced fsid es t) ≠ fsid.
Proof.
  intros Hrows Hn H0. destruct (rows_facts _ _ _ _ Hrows) as (Hp & _).
  unfold parent_in, replaced. rewrite insert_all_lookup by (by rewrite Hp).
  destruct (filter _ t !! path) as [y|] eqn:Hy; [|done]. case_decide; [done|].
  by apply map_lookup_filter_Some in Hy as [_ ?].
Qed.

(** The names and kinds a list of entries shows. *)
Definition shows (rs : list RemoteEntry) (l : list Entry) : Prop :=
  map (λ e, (en_Name e, en_IsDir e)) l ≡ₚ map (λ r, (re_ServerName r, re_IsDir r)) rs.
Lemma lists_shows fsid rs es place l (t : entries_map) :
  Forall2 (row_of fsid place) rs es → children fsid t ≡ₚ es → lists l (children fsid t) → shows rs l.
Proof.
  intros Hrows Hc [Hl _]. destruct (rows_facts _ _ _ _ Hrows) as (_ & _ & _ & Hn). unfold shows.
  rewrite <- Hn, <- Hc, <- Hl. rewrite map_map. done.
Qed.

(** What holds of the directory [path] with id [fsid] after a refresh that
    found [rs], until its row expires. *)
Record refreshed path fsid (rs : list RemoteEntry) (since : Z) w : Prop := {
  rf_healthy : healthy w;
  rf_row : ∃ e, wtable w !! path = Some e ∧ en_FSID e = fsid ∧ unix (since + ttl f) ≤ en_ExpiresAt e;
  rf_children : ∀ l, lists l (children fsid (wtable w)) → shows rs l
}.
Lemma refreshed_lists path fsid rs since w :
  path ≠ "/" ∨ fsid = "0" → refreshed path fsid rs since w →
  ∃ l w', call_store (ListChildren path) w = (Ok l, w') ∧ like_world w w' ∧ w_now w' = w_now w ∧ shows rs l.
Proof.
  intros Hp [Hh (e & He & Hfs & _) Hc]. destruct (ListChildren_run path w Hh) as (l & w' & Hrun & Hlike & Hnow & Hl).
  exists l, w'. split_and!; [done|done|done|]. apply Hc. cbn in Hl.
  case_decide; [destruct Hp as [?|Hp]; [done|]; by subst fsid|]. by rewrite He, Hfs in Hl.
Qed.
Lemma refreshed_not_due path fsid rs since w :
  path ≠ "" → 0 < ttl f → 0 ≤ w_now w → w_now w + 10 ^ 9 ≤ since + ttl f →
  refreshed path fsid rs since w → ¬ due path w.
Proof.
  intros Hne Httl H0 Hnow [_ (e & He & _ & Hexp) _]. unfold due. rewrite decide_False by done. rewrite He.
  unfold unix in Hexp. pose proof (Z.div_mod (since + ttl f) (10 ^ 9) ltac:(lia)).
  pose proof (Z.mod_pos_bound (since + ttl f) (10 ^ 9) ltac:(lia)). lia.
Qed.

(** A refresh that finds [rs] and leaves the drive in [s']. *)
Definition refresh_finds (refresh : stateM (World S) (option goError)) path fsid rs w s' : Prop :=
  ∀ w1, like_world w w1 → ∃ w', refresh w1 = (None, w') ∧ refreshed path fsid rs (w_now w) w' ∧
    w_remote w' = s' ∧ (w_negative w', w_token w') = (w_negative w, w_token w) ∧ clocked w' ∧ w_now w ≤ w_now w'.
Lemma refreshDir_finds path fsid rs w s' :
  hasRemote f = true → clocked w → drive_List path (w_remote w) = (Ok rs, s') →
  fsid ≠ "0" → NoDup (map re_Path rs) → path ∉ map re_Path rs →
  refresh_finds (refreshDir f path fsid) path fsid rs w s'.
Proof.
  intros Hr Hc Hl H0 Hnd Hn w1 (Hh & Ht & E & Hc1). injection E as E1 E2 E3. rewrite <- E1 in Hl.
  destruct (refreshDir_run path fsid rs w1 s' Hr Hh Hl) as (es & e & w' & Hrun & Hrows & Hh' & Hs' & E' & Ht' & Hc').
  destruct (Hc1 Hc) as [Hcl Hle]. destruct (Hc' Hcl) as (Hcl' & Hle' & (R1 & R2 & R3 & R4 & R5)).
  exists w'. split_and!; [done| |done| |done|lia].
  - split; [done| |].
    + exists e. rewrite Ht', lookup_insert_eq. split_and!; [done|done|]. etransitivity; [|exact R5].
      unfold unix. apply Z.div_le_mono; lia.
    + intros l. rewrite Ht'. eapply lists_shows; [exact Hrows|]. eapply children_after; [done..|].
      rewrite R2. by eapply parent_in_replaced.
  - by rewrite E', E2, E3.
Qed.
Lemma refreshRoot_finds rs w s' :
  hasRemote f = true → clocked w → drive_List (rootPath f) (w_remote w) = (Ok rs, s') →
  NoDup (map (root_child_path (rootPath f)) rs) → rootPath f ∉ map (root_child_path (rootPath f)) rs →
  refresh_finds (refreshRoot f) (rootPath f) "0" rs w s'.
Proof.
  intros Hr Hc Hl Hnd Hn w1 (Hh & Ht & E & Hc1). injection E as E1 E2 E3. rewrite <- E1 in Hl.
  destruct (refreshRoot_run rs w1 s' Hr Hh Hl) as (es & e & w' & Hrun & Hrows & Hh' & Hs' & E' & Ht' & Hc').
  destruct (Hc1 Hc) as [Hcl Hle]. destruct (Hc' Hcl) as (Hcl' & Hle' & (R1 & R2 & R3 & R4 & R5)).
  exists w'. split_and!; [done| |done| |done|lia].
  - split; [done| |].
    + exists e. rewrite Ht', lookup_insert_eq. split_and!; [done|done|]. etransitivity; [|exact R5].
      unfold unix. apply Z.div_le_mono; lia.
    + intros l. rewrite Ht'. eapply lists_shows; [exact Hrows|]. eapply children_after; [done..|].
      by rewrite R2.
  - by rewrite E', E2, E3.
Qed.

(** The children of a directory whose refresh is due, and of one it is not. *)
Lemma fresh_children_due refresh path fsid rs w s' :
  hasRemote f = true → healthy w → due path w → path ≠ "/" ∨ fsid = "0" →
  refresh_finds refresh path fsid rs w s' →
  ∃ l w', fresh_children f path (Some refresh) w = (Ok l, w') ∧ shows rs l ∧
    refreshed path fsid rs (w_now w) w' ∧ w_remote w' = s' ∧
    (w_negative w', w_token w') = (w_negative w, w_token w) ∧ clocked w' ∧ w_now w ≤ w_now w'.
Proof.
  intros Hr Hh Hdue Hp Hfind. unfold fresh_children.
  destruct (ListChildren_run path w Hh) as (l0 & w1 & H1 & L1 & N1 & _).
  destruct (shouldRefresh_run path w1 Hr (proj1 L1)) as (b & w2 & H2 & L2 & Hb).
  assert (b = true) as ->.
  { apply Hb. destruct L1 as (_ & Ht & _). unfold due in *. by rewrite Ht, N1. }
  destruct (Hfind w2) as (w3 & H3 & R3 & S3 & E3 & C3 & T3); [by eapply like_world_trans|].
  destruct (refreshed_lists path fsid rs (w_now w) w3 Hp R3) as (l & w4 & H4 & L4 & N4 & Hl).
  exists l, w4. split.
  { unfold mbind, stateM_bind. rewrite H1. cbn beta iota zeta. rewrite H2. cbn beta iota zeta.
    rewrite H3. cbn beta iota zeta. by rewrite H4. }
  destruct L4 as (L41 & L42 & L43 & L44). injection L43 as E41 E42 E43. destruct (L44 C3). split_and!.
  - done.
  - destruct R3 as [_ A2 A3]. split; [done|by rewrite L42|by rewrite L42].
  - congruence.
  - by rewrite E42, E43.
  - done.
  - lia.
Qed.
Lemma fresh_children_cached refresh path fsid rs since w :
  path ≠ "/" ∨ fsid = "0" → path ≠ "" → hasRemote f = true → 0 < ttl f →
  0 ≤ w_now w → w_now w + 10 ^ 9 ≤ since + ttl f → refreshed path fsid rs since w →
  ∃ l w', fresh_children f path refresh w = (Ok l, w') ∧ shows rs l ∧ like_world w w'.
Proof.
  intros Hp Hne Hr Httl H0 Hnow Href. unfold fresh_children.
  destruct (refreshed_lists path fsid rs since w Hp Href) as (l & w1 & H1 & L1 & N1 & Hl).
  destruct (shouldRefresh_run path w1 Hr (proj1 L1)) as (b & w2 & H2 & L2 & Hb).
  assert (b = false) as ->.
  { destruct b; [|done]. exfalso. apply (refreshed_not_due path fsid rs since w); [done..|].
    destruct L1 as (_ & Ht & _). pose proof (proj1 Hb eq_refl) as Hd. unfold due in *. by rewrite Ht, N1 in Hd. }
  exists l, w2. split_and!; [|done|by eapply like_world_trans].
  unfold mbind, stateM_bind. rewrite H1. cbn beta iota zeta. rewrite H2. by destruct refresh.
Qed.
(** ** Every action keeps the table well formed, and the refresh token *)
Definition table_and_token b w : Prop := db_wf (w_db w) ∧ w_token w = b.
Definition keeps {A} (m : stateM (World S) A) : Prop :=
  ∀ b w, table_and_token b w → table_and_token b (m w).2.
Lemma keeps_ret {A} (a : A) : keeps (mret a).
Proof. by intros b w. Qed.
Lemma keeps_bind {A B} (m : stateM (World S) A) (g : A → stateM (World S) B) :
  keeps m → (∀ a, keeps (g a)) → keeps (m ≫= g).
Proof.
  intros Hm Hg t w Hw. unfold mbind, stateM_bind. specialize (Hm t w Hw).
  destruct (m w) as [a w1]. by apply Hg.
Qed.
Lemma keeps_Now : keeps Now.
Proof. by intros b w. Qed.
Lemma keeps_modify g :
  (∀ w, w_db (g w) = w_db w ∧ w_token (g w) = w_token w) → keeps (modify g).
Proof. intros Hg b w [H1 H2]. destruct (Hg w) as [E1 E2]. split; cbn; congruence. Qed.
Lemma keeps_store {A} (m : sqlM A) Q : triple m Q → keeps (call_store m).
Proof.
  intros Hm b w [Hw Hb]. unfold call_store. destruct (m (w_db w)) as [r db'] eqn:Hrun.
  split; [by apply (Hm _ _ _ Hw Hrun)|exact Hb].
Qed.
Lemma keeps_List path : keeps (remote_List path).
Proof. intros b w Hw. unfold remote_List. by destruct (drive_List path (w_remote w)). Qed.
Lemma keeps_Delete paths : keeps (remote_Delete paths).
Proof. intros b w Hw. unfold remote_Delete. by destruct (drive_Delete paths (w_remote w)). Qed.
Lemma keeps_isMissing path : keeps (isMissing path).
Proof.
  intros b w Hw. unfold isMissing. destruct (w_negative w) as [c|]; [|done]. cbn.
  by destruct (IsMissing path (w_now w) c).
Qed.
Lemma keeps_mapM {A B} (g : A → stateM (World S) B) l : (∀ a, keeps (g a)) → keeps (mapM g l).
Proof.
  intros Hg. induction l as [|a l IH]; [apply keeps_ret|]. cbn [mapM].
  apply keeps_bind; [apply Hg|]. intros b. apply keeps_bind; [apply IH|]. intros bs. apply keeps_ret.
Qed.
Hint Resolve keeps_ret keeps_Now keeps_List keeps_Delete keeps_isMissing : fs.
Lemma keeps_GetByPath path : keeps (call_store (GetByPath path)).
Proof. eapply keeps_store, GetByPath_triple. Qed.
Lemma keeps_ListChildren path : keeps (call_store (ListChildren path)).
Proof. eapply keeps_store, ListChildren_triple. Qed.
Lemma keeps_ReplaceChildren parent es : keeps (call_store (ReplaceChildren parent es)).
Proof. eapply keeps_store, ReplaceChildren_triple. Qed.
Lemma keeps_upsert e : keeps (call_store (exec (upsert e))).
Proof. eapply keeps_store, upsert_triple. Qed.
Lemma keeps_DeletePath path : keeps (call_store (DeletePath path)).
Proof. eapply keeps_store, DeletePath_triple. Qed.
Hint Resolve keeps_GetByPath keeps_ListChildren keeps_ReplaceChildren keeps_upsert keeps_DeletePath : fs.
(** Walks through a handler, one action at a time. *)
Ltac keeps_step :=
  first [ by eauto with fs | apply keeps_bind; [|intros ?] | by apply keeps_modify | apply keeps_mapM; intros ?
        | case_match ].
Ltac keeps_all := repeat keeps_step.

Lemma keeps_markMissing path : keeps (markMissing path).
Proof. unfold markMissing. keeps_all. Qed.
Lemma keeps_row parent path r : keeps (remote_row f parent path r).
Proof. unfold remote_row, childExpiresAt. keeps_all. Qed.
Lemma keeps_renew fsid parent path name : keeps (renew_directory f fsid parent path name).
Proof. unfold renew_directory, existingMTime, UpsertEntry. keeps_all. Qed.
Hint Resolve keeps_markMissing keeps_row keeps_renew : fs.
Lemma keeps_refreshRoot : keeps (refreshRoot f).
Proof. unfold refreshRoot. keeps_all. Qed.
Lemma keeps_refreshDir path fsid : keeps (refreshDir f path fsid).
Proof. unfold refreshDir. keeps_all. Qed.
Lemma keeps_shouldRefresh path : keeps (shouldRefresh f path).
Proof. unfold shouldRefresh. keeps_all. Qed.
Hint Resolve keeps_refreshRoot keeps_refreshDir keeps_shouldRefresh : fs.
Lemma keeps_children walk l visited :
  (∀ p v, keeps (walk p v)) → keeps (refresh_children f walk l visited).
Proof.
  intros Hw. revert visited. induction l as [|e l IH]; intros visited; cbn [refresh_children]; keeps_all.
Qed.
Lemma keeps_known fuel path visited : keeps (refreshKnownDirectories f fuel path visited).
Proof.
  revert path visited. induction fuel as [|fuel IH]; intros path visited; cbn [refreshKnownDirectories]; keeps_all.
  by apply keeps_children.
Qed.
Lemma keeps_fresh path refresh : (∀ m, refresh = Some m → keeps m) → keeps (fresh_children f path refresh).
Proof.
  intros Hr. unfold fresh_children. apply keeps_bind; [eauto with fs|]. intros [l|e]; [|apply keeps_ret].
  apply keeps_bind; [eauto with fs|]. intros due. destruct refresh as [m|]; [|apply keeps_ret].
  specialize (Hr m eq_refl). keeps_all.
Qed.
Lemma keeps_root_children : keeps (root_children f).
Proof. apply keeps_fresh. intros m [= <-]. apply keeps_refreshRoot. Qed.
Lemma keeps_node_children n : keeps (node_children f n).
Proof. apply keeps_fresh. intros m. case_match; [|done]. intros [= <-]. apply keeps_refreshDir. Qed.
Hint Resolve keeps_root_children keeps_node_children keeps_known : fs.
Lemma keeps_fill e mode out : keeps (fillEntryOut f e mode out).
Proof. unfold fillEntryOut, inodeTime. keeps_all. Qed.
Hint Resolve keeps_fill : fs.
Lemma keeps_lookup_in path name m out : keeps m → keeps (lookup_in f path name m out).
Proof. intros Hm. unfold lookup_in. keeps_all. Qed.
Lemma keeps_Getattr out : keeps (Getattr f out).
Proof. unfold Getattr. keeps_all. Qed.
Lemma keeps_deleteChild path name wantDir : keeps (deleteChild f path name wantDir).
Proof. unfold deleteChild. keeps_all. Qed.
Lemma keeps_populate : keeps (populate f).
Proof. unfold populate. keeps_all. Qed.
Lemma keeps_walk fuel :
  keeps (r ← refreshRoot f;
         match r with
         | Some e => mret (Some (Some e))
         | None => walked ← refreshKnownDirectories f fuel (rootPath f) ∅; mret (fst <$> walked)
         end).
Proof. keeps_all. Qed.
End runs.
#[export] Hint Resolve keeps_root_children keeps_node_children keeps_lookup_in keeps_Getattr keeps_fill
  keeps_deleteChild keeps_populate keeps_refreshRoot keeps_refreshDir keeps_walk keeps_ret : fs.
