(* ===== verification/FilesystemDemo.v ===== *)
(** * A small drive and a mount of it, for the examples of the file system *)
From stdpp Require Import sorting.
From S2P Require Import Prelude GoStrings GoErrors GoMonads GoPath GoSort BaiduClient MetaStore MetaStoreInv MetaStoreSpec NegativeCache Filesystem FilesystemInv.

Definition demoRemote (fsid name path : string) (size : Z) (dir : bool) : RemoteEntry :=
  mkRemoteEntry fsid name path size dir 100 100 "".
Definition demoTree (path : string) : list RemoteEntry :=
  if decide (path = "/Videos") then
    [demoRemote "2" "film.mkv" "/Videos/film.mkv" 6 false; demoRemote "1" "Series" "/Videos/Series" 0 true]
  else if decide (path = "/Videos/Series") then [demoRemote "3" "e1.mkv" "/Videos/Series/e1.mkv" 9 false]
  else [].
#[export] Instance demoDrive : Drive unit :=
  {| drive_List := λ path s, (Ok (demoTree path), s); drive_Delete := λ _ s, (None, s) |}.
#[export] Instance entryOrder : NameOrder Entry en_Name := merge_order en_Name.
#[export] Instance direntOrder : NameOrder DirEntry de_Name := merge_order de_Name.

Definition demoMount : Filesystem :=
  {| ttl := minute; primaryGID := 0; gids := ∅; rootPath := "/Videos"; hasRemote := true;
     enableDelete := true; traceReads := false |}.
Definition demoWorld : World unit := mkWorld newDB tt None false (1000 * 10 ^ 9) [].
Definition seriesRow : Entry := mkEntry 0 "1" "0" "/Videos/Series" "Series" 0 true 100 "" 1000 0 false.
(** The world once the root has been refreshed. *)
Definition mountedWorld : World unit := (refreshRoot demoMount demoWorld).2.

Lemma demoWorld_healthy : healthy demoWorld.
Proof. split; [|done]. split; cbn; [apply NoDup_nil_2|constructor|constructor|lia]. Qed.
Lemma demoWorld_clocked : clocked demoWorld.
Proof. constructor. Qed.
Lemma mountedWorld_healthy : healthy mountedWorld.
Proof.
  assert (table_and_token false mountedWorld) as [Hw _].
  { apply (keeps_refreshRoot demoMount). split; [apply demoWorld_healthy|done]. }
  split; [done|]. vm_compute. reflexivity.
Qed.
Lemma demoTree_cases path r :
  r ∈ demoTree path →
  r ∈ [demoRemote "2" "film.mkv" "/Videos/film.mkv" 6 false; demoRemote "1" "Series" "/Videos/Series" 0 true;
       demoRemote "3" "e1.mkv" "/Videos/Series/e1.mkv" 9 false].
Proof. unfold demoTree. repeat case_decide; rewrite ?elem_of_cons; tauto. Qed.
