(* ===== verification/FilesystemProps.v ===== *)
(** * What the mounted file system promises

    Listings show what the drive holds and are served from the store while
    they are fresh; lookups, deletions and refreshes do what their errors say. *)
From stdpp Require Import sorting.
From S2P Require Import Prelude GoStrings GoErrors GoMonads GoPath GoSort BaiduClient MetaStore MetaStoreInv MetaStoreSpec MetaStoreProps NegativeCache Filesystem FilesystemInv FilesystemDemo.

Section props.
Context {S : Type} `{!Drive S} `{!NameOrder Entry en_Name} `{!NameOrder DirEntry de_Name}.
Context (f : Filesystem).
Implicit Types (w : World S) (path name : string) (e n : Entry).

(** ** Sequences of handler calls *)
Inductive handler :=
| HReaddir | HNodeReaddir (n : Entry) | HLookup (name : string) (out : Attr)
| HNodeLookup (n : Entry) (name : string) (out : Attr) | HGetattr (out : Attr)
| HNodeGetattr (n : Entry) (out : Attr) | HDelete (parent name : string) (wantDir : bool)
| HOnAdd (fuel : nat) | HRefreshAll (fuel : nat) | HRefreshRootOnly.
Definition run_handler (h : handler) : stateM (World S) unit :=
  match h with
  | HReaddir => _ ← Readdir f; mret tt
  | HNodeReaddir n => _ ← entryNode_Readdir f n; mret tt
  | HLookup name out => _ ← Lookup f name out; mret tt
  | HNodeLookup n name out => _ ← entryNode_Lookup f n name out; mret tt
  | HGetattr out => _ ← Getattr f out; mret tt
  | HNodeGetattr n out => _ ← entryNode_Getattr f n out; mret tt
  | HDelete parent name wantDir => _ ← deleteChild f parent name wantDir; mret tt
  | HOnAdd fuel => _ ← OnAdd f fuel; mret tt
  | HRefreshAll fuel => _ ← RefreshAll f fuel; mret tt
  | HRefreshRootOnly => _ ← RefreshRootOnly f; mret tt
  end.
Fixpoint run_handlers (hs : list handler) : stateM (World S) unit :=
  match hs with
  | [] => mret tt
  | h :: hs => _ ← run_handler h; run_handlers hs
  end.

Abbreviation good := (table_and_token false).
Definition fine {A} (m : stateM (World S) A) : Prop := ∀ w, good w → good (m w).2.
Lemma fine_keeps {A} (m : stateM (World S) A) : keeps m → fine m.
Proof. intros H w. apply H. Qed.
Lemma fine_bind {A B} (m : stateM (World S) A) (g : A → stateM (World S) B) :
  fine m → (∀ a, fine (g a)) → fine (m ≫= g).
Proof.
  intros Hm Hg w Hw. unfold mbind, stateM_bind. specialize (Hm w Hw). destruct (m w) as [a w1]. by apply Hg.
Qed.
Lemma with_token_run {A} (d : A) (m : stateM (World S) A) w :
  with_token d m w = if w_token w then (d, w <| w_token := true |>)
                     else ((m (w <| w_token := true |>)).1, (m (w <| w_token := true |>)).2 <| w_token := false |>).
Proof.
  unfold with_token, mbind, stateM_bind, tryRefreshToken. destruct (w_token w); [done|].
  change (negb (negb false)) with false. cbv iota beta. by destruct (m (w <| w_token := true |>)) as [a w1].
Qed.
Lemma fine_token {A} (d : A) (m : stateM (World S) A) : keeps m → fine (with_token d m).
Proof.
  intros Hm w [Hw Hb]. rewrite with_token_run, Hb. split; [|done].
  exact (proj1 (Hm true (w <| w_token := true |>) (conj Hw eq_refl))).
Qed.

Lemma RefreshAll_fine fuel : fine (RefreshAll f fuel).
Proof. unfold RefreshAll. case_match; [by apply fine_keeps, keeps_ret|]. apply fine_token, keeps_walk. Qed.
Lemma RefreshRootOnly_fine : fine (RefreshRootOnly f).
Proof. unfold RefreshRootOnly. case_match; [by apply fine_keeps, keeps_ret|]. apply fine_token, keeps_refreshRoot. Qed.
Lemma run_handler_fine h : fine (run_handler h).
Proof.
  destruct h; cbn [run_handler]; (apply fine_bind; [|intros ?; by apply fine_keeps, keeps_ret]);
    try (apply fine_keeps; auto with fs; fail).
  - apply fine_keeps, keeps_bind; intros; auto with fs.
  - apply fine_keeps, keeps_bind; intros; auto with fs.
  - apply fine_keeps, keeps_lookup_in; auto with fs.
  - apply fine_keeps, keeps_lookup_in; auto with fs.
  - apply fine_keeps, keeps_fill.
  - apply fine_bind; [apply fine_keeps, keeps_populate|]. intros l.
    apply fine_bind; [apply RefreshAll_fine|]. intros r. apply fine_keeps, keeps_ret.
  - apply RefreshAll_fine.
  - apply RefreshRootOnly_fine.
Qed.

(** C13: Whatever handlers run in whatever order, and whatever statements of the
    database or requests to the drive fail, the table stays well formed (paths
    unique, ids distinct and ascending) and the refresh token is free again,
    so no failed refresh blocks the later ones. *)
Theorem handlers_keep_store hs w :
  db_wf (w_db w) → w_token w = false →
  db_wf (w_db (run_handlers hs w).2) ∧ w_token (run_handlers hs w).2 = false.
Proof.
  intros Hw Hb. assert (∀ w, good w → good (run_handlers hs w).2) as H; [|by apply H].
  clear w Hw Hb. induction hs as [|h hs IH]; [by intros w|]. cbn [run_handlers].
  apply fine_bind; [apply run_handler_fine|]. intros u w. apply IH.
Qed.

(** ** Directories *)
Inductive directory := Root | Node (n : Entry).
Definition dir_path (d : directory) : string := match d with Root => rootPath f | Node n => en_Path n end.
Definition dir_Lookup (d : directory) : string → Attr → stateM (World S) (result Errno (Entry * Attr)) :=
  match d with Root => Lookup f | Node n => entryNode_Lookup f n end.
Definition dir_fsid (d : directory) : string := match d with Root => "0" | Node n => en_FSID n end.
Definition dir_place (d : directory) : RemoteEntry → string :=
  match d with Root => root_child_path (rootPath f) | Node _ => re_Path end.
(** A directory that is not the root's id, and a listing of it in which no
    entry has the path of another or of the directory. *)
Definition dir_ok (d : directory) : Prop :=
  dir_path d ≠ "" ∧ match d with Root => True | Node n => en_IsDir n = true ∧ en_Path n ≠ "/" ∧ en_FSID n ≠ "0" end.
Definition listing_ok (d : directory) (rs : list RemoteEntry) : Prop :=
  NoDup (map (dir_place d) rs) ∧ dir_path d ∉ map (dir_place d) rs.
Definition dir_children (d : directory) : stateM (World S) (result Errno (list Entry)) :=
  match d with Root => root_children f | Node n => node_children f n end.

Lemma dir_children_due d rs w s' :
  hasRemote f = true → dir_ok d → listing_ok d rs → healthy w → clocked w → due f (dir_path d) w →
  drive_List (dir_path d) (w_remote w) = (Ok rs, s') →
  ∃ l w', dir_children d w = (Ok l, w') ∧ shows rs l ∧
    refreshed f (dir_path d) (dir_fsid d) rs (w_now w) w' ∧ w_remote w' = s' ∧
    (w_negative w', w_token w') = (w_negative w, w_token w) ∧ clocked w' ∧ w_now w ≤ w_now w'.
Proof.
  intros Hr [Hne Hd] [Hnd Hn] Hh Hc Hdue Hl. destruct d as [|n]; cbn in *.
  - apply fresh_children_due; [done..|by right|]. by apply refreshRoot_finds.
  - destruct Hd as (Hdir & Hp & H0). unfold node_children. rewrite Hr, Hdir. cbn [andb].
    apply fresh_children_due; [done..|by left|]. by apply refreshDir_finds.
Qed.



(** ** Lookups *)
Definition half_minute : Z := 30 * 10 ^ 9.
(** The negative cache is the one [markMissing] makes. *)
Definition negative_ok w : Prop := ∀ c, w_negative w = Some c → nc_ttl c = half_minute.
Lemma isMissing_false path w :
  negative_ok w → (isMissing path w).1 = false →
  ∃ w', isMissing path w = (false, w') ∧ negative_ok w' ∧
    (w_db w', w_remote w', w_token w') = (w_db w, w_remote w, w_token w) ∧
    (clocked w → clocked w' ∧ w_now w ≤ w_now w').
Proof.
  intros Hn. unfold isMissing. destruct (w_negative w) as [c|] eqn:Hc.
  2: { intros _. exists w. split_and!; [done|done|done|]. intros H. split; [done|lia]. }
  destruct (Now_run w) as (w1 & Hnow & [E Hcl]). rewrite Hnow. destruct (IsMissing path (w_now w) c) as [b c'] eqn:Hm.
  cbn. intros ->. exists (w1 <| w_negative := Some c' |>). injection E as E1 E2 E3 E4. split_and!; [done| |cbn; congruence|done].
  intros c2 [= <-]. unfold IsMissing in Hm. rewrite <- (Hn c Hc).
  destruct (nc_entries c !! path); [|by injection Hm as <-]. case_decide; [|done]. by injection Hm as <-.
Qed.
Lemma isMissing_marked path w c ts :
  w_negative w = Some c → nc_entries c !! path = Some ts → w_now w - ts ≤ nc_ttl c →
  ∃ w', isMissing path w = (true, w') ∧ w_db w' = w_db w ∧ w_remote w' = w_remote w.
Proof.
  intros Hc Hts Hle. unfold isMissing. rewrite Hc. destruct (Now_run w) as (w1 & Hnow & [E _]). rewrite Hnow.
  injection E as E1 E2 E3 E4. unfold IsMissing. rewrite Hts, decide_False by lia.
  eexists. split; [reflexivity|]. done.
Qed.
Lemma markMissing_run path w :
  negative_ok w → clocked w →
  ∃ w' c ts, markMissing path w = (tt, w') ∧ w_negative w' = Some c ∧ nc_entries c !! path = Some ts ∧
    nc_ttl c = half_minute ∧ w_now w ≤ ts ∧ (w_db w', w_remote w', w_token w') = (w_db w, w_remote w, w_token w).
Proof.
  intros Hn Hc. unfold markMissing, mbind, stateM_bind.
  destruct (Now_run w) as (w1 & Hnow & [E _]). rewrite Hnow. injection E as E1 E2 E3 E4. cbn.
  eexists _, _, (w_now w). split; [reflexivity|]. split; [reflexivity|]. cbn.
  split_and!; [by rewrite lookup_insert_eq| |lia|congruence].
  rewrite E3. destruct (w_negative w) as [c|] eqn:Hw; [by apply Hn|done].
Qed.
Lemma fill_run e mode out w :
  ∃ a w', fillEntryOut f e mode out w = (a, w') ∧ at_Mode a = Z.lor mode (if en_IsDir e then dirMode f else fileMode f) ∧
    at_Size a = (if en_IsDir e then 0 else u64 (en_Size e)).
Proof.
  unfold fillEntryOut, inodeTime, mbind, stateM_bind.
  destruct (decide (0 < en_MTM e)); [|destruct (Now_run w) as (w1 & -> & _)]; cbn;
    eexists _, _; (split; [reflexivity|]); by destruct (en_IsDir e).
Qed.

Lemma fill_remote e mode out w a w' : fillEntryOut f e mode out w = (a, w') → w_remote w' = w_remote w.
Proof.
  unfold fillEntryOut, inodeTime, mbind, stateM_bind.
  destruct (decide (0 < en_MTM e)); [|destruct (Now_run w) as (w1 & -> & [E _])]; cbn; intros [= _ <-]; [done|].
  by injection E.
Qed.

Definition dir_child_path (d : directory) name : string := JoinPath (dir_path d) name.
Lemma dir_Lookup_eq d name out :
  dir_Lookup d name out = lookup_in f (dir_child_path d name) name (dir_children d) out.
Proof. by destruct d. Qed.
Lemma find_child_Some name l e : find_child name l = Some e → e ∈ l ∧ en_Name e = name.
Proof.
  unfold find_child. intros Hf. destruct (filter _ l) as [|x k] eqn:Hfl; [done|]. injection Hf as ->.
  assert (e ∈ filter (λ e, en_Name e = name) l) as He by (rewrite Hfl; by left).
  apply list_elem_of_filter in He. tauto.
Qed.
Lemma find_child_None name l : find_child name l = None → name ∉ map en_Name l.
Proof.
  unfold find_child. intros Hf Hin. destruct (filter _ l) as [|x k] eqn:Hfl; [|done].
  apply list_elem_of_fmap in Hin as (e & -> & He).
  assert (e ∈ filter (λ e', en_Name e' = en_Name e) l) as Hx by (by apply list_elem_of_filter).
  rewrite Hfl in Hx. by apply not_elem_of_nil in Hx.
Qed.
Lemma shows_entry rs l e : shows rs l → e ∈ l → ∃ r, r ∈ rs ∧ re_ServerName r = en_Name e ∧ re_IsDir r = en_IsDir e.
Proof.
  intros Hs He. apply (list_elem_of_fmap_2 (λ e, (en_Name e, en_IsDir e))) in He.
  unfold shows in Hs. rewrite Hs in He. apply list_elem_of_fmap in He as (r & [= H1 H2] & Hr). eauto.
Qed.
Lemma shows_names rs l : shows rs l → map en_Name l ≡ₚ map re_ServerName rs.
Proof.
  intros Hs. apply (Permutation_map fst) in Hs. rewrite !map_map in Hs. exact Hs.
Qed.

(** C9: A lookup in a directory whose refresh is due finds the name exactly if
    the drive lists it, with the kind the drive says; otherwise it answers
    [ENOENT], and for half a minute the same lookup answers that again without
    asking the store or the drive. *)
Theorem lookup_follows_drive d rs w s' name out :
  hasRemote f = true → dir_ok d → listing_ok d rs → healthy w → clocked w → due f (dir_path d) w →
  drive_List (dir_path d) (w_remote w) = (Ok rs, s') →
  negative_ok w → (isMissing (dir_child_path d name) w).1 = false →
  ∃ r w', dir_Lookup d name out w = (r, w') ∧ w_remote w' = s' ∧
    match r with
    | Ok (child, attr) =>
        en_Name child = name ∧ at_Mode attr = Z.lor (entry_mode child) (if en_IsDir child then dirMode f else fileMode f) ∧
        ∃ entry, entry ∈ rs ∧ re_ServerName entry = name ∧ re_IsDir entry = en_IsDir child
    | Err e =>
        e = ENOENT ∧ name ∉ map re_ServerName rs ∧
        ∀ w2 out2, w_negative w2 = w_negative w' → w_now w2 ≤ w_now w + half_minute →
          ∃ w3, dir_Lookup d name out2 w2 = (Err ENOENT, w3) ∧ w_db w3 = w_db w2 ∧ w_remote w3 = w_remote w2
    end.
Proof.
  intros Hr Hd Hls Hh Hc Hdue Hl Hneg Hmiss.
  destruct (isMissing_false _ w Hneg Hmiss) as (w1 & H1 & Hneg1 & E1 & C1). injection E1 as D1 R1 T1.
  destruct (C1 Hc) as [Hc1 Hle1]. rewrite <- R1 in Hl.
  assert (healthy w1) as Hh1 by (unfold healthy in *; by rewrite D1).
  assert (due f (dir_path d) w1) as Hdue1.
  { unfold due in *. rewrite D1. destruct Hdue as [?|Hdue]; [by left|right].
    destruct (table (w_db w) !! _); [|done]. destruct Hdue; [by left|right; lia]. }
  destruct (dir_children_due d rs w1 s' Hr Hd Hls Hh1 Hc1 Hdue1 Hl) as (l & w4 & H4 & Hs & _ & R4 & E4 & C4 & Hle4).
  injection E4 as N4 T4. rewrite dir_Lookup_eq. unfold lookup_in at 1. unfold mbind, stateM_bind. rewrite H1.
  cbn beta iota zeta. rewrite H4. cbn beta iota zeta. destruct (find_child name l) as [child|] eqn:Hfind.
  - destruct (fill_run child (entry_mode child) out w4) as (a & w5 & H5 & Hmode & _). rewrite H5.
    apply find_child_Some in Hfind as [Hin Hname]. exists (Ok (child, a)), w5. split; [done|].
    split; [by rewrite (fill_remote child (entry_mode child) out w4 a w5 H5)|]. split_and!; [done|done|].
    destruct (shows_entry rs l child Hs Hin) as (r & Hin' & Hn & Hk). exists r. by rewrite Hn.
  - assert (negative_ok w4) as Hneg4 by (unfold negative_ok; by rewrite N4).
    destruct (markMissing_run (dir_child_path d name) w4 Hneg4 C4) as (w5 & c & ts & H5 & Hc5 & Hts & Httl & Hle5 & E5).
    rewrite H5. injection E5 as _ R5 _. exists (Err ENOENT), w5. split_and!; [done|congruence|done| |].
    + apply find_child_None in Hfind. by rewrite (shows_names rs l Hs) in Hfind.
    + intros w2 out2 Hn2 Hnow2. rewrite dir_Lookup_eq. unfold lookup_in, mbind, stateM_bind. rewrite Hc5 in Hn2.
      destruct (isMissing_marked (dir_child_path d name) w2 c ts Hn2 Hts) as (w3 & H3 & D3 & R3); [lia|].
      rewrite H3. by exists w3.
Qed.

(** ** Deletions *)

(** The children of [parent] the store answers. *)
Definition stored_child parent w e : Prop :=
  ∃ l, spec_answer (OpListChildren parent) (table (w_db w)) (AEntries l) ∧ e ∈ l.
Lemma list_call parent w r w' :
  db_wf (w_db w) → call_store (ListChildren parent) w = (r, w') →
  db_wf (w_db w') ∧ same_rows (w_db w) (w_db w') ∧ w' = w <| w_db := w_db w' |> ∧
  ∀ l, r = Ok l → spec_answer (OpListChildren parent) (table (w_db w)) (AEntries l).
Proof.
  intros Hw. unfold call_store. destruct (ListChildren parent (w_db w)) as [a db'] eqn:Hrun. intros [= <- <-].
  destruct (ListChildren_triple parent _ _ _ Hw Hrun) as [Hw' Hl]. split_and!; [done| |done|].
  - by apply (ListChildren_readonly parent _ _ _ Hrun).
  - intros l Ha. by apply Hl.
Qed.

(** The child of that name a listing has first. *)
Definition names_child parent name w target : Prop :=
  ∃ l, spec_answer (OpListChildren parent) (table (w_db w)) (AEntries l) ∧ find_child name l = Some target.
(** A child that may be deleted: of the kind asked for, and not the root. *)
Definition deletable parent name wantDir w target : Prop :=
  names_child parent name w target ∧ en_IsDir target = wantDir ∧
  ¬ (en_Path target = "" ∨ en_Path target = rootPath f ∨ en_Path target = "/").
Definition permitted : Prop := hasRemote f = true ∧ enableDelete f = true.
Definition untouched w w' : Prop := w_remote w' = w_remote w ∧ same_rows (w_db w) (w_db w').

(** The reasons of [EIO]: no remote, a listing that fails, a drive that does
    not delete, or a store that does not once the drive has. *)
Definition delete_failed parent name wantDir w w' : Prop :=
  hasRemote f = false ∧ untouched w w' ∨
  permitted ∧ same_rows (w_db w) (w_db w') ∧
  ((∃ err, (call_store (ListChildren parent) w).1 = Err err) ∧ w_remote w' = w_remote w ∨
   ∃ target, deletable parent name wantDir w target ∧
     ((∃ err, drive_Delete [en_Path target] (w_remote w) = (Some err, w_remote w')) ∨
      drive_Delete [en_Path target] (w_remote w) = (None, w_remote w') ∧
      ∃ err db db', same_rows (w_db w) db ∧ DeletePath (en_Path target) db = (Err err, db'))).
(** What the store has lost when [path] was deleted: the rows that are the path
    or that the [LIKE] pattern of the path matches; so all that is below it,
    and, when it has no ['%'] or ['_'], at most what is below it up to the case
    of letters besides. *)
Definition rows_deleted (path : string) (t t' : entries_map) : Prop :=
  t' = spec_change (OpDeletePath path) t ∧
  ∀ p e, t !! p = Some e →
    (under path e → t' !! p = None) ∧ (no_wildcards path → ¬ under_nocase path e → t' !! p = Some e).
Lemma rows_deleted_change path t : rows_deleted path t (spec_change (OpDeletePath path) t).
Proof.
  split; [done|]. intros p e Hp. cbn [spec_change]. split.
  - intros Hu%deleted_under. apply map_lookup_filter_None. right. intros e' He' Hd. cbn in Hd. congruence.
  - intros Hno Hout. apply map_lookup_filter_Some. split; [done|]. cbn.
    destruct (deleted path e) eqn:Hd; [by apply deleted_plain in Hd|done].
Qed.

Lemma listed_names parent t l l' e :
  spec_answer (OpListChildren parent) t (AEntries l) → spec_answer (OpListChildren parent) t (AEntries l') →
  e ∈ l → en_Name e ∈ map en_Name l'.
Proof.
  intros [Hl _] [Hl' _] He.
  assert (en_Name <$> (strip <$> l) ≡ₚ en_Name <$> (strip <$> l')) as Hp by (by rewrite Hl, Hl').
  rewrite <- !list_fmap_compose in Hp. change (en_Name <$> l ≡ₚ en_Name <$> l') in Hp.
  change (en_Name e ∈ en_Name <$> l'). rewrite <- Hp. by apply list_elem_of_fmap_2.
Qed.
(** The last part of [deleteChild], on a child that may be deleted. *)
Definition delete_child_of (target : Entry) : stateM (World S) (option Errno) :=
  deleted ← remote_Delete [en_Path target];
  match deleted with
  | Some _ => mret (Some EIO)
  | None =>
      r ← call_store (DeletePath (en_Path target));
      match r with Err _ => mret (Some EIO) | Ok _ => _ ← markMissing (en_Path target); mret None end
  end.
Lemma delete_child_run target w1 w r w' :
  db_wf (w_db w1) → untouched w w1 → delete_child_of target w1 = (r, w') →
  match r with
  | None =>
      drive_Delete [en_Path target] (w_remote w) = (None, w_remote w') ∧
      rows_deleted (en_Path target) (table (w_db w)) (table (w_db w')) ∧
      ∃ c, w_negative w' = Some c ∧ is_Some (nc_entries c !! en_Path target)
  | Some no =>
      no = EIO ∧ same_rows (w_db w) (w_db w') ∧
      ((∃ err, drive_Delete [en_Path target] (w_remote w) = (Some err, w_remote w')) ∨
       drive_Delete [en_Path target] (w_remote w) = (None, w_remote w') ∧
       ∃ err db db', same_rows (w_db w) db ∧ DeletePath (en_Path target) db = (Err err, db'))
  end.
Proof.
  intros Hw1 [R1 Hsame]. unfold delete_child_of, mbind, stateM_bind, remote_Delete.
  rewrite R1. destruct (drive_Delete [en_Path target] (w_remote w)) as [[e|] s'] eqn:Hd.
  { intros [= <- <-]. split_and!; [done|done|]. left. by exists e. }
  unfold call_store. cbn [w_db set_field].
  destruct (DeletePath (en_Path target) (w_db w1)) as [[[]|e] db2] eqn:Hdel.
  - destruct (DeletePath_triple _ _ _ _ Hw1 Hdel) as [_ Ht]. specialize (Ht tt eq_refl).
    rewrite (same_rows_table _ _ Hsame) in Ht. cbv beta iota. unfold markMissing, mbind, stateM_bind, Now. cbn.
    intros [= <- <-]. cbn. rewrite Ht. split_and!; [done|apply rows_deleted_change|].
    eexists. split; [reflexivity|]. cbn. by rewrite lookup_insert_eq.
  - intros [= <- <-]. cbn. destruct Hsame as [S1 S2].
    assert (atomic (DeletePath (en_Path target))) as Hat.
    { unfold DeletePath. case_decide; [by intros d e' d' [= _ <-]|apply atomic_statement]. }
    destruct (Hat _ _ _ Hdel) as [S3 S4]. split_and!; [done|split; congruence|].
    right. split; [done|]. exists e, (w_db w1), db2. by split_and!.
Qed.

(** C10: When a deletion is refused and what it changes.  Without a remote it
    is [EIO], with deleting off [EROFS], for a name no child has [ENOENT], for
    a child of the other kind [ENOTDIR] or [EISDIR], and for the root [EPERM];
    each of these leaves the drive and the rows of the store as they were.
    Else the drive is asked, once, to delete the path of the first child of
    that name, which is of the kind asked for and not the root.  [EIO] is also a
    listing that failed, a drive that refused, or a store that failed after the
    drive had deleted; no row is lost with it.  On success the path is marked
    missing and the store has lost exactly the rows that are that path or match
    the [LIKE] pattern made of it: everything below the path, but also what is
    below a path that differs in nothing but the case of letters, and, if the
    path has ['%'] or ['_'], whatever those wildcards match. *)
Theorem delete_child_effects parent name wantDir w r w' :
  db_wf (w_db w) → deleteChild f parent name wantDir w = (r, w') →
  match r with
  | None =>
      permitted ∧ ∃ target, deletable parent name wantDir w target ∧
        drive_Delete [en_Path target] (w_remote w) = (None, w_remote w') ∧
        rows_deleted (en_Path target) (table (w_db w)) (table (w_db w')) ∧
        ∃ c, w_negative w' = Some c ∧ is_Some (nc_entries c !! en_Path target)
  | Some EIO => delete_failed parent name wantDir w w'
  | Some EROFS => hasRemote f = true ∧ enableDelete f = false ∧ untouched w w'
  | Some no =>
      permitted ∧ untouched w w' ∧
      match no with
      | ENOENT => ∀ e, stored_child parent w e → en_Name e ≠ name
      | ENOTDIR => wantDir = true ∧ ∃ target, names_child parent name w target ∧ en_IsDir target = false
      | EISDIR => wantDir = false ∧ ∃ target, names_child parent name w target ∧ en_IsDir target = true
      | EPERM => ∃ target, names_child parent name w target ∧ en_IsDir target = wantDir ∧
          (en_Path target = "" ∨ en_Path target = rootPath f ∨ en_Path target = "/")
      | _ => False
      end
  end.
Proof.
  intros Hw. unfold deleteChild, delete_failed. destruct (hasRemote f) eqn:Hre; [|intros [= <- <-]; by left].
  cbn [negb]. destruct (enableDelete f) eqn:Hen; [|by intros [= <- <-]]. cbn [negb].
  assert permitted as Hper by done. unfold mbind, stateM_bind.
  destruct (call_store (ListChildren parent) w) as [lr w1] eqn:H1.
  destruct (list_call _ _ _ _ Hw H1) as (Hw1 & Hsame & E1 & Hl).
  assert (untouched w w1) as Hun by (by rewrite E1). pose proof (proj1 Hun) as R1.
  destruct lr as [l|e]; [|intros [= <- <-]; right; split_and!; [done|done|left; by split; [exists e|]]].
  specialize (Hl l eq_refl).
  destruct (find_child name l) as [target|] eqn:Hfind; [|intros [= <- <-]; split_and!; [done|done|]].
  2: { intros e (l' & Hl' & He) Hname. apply find_child_None in Hfind. apply Hfind.
       rewrite <- Hname. by apply (listed_names parent (table (w_db w)) l' l e). }
  assert (names_child parent name w target) as Hchild by (by exists l).
  destruct wantDir, (en_IsDir target) eqn:Hkind; cbn [negb andb];
    try (intros [= <- <-]; split_and!; [done|done|done|by exists target]).
  all: case_decide as Hroot; [intros [= <- <-]; split_and!; [done|done|by exists target]|].
  all: assert (deletable parent name (en_IsDir target) w target) as Hdel by (by split_and!); rewrite Hkind in Hdel.
  all: intros Hrun; apply (delete_child_run target w1 w r w' Hw1 Hun) in Hrun.
  all: destruct r as [no|]; [destruct Hrun as (-> & Hs & Hr); right; split_and!; [done|done|right]|split; [done|]].
  all: exists target; by split.
Qed.
End props.

(** ** Examples *)
Lemma handlers_keep_store_witness :
  w_token (run_handlers demoMount [HRefreshRootOnly; HReaddir; HDelete "/Videos" "film.mkv" false] demoWorld).2 = false.
Proof. exact (proj2 (handlers_keep_store demoMount _ demoWorld (proj1 demoWorld_healthy) eq_refl)). Defined.

Lemma demo_listing_ok : listing_ok demoMount Root (demoTree "/Videos").
Proof.
  split; [|intros H; vm_compute in H; set_solver].
  refine (bool_decide_unpack (NoDup _) _). vm_compute. exact I.
Qed.
Lemma demo_dir_ok : dir_ok demoMount Root.
Proof. split; [|exact I]. vm_compute. discriminate. Qed.
Lemma demo_negative_ok : negative_ok demoWorld.
Proof. intros c H. vm_compute in H. discriminate. Qed.
Lemma demo_due : due demoMount (dir_path demoMount Root) demoWorld.
Proof. right. vm_compute. exact I. Qed.
Lemma demo_lists :
  drive_List (dir_path demoMount Root) (w_remote demoWorld) = (Ok (demoTree "/Videos"), tt).
Proof. vm_compute. reflexivity. Qed.
Definition emptyAttr : Attr := mkAttr 0 0 0 0 0 0 0.
Lemma lookup_follows_drive_witness :
  (dir_Lookup demoMount Root "none" emptyAttr demoWorld).1 = Err ENOENT ∧
  "none" ∉ map re_ServerName (demoTree "/Videos").
Proof.
  assert ((dir_Lookup demoMount Root "none" emptyAttr demoWorld).1 = Err ENOENT) as He by (vm_compute; reflexivity).
  split; [exact He|].
  destruct (lookup_follows_drive demoMount Root (demoTree "/Videos") demoWorld tt "none" emptyAttr eq_refl
    demo_dir_ok demo_listing_ok demoWorld_healthy demoWorld_clocked demo_due demo_lists
    demo_negative_ok ltac:(vm_compute; reflexivity)) as (r & w' & Hrun & _ & Hr).
  rewrite Hrun in He. cbn in He. subst r. apply Hr.
Defined.
Lemma delete_child_effects_witness :
  (deleteChild demoMount "/Videos" "film.mkv" false mountedWorld).1 = None ∧
  (∃ target, deletable demoMount "/Videos" "film.mkv" false mountedWorld target) ∧
  (deleteChild demoMount "/Videos" "none" false mountedWorld).1 = Some ENOENT ∧
  ∀ e, stored_child "/Videos" mountedWorld e → en_Name e ≠ "none".
Proof.
  assert ((deleteChild demoMount "/Videos" "film.mkv" false mountedWorld).1 = None) as He by (vm_compute; reflexivity).
  assert ((deleteChild demoMount "/Videos" "none" false mountedWorld).1 = Some ENOENT) as Hn by (vm_compute; reflexivity).
  pose proof (delete_child_effects demoMount "/Videos" "film.mkv" false mountedWorld _ _
    (proj1 mountedWorld_healthy) (surjective_pairing _)) as H1.
  pose proof (delete_child_effects demoMount "/Videos" "none" false mountedWorld _ _
    (proj1 mountedWorld_healthy) (surjective_pairing _)) as H2.
  rewrite He in H1. rewrite Hn in H2. destruct H1 as (_ & target & Hc & _).
  split_and!; [exact He|by exists target|exact Hn|apply H2].
Defined.
