(* ===== verification/FilesystemWalk.v ===== *)
(** * The walk over the known directories ends

    [refreshKnownDirectories] goes down a directory once; with the paths of the
    store and of the drive in a finite set, fuel for one level more than that
    set is enough, whatever statements or requests fail. *)
From stdpp Require Import sorting.
From S2P Require Import Prelude GoStrings GoErrors GoMonads GoPath GoSort BaiduClient MetaStore MetaStoreInv MetaStoreSpec NegativeCache Filesystem FilesystemInv FilesystemDemo FilesystemProps.

Section walk.
Context {S : Type} `{!Drive S} `{!NameOrder Entry en_Name} `{!NameOrder DirEntry de_Name}.
Context (f : Filesystem) (U : gset string).
Implicit Types (w : World S) (path : string) (visited : gset string).

(** The drive's listings stay in [U], and so do the rows of the table. *)
Definition drive_in : Prop :=
  ∀ path s rs s', drive_List path s = (Ok rs, s') →
    ∀ r, r ∈ rs → re_Path r ∈ U ∧ root_child_path (rootPath f) r ∈ U.
Definition paths_in (t : entries_map) : Prop := ∀ path e, t !! path = Some e → path ∈ U.
Definition rows_in w : Prop := db_wf (w_db w) ∧ paths_in (table (w_db w)).
Definition stays {A} (m : stateM (World S) A) : Prop := ∀ w, rows_in w → rows_in (m w).2.
Context (Hdrive : drive_in) (Hroot : rootPath f ∈ U).

Lemma stays_ret {A} (a : A) : stays (mret a).
Proof. by intros w. Qed.
Lemma stays_bind {A B} (m : stateM (World S) A) (g : A → stateM (World S) B) :
  stays m → (∀ a, stays (g a)) → stays (m ≫= g).
Proof.
  intros Hm Hg w Hw. unfold mbind, stateM_bind. specialize (Hm w Hw). destruct (m w) as [a w1]. by apply Hg.
Qed.
Lemma stays_store {A} (m : sqlM A) Q :
  triple m Q → atomic m → (∀ a t t', Q a t t' → paths_in t → paths_in t') → stays (call_store m).
Proof.
  intros Hm Hat HQ w [Hw Hp]. unfold call_store. destruct (m (w_db w)) as [[a|e] db'] eqn:Hrun; cbn.
  - destruct (Hm _ _ _ Hw Hrun) as [Hw' Hq]. split; [done|]. by eapply HQ; [apply Hq|].
  - split; [by apply (Hm _ _ _ Hw Hrun)|]. unfold paths_in. cbn.
    by rewrite (same_rows_table _ _ (Hat _ _ _ Hrun)).
Qed.
Lemma insert_all_in es t : (∀ e, e ∈ es → en_Path e ∈ U) → paths_in t → paths_in (insert_all es t).
Proof.
  revert t. unfold insert_all. induction es as [|e es IH]; intros t Hes Ht; [done|]. cbn. apply IH.
  - intros x Hx. apply Hes. by right.
  - intros p x. destruct (decide (p = en_Path e)) as [->|Hne]; [intros _; apply Hes; by left|].
    rewrite lookup_insert_ne by done. apply Ht.
Qed.
Lemma stays_GetByPath path : stays (call_store (GetByPath path)).
Proof. eapply stays_store; [apply GetByPath_triple|apply atomic_statement|]. by intros a t t' [-> _]. Qed.
Lemma stays_ListChildren path : stays (call_store (ListChildren path)).
Proof.
  eapply stays_store; [apply ListChildren_triple|apply readonly_atomic, ListChildren_readonly|].
  by intros a t t' [-> _].
Qed.
Lemma stays_ReplaceChildren fsid es :
  (∀ e, e ∈ es → en_Path e ∈ U) → stays (call_store (ReplaceChildren fsid es)).
Proof.
  intros Hes. eapply stays_store; [apply ReplaceChildren_triple|apply atomic_transaction|].
  intros a t t' -> Ht. apply insert_all_in; [done|]. intros p e He.
  apply map_lookup_filter_Some in He as [He _]. by eapply Ht.
Qed.
Lemma stays_upsert e : en_Path e ∈ U → stays (call_store (UpsertEntry e)).
Proof.
  intros He. eapply stays_store; [apply upsert_triple|apply atomic_statement|].
  intros a t t' -> Ht. apply (insert_all_in [e]); [|done]. by intros x ->%list_elem_of_singleton.
Qed.
Lemma stays_renew fsid parent path name : path ∈ U → stays (renew_directory f fsid parent path name).
Proof.
  intros Hp. unfold renew_directory, existingMTime. repeat (apply stays_bind; [|intros ?]);
    first [apply stays_GetByPath | by apply stays_upsert | apply stays_ret | by intros w].
Qed.

(** A listing, its rows, and what is done with them. *)
Lemma stays_listing {A} path fsid place (k : result goError (list Entry) → stateM (World S) A) :
  (∀ s rs s' r, drive_List path s = (Ok rs, s') → r ∈ rs → place r ∈ U) →
  (∀ r, match r with Ok es => ∀ e, e ∈ es → en_Path e ∈ U | Err _ => True end → stays (k r)) →
  stays (listed ← remote_List path;
         match listed with
         | Err e => k (Err e)
         | Ok rs => mapped ← mapM (λ r, remote_row f fsid (place r) r) rs; k (Ok mapped)
         end).
Proof.
  intros Hpl Hk w Hw. unfold mbind at 1, stateM_bind at 1, remote_List at 1.
  destruct (drive_List path (w_remote w)) as [[rs|e] s'] eqn:Hl.
  - destruct (remote_rows_run f fsid place rs (w <| w_remote := s' |>)) as (es & w1 & H1 & Hes & [E _]).
    injection E as E1 _ _ _. cbv beta iota. unfold mbind, stateM_bind in *. rewrite H1. cbv beta iota.
    apply Hk.
    + destruct (rows_facts _ _ _ _ Hes) as (Hp & _). intros e He.
      apply (list_elem_of_fmap_2 en_Path) in He.
      change (en_Path <$> es) with (map en_Path es) in He. rewrite Hp in He.
      apply list_elem_of_fmap in He as (r & -> & Hr). by eapply Hpl.
    + unfold rows_in in *. by rewrite E1.
  - by apply Hk.
Qed.
Lemma stays_refreshDir path fsid : path ∈ U → stays (refreshDir f path fsid).
Proof.
  intros Hp. unfold refreshDir. destruct (negb (hasRemote f)); [apply stays_ret|].
  apply (stays_listing path fsid re_Path (λ r, match r with Err e => mret (Some e) | Ok mapped =>
    r ← call_store (ReplaceChildren fsid mapped);
    match r with
    | Err e => mret (Some e)
    | Ok _ => existing ← call_store (GetByPath path);
        renew_directory f fsid match existing with
                          | Ok (Some e) => if decide (en_Parent e = "") then "0" else en_Parent e
                          | _ => "0"
                          end path (Base path)
    end end)).
  - intros s rs s' r Hl Hr. by eapply Hdrive.
  - intros [es|e] Hes; [|apply stays_ret]. apply stays_bind; [by apply stays_ReplaceChildren|].
    intros [u|e]; [|apply stays_ret]. apply stays_bind; [apply stays_GetByPath|].
    intros x. by apply stays_renew.
Qed.
Lemma stays_refreshRoot : stays (refreshRoot f).
Proof.
  unfold refreshRoot. destruct (negb (hasRemote f)); [apply stays_ret|].
  apply (stays_listing (rootPath f) "0" (root_child_path (rootPath f)) (λ r, match r with
    | Err e => mret (Some e) | Ok mapped =>
    r ← call_store (ReplaceChildren "0" mapped);
    match r with Err e => mret (Some e) | Ok _ => renew_directory f "0" "" (rootPath f) "" end end)).
  - intros s rs s' r Hl Hr. by eapply Hdrive.
  - intros [es|e] Hes; [|apply stays_ret]. apply stays_bind; [by apply stays_ReplaceChildren|].
    intros [u|e]; [|apply stays_ret]. by apply stays_renew.
Qed.

(** ** The walk *)

Lemma listed_in path w l e :
  rows_in w → spec_answer (OpListChildren path) (table (w_db w)) (AEntries l) → e ∈ l → en_Path e ∈ U.
Proof.
  intros [Hw Hp] Hl He. assert (strip e ∈ strip <$> l) as Hs by (by apply list_elem_of_fmap_2).
  assert (∀ parent, lists l (children parent (table (w_db w))) → en_Path e ∈ U) as Hc.
  { intros parent [Hperm _]. rewrite Hperm in Hs. unfold children in Hs.
    apply list_elem_of_fmap in Hs as ([k x] & Hx & Hk). apply elem_of_map_to_list, map_lookup_filter_Some in Hk as [Hk _].
    assert (k = en_Path x) as ->.
    { apply tbl_Some in Hk as (e' & _ & <- & <-); [done|apply Hw]. }
    cbn in Hx. assert (en_Path e = en_Path x) as -> by (by rewrite <- Hx). by eapply Hp. }
  cbn in Hl. case_decide; [by eapply Hc|]. destruct (table (w_db w) !! path); [by eapply Hc|].
  destruct Hl as [Hl _]. rewrite Hl in Hs. by apply not_elem_of_nil in Hs.
Qed.

(** The directories a walk goes down, in order: those whose children it asks
    the store for.  The states in between are those of the walk itself. *)
Fixpoint children_descents (walk : string → gset string → stateM (World S) (option (option goError * gset string)))
    (descents : string → gset string → World S → list string)
    (children : list Entry) visited w : list string :=
  match children with
  | [] => []
  | child :: children =>
      if negb (en_IsDir child) then children_descents walk descents children visited w
      else
        match (if hasRemote f then refreshDir f (en_Path child) (en_FSID child) else mret None) w with
        | (Some _, _) => []
        | (None, w) =>
            descents (en_Path child) visited w ++
            match walk (en_Path child) visited w with
            | (Some (None, visited), w) => children_descents walk descents children visited w
            | _ => []
            end
        end
  end.
Fixpoint descents (fuel : nat) (current : string) visited w : list string :=
  match fuel with
  | O => []
  | Datatypes.S fuel =>
      if decide (current ∈ visited) then []
      else current ::
        match call_store (ListChildren current) w with
        | (Ok children, w) =>
            children_descents (refreshKnownDirectories f fuel) (descents fuel) children ({[current]} ∪ visited) w
        | _ => []
        end
  end.
(** The ones of [RefreshAll]: none without a remote, without the token, or when
    the root does not refresh. *)
Definition refresh_descents (fuel : nat) w : list string :=
  if negb (hasRemote f) || w_token w then []
  else match refreshRoot f (w <| w_token := true |>) with
       | (None, w) => descents fuel (rootPath f) ∅ w
       | _ => []
       end.

(** A walk that gets through: it returns, has only added to what it visited,
    keeps the rows in [U], and went down paths it had not visited before, each
    of them once. *)
Definition walks_on (m : stateM (World S) (option (option goError * gset string))) (trace : World S → list string)
    visited : Prop :=
  ∀ w, rows_in w → ∃ r visited', (m w).1 = Some (r, visited') ∧ rows_in (m w).2 ∧ visited ⊆ visited' ∧ visited' ⊆ U ∧
    NoDup (trace w) ∧ (∀ p, p ∈ trace w → p ∉ visited ∧ p ∈ visited').
Lemma walks_children walk trace l visited :
  (∀ e, e ∈ l → en_Path e ∈ U) → visited ⊆ U →
  (∀ path visited', path ∈ U → visited ⊆ visited' → visited' ⊆ U → walks_on (walk path visited') (trace path visited') visited') →
  walks_on (refresh_children f walk l visited) (children_descents walk trace l visited) visited.
Proof.
  revert visited. induction l as [|e l IH]; intros visited Hl HU Hwalk w Hw; cbn [refresh_children children_descents].
  { exists None, visited. split_and!; try done; [constructor|by intros p ?%not_elem_of_nil]. }
  assert (en_Path e ∈ U) as He by (apply Hl; by left).
  assert (∀ x, x ∈ l → en_Path x ∈ U) as Hl' by (intros x Hx; apply Hl; by right).
  destruct (negb (en_IsDir e)); [by apply IH|]. unfold mbind, stateM_bind.
  assert (stays (if hasRemote f then refreshDir f (en_Path e) (en_FSID e) else mret None)) as Hst.
  { destruct (hasRemote f); [by apply stays_refreshDir|apply stays_ret]. }
  specialize (Hst w Hw). destruct ((if hasRemote f then refreshDir f (en_Path e) (en_FSID e) else mret None) w) as [[x|] w1].
  { exists (Some x), visited. split_and!; try done; [constructor|by intros p ?%not_elem_of_nil]. }
  destruct (Hwalk (en_Path e) visited He ltac:(done) HU w1 Hst) as (r & v & Hr & Hw2 & Hv & HvU & Hnd & Htr).
  destruct (walk (en_Path e) visited w1) as [r' w2]. cbn in Hr, Hw2. subst r'. destruct r as [x|].
  { exists (Some x), v. rewrite app_nil_r. by split_and!. }
  destruct (IH v Hl' HvU ltac:(intros p v' Hp Hvv; apply Hwalk; [done|set_solver]) w2 Hw2)
    as (r & v' & Hr' & Hw3 & Hv' & HvU' & Hnd' & Htr').
  exists r, v'. split_and!; [done|done|set_solver|done| |].
  - apply NoDup_app. split_and!; [done| |done]. intros p Hp Hp'. by apply Htr in Hp as [_ Hp]; apply Htr' in Hp' as [? _].
  - intros p [Hp|Hp]%elem_of_app; [apply Htr in Hp as [??]|apply Htr' in Hp as [??]]; set_solver.
Qed.
Lemma walks_known fuel path visited :
  path ∈ U → visited ⊆ U → (size (U ∖ visited) < fuel)%nat →
  walks_on (refreshKnownDirectories f fuel path visited) (descents fuel path visited) visited.
Proof.
  revert path visited. induction fuel as [|fuel IH]; intros path visited Hp HU Hf w Hw; [lia|].
  cbn [refreshKnownDirectories descents]. destruct (decide (path ∈ visited)) as [Hv|Hv].
  { exists None, visited. split_and!; try done; [constructor|by intros p ?%not_elem_of_nil]. }
  assert (size (U ∖ ({[path]} ∪ visited)) < fuel)%nat as Hf'.
  { assert (size (U ∖ ({[path]} ∪ visited)) < size (U ∖ visited))%nat; [|lia].
    apply subset_size. set_solver. }
  unfold mbind, stateM_bind. pose proof (stays_ListChildren path w Hw) as Hst.
  pose proof (list_call path w) as Hcall.
  destruct (call_store (ListChildren path) w) as [[l|e] w1].
  2: { exists (Some e), ({[path]} ∪ visited). split_and!; [done|done|set_solver|set_solver|apply NoDup_singleton|].
       intros p ->%list_elem_of_singleton. set_solver. }
  destruct (Hcall (Ok l) w1 (proj1 Hw) eq_refl) as (_ & _ & _ & Hl). specialize (Hl l eq_refl).
  destruct (walks_children (refreshKnownDirectories f fuel) (descents fuel) l ({[path]} ∪ visited)) with (w := w1)
    as (r & v & Hr & Hw2 & Hv2 & HvU & Hnd & Htr); [|set_solver| |exact Hst|].
  - intros e He. by apply (listed_in path w l).
  - intros p v Hp' Hvv HvU. apply IH; [done|done|].
    assert (size (U ∖ v) ≤ size (U ∖ ({[path]} ∪ visited)))%nat; [|lia]. apply subseteq_size. set_solver.
  - exists r, v. split_and!; [done|done|set_solver|done| |].
    + constructor; [|done]. intros Hin. apply Htr in Hin as [Hin _]. set_solver.
    + intros p [->|Hin]%elem_of_cons; [set_solver|]. apply Htr in Hin as [??]. set_solver.
Qed.

(** C12: With the paths of the table and of everything the drive ever lists in a
    finite set [U] that has the root, [RefreshAll] ends: fuel for one level more
    than [U] has paths is enough, whatever fails on the way.  Its walk goes down
    no directory twice, that is, asks the store for the children of each path
    of [U] at most once and of no other path, whichever way a directory is met
    again. *)
Theorem refresh_all_ends fuel w :
  rows_in w → (size U < fuel)%nat →
  (∃ r w', RefreshAll f fuel w = (Some r, w') ∧ rows_in w') ∧
  NoDup (refresh_descents fuel w) ∧ (∀ p, p ∈ refresh_descents fuel w → p ∈ U).
Proof.
  intros Hw Hf. unfold RefreshAll, refresh_descents.
  assert (∀ P : Prop, P → P ∧ NoDup (@nil string) ∧ ∀ p, p ∈ @nil string → p ∈ U) as Hnil.
  { intros P HP. split_and!; [done|constructor|by intros p ?%not_elem_of_nil]. }
  destruct (negb (hasRemote f)); [apply Hnil; by exists None, w|]. cbn [orb].
  rewrite with_token_run. destruct (w_token w); [apply Hnil; by exists None, (w <| w_token := true |>)|].
  set (w0 := w <| w_token := true |>). assert (rows_in w0) as Hw0 by done.
  unfold mbind, stateM_bind. pose proof (stays_refreshRoot w0 Hw0) as H1.
  destruct (refreshRoot f w0) as [[e|] w1]; [apply Hnil; by exists (Some e), (w1 <| w_token := false |>)|].
  assert (size (U ∖ ∅) < fuel)%nat as Hf' by (by rewrite difference_empty_L).
  destruct (walks_known fuel (rootPath f) ∅ Hroot ltac:(set_solver) Hf' w1 H1)
    as (r & v & Hr & H2 & _ & Hv & Hnd & Htr).
  destruct (refreshKnownDirectories f fuel (rootPath f) ∅ w1) as [r' w2]. cbn in Hr, H2. subst r'.
  split_and!; [by exists r, (w2 <| w_token := false |>)|done|]. intros p Hp%Htr. set_solver.
Qed.
End walk.

Definition demoPaths : gset string :=
  {["/Videos"; "/Videos/film.mkv"; "/Videos/Series"; "/Videos/Series/e1.mkv"]}.
Lemma demo_drive_in : drive_in demoMount demoPaths.
Proof.
  intros path s rs s' [= <- <-] r Hr. apply demoTree_cases in Hr.
  rewrite !elem_of_cons in Hr. destruct Hr as [->|[->|[->|Hr]]]; [..|by apply not_elem_of_nil in Hr];
    split; vm_compute; reflexivity.
Qed.
Lemma refresh_all_ends_witness :
  (∃ r w', RefreshAll demoMount 5 demoWorld = (Some r, w') ∧ rows_in demoPaths w') ∧
  refresh_descents demoMount 5 demoWorld = ["/Videos"; "/Videos/Series"] ∧
  NoDup (refresh_descents demoMount 5 demoWorld).
Proof.
  cut ((∃ r w', RefreshAll demoMount 5 demoWorld = (Some r, w') ∧ rows_in demoPaths w') ∧
    NoDup (refresh_descents demoMount 5 demoWorld) ∧ ∀ p, p ∈ refresh_descents demoMount 5 demoWorld → p ∈ demoPaths).
  { intros (Hr & Hn & _). split; [exact Hr|]. split; [vm_compute; reflexivity|exact Hn]. }
  apply (refresh_all_ends demoMount demoPaths demo_drive_in).
  - vm_compute. reflexivity.
  - split; [apply demoWorld_healthy|]. intros path e He. vm_compute in He. discriminate.
  - vm_compute. lia.
Defined.
