(* ===== verification/FilesystemRead.v ===== *)
(** * Reads through the mount ([src/internal/fs/filesystem.go])

    [Open], [Read] and [Release] of a file, and the windows of read
    diagnostics.  The bytes come from the stream manager or the remote reader,
    which other files model; here they are the answers of [sources]. *)
From S2P Require Import Prelude GoStrings GoErrors ChunkKeys MetaStore Filesystem.

(** What a file handle holds: the name of the stream handle, if there is one. *)
Record entryFileHandle := mkFileHandle { lastStrategy : string; streamHandle : option nat }.
#[export] Instance entryFileHandle_eta : Eta entryFileHandle := λ h, mkFileHandle (lastStrategy h) (streamHandle h).

Definition streamFile (e : Entry) : File := mkFile (en_FSID e) (en_Size e) (en_MTM e).
Definition FOPEN_KEEP_CACHE : Z := 2.
(** [stream] is [None] without a stream manager; else what its [Open] returns. *)
Definition Open (n : Entry) (stream : option (File → option nat)) : result Errno (entryFileHandle * Z) :=
  if en_IsDir n then Err EISDIR
  else match stream with
       | Some openStream =>
           match openStream (streamFile n) with
           | None => Err EIO
           | Some h => Ok (mkFileHandle "" (Some h), FOPEN_KEEP_CACHE)
           end
       | None => Ok (mkFileHandle "" None, FOPEN_KEEP_CACHE)
       end.
(** [Release]: the stream handle to release, once. *)
Definition Release (h : entryFileHandle) : option nat * entryFileHandle :=
  (streamHandle h, h <| streamHandle := None |>).

(** The answers of the stream manager's [ReadAt], and of the reader's
    [ReadRange] and [ReadCachedWindow]. *)
Class Sources := {
  stream_ReadAt : nat → Z → Z → result goError bytes;
  remote_ReadRange : string → Z → Z → result goError bytes;
  remote_ReadCachedWindow : string → Z → Z → option bytes
}.

(** ** Diagnostics *)
Record readDiagnosticWindow := mkWindow {
  rd_startedAt : Z; rd_path : string; rd_fsid : string; rd_strategy : string; rd_slowReads : Z;
  rd_canceledReads : Z; rd_requestedBytes : Z; rd_returnedBytes : Z; rd_maxElapsed : Z; rd_maxOffset : Z
}.
#[export] Instance readDiagnosticWindow_eta : Eta readDiagnosticWindow := λ r,
  mkWindow (rd_startedAt r) (rd_path r) (rd_fsid r) (rd_strategy r) (rd_slowReads r) (rd_canceledReads r)
    (rd_requestedBytes r) (rd_returnedBytes r) (rd_maxElapsed r) (rd_maxOffset r).
Definition readDiagnosticInterval : Z := 5 * 10 ^ 9.
Definition slowFuseReadThreshold : Z := 300 * 10 ^ 6.
Definition new_window (now : Z) (path fsid : string) : readDiagnosticWindow :=
  mkWindow now path fsid "" 0 0 0 0 0 0.
Abbreviation diagnostics := (gmap string readDiagnosticWindow).

(** The window that was flushed, if one was, and the windows. *)
Definition recordReadDiagnostic (now : Z) (path fsid : string) (offset requested returned elapsed : Z)
    (strategy : string) (slow : bool) (diag : diagnostics) : option readDiagnosticWindow * diagnostics :=
  if decide (fsid = "") then (None, diag)
  else
    let window := default (new_window now path fsid) (diag !! fsid) in
    let flushed := if decide (readDiagnosticInterval ≤ now - rd_startedAt window) then Some window else None in
    let window := match flushed with Some _ => new_window now path fsid | None => window end in
    let window := if decide (path = "") then window else window <| rd_path := path |> in
    let window := if decide (strategy = "") then window else window <| rd_strategy := strategy |> in
    let window :=
      if slow then
        let window := window <| rd_slowReads ::= Z.succ |> <| rd_requestedBytes ::= Z.add requested |>
                             <| rd_returnedBytes ::= Z.add returned |> in
        if decide (rd_maxElapsed window < elapsed)
        then window <| rd_maxElapsed := elapsed |> <| rd_maxOffset := offset |> else window
      else window <| rd_canceledReads ::= Z.succ |> <| rd_requestedBytes ::= Z.add requested |>
                  <| rd_maxOffset := offset |> in
    (flushed, <[fsid := window]> diag).
(** Whether [logReadDiagnostic] prints a line. *)
Definition logReadDiagnostic (w : readDiagnosticWindow) : bool :=
  negb (bool_decide (rd_slowReads w = 0) && bool_decide (rd_canceledReads w = 0)).

(** What [Read] records, for [traceReads]. *)
Inductive read_event :=
| SlowRead (offset requested returned elapsed : Z) (strategy : string)
| CanceledRead (offset requested : Z).
Definition record_event (f : Filesystem) (n : Entry) (now : Z) (ev : read_event) (diag : diagnostics)
    : option readDiagnosticWindow * diagnostics :=
  if traceReads f then
    match ev with
    | SlowRead offset requested returned elapsed strategy =>
        recordReadDiagnostic now (en_Path n) (en_FSID n) offset requested returned elapsed strategy true diag
    | CanceledRead offset requested =>
        recordReadDiagnostic now (en_Path n) (en_FSID n) offset requested 0 0 "" false diag
    end
  else (None, diag).
Definition shouldTraceRead (strategy : string) (requested returned : Z) : bool :=
  negb (bool_decide (returned = requested)) || bool_decide (strategy = "stream-event").

Section read.
Context `{Sources}.
Implicit Types (n : Entry) (off len elapsed : Z).

Definition read_failed {A} (r : result goError A) : result Errno A :=
  match r with Ok a => Ok a | Err _ => Err EIO end.
Definition returned_bytes (r : result goError bytes) : Z := match r with Ok data => zlen data | Err _ => 0 end.
(** [fh] is the handle, if it is one of this file system's; [elapsed] is the
    time the read took.  The result has the handle and what is recorded. *)
Definition Read (f : Filesystem) n (fh : option entryFileHandle) off len elapsed
    : result Errno bytes * option entryFileHandle * list read_event :=
  if negb (hasRemote f) then (Ok [], fh, [])
  else if decide (0 < en_Size n ∧ en_Size n ≤ off) then (Ok [], fh, [])
  else match fh with
  | Some handle =>
      let '(r, handle) :=
        match streamHandle handle with
        | Some h => (stream_ReadAt h off len, handle <| lastStrategy := "stream-manager" |>)
        | None => (remote_ReadRange (en_FSID n) off len, handle <| lastStrategy := "remote-range" |>)
        end in
      let slow := if decide (slowFuseReadThreshold ≤ elapsed)
                  then [SlowRead off len (returned_bytes r) elapsed (lastStrategy handle)] else [] in
      let canceled := match r with
                      | Err e => if errors_Is e CtxCanceled then [CanceledRead off len] else []
                      | Ok _ => []
                      end in
      (read_failed r, Some handle, slow ++ canceled)
  | None =>
      match (if decide (0 < en_Size n ∧ 0 < len) then remote_ReadCachedWindow (en_FSID n) off len else None) with
      | Some data => (Ok data, fh, [])
      | None => (read_failed (remote_ReadRange (en_FSID n) off len), fh, [])
      end
  end.
End read.

(** ** What a read returns *)

(** The read is a ranged one of the remote reader: not one of a stream handle. *)
Definition ranged `{Sources} (n : Entry) (fh : option entryFileHandle) off len (data : bytes) : Prop :=
  (∀ h, fh = Some h → streamHandle h = None) ∧ remote_ReadRange (en_FSID n) off len = Ok data.
(** A read with or without a handle, with or without the stream manager,
    returns nothing past the end of a file that has bytes, or else what one of
    the sources answers, or [EIO]. *)
Lemma Read_from `{Sources} f n fh off len elapsed (P : bytes → Prop) :
  hasRemote f = true →
  (0 < en_Size n ≤ off → P []) →
  (∀ h s data, fh = Some h → streamHandle h = Some s → stream_ReadAt s off len = Ok data → P data) →
  (∀ data, ranged n fh off len data → P data) →
  (∀ data, remote_ReadCachedWindow (en_FSID n) off len = Some data → P data) →
  match (Read f n fh off len elapsed).1.1 with
  | Ok data => P data
  | Err e => e = EIO ∧ (en_Size n ≤ 0 ∨ off < en_Size n)
  end.
Proof.
  intros Hf Hend H1 H2 H3. unfold Read. rewrite Hf. cbn [negb].
  destruct (decide (0 < en_Size n ∧ en_Size n ≤ off)) as [Hpast|Hpast]; [by apply Hend|].
  assert (∀ r : result goError bytes, (∀ data, r = Ok data → P data) →
    match read_failed r with
    | Ok data => P data
    | Err e => e = EIO ∧ (en_Size n ≤ 0 ∨ off < en_Size n)
    end) as Hr by (intros [data|e] Hd; cbn; [by apply Hd|split; [done|lia]]).
  destruct fh as [h|].
  - destruct (streamHandle h) as [s|] eqn:Hs; apply Hr; intros data Hd; [by eapply H1|].
    apply H2. split; [|done]. by intros h' [= <-].
  - destruct (if decide _ then _ else _) as [data|] eqn:Hc; [case_decide; [by apply H3|done]|].
    apply Hr. intros data Hd. by apply H2.
Qed.
(** No recorded read is lost: what is flushed and what is kept add up. *)
Definition window_reads (o : option readDiagnosticWindow) : Z :=
  match o with Some w => rd_slowReads w + rd_canceledReads w | None => 0 end.
Lemma recordReadDiagnostic_counts now path fsid offset requested returned elapsed strategy slow diag :
  fsid ≠ "" →
  let r := recordReadDiagnostic now path fsid offset requested returned elapsed strategy slow diag in
  window_reads r.1 + window_reads (r.2 !! fsid) = window_reads (diag !! fsid) + 1.
Proof.
  intros Hf r. subst r. unfold recordReadDiagnostic. rewrite decide_False by done. cbv zeta. cbn [fst snd].
  rewrite lookup_insert_eq.
  destruct (diag !! fsid) as [w|]; cbn [default option_fmap]; destruct slow; repeat case_decide; cbn; lia.
Qed.
