(* ===== verification/Playback.v ===== *)
(** * The playback proxy ([src/internal/app/playback.go])

    One file of the drive over HTTP: the [Range] header, and the handler as a
    program on the remote reader and the response it writes.  The remote
    reader is there, [ServePlayback] refuses an application without one. *)
From Stdlib Require Import Ascii.
From S2P Require Import Prelude GoStrings GoErrors GoMonads GoPath.

Record entryInfo := mkEntryInfo {
  ei_FSID : string; ei_Path : string; ei_Name : string; ei_Size : Z; ei_IsDir : bool; ei_MTM : Z;
  ei_MD5 : string; ei_FullPath : string
}.

(** ** The [Range] header *)
Inductive range_error := errHTTPRangeNotSatisfiable | bad_range (e : goError).
Definition unsupported (header : string) : range_error :=
  bad_range (errors_New ("unsupported range header: " +:+ header)).
Definition invalid (header : string) : range_error :=
  bad_range (errors_New ("invalid range header: " +:+ header)).

(** Start, end and whether the header asked for a part. *)
Definition parseHTTPRange (header : string) (size : Z) : result range_error (Z * Z * bool) :=
  if decide (header = "") then Ok (0, if decide (0 < size) then size - 1 else -1, false)
  else if negb (has_prefix header "bytes=") then Err (unsupported header)
  else
    let spec := trim_space (trim_prefix header "bytes=") in
    if bool_decide (spec = "") || contains spec "," then Err (unsupported header)
    else
      match split2 spec "-" with
      | [first; last] =>
          if decide (first = "") then
            match parse_int64 last with
            | None => Err (invalid header)
            | Some suffix =>
                if decide (suffix ≤ 0) then Err (invalid header)
                else if decide (0 ≤ size) then Ok (size - Z.min suffix size, size - 1, true)
                else Err errHTTPRangeNotSatisfiable
            end
          else
            match parse_int64 first with
            | None => Err (invalid header)
            | Some start =>
                if decide (start < 0) then Err (invalid header)
                else if decide (last = "") then
                  if decide (size < 0) then Ok (start, -1, true)
                  else if decide (size ≤ start) then Err errHTTPRangeNotSatisfiable
                  else Ok (start, size - 1, true)
                else
                  match parse_int64 last with
                  | None => Err (invalid header)
                  | Some end_ =>
                      if decide (end_ < start) then Err (invalid header)
                      else if decide (0 ≤ size ∧ size ≤ start) then Err errHTTPRangeNotSatisfiable
                      else Ok (start, if decide (0 ≤ size ∧ size ≤ end_) then size - 1 else end_, true)
                  end
            end
      | _ => Err (invalid header)
      end.

(** ** Responses *)

(** What the handler has written, and the coming failures of the writer: how
    many bytes still get out, and the error. *)
Record Response := mkResponse {
  rs_header : gmap string string; rs_status : option Z; rs_body : bytes;
  rs_faults : list (option (Z * goError))
}.
#[export] Instance Response_eta : Eta Response := λ r,
  mkResponse (rs_header r) (rs_status r) (rs_body r) (rs_faults r).
Definition newResponse : Response := mkResponse ∅ None [] [].

Record Exchange (S : Type) := mkExchange { ex_remote : S; ex_response : Response }.
Arguments mkExchange {S} _ _.
Arguments ex_remote {S} _.
Arguments ex_response {S} _.
#[export] Instance Exchange_eta {S} : Eta (Exchange S) := λ x, mkExchange (ex_remote x) (ex_response x).

(** [ReadRange] of the remote reader. *)
Class RangeReader (S : Type) := read_range : string → Z → Z → stateM S (result goError bytes).

Section handler.
Context {S : Type} `{!RangeReader S} (TypeByExtension : string → string).
Abbreviation httpM := (stateM (Exchange S)).
Implicit Types (entry : entryInfo) (start offset : Z).

Definition respond (change : Response → Response) : httpM unit := modify (λ x, x <| ex_response ::= change |>).
Definition set_header (key value : string) : httpM unit := respond (λ r, r <| rs_header ::= <[key := value]> |>).
(** Only the first status is sent. *)
Definition with_status (code : Z) (r : Response) : Response :=
  r <| rs_status ::= λ s, Some (default code s) |>.
Definition WriteHeader (code : Z) : httpM unit := respond (with_status code).
Definition write_body (data : bytes) (r : Response) : option goError * Response :=
  let r := with_status 200 r in
  match rs_faults r with
  | Some (n, e) :: faults => (Some e, r <| rs_body ::= λ b, b ++ slice data 0 n |> <| rs_faults := faults |>)
  | faults => (None, r <| rs_body ::= λ b, b ++ data |> <| rs_faults := tail faults |>)
  end.
Definition Write (data : bytes) : httpM (option goError) := λ x,
  let '(e, r) := write_body data (ex_response x) in (e, x <| ex_response := r |>).
(** [http.Error] *)
Definition http_Error (text : string) (code : Z) : httpM unit :=
  _ ← respond (λ r, r <| rs_header ::= λ h,
        <["Content-Type" := "text/plain; charset=utf-8"]> (<["X-Content-Type-Options" := "nosniff"]>
          (delete "Content-Length" h)) |>);
  _ ← WriteHeader code;
  _ ← Write (String.list_byte_of_string (text +:+ String (ascii_of_N 10) ""));
  mret tt.
Definition ReadRange (fsid : string) (offset length : Z) : httpM (result goError bytes) := λ x,
  let '(r, s) := read_range fsid offset length (ex_remote x) in (r, x <| ex_remote := s |>).

(** ** Writing a range *)
Definition chunkSize : Z := 4 * 2 ^ 20.
(** [None] when the fuel runs out. *)
Fixpoint write_loop (fuel : nat) entry offset end_ : httpM (option (option goError)) :=
  match fuel with
  | O => mret None
  | Datatypes.S fuel =>
      let remaining := end_ -! offset +! 1 in
      if decide (remaining ≤ 0) then mret (Some None)
      else
        let want := Z.min chunkSize remaining in
        r ← ReadRange (ei_FSID entry) offset want;
        match r with
        | Err e => mret (Some (Some e))
        | Ok data =>
            if decide (data = []) then mret (Some None)
            else
              w ← Write data;
              match w with
              | Some e => mret (Some (Some e))
              | None =>
                  if decide (ei_Size entry < 0 ∧ zlen data < want) then mret (Some None)
                  else write_loop fuel entry (offset +! zlen data) end_
              end
        end
  end.
(** Each round but the last moves on by a byte or more. *)
Definition rounds start end_ : nat := Datatypes.S (Z.to_nat (end_ -! start +! 1)).
Definition writePlaybackRange entry start end_ : httpM (option (option goError)) :=
  let size := ei_Size entry in
  if decide (0 ≤ size ∧ size ≤ start) then mret (Some None)
  else
    let end_ := if decide (0 ≤ size ∧ size ≤ end_) then size - 1 else end_ in
    if decide (end_ < 0) then mret (Some None)
    else
      let end_ := if decide (size < 0) then start +! chunkSize -! 1 else end_ in
      write_loop (rounds start end_) entry start end_.

(** ** The handler: what [writePlaybackRange] returned, which is logged *)
Definition send_range entry start end_ (partial : bool) : httpM (option (option goError)) :=
  let length := format_int (end_ -! start +! 1) in
  _ ← (if partial then
         _ ← (if decide (0 ≤ ei_Size entry) then
                _ ← set_header "Content-Range"
                      ("bytes " +:+ format_int start +:+ "-" +:+ format_int end_ +:+ "/" +:+ format_int (ei_Size entry));
                set_header "Content-Length" length
              else mret tt);
         WriteHeader 206
       else
         _ ← (if decide (0 ≤ ei_Size entry ∧ start = 0 ∧ 0 ≤ end_) then set_header "Content-Length" length
              else mret tt);
         WriteHeader 200);
  writePlaybackRange entry start end_.
Definition refuse_range entry (e : range_error) : httpM unit :=
  match e with
  | errHTTPRangeNotSatisfiable =>
      _ ← (if decide (0 ≤ ei_Size entry) then set_header "Content-Range" ("bytes */" +:+ format_int (ei_Size entry))
           else mret tt);
      http_Error "requested range not satisfiable" 416
  | bad_range e => http_Error (err_text e) 400
  end.
Definition servePlaybackFile (method range : string) entry : httpM (option (option goError)) :=
  if decide (method ≠ "GET" ∧ method ≠ "HEAD") then
    _ ← set_header "Allow" "GET, HEAD"; _ ← http_Error "method not allowed" 405; mret (Some None)
  else
    let contentType := TypeByExtension (Ext (ei_Name entry)) in
    _ ← set_header "Content-Type" (if decide (contentType = "") then "application/octet-stream" else contentType);
    _ ← set_header "Accept-Ranges" "bytes";
    _ ← (if decide (0 ≤ ei_Size entry) then set_header "Content-Length" (format_int (ei_Size entry)) else mret tt);
    if decide (method = "HEAD") then _ ← WriteHeader 200; mret (Some None)
    else
      match parseHTTPRange range (ei_Size entry) with
      | Err e => _ ← refuse_range entry e; mret (Some None)
      | Ok (start, end_, partial) => send_range entry start end_ partial
      end.
Definition playbackHandler (path method range : string) entry : httpM (option (option goError)) :=
  if decide (path ≠ "/") then _ ← http_Error "404 page not found" 404; mret (Some None)
  else servePlaybackFile method range entry.
End handler.
