(* ===== verification/PlaybackProps.v ===== *)
(** * What the playback proxy promises

    A [Range] header selects the positions HTTP says it does, but for two kinds
    of ranges the code does not read; and on a reader whose answers are right
    the response carries the bytes of the range under headers that agree with
    it ([PlaybackEnd] has the remote reader below). *)
From Stdlib Require Import Ascii.
From S2P Require Import Prelude GoStrings GoErrors GoMonads GoPath Playback.

(** ** Range headers *)

(** The ranges of HTTP, their header, and the positions of a file of [size]
    bytes they ask for. *)
Inductive range_spec := FromTo (first last : Z) | From (first : Z) | Last (count : Z).
Definition range_body (r : range_spec) : string :=
  match r with
  | FromTo first last => format_int first +:+ String "-" (format_int last)
  | From first => format_int first +:+ "-"
  | Last count => String "-" (format_int count)
  end.
Definition range_header (r : range_spec) : string := "bytes=" +:+ range_body r.
Definition range_numbers (r : range_spec) : list Z :=
  match r with FromTo first last => [first; last] | From first => [first] | Last count => [count] end.
Definition selects (r : range_spec) (size p : Z) : Prop :=
  match r with FromTo first last => first ≤ p ≤ last | From first => first ≤ p | Last count => size - count ≤ p end.
(** Ranges that HTTP calls invalid. *)
Definition invalid_spec (r : range_spec) : Prop :=
  match r with FromTo first last => last < first | From _ | Last _ => False end.
(** Ranges that are valid in HTTP, but that the code calls invalid too: the last
    0 bytes, which HTTP calls not satisfiable, and numbers no [int64] holds. *)
Definition unread_spec (r : range_spec) : Prop := r = Last 0 ∨ ∃ n, n ∈ range_numbers r ∧ 2 ^ 63 ≤ n.

Lemma digit_plain c v : digit_val c = Some v → plain_char c = true.
Proof.
  unfold digit_val, plain_char, is_space. cbv zeta. case_decide; [|done]. intros _.
  rewrite bool_decide_false, bool_decide_true by lia. done.
Qed.
Lemma range_body_chars r c :
  (∀ n, n ∈ range_numbers r → 0 ≤ n) → str_mem c (range_body r) → plain_char c = true ∧ c ≠ ","%char.
Proof.
  intros Hn Hc.
  assert (∀ n, 0 ≤ n → str_mem c (format_int n) → plain_char c = true ∧ c ≠ ","%char) as Hd.
  { intros n H0 Hm. unfold format_int in Hm. rewrite decide_False in Hm by lia.
    destruct (format_uint_digits n H0 _ Hm) as [v Hv]. split; [by eapply digit_plain|].
    intros ->. by vm_compute in Hv. }
  assert (plain_char "-" = true ∧ "-"%char ≠ ","%char) as Hm by done.
  destruct r as [a b|a|n]; cbn in Hn, Hc.
  - rewrite str_mem_app in Hc. cbn in Hc. destruct Hc as [Hc|[->|Hc]]; [|done|].
    + apply (Hd a); [apply Hn; by left|done].
    + apply (Hd b); [apply Hn; right; by left|done].
  - rewrite str_mem_app in Hc. cbn in Hc. destruct Hc as [Hc|[->|[]]]; [|done].
    apply (Hd a); [apply Hn; by left|done].
  - destruct Hc as [->|Hc]; [done|]. apply (Hd n); [apply Hn; by left|done].
Qed.

(** What the header of a range is read as. *)
Definition resolve (r : range_spec) (size : Z) : result range_error (Z * Z * bool) :=
  if existsb (λ n, bool_decide (2 ^ 63 ≤ n)) (range_numbers r) then Err (invalid (range_header r))
  else match r with
  | FromTo first last =>
      if decide (last < first) then Err (invalid (range_header r))
      else if decide (size ≤ first) then Err errHTTPRangeNotSatisfiable
      else Ok (first, Z.min last (size - 1), true)
  | From first => if decide (size ≤ first) then Err errHTTPRangeNotSatisfiable else Ok (first, size - 1, true)
  | Last count =>
      if decide (count = 0) then Err (invalid (range_header r)) else Ok (size - Z.min count size, size - 1, true)
  end.
Lemma parse_range_header r size :
  (∀ n, n ∈ range_numbers r → 0 ≤ n) → 0 < size →
  parseHTTPRange (range_header r) size = resolve r size.
Proof.
  intros Hn Hs.
  assert (∀ c, str_mem c (range_body r) → plain_char c = true ∧ c ≠ ","%char) as Hc.
  { intros c. by apply range_body_chars. }
  unfold parseHTTPRange. rewrite decide_False by done.
  assert (has_prefix (range_header r) "bytes=" = true) as -> by apply has_prefix_app.
  cbn [negb]. change (trim_prefix (range_header r) "bytes=") with (trim_prefix ("bytes=" +:+ range_body r) "bytes=").
  rewrite trim_prefix_app, trim_space_none by (intros c Hm; by apply Hc).
  rewrite contains_char, bool_decide_false by (destruct r; cbn; [|by destruct (format_int first)|done];
    by destruct (format_int first)).
  cbn [orb]. rewrite bool_decide_false by (intros Hm; by apply Hc in Hm as [_ ?]).
  assert (∀ n, n ∈ range_numbers r →
    parse_int64 (format_int n) = (if decide (n < 2 ^ 63) then Some n else None) ∧ format_int n ≠ "") as Hp.
  { intros n Hm. specialize (Hn n Hm). split; [by apply parse_format_nonneg|].
    unfold format_int. rewrite decide_False by lia. apply format_uint_nonempty. }
  destruct r as [a b|a|n]; unfold resolve; cbn [range_body existsb range_numbers] in *.
  - destruct (Hp a ltac:(left)) as [Pa Na], (Hp b ltac:(right; left)) as [Pb Nb].
    pose proof (Hn a ltac:(left)). pose proof (Hn b ltac:(right; left)).
    rewrite split2_app by (apply format_int_no_minus; lia).
    rewrite decide_False, Pa, Pb by done. repeat case_decide; repeat case_bool_decide; cbn; try (done || lia).
    all: repeat f_equal; lia.
  - destruct (Hp a ltac:(left)) as [Pa Na]. pose proof (Hn a ltac:(left)).
    change "-" with (String "-" ""). rewrite split2_app by (apply format_int_no_minus; lia).
    rewrite decide_False, Pa by done. repeat case_decide; repeat case_bool_decide; cbn; done || lia.
  - destruct (Hp n ltac:(left)) as [Pn Nn]. pose proof (Hn n ltac:(left)).
    change (String "-" (format_int n)) with ("" +:+ String "-" (format_int n)).
    rewrite split2_app by (cbn; tauto). rewrite decide_True, Pn by done.
    repeat case_decide; repeat case_bool_decide; cbn; done || lia.
Qed.
Lemma unread_numbers r :
  existsb (λ n, bool_decide (2 ^ 63 ≤ n)) (range_numbers r) = true ↔ ∃ n, n ∈ range_numbers r ∧ 2 ^ 63 ≤ n.
Proof.
  rewrite existsb_exists. split; intros (n & Hn & H63); exists n; rewrite list_elem_of_In, ?bool_decide_eq_true in *; done.
Qed.

(** C14: The header of a range of HTTP (first and last position, a first
    position, or the last so many bytes), in a file with bytes.  A header that
    is served selects exactly the positions HTTP defines for its range; one
    that is answered not satisfiable is valid and selects none; and a header is
    called invalid exactly when its range is invalid in HTTP (the last position
    before the first), or when it is one of two kinds of valid ranges the code
    does not read: the last 0 bytes, which HTTP would have answered not
    satisfiable, and numbers of 2^63 or more. *)
Theorem range_selects_positions r size :
  (∀ n, n ∈ range_numbers r → 0 ≤ n) → 0 < size →
  match parseHTTPRange (range_header r) size with
  | Ok (start, end_, partial) =>
      partial = true ∧ 0 ≤ start ≤ end_ ∧ end_ < size ∧ ¬ invalid_spec r ∧ ¬ unread_spec r ∧
      ∀ p, 0 ≤ p < size → (start ≤ p ≤ end_ ↔ selects r size p)
  | Err errHTTPRangeNotSatisfiable =>
      ¬ invalid_spec r ∧ ¬ unread_spec r ∧ ∀ p, 0 ≤ p < size → ¬ selects r size p
  | Err (bad_range e) =>
      e = errors_New ("invalid range header: " +:+ range_header r) ∧ (invalid_spec r ∨ unread_spec r)
  end.
Proof.
  intros Hn Hs. rewrite parse_range_header by done. unfold resolve.
  pose proof (unread_numbers r) as Hu. destruct (existsb _ _).
  { split; [done|]. right. right. by apply Hu. }
  assert (¬ ∃ n, n ∈ range_numbers r ∧ 2 ^ 63 ≤ n) as Hno by (rewrite <- Hu; done).
  destruct r as [a b|a|n]; cbn [selects invalid_spec range_numbers] in *.
  - assert (¬ unread_spec (FromTo a b)) by (intros [|]; done). pose proof (Hn a ltac:(left)).
    pose proof (Hn b ltac:(right; left)). repeat case_decide; split_and?; first [done | tauto | lia | intros p ?; lia | by split; [|left]].
  - assert (¬ unread_spec (From a)) by (intros [|]; done). pose proof (Hn a ltac:(left)).
    case_decide; split_and?; first [done | tauto | lia | intros p ?; lia | by left].
  - pose proof (Hn n ltac:(left)). destruct (decide (n = 0)) as [->|Hn0].
    + split; [done|]. right. by left.
    + assert (¬ unread_spec (Last n)) by (intros [[=]|]; done). split_and!; first [done | tauto | lia | intros p ?; lia | by left].
Qed.
(** Two valid ranges that are called invalid. *)
Lemma valid_ranges_unread :
  parseHTTPRange (range_header (Last 0)) 10 = Err (invalid "bytes=-0") ∧
  parseHTTPRange (range_header (FromTo 2 (2 ^ 63))) 10 = Err (invalid "bytes=2-9223372036854775808") ∧
  ¬ invalid_spec (Last 0) ∧ ¬ invalid_spec (FromTo 2 (2 ^ 63)).
Proof. split_and!; [by vm_compute|by vm_compute|by intros []|unfold invalid_spec; lia]. Qed.
Lemma range_selects_positions_witness :
  parseHTTPRange "bytes=-4" 10 = Ok (6, 9, true) ∧
  (∀ p, 0 ≤ p < 10 → (6 ≤ p ≤ 9 ↔ selects (Last 4) 10 p)) ∧ ¬ selects (From 10) 10 9.
Proof.
  assert (parseHTTPRange (range_header (Last 4)) 10 = Ok (6, 9, true)) as E1 by (vm_compute; reflexivity).
  assert (parseHTTPRange (range_header (From 10)) 10 = Err errHTTPRangeNotSatisfiable) as E2
    by (vm_compute; reflexivity).
  pose proof (range_selects_positions (Last 4) 10) as H1. rewrite E1 in H1.
  pose proof (range_selects_positions (From 10) 10) as H2. rewrite E2 in H2.
  split; [exact E1|]. split.
  - apply H1; [|lia]. intros n ->%list_elem_of_singleton. lia.
  - apply H2; [|lia|lia]. intros n ->%list_elem_of_singleton. lia.
Defined.

(** A range that is served lies inside the file. *)
Lemma parse_range_inside header size start end_ partial :
  0 < size → parseHTTPRange header size = Ok (start, end_, partial) → 0 ≤ start ≤ end_ ∧ end_ < size ∧ (partial = false → start = 0 ∧ end_ = size - 1).
Proof.
  intros Hs. unfold parseHTTPRange. destruct (decide (header = "")) as [Hh|Hh].
  { rewrite decide_True by done. intros [= <- <- <-]. lia. }
  destruct (negb _); [done|]. destruct (_ || _); [done|]. destruct (split2 _ _) as [|a [|b [|c l]]]; try done.
  destruct (decide (a = "")) as [Ha|Ha].
  - destruct (parse_int64 b) as [n|]; [|done]. repeat case_decide; intros [= <- <- <-]; lia.
  - destruct (parse_int64 a) as [n|]; [|done]. destruct (decide (n < 0)) as [Hn|Hn]; [done|].
    destruct (decide (b = "")) as [Hb|Hb]; [repeat case_decide; intros; simplify_eq; lia|].
    destruct (parse_int64 b) as [m|]; [|done]. repeat case_decide; intros; simplify_eq; lia.
Qed.

(** ** Responses *)
Ltac run_handler :=
  cbv beta iota delta [mbind stateM_bind mret stateM_ret set_header respond modify WriteHeader].
Ltac refused_headers :=
  split_and!; first [done | rewrite !lookup_insert_ne by done; apply lookup_delete_eq
    | intros _; rewrite !lookup_insert_ne by done; rewrite lookup_delete_ne by done; apply lookup_insert_eq].
Ltac cbv_response :=
  cbv beta iota delta [set_field with_status newResponse ex_response ex_remote rs_header rs_status rs_body rs_faults
    default from_option id].
Lemma slice_clip {A} (l : list A) k : slice l 0 k = slice l 0 (Z.max 0 (Z.min k (zlen l))).
Proof.
  unfold slice, zlen. cbn [Z.to_nat]. rewrite drop_0. destruct (decide (k ≤ Z.of_nat (length l))).
  - f_equal. lia.
  - rewrite !take_ge by lia. done.
Qed.

Section serving.
Context {S : Type} `{!RangeReader S} (TypeByExtension : string → string) (entry : entryInfo) (file : bytes).
(** The reader returns a piece of the range from its start, or an error; its
    bytes are the file's if reads are [exact]. *)
Context (exact : Prop).
Definition reads_file : Prop := ∀ s off len data s',
  0 ≤ off → 0 < len → off + len ≤ zlen file → read_range (ei_FSID entry) off len s = (Ok data, s') →
  0 < zlen data ≤ len ∧ (exact → data = slice file off (zlen data)).
Hypothesis Hreads : reads_file.
Hypothesis Hsize : ei_Size entry = zlen file.
Hypothesis Hint : zlen file < 2 ^ 63.

(** [n] bytes that stand for those of the file from [off] on. *)
Definition piece (off n : Z) (b : bytes) : Prop := zlen b = n ∧ (exact → b = slice file off n).
Lemma piece_nil off : piece off 0 [].
Proof. split; [done|]. intros _. by rewrite slice_nil. Qed.
Lemma piece_app off n m b c : 0 ≤ off → piece off n b → piece (off + n) m c → piece off (n + m) (b ++ c).
Proof.
  intros H0 [Hb Eb] [Hc Ec]. pose proof (zlen_nonneg b). pose proof (zlen_nonneg c).
  split; [rewrite zlen_app; lia|]. intros He. rewrite (Eb He), (Ec He). apply slice_app; lia.
Qed.
Lemma piece_slice off n k b : 0 ≤ off → piece off n b →
  piece off (Z.max 0 (Z.min k n)) (slice b 0 k).
Proof.
  intros H0 [Hb Eb]. pose proof (zlen_nonneg b).
  rewrite slice_clip, Hb. split; [rewrite slice_length; lia|].
  intros He. rewrite (Eb He) at 1. rewrite slice_slice by lia. f_equal. lia.
Qed.
(** [x'] has the headers and status of [x], and [n] more bytes. *)
Definition wrote (off n : Z) (x x' : Exchange S) : Prop :=
  rs_header (ex_response x') = rs_header (ex_response x) ∧
  rs_status (ex_response x') = rs_status (ex_response x) ∧
  ∃ b, rs_body (ex_response x') = rs_body (ex_response x) ++ b ∧ piece off n b.

Lemma write_range off data (x : Exchange S) :
  is_Some (rs_status (ex_response x)) → piece off (zlen data) data → 0 ≤ off →
  ∃ n, 0 ≤ n ≤ zlen data ∧ wrote off n x (Write data x).2 ∧ ((Write data x).1 = None → n = zlen data).
Proof.
  intros [c Hc] Hd H0. pose proof (zlen_nonneg data). unfold Write, write_body, wrote, with_status.
  destruct x as [s [h st b fl]]; cbn in Hc |- *. subst st. destruct fl as [|[[k e]|] fl]; cbn.
  - exists (zlen data). split_and!; first [done | lia | by exists data].
  - exists (Z.max 0 (Z.min k (zlen data))). split_and!; try done; try lia.
    exists (slice data 0 k). split; [done|by apply piece_slice].
  - exists (zlen data). split_and!; first [done | lia | by exists data].
Qed.

Lemma wrote_nothing off (x x' : Exchange S) : ex_response x' = ex_response x → wrote off 0 x x'.
Proof. unfold wrote. intros ->. split_and!; [done..|]. exists []. rewrite app_nil_r. split; [done|apply piece_nil]. Qed.
Lemma wrote_more off n m (x y z : Exchange S) : 0 ≤ off → wrote off n x y → wrote (off + n) m y z → wrote off (n + m) x z.
Proof.
  intros H0 (W1 & W2 & b & W3 & Hb) (V1 & V2 & c & V3 & Hc). unfold wrote. rewrite V1, V2, V3, W3.
  split_and!; [done..|]. exists (b ++ c). rewrite app_assoc. split; [done|by apply piece_app].
Qed.

Lemma write_loop_range fuel off end_ (x : Exchange S) :
  is_Some (rs_status (ex_response x)) → 0 ≤ off → off ≤ end_ + 1 → end_ < zlen file →
  (Z.to_nat (end_ - off + 1) < fuel)%nat →
  ∃ logged n x', write_loop fuel entry off end_ x = (Some logged, x') ∧ wrote off n x x' ∧
    0 ≤ n ≤ end_ - off + 1 ∧ (logged = None → n = end_ - off + 1).
Proof.
  revert off x. induction fuel as [|fuel IH]; intros off x Hst H0 H1 He Hf; [lia|].
  cbn [write_loop]. nowrap. destruct (decide (end_ - off + 1 ≤ 0)) as [Hr|Hr].
  { exists None, 0, x. split; [done|]. split; [by apply wrote_nothing|]. lia. }
  unfold mbind at 1, stateM_bind at 1. unfold ReadRange.
  destruct (read_range (ei_FSID entry) off (Z.min chunkSize (end_ - off + 1)) (ex_remote x)) as [[data|e] s'] eqn:Hd.
  2: { exists (Some e), 0, (x <| ex_remote := s' |>). split; [done|]. split; [by apply wrote_nothing|]. by split; [lia|]. }
  assert (0 < chunkSize) as Hcs by done.
  apply Hreads in Hd as [Hn Hd]; [|lia|lia|lia].
  destruct (decide (data = [])) as [->|_]; [by destruct Hn|].
  set (x1 := x <| ex_remote := s' |>). destruct (write_range off data x1 Hst (conj eq_refl Hd) H0) as (n & Hn1 & Hw & Hall).
  unfold mbind, stateM_bind. destruct (Write data x1) as [[e|] x2] eqn:HW; cbn in Hw, Hall.
  { exists (Some e), n, x2. split_and!; done || lia. }
  rewrite decide_False by (rewrite Hsize; pose proof (zlen_nonneg file); lia).
  specialize (Hall eq_refl). subst n.
  destruct (IH (off + zlen data) x2) as (logged & m & x' & E & Hw' & Hm & Hl); [|lia|lia|lia|lia|].
  { destruct Hw as (_ & W2 & _). rewrite W2. exact Hst. }
  exists logged, (zlen data + m), x'. rewrite w64_id by (unfold in64; lia). split; [done|].
  split; [by eapply wrote_more|]. split; [lia|]. intros Hx. specialize (Hl Hx). lia.
Qed.

Lemma writePlaybackRange_range start end_ (x : Exchange S) :
  is_Some (rs_status (ex_response x)) → 0 ≤ start ≤ end_ → end_ < zlen file →
  ∃ logged n x', writePlaybackRange entry start end_ x = (Some logged, x') ∧ wrote start n x x' ∧
    0 ≤ n ≤ end_ - start + 1 ∧ (logged = None → n = end_ - start + 1).
Proof.
  intros Hst H1 H2. unfold writePlaybackRange. rewrite Hsize, decide_False, (decide_False (P := 0 ≤ _ ∧ _)) by lia.
  rewrite decide_False, decide_False by lia. apply write_loop_range; [done|lia..|].
  unfold rounds. nowrap. lia.
Qed.

(** The reply to a range that is served, and the one to a range that is not. *)
Definition served_headers (start end_ : Z) (partial : bool) (r : Response) : Prop :=
  rs_status r = Some (if partial then 206 else 200) ∧
  rs_header r !! "Content-Length" = Some (format_int (end_ - start + 1)) ∧
  (partial = true → rs_header r !! "Content-Range"
     = Some ("bytes " +:+ format_int start +:+ "-" +:+ format_int end_ +:+ "/" +:+ format_int (zlen file))).
Definition served (start end_ : Z) (partial : bool) (logged : option goError) (r : Response) : Prop :=
  served_headers start end_ partial r ∧
  ∃ n, piece start n (rs_body r) ∧ 0 ≤ n ≤ end_ - start + 1 ∧ (logged = None → n = end_ - start + 1).
Definition refused (e : range_error) (r : Response) : Prop :=
  rs_status r = Some (match e with errHTTPRangeNotSatisfiable => 416 | bad_range _ => 400 end) ∧
  rs_header r !! "Content-Length" = None ∧
  (e = errHTTPRangeNotSatisfiable →
   rs_header r !! "Content-Range" = Some ("bytes */" +:+ format_int (zlen file))).

(** On such a reader a GET of a file with bytes ends, and answers the range its
    header asks for; a header that asks for no range is refused without reading. *)
Lemma serve_file range s faults :
  0 < zlen file →
  let '(out, x) := servePlaybackFile TypeByExtension "GET" range entry
                     (mkExchange s (newResponse <| rs_faults := faults |>)) in
  match parseHTTPRange range (zlen file) with
  | Ok (start, end_, partial) => ∃ logged, out = Some logged ∧ served start end_ partial logged (ex_response x)
  | Err e => out = Some None ∧ ex_remote x = s ∧ refused e (ex_response x)
  end.
Proof.
  intros Hpos. unfold servePlaybackFile. rewrite decide_False by (intros [? _]; done).
  rewrite Hsize. rewrite (decide_True (P := 0 ≤ zlen file)) by lia. rewrite (decide_False (P := "GET" = "HEAD")) by done.
  destruct (parseHTTPRange range (zlen file)) as [[[start end_] partial]|e] eqn:Hp.
  - apply parse_range_inside in Hp as (H0 & H1 & Hpart); [|done].
    unfold send_range. rewrite Hsize. rewrite (decide_True (P := 0 ≤ zlen file)) by lia.
    rewrite (w64_id (end_ - start)), w64_id by (unfold in64; lia).
    assert (∀ x, is_Some (rs_status (ex_response x)) → served_headers start end_ partial (ex_response x) →
      rs_body (ex_response x) = [] →
      let '(out, x) := writePlaybackRange entry start end_ x in
      ∃ logged, out = Some logged ∧ served start end_ partial logged (ex_response x)) as Hgo.
    { intros x Hx (V1 & V2 & V3) Hb.
      destruct (writePlaybackRange_range start end_ x Hx H0 H1) as (logged & n & x' & -> & (W1 & W2 & b & W3 & Hpc) & Hn & Hl).
      exists logged. split; [done|]. unfold served, served_headers. rewrite W1, W2, W3, Hb. split; [done|]. by exists n. }
    destruct partial.
    + run_handler. apply Hgo; unfold served_headers; cbv_response; [by eexists| |done]. split; [done|].
      split; [apply lookup_insert_eq|]. intros _. rewrite lookup_insert_ne by done. apply lookup_insert_eq.
    + destruct (Hpart eq_refl) as [-> ->]. rewrite decide_True by lia.
      run_handler. apply Hgo; unfold served_headers; cbv_response; [by eexists| |done]. split; [done|].
      split; [apply lookup_insert_eq|done].
  - unfold refused. destruct e as [|e]; cbn [refuse_range]; rewrite ?Hsize.
    + rewrite decide_True by lia. unfold http_Error, Write, write_body. run_handler.
      destruct faults as [|[[k e]|] faults]; cbv_response; refused_headers.
    + unfold http_Error, Write, write_body. run_handler.
      destruct faults as [|[[k e']|] faults]; cbv_response; refused_headers.
Qed.
End serving.
