(* ===== verification/RemotePaths.v ===== *)
(** * Remote paths of the commands ([src/internal/app/bench.go], [app.go])

    The path a command names, brought below the root of the mount, and the
    entry of the drive it leads to. *)
From S2P Require Import Prelude GoStrings GoErrors GoMonads GoPath BaiduClient MetaStore Filesystem FilesystemDemo Playback.

(** ** The root and the paths below it *)
Definition normalizeRemoteRootPath (value : string) : string :=
  let value := trim_space value in
  if decide (value = "") then "/"
  else Clean (if has_prefix value "/" then value else "/" +:+ value).
Definition benchmarkRemotePath (root remotePath : string) : string :=
  let p := trim_space remotePath in
  let p := if decide (p = "") then "/" else p in
  let p := if has_prefix p "/" then p else "/" +:+ p in
  let p := Clean p in
  if decide (root = "" ∨ root = "/") then p
  else if bool_decide (p = root) || has_prefix p (root +:+ "/") then p
  else if decide (p = "/") then root
  else Join root (trim_prefix p "/").
Definition joinRemotePath (parent child : string) : string :=
  if decide (parent = "" ∨ parent = "/") then Join "/" child else Join parent child.

(** ** Finding the entry of a path *)
Definition found_entry (fullPath : string) (r : RemoteEntry) : entryInfo :=
  mkEntryInfo (re_FSID r) (re_Path r) (re_ServerName r) (re_Size r) (re_IsDir r) (re_ServerMTime r) (re_MD5 r)
    fullPath.
Definition path_not_found (fullPath : string) : goError := errors_New ("path not found: " +:+ fullPath).

Section resolve.
Context {S : Type} `{!Drive S}.
Abbreviation driveM := (stateM S).

(** The loop over the elements of the path. *)
Fixpoint resolve_parts (fullPath currentPath : string) (currentList : list RemoteEntry) (parts : list string)
    : driveM (result goError entryInfo) :=
  match parts with
  | [] => mret (Err (path_not_found fullPath))
  | part :: rest =>
      match head (filter (λ r, re_ServerName r = part) currentList) with
      | None => mret (Err (path_not_found fullPath))
      | Some child =>
          let found := found_entry (joinRemotePath currentPath (re_ServerName child)) child in
          if decide (ei_FSID found = "") then mret (Err (path_not_found fullPath))
          else if decide (rest = []) then mret (Ok found)
          else if negb (ei_IsDir found)
          then mret (Err (errors_New ("path is not a directory: " +:+ fullPath)))
          else
            listed ← drive_List (ei_FullPath found);
            match listed with
            | Err e => mret (Err e)
            | Ok children => resolve_parts fullPath (ei_FullPath found) children rest
            end
      end
  end.
(** What the code makes of [parts] before it lists the root is overwritten
    when there is a root path, and is [Split] of the path when there is none. *)
Definition resolveRemoteEntry (root fullPath : string) : driveM (result goError entryInfo) :=
  if decide (fullPath = "") then mret (Err (errors_New "path is required"))
  else
    let listPath := if decide (root = "") then "/" else root in
    listed ← drive_List listPath;
    match listed with
    | Err e => mret (Err e)
    | Ok children =>
        if decide (children = []) then mret (Err (errors_New ("no entries found at " +:+ listPath)))
        else if decide (root = "") then
          resolve_parts fullPath listPath children (split_slash (trim_prefix fullPath "/"))
        else
          let trimmed := trim_prefix (trim_prefix fullPath root) "/" in
          if decide (trimmed = "")
          then mret (Err (errors_New ("benchmark path must point to a file, got " +:+ fullPath)))
          else resolve_parts fullPath listPath children (split_slash trimmed)
    end.

(** [Benchmark]: the path, the file and the bytes read, without the timing. *)
Definition benchmarkDefaultSampleSize : Z := 200 * 1024 * 1024.
Definition Benchmark `{!RangeReader S} (root remotePath : string) (sampleSize : Z)
    : driveM (result goError (string * string * Z)) :=
  let sampleSize := if decide (sampleSize ≤ 0) then benchmarkDefaultSampleSize else sampleSize in
  let fullPath := benchmarkRemotePath root remotePath in
  resolved ← resolveRemoteEntry root fullPath;
  match resolved with
  | Err e => mret (Err e)
  | Ok entry =>
      if (ei_IsDir entry : bool) then mret (Err (errors_New ("benchmark path is a directory: " +:+ fullPath)))
      else
        let sampleSize := if decide (0 ≤ ei_Size entry ∧ ei_Size entry < sampleSize) then ei_Size entry else sampleSize in
        data ← read_range (ei_FSID entry) 0 sampleSize;
        mret (match data with Err e => Err e | Ok data => Ok (fullPath, ei_FSID entry, zlen data) end)
  end.
End resolve.

(** ** Paths below a root *)
Definition below (root p : string) : Prop :=
  ∃ es names, Forall plain (es ++ names) ∧ root = abs_path es ∧ p = abs_path (es ++ names).

Lemma below_self es : Forall plain es → below (abs_path es) (abs_path es).
Proof. intros Hes. exists es, []. rewrite app_nil_r. done. Qed.
Lemma normalize_abs value : ∃ es, Forall plain es ∧ normalizeRemoteRootPath value = abs_path es.
Proof.
  unfold normalizeRemoteRootPath. cbv zeta. case_decide; [by exists []|].
  destruct (has_prefix _ _) eqn:Hp; [|apply Clean_rooted].
  apply has_prefix_spec in Hp as [r ->]. apply Clean_rooted.
Qed.
Lemma requested_abs remotePath :
  let p := trim_space remotePath in
  let p := if decide (p = "") then "/" else p in
  ∃ ps, Forall plain ps ∧ Clean (if has_prefix p "/" then p else "/" +:+ p) = abs_path ps.
Proof.
  cbv zeta. destruct (has_prefix _ _) eqn:Hp; [|apply Clean_rooted].
  apply has_prefix_spec in Hp as [r ->]. apply Clean_rooted.
Qed.

(** C16: Whatever path a command is given, and whatever root is configured, the
    path it works on is the root or lies below it: no [..] leaves the root. *)
Theorem remote_path_below_root value remotePath :
  let root := normalizeRemoteRootPath value in below root (benchmarkRemotePath root remotePath).
Proof.
  cbv zeta. destruct (normalize_abs value) as (es & Hes & ->).
  destruct (requested_abs remotePath) as (ps & Hps & Hp).
  unfold benchmarkRemotePath. cbv zeta. rewrite Hp.
  destruct (decide (abs_path es = "" ∨ abs_path es = "/")) as [[?|H0]|H0]; [done| |].
  { exists [], ps. assert (es = []) as -> by (apply abs_path_root; [done|done]). done. }
  destruct (decide (es = [])) as [->|Hne]; [tauto|].
  destruct (_ || _) eqn:Hc.
  - apply orb_true_iff in Hc as [Hc|Hc].
    + apply bool_decide_eq_true in Hc as ->. by apply below_self.
    + apply abs_path_prefix in Hc as (names & _ & ->); [|done..]. by exists es, names.
  - destruct (decide (abs_path ps = "/")) as [Hr|Hr].
    + by apply below_self.
    + exists es, ps. assert (ps ≠ []) by (intros ->; done). split; [by apply Forall_app|]. split; [done|].
      change (trim_prefix (abs_path ps) "/") with (trim_prefix ("/" +:+ join_slash ps) "/").
      rewrite trim_prefix_app. by apply Join_abs_app.
Qed.

(** ** What the search for an entry finds *)
Section found.
Context {S : Type} `{!Drive S} (tree : string → result goError (list RemoteEntry)).
(** The drive does not change while a path is resolved. *)
Hypothesis Htree : ∀ path s, drive_List path s = (tree path, s).
(** Listings have one entry of a name, which has an id. *)
Hypothesis Hlist : ∀ path l, tree path = Ok l → NoDup (map re_ServerName l) ∧ ∀ r, r ∈ l → re_FSID r ≠ "".

(** [names] lead from the directory [dir] to the entry [r]. *)
Inductive leads_to : string → list string → RemoteEntry → string → Prop :=
| leads_here dir l r :
    tree dir = Ok l → r ∈ l → leads_to dir [re_ServerName r] r (joinRemotePath dir (re_ServerName r))
| leads_below dir l d names r p :
    tree dir = Ok l → d ∈ l → re_IsDir d = true →
    leads_to (joinRemotePath dir (re_ServerName d)) names r p → leads_to dir (re_ServerName d :: names) r p.

Lemma find_listed (l : list RemoteEntry) r :
  NoDup (map re_ServerName l) → r ∈ l → head (filter (λ x, re_ServerName x = re_ServerName r) l) = Some r.
Proof.
  induction l as [|x l IH]; [by intros _ ?%elem_of_nil|].
  intros [Hn Hnd]%NoDup_cons Hr. rewrite filter_cons. apply elem_of_cons in Hr as [->|Hr].
  - by rewrite decide_True.
  - rewrite decide_False; [by apply IH|]. intros Heq. apply Hn. rewrite Heq. by apply list_elem_of_fmap_2.
Qed.

Lemma leads_to_nil dir r p : ¬ leads_to dir [] r p.
Proof. inversion 1. Qed.
Lemma leads_to_cons dir l name names r p :
  tree dir = Ok l →
  leads_to dir (name :: names) r p ↔
  (names = [] ∧ r ∈ l ∧ re_ServerName r = name ∧ p = joinRemotePath dir name) ∨
  (∃ d, d ∈ l ∧ re_ServerName d = name ∧ re_IsDir d = true ∧ leads_to (joinRemotePath dir name) names r p).
Proof.
  intros Hl. split.
  - inversion 1 as [? l' ? Hl' |? l' d ???? Hl']; subst; assert (l' = l) as -> by congruence; [by left|].
    right. by exists d.
  - intros [(-> & Hr & <- & ->)|(d & Hd & <- & Hdir & Hlead)]; [by eapply leads_here|by eapply leads_below].
Qed.

Lemma resolve_parts_iff full dir l names s info :
  tree dir = Ok l →
  (resolve_parts full dir l names s).1 = Ok info ↔ ∃ r p, leads_to dir names r p ∧ info = found_entry p r.
Proof.
  revert dir l s. induction names as [|name names IH]; intros dir l s Hl.
  { split; [done|]. intros (r & p & H & _). inversion H. }
  destruct (Hlist dir l Hl) as [Hnd Hid]. cbn [resolve_parts].
  destruct (head (filter (λ r, re_ServerName r = name) l)) as [d|] eqn:Hd.
  2: { split; [done|]. intros (r & p & H & _). apply (leads_to_cons _ _ _ _ _ _ Hl) in H.
       destruct H as [(_ & Hr & <- & _)|(d & Hr & <- & _)]; rewrite find_listed in Hd; done. }
  assert (d ∈ l ∧ re_ServerName d = name) as [Hdl <-].
  { apply head_Some_elem_of, list_elem_of_filter in Hd as [??]. done. }
  rewrite decide_False by (by apply Hid).
  assert (∀ d', d' ∈ l → re_ServerName d' = re_ServerName d → d' = d) as Huniq.
  { intros d' Hd' Heq. pose proof (find_listed l d' Hnd Hd') as E. rewrite Heq, Hd in E. congruence. }
  assert (∀ r p, leads_to dir (re_ServerName d :: names) r p ↔
    (names = [] ∧ r = d ∧ p = joinRemotePath dir (re_ServerName d)) ∨
    (re_IsDir d = true ∧ leads_to (joinRemotePath dir (re_ServerName d)) names r p)) as Hcons.
  { intros r p. rewrite (leads_to_cons _ _ _ _ _ _ Hl). split.
    - intros [(? & ? & ? & ->)|(d' & Hd' & Heq & Hdir & H)]; [left; split_and!; [done|by apply Huniq|done]|].
      right. assert (d' = d) as <- by (by apply Huniq). done.
    - intros [(? & -> & ->)|[Hdir H]]; [by left|right; by exists d]. }
  setoid_rewrite Hcons. clear Hcons. destruct (decide (names = [])) as [->|Hne].
  - split; [intros [= <-]; eexists d, _; split; [by left|done]|].
    intros (r & p & [(_ & -> & ->)|[_ H%leads_to_nil]] & ->); done.
  - cbn [ei_IsDir found_entry]. destruct (re_IsDir d); cbn [negb].
    2: { split; [done|]. intros (r & p & [(? & _)|[? _]] & _); done. }
    unfold mbind, stateM_bind. cbn [ei_FullPath found_entry]. rewrite Htree.
    destruct (tree (joinRemotePath dir (re_ServerName d))) as [l'|e] eqn:Hl'.
    + rewrite IH by done. split.
      * intros (r & p & H & ->). exists r, p. split; [by right|done].
      * intros (r & p & [(? & _)|[_ H]] & ->); [done|]. by exists r, p.
    + split; [done|]. intros (r & p & [(? & _)|[_ H]] & _); [done|].
      inversion H; congruence.
Qed.
Lemma leads_to_path es names r p :
  Forall plain (es ++ names) → leads_to (abs_path es) names r p → p = abs_path (es ++ names).
Proof.
  revert es. induction names as [|name names IH]; intros es Hp H; [by apply leads_to_nil in H|].
  assert (joinRemotePath (abs_path es) name = abs_path (es ++ [name])) as Hj.
  { apply Forall_app in Hp as [Hes Hn]. inversion Hn; subst. unfold joinRemotePath.
    case_decide as Hroot; [|by apply Join_abs]. destruct Hroot as [?|Hroot]; [done|].
    apply abs_path_root in Hroot as ->; [|done]. by apply (Join_abs []). }
  destruct (tree (abs_path es)) as [l|e] eqn:Hl; [|by inversion H; simplify_eq; congruence].
  apply (leads_to_cons _ _ _ _ _ _ Hl) in H as [(-> & _ & _ & ->)|(d & _ & _ & _ & H)]; [done|].
  rewrite Hj in H. change (name :: names) with ([name] ++ names) in Hp |- *. rewrite app_assoc in Hp |- *.
  by apply IH.
Qed.
Lemma abs_path_below es names :
  Forall plain (es ++ names) → names ≠ [] →
  trim_prefix (trim_prefix (abs_path (es ++ names)) (abs_path es)) "/" = join_slash names ∧ join_slash names ≠ "".
Proof.
  intros [_ Hn]%Forall_app Hne.
  assert (∃ c s, join_slash names = String c s ∧ c ≠ slash) as (c & s & Hc & Hcs).
  { destruct names as [|[|c x] names]; [done|by inversion Hn as [|?? (? & _)]|].
    inversion Hn as [|?? (_ & _ & _ & Hm)]; subst.
    assert (c ≠ slash) by (intros ->; apply Hm; by left). destruct names; by eexists _, _. }
  split; [|by rewrite Hc]. destruct (decide (es = [])) as [->|He].
  - change (trim_prefix (trim_prefix ("/" +:+ join_slash names) "/") "/" = join_slash names).
    rewrite trim_prefix_app, Hc. unfold trim_prefix. cbn. by rewrite bool_decide_false.
  - rewrite abs_path_app, trim_prefix_app by done.
    change (trim_prefix ("/" +:+ join_slash names) "/" = join_slash names). apply trim_prefix_app.
Qed.

(** C17: Below the configured root, the search for a path finds exactly the
    entry to which the elements of the path lead through the listings of the
    drive, with that path as its full path. *)
Theorem resolve_finds_entry es names s info :
  Forall plain (es ++ names) → names ≠ [] →
  (resolveRemoteEntry (abs_path es) (abs_path (es ++ names)) s).1 = Ok info ↔
  ∃ r p, leads_to (abs_path es) names r p ∧ info = found_entry (abs_path (es ++ names)) r.
Proof.
  intros Hp Hne. destruct (abs_path_below es names Hp Hne) as [Ht Hj].
  unfold resolveRemoteEntry. rewrite decide_False by done. rewrite (decide_False (P := abs_path es = "")) by done.
  unfold mbind, stateM_bind. rewrite Htree. destruct (tree (abs_path es)) as [l|e] eqn:Hl.
  2: { split; [done|]. intros (r & p & H & _). inversion H; congruence. }
  destruct (decide (l = [])) as [->|_].
  { split; [done|]. intros (r & p & H & _). destruct names as [|name names]; [done|].
    apply (leads_to_cons _ _ _ _ _ _ Hl) in H as [(_ & []%elem_of_nil & _)|(d & []%elem_of_nil & _)]. }
  rewrite (decide_False (P := abs_path es = "")) by done. rewrite Ht, decide_False by done.
  rewrite split_plain by (by apply Forall_app in Hp as []). rewrite resolve_parts_iff by done.
  split; intros (r & p & H & ->); exists r, p; (split; [done|]); apply leads_to_path in H as ->; done.
Qed.
End found.

Definition demoListing (path : string) : result goError (list RemoteEntry) := Ok (demoTree path).
Lemma demoDrive_static path (s : unit) : drive_List path s = (demoListing path, s).
Proof. done. Qed.
Lemma demoListing_unique path l :
  demoListing path = Ok l → NoDup (map re_ServerName l) ∧ ∀ r, r ∈ l → re_FSID r ≠ "".
Proof.
  intros [= <-]. split.
  - unfold demoTree. repeat case_decide; cbn; repeat constructor; set_solver.
  - intros r Hr%demoTree_cases. rewrite !elem_of_cons, elem_of_nil in Hr.
    by destruct Hr as [->|[->|[->|[]]]].
Qed.
Lemma demo_leads :
  leads_to demoListing (abs_path ["Videos"]) ["Series"; "e1.mkv"]
    (demoRemote "3" "e1.mkv" "/Videos/Series/e1.mkv" 9 false) (abs_path (["Videos"] ++ ["Series"; "e1.mkv"])).
Proof.
  apply (leads_below _ _ (demoTree "/Videos") (demoRemote "1" "Series" "/Videos/Series" 0 true)); [done|set_solver|done|].
  change (leads_to demoListing "/Videos/Series" ["e1.mkv"] (demoRemote "3" "e1.mkv" "/Videos/Series/e1.mkv" 9 false)
    (joinRemotePath "/Videos/Series" "e1.mkv")).
  refine (leads_here demoListing "/Videos/Series" (demoTree "/Videos/Series")
    (demoRemote "3" "e1.mkv" "/Videos/Series/e1.mkv" 9 false) eq_refl _). set_solver.
Qed.
Lemma demo_plain : Forall plain (["Videos"] ++ ["Series"; "e1.mkv"]).
Proof. apply (bool_decide_unpack _). vm_compute. exact I. Qed.
Lemma resolve_finds_entry_witness :
  (resolveRemoteEntry "/Videos" "/Videos/Series/e1.mkv" tt).1
  = Ok (found_entry "/Videos/Series/e1.mkv" (demoRemote "3" "e1.mkv" "/Videos/Series/e1.mkv" 9 false)).
Proof.
  apply (resolve_finds_entry demoListing demoDrive_static demoListing_unique ["Videos"] ["Series"; "e1.mkv"] tt);
    [exact demo_plain|discriminate|].
  eexists _, _. split; [exact demo_leads|reflexivity].
Defined.
