(* ===== verification/TokenStore.v ===== *)
(** * Stored tokens ([src/internal/auth/auth.go], [file_store.go])

    A token goes through JSON into a store, in memory or in a file that is
    replaced as a whole.  The codec is a parameter; the disk is the files by
    name, with system calls that may fail.  Managers are given their store. *)
From Stdlib Require Import Ascii.
From S2P Require Import Prelude GoStrings GoErrors GoMonads.

Record Token := mkToken { AccessToken : string; RefreshToken : string }.
#[export] Instance Token_eq_dec : EqDecision Token.
Proof. solve_decision. Defined.

(** [json.Marshal] and [json.Unmarshal] of a token. *)
Class TokenCodec := {
  token_Marshal : Token → result goError bytes;
  token_Unmarshal : bytes → result goError Token
}.

(** [type Store interface] *)
Class TokenStore (S : Type) := { store_Save : bytes → errorM S unit; store_Load : errorM S bytes }.

Section manager.
Context {S : Type} `{!TokenStore S} `{!TokenCodec}.
Definition SaveToken (t : Token) : errorM S unit :=
  match token_Marshal t with Err e => fail e | Ok payload => store_Save payload end.
Definition LoadToken : errorM S Token :=
  data ← store_Load;
  match token_Unmarshal data with Err e => fail e | Ok t => mret t end.
Definition MarshalToken : errorM S bytes :=
  t ← LoadToken;
  match token_Marshal t with Err e => fail e | Ok data => mret data end.
End manager.

(** ** In memory *)
#[export] Instance memoryStore : TokenStore bytes :=
  {| store_Save := λ b _, (Ok tt, b); store_Load := λ b, (Ok b, b) |}.

(** ** In a file *)

(** What a file holds, and whether all of it is known to be on the disk. *)
Record node := mkNode { nd_data : bytes; nd_mode : Z; nd_synced : bool }.
#[export] Instance node_eta : Eta node := λ n, mkNode (nd_data n) (nd_mode n) (nd_synced n).
Abbreviation files := (gmap string node).
(** The outcomes of the coming system calls: a failed write may have written a
    part of its data. *)
Record Disk := mkDisk { dk_files : files; dk_faults : list (option (Z * goError)) }.
#[export] Instance Disk_eta : Eta Disk := λ d, mkDisk (dk_files d) (dk_faults d).

Abbreviation diskM := (errorM Disk).
Definition syscall (done : files → files) (failed : Z → files → files) : diskM unit := λ d,
  match dk_faults d with
  | Some (n, e) :: faults => (Err e, mkDisk (failed n (dk_files d)) faults)
  | faults => (Ok tt, mkDisk (done (dk_files d)) (tail faults))
  end.
Definition atomic_call (done : files → files) : diskM unit := syscall done (λ _ f, f).
Definition with_file (name : string) (change : node → node) (f : files) : files := alter change name f.
Definition append_data (data : bytes) (n : node) : node :=
  n <| nd_data ::= λ b, b ++ data |> <| nd_synced := false |>.
(** [if err := m; err != nil { _ = temp.Close(); return err }] *)
Definition or_close (m : diskM unit) : diskM unit := λ d,
  match m d with (Err e, d) => (Err e, (atomic_call id d).2) | r => r end.
(** [defer func() { _ = cleanup }()] *)
Definition deferred {A} (cleanup : diskM unit) (m : diskM A) : diskM A := λ d,
  let '(r, d) := m d in (r, (cleanup d).2).

Definition private : Z := 384. (* 0o600 *)

(** The random part [os.CreateTemp] puts in a name, for the names in use. *)
Class TempNames := temp_random : string → files → string.

Section file_store.
Context `{!TempNames} (path : string).
Definition temp_name (f : files) : string := path +:+ "-" +:+ temp_random path f +:+ ".tmp".
Definition CreateTemp : diskM string := λ d,
  let name := temp_name (dk_files d) in
  match atomic_call <[name := mkNode [] private true]> d with (Ok _, d) => (Ok name, d) | (Err e, d) => (Err e, d) end.
Definition write_and_rename (temp : string) (data : bytes) : diskM unit :=
  _ ← or_close (atomic_call (with_file temp (λ n, n <| nd_mode := private |>))) (* Chmod *);
  _ ← or_close (syscall (with_file temp (append_data data))
                        (λ k, with_file temp (append_data (slice data 0 k)))) (* Write *);
  _ ← or_close (atomic_call (with_file temp (λ n, n <| nd_synced := true |>))) (* Sync *);
  _ ← atomic_call id (* Close *);
  atomic_call (λ f, match f !! temp with Some n => <[path := n]> (delete temp f) | None => f end) (* Rename *).
Definition FileStore_Save (data : bytes) : diskM unit :=
  _ ← atomic_call id (* MkdirAll *);
  temp ← CreateTemp;
  deferred (atomic_call (delete temp)) (write_and_rename temp data).
Definition contents : diskM bytes := λ d,
  match dk_files d !! path with
  | Some n => (Ok (nd_data n), d)
  | None => (Err (errors_New "no such file or directory"), d)
  end.
Definition FileStore_Load : diskM bytes := _ ← atomic_call id; contents.
Definition FileStore : TokenStore Disk := {| store_Save := FileStore_Save; store_Load := FileStore_Load |}.
End file_store.

(** ** What a save leaves behind *)
Section save.
Context `{!TempNames} (path : string).
(** [os.CreateTemp] creates a file that was not there. *)
Hypothesis Hfresh : ∀ f, f !! temp_name path f = None.

Lemma temp_name_ne f : temp_name path f ≠ path.
Proof.
  unfold temp_name. intros Heq. apply (f_equal String.length) in Heq. rewrite !str_length_app in Heq. cbn in Heq. lia.
Qed.

(** Every system call succeeds or fails, and says what it did. *)
Lemma syscall_cases done failed d :
  (∃ faults, syscall done failed d = (Ok tt, mkDisk (done (dk_files d)) faults)) ∨
  (∃ e k faults, syscall done failed d = (Err e, mkDisk (failed k (dk_files d)) faults)).
Proof. unfold syscall. destruct (dk_faults d) as [|[[k e]|] fl]; [left|right|left]; eauto. Qed.

Lemma or_close_cases done failed d :
  (∃ faults, or_close (syscall done failed) d = (Ok tt, mkDisk (done (dk_files d)) faults)) ∨
  (∃ e k faults, or_close (syscall done failed) d = (Err e, mkDisk (failed k (dk_files d)) faults)).
Proof.
  unfold or_close. destruct (syscall_cases done failed d) as [(fl & ->)|(e & k & fl & ->)]; [eauto|right].
  unfold atomic_call.
  destruct (syscall_cases id (λ _ f, f) (mkDisk (failed k (dk_files d)) fl)) as [(fl' & ->)|(e' & k' & fl' & ->)];
    by exists e, k, fl'.
Qed.
Lemma with_file_ne temp change f name : name ≠ temp → with_file temp change f !! name = f !! name.
Proof. intros Hn. apply lookup_alter_ne. done. Qed.

Definition saved (data : bytes) (temp : string) (r : result goError unit) (f f' : files) : Prop :=
  f' !! path = match r with Ok _ => Some (mkNode data private true) | Err _ => f !! path end ∧
  (∀ name, name ≠ path → name ≠ temp → f' !! name = f !! name).

Lemma saved_err data temp e f f' :
  temp ≠ path → (∀ name, name ≠ temp → f' !! name = f !! name) → saved data temp (Err e) f f'.
Proof. intros Ht Hf. split; [by apply Hf|]. intros name _ Hn. by apply Hf. Qed.
Lemma with_file_eq temp change f n : f !! temp = Some n → with_file temp change f !! temp = Some (change n).
Proof. intros Hn. unfold with_file. by rewrite lookup_alter_eq, Hn. Qed.

(** The next system call of the program: it succeeded, or the file is as it was. *)
Ltac next_call :=
  let fl := fresh "fl" in
  first
    [ match goal with |- context [or_close (syscall ?a ?b) ?x] =>
        destruct (or_close_cases a b x) as [(fl & ->)|(? & ? & fl & ->)] end
    | match goal with |- context [syscall ?a ?b ?x] =>
        destruct (syscall_cases a b x) as [(fl & ->)|(? & ? & fl & ->)] end ];
  [|solve [apply saved_err; [done|]; intros ? ?; cbn [dk_files id]; by rewrite ?with_file_ne by done]].

Lemma write_and_rename_saved temp data d n :
  temp ≠ path → dk_files d !! temp = Some (mkNode [] n true) →
  let '(r, d') := write_and_rename path temp data d in saved data temp r (dk_files d) (dk_files d').
Proof.
  intros Ht Hn. unfold write_and_rename, mbind, errorM_bind, atomic_call. do 5 next_call. cbn [dk_files id].
  set (f0 := dk_files d) in *. set (f1 := with_file temp _ f0). set (f2 := with_file temp _ f1).
  set (f3 := with_file temp _ f2).
  assert (f3 !! temp = Some (mkNode data private true)) as Hf3.
  { exact (with_file_eq _ _ _ _ (with_file_eq _ _ _ _ (with_file_eq _ _ _ _ Hn))). }
  rewrite Hf3. split.
  - apply lookup_insert_eq.
  - intros name Hp Hne. rewrite lookup_insert_ne, lookup_delete_ne by done. subst f3 f2 f1. by rewrite !with_file_ne.
Qed.

Lemma FileStore_Save_saved data d :
  let '(r, d') := FileStore_Save path data d in
  saved data (temp_name path (dk_files d)) r (dk_files d) (dk_files d').
Proof.
  set (temp := temp_name path (dk_files d)). assert (temp ≠ path) as Ht by apply temp_name_ne.
  unfold FileStore_Save, mbind, errorM_bind, CreateTemp, atomic_call.
  next_call. cbn [dk_files id]. fold temp. next_call. cbn [dk_files].
  unfold deferred. set (d2 := mkDisk _ _).
  pose proof (write_and_rename_saved temp data d2 private Ht) as Hw.
  destruct (write_and_rename path temp data d2) as [r d3].
  destruct Hw as [H1 H2]; [apply lookup_insert_eq|]. cbn [dk_files d2] in H1, H2.
  assert (saved data temp r (dk_files d) (dk_files d3)) as [V1 V2].
  { split; [rewrite H1; destruct r; [done|]; by rewrite lookup_insert_ne|].
    intros name Hp Hn. rewrite H2 by done. by rewrite lookup_insert_ne. }
  destruct (syscall_cases (delete temp) (λ _ f, f) d3) as [(fl' & ->)|(e & k & fl' & ->)]; cbn; [|done].
  split; [by rewrite lookup_delete_ne|]. intros name Hp Hn. rewrite lookup_delete_ne by done. by apply V2.
Qed.
Lemma call_succeeds done failed (d : Disk) :
  dk_faults d = [] → syscall done failed d = (Ok tt, mkDisk (done (dk_files d)) []).
Proof. intros Hd. unfold syscall. by rewrite Hd. Qed.
Lemma FileStore_Save_succeeds data d :
  dk_faults d = [] →
  ∃ d', FileStore_Save path data d = (Ok tt, d') ∧ dk_files d' !! temp_name path (dk_files d) = None.
Proof.
  intros Hd. unfold FileStore_Save, mbind, errorM_bind, CreateTemp, deferred, write_and_rename, or_close, atomic_call.
  rewrite (call_succeeds _ _ d Hd). repeat (rewrite call_succeeds by done; cbn [dk_files]).
  unfold mbind, errorM_bind. repeat (rewrite call_succeeds by done; cbn [dk_files]).
  cbn [snd]. eexists. split; [done|]. apply lookup_delete_eq.
Qed.

(** C20: Saving replaces the token file by the whole new contents, synced and
    private, or reports an error and leaves it as it was, whichever system call
    fails and however much of the data it wrote; no other file of the directory
    changes, and without failures no temporary file is left. *)
Theorem token_file_replaced data d :
  let '(r, d') := FileStore_Save path data d in
  dk_files d' !! path = (match r with Ok _ => Some (mkNode data private true) | Err _ => dk_files d !! path end) ∧
  (∀ name n, name ≠ path → dk_files d !! name = Some n → dk_files d' !! name = Some n) ∧
  (dk_faults d = [] → r = Ok tt ∧ ∀ name, name ≠ path → dk_files d' !! name = dk_files d !! name).
Proof.
  pose proof (FileStore_Save_saved data d) as Hs.
  destruct (FileStore_Save path data d) as [r d'] eqn:E. destruct Hs as [H1 H2].
  split_and!; [done| |].
  - intros name n Hp Hn. rewrite H2; [done|done|]. intros ->. by rewrite Hfresh in Hn.
  - intros Hd. destruct (FileStore_Save_succeeds data d Hd) as (d2 & E2 & Ht).
    rewrite E in E2. injection E2 as -> ->. split; [done|]. intros name Hp.
    destruct (decide (name = temp_name path (dk_files d))) as [->|Hne]; [by rewrite Ht, Hfresh|by apply H2].
Qed.

(** C21: A token that was saved is the one loaded next; after a save that failed
    what is loaded is what was loaded before it. *)
Theorem saved_token_loads `{!TokenCodec} t d :
  (∀ payload, token_Marshal t = Ok payload → token_Unmarshal payload = Ok t) →
  let '(r, d') := SaveToken (TokenStore0 := FileStore path) t d in
  let load (d : Disk) := (LoadToken (TokenStore0 := FileStore path) (d <| dk_faults := [] |>)).1 in
  load d' = match r with Ok _ => Ok t | Err _ => load d end.
Proof.
  intros Hcodec. unfold SaveToken. destruct (token_Marshal t) as [payload|e]; [|done].
  specialize (Hcodec payload eq_refl). cbn [store_Save FileStore].
  pose proof (FileStore_Save_saved payload d) as Hs.
  destruct (FileStore_Save path payload d) as [[[]|e] d'] eqn:E; destruct Hs as [H1 _]; cbv zeta.
  - unfold LoadToken, mbind, errorM_bind. cbn [store_Load FileStore]. unfold FileStore_Load, mbind, errorM_bind.
    unfold atomic_call, syscall, contents. cbn. rewrite H1. cbn. by rewrite Hcodec.
  - unfold LoadToken, mbind, errorM_bind. cbn [store_Load FileStore]. unfold FileStore_Load, mbind, errorM_bind.
    unfold atomic_call, syscall, contents. cbn. rewrite H1. destruct (dk_files d !! path) as [n|]; [|done].
    by destruct (token_Unmarshal (nd_data n)).
Qed.
End save.

(** ** Examples *)

(** A name longer than all the others. *)
Definition longest (f : files) : nat := max_list (map (λ kv, String.length kv.1) (map_to_list f)).
#[export] Instance demoNames : TempNames := λ _ f, Nat.iter (longest f) (String "0") "".
Lemma demoNames_fresh path f : f !! temp_name path f = None.
Proof.
  destruct (f !! temp_name path f) as [n|] eqn:Hn; [|done]. exfalso. apply elem_of_map_to_list in Hn.
  assert (String.length (temp_name path f) ≤ longest f)%nat as Hl.
  { apply max_list_elem_of_le, list_elem_of_fmap. exists (temp_name path f, n). done. }
  assert (∀ k, String.length (Nat.iter k (String "0") "") = k) as Hi by (induction k as [|k IH]; cbn; by f_equal).
  unfold temp_name in Hl. rewrite !str_length_app in Hl.
  change (String.length (temp_random path f)) with (String.length (Nat.iter (longest f) (String "0") "")) in Hl.
  rewrite Hi in Hl. cbn in Hl. lia.
Qed.
Definition oldNode : node := mkNode [Byte.x61] private true.
(** The write fails after two bytes. *)
Definition fullDisk : Disk :=
  mkDisk {["token.json" := oldNode]} [None; None; None; Some (2, errors_New "no space left on device")].
Lemma token_file_replaced_witness :
  (FileStore_Save "token.json" [Byte.x62; Byte.x63; Byte.x64] fullDisk).1 = Err (errors_New "no space left on device") ∧
  dk_files (FileStore_Save "token.json" [Byte.x62; Byte.x63; Byte.x64] fullDisk).2 !! "token.json" = Some oldNode.
Proof.
  pose proof (token_file_replaced "token.json" (demoNames_fresh "token.json") [Byte.x62; Byte.x63; Byte.x64] fullDisk) as H.
  assert ((FileStore_Save "token.json" [Byte.x62; Byte.x63; Byte.x64] fullDisk).1
          = Err (errors_New "no space left on device")) as E by (vm_compute; reflexivity).
  destruct (FileStore_Save _ _ _) as [r d']. cbn [fst snd] in E |- *. subst r. destruct H as [H _]. split; [reflexivity|exact H].
Defined.

Definition demoToken : Token := mkToken "access" "refresh".
#[local] Instance demoCodec : TokenCodec :=
  {| token_Marshal := λ t, Ok (String.list_byte_of_string (AccessToken t));
     token_Unmarshal := λ b, Ok (mkToken (String.string_of_list_byte b) "refresh") |}.
Lemma demoCodec_right payload : token_Marshal demoToken = Ok payload → token_Unmarshal payload = Ok demoToken.
Proof. by intros [= <-]. Qed.
Lemma saved_token_loads_witness :
  ∃ d', SaveToken (TokenStore0 := FileStore "token.json") demoToken (mkDisk ∅ []) = (Ok tt, d') ∧
    (LoadToken (TokenStore0 := FileStore "token.json") (d' <| dk_faults := [] |>)).1 = Ok demoToken.
Proof.
  pose proof (saved_token_loads "token.json" demoToken (mkDisk ∅ []) demoCodec_right) as H.
  assert ((SaveToken (TokenStore0 := FileStore "token.json") demoToken (mkDisk ∅ [])).1 = Ok tt) as E
    by (vm_compute; reflexivity).
  destruct (SaveToken _ _) as [r d']. cbn [fst] in E. subst r. exists d'. split; [reflexivity|exact H].
Defined.
