(* ===== verification/OAuth.v ===== *)
(** * Logging in ([src/internal/auth/oauth.go], [BuildAuthorizeURL] of [auth.go])

    The URLs of the login, the exchange of the code for a token, and the server
    that waits for the browser to come back with the code. *)
From Stdlib Require Import Ascii.
From S2P Require Import Prelude GoStrings GoErrors GoMonads GoSort GoUrl TokenStore.

Record OAuthConfig := mkOAuthConfig {
  ClientID : string; ClientSecret : string; RedirectURI : string; Scope : string; State : string;
  TokenBaseURL : string; AuthorizeBaseURL : string
}.
#[export] Instance OAuthConfig_eta : Eta OAuthConfig := λ c,
  mkOAuthConfig (ClientID c) (ClientSecret c) (RedirectURI c) (Scope c) (State c) (TokenBaseURL c) (AuthorizeBaseURL c).

(** ** URLs *)
Definition orDefault (value fallback : string) : string := if decide (value = "") then fallback else value.
Definition authorize_values (cfg : OAuthConfig) : Values :=
  let values := value_set "redirect_uri" (RedirectURI cfg) (value_set "client_id" (ClientID cfg)
                  (value_set "response_type" "code" ∅)) in
  let values := if decide (Scope cfg = "") then values else value_set "scope" (Scope cfg) values in
  if decide (State cfg = "") then values else value_set "state" (State cfg) values.
Definition BuildAuthorizeURL (cfg : OAuthConfig) : result goError string :=
  if decide (ClientID cfg = "") then Err (errors_New "client id is required")
  else if decide (RedirectURI cfg = "") then Err (errors_New "redirect uri is required")
  else Ok (orDefault (AuthorizeBaseURL cfg) "https://openapi.baidu.com/oauth/2.0/authorize"
           +:+ "?" +:+ Encode (authorize_values cfg)).

(** ** Exchanging the code *)
Record OAuthTokenResponse := mkTokenResponse {
  tr_AccessToken : string; tr_RefreshToken : string; tr_ExpiresIn : Z; tr_ErrorCode : string; tr_ErrorDesc : string
}.
(** The HTTP client with what it does to the rest of the world ([S]): status
    and body, which may fail to be read; and the decoding of a body as JSON or
    else XML. *)
Class TokenService (S : Type) := {
  http_Get : string → stateM S (result goError (Z * result goError string));
  decode_response : string → result goError OAuthTokenResponse
}.
Definition token_values (cfg : OAuthConfig) (code : string) : Values :=
  value_set "redirect_uri" (RedirectURI cfg) (value_set "client_secret" (ClientSecret cfg)
    (value_set "client_id" (ClientID cfg) (value_set "code" code
      (value_set "grant_type" "authorization_code" ∅)))).
Definition token_endpoint (cfg : OAuthConfig) (code : string) : string :=
  orDefault (TokenBaseURL cfg) "https://openapi.baidu.com/oauth/2.0/token" +:+ "?" +:+ Encode (token_values cfg code).
(** What the answer of the service is worth. *)
Definition token_of_response {S} `{!TokenService S} (resp : result goError (Z * result goError string))
    : result goError Token :=
  match resp with
  | Err e => Err e
  | Ok (status, body) =>
      body ← body;
      if decide (400 ≤ status) then Err (errors_New ("token exchange failed: " +:+ trim_space body))
      else
        out ← decode_response body;
        if decide (tr_AccessToken out = "") then Err (errors_New "missing access token")
        else Ok (mkToken (tr_AccessToken out) (tr_RefreshToken out))
  end.

Section exchange.
Context {S : Type} `{!TokenService S} `{!TokenStore S} `{!TokenCodec}.
Definition ExchangeToken (cfg : OAuthConfig) (code : string) : errorM S Token :=
  if decide (ClientID cfg = "") then fail (errors_New "client id is required")
  else if decide (ClientSecret cfg = "") then fail (errors_New "client secret is required")
  else if decide (RedirectURI cfg = "") then fail (errors_New "redirect uri is required")
  else λ s, let '(resp, s) := http_Get (token_endpoint cfg code) s in (token_of_response resp, s).

(** [url.Parse] of an address: what comes before its query, and the query; and
    the [String] of such a URL. *)
Class UrlParser := { url_parse : string → result goError (string * string); url_string : string → string → string }.
Context `{!UrlParser}.
Definition callback_code (rawurl : string) : result goError string :=
  u ← url_parse rawurl;
  let code := value_get "code" (ParseQuery u.2) in
  if decide (code = "") then Err (errors_New "missing code") else Ok code.
Definition ExchangeTokenFromCallback (rawurl : string) : result goError Token :=
  code ← callback_code rawurl; Ok (mkToken code code).
Definition SaveOAuthTokenFromCallback (rawurl : string) (cfg : OAuthConfig) : errorM S unit :=
  match callback_code rawurl with
  | Err e => fail e
  | Ok code => token ← ExchangeToken cfg code; SaveToken token
  end.
(** [saveOAuthToken] of [app.go], whose configuration is in [cfg] *)
Definition saveOAuthToken (cfg : OAuthConfig) (code : string) : errorM S unit :=
  match url_parse (RedirectURI cfg) with
  | Err e => fail e
  | Ok (address, query) =>
      SaveOAuthTokenFromCallback (url_string address (Encode (value_set "code" code (ParseQuery query)))) cfg
  end.
End exchange.

(** ** The server *)

(** [result] is the channel, of capacity one; [done] is closed by the first
    [Shutdown]. *)
Record OAuthServer := mkOAuthServer { os_cfg : OAuthConfig; os_result : option string; os_done : bool }.
#[export] Instance OAuthServer_eta : Eta OAuthServer := λ s, mkOAuthServer (os_cfg s) (os_result s) (os_done s).
Definition NewOAuthServer (cfg : OAuthConfig) (randomState : string) : OAuthServer :=
  mkOAuthServer (cfg <| State ::= λ s, if decide (s = "") then randomState else s +:+ "-" +:+ randomState |>) None false.
Definition AuthorizeURL (s : OAuthServer) : result goError string := BuildAuthorizeURL (os_cfg s).

(** The cases of the [select] that are ready when [handleCallback] gets to it;
    the default is taken when none is. *)
Definition StatusOK : Z := 200.
Definition StatusBadRequest : Z := 400.
Definition StatusGone : Z := 410.
Inductive oauth_event :=
| ECallback (query : Values) (status : Z)
| EWait (r : result goError string)
| EShutdown.
Inductive oauth_step : OAuthServer → oauth_event → OAuthServer → Prop :=
| callback_mismatch s q : value_get "state" q ≠ State (os_cfg s) → oauth_step s (ECallback q StatusBadRequest) s
| callback_no_code s q :
    value_get "state" q = State (os_cfg s) → value_get "code" q = "" → oauth_step s (ECallback q StatusBadRequest) s
| callback_send s q :
    value_get "state" q = State (os_cfg s) → value_get "code" q ≠ "" → os_result s = None →
    oauth_step s (ECallback q StatusOK) (s <| os_result := Some (value_get "code" q) |>)
| callback_closed s q :
    value_get "state" q = State (os_cfg s) → value_get "code" q ≠ "" → os_done s = true →
    oauth_step s (ECallback q StatusGone) s
| callback_full s q c :
    value_get "state" q = State (os_cfg s) → value_get "code" q ≠ "" → os_result s = Some c → os_done s = false →
    oauth_step s (ECallback q StatusOK) s
| wait_result s code : os_result s = Some code → oauth_step s (EWait (Ok code)) (s <| os_result := None |>)
| wait_closed s : os_done s = true → oauth_step s (EWait (Err (errors_New "oauth server closed"))) s
| shutdown s : oauth_step s EShutdown (s <| os_done := true |>).
Inductive oauth_run : OAuthServer → list oauth_event → OAuthServer → Prop :=
| run_nil s : oauth_run s [] s
| run_snoc s es s1 e s2 : oauth_run s es s1 → oauth_step s1 e s2 → oauth_run s (es ++ [e]) s2.
