(* ===== verification/OAuthProps.v ===== *)
(** * What the login promises

    The URLs carry the configuration and the code unharmed, each code waited
    for came from a callback of its own with the right state, and nobody waits in vain. *)
From Stdlib Require Import Ascii.
From stdpp Require Import sorting.
From S2P Require Import Prelude GoStrings GoErrors GoMonads GoSort GoUrl TokenStore OAuth.

(** ** URLs *)
Lemma no_empty_set k v m : no_empty m → no_empty (value_set k v m).
Proof. intros Hm. by apply map_Forall_insert_2. Qed.
Lemma no_empty_empty : no_empty ∅.
Proof. apply map_Forall_empty. Qed.
Lemma no_empty_authorize cfg : no_empty (authorize_values cfg).
Proof. unfold authorize_values. repeat case_decide; repeat apply no_empty_set; apply no_empty_empty. Qed.
Lemma no_empty_token cfg code : no_empty (token_values cfg code).
Proof. unfold token_values. repeat apply no_empty_set. apply no_empty_empty. Qed.
Lemma value_get_set k v m : value_get k (value_set k v m) = v.
Proof. unfold value_get, value_set. by rewrite lookup_insert_eq. Qed.
Lemma value_get_set_ne k k' v m : k ≠ k' → value_get k (value_set k' v m) = value_get k m.
Proof. intros Hk. unfold value_get, value_set. by rewrite lookup_insert_ne. Qed.
Lemma value_get_empty k : value_get k ∅ = "".
Proof. done. Qed.
Ltac values :=
  repeat first [rewrite value_get_set | rewrite value_get_set_ne by done | rewrite value_get_empty].

(** C27: The query of the authorization URL and that of the token endpoint read
    back, key by key, as the configuration and the code they were made from,
    whatever bytes those hold. *)
Theorem login_urls_read_back cfg code :
  match BuildAuthorizeURL cfg with
  | Ok url =>
      ∃ base q, url = base +:+ "?" +:+ q ∧ base ≠ "" ∧
        (let get k := value_get k (ParseQuery q) in
         get "response_type" = "code" ∧ get "client_id" = ClientID cfg ∧ get "redirect_uri" = RedirectURI cfg ∧
         get "scope" = Scope cfg ∧ get "state" = State cfg)
  | Err _ => ClientID cfg = "" ∨ RedirectURI cfg = ""
  end ∧
  ∃ base q, token_endpoint cfg code = base +:+ "?" +:+ q ∧ base ≠ "" ∧
    (let get k := value_get k (ParseQuery q) in
     get "grant_type" = "authorization_code" ∧ get "code" = code ∧ get "client_id" = ClientID cfg ∧
     get "client_secret" = ClientSecret cfg ∧ get "redirect_uri" = RedirectURI cfg).
Proof.
  assert (∀ v d, d ≠ "" → orDefault v d ≠ "") as Hd by (intros v d H; unfold orDefault; by case_decide).
  split.
  - unfold BuildAuthorizeURL. case_decide; [by left|]. case_decide; [by right|].
    eexists _, _. split; [done|]. split; [by apply Hd|]. cbv zeta. rewrite parse_encode by apply no_empty_authorize.
    unfold authorize_values. split_and!; repeat case_decide; values; done.
  - eexists _, _. split; [done|]. split; [by apply Hd|]. cbv zeta. rewrite parse_encode by apply no_empty_token.
    unfold token_values. split_and!; values; done.
Qed.

(** ** The token that is stored *)
Section login.
Context {S : Type} `{!TokenService S} `{!TokenStore S} `{!TokenCodec} `{!UrlParser}.
(** A URL made with an encoded query parses to that query. *)
Hypothesis Hurl : ∀ raw address query v,
  url_parse raw = Ok (address, query) → url_parse (url_string address (Encode v)) = Ok (address, Encode v).

(** A redirect address with a query of its own keeps it. *)
Lemma parsed_no_empty query : no_empty (ParseQuery query).
Proof.
  unfold ParseQuery. assert (∀ l v, no_empty v → no_empty (foldl add_value v l)) as Hl; [|apply Hl, no_empty_empty].
  induction l as [|kv l IH]; intros v Hv; [done|]. cbn [foldl]. apply IH, map_Forall_insert_2; [|done].
  by destruct (default [] (v !! kv.1)).
Qed.
Lemma redirect_code raw address query code :
  url_parse raw = Ok (address, query) → code ≠ "" →
  callback_code (url_string address (Encode (value_set "code" code (ParseQuery query)))) = Ok code.
Proof.
  intros Hraw Hcode. unfold callback_code. rewrite (Hurl _ _ _ _ Hraw). cbn [mbind result_bind snd].
  rewrite parse_encode by (apply no_empty_set, parsed_no_empty). rewrite value_get_set. by rewrite decide_False.
Qed.

(** A login that succeeds has asked the token endpoint once, for the very
    code the browser brought, and has stored the token of a good answer. *)
Theorem login_stores_exchanged_token cfg code s s' :
  code ≠ "" → saveOAuthToken cfg code s = (Ok tt, s') →
  ∃ resp s1 token, http_Get (token_endpoint cfg code) s = (resp, s1) ∧
    token_of_response resp = Ok token ∧ AccessToken token ≠ "" ∧ SaveToken token s1 = (Ok tt, s').
Proof.
  intros Hcode. unfold saveOAuthToken. destruct (url_parse (RedirectURI cfg)) as [[address query]|e] eqn:Hp; [|done].
  unfold SaveOAuthTokenFromCallback. rewrite (redirect_code _ _ _ _ Hp Hcode).
  intros (token & s1 & Hx & Hs)%errorM_bind_Ok. unfold ExchangeToken in Hx. repeat (case_decide; [done|]).
  destruct (http_Get (token_endpoint cfg code) s) as [resp s2] eqn:Hg. injection Hx as Hx <-.
  exists resp, s2, token. split_and!; try done.
  unfold token_of_response in Hx. destruct resp as [[status [body|e]]|e]; try done.
  cbn [mbind result_bind] in Hx. case_decide; [done|].
  destruct (decode_response body) as [out|e]; [|done]. cbn [mbind result_bind] in Hx. case_decide; [done|].
  by injection Hx as <-.
Qed.
End login.

(** ** The server *)
(** A callback that carried the state of [cfg] and this code, and was told so. *)
Definition accepted (cfg : OAuthConfig) (code : string) (e : oauth_event) : Prop :=
  ∃ q, e = ECallback q StatusOK ∧ value_get "state" q = State cfg ∧ value_get "code" q = code ∧ code ≠ "".
Definition delivers (e : oauth_event) : Prop := match e with EWait (Ok _) => True | _ => False end.
#[export] Instance delivers_dec e : Decision (delivers e).
Proof. destruct e as [|[]|]; apply _. Defined.
Definition answers_ok (e : oauth_event) : Prop := match e with ECallback _ status => status = StatusOK | _ => False end.
#[export] Instance answers_ok_dec e : Decision (answers_ok e).
Proof. destruct e as [q st|[]|]; apply _. Defined.
(** Such a callback, since which no [Wait] has returned a code. *)
Definition brought (cfg : OAuthConfig) (code : string) (es : list oauth_event) : Prop :=
  ∃ before e after, es = before ++ e :: after ∧ accepted cfg code e ∧ Forall (λ e, ¬ delivers e) after.

Lemma oauth_step_cfg s e s' : oauth_step s e s' → os_cfg s' = os_cfg s.
Proof. by inversion 1. Qed.
Lemma oauth_run_cfg s es s' : oauth_run s es s' → os_cfg s' = os_cfg s.
Proof. induction 1 as [|s es s1 e s2 _ IH Hs]; [done|]. apply oauth_step_cfg in Hs. congruence. Qed.

Lemma brought_snoc cfg code es e : brought cfg code es → ¬ delivers e → brought cfg code (es ++ [e]).
Proof.
  intros (before & c & after & -> & Ha & Hf) He. exists before, c, (after ++ [e]).
  split_and!; [by rewrite <- app_assoc|done|]. apply Forall_app. split; [done|by constructor].
Qed.
(** The code held was brought since the last one was fetched. *)
Lemma oauth_held_genuine s0 es s :
  os_result s0 = None → oauth_run s0 es s →
  ∀ code, os_result s = Some code → brought (os_cfg s0) code es.
Proof.
  intros H0. induction 1 as [|s es s1 e s2 Hrun IH Hs]; intros code Hc; [congruence|].
  pose proof (oauth_run_cfg _ _ _ Hrun) as Hcfg. specialize (IH H0).
  destruct Hs as [s1 q|s1 q|s1 q Hst Hco Hr|s1 q|s1 q c|s1 c Hr|s1|s1];
    try (apply brought_snoc; [by apply IH|by intros []]).
  injection Hc as <-. exists es, (ECallback q StatusOK), []. split_and!; [done| |constructor].
  exists q. by rewrite <- Hcfg.
Qed.

(** C19: Each code [Wait] returns comes from a callback of its own: one that
    came before, carried the state of this server and that code and was
    answered with success, and between which and this [Wait] no other [Wait]
    returned a code; so no callback serves two of them. *)
Theorem login_code_genuine cfg random es s :
  oauth_run (NewOAuthServer cfg random) es s →
  ∀ es1 code es2, es = es1 ++ EWait (Ok code) :: es2 →
    brought (os_cfg (NewOAuthServer cfg random)) code es1.
Proof.
  intros Hrun. assert (os_result (NewOAuthServer cfg random) = None) as H0 by done.
  revert Hrun H0. generalize (NewOAuthServer cfg random) as s0. intros s0 Hrun H0.
  induction Hrun as [|s0 es s1 e s2 Hrun IH Hs]; intros es1 code es2 Heq; [by destruct es1|].
  destruct es2 as [|e2 es2 _] using rev_ind.
  - apply app_inj_tail in Heq as [-> ->]. inversion Hs; subst. by eapply oauth_held_genuine.
  - rewrite app_comm_cons, app_assoc in Heq. apply app_inj_tail in Heq as [-> ->]. by apply (IH H0 es1 code es2).
Qed.

(** ** Progress *)
Definition can_wait (s : OAuthServer) : Prop := ∃ r s', oauth_step s (EWait r) s'.
Lemma can_wait_iff s : can_wait s ↔ os_done s = true ∨ is_Some (os_result s).
Proof.
  split.
  - intros (r & s' & Hs). inversion Hs; subst; eauto.
  - intros [Hd|[code Hc]]; eexists _, _; [by apply wait_closed|by apply wait_result].
Qed.
Lemma done_kept s0 es s : oauth_run s0 es s → os_done s0 = true → os_done s = true.
Proof. induction 1 as [|s es s1 e s2 _ IH Hs]; [done|]. intros Hd. specialize (IH Hd). by inversion Hs; subst. Qed.
Lemma held_kept s0 es s :
  oauth_run s0 es s → is_Some (os_result s0) → Forall (λ e, ¬ delivers e) es → is_Some (os_result s).
Proof.
  induction 1 as [|s es s1 e s2 _ IH Hs]; [done|]. intros Hd [Hes He]%Forall_app.
  specialize (IH Hd Hes). inversion He as [|?? Hn _]; subst. inversion Hs; subst; cbn; eauto. by destruct Hn.
Qed.
Lemma oauth_run_nil s s' : oauth_run s [] s' → s' = s.
Proof.
  inversion 1; [done|]. match goal with H : ?l ++ [_] = [] |- _ => by destruct l end.
Qed.
Lemma oauth_run_snoc_inv s0 es e s : oauth_run s0 (es ++ [e]) s → ∃ s1, oauth_run s0 es s1 ∧ oauth_step s1 e s.
Proof.
  inversion 1; subst.
  - match goal with H : [] = ?l ++ [_] |- _ => by destruct l end.
  - match goal with H : _ ++ [_] = _ ++ [_] |- _ => apply app_inj_tail in H as [-> ->] end. eauto.
Qed.
Lemma oauth_run_one s e s' : oauth_run s [e] s' → oauth_step s e s'.
Proof. intros (s1 & ->%oauth_run_nil & H)%(oauth_run_snoc_inv s []). done. Qed.
Lemma oauth_run_split s0 es1 es2 s : oauth_run s0 (es1 ++ es2) s → ∃ s1, oauth_run s0 es1 s1 ∧ oauth_run s1 es2 s.
Proof.
  revert s. induction es2 as [|e es2 IH] using rev_ind; intros s.
  { rewrite app_nil_r. intros H. exists s. split; [done|constructor]. }
  rewrite app_assoc. intros (s2 & Hrun & Hs)%oauth_run_snoc_inv.
  destruct (IH _ Hrun) as (s3 & H1 & H2). exists s3. split; [done|]. by econstructor.
Qed.

(** A callback is always answered.  Once the server was shut down, or a
    callback was accepted whose code nobody has fetched, a [Wait] returns, and
    stays able to until one does; nothing else the browser or the application
    does in between can block it. *)
Theorem login_never_stuck cfg random es1 e es2 s :
  oauth_run (NewOAuthServer cfg random) (es1 ++ e :: es2) s →
  (∀ q, ∃ status s', oauth_step s (ECallback q status) s') ∧
  (e = EShutdown ∨ answers_ok e ∧ Forall (λ e, ¬ delivers e) es2 → can_wait s).
Proof.
  intros Hrun. split.
  - intros q. destruct (decide (value_get "state" q = State (os_cfg s))) as [Hst|Hst]; [|eexists _, _; by constructor].
    destruct (decide (value_get "code" q = "")) as [Hco|Hco]; [eexists _, _; by apply callback_no_code|].
    destruct (os_result s) as [c|] eqn:Hr; [|eexists _, _; by apply callback_send].
    destruct (os_done s) eqn:Hd; eexists _, _; [by apply callback_closed|by eapply callback_full].
  - change (e :: es2) with ([e] ++ es2) in Hrun. rewrite app_assoc in Hrun.
    apply oauth_run_split in Hrun as (s2 & Hrun & H2). apply oauth_run_split in Hrun as (s1 & _ & H1).
    apply oauth_run_one in H1 as Hs.
    rewrite can_wait_iff. intros [->|[Ha Hes]].
    + left. inversion Hs; subst. by eapply done_kept.
    + right. eapply held_kept; [done| |done]. by destruct Hs; cbn in Ha.
Qed.

(** ** Examples *)
Definition demoOAuth : OAuthConfig := mkOAuthConfig "id" "secret" "http://127.0.0.1:8765/callback" "basic,netdisk" "s" "" "".
Definition demoServer : OAuthServer := NewOAuthServer demoOAuth "42".
Definition goodQuery : Values := value_set "code" "abc" (value_set "state" "s-42" ∅).
Definition demoCallbacks : list oauth_event := [ECallback ∅ StatusBadRequest; ECallback goodQuery StatusOK].
Lemma demo_callbacks : oauth_run demoServer demoCallbacks (demoServer <| os_result := Some "abc" |>).
Proof.
  apply (run_snoc _ [_] demoServer); [apply (run_snoc _ [] demoServer); [constructor|by constructor]|].
  by apply (callback_send demoServer goodQuery).
Qed.
Lemma demo_login : oauth_run demoServer (demoCallbacks ++ [EWait (Ok "abc")]) demoServer.
Proof. eapply run_snoc; [apply demo_callbacks|]. exact (wait_result (demoServer <| os_result := Some "abc" |>) "abc" eq_refl). Qed.
Lemma login_code_genuine_witness : brought (os_cfg demoServer) "abc" demoCallbacks.
Proof. exact (login_code_genuine demoOAuth "42" _ _ demo_login demoCallbacks "abc" [] eq_refl). Defined.
Lemma login_never_stuck_witness : can_wait (demoServer <| os_result := Some "abc" |>).
Proof.
  apply (proj2 (login_never_stuck demoOAuth "42" [ECallback ∅ StatusBadRequest] (ECallback goodQuery StatusOK) []
    _ demo_callbacks)).
  right. split; [reflexivity|constructor].
Defined.

#[local] Instance demoService : TokenService bytes :=
  {| http_Get := λ _ s, (Ok (200, Ok "body"), s); decode_response := λ _, Ok (mkTokenResponse "access" "refresh" 3600 "" "") |}.
#[local] Instance demoCodec : TokenCodec :=
  {| token_Marshal := λ t, Ok (String.list_byte_of_string (AccessToken t)); token_Unmarshal := λ _, Err (errors_New "") |}.
(** Addresses without a fragment: the query follows the first question mark. *)
#[local] Instance demoUrls : UrlParser :=
  {| url_parse := λ raw, Ok (match split2 raw "?" with [address; query] => (address, query) | _ => (raw, "") end);
     url_string := λ address query, address +:+ String "?" query |}.
Lemma demoUrls_right raw address query v :
  url_parse raw = Ok (address, query) → url_parse (url_string address (Encode v)) = Ok (address, Encode v).
Proof.
  cbn. intros Hraw. assert (¬ str_mem "?" address) as Ha.
  { unfold split2 in Hraw. case_decide as Hi.
    - injection Hraw as <- _. intros Hm. apply index_byte_mem in Hm. lia.
    - injection Hraw as <- _. apply index_byte_split. lia. }
  by rewrite split2_app.
Qed.
Lemma login_stores_exchanged_token_witness :
  ∃ s', saveOAuthToken demoOAuth "abc" [] = (Ok tt, s') ∧
    ∃ resp s1 token, http_Get (token_endpoint demoOAuth "abc") [] = (resp, s1) ∧
      token_of_response resp = Ok token ∧ AccessToken token ≠ "" ∧ SaveToken token s1 = (Ok tt, s').
Proof.
  assert (saveOAuthToken demoOAuth "abc" [] = (Ok tt, String.list_byte_of_string "access")) as E by (vm_compute; reflexivity).
  exists (String.list_byte_of_string "access"). split; [exact E|].
  exact (login_stores_exchanged_token demoUrls_right demoOAuth "abc" [] _ ltac:(discriminate) E).
Defined.
