(* ===== verification/AppConfig.v ===== *)
(** * Configuration ([src/internal/config/config.go], [New] of [app.go])

    The configuration read from the environment, what [New] checks and derives
    from it, and the state of the application [New] returns. *)
From Stdlib Require Import Ascii.
From S2P Require Import Prelude GoStrings GoErrors GoMonads GoPath GoSort StreamConfig MetaStore Playback Filesystem RemotePaths OAuth.

Record AppConfig := mkAppConfig {
  cf_MountPath : string; cf_RemoteRootPath : string; cf_TokenPath : string; cf_MetaDBPath : string;
  cf_FuseGroupName : string; cf_FuseTraceReads : bool; cf_EnableDelete : bool;
  cf_DownloadConcurrency : Z; cf_DownloadChunkSize : Z; cf_StreamChunkSize : Z; cf_StreamWorkers : Z;
  cf_StreamLowWatermark : Z; cf_StreamTargetBuffer : Z; cf_StreamBackBuffer : Z; cf_StreamMemoryCache : Z;
  cf_StreamDiskCache : Z; cf_StreamCachePath : string; cf_StreamHedge : bool;
  cf_ClientID : string; cf_ClientSecret : string; cf_RedirectURI : string; cf_OAuthListenAddr : string;
  cf_OAuthScope : string; cf_OAuthState : string; cf_AuthorizeBaseURL : string; cf_TokenBaseURL : string;
  cf_APIBaseURL : string
}.
#[export] Instance AppConfig_eta : Eta AppConfig := λ c,
  mkAppConfig (cf_MountPath c) (cf_RemoteRootPath c) (cf_TokenPath c) (cf_MetaDBPath c) (cf_FuseGroupName c)
    (cf_FuseTraceReads c) (cf_EnableDelete c) (cf_DownloadConcurrency c) (cf_DownloadChunkSize c)
    (cf_StreamChunkSize c) (cf_StreamWorkers c) (cf_StreamLowWatermark c) (cf_StreamTargetBuffer c)
    (cf_StreamBackBuffer c) (cf_StreamMemoryCache c) (cf_StreamDiskCache c) (cf_StreamCachePath c)
    (cf_StreamHedge c) (cf_ClientID c) (cf_ClientSecret c) (cf_RedirectURI c) (cf_OAuthListenAddr c)
    (cf_OAuthScope c) (cf_OAuthState c) (cf_AuthorizeBaseURL c) (cf_TokenBaseURL c) (cf_APIBaseURL c).

(** ** The environment *)

(** A number of the environment: [ok] says which are taken. *)
Definition parse_number (ok : Z → bool) (value : string) (fallback : Z) : Z :=
  if decide (value = "") then fallback
  else match parse_int64 value with
       | Some n => if ok n then n else fallback
       | None => fallback
       end.
Definition parseInt : string → Z → Z := parse_number (λ n, bool_decide (0 < n)).
Definition parseInt64 : string → Z → Z := parse_number (λ n, bool_decide (0 < n)).
Definition parseNonNegativeInt64 : string → Z → Z := parse_number (λ n, bool_decide (0 ≤ n)).
Definition parseBool (value : string) : bool :=
  bool_decide (value ∈ ["1"; "true"; "TRUE"; "yes"; "YES"; "on"; "ON"]).
Definition parseBoolDefault (value : string) (fallback : bool) : bool :=
  if decide (value = "") then fallback else parseBool value.

(** [env] is [os.Getenv] for the names with the program's prefix. *)
Definition Load (env : string → string) : AppConfig := {|
  cf_MountPath := env "MOUNT_PATH";
  cf_RemoteRootPath := env "REMOTE_ROOT_PATH";
  cf_TokenPath := env "TOKEN_PATH";
  cf_MetaDBPath := env "META_DB_PATH";
  cf_FuseGroupName := env "FUSE_GROUP_NAME";
  cf_FuseTraceReads := parseBool (env "FUSE_TRACE_READS");
  cf_EnableDelete := parseBool (env "ENABLE_DELETE");
  cf_DownloadConcurrency := parseInt (env "DOWNLOAD_CONCURRENCY") 1;
  cf_DownloadChunkSize := parseInt64 (env "DOWNLOAD_CHUNK_SIZE") (MiB 8);
  cf_StreamChunkSize := parseInt64 (env "STREAM_CHUNK_SIZE") (MiB 1);
  cf_StreamWorkers := parseInt (env "STREAM_WORKERS") 8;
  cf_StreamLowWatermark := parseInt64 (env "STREAM_LOW_WATERMARK") (MiB 128);
  cf_StreamTargetBuffer := parseInt64 (env "STREAM_TARGET_BUFFER") (MiB 256);
  cf_StreamBackBuffer := parseInt64 (env "STREAM_BACK_BUFFER") (MiB 32);
  cf_StreamMemoryCache := parseInt64 (env "STREAM_MEMORY_CACHE") (MiB 320);
  cf_StreamDiskCache := parseNonNegativeInt64 (env "STREAM_DISK_CACHE") (MiB 2048);
  cf_StreamCachePath := env "STREAM_CACHE_PATH";
  cf_StreamHedge := parseBoolDefault (env "STREAM_HEDGE") true;
  cf_ClientID := env "CLIENT_ID";
  cf_ClientSecret := env "CLIENT_SECRET";
  cf_RedirectURI := env "REDIRECT_URI";
  cf_OAuthListenAddr := env "OAUTH_LISTEN_ADDR";
  cf_OAuthScope := env "OAUTH_SCOPE";
  cf_OAuthState := env "OAUTH_STATE";
  cf_AuthorizeBaseURL := env "AUTHORIZE_BASE_URL";
  cf_TokenBaseURL := env "TOKEN_BASE_URL";
  cf_APIBaseURL := env "API_BASE_URL"
|}.

(** ** What [New] derives *)
Definition required (value name : string) : result goError unit :=
  if decide (value = "") then Err (errors_New (name +:+ " is required")) else Ok tt.
Definition validate (cfg : AppConfig) : result goError AppConfig :=
  _ ← required (cf_MountPath cfg) "mount path";
  let cfg := cfg <| cf_RemoteRootPath ::= λ p, normalizeRemoteRootPath (if decide (p = "") then "/Videos" else p) |> in
  _ ← required (cf_TokenPath cfg) "token path";
  _ ← required (cf_MetaDBPath cfg) "metadata db path";
  _ ← required (cf_ClientID cfg) "client id";
  _ ← required (cf_RedirectURI cfg) "redirect uri";
  Ok cfg.

Definition sqliteDSN (path : string) : string :=
  if decide (path = "") then ""
  else path +:+ (if contains path "?" then "&" else "?") +:+ "_pragma=busy_timeout(5000)&_pragma=journal_mode(WAL)".

(** [strconv.ParseUint(s, 10, 32)] *)
Definition parse_uint32 (s : string) : option Z :=
  n ← parse_uint s; if decide (n < 2 ^ 32) then Some n else None.

Definition numError (s : string) : goError :=
  errors_New ("strconv.ParseUint: parsing " +:+ quote s +:+ ": " +:+
    match parse_uint s with Some _ => "value out of range" | None => "invalid syntax" end).

(** [user.LookupGroup]: the [Gid] of a group. *)
Class Groups := LookupGroup : string → result goError string.
Section groups.
Context `{!Groups}.
Definition group_gid (groupName : string) : result goError Z :=
  match parse_uint32 groupName with
  | Some gid => Ok gid
  | None =>
      match LookupGroup groupName with
      | Err e => Err (wrap ("lookup fuse group " +:+ quote groupName) e)
      | Ok gid =>
          match parse_uint32 gid with
          | Some gid => Ok gid
          | None => Err (wrap ("parse gid for fuse group " +:+ quote groupName) (numError gid))
          end
      end
  end.
Fixpoint resolve_gids (parts : list string) (gids : list Z) : result goError (list Z) :=
  match parts with
  | [] => Ok gids
  | part :: parts =>
      let groupName := trim_space part in
      if decide (groupName = "") then resolve_gids parts gids
      else
        gid ← group_gid groupName;
        resolve_gids parts (if decide (gid ∈ gids) then gids else gids ++ [gid])
  end.
Definition resolveFuseGroupGIDs (name : string) : result goError (list Z) :=
  if decide (name = "") then Ok [] else resolve_gids (split_on "," name) [].
End groups.

Definition stream_config (cfg : AppConfig) : StreamConfig.Config :=
  {| ChunkSize := cf_StreamChunkSize cfg; ForwardGap := 0; SeekThreshold := 0; Workers := cf_StreamWorkers cfg;
     LowWatermark := cf_StreamLowWatermark cfg; TargetBuffer := cf_StreamTargetBuffer cfg;
     BackBuffer := cf_StreamBackBuffer cfg; MemoryCache := cf_StreamMemoryCache cfg;
     DiskCache := cf_StreamDiskCache cfg; CachePath := cf_StreamCachePath cfg; Hedge := cf_StreamHedge cfg;
     Diagnostics := cf_FuseTraceReads cfg; HedgeMinDelay := 0; HedgeMaxDelay := 0;
     SessionWorkers := cf_StreamWorkers cfg -! 2; IdleReclaim := 0 |}.
Definition oauth_config (cfg : AppConfig) : OAuthConfig :=
  mkOAuthConfig (cf_ClientID cfg) (cf_ClientSecret cfg) (cf_RedirectURI cfg) (cf_OAuthScope cfg) (cf_OAuthState cfg)
    (cf_TokenBaseURL cfg) (cf_AuthorizeBaseURL cfg).

(** ** [New]

    The directories, the metadata store, the groups, the stream manager.  The
    result has what the application is made of. *)
Record App := mkApp {
  app_cfg : AppConfig; app_gids : list Z; app_stream : StreamConfig.Config; app_oauth : OAuthServer
}.
(** [MkdirAll] of a directory, and [stream.NewManager]'s own preparation of the
    cache directory. *)
Class Directories := { MkdirAll : string → option goError; cache_ready : StreamConfig.Config → option goError }.
(** [filepath.Dir] *)
Definition Dir (p : string) : string := Clean (str_to p (Z.to_nat (last_index_byte p slash + 1))).

Section new.
Context `{!Groups} `{!Directories}.
Definition mkdir (p : string) : sqlM unit := match MkdirAll p with Some e => fail e | None => mret tt end.
Definition lift {A} (r : result goError A) : sqlM A := match r with Ok a => mret a | Err e => fail e end.
Definition migrate : sqlM unit := exec (λ db, db).
Definition manager_settings (cfg : StreamConfig.Config) : result goError StreamConfig.Config :=
  match normalize cfg with
  | None => Err (errors_New "stream cache limits must be non-negative")
  | Some cfg => match cache_ready cfg with Some e => Err e | None => Ok cfg end
  end.
Definition New (cfg : AppConfig) (now later : Z) (randomState : string) : sqlM App :=
  cfg ← lift (validate cfg);
  _ ← mkdir (cf_MountPath cfg);
  _ ← mkdir (Dir (cf_MetaDBPath cfg));
  _ ← mkdir (Dir (cf_TokenPath cfg));
  _ ← migrate;
  _ ← EnsureRoot now later;
  _ ← ExpirePath "/";
  _ ← ExpirePath (cf_RemoteRootPath cfg);
  gids ← lift (resolveFuseGroupGIDs (cf_FuseGroupName cfg));
  settings ← lift (manager_settings (stream_config cfg));
  mret (mkApp cfg gids settings (NewOAuthServer (oauth_config cfg) randomState)).
End new.

(** [mountAndWait]'s file system for an application. *)
Definition app_filesystem (a : App) : Filesystem :=
  {| ttl := minute; primaryGID := first_gid (app_gids a); gids := list_to_set (app_gids a);
     rootPath := cf_RemoteRootPath (app_cfg a); hasRemote := true;
     enableDelete := cf_EnableDelete (app_cfg a); traceReads := cf_FuseTraceReads (app_cfg a) |}.
