(* ===== verification/AppProps.v ===== *)
(** * What the application starts with

    Settings from any environment are sound, and a mount that [New] prepared
    has a root inside the drive, valid groups and stale directories. *)
From Stdlib Require Import Ascii.
From S2P Require Import Prelude GoStrings GoErrors GoMonads GoPath GoSort StreamConfig BaiduClient MetaStore MetaStoreInv MetaStoreSpec NegativeCache Filesystem FilesystemInv FilesystemDemo RemotePaths OAuth AppConfig.

(** ** Settings *)
Lemma parse_number_ok ok value fallback :
  (ok fallback = true → ok (parse_number ok value fallback) = true) ∧
  (in64 fallback → in64 (parse_number ok value fallback)) ∧
  (∀ n, parse_int64 value = Some n → ok n = true → parse_number ok value fallback = n).
Proof.
  unfold parse_number. destruct (decide (value = "")) as [->|Hv].
  { split_and!; [done|done|]. intros n Hn. by vm_compute in Hn. }
  destruct (parse_int64 value) as [n|] eqn:Hn; [|split_and!; done].
  split_and!.
  - by destruct (ok n) eqn:Hok.
  - intros Hf. destruct (ok n); [by eapply parse_int64_in64|done].
  - by intros m [= <-] ->.
Qed.
Lemma parse_positive value fallback : 0 < fallback → 0 < parse_number (λ n, bool_decide (0 < n)) value fallback.
Proof.
  intros Hf. destruct (parse_number_ok (λ n, bool_decide (0 < n)) value fallback) as [H _].
  rewrite bool_decide_true in H by done. specialize (H eq_refl). by apply bool_decide_eq_true in H.
Qed.
Lemma parse_nonneg value fallback : 0 ≤ fallback → 0 ≤ parse_number (λ n, bool_decide (0 ≤ n)) value fallback.
Proof.
  intros Hf. destruct (parse_number_ok (λ n, bool_decide (0 ≤ n)) value fallback) as [H _].
  rewrite bool_decide_true in H by done. specialize (H eq_refl). by apply bool_decide_eq_true in H.
Qed.

(** The settings of a stream manager that come from the configuration. *)
Definition given_settings (c : StreamConfig.Config) : list Z :=
  [ChunkSize c; Workers c; LowWatermark c; BackBuffer c; MemoryCache c; DiskCache c].
Lemma normalize_given c :
  0 < ChunkSize c → 0 < Workers c → 0 < LowWatermark c → 0 < BackBuffer c → 0 ≤ MemoryCache c → 0 ≤ DiskCache c →
  ∃ c', normalize c = Some c' ∧ given_settings c' = given_settings c ∧
    (LowWatermark c ≤ TargetBuffer c → TargetBuffer c' = TargetBuffer c).
Proof.
  intros H1 H2 H3 H4 H5 H6. destruct c as [chunk gap seek workers low target back memory disk].
  cbn in H1, H2, H3, H4, H5, H6. unfold normalize, given_settings, orElse. cbn.
  rewrite (bool_decide_false (chunk ≤ 0)), (bool_decide_false (workers ≤ 0)), (bool_decide_false (low ≤ 0)),
    (bool_decide_false (back ≤ 0)) by lia. rewrite decide_False by lia.
  eexists. split; [done|]. cbn. split; [done|]. intros Hl. by rewrite bool_decide_false by lia.
Qed.

(** Whatever the environment holds, the numbers read from it are [int64]s of
    the sign the program needs, a variable that holds such a number is taken as
    it is, and the stream manager accepts the settings and keeps them. *)
Theorem environment_settings_valid env :
  let cfg := Load env in
  Forall in64 [cf_DownloadConcurrency cfg; cf_DownloadChunkSize cfg; cf_StreamTargetBuffer cfg] ∧
  0 < cf_DownloadConcurrency cfg ∧ 0 < cf_DownloadChunkSize cfg ∧
  (∀ n, parse_int64 (env "STREAM_CHUNK_SIZE") = Some n → 0 < n → cf_StreamChunkSize cfg = n) ∧
  (∀ n, parse_int64 (env "STREAM_DISK_CACHE") = Some n → 0 ≤ n → cf_StreamDiskCache cfg = n) ∧
  ∃ s, normalize (stream_config cfg) = Some s ∧ config_ok s ∧
    given_settings s = [cf_StreamChunkSize cfg; cf_StreamWorkers cfg; cf_StreamLowWatermark cfg;
                        cf_StreamBackBuffer cfg; cf_StreamMemoryCache cfg; cf_StreamDiskCache cfg].
Proof.
  cbv zeta. cbn [Load cf_DownloadConcurrency cf_DownloadChunkSize cf_StreamChunkSize cf_StreamDiskCache cf_StreamTargetBuffer].
  split_and!.
  - repeat constructor; (apply parse_number_ok; done).
  - by apply parse_positive.
  - by apply parse_positive.
  - intros n Hn H0. apply (parse_number_ok (λ n, bool_decide (0 < n))); [done|by apply bool_decide_eq_true].
  - intros n Hn H0. apply (parse_number_ok (λ n, bool_decide (0 ≤ n))); [done|by apply bool_decide_eq_true].
  - destruct (normalize_given (stream_config (Load env))) as (s & Hs & Hg & _);
      [by apply parse_positive..|by apply Z.lt_le_incl, parse_positive|by apply parse_nonneg|].
    exists s. split; [done|]. split; [by eapply normalize_ok|by rewrite Hg].
Qed.

(** ** Groups *)
Section groups.
Context `{!Groups}.
Definition gids_ok (gids : list Z) : Prop := NoDup gids ∧ Forall (λ g, 0 ≤ g < 2 ^ 32) gids.
Lemma parse_uint32_range s n : parse_uint32 s = Some n → 0 ≤ n < 2 ^ 32.
Proof.
  unfold parse_uint32. destruct (parse_uint s) as [m|] eqn:Hm; cbn; [|done]. case_decide; [|done]. intros [= <-].
  split; [|done]. destruct s as [|c s]; [done|]. by eapply (parse_digits_nonneg _ 0).
Qed.
Lemma group_gid_range name gid : group_gid name = Ok gid → 0 ≤ gid < 2 ^ 32.
Proof.
  unfold group_gid. destruct (parse_uint32 name) as [n|] eqn:Hn; [intros [= <-]; by eapply parse_uint32_range|].
  destruct (LookupGroup name) as [g|e]; [|done].
  destruct (parse_uint32 g) as [n|] eqn:Hg; [|done]. intros [= <-]. by eapply parse_uint32_range.
Qed.
Lemma resolve_gids_ok parts acc gids : gids_ok acc → resolve_gids parts acc = Ok gids → gids_ok gids.
Proof.
  revert acc. induction parts as [|part parts IH]; intros acc Hacc; cbn [resolve_gids]; [by intros [= <-]|].
  case_decide; [by apply IH|]. intros (gid & Hg & Hr)%result_bind_ok. revert Hr. apply IH.
  case_decide; [done|]. destruct Hacc as [Hnd Hall]. apply group_gid_range in Hg. split.
  - apply NoDup_app. split; [done|]. split; [set_solver|apply NoDup_singleton].
  - apply Forall_app. split; [done|]. by constructor.
Qed.
Lemma resolve_groups_ok name gids : resolveFuseGroupGIDs name = Ok gids → gids_ok gids.
Proof.
  assert (gids_ok []) as H0 by (split; constructor).
  unfold resolveFuseGroupGIDs. case_decide; [by intros [= <-]|]. by apply resolve_gids_ok.
Qed.
End groups.

(** ** The metadata of a fresh start *)
Definition expired (path : string) (db : DB) : Prop := ∀ e, e ∈ db_rows db → en_Path e = path → en_ExpiresAt e = 0.
Lemma exec_Ok change db u db' :
  exec change db = (Ok u, db') → ∃ faults, db' = change (db <| db_faults := faults |>).
Proof.
  unfold exec, statement. destruct (db_faults db) as [|[e|] faults]; cbn; [|done|]; intros [= <- <-]; eauto.
Qed.
Lemma ExpirePath_expires path db u db' :
  ExpirePath path db = (Ok u, db') → expired path db' ∧ ∀ p, expired p db → expired p db'.
Proof.
  intros (faults & ->)%exec_Ok. unfold expired. cbn. split.
  - intros e (r & -> & Hr)%list_elem_of_fmap. case_decide as Hp; [done|]. by intros Heq.
  - intros p Hp e (r & -> & Hr)%list_elem_of_fmap. case_decide; [done|]. by apply Hp.
Qed.

(** A root whose row has expired, or has no row, is refreshed. *)
Lemma expired_refreshes {S} `{!Drive S} (a : App) (w : World S) :
  expired (cf_RemoteRootPath (app_cfg a)) (w_db w) →
  (shouldRefresh (app_filesystem a) (cf_RemoteRootPath (app_cfg a)) w).1 = true.
Proof.
  intros Hx. unfold shouldRefresh. cbn [app_filesystem hasRemote negb ttl rootPath].
  rewrite decide_False by (unfold minute; lia).
  set (p := cf_RemoteRootPath (app_cfg a)) in *.
  assert ((if decide (p = "") then p else p) = p) as -> by (by case_decide).
  unfold mbind, stateM_bind, call_store, GetByPath, query, statement.
  assert (∀ l, (∀ e, e ∈ l → en_ExpiresAt e = 0) → (match head l with
    | Some e => if decide (en_ExpiresAt e = 0) then true else false | None => true end) = true) as Hl.
  { intros [|e l] He; [done|]. cbn. by rewrite decide_True by (by apply He; left). }
  assert (∀ e, e ∈ with_path p (db_rows (w_db w)) → en_ExpiresAt e = 0) as Hall.
  { intros e [Hp Hin]%list_elem_of_filter. by apply Hx. }
  specialize (Hl _ Hall).
  destruct (db_faults (w_db w)) as [|[e|] faults]; [|done|]; cbn;
    (destruct (head _) as [e|]; [|done]; by case_decide).
Qed.

Section new.
Context `{!Groups} `{!Directories}.
Lemma lift_Ok {A} (r : result goError A) db a db' : lift r db = (Ok a, db') → r = Ok a ∧ db' = db.
Proof. destruct r; [|done]. by intros [= <- <-]. Qed.
Lemma manager_settings_ok c s : manager_settings c = Ok s → config_ok s.
Proof.
  unfold manager_settings. destruct (normalize c) as [c'|] eqn:Hc; [|done].
  destruct (cache_ready c'); [done|]. intros [= <-]. by eapply normalize_ok.
Qed.
Lemma validate_root cfg cfg' :
  validate cfg = Ok cfg' → ∃ es, Forall plain es ∧ cf_RemoteRootPath cfg' = abs_path es.
Proof.
  unfold validate. intros Hn. repeat (apply result_bind_ok in Hn as (? & _ & Hn)). injection Hn as <-.
  apply normalize_abs.
Qed.

(** C23: An application that [New] returns has a rooted, clean remote path, group
    ids without repetition that fit 32 bits, stream settings the manager relies
    on, and no unexpired row for its root: whatever the database kept, the first
    listing of the mount asks the drive. *)
Theorem new_application_ready {S} `{!Drive S} cfg now later random db a db' :
  New cfg now later random db = (Ok a, db') →
  (∃ es, Forall plain es ∧ cf_RemoteRootPath (app_cfg a) = abs_path es) ∧
  gids_ok (app_gids a) ∧ config_ok (app_stream a) ∧
  expired "/" db' ∧
  ∀ (w : World S), w_db w = db' → (shouldRefresh (app_filesystem a) (cf_RemoteRootPath (app_cfg a)) w).1 = true.
Proof.
  intros Hn. unfold New in Hn. apply errorM_bind_Ok in Hn as (cfg' & db0 & [Hv ->]%lift_Ok & Hn).
  do 5 (apply errorM_bind_Ok in Hn as (? & ? & _ & Hn)).
  apply errorM_bind_Ok in Hn as (? & db1 & [E1 _]%ExpirePath_expires & Hn).
  apply errorM_bind_Ok in Hn as (? & db2 & [E2 K2]%ExpirePath_expires & Hn).
  apply errorM_bind_Ok in Hn as (gids & ? & [Hg ->]%lift_Ok & Hn).
  apply errorM_bind_Ok in Hn as (settings & ? & [Hs ->]%lift_Ok & Hn). injection Hn as <- <-. cbn [app_cfg app_gids app_stream].
  split_and!.
  - by eapply validate_root.
  - by eapply resolve_groups_ok.
  - by eapply manager_settings_ok.
  - by apply K2.
  - intros w Hw. apply expired_refreshes. by rewrite Hw.
Qed.
End new.

(** ** An example *)
Definition demoEnv (name : string) : string :=
  if decide (name = "MOUNT_PATH") then "/mnt/baidu" else if decide (name = "TOKEN_PATH") then "/var/token.json"
  else if decide (name = "META_DB_PATH") then "/var/meta.db" else if decide (name = "CLIENT_ID") then "id"
  else if decide (name = "REDIRECT_URI") then "http://127.0.0.1:8765/callback"
  else if decide (name = "FUSE_GROUP_NAME") then "100, media,100" else "".
#[local] Instance demoGroups : Groups := λ name, if decide (name = "media") then Ok "44" else Err (errors_New "unknown group").
#[local] Instance demoDirectories : Directories := {| MkdirAll := λ _, None; cache_ready := λ _, None |}.
Definition demoNew : result goError App * DB := New (Load demoEnv) (1000 * 10 ^ 9) (1000 * 10 ^ 9) "r" newDB.
Definition demoApp : App :=
  match demoNew.1 with Ok a => a | Err _ => mkApp (Load demoEnv) [] DefaultConfig (NewOAuthServer (oauth_config (Load demoEnv)) "") end.
Definition demoDB : DB := demoNew.2.
Lemma demoNew_ok : New (Load demoEnv) (1000 * 10 ^ 9) (1000 * 10 ^ 9) "r" newDB = (Ok demoApp, demoDB).
Proof. vm_compute. reflexivity. Qed.
Lemma demoApp_gids : app_gids demoApp = [100; 44].
Proof. vm_compute. reflexivity. Qed.
Lemma new_application_ready_witness : gids_ok (app_gids demoApp) ∧ app_gids demoApp = [100; 44] ∧ expired "/" demoDB.
Proof.
  pose proof (new_application_ready (S := unit) (Load demoEnv) (1000 * 10 ^ 9) (1000 * 10 ^ 9) "r" newDB demoApp demoDB
    demoNew_ok) as H.
  destruct H as (_ & H1 & _ & H2 & _). split; [exact H1|split; [exact demoApp_gids|exact H2]].
Defined.
