(* ===== verification/AppRun.v ===== *)
(** * The life of the application ([src/internal/app/app.go])

    [run]: bind the remote client with the stored token and mount, or log in
    first; and the protocol by which the goroutines that end a mount unmount it.
    What the remote client itself does when its token is refreshed belongs to
    [BaiduClient]. *)
From Stdlib Require Import Ascii.
From S2P Require Import Prelude GoStrings GoErrors GoMonads GoPath GoSort StreamConfig MetaStore NegativeCache Filesystem RemotePaths GoUrl TokenStore OAuth AppConfig.

(** What is mounted: the client's token, the files, and the metadata. *)
Record Mount (S : Type) := mkMount { mt_client : option Token; mt_files : files; mt_world : World S }.
Arguments mkMount {S} _ _ _.
Arguments mt_client {S} _.
Arguments mt_files {S} _.
Arguments mt_world {S} _.
Record AppState (S : Type) := mkAppState {
  as_disk : Disk; as_world : World S; as_client : option Token; as_mounts : list (Mount S)
}.
Arguments mkAppState {S} _ _ _ _.
Arguments as_disk {S} _.
Arguments as_world {S} _.
Arguments as_client {S} _.
Arguments as_mounts {S} _.
#[export] Instance AppState_eta {S} : Eta (AppState S) := λ a,
  mkAppState (as_disk a) (as_world a) (as_client a) (as_mounts a).

(** The surroundings of [run]: [os.Stat] of the mount path when it fails with
    something else than a missing file; the login server's [Start], the outcome
    of its [Wait] ([None] when the context ends first) and [Shutdown]; the mount
    and its end; the reader's [SetClient]; and the port of an address. *)
Class Surroundings (S : Type) := {
  Stat_error : option goError;
  Start : string → option goError;
  Wait_outcome : option (result goError string);
  Shutdown_error : option goError;
  mount_error : option goError;
  SetClient : Token → S → S;
  url_Port : string → result goError string
}.

Section run.
Context {S : Type} `{!Drive S} `{!NameOrder Entry en_Name} `{!TokenCodec} `{!TempNames} `{!UrlParser}
  `{!TokenService Disk} `{!Surroundings S}.
Context (a : App).
Abbreviation appM := (stateM (AppState S)).
Abbreviation cfg := (app_cfg a).
#[local] Instance token_file : TokenStore Disk := FileStore (cf_TokenPath cfg).

Definition on_disk {A} (m : diskM A) : appM (result goError A) := λ s,
  let '(r, d) := m (as_disk s) in (r, s <| as_disk := d |>).
Definition on_world {A} (m : stateM (World S) A) : appM A := λ s,
  let '(r, w) := m (as_world s) in (r, s <| as_world := w |>).

Definition bindRemoteClient : appM (option goError) :=
  token ← on_disk LoadToken;
  match token with
  | Err e => mret (Some e)
  | Ok token =>
      modify (λ s, s <| as_client := Some token |> <| as_world ::= λ w, w <| w_remote ::= SetClient token |> |>);;
      mret None
  end.
Definition remoteHealthCheck : appM (option goError) :=
  listed ← on_world (remote_List (cf_RemoteRootPath cfg));
  mret (match listed with Err e => Some e | Ok _ => None end).
Definition mountAndWait : appM (option goError) :=
  preload ← on_world (RefreshRootOnly (app_filesystem a));
  match preload with
  | Some e => mret (Some (wrap "preload mount root" e))
  | None =>
      match mount_error with
      | Some e => mret (Some e)
      | None =>
          modify (λ s, s <| as_mounts ::= λ l, l ++ [mkMount (as_client s) (dk_files (as_disk s)) (as_world s)] |>);;
          mret None
      end
  end.
Definition oauthListenAddr : result goError string :=
  if decide (cf_OAuthListenAddr cfg ≠ "") then Ok (cf_OAuthListenAddr cfg)
  else
    port ← url_Port (cf_RedirectURI cfg);
    Ok ("0.0.0.0:" +:+ (if decide (port = "") then "8765" else port)).
(** The rest of [run], from [AuthorizeURL] on. *)
Definition login (ctx_err : goError) : appM (option goError) :=
  match AuthorizeURL (app_oauth a), oauthListenAddr with
  | Err e, _ => mret (Some e)
  | _, Err e => mret (Some e)
  | Ok _, Ok addr =>
      match Start addr, Wait_outcome with
      | Some e, _ => mret (Some e)
      | _, None => mret (Some ctx_err)
      | _, Some (Err e) => mret (Some e)
      | None, Some (Ok code) =>
          match Shutdown_error with
          | Some e => mret (Some e)
          | None =>
              saved ← on_disk (saveOAuthToken (oauth_config cfg) code);
              match saved with
              | Err e => mret (Some e)
              | Ok _ =>
                  bound ← bindRemoteClient;
                  match bound with Some e => mret (Some e) | None => mountAndWait end
              end
          end
      end
  end.
Definition run (ctx_err : goError) : appM (option goError) :=
  match Stat_error with
  | Some e => mret (Some e)
  | None =>
      bound ← bindRemoteClient;
      match bound with
      | None =>
          health ← remoteHealthCheck;
          match health with None => mountAndWait | Some _ => login ctx_err end
      | Some _ => login ctx_err
      end
  end.
End run.

(** ** Ending a mount

    [a.server] under [a.mu], the goroutines past the check of [unmountServer]
    with the server they are to unmount, and the calls of [Unmount] made.
    Whoever calls [unmountServer] - the watcher of the context, [mountAndWait]
    after [Wait], [Close] - has a server that was mounted. *)
Record Servers := mkServers { sv_current : option nat; sv_pending : list nat; sv_unmounted : list nat; sv_mounted : list nat }.
#[export] Instance Servers_eta : Eta Servers := λ s,
  mkServers (sv_current s) (sv_pending s) (sv_unmounted s) (sv_mounted s).
Inductive server_step : Servers → Servers → Prop :=
| server_mounted s id :
    sv_current s = None → id ∉ sv_mounted s →
    server_step s (s <| sv_current := Some id |> <| sv_mounted ::= cons id |>)
| unmount_other s id :
    id ∈ sv_mounted s → sv_current s ≠ Some id → server_step s s
| unmount_take s id :
    sv_current s = Some id → server_step s (s <| sv_current := None |> <| sv_pending ::= cons id |>)
| unmount_call s l1 id l2 :
    sv_pending s = l1 ++ id :: l2 →
    server_step s (s <| sv_pending := l1 ++ l2 |> <| sv_unmounted ::= cons id |>).
Definition no_servers : Servers := mkServers None [] [] [].
