(* ===== verification/AppRunProps.v ===== *)
(** * What a run promises

    Nothing is mounted before the drive has answered with the stored token, and
    what is mounted is unmounted once. *)
From Stdlib Require Import Ascii.
From S2P Require Import Prelude GoStrings GoErrors GoMonads GoPath GoSort StreamConfig BaiduClient MetaStore MetaStoreInv MetaStoreSpec NegativeCache Filesystem FilesystemInv FilesystemDemo RemotePaths GoUrl TokenStore OAuth AppConfig AppProps AppRun.

Section run.
Context {S : Type} `{!Drive S} `{!NameOrder Entry en_Name} `{!TokenCodec} `{!TempNames} `{!UrlParser}
  `{!TokenService Disk} `{!Surroundings S}.
Context (a : App).
Abbreviation path := (cf_TokenPath (app_cfg a)).
Implicit Types (s : AppState S) (r : option goError).

(** The client has the token that the token file holds. *)
Definition client_ready (client : option Token) (f : files) : Prop :=
  ∃ t n, client = Some t ∧ f !! path = Some n ∧ token_Unmarshal (nd_data n) = Ok t.
Definition mount_ready (m : Mount S) : Prop :=
  client_ready (mt_client m) (mt_files m) ∧ ∃ w, RefreshRootOnly (app_filesystem a) w = (None, mt_world m).

Lemma LoadToken_reads d t d' :
  LoadToken (TokenStore0 := FileStore path) d = (Ok t, d') →
  ∃ n, dk_files d' !! path = Some n ∧ token_Unmarshal (nd_data n) = Ok t.
Proof.
  intros (data & d1 & Hl & Hu)%errorM_bind_Ok. cbn [store_Load FileStore] in Hl.
  apply errorM_bind_Ok in Hl as (? & d2 & _ & Hc). unfold contents in Hc.
  destruct (dk_files d2 !! path) as [n|] eqn:Hn; [|done]. injection Hc as <- <-.
  destruct (token_Unmarshal (nd_data n)) as [t'|] eqn:Ht; [|done]. injection Hu as <- <-. by exists n.
Qed.
Lemma bindRemoteClient_ready s r s' :
  bindRemoteClient a s = (r, s') →
  as_mounts s' = as_mounts s ∧ (r = None → client_ready (as_client s') (dk_files (as_disk s'))).
Proof.
  unfold bindRemoteClient, on_disk, mbind, stateM_bind.
  destruct (LoadToken (as_disk s)) as [[t|e] d] eqn:Hl; intros [= <- <-]; cbn; split; try done.
  intros _. apply LoadToken_reads in Hl as (n & Hn & Ht). by exists t, n.
Qed.
Lemma remoteHealthCheck_keeps s r s' :
  remoteHealthCheck a s = (r, s') →
  as_mounts s' = as_mounts s ∧ as_client s' = as_client s ∧ as_disk s' = as_disk s.
Proof.
  unfold remoteHealthCheck, on_world, mbind, stateM_bind.
  destruct (remote_List _ (as_world s)) as [l w]. by intros [= <- <-].
Qed.

(** What [run] did with the mounts: one, ready, and no error; or none. *)
Definition mounted_ready s r s' : Prop :=
  match r with
  | None => ∃ m, as_mounts s' = as_mounts s ++ [m] ∧ mount_ready m
  | Some _ => as_mounts s' = as_mounts s
  end.
Lemma mountAndWait_ready s r s' :
  client_ready (as_client s) (dk_files (as_disk s)) → mountAndWait a s = (r, s') → mounted_ready s r s'.
Proof.
  intros Hc. unfold mountAndWait, on_world, mbind, stateM_bind.
  destruct (RefreshRootOnly (app_filesystem a) (as_world s)) as [[e|] w] eqn:Hw; [by intros [= <- <-]|].
  destruct mount_error as [e|]; intros [= <- <-]; [done|]. eexists. split; [done|]. split; [done|]. by exists (as_world s).
Qed.
Lemma mounted_ready_from s0 s r s' : as_mounts s = as_mounts s0 → mounted_ready s r s' → mounted_ready s0 r s'.
Proof. unfold mounted_ready. by intros ->. Qed.

Lemma login_ready e s r s' : login a e s = (r, s') → mounted_ready s r s'.
Proof.
  unfold login. destruct (AuthorizeURL _); [|by intros [= <- <-]]. destruct (oauthListenAddr a) as [addr|]; [|by intros [= <- <-]].
  destruct (Start addr); [by intros [= <- <-]|]. destruct Wait_outcome as [[code|]|]; [|by intros [= <- <-]..].
  destruct Shutdown_error; [by intros [= <- <-]|]. unfold mbind at 1, stateM_bind at 1, on_disk.
  destruct (saveOAuthToken _ code (as_disk s)) as [[u|e'] d]; [|by intros [= <- <-]].
  unfold mbind, stateM_bind. destruct (bindRemoteClient a _) as [[e2|] s2] eqn:Hb; apply bindRemoteClient_ready in Hb as [Hm Hr].
  - by intros [= <- <-].
  - intros Hw. apply (mounted_ready_from s s2); [done|]. by eapply mountAndWait_ready; [apply Hr|].
Qed.

(** C22: A run mounts at most once, and only when the remote client carries the
    token that the token file holds and the root has just been listed from the
    drive; it ends without an error exactly when it mounted. *)
Theorem run_mounts_ready ctx_err s r s' :
  as_mounts s = [] → run a ctx_err s = (r, s') →
  match r with
  | None => ∃ m, as_mounts s' = [m] ∧ mount_ready m
  | Some _ => as_mounts s' = []
  end.
Proof.
  intros Hnone Hrun. assert (mounted_ready s r s') as Hr.
  { revert Hrun. unfold run. destruct Stat_error; [by intros [= <- <-]|]. unfold mbind, stateM_bind.
    destruct (bindRemoteClient a s) as [[e|] s1] eqn:Hb; apply bindRemoteClient_ready in Hb as [Hm1 Hr1].
    - intros Hl. eapply mounted_ready_from; [exact Hm1|]. by eapply login_ready.
    - destruct (remoteHealthCheck a s1) as [[e|] s2] eqn:Hh; apply remoteHealthCheck_keeps in Hh as (Hm2 & Hc & Hd);
        intros Hl; apply (mounted_ready_from s s2); [congruence| |congruence|].
      + by eapply login_ready.
      + eapply mountAndWait_ready; [|done]. rewrite Hc, Hd. by apply Hr1. }
  unfold mounted_ready in Hr. rewrite Hnone in Hr. done.
Qed.
End run.

(** ** Unmounting *)
Definition servers_ok (s : Servers) : Prop :=
  NoDup (sv_mounted s) ∧ sv_mounted s ≡ₚ sv_unmounted s ++ sv_pending s ++ option_list (sv_current s).
Lemma server_step_ok s s' : server_step s s' → servers_ok s → servers_ok s'.
Proof.
  intros Hs [Hnd Hp]. destruct Hs as [s id Hc Hid|s id Hid Hc|s id Hc|s l1 id l2 Hl]; unfold servers_ok; cbn.
  - split; [by constructor|]. rewrite Hp, Hc. cbn. rewrite app_nil_r. solve_Permutation.
  - done.
  - split; [done|]. rewrite Hp, Hc. cbn. rewrite app_nil_r. solve_Permutation.
  - split; [done|]. rewrite Hp, Hl. solve_Permutation.
Qed.

(** However the goroutines that end a mount interleave, every server that was
    mounted is unmounted once: it has been, some goroutine is about to, or it is
    still the current one. *)
Theorem unmounted_once s :
  rtc server_step no_servers s →
  NoDup (sv_unmounted s) ∧
  ∀ id, id ∈ sv_mounted s ↔ id ∈ sv_unmounted s ∨ id ∈ sv_pending s ∨ sv_current s = Some id.
Proof.
  intros Hs. assert (servers_ok s) as [Hnd Hp].
  { assert (servers_ok no_servers) as H0 by (split; [constructor|done]). revert H0.
    induction Hs as [|s s1 s2 Hstep _ IH]; [done|]. intros H0. apply IH. by eapply server_step_ok. }
  split; [rewrite Hp in Hnd; by apply NoDup_app in Hnd as (? & _ & _)|].
  intros id. rewrite Hp, !elem_of_app. destruct (sv_current s); cbn; set_solver.
Qed.

(** ** Examples *)
#[local] Instance demoCodec : TokenCodec :=
  {| token_Marshal := λ t, Ok (String.list_byte_of_string (AccessToken t));
     token_Unmarshal := λ b, Ok (mkToken (String.string_of_list_byte b) "refresh") |}.
#[local] Instance demoUrls : UrlParser :=
  {| url_parse := λ raw, Ok (raw, ""); url_string := λ address query, address +:+ "?" +:+ query |}.
#[local] Instance demoService : TokenService Disk :=
  {| http_Get := λ _ s, (Err (errors_New "offline"), s); decode_response := λ _, Err (errors_New "") |}.
#[local] Instance demoSurroundings : Surroundings unit :=
  {| Stat_error := None; Start := λ _, None; Wait_outcome := None; Shutdown_error := None; mount_error := None;
     SetClient := λ _ s, s; url_Port := λ _, Ok "8765" |}.
Definition demoState : AppState unit :=
  mkAppState (mkDisk {["/var/token.json" := mkNode [Byte.x61] private true]} []) demoWorld None [].
Lemma demoRun_mounts : (run demoApp (sentinel_err CtxCanceled) demoState).1 = None.
Proof. vm_compute. reflexivity. Qed.
Lemma run_mounts_ready_witness :
  ∃ m, as_mounts (run demoApp (sentinel_err CtxCanceled) demoState).2 = [m] ∧ mount_ready demoApp m.
Proof.
  pose proof demoRun_mounts as E. destruct (run demoApp (sentinel_err CtxCanceled) demoState) as [r s'] eqn:Er.
  cbn [fst snd] in E |- *. subst r. exact (run_mounts_ready demoApp (sentinel_err CtxCanceled) demoState None s' eq_refl Er).
Defined.
Lemma demo_unmounted : rtc server_step no_servers (mkServers None [] [7%nat] [7%nat]).
Proof.
  eapply rtc_l; [apply (server_mounted no_servers 7); [done|set_solver]|].
  eapply rtc_l; [by apply (unmount_take (mkServers (Some 7%nat) [] [] [7%nat]) 7)|].
  eapply rtc_l; [by apply (unmount_call (mkServers None [7%nat] [] [7%nat]) [] 7 [])|]. apply rtc_refl.
Qed.
Lemma unmounted_once_witness : NoDup [7%nat] ∧ (7%nat ∈ [7%nat] ↔ 7%nat ∈ [7%nat] ∨ 7%nat ∈ @nil nat ∨ @None nat = Some 7%nat).
Proof.
  destruct (unmounted_once (mkServers None [] [7%nat] [7%nat]) demo_unmounted) as [H1 H2]. split; [exact H1|exact (H2 7%nat)].
Defined.
