(* ===== verification/DirectDownload.v ===== *)
(** * The direct download benchmark ([src/internal/app/download_bench.go])

    Ranged requests against a download URL, their retries, and the workers that
    share the chunks of the file.  The HTTP client is a parameter; times and
    throughput are left out. *)
From Stdlib Require Import Ascii.
From S2P Require Import Prelude GoStrings GoErrors GoMonads GoSort.

(** ** Options *)
Record DirectDownloadBenchOptions := mkOptions {
  op_URL : string; op_Cookie : string; op_Bytes : Z; op_Connections : Z; op_ChunkSize : Z;
  op_HTTPVersion : string; op_Timeout : Z; op_Retries : Z
}.
#[export] Instance options_eta : Eta DirectDownloadBenchOptions := λ o,
  mkOptions (op_URL o) (op_Cookie o) (op_Bytes o) (op_Connections o) (op_ChunkSize o) (op_HTTPVersion o)
    (op_Timeout o) (op_Retries o).
Definition DirectDownloadDefaultBytes : Z := 256 * 2 ^ 20.
Definition DirectDownloadDefaultConnections : Z := 8.
Definition DirectDownloadDefaultChunkSize : Z := 2 ^ 20.
Definition DirectDownloadDefaultTimeout : Z := 600 * 10 ^ 9.
Definition or_default (d v : Z) : Z := if decide (v = 0) then d else v.

(** [url.ParseRequestURI]: scheme and host. *)
Class RequestURIs := ParseRequestURI : string → option (string * string).
Definition valid_url `{!RequestURIs} (url : string) : bool :=
  match ParseRequestURI url with
  | Some (scheme, host) => bool_decide (host ≠ "" ∧ (scheme = "http" ∨ scheme = "https"))
  | None => false
  end.
Definition normalizeDirectDownloadOptions `{!RequestURIs} (o : DirectDownloadBenchOptions)
    : result goError DirectDownloadBenchOptions :=
  let o := o <| op_URL ::= trim_space |> <| op_Cookie ::= trim_space |>
             <| op_Bytes ::= or_default DirectDownloadDefaultBytes |>
             <| op_Connections ::= or_default DirectDownloadDefaultConnections |>
             <| op_ChunkSize ::= or_default DirectDownloadDefaultChunkSize |>
             <| op_HTTPVersion ::= λ v, if decide (v = "") then "auto" else v |>
             <| op_Timeout ::= or_default DirectDownloadDefaultTimeout |> in
  if decide (op_URL o = "") then Err (errors_New "百度直链不能为空")
  else if negb (valid_url (op_URL o)) then Err (errors_New "百度直链格式无效")
  else if decide (op_Bytes o ≤ 0) then Err (errors_New "测试字节数必须大于 0")
  else if decide (op_Connections o ≤ 0 ∨ 64 < op_Connections o) then Err (errors_New "连接数必须在 1 到 64 之间")
  else if decide (op_ChunkSize o ≤ 0) then Err (errors_New "Range 分块大小必须大于 0")
  else if decide (op_Timeout o ≤ 0) then Err (errors_New "测试超时时间必须大于 0")
  else if decide (op_Retries o < 0 ∨ 10 < op_Retries o) then Err (errors_New "重试次数必须在 0 到 10 之间")
  else if decide (op_HTTPVersion o ∈ ["auto"; "1.1"; "2"]) then Ok o
  else Err (errors_New "HTTP 版本只能是 auto、1.1 或 2").

(** ** One range *)
Definition bad_content_range : goError := errors_New "invalid content range".
(** The error of [strconv.ParseInt]. *)
Definition parseIntError (s : string) : goError :=
  let digits := match s with String "-" r | String "+" r => r | _ => s end in
  errors_New ("strconv.ParseInt: parsing " +:+ quote s +:+ ": " +:+
    match parse_uint digits with Some _ => "value out of range" | None => "invalid syntax" end).
Definition parseDirectContentRange (value : string) : result goError (Z * Z * Z) :=
  if negb (has_prefix value "bytes ") then Err bad_content_range
  else
    match split2 (trim_prefix value "bytes ") "/" with
    | [range; size] =>
        if decide (size = "*") then Err bad_content_range
        else
          match split2 range "-" with
          | [first; last] =>
              match parse_int64 first, parse_int64 last, parse_int64 size with
              | None, _, _ => Err (parseIntError first)
              | Some start, Some end_, Some total =>
                  if decide (end_ < start) then Err bad_content_range
                  else if decide (total ≤ end_) then Err bad_content_range
                  else Ok (start, end_, total)
              | _, _, _ => Err bad_content_range
              end
          | _ => Err bad_content_range
          end
    | _ => Err bad_content_range
    end.

(** What the server sent: the bytes of the body, and the error that ends them
    when it is not [io.EOF]. *)
Record DirectResponse := mkDirectResponse {
  dr_Status : Z; dr_Proto : string; dr_ProtoMajor : Z; dr_ProtoMinor : Z; dr_ContentRange : string;
  dr_ContentLength : Z; dr_Body : bytes; dr_BodyError : option goError; dr_FinalURL : string
}.
Record directDownloadStats := mkStats { st_protocols : gmap string Z; st_rangeRequests : Z; st_retries : Z }.
#[export] Instance stats_eta : Eta directDownloadStats := λ s, mkStats (st_protocols s) (st_rangeRequests s) (st_retries s).
Definition newDirectDownloadStats : directDownloadStats := mkStats ∅ 0 0.
Definition recordProtocol (protocol : string) (s : directDownloadStats) : directDownloadStats :=
  s <| st_protocols ::= λ p, <[protocol := default 0 (p !! protocol) + 1]> p |>.

Record directDownloadError := mkDirectError { de_message : string; de_retryable : bool; de_cause : option goError }.
Definition permanent (message : string) : directDownloadError := mkDirectError message false None.
Definition retryable (message : string) : directDownloadError := mkDirectError message true None.

(** The client: the answer to a request for a URL with a [Cookie] (none when
    empty) and a [Range] header, whether the context is over, and a pause, which
    the end of the context cuts short.  [DirectRedirect] has the client's own
    part, its redirects. *)
Class DirectClient (S : Type) := {
  client_Do : string → string → string → stateM S (result goError DirectResponse);
  ctx_Err : S → option goError;
  pause : Z → stateM S (option goError)
}.

(** [sameDirectDownloadHost] decides whether the cookie is kept; [host_of] is
    [url.Parse] and [Hostname]. *)
Definition sameDirectDownloadHost (host_of : string → option string) (firstURL secondURL : string) : bool :=
  match host_of firstURL, host_of secondURL with
  | Some first, Some second => bool_decide (to_lower first = to_lower second)
  | _, _ => false
  end.

Section range.
Context {S : Type} `{!DirectClient S}.
Abbreviation directM := (stateM (S * directDownloadStats)).
Implicit Types (o : DirectDownloadBenchOptions) (url : string) (offset length : Z).

Definition Do (cookie : string) url (range : string) : directM (result goError DirectResponse) := λ s,
  let '(r, s1) := client_Do cookie url range s.1 in (r, (s1, s.2)).
Definition ctx_error : directM (option goError) := λ s, (ctx_Err s.1, s).
Definition record (change : directDownloadStats → directDownloadStats) : directM unit := λ s, (tt, (s.1, change s.2)).

(** What a response is worth. *)
Definition check_direct o offset length (resp : DirectResponse) : result directDownloadError (Z * string) :=
  if decide (op_HTTPVersion o = "2" ∧ dr_ProtoMajor resp ≠ 2)
  then Err (permanent ("服务端未使用 HTTP/2，实际协议为 " +:+ dr_Proto resp))
  else if decide (op_HTTPVersion o = "1.1" ∧ (dr_ProtoMajor resp ≠ 1 ∨ dr_ProtoMinor resp ≠ 1))
  then Err (permanent ("服务端未使用 HTTP/1.1，实际协议为 " +:+ dr_Proto resp))
  else if decide (dr_Status resp ≠ 206) then
    Err (mkDirectError ("百度直链 Range 请求返回 HTTP " +:+ format_int (dr_Status resp))
           (bool_decide (dr_Status resp = 408 ∨ dr_Status resp = 429 ∨ 500 ≤ dr_Status resp)) None)
  else
    match parseDirectContentRange (dr_ContentRange resp) with
    | Err _ => Err (permanent "百度直链返回了无效的 Content-Range")
    | Ok (rangeStart, rangeEnd, total) =>
        let wantEnd := offset +! length -! 1 in
        if decide (rangeStart ≠ offset ∨ rangeEnd ≠ wantEnd) then
          Err (permanent ("百度直链返回 Range " +:+ format_int rangeStart +:+ "-" +:+ format_int rangeEnd
                          +:+ "，期望 " +:+ format_int offset +:+ "-" +:+ format_int wantEnd))
        else if decide (0 ≤ dr_ContentLength resp ∧ dr_ContentLength resp ≠ length) then
          Err (retryable ("百度直链响应长度为 " +:+ format_int (dr_ContentLength resp) +:+ "，期望 " +:+ format_int length))
        else if decide (zlen (dr_Body resp) < length) then
          Err (retryable ("百度直链响应短读 " +:+ format_int (zlen (dr_Body resp)) +:+ "/" +:+ format_int length +:+ " 字节"))
        else if decide (length < zlen (dr_Body resp)) then
          Err (permanent ("百度直链响应超过声明长度 " +:+ format_int length))
        else
          match dr_BodyError resp with
          | Some _ => Err (retryable "读取百度直链响应结尾失败")
          | None => Ok (total, dr_FinalURL resp)
          end
    end.
Definition range_of offset length : string :=
  "bytes=" +:+ format_int offset +:+ "-" +:+ format_int (offset +! length -! 1).
Definition performDirectRange url o offset length : directM (result directDownloadError (Z * string)) :=
  record (λ s, s <| st_rangeRequests ::= Z.succ |>);;
  answer ← Do (op_Cookie o) url (range_of offset length);
  match answer with
  | Err _ =>
      over ← ctx_error;
      mret (Err (match over with
                 | Some e => mkDirectError "百度直链下载测试超时或已取消" false (Some e)
                 | None => retryable "百度直链网络请求失败"
                 end))
  | Ok resp => record (recordProtocol (dr_Proto resp));; mret (check_direct o offset length resp)
  end.

Definition probeDirectDownload o : directM (result goError (Z * string)) :=
  r ← performDirectRange (op_URL o) o 0 1;
  mret (match r with
        | Err e => Err (errors_New ("百度直链 Range 探测失败: " +:+ de_message e))
        | Ok (total, finalURL) =>
            if decide (total ≤ 0) then Err (errors_New "百度直链未返回有效文件大小") else Ok (total, finalURL)
        end).

(** The loop of the retries; [budget] is how many are left, [attempt] counts. *)
Definition retry_delay (attempt : Z) : Z := Z.min (100 * 10 ^ 6 * 2 ^ attempt) (10 ^ 9).
Fixpoint retry_loop (budget : nat) (attempt : Z) url o offset length : directM (option directDownloadError) :=
  r ← performDirectRange url o offset length;
  match r with
  | Ok _ => mret None
  | Err e =>
      over ← ctx_error;
      match budget with
      | O => mret (Some e)
      | Datatypes.S budget =>
          if negb (de_retryable e) || bool_decide (over ≠ None) then mret (Some e)
          else
            record (λ s, s <| st_retries ::= Z.succ |>);;
            stopped ← (λ s, let '(r, s1) := pause (retry_delay attempt) s.1 in (r, (s1, s.2)));
            match stopped with
            | Some e => mret (Some (mkDirectError ("百度直链下载测试超时或已取消: " +:+ err_text e) false (Some e)))
            | None => retry_loop budget (attempt + 1) url o offset length
            end
      end
  end.
Definition downloadRangeWithRetry url o offset length : directM (option directDownloadError) :=
  retry_loop (Z.to_nat (op_Retries o)) 0 url o offset length.
(** What [BenchmarkDirectDownload] settles before it starts the workers: the
    bytes to read, the URL the probe was led to, and the options, without the
    cookie when that URL is on another host. *)
Definition prepare_bench `{!RequestURIs} (host_of : string → option string) o
    : directM (result goError (Z * string * DirectDownloadBenchOptions)) :=
  match normalizeDirectDownloadOptions o with
  | Err e => mret (Err e)
  | Ok o =>
      probed ← probeDirectDownload o;
      mret (match probed with
            | Err e => Err e
            | Ok (fileSize, finalURL) =>
                Ok (if decide (fileSize < op_Bytes o) then fileSize else op_Bytes o, finalURL,
                    if sameDirectDownloadHost host_of (op_URL o) finalURL then o else o <| op_Cookie := "" |>)
            end)
  end.
End range.

(** ** The workers *)

(** The chunks of a download of [bytes]: how many, and the range of each. *)
Definition chunkCount (bytes chunk : Z) : Z := Z.quot (bytes +! chunk -! 1) chunk.
Definition chunk_range (bytes chunk i : Z) : Z * Z :=
  let offset := i *! chunk in (offset, Z.min chunk (bytes -! offset)).

Inductive worker := Idle | Downloading (chunk : Z) | Returned.
Record Bench := mkBench {
  bn_workers : list worker; bn_next : Z; bn_done : list Z; bn_failed : list Z; bn_firstErr : option directDownloadError
}.
#[export] Instance Bench_eta : Eta Bench := λ b,
  mkBench (bn_workers b) (bn_next b) (bn_done b) (bn_failed b) (bn_firstErr b).
Definition start_bench (connections : nat) : Bench := mkBench (replicate connections Idle) 0 [] [] None.

(** One worker's next action: it takes a chunk off the counter, or its download
    ends, or it fails. *)
Inductive bench_step (count : Z) : Bench → Bench → Prop :=
| bench_take b i :
    bn_workers b !! i = Some Idle → bn_next b < count →
    bench_step count b (b <| bn_workers ::= <[i := Downloading (bn_next b)]> |> <| bn_next ::= Z.succ |>)
| bench_return b i :
    bn_workers b !! i = Some Idle → count ≤ bn_next b →
    bench_step count b (b <| bn_workers ::= <[i := Returned]> |> <| bn_next ::= Z.succ |>)
| bench_done b i c :
    bn_workers b !! i = Some (Downloading c) →
    bench_step count b (b <| bn_workers ::= <[i := Idle]> |> <| bn_done ::= cons c |>)
| bench_fail b i c e :
    bn_workers b !! i = Some (Downloading c) →
    bench_step count b (b <| bn_workers ::= <[i := Returned]> |> <| bn_failed ::= cons c |>
                          <| bn_firstErr ::= λ err, Some (default e err) |>).

Definition FormatDirectDownloadProtocols (protocols : gmap string Z) : string :=
  if decide (protocols = ∅) then "none"
  else join_on "," (map (λ kv, kv.1 +:+ "=" +:+ format_int kv.2)
                        (@by_name _ fst (merge_order fst) (map_to_list protocols))).
