(* ===== verification/DirectDownloadProps.v ===== *)
(** * What the direct download benchmark promises

    The workers fetch every byte once unless the number of chunks overflows, a
    range that counts as fetched was the one asked for, and retries are
    bounded. *)
From Stdlib Require Import Ascii.
From S2P Require Import Prelude GoStrings GoErrors GoMonads GoSort DirectDownload.

(** ** Chunks *)
Lemma chunkCount_quot bytes chunk : chunkCount bytes chunk = Z.quot (w64 (bytes + chunk - 1)) chunk.
Proof.
  unfold chunkCount, w64. f_equal. f_equal.
  replace ((bytes + chunk + 2 ^ 63) `mod` 2 ^ 64 - 2 ^ 63 - 1 + 2 ^ 63)
    with ((bytes + chunk + 2 ^ 63) `mod` 2 ^ 64 - 1) by lia.
  rewrite Zminus_mod_idemp_l. f_equal. lia.
Qed.
Lemma chunkCount_spec bytes chunk :
  0 < bytes → 0 < chunk → bytes + chunk ≤ 2 ^ 63 →
  let n := chunkCount bytes chunk in 0 < n ∧ (n - 1) * chunk < bytes ≤ n * chunk.
Proof.
  intros Hb Hc Hov. cbv zeta. rewrite chunkCount_quot, w64_id by (unfold in64; lia).
  rewrite Z.quot_div_nonneg by lia.
  pose proof (Z_div_mod_eq_full (bytes + chunk - 1) chunk). pose proof (Z.mod_pos_bound (bytes + chunk - 1) chunk Hc).
  assert (0 < (bytes + chunk - 1) / chunk) by (apply Z.div_str_pos; lia). nia.
Qed.
(** When the sum overflows there are no chunks. *)
Lemma chunkCount_overflow bytes chunk :
  in64 bytes → in64 chunk → 0 < chunk → 2 ^ 63 < bytes + chunk → chunkCount bytes chunk ≤ 0.
Proof.
  unfold in64. intros Hb Hc Hpos Hov. rewrite chunkCount_quot.
  assert (w64 (bytes + chunk - 1) = bytes + chunk - 1 - 2 ^ 64) as ->.
  { unfold w64. rewrite <- (Z.mod_unique_pos _ (2 ^ 64) 1 (bytes + chunk - 1 + 2 ^ 63 - 2 ^ 64)); lia. }
  rewrite <- (Z.opp_involutive (bytes + chunk - 1 - 2 ^ 64)), Z.quot_opp_l by lia.
  pose proof (Z.quot_pos (- (bytes + chunk - 1 - 2 ^ 64)) chunk ltac:(lia) Hpos). lia.
Qed.
(** The chunk [i] of the file covers the positions from [i * chunk] on. *)
Lemma chunk_range_spec bytes chunk i :
  0 < bytes → 0 < chunk → bytes + chunk ≤ 2 ^ 63 → 0 ≤ i < chunkCount bytes chunk →
  let '(off, len) := chunk_range bytes chunk i in
  off = i * chunk ∧ 0 < len ≤ chunk ∧ off + len ≤ bytes ∧
  ∀ p, 0 ≤ p < bytes → (off ≤ p < off + len ↔ p / chunk = i).
Proof.
  intros Hb Hc Hov Hi. destruct (chunkCount_spec bytes chunk Hb Hc Hov) as (H0 & H1 & H2).
  assert (0 ≤ i * chunk < bytes) as Hoff by nia. unfold chunk_range. cbv zeta. nowrap.
  split_and!; [done|lia|lia|lia|]. intros p Hp. split.
  - intros Hin. symmetry. apply (Z.div_unique p chunk i (p - i * chunk)); [left; lia|lia].
  - intros <-. pose proof (Z_div_mod_eq_full p chunk). pose proof (Z.mod_pos_bound p chunk Hc). lia.
Qed.

(** ** Workers *)
Definition busy_chunk (w : worker) : option Z := match w with Downloading c => Some c | _ => None end.
Definition busy (b : Bench) : list Z := omap busy_chunk (bn_workers b).
Lemma busy_insert (l : list worker) i w w' :
  l !! i = Some w →
  option_list (busy_chunk w') ++ omap busy_chunk l ≡ₚ option_list (busy_chunk w) ++ omap busy_chunk (<[i := w']> l).
Proof.
  intros Hi. rewrite insert_take_drop by (by apply lookup_lt_Some in Hi).
  rewrite <- (take_drop_middle l i w Hi) at 1. rewrite !omap_app. cbn.
  destruct (busy_chunk w), (busy_chunk w'); cbn; solve_Permutation.
Qed.

Record bench_ok (count : Z) (n : nat) (b : Bench) : Prop := {
  bo_workers : length (bn_workers b) = n;
  bo_next : 0 ≤ bn_next b;
  bo_chunks : busy b ++ bn_done b ++ bn_failed b ≡ₚ seqZ 0 (Z.min (bn_next b) count);
  bo_failed : bn_firstErr b = None → bn_failed b = [];
  bo_returned : Returned ∈ bn_workers b → bn_firstErr b ≠ None ∨ count ≤ bn_next b
}.
Lemma bench_start_ok count n : 0 ≤ count → bench_ok count n (start_bench n).
Proof.
  intros Hc. split; cbn; [by rewrite length_replicate|done| |done|].
  - unfold busy. cbn. assert (omap busy_chunk (replicate n Idle) = []) as ->.
    { induction n as [|n IH]; [done|]. exact IH. }
    by rewrite Z.min_l by lia.
  - intros H%elem_of_replicate_inv. done.
Qed.
Lemma returned_insert (l : list worker) i w :
  w ≠ Returned → Returned ∈ <[i := w]> l → Returned ∈ l.
Proof.
  intros Hw [k Hk]%list_elem_of_lookup. apply list_lookup_insert_Some in Hk as [(_ & Heq & _)|[_ Hk]]; [congruence|].
  by eapply list_elem_of_lookup_2.
Qed.
Lemma bench_step_ok count n b b' : 0 ≤ count → bench_step count b b' → bench_ok count n b → bench_ok count n b'.
Proof.
  intros Hcount Hs [H1 H2 H3 H4 H5].
  destruct Hs as [b i Hi Hn|b i Hi Hn|b i c Hi|b i c e Hi];
    (split; cbn; [by rewrite length_insert|lia| |try done|]).
  - pose proof (busy_insert _ _ _ (Downloading (bn_next b)) Hi) as Hp. cbn in Hp. unfold busy in *. cbn. rewrite <- Hp.
    cbn. rewrite H3. unfold Z.succ. rewrite !Z.min_l by lia. rewrite (seqZ_app 0 (bn_next b) 1) by lia. cbn.
    rewrite Z.add_0_l. solve_Permutation.
  - intros Hr%returned_insert; [|done]. destruct (H5 Hr); [by left|lia].
  - pose proof (busy_insert _ _ _ Returned Hi) as Hp. cbn in Hp. unfold busy in *. cbn. rewrite <- Hp, H3.
    by rewrite !Z.min_r by lia.
  - intros _. right. lia.
  - pose proof (busy_insert _ _ _ Idle Hi) as Hp. cbn in Hp. unfold busy in *. cbn. rewrite <- H3, Hp. cbn.
    solve_Permutation.
  - intros Hr%returned_insert; [|done]. by apply H5.
  - pose proof (busy_insert _ _ _ Returned Hi) as Hp. cbn in Hp. unfold busy in *. cbn. rewrite <- H3, Hp. cbn.
    solve_Permutation.
  - intros _. by left.
Qed.

(** Without chunks nothing is downloaded. *)
Lemma bench_no_chunks count n b :
  count ≤ 0 → rtc (bench_step count) (start_bench n) b →
  0 ≤ bn_next b ∧ bn_done b = [] ∧ Forall (λ w, busy_chunk w = None) (bn_workers b).
Proof.
  intros Hc Hrun. assert (∀ b0, rtc (bench_step count) b0 b →
    0 ≤ bn_next b0 ∧ bn_done b0 = [] ∧ Forall (λ w, busy_chunk w = None) (bn_workers b0) →
    0 ≤ bn_next b ∧ bn_done b = [] ∧ Forall (λ w, busy_chunk w = None) (bn_workers b)) as H.
  { clear Hrun. intros b0. induction 1 as [|x y z Hs _ IH]; [done|]. intros (H0 & Hd & Hw). apply IH. clear IH.
    destruct Hs as [x i Hi Hn|x i Hi Hn|x i c Hi|x i c e Hi]; cbn; [lia| |..].
    - split_and!; [lia|done|]. by apply Forall_insert.
    - rewrite Forall_lookup in Hw. by specialize (Hw _ _ Hi).
    - rewrite Forall_lookup in Hw. by specialize (Hw _ _ Hi). }
  apply (H _ Hrun). cbn. split_and!; [done|done|]. by apply Forall_replicate.
Qed.
(** With chunks, all of them are taken before all workers return. *)
Lemma bench_all_done count n b :
  0 < count → (0 < n)%nat → rtc (bench_step count) (start_bench n) b →
  Forall (eq Returned) (bn_workers b) → bn_firstErr b = None → bn_done b ≡ₚ seqZ 0 count.
Proof.
  intros H0 Hn Hrun Hall Herr. assert (bench_ok count n b) as [K1 K2 K3 K4 K5].
  { assert (bench_ok count n (start_bench n)) as Hs by (apply bench_start_ok; lia).
    revert Hs. clear -Hrun H0. induction Hrun as [|x y z Hs _ IH]; [done|]. intros Hx. apply IH.
    eapply bench_step_ok; [|done..]. lia. }
  assert (Returned ∈ bn_workers b) as Hr.
  { destruct (bn_workers b) as [|w l]; [cbn in K1; lia|]. inversion Hall; subst. by left. }
  destruct (K5 Hr) as [?|Hnext]; [done|]. rewrite (K4 Herr), app_nil_r in K3.
  assert (busy b = []) as Hbusy.
  { unfold busy. clear -Hall. induction Hall as [|w l <- _ IH]; [done|]. exact IH. }
  by rewrite Hbusy, Z.min_r in K3 by lia.
Qed.

(** C24: However the workers interleave, when all have returned without an
    error: if the bytes to read and the chunk size (both positive) add up to at most 2^63, every
    chunk was downloaded once, and the ranges of the chunks are inside the file,
    not empty, and have each of its bytes exactly once; if they add up to more,
    the number of chunks has overflowed and nothing was downloaded at all. *)
Theorem direct_chunks_cover bytes chunk connections b :
  0 < bytes < 2 ^ 63 → 0 < chunk < 2 ^ 63 → (0 < connections)%nat →
  rtc (bench_step (chunkCount bytes chunk)) (start_bench connections) b →
  Forall (eq Returned) (bn_workers b) → bn_firstErr b = None →
  if decide (bytes + chunk ≤ 2 ^ 63) then
    NoDup (bn_done b) ∧
    (∀ c off len, c ∈ bn_done b → chunk_range bytes chunk c = (off, len) → 0 ≤ off ∧ 0 < len ∧ off + len ≤ bytes) ∧
    ∀ p, 0 ≤ p < bytes →
      exists! c, c ∈ bn_done b ∧ (chunk_range bytes chunk c).1 ≤ p < (chunk_range bytes chunk c).1 + (chunk_range bytes chunk c).2
  else bn_done b = [].
Proof.
  intros [Hb Hb'] [Hc Hc'] Hn Hrun Hall Herr. case_decide as Hov.
  2: { eapply bench_no_chunks, Hrun. apply chunkCount_overflow; unfold in64; lia. }
  destruct (chunkCount_spec bytes chunk Hb Hc Hov) as (H0 & H1 & H2).
  pose proof (bench_all_done _ _ _ H0 Hn Hrun Hall Herr) as K3.
  set (count := chunkCount bytes chunk) in *.
  assert (∀ c, c ∈ bn_done b ↔ 0 ≤ c < count) as Hin by (intros c; rewrite K3, elem_of_seqZ; lia).
  split; [rewrite K3; apply NoDup_seqZ|]. split.
  - intros c off len Hin'%Hin Heq. pose proof (chunk_range_spec bytes chunk c Hb Hc Hov Hin') as Hs.
    rewrite Heq in Hs. nia.
  - intros p Hp. exists (p / chunk). split.
    + assert (0 ≤ p / chunk < count) as Hpc.
      { split; [apply Z.div_pos; lia|]. apply Z.div_lt_upper_bound; nia. }
      split; [by apply Hin|]. pose proof (chunk_range_spec bytes chunk (p / chunk) Hb Hc Hov Hpc) as Hs.
      destruct (chunk_range bytes chunk (p / chunk)) as [off len]. apply Hs; [done|done].
    + intros c [Hin'%Hin Hp']. pose proof (chunk_range_spec bytes chunk c Hb Hc Hov Hin') as Hs.
      destruct (chunk_range bytes chunk c) as [off len]. cbn in Hp'. by apply Hs.
Qed.
Definition demoBench : Bench := mkBench [Returned] 3 [1; 0] [] None.
Lemma demo_bench : rtc (bench_step (chunkCount 5 3)) (start_bench 1) demoBench.
Proof.
  change (chunkCount 5 3) with 2.
  eapply rtc_l; [apply (bench_take 2 (start_bench 1) 0); [done|reflexivity]|].
  eapply rtc_l; [by apply (bench_done 2 (mkBench [Downloading 0] 1 [] [] None) 0)|].
  eapply rtc_l; [apply (bench_take 2 (mkBench [Idle] 1 [0] [] None) 0); [done|reflexivity]|].
  eapply rtc_l; [by apply (bench_done 2 (mkBench [Downloading 1] 2 [0] [] None) 0)|].
  eapply rtc_l; [apply (bench_return 2 (mkBench [Idle] 2 [1; 0] [] None) 0); [done|done]|]. apply rtc_refl.
Qed.
Lemma direct_chunks_cover_witness : exists! c, c ∈ [1; 0] ∧ (chunk_range 5 3 c).1 ≤ 4 < (chunk_range 5 3 c).1 + (chunk_range 5 3 c).2.
Proof.
  pose proof (direct_chunks_cover 5 3 1 demoBench ltac:(lia) ltac:(lia) ltac:(lia) demo_bench
    ltac:(by repeat constructor) eq_refl) as H. rewrite decide_True in H by lia. exact (proj2 (proj2 H) 4 ltac:(lia)).
Defined.

(** The overflow happens with a chunk size that
    [normalizeDirectDownloadOptions] accepts. *)
Lemma huge_chunk_downloads_nothing : chunkCount DirectDownloadDefaultBytes maxInt64 = 0.
Proof. vm_compute. reflexivity. Qed.

(** ** Ranges and retries *)
Lemma check_direct_Ok o offset length resp total url :
  check_direct o offset length resp = Ok (total, url) →
  dr_Status resp = 206 ∧ zlen (dr_Body resp) = length ∧ dr_BodyError resp = None ∧
  parseDirectContentRange (dr_ContentRange resp) = Ok (offset, offset +! length -! 1, total).
Proof.
  unfold check_direct. repeat (case_decide; [done|]).
  destruct (parseDirectContentRange _) as [[[rs re] t]|e]; [|done]. repeat (case_decide; [done|]).
  destruct (dr_BodyError resp); [done|]. intros [= <- <-]. split_and!; [lia|lia|done|].
  assert (rs = offset ∧ re = offset +! length -! 1) as [-> ->] by lia. done.
Qed.
Section retries.
Context {S : Type} `{!DirectClient S}.
Implicit Types s : S * directDownloadStats.
Lemma performDirectRange_counts url o offset length s :
  let s' := (performDirectRange url o offset length s).2.2 in
  st_rangeRequests s' = st_rangeRequests s.2 + 1 ∧ st_retries s' = st_retries s.2.
Proof.
  cbv zeta. unfold performDirectRange, record, Do, mbind, stateM_bind. cbn.
  by destruct (client_Do (op_Cookie o) url (range_of offset length) s.1) as [[resp|e] s1].
Qed.
Lemma retry_loop_counts budget attempt url o offset length s :
  let s' := (retry_loop budget attempt url o offset length s).2.2 in
  st_retries s' - st_retries s.2 ≤ st_rangeRequests s' - st_rangeRequests s.2 ≤ st_retries s' - st_retries s.2 + 1 ∧
  0 < st_rangeRequests s' - st_rangeRequests s.2 ∧
  0 ≤ st_retries s' - st_retries s.2 ≤ Z.of_nat budget.
Proof.
  revert s attempt. induction budget as [|budget IH]; intros s attempt; cbv zeta; cbn [retry_loop];
    unfold mbind, stateM_bind; pose proof (performDirectRange_counts url o offset length s) as Hp;
    destruct (performDirectRange _ _ _ _ s) as [[a|e] s1]; cbn in Hp |- *; try lia.
  destruct (_ || _); cbn; [lia|]. destruct (pause (retry_delay attempt) s1.1) as [[e'|] s2]; cbn; [lia|].
  match goal with |- context [retry_loop budget ?t url o offset length ?x] => specialize (IH x t) end. cbn in IH. lia.
Qed.
(** A range is asked for once more than it is retried, or as often when the
    context ends during the last pause; it is retried at most as often as the
    options say. *)
Lemma retry_bounded url o offset length s :
  0 ≤ op_Retries o →
  let s' := (downloadRangeWithRetry url o offset length s).2.2 in
  st_retries s' - st_retries s.2 ≤ st_rangeRequests s' - st_rangeRequests s.2 ≤ st_retries s' - st_retries s.2 + 1 ∧
  0 < st_rangeRequests s' - st_rangeRequests s.2 ∧
  0 ≤ st_retries s' - st_retries s.2 ≤ op_Retries o.
Proof.
  intros Ho. pose proof (retry_loop_counts (Z.to_nat (op_Retries o)) 0 url o offset length s) as H.
  by rewrite Z2Nat.id in H.
Qed.
End retries.
