(* ===== verification/StreamBench.v ===== *)
(** * The benchmarks of [src/internal/app/bench.go]: simulated playback and local files

    A reader that takes a step's worth of bytes per step and measures how the
    stream manager keeps up.  The handle, the manager's buffer and counters, the
    clock and the context are parameters; throughput is left out. *)
From stdpp Require Import sorting.
From S2P Require Import Prelude GoStrings GoErrors GoMonads ChunkKeys MetaStore Filesystem Playback RemotePaths.

(** A [time.Duration] is an [int64]; a reading of the clock is any [Z].
    [t.Sub(u)], and so [time.Since], stops at the ends of the [int64]s. *)
Definition since (t u : Z) : Z := Z.max (- 2 ^ 63) (Z.min (t - u) maxInt64).

(** ** Percentiles of durations *)
Definition durationPercentile (values : list Z) (percentile : Z) : Z :=
  if decide (values = []) then 0
  else
    let sorted := merge_sort Z.le values in
    if decide (percentile ≤ 0) then sorted !!! 0%nat
    else
      let percentile := Z.min percentile 100 in
      let index := Z.quot (zlen sorted * percentile + 99) 100 in
      sorted !!! Z.to_nat (if decide (0 < index) then index - 1 else index).
Definition durationP95 (values : list Z) : Z := durationPercentile values 95.

(** ** Measurements: the variables of the loop
    Its counters count the entries of its lists, which memory bounds. *)
Record Measures := mkMeasures {
  ms_offset : Z; ms_bytesRead : Z; ms_stalls : Z; ms_warmupStalls : Z; ms_steadyStalls : Z;
  ms_seeks : list Z; ms_readLatencies : list Z; ms_stallDurations : list Z;
  ms_bufferMin : Z; ms_bufferMax : Z; ms_bufferSamples : Z; ms_bufferLowCount : Z; ms_bufferZeroCount : Z;
  ms_startup : Z; ms_bufferReady : Z; ms_firstStallAt : Z; ms_lastStallAt : Z; ms_nextSeek : option Z
}.
#[export] Instance Measures_eta : Eta Measures := λ m,
  mkMeasures (ms_offset m) (ms_bytesRead m) (ms_stalls m) (ms_warmupStalls m) (ms_steadyStalls m) (ms_seeks m)
    (ms_readLatencies m) (ms_stallDurations m) (ms_bufferMin m) (ms_bufferMax m) (ms_bufferSamples m)
    (ms_bufferLowCount m) (ms_bufferZeroCount m) (ms_startup m) (ms_bufferReady m) (ms_firstStallAt m)
    (ms_lastStallAt m) (ms_nextSeek m).
Definition no_measures (nextSeek : option Z) : Measures :=
  mkMeasures 0 0 0 0 0 [] [] [] 0 0 0 0 0 0 0 0 0 nextSeek.

(** [ReadAt] gives the number of bytes; [Stats] the bytes downloaded, the
    retries and the hedges. *)
Class StreamUnderTest (S : Type) := {
  sut_ReadAt : Z → Z → stateM S (result goError Z);
  sut_BufferAhead : Z → stateM S Z;
  sut_Stats : stateM S (Z * Z * Z);
  sut_Now : stateM S Z;
  sut_ctx : stateM S (option goError);
  sut_sleep : Z → stateM S (option goError);
  sut_LowWatermark : Z
}.

Record StreamBenchResult := mkStreamBenchResult {
  sr_measures : Measures; sr_elapsed : Z;
  sr_ReadP50 : Z; sr_ReadP95 : Z; sr_ReadP99 : Z; sr_ReadMax : Z;
  sr_StallTotal : Z; sr_StallP95 : Z; sr_StallMax : Z; sr_SeekP95 : Z;
  sr_RemoteDownloaded : Z; sr_Retries : Z; sr_Hedges : Z; sr_LowWatermark : Z
}.

(** A stall: a read, after the first bytes, that took longer than the step. *)
Definition record_stall (overage stallAt : Z) (m : Measures) : Measures :=
  let m := m <| ms_stalls ::= Z.succ |> <| ms_stallDurations ::= λ l, l ++ [overage] |>
             <| ms_firstStallAt ::= λ t, if decide (t = 0) then stallAt else t |> <| ms_lastStallAt := stallAt |> in
  if decide (ms_bufferReady m = 0) then m <| ms_warmupStalls ::= Z.succ |> else m <| ms_steadyStalls ::= Z.succ |>.
Definition record_buffer (low ahead : Z) (m : Measures) : Measures :=
  let first := bool_decide (ms_bufferSamples m = 0) in
  m <| ms_bufferMin ::= λ v, if first || bool_decide (ahead < v) then ahead else v |>
    <| ms_bufferMax ::= λ v, if first || bool_decide (v < ahead) then ahead else v |>
    <| ms_bufferSamples ::= Z.succ |>
    <| ms_bufferLowCount ::= λ n, if decide (ahead < low) then n + 1 else n |>
    <| ms_bufferZeroCount ::= λ n, if decide (ahead ≤ 0) then n + 1 else n |>.

Section bench.
Context {S : Type} `{!StreamUnderTest S}.
Context (file : File) (bytesPerStep seekInterval step start : Z).
Abbreviation benchM := (errorM S).
Definition ok {A} (m : stateM S A) : benchM A := λ s, let '(a, s) := m s in (Ok a, s).
Definition try {A} (m : stateM S (result goError A)) : benchM A := m.
Definition stop_on (m : stateM S (option goError)) : benchM unit := λ s,
  let '(e, s) := m s in (match e with Some e => Err e | None => Ok tt end, s).

(** The time a read at [offset] takes, with its bytes. *)
Definition timed_read (offset : Z) : benchM (Z * Z) :=
  before ← ok sut_Now;
  n ← try (sut_ReadAt offset bytesPerStep);
  after ← ok sut_Now;
  mret (n, since after before).
Definition seek_target (offset : Z) : Z :=
  let offset := offset +! 64 * 2 ^ 20 in
  if decide (Size file ≤ offset +! bytesPerStep) then Z.quot (Size file) 3 else offset.
Definition maybe_seek (now : Z) (m : Measures) : benchM Measures :=
  match ms_nextSeek m with
  | Some due =>
      if decide (due ≤ now ∧ bytesPerStep *! 4 < Size file) then
        let offset := seek_target (ms_offset m) in
        r ← timed_read offset;
        mret (m <| ms_offset := offset |> <| ms_seeks ::= λ l, l ++ [r.2] |> <| ms_nextSeek := Some (now + seekInterval) |>)
      else mret m
  | None => mret m
  end.
(** One round; [true] ends the loop at the end of the file. *)
Definition bench_round (now : Z) (m : Measures) : benchM (bool * Measures) :=
  _ ← stop_on sut_ctx;
  m ← maybe_seek now m;
  r ← timed_read (ms_offset m);
  let '(n, readElapsed) := r in
  let m := m <| ms_readLatencies ::= λ l, l ++ [readElapsed] |> in
  m ← (if decide (ms_bytesRead m = 0) then mret (m <| ms_startup := readElapsed |>)
       else if decide (step < readElapsed) then
         at_ ← ok sut_Now; mret (record_stall (readElapsed -! step) (since at_ start) m)
       else mret m);
  let m := m <| ms_offset ::= λ o, o +! n |> <| ms_bytesRead ::= λ b, b +! n |> in
  ahead ← ok (sut_BufferAhead (ms_offset m));
  let m := record_buffer sut_LowWatermark ahead m in
  m ← (if decide (ms_bufferReady m = 0 ∧ sut_LowWatermark ≤ ahead) then
         ready ← ok sut_Now; mret (m <| ms_bufferReady := since ready start |>)
       else mret m);
  if decide (0 < Size file ∧ Size file ≤ ms_offset m) then mret (true, m)
  else
    _ ← (if decide (readElapsed < step) then stop_on (sut_sleep (step -! readElapsed)) else mret tt);
    mret (false, m).
(** [None] when the fuel ran out before the deadline. *)
Fixpoint bench_loop (fuel : nat) (deadline now : Z) (m : Measures) : benchM (option Measures) :=
  if decide (deadline ≤ now) then mret (Some m)
  else
    match fuel with
    | O => mret None
    | Datatypes.S fuel =>
        r ← bench_round now m;
        let '(ended, m) := r in
        if (ended : bool) then mret (Some m)
        else now ← ok sut_Now; bench_loop fuel deadline now m
    end.
End bench.

(** The products wrap around as [int64]s do. *)
Definition bytes_per_step (bitrateMbps step : Z) : Z :=
  let bytesPerSecond := Z.quot (bitrateMbps *! 1000 *! 1000) 8 in
  let bytesPerStep := Z.quot (bytesPerSecond *! step) (10 ^ 9) in
  if decide (bytesPerStep ≤ 0) then 1 else bytesPerStep.
Definition stream_result (low elapsed : Z) (before after : Z * Z * Z) (m : Measures) : StreamBenchResult :=
  let '(downloaded, retries, hedges) := before in
  let '(downloaded', retries', hedges') := after in
  let latencies := ms_readLatencies m in
  let stalls := ms_stallDurations m in
  {| sr_measures := m; sr_elapsed := elapsed;
     sr_ReadP50 := durationPercentile latencies 50; sr_ReadP95 := durationPercentile latencies 95;
     sr_ReadP99 := durationPercentile latencies 99; sr_ReadMax := durationPercentile latencies 100;
     sr_StallTotal := foldl (λ total stall, total +! stall) 0 stalls; sr_StallP95 := durationP95 stalls; sr_StallMax := foldl Z.max 0 stalls;
     sr_SeekP95 := durationP95 (ms_seeks m);
     sr_RemoteDownloaded := Z.max 0 (downloaded' -! downloaded); sr_Retries := Z.max 0 (retries' -! retries);
     sr_Hedges := Z.max 0 (hedges' -! hedges); sr_LowWatermark := low |}.
(** The handle is there; [manager.Open] returns one while the manager is open. *)
Definition benchmarkStream {S} `{!StreamUnderTest S} (fuel : nat) (file : File)
    (bitrateMbps duration seekInterval step : Z) : errorM S (option StreamBenchResult) :=
  if decide (bitrateMbps ≤ 0 ∨ duration ≤ 0 ∨ step ≤ 0)
  then fail (errors_New "bitrate, duration and step must be positive")
  else
    before ← ok sut_Stats;
    start ← ok sut_Now;
    let nextSeek := if decide (0 < seekInterval) then Some (start + seekInterval) else None in
    m ← bench_loop file (bytes_per_step bitrateMbps step) seekInterval step start fuel (start + duration) start
          (no_measures nextSeek);
    match m with
    | None => mret None
    | Some m =>
        finish ← ok sut_Now;
        after ← ok sut_Stats;
        mret (Some (stream_result sut_LowWatermark (since finish start) before after m))
    end.

(** [BenchmarkStream]: the entry of the path, then the simulated playback. *)
Definition BenchmarkStream {S} `{!Drive S, !StreamUnderTest S} (fuel : nat) (root remotePath : string)
    (bitrateMbps duration seekInterval : Z) : errorM S (option StreamBenchResult) :=
  if decide (bitrateMbps ≤ 0 ∨ duration ≤ 0)
  then fail (errors_New "bitrate and duration must be positive")
  else
    let fullPath := benchmarkRemotePath root remotePath in
    entry ← try (resolveRemoteEntry root fullPath);
    if (ei_IsDir entry : bool) then fail (errors_New ("benchmark path is a directory: " +:+ fullPath))
    else
      benchmarkStream fuel (mkFile (ei_FSID entry) (ei_Size entry) (ei_MTM entry)) bitrateMbps duration seekInterval
        (200 * 10 ^ 6).

(** ** A file of the mount, read through the kernel
    [os.Open], and [io.ReadFull] with its count and its error. *)
Class LocalFile (S : Type) := {
  local_Open : string → stateM S (result goError unit);
  local_ReadFull : Z → stateM S (Z * option goError)
}.
(** The path and the bytes read; the timing is left out. *)
Definition BenchmarkLocalFile {S} `{!LocalFile S} (localPath : string) (sampleSize : Z) : errorM S (string * Z) :=
  let sampleSize := if decide (sampleSize ≤ 0) then benchmarkDefaultSampleSize else sampleSize in
  _ ← try (local_Open localPath);
  r ← ok (local_ReadFull sampleSize);
  let '(n, err) := r in
  match err with
  | Some e => if errors_Is e EOF || errors_Is e UnexpectedEOF then mret (localPath, n) else fail e
  | None => mret (localPath, n)
  end.
