(* ===== verification/StreamBenchProps.v ===== *)
(** * What the simulated playback reports

    Percentiles are nearest ranks; the loop ends by the clock; and the figures of
    a result agree with each other whatever the stream manager and the network
    did. *)
From stdpp Require Import sorting.
From S2P Require Import Prelude GoStrings GoErrors GoMonads ChunkKeys StreamBench.

(** ** Percentiles *)
Lemma sorted_lookup_le (l : list Z) i j :
  StronglySorted Z.le l → (i ≤ j < length l)%nat → l !!! i ≤ l !!! j.
Proof.
  intros Hl. revert i j. induction Hl as [|x l Hl IH Hx]; intros i j Hij; cbn in Hij; [lia|].
  destruct i as [|i], j as [|j]; cbn; [lia| |lia|apply IH; lia].
  rewrite Forall_forall in Hx. apply Hx. apply list_elem_of_lookup_total_2. lia.
Qed.
Lemma values_sorted l : StronglySorted Z.le (merge_sort Z.le l).
Proof. apply StronglySorted_merge_sort; apply _. Qed.
Lemma values_mem l x : x ∈ merge_sort Z.le l ↔ x ∈ l.
Proof. by rewrite merge_sort_Permutation. Qed.
Lemma values_count l : length (merge_sort Z.le l) = length l.
Proof. by rewrite merge_sort_Permutation. Qed.
(** The rank of a percentile in a sorted list of [n] values. *)
Definition rank (n p : Z) : nat :=
  if decide (p ≤ 0) then 0%nat
  else let index := Z.quot (n * Z.min p 100 + 99) 100 in Z.to_nat (if decide (0 < index) then index - 1 else index).
Lemma rank_mono n p q : 0 < n → p ≤ q → (rank n p ≤ rank n q)%nat ∧ (rank n q < Z.to_nat n)%nat.
Proof.
  intros Hn Hpq. unfold rank. cbv zeta.
  assert (∀ r, 0 < r → 1 ≤ Z.quot (n * Z.min r 100 + 99) 100 ≤ n) as Hr.
  { intros r H. rewrite Z.quot_div_nonneg by nia. split; [apply Z.div_le_lower_bound; nia|].
    apply Z.lt_succ_r, Z.div_lt_upper_bound; nia. }
  assert (∀ r, 0 < r → p ≤ r → 0 < p → Z.quot (n * Z.min p 100 + 99) 100 ≤ Z.quot (n * Z.min r 100 + 99) 100) as Hm.
  { intros r H1 H2 H3. rewrite !Z.quot_div_nonneg by nia. apply Z.div_le_mono; nia. }
  destruct (decide (p ≤ 0)), (decide (q ≤ 0)); [lia| |lia|].
  - pose proof (Hr q ltac:(lia)). rewrite decide_True by lia. lia.
  - pose proof (Hr q ltac:(lia)). pose proof (Hr p ltac:(lia)). pose proof (Hm q ltac:(lia) Hpq ltac:(lia)).
    rewrite !decide_True by lia. lia.
Qed.
Lemma percentile_rank l p :
  l ≠ [] → durationPercentile l p = merge_sort Z.le l !!! rank (zlen l) p.
Proof.
  intros Hl. unfold durationPercentile, rank. rewrite decide_False by done. cbv zeta.
  assert (zlen (merge_sort Z.le l) = zlen l) as -> by (unfold zlen; by rewrite values_count).
  by case_decide.
Qed.
Lemma percentile_mono l p q : p ≤ q → durationPercentile l p ≤ durationPercentile l q.
Proof.
  intros Hpq. destruct (decide (l = [])) as [->|Hl]; [done|]. rewrite !percentile_rank by done.
  assert (0 < zlen l) as Hn by (destruct l; [done|]; rewrite zlen_cons; pose proof (zlen_nonneg l); lia).
  destruct (rank_mono (zlen l) p q Hn Hpq) as [H1 H2].
  apply sorted_lookup_le; [apply values_sorted|]. rewrite values_count. unfold zlen in *. lia.
Qed.
Lemma percentile_in l p : l ≠ [] → durationPercentile l p ∈ l.
Proof.
  intros Hl. rewrite percentile_rank by done. apply values_mem.
  assert (0 < zlen l) as Hn by (destruct l; [done|]; rewrite zlen_cons; pose proof (zlen_nonneg l); lia).
  destruct (rank_mono (zlen l) p p Hn ltac:(lia)) as [_ H].
  apply list_elem_of_lookup_total_2. rewrite values_count. unfold zlen in *. lia.
Qed.
Lemma percentile_max l x : x ∈ l → x ≤ durationPercentile l 100.
Proof.
  intros Hx. assert (l ≠ []) as Hl by (intros ->; by apply elem_of_nil in Hx). rewrite percentile_rank by done.
  apply values_mem in Hx. apply list_elem_of_lookup_total_1 in Hx as (i & Hi & <-).
  apply sorted_lookup_le; [apply values_sorted|].
  rewrite values_count in Hi |- *.
  assert (rank (zlen l) 100 = length l - 1)%nat as ->; [|lia].
  unfold rank, zlen. rewrite decide_False by lia. cbv zeta. rewrite Z.min_id.
  rewrite Z.quot_div_nonneg by lia. rewrite Z.div_add_l by lia. change (99 / 100) with 0.
  rewrite decide_True by lia. lia.
Qed.
Lemma foldl_max_bound l a : a ≤ foldl Z.max a l ∧ ∀ x, x ∈ l → x ≤ foldl Z.max a l.
Proof.
  revert a. induction l as [|y l IH]; intros a; cbn; [split; [lia|]; intros x Hx; by apply elem_of_nil in Hx|].
  destruct (IH (Z.max a y)) as [H1 H2]. split; [lia|].
  intros x [->|Hx]%elem_of_cons; [lia|by apply H2].
Qed.
(** The sum of durations, which the code's agrees with while it is a duration. *)
Abbreviation duration_sum := (zsum (λ d : Z, d)).
Lemma stalls_nonneg l : Forall (Z.lt 0) l → 0 ≤ duration_sum l.
Proof. rewrite Forall_forall. intros Hl. apply zsum_nonneg. intros x Hx. specialize (Hl x Hx). lia. Qed.
Lemma foldl_total l a :
  Forall (Z.lt 0) l → 0 ≤ a → a + duration_sum l < 2 ^ 63 → foldl (λ total stall, total +! stall) a l = a + duration_sum l.
Proof.
  intros Hl. revert a. induction Hl as [|x l Hx Hl IH]; intros a Ha; cbn [foldl]; [cbn; lia|].
  rewrite zsum_cons. pose proof (stalls_nonneg l Hl). intros Hs. rewrite w64_id by (unfold in64; lia).
  rewrite IH by lia. lia.
Qed.
Lemma foldl_max_total l a : 0 ≤ a → Forall (Z.lt 0) l → foldl Z.max a l ≤ a + duration_sum l.
Proof.
  intros Ha Hl. revert a Ha. induction Hl as [|x l Hx Hl IH]; intros a Ha; cbn [foldl]; [cbn; lia|].
  rewrite zsum_cons. pose proof (stalls_nonneg l Hl). specialize (IH (Z.max a x) ltac:(lia)). lia.
Qed.

(** ** Counters *)
Section bench.
Context {S : Type} `{!StreamUnderTest S}.
Context (file : File) (bytesPerStep seekInterval step start : Z).
Hypothesis Hlow : 0 < sut_LowWatermark.
Hypothesis Hstep : 0 < step < 2 ^ 63.

(** What is known of the clock: [time] goes on, or stands, whatever is called; a
    reading is of a time in between; and a timer does not fire early. *)
Record clocked (time : S → Z) : Prop := {
  ck_now s : time s ≤ (sut_Now s).1 ≤ time (sut_Now s).2;
  ck_read offset length s : time s ≤ time (sut_ReadAt offset length s).2;
  ck_ahead offset s : time s ≤ time (sut_BufferAhead offset s).2;
  ck_stats s : time s ≤ time (sut_Stats s).2;
  ck_ctx s : time s ≤ time (sut_ctx s).2;
  ck_sleep d s : 0 ≤ d → (sut_sleep d s).1 = None → time s + d ≤ time (sut_sleep d s).2
}.
Context (time : S → Z) (Hclock : clocked time).

Record measures_ok (m : Measures) : Prop := {
  mo_stalls : ms_stalls m = ms_warmupStalls m + ms_steadyStalls m ∧ ms_stalls m = zlen (ms_stallDurations m);
  mo_pos : Forall (Z.lt 0) (ms_stallDurations m);
  mo_counts : 0 ≤ ms_warmupStalls m ∧ 0 ≤ ms_steadyStalls m;
  mo_samples : ms_bufferSamples m = zlen (ms_readLatencies m);
  mo_fewer : ms_stalls m ≤ ms_bufferSamples m;
  mo_low : 0 ≤ ms_bufferZeroCount m ≤ ms_bufferLowCount m ∧ ms_bufferLowCount m ≤ ms_bufferSamples m;
  mo_range : ms_bufferMin m ≤ ms_bufferMax m
}.
Lemma no_measures_ok nextSeek : measures_ok (no_measures nextSeek).
Proof. split; cbn; (done || lia || constructor). Qed.

(** ** The clock *)
Lemma now_time s t s' : ok sut_Now s = (Ok t, s') → time s ≤ t ≤ time s'.
Proof. unfold ok. pose proof (ck_now _ Hclock s). destruct (sut_Now s) as [u s1]. by intros [= <- <-]. Qed.
(** A measured read took no more time than passed. *)
Lemma timed_read_time offset s n d s' :
  timed_read bytesPerStep offset s = (Ok (n, d), s') → 0 ≤ d ≤ time s' - time s ∧ d < 2 ^ 63.
Proof.
  unfold timed_read. intros (b & s1 & H1%now_time & H)%errorM_bind_Ok.
  apply errorM_bind_Ok in H as (k & s2 & H2 & H). apply errorM_bind_Ok in H as (a & s3 & H3%now_time & H).
  pose proof (ck_read _ Hclock offset bytesPerStep s1) as Hr. unfold try in H2. rewrite H2 in Hr. cbn in Hr.
  injection H as <- <- <-. unfold since, maxInt64. lia.
Qed.
Lemma maybe_seek_ok now m s m' s' :
  measures_ok m → maybe_seek file bytesPerStep seekInterval now m s = (Ok m', s') →
  measures_ok m' ∧ ms_stallDurations m' = ms_stallDurations m ∧ time s ≤ time s'.
Proof.
  intros Hm. unfold maybe_seek. destruct (ms_nextSeek m) as [due|]; [|intros [= <- <-]; by split].
  case_decide; [|intros [= <- <-]; by split]. intros ([n d] & s1 & Ht%timed_read_time & Hr)%errorM_bind_Ok.
  injection Hr as <- <-. split_and!; [|done|lia]. destruct Hm. by split.
Qed.
(** One read and its stall, and then the sample of the buffer. *)
Lemma round_ok m latency overage stallAt ahead (stalled : bool) :
  measures_ok m → (stalled = true → 0 < overage) →
  let m1 := m <| ms_readLatencies ::= λ l, l ++ [latency] |> in
  ∀ m2 n, (m2 = m1 ∨ (∃ t, m2 = m1 <| ms_startup := t |>) ∨ stalled = true ∧ m2 = record_stall overage stallAt m1) →
  measures_ok (record_buffer sut_LowWatermark ahead
    (m2 <| ms_offset ::= λ o, o +! n |> <| ms_bytesRead ::= λ b, b +! n |>)).
Proof.
  intros [[S1 S2] P [C1 C2] L F [[Z1 Z2] Z3] R] Hov m1 m2 n Hm2. subst m1.
  assert (0 ≤ ms_bufferSamples m) as H0 by (rewrite L; apply zlen_nonneg).
  assert (ms_bufferSamples m2 = ms_bufferSamples m ∧ ms_bufferMin m2 = ms_bufferMin m ∧ ms_bufferMax m2 = ms_bufferMax m ∧
    ms_bufferZeroCount m2 = ms_bufferZeroCount m ∧ ms_bufferLowCount m2 = ms_bufferLowCount m ∧
    zlen (ms_readLatencies m2) = zlen (ms_readLatencies m) + 1) as (E1 & E2 & E3 & E4 & E5 & E6).
  { destruct Hm2 as [->|[[t ->]|[_ ->]]]; [| |unfold record_stall; case_decide];
      cbn; rewrite zlen_app; split_and!; reflexivity. }
  assert (ms_stalls m2 = ms_warmupStalls m2 + ms_steadyStalls m2 ∧ ms_stalls m2 = zlen (ms_stallDurations m2) ∧
    0 ≤ ms_warmupStalls m2 ∧ 0 ≤ ms_steadyStalls m2 ∧ ms_stalls m2 ≤ ms_stalls m + 1 ∧
    Forall (Z.lt 0) (ms_stallDurations m2)) as (G1 & G2 & G3 & G4 & G5 & G6).
  { destruct Hm2 as [->|[[t ->]|[Hst ->]]]; [split_and!; cbn; (done || lia)..|].
    assert (Forall (Z.lt 0) (ms_stallDurations m ++ [overage])) as Hpos
      by (apply Forall_app; split; [done|]; constructor; [by apply Hov|done]).
    unfold record_stall. case_decide; cbn; rewrite zlen_app, zlen_cons, zlen_nil; (split_and!; first [done|lia]). }
  unfold record_buffer. split; cbn.
  - done.
  - done.
  - done.
  - rewrite E1, E6, L. lia.
  - rewrite E1. lia.
  - rewrite E1, E4, E5. repeat case_decide; lia.
  - rewrite E1, E2, E3. repeat case_bool_decide; cbn; lia.
Qed.
Lemma ready_ok m t : measures_ok m → measures_ok (m <| ms_bufferReady := t |>).
Proof. intros []. by split. Qed.
Ltac decide_in H :=
  match type of H with context [decide ?P] => destruct (decide P) end.
Lemma stop_time (f : stateM S (option goError)) s u s' : stop_on f s = (Ok u, s') → f s = (None, s').
Proof. unfold stop_on. destruct (f s) as [[e|] s1]; [done|]. by intros [= _ <-]. Qed.
(** The stalls a round adds are no longer than it takes. *)
Lemma stall_total m m2 latency overage stallAt :
  m2 = m <| ms_readLatencies ::= λ l, l ++ [latency] |> ∨
  (∃ t, m2 = m <| ms_readLatencies ::= λ l, l ++ [latency] |> <| ms_startup := t |>) ∨
  m2 = record_stall overage stallAt (m <| ms_readLatencies ::= λ l, l ++ [latency] |>) →
  0 ≤ overage → duration_sum (ms_stallDurations m2) ≤ duration_sum (ms_stallDurations m) + overage.
Proof.
  intros [-> | [[t ->] | ->]] Ho; cbn [ms_stallDurations set_field]; [cbn; lia|cbn; lia|].
  unfold record_stall. case_decide; cbn [ms_stallDurations set_field]; cbn -[zsum]; rewrite zsum_app, zsum_cons, zsum_nil; lia.
Qed.

Lemma bench_round_ok now m s b m' s' :
  measures_ok m → bench_round file bytesPerStep seekInterval step start now m s = (Ok (b, m'), s') →
  measures_ok m' ∧
  duration_sum (ms_stallDurations m') ≤ duration_sum (ms_stallDurations m) + (time s' - time s) ∧
  time s ≤ time s' ∧ (b = false → time s + step ≤ time s').
Proof.
  intros Hm H. unfold bench_round in H.
  apply errorM_bind_Ok in H as (? & s1 & T1%stop_time & H).
  pose proof (ck_ctx _ Hclock s) as C1. rewrite T1 in C1. cbn in C1.
  apply errorM_bind_Ok in H as (m1 & s2 & (H1 & Q1 & C2)%maybe_seek_ok & H); [|done].
  apply errorM_bind_Ok in H as ([n latency] & s3 & C3%timed_read_time & H).
  apply errorM_bind_Ok in H as (m2 & s4 & H2 & H).
  apply errorM_bind_Ok in H as (ahead & s5 & H4 & H).
  pose proof (ck_ahead _ Hclock (ms_offset (m2 <| ms_offset ::= λ o, o +! n |> <| ms_bytesRead ::= λ b, b +! n |>)) s4) as C5.
  unfold ok in H4. destruct (sut_BufferAhead _ s4) as [a5 s5'] eqn:E5. injection H4 as <- <-. cbn [snd] in C5.
  apply errorM_bind_Ok in H as (m3 & s6 & H3 & H).
  assert (∃ overage stallAt stalled, (stalled = true → 0 < overage) ∧ 0 ≤ overage ≤ latency ∧ time s3 ≤ time s4 ∧
    (m2 = m1 <| ms_readLatencies ::= λ l, l ++ [latency] |> ∨
     (∃ t, m2 = m1 <| ms_readLatencies ::= λ l, l ++ [latency] |> <| ms_startup := t |>) ∨
     stalled = true ∧ m2 = record_stall overage stallAt (m1 <| ms_readLatencies ::= λ l, l ++ [latency] |>)))
    as (ov & sa & st & Hov & Hle & C4 & Hm2).
  { decide_in H2; [|decide_in H2].
    - injection H2 as <- <-. exists 0, 0, false. split_and!; [done|lia|lia|lia|]. right. left. by exists latency.
    - apply errorM_bind_Ok in H2 as (at_ & ? & C4%now_time & H2). injection H2 as <- <-.
      exists (latency - step), (since at_ start), true. rewrite w64_id by (unfold in64; lia).
      split_and!; [lia|lia|lia|lia|]. right. by right.
    - injection H2 as <- <-. exists 0, 0, false. split_and!; [done|lia|lia|lia|]. by left. }
  pose proof (round_ok m1 latency ov sa a5 st H1 Hov m2 n Hm2) as Hr. cbv zeta in Hr.
  assert (duration_sum (ms_stallDurations m2) ≤ duration_sum (ms_stallDurations m) + ov) as Htot.
  { rewrite <- Q1. eapply stall_total; [|lia]. destruct Hm2 as [?|[?|[_ ?]]]; eauto. }
  assert (measures_ok m3 ∧ ms_stallDurations m3 = ms_stallDurations m2 ∧ time s5' ≤ time s6) as (Hm3 & Q3 & C6).
  { decide_in H3; [|injection H3 as <- <-; by split_and!].
    apply errorM_bind_Ok in H3 as (t & ? & C6%now_time & H3). injection H3 as <- <-.
    split_and!; [exact (ready_ok _ _ Hr)|done|lia]. }
  decide_in H; [injection H as <- <- <-; split_and!; [done|rewrite Q3; lia|lia|done]|].
  apply errorM_bind_Ok in H as (? & s7 & H7 & H). injection H as <- <- <-. rewrite Q3.
  assert (time s6 ≤ time s7 ∧ time s + step ≤ time s7) as [C7 C8]; [|split_and!; [done|lia|lia|done]].
  decide_in H7; [|injection H7 as _ <-; lia].
  apply stop_time in H7. pose proof (ck_sleep _ Hclock (step -! latency) s6) as Hs. rewrite H7 in Hs. cbn in Hs.
  rewrite w64_id in Hs by (unfold in64; lia). specialize (Hs ltac:(lia) eq_refl). lia.
Qed.

(** With fuel for a round per step until the deadline the loop ends. *)
Lemma bench_loop_ends fuel deadline now m s :
  measures_ok m → now ≤ time s → deadline - now ≤ Z.of_nat fuel * step →
  match bench_loop file bytesPerStep seekInterval step start fuel deadline now m s with
  | (Ok None, _) => False
  | (Ok (Some m'), s') =>
      measures_ok m' ∧ duration_sum (ms_stallDurations m') ≤ duration_sum (ms_stallDurations m) + (time s' - time s) ∧ time s ≤ time s'
  | (Err _, _) => True
  end.
Proof.
  revert now m s. induction fuel as [|fuel IH]; intros now m s Hm Hnow Hf; cbn [bench_loop].
  { rewrite decide_True by lia. split_and!; [done|lia|lia]. }
  case_decide; [split_and!; [done|lia|lia]|]. unfold mbind, errorM_bind at 1.
  destruct (bench_round _ _ _ _ _ now m s) as [[[b m1]|e] s1] eqn:Hr; [|done].
  apply bench_round_ok in Hr as (Hm1 & Ht & Hle & Hadv); [|done]. destruct b; [by split_and!|].
  specialize (Hadv eq_refl). unfold errorM_bind.
  destruct (ok sut_Now s1) as [[now'|e] s2] eqn:Hn; [|done]. apply now_time in Hn.
  specialize (IH now' m1 s2 Hm1 ltac:(lia) ltac:(lia)).
  destruct (bench_loop _ _ _ _ _ fuel deadline now' m1 s2) as [[[m2|]|e] s3]; [|done|done].
  destruct IH as (I1 & I2 & I3). split_and!; [done|lia|lia].
Qed.
End bench.

(** C26: A simulated playback ends, with an error or a result, within as many
    rounds as there are steps in its duration, if the clock never goes back and
    timers do not fire early.  Whatever the handle and the manager do, with a
    positive low watermark, the figures of the result agree: stalls are those of
    the warm-up and the steady state and no more than the reads, the buffer was
    sampled after every read, the percentiles ascend to the slowest read, and the
    longest stall is no shorter than the 95th percentile of the stalls and,
    unless the playback took 2^63 ns or longer, no longer than their sum, which
    is no more than the time it took. *)
Theorem stream_bench_consistent {S} `{!StreamUnderTest S} (time : S → Z) fuel file bitrate duration seekInterval step s :
  0 < sut_LowWatermark → 0 < step < 2 ^ 63 → clocked time → duration ≤ Z.of_nat fuel * step →
  match benchmarkStream fuel file bitrate duration seekInterval step s with
  | (Err _, _) => True
  | (Ok None, _) => False
  | (Ok (Some r), s') =>
      let m := sr_measures r in
      ms_stalls m = ms_warmupStalls m + ms_steadyStalls m ∧
      ms_stalls m = zlen (ms_stallDurations m) ∧ ms_stalls m ≤ ms_bufferSamples m ∧
      ms_bufferSamples m = zlen (ms_readLatencies m) ∧ ms_bufferMin m ≤ ms_bufferMax m ∧
      ms_bufferZeroCount m ≤ ms_bufferLowCount m ≤ ms_bufferSamples m ∧
      sr_ReadP50 r ≤ sr_ReadP95 r ≤ sr_ReadP99 r ∧ sr_ReadP99 r ≤ sr_ReadMax r ∧
      (∀ x, x ∈ ms_readLatencies m → x ≤ sr_ReadMax r) ∧ sr_StallP95 r ≤ sr_StallMax r ∧
      (time s' - time s < 2 ^ 63 → sr_StallMax r ≤ sr_StallTotal r ≤ time s' - time s)
  end.
Proof.
  intros Hlow Hstep Hclock Hf. unfold benchmarkStream. case_decide as Hargs; [done|].
  unfold mbind, errorM_bind. unfold ok at 1. pose proof (ck_stats _ Hclock s) as C1.
  destruct (sut_Stats s) as [before s1]. cbn [snd] in C1.
  destruct (ok sut_Now s1) as [[start|e] s2] eqn:H2; [|done]. apply (now_time _ Hclock) in H2.
  pose proof (bench_loop_ends file (bytes_per_step bitrate step) seekInterval step start Hlow Hstep time Hclock
    fuel (start + duration) start (no_measures (if decide (0 < seekInterval) then Some (start + seekInterval) else None))
    s2 (no_measures_ok _) ltac:(lia) ltac:(lia)) as Hl.
  destruct (bench_loop _ _ _ _ _ fuel _ start _ s2) as [[[m|]|e] s3]; [|done|done]. destruct Hl as (Hm & Ht & C3).
  destruct (ok sut_Now s3) as [[finish|e] s4] eqn:H4; [|done]. apply (now_time _ Hclock) in H4.
  unfold ok. pose proof (ck_stats _ Hclock s4) as C5. destruct (sut_Stats s4) as [after s5]. cbn [snd] in C5.
  destruct before as [[d0 r0] h0], after as [[d1 r1] h1]. cbn -[Z.pow].
  cbv [mret errorM_ret].
  cbn [stream_result sr_measures sr_ReadP50 sr_ReadP95 sr_ReadP99 sr_ReadMax sr_StallP95 sr_StallMax sr_StallTotal].
  cbn [no_measures ms_stallDurations] in Ht. rewrite zsum_nil in Ht.
  destruct Hm as [[S1 S2] P _ L F [[_ Z2] Z3] R].
  split_and!; try done; try (apply percentile_mono; lia).
  - intros x Hx. by apply percentile_max.
  - destruct (decide (ms_stallDurations m = [])) as [->|Hne]; [done|].
    apply foldl_max_bound. by apply percentile_in.
  - intros Hend. rewrite foldl_total by (done || lia).
    pose proof (foldl_max_total (ms_stallDurations m) 0 ltac:(lia) P). lia.
Qed.

(** ** An example: reads that stall every other time *)
#[local] Instance slowStream : StreamUnderTest Z :=
  {| sut_ReadAt := λ _ len t, (Ok len, t + (if decide (Z.rem t 4 = 3) then 3 else 1));
     sut_BufferAhead := λ off t, (off - 20, t); sut_Stats := λ t, ((t, 0, 0), t); sut_Now := λ t, (t, t);
     sut_ctx := λ t, (None, t); sut_sleep := λ d t, (None, t + d); sut_LowWatermark := 8 |}.
Lemma slow_clocked : clocked (StreamUnderTest0 := slowStream) (λ t, t).
Proof. split; intros; cbn; try case_decide; lia. Qed.
Definition slowRun : result goError (option StreamBenchResult) * Z :=
  benchmarkStream (StreamUnderTest0 := slowStream) 20 (mkFile "7" 100 0) 8000 20 0 2 1.
Definition slowResult : StreamBenchResult :=
  match slowRun.1 with Ok (Some r) => r | _ => stream_result 0 0 (0, 0, 0) (0, 0, 0) (no_measures None) end.
Definition slowEnd : Z := slowRun.2.
Lemma slowRun_ok :
  benchmarkStream (StreamUnderTest0 := slowStream) 20 (mkFile "7" 100 0) 8000 20 0 2 1 = (Ok (Some slowResult), slowEnd).
Proof. vm_compute. reflexivity. Qed.
Lemma stream_bench_consistent_witness :
  0 < ms_stalls (sr_measures slowResult) ∧
  ms_stalls (sr_measures slowResult) =
    ms_warmupStalls (sr_measures slowResult) + ms_steadyStalls (sr_measures slowResult) ∧
  sr_StallMax slowResult ≤ sr_StallTotal slowResult.
Proof.
  pose proof (stream_bench_consistent (StreamUnderTest0 := slowStream) (λ t, t) 20 (mkFile "7" 100 0) 8000 20 0 2 1
    ltac:(by vm_compute) ltac:(lia) slow_clocked ltac:(lia)) as H.
  rewrite slowRun_ok in H. destruct H as (H & _ & _ & _ & _ & _ & _ & _ & _ & _ & Ht).
  split_and!; [vm_compute; reflexivity|exact H|]. apply Ht. vm_compute. reflexivity.
Defined.
