(* ===== verification/AppLife.v ===== *)
(** * The end of a run ([mountAndWait], [startRefreshLoop] and [Close] of [src/internal/app/app.go])

    The goroutines of an application with a mount: the main one, which waits
    for the server and then closes everything, the one that watches for the end
    of the context, the one that refreshes the root, and a caller of [Close].
    They share [a.server], [a.refreshCancel], the contexts and the
    [sync.Once]; a step is one critical section or one call.  [AppRun] has what
    happens up to the mount. *)
From S2P Require Import Prelude GoErrors.

(** [unmountServer]: the check under [a.mu], the call of [Unmount], its error. *)
Inductive unmountPc := UCheck | UCall | UReturned (e : option goError).
(** [Close], with what it found under [a.mu]; [CEnter] is at [closeOnce]. *)
Inductive closePc :=
| CEnter | CShutdown | CTake | CStop (stop server : bool) | CUnmount (u : unmountPc) | CStream | CStore | CReturned.
(** The main goroutine after [mountFunc] succeeded, and [run] when it is over. *)
Inductive mainPc :=
| MRefresh | MRegister | MWatch | MWait | MDone | MStop | MUnmount (u : unmountPc) | MForget | MClose (c : closePc).
Inductive watchPc := WNone | WSelect | WUnmount (u : unmountPc) | WReturned.
Inductive refreshPc := RNone | RSelect | RRefreshing | RReturned.
Inductive onceState := OnceFree | OnceRunning | OnceDone.

(** [sh_ctx]: the signal came; [sh_server], [sh_cancel]: [a.server] and
    [a.refreshCancel] are set; [sh_stopped]: [stopRefresh] was called;
    [sh_ended]: the kernel gave the mount up; [sh_done]: [done] is closed;
    [sh_errs]: the errors [Close] collects for [errors.Join]; and how often the
    stream manager and the store were closed. *)
Record Shared := mkShared {
  sh_ctx : bool; sh_server : bool; sh_cancel : bool; sh_stopped : bool; sh_ended : bool; sh_done : bool;
  sh_once : onceState; sh_errs : list goError; sh_streams : nat; sh_stores : nat
}.
#[export] Instance Shared_eta : Eta Shared := λ s,
  mkShared (sh_ctx s) (sh_server s) (sh_cancel s) (sh_stopped s) (sh_ended s) (sh_done s) (sh_once s) (sh_errs s)
    (sh_streams s) (sh_stores s).
Record Life := mkLife {
  l_main : mainPc; l_watch : watchPc; l_refresh : refreshPc; l_closer : option closePc; l_shared : Shared
}.
#[export] Instance Life_eta : Eta Life := λ l,
  mkLife (l_main l) (l_watch l) (l_refresh l) (l_closer l) (l_shared l).

Definition collect (e : option goError) (s : Shared) : Shared :=
  match e with Some e => s <| sh_errs ::= λ l, l ++ [e] |> | None => s end.

Section life.
(** The errors an [Unmount] may end with. *)
Context (unmount_fails : goError → Prop).

Inductive unmount_step : unmountPc * Shared → unmountPc * Shared → Prop :=
| unmount_not_current s : sh_server s = false → unmount_step (UCheck, s) (UReturned None, s)
| unmount_current s : sh_server s = true → unmount_step (UCheck, s) (UCall, s <| sh_server := false |>)
| unmount_succeeds s : unmount_step (UCall, s) (UReturned None, s <| sh_ended := true |>)
| unmount_fails_with s e : unmount_fails e → unmount_step (UCall, s) (UReturned (Some e), s).

Inductive close_step : closePc * Shared → closePc * Shared → Prop :=
| close_first s : sh_once s = OnceFree → close_step (CEnter, s) (CShutdown, s <| sh_once := OnceRunning |>)
| close_again s : sh_once s = OnceDone → close_step (CEnter, s) (CReturned, s)
| close_shutdown s e : close_step (CShutdown, s) (CTake, collect e s)
| close_take s : close_step (CTake, s) (CStop (sh_cancel s) (sh_server s), s <| sh_cancel := false |>)
| close_stop s (stop server : bool) :
    close_step (CStop stop server, s)
      (if server then CUnmount UCheck else CStream, if stop then s <| sh_stopped := true |> else s)
| close_unmount s u u' s' : unmount_step (u, s) (u', s') → close_step (CUnmount u, s) (CUnmount u', s')
| close_unmounted s e : close_step (CUnmount (UReturned e), s) (CStream, collect e s)
| close_stream s e : close_step (CStream, s) (CStore, collect e (s <| sh_streams ::= S |>))
| close_store s e : close_step (CStore, s) (CReturned, collect e (s <| sh_stores ::= S |> <| sh_once := OnceDone |>)).

Inductive main_step : Life → Life → Prop :=
| main_refresh l : l_main l = MRefresh → main_step l (l <| l_main := MRegister |> <| l_refresh := RSelect |>)
| main_register l :
    l_main l = MRegister →
    main_step l (l <| l_main := MWatch |> <| l_shared ::= λ s, s <| sh_server := true |> <| sh_cancel := true |> |>)
| main_watch l : l_main l = MWatch → main_step l (l <| l_main := MWait |> <| l_watch := WSelect |>)
| main_wait l : l_main l = MWait → sh_ended (l_shared l) = true → main_step l (l <| l_main := MDone |>)
| main_done l : l_main l = MDone → main_step l (l <| l_main := MStop |> <| l_shared ::= λ s, s <| sh_done := true |> |>)
| main_stop l :
    l_main l = MStop →
    main_step l (l <| l_main := MUnmount UCheck |> <| l_shared ::= λ s, s <| sh_stopped := true |> |>)
| main_unmount l u u' s' :
    l_main l = MUnmount u → unmount_step (u, l_shared l) (u', s') →
    main_step l (l <| l_main := MUnmount u' |> <| l_shared := s' |>)
| main_unmounted l e : l_main l = MUnmount (UReturned e) → main_step l (l <| l_main := MForget |>)
| main_forget l :
    l_main l = MForget →
    main_step l (l <| l_main := MClose CEnter |> <| l_shared ::= λ s, s <| sh_cancel := false |> |>)
| main_close l c c' s' :
    l_main l = MClose c → close_step (c, l_shared l) (c', s') →
    main_step l (l <| l_main := MClose c' |> <| l_shared := s' |>).

Inductive watch_step : Life → Life → Prop :=
| watch_ctx l : l_watch l = WSelect → sh_ctx (l_shared l) = true → watch_step l (l <| l_watch := WUnmount UCheck |>)
| watch_done l : l_watch l = WSelect → sh_done (l_shared l) = true → watch_step l (l <| l_watch := WReturned |>)
| watch_unmount l u u' s' :
    l_watch l = WUnmount u → unmount_step (u, l_shared l) (u', s') →
    watch_step l (l <| l_watch := WUnmount u' |> <| l_shared := s' |>)
| watch_unmounted l e : l_watch l = WUnmount (UReturned e) → watch_step l (l <| l_watch := WReturned |>).

(** What the goroutines do by themselves. *)
Inductive progress : Life → Life → Prop :=
| by_main l l' : main_step l l' → progress l l'
| by_watch l l' : watch_step l l' → progress l l'
| refresh_ends l : l_refresh l = RRefreshing → progress l (l <| l_refresh := RSelect |>)
| refresh_stops l :
    l_refresh l = RSelect → sh_stopped (l_shared l) || sh_ctx (l_shared l) = true →
    progress l (l <| l_refresh := RReturned |>)
| by_closer l c c' s' :
    l_closer l = Some c → close_step (c, l_shared l) (c', s') →
    progress l (l <| l_closer := Some c' |> <| l_shared := s' |>).
(** What happens to them: the ticker fires, the signal comes, the mount is
    ended from outside, somebody calls [Close]. *)
Inductive event : Life → Life → Prop :=
| ticker_fires l : l_refresh l = RSelect → event l (l <| l_refresh := RRefreshing |>)
| signal_comes l : event l (l <| l_shared ::= λ s, s <| sh_ctx := true |> |>)
| mount_ends l : event l (l <| l_shared ::= λ s, s <| sh_ended := true |> |>)
| close_called l : l_closer l = None → event l (l <| l_closer := Some CEnter |>).
Definition life_step (l l' : Life) : Prop := progress l l' ∨ event l l'.
End life.

Definition nothing_shared : Shared := mkShared false false false false false false OnceFree [] 0 0.
(** [run] mounted, or returned before it did. *)
Definition life_start (mounted : bool) : Life :=
  mkLife (if mounted then MRefresh else MClose CEnter) WNone RNone None nothing_shared.
