(* ===== verification/AppLifeProps.v ===== *)
(** * A run ends

    Once the signal has come and the mount can be unmounted, the main goroutine
    returns with every component closed once and no goroutine left; a mount
    that cannot be unmounted keeps the run waiting for ever. *)
From S2P Require Import Prelude GoErrors AppLife.

(** ** A measure of what is left to do *)
Definition unmount_left (u : unmountPc) : nat := match u with UCheck => 3 | UCall => 2 | UReturned _ => 1 end.
Definition close_left (c : closePc) : nat :=
  match c with
  | CEnter => 9 | CShutdown => 8 | CTake => 7 | CStop _ _ => 6 | CUnmount u => 2 + unmount_left u
  | CStream => 2 | CStore => 1 | CReturned => 0
  end.
Definition main_left (m : mainPc) : nat :=
  match m with
  | MRefresh => 25 | MRegister => 23 | MWatch => 22 | MWait => 16 | MDone => 15 | MStop => 14
  | MUnmount u => 10 + unmount_left u | MForget => 10 | MClose c => close_left c
  end.
Definition watch_left (w : watchPc) : nat :=
  match w with WSelect => 5 | WUnmount u => 1 + unmount_left u | WNone | WReturned => 0 end.
Definition refresh_left (r : refreshPc) : nat := match r with RSelect => 1 | RRefreshing => 2 | RNone | RReturned => 0 end.
Definition left_to_do (l : Life) : nat :=
  main_left (l_main l) + watch_left (l_watch l) + refresh_left (l_refresh l) + from_option close_left 0%nat (l_closer l).

(** ** The invariant *)
Definition closing (m : mainPc) : option closePc := match m with MClose c => Some c | _ => None end.
Definition held (c : closePc) : nat := match c with CEnter | CReturned => 0 | _ => 1 end.
Definition at_store (c : closePc) : nat := match c with CStore => 1 | _ => 0 end.
Definition returned (c : closePc) : nat := match c with CReturned => 1 | _ => 0 end.
Definition running (o : onceState) : nat := match o with OnceRunning => 1 | _ => 0 end.
Definition finished (o : onceState) : nat := match o with OnceDone => 1 | _ => 0 end.
(** The [sync.Once] and what was closed, with [h] callers inside, [t] of them
    about to close the store, and [r] back. *)
Record books (s : Shared) (h t r : nat) : Prop := {
  bk_once : h = running (sh_once s);
  bk_streams : sh_streams s = (finished (sh_once s) + t)%nat;
  bk_stores : sh_stores s = finished (sh_once s);
  bk_returned : r ≠ 0%nat → sh_once s = OnceDone
}.
Definition tally (f : closePc → nat) (l : Life) : nat :=
  from_option f 0%nat (closing (l_main l)) + from_option f 0%nat (l_closer l).
Definition phase (m : mainPc) : nat :=
  match m with
  | MRefresh => 0 | MRegister => 1 | MWatch => 2 | MWait => 3 | MDone => 4 | MStop => 5
  | MUnmount UCheck => 6 | MUnmount _ => 7 | MForget => 8 | MClose _ => 9
  end.
Definition checked (w : watchPc) : bool :=
  match w with WNone | WSelect | WUnmount UCheck => false | _ => true end.
Definition calling (l : Life) : Prop := l_watch l = WUnmount UCall ∨ l_closer l = Some (CUnmount UCall).
Record life_inv (l : Life) : Prop := {
  li_books : books (l_shared l) (tally held l) (tally at_store l) (tally returned l);
  li_mount : (2 ≤ phase (l_main l) ≤ 3)%nat →
    sh_ended (l_shared l) = true ∨ sh_server (l_shared l) = true ∨ calling l;
  li_early : (phase (l_main l) ≤ 4)%nat → sh_done (l_shared l) = false;
  li_unwatched : (phase (l_main l) ≤ 2)%nat → l_watch l = WNone;
  li_watch : phase (l_main l) = 3%nat →
    l_watch l ≠ WNone ∧ (checked (l_watch l) = true → sh_server (l_shared l) = false);
  li_done : (5 ≤ phase (l_main l))%nat → sh_done (l_shared l) = true ∨ l_watch l = WNone;
  li_stopped : (6 ≤ phase (l_main l))%nat → sh_stopped (l_shared l) = true ∨ l_refresh l = RNone;
  li_server : (7 ≤ phase (l_main l))%nat → sh_server (l_shared l) = false
}.
Lemma life_start_inv mounted : life_inv (life_start mounted).
Proof. destruct mounted; split; cbn; (done || lia || auto). Qed.

Section props.
Context (unmount_fails : goError → Prop).
Abbreviation progress := (progress unmount_fails).

Lemma unmount_step_left u s u' s' :
  unmount_step unmount_fails (u, s) (u', s') → (unmount_left u' < unmount_left u)%nat.
Proof. inversion 1; subst; cbn; lia. Qed.
Lemma close_step_left c s c' s' : close_step unmount_fails (c, s) (c', s') → (close_left c' < close_left c)%nat.
Proof.
  inversion 1 as [| | | | s0 stop server | s0 u u' s0' Hu | | |]; subst; cbn; try lia; [destruct server; cbn; lia|].
  apply unmount_step_left in Hu. lia.
Qed.
Ltac at_pc :=
  repeat match goal with
  | H : l_main _ = _ |- _ => rewrite H in *; clear H
  | H : l_watch _ = _ |- _ => rewrite H in *; clear H
  | H : l_refresh _ = _ |- _ => rewrite H in *; clear H
  | H : l_closer _ = _ |- _ => rewrite H in *; clear H
  end.
Lemma progress_left l l' : progress l l' → (left_to_do l' < left_to_do l)%nat.
Proof.
  unfold left_to_do.
  intros [? ? []|? ? []|? Hr|? Hr ?|? ? ? ? Hc Hs]; cbn; at_pc;
    repeat match goal with
    | H : unmount_step _ _ _ |- _ => apply unmount_step_left in H
    | H : close_step _ _ _ |- _ => apply close_step_left in H
    end; cbn; try lia; destruct (l_watch l), (l_refresh l); cbn; lia.
Qed.
Lemma progress_sn l : sn progress l.
Proof.
  remember (left_to_do l) as n eqn:Hn. revert l Hn. induction (lt_wf n) as [n _ IH]. intros l ->.
  constructor. intros l' Hl. apply (IH (left_to_do l')); [by apply progress_left|done].
Qed.

(** ** Steps keep it *)
Hypothesis unmount_ok : ∀ e, ¬ unmount_fails e.
(** What an actor's step does to the shared state, from [callingb] to
    [callingb']: whether it was, and is, about to call [Unmount]. *)
Record shared_step (callingb callingb' : bool) (s s' : Shared) : Prop := {
  ss_done : sh_done s' = sh_done s;
  ss_ctx : sh_ctx s' = sh_ctx s;
  ss_stopped : sh_stopped s = true → sh_stopped s' = true;
  ss_ended : sh_ended s = true → sh_ended s' = true;
  ss_server : sh_server s = false → sh_server s' = false;
  ss_taken : sh_server s = true → sh_server s' = true ∨ callingb' = true;
  ss_called : callingb = true → sh_ended s' = true
}.
Definition ucall (u : unmountPc) : bool := match u with UCall => true | _ => false end.
Definition ccall (c : closePc) : bool := match c with CUnmount u => ucall u | _ => false end.
Lemma collect_shared e s : shared_step false false s (collect e s).
Proof. destruct e; split; cbn; (done || auto). Qed.
Lemma unmount_shared u s u' s' :
  unmount_step unmount_fails (u, s) (u', s') →
  shared_step (ucall u) (ucall u') s s' ∧ ∀ h t r, books s h t r → books s' h t r.
Proof.
  inversion 1; subst; try (by edestruct unmount_ok);
    (split; [split; cbn; (done || auto || congruence)|intros h t r []; by split]).
Qed.
Lemma unmount_checked s u' s' : unmount_step unmount_fails (UCheck, s) (u', s') → sh_server s' = false.
Proof. inversion 1; subst; done. Qed.
Lemma close_shared c s c' s' :
  close_step unmount_fails (c, s) (c', s') → shared_step (ccall c) (ccall c') s s'.
Proof.
  inversion 1 as [| | | | ? stop server | ? ? ? ? Hu | | |]; subst.
  all: try (apply unmount_shared in Hu; exact (proj1 Hu)).
  all: try (destruct server, stop); try (destruct e); split; cbn; (done || auto).
Qed.
Lemma close_books c s c' s' :
  close_step unmount_fails (c, s) (c', s') →
  ∀ h t r, books s (held c + h) (at_store c + t) (returned c + r) →
  books s' (held c' + h) (at_store c' + t) (returned c' + r).
Proof.
  inversion 1 as [? Ho|? Ho| | | ? stop server | ? ? ? ? Hu | | |]; subst; intros h t r Hb.
  all: try (apply unmount_shared in Hu as [_ Hu]; exact (Hu _ _ _ Hb)).
  all: match goal with s : Shared |- _ => destruct s as [? ? ? ? ? ? o ? ? ?] end; destruct Hb as [B1 B2 B3 B4].
  all: try (destruct server, stop); try destruct e; cbn in *; subst; split; cbn; auto; try lia.
  all: try match goal with o : onceState |- _ => destruct o end; cbn in *; try done; try lia; intros Hr; by apply B4 in Hr.
Qed.

(** Fields the books do not look at. *)
Lemma books_same s s' h t r :
  sh_once s' = sh_once s → sh_streams s' = sh_streams s → sh_stores s' = sh_stores s → books s h t r → books s' h t r.
Proof. intros H1 H2 H3 []. split; rewrite ?H1, ?H2, ?H3; done. Qed.
Ltac field_cases :=
  unfold tally, calling in *; cbn in *; intros; try lia; try done; try (eapply books_same; [..|eassumption]; done).
Lemma main_inv l l' : main_step unmount_fails l l' → life_inv l → life_inv l'.
Proof.
  intros [l0 Hm|l0 Hm|l0 Hm|l0 Hm He|l0 Hm|l0 Hm|l0 u u' s' Hm Hu|l0 e Hm|l0 Hm|l0 c c' s' Hm Hc] [B M E U W D T V].
  all: unfold tally, calling in *; rewrite Hm in *; cbn in *.
  1-6, 8, 9: split; field_cases; auto with lia.
  - rewrite U in M by lia. destruct (M ltac:(lia)) as [?|[?|[?|?]]]; auto; done.
  - destruct (unmount_shared _ _ _ _ Hu) as [[] Hb].
    assert (u = UCheck → sh_server s' = false) as Hck by (intros ->; by eapply unmount_checked).
    destruct u, u'; try (by inversion Hu); cbn in *;
      (split; field_cases; [by apply Hb|rewrite ss_done0; auto with lia|destruct T; auto with lia|auto with lia]).
  - destruct (close_shared _ _ _ _ Hc) as []. pose proof (close_books _ _ _ _ Hc _ _ _ B) as Hb.
    split; unfold tally, calling; cbn; try lia; [done|..]; intros _.
    + rewrite ss_done0. apply D. lia.
    + destruct T as [?|?]; [lia|auto|auto].
    + apply ss_server0, V. lia.
Qed.
Ltac by_field F :=
  let Hp := fresh "Hp" in intros Hp; specialize (F Hp); (done || (destruct F as [?|[?|[?|?]]]; auto; done) || (destruct F; auto; done)).
Lemma watch_inv l l' : watch_step unmount_fails l l' → life_inv l → life_inv l'.
Proof.
  intros [l0 Hw Hx|l0 Hw Hx|l0 u u' s' Hw Hu|l0 e Hw] [B M E U W D T V].
  all: unfold tally, calling in *; rewrite Hw in *; cbn in *.
  - split; unfold tally, calling; cbn; auto; [by_field M|by_field U|by intros _; split|by_field D].
  - split; unfold tally, calling; cbn; auto; [by_field M|by_field U|].
    intros Hp. rewrite E in Hx by lia. done.
  - destruct (unmount_shared _ _ _ _ Hu) as [[] Hb].
    split; unfold tally, calling; cbn.
    + by apply Hb.
    + intros Hp. destruct (M Hp) as [?|[Hs|[[= ->]|Hc]]]; [by left; auto| | |auto].
      * destruct (ss_taken0 Hs) as [?|Hc]; [auto|]. right; right; left. by destruct u'.
      * left. auto.
    + rewrite ss_done0. done.
    + by_field U.
    + intros Hp. split; [done|]. intros _. destruct u as [| |e]; [by eapply unmount_checked|..]; apply ss_server0, W; done.
    + rewrite ss_done0. by_field D.
    + intros Hp. destruct (T Hp); auto.
    + auto.
  - split; unfold tally, calling; cbn; auto; [by_field M|by_field U|by_field W|by_field D].
Qed.
Lemma progress_inv l l' : progress l l' → life_inv l → life_inv l'.
Proof.
  intros [? ? Hs|? ? Hs|l0 Hr|l0 Hr Hx|l0 c c' s' Hl Hc] Hi; [by eapply main_inv|by eapply watch_inv| | |].
  1,2: destruct Hi as [B M E U W D T V]; split; unfold tally, calling in *; cbn; auto; rewrite Hr in T; by_field T.
  destruct Hi as [B M E U W D T V]. unfold tally, calling in *. rewrite Hl in *. cbn in *.
  destruct (close_shared _ _ _ _ Hc) as [].
  split; unfold tally, calling; cbn.
  - rewrite Nat.add_comm, (Nat.add_comm _ (at_store c')), (Nat.add_comm _ (returned c')).
    eapply close_books; [done|]. by rewrite Nat.add_comm, (Nat.add_comm (at_store c)), (Nat.add_comm (returned c)).
  - intros Hp. destruct (M Hp) as [?|[Hs|[?|[= ->]]]]; [by left; auto| |auto|by left; auto].
    destruct (ss_taken0 Hs) as [?|Hx]; [auto|]. right; right; right. destruct c' as [| | | |[]| | |]; done.
  - rewrite ss_done0. done.
  - done.
  - intros Hp. destruct (W Hp). auto.
  - rewrite ss_done0. done.
  - intros Hp. destruct (T Hp); auto.
  - auto.
Qed.
Lemma event_inv l l' : event l l' → life_inv l → life_inv l'.
Proof.
  intros [l0 Hr|l0|l0|l0 Hc] [B M E U W D T V]; unfold tally, calling in *; try rewrite Hr in T; try rewrite Hc in *;
    (split; unfold tally, calling; cbn; try (eapply books_same; [..|eassumption]; done); auto).
  - by_field T.
  - by_field M.
Qed.
Lemma life_reachable mounted l : rtc (life_step unmount_fails) (life_start mounted) l → life_inv l.
Proof.
  intros Hr. pose proof (life_start_inv mounted) as Hi. revert Hi.
  induction Hr as [|l1 l2 l3 [Hs|Hs] _ IH]; [done|..]; intros Hi; apply IH; [by eapply progress_inv|by eapply event_inv].
Qed.
Lemma progress_ctx l l' : progress l l' → sh_ctx (l_shared l') = sh_ctx (l_shared l).
Proof.
  intros [? ? []|? ? []|? Hr|? Hr ?|? ? ? ? Hl Hc]; cbn; try done;
    repeat match goal with
    | H : unmount_step _ _ _ |- _ => apply unmount_shared in H as [[] _]
    | H : close_step _ _ _ |- _ => apply close_shared in H as []
    end; done.
Qed.

(** ** Where nothing can go on *)
Record over (l : Life) : Prop := {
  ov_main : l_main l = MClose CReturned;
  ov_watch : l_watch l = WNone ∨ l_watch l = WReturned;
  ov_refresh : l_refresh l = RNone ∨ l_refresh l = RReturned;
  ov_closer : l_closer l = None ∨ l_closer l = Some CReturned;
  ov_server : sh_server (l_shared l) = false;
  ov_closed : sh_streams (l_shared l) = 1%nat ∧ sh_stores (l_shared l) = 1%nat
}.
Lemma unmount_red u s : (∃ e, u = UReturned e) ∨ ∃ u' s', unmount_step unmount_fails (u, s) (u', s').
Proof. destruct u; [right|right|eauto]; [destruct (sh_server s) eqn:Hs|]; eauto using unmount_step. Qed.
Lemma close_red c s :
  c = CReturned ∨ c = CEnter ∧ sh_once s = OnceRunning ∨ ∃ c' s', close_step unmount_fails (c, s) (c', s').
Proof.
  destruct c as [| | | |u| | |]; [|right; right|right; right|right; right|right; right|right; right|right; right|by left].
  - right. destruct (sh_once s) eqn:Ho; [right| by left|right]; eauto using close_step.
  - exists CTake, (collect None s). constructor.
  - eauto using close_step.
  - eauto using close_step.
  - destruct (unmount_red u s) as [[e ->]|(u' & s' & Hu)]; eauto using close_step.
  - exists CStore, (collect None (s <| sh_streams ::= S |>)). constructor.
  - exists CReturned, (collect None (s <| sh_stores ::= S |> <| sh_once := OnceDone |>)). constructor.
Qed.
Section final.
Context (l : Life) (Hinv : life_inv l) (Hctx : sh_ctx (l_shared l) = true) (Hnf : nf progress l).
Lemma no_progress l' : ¬ progress l l'.
Proof. intros Hp. apply Hnf. by exists l'. Qed.
Ltac stuck := exfalso; eapply no_progress;
  first [apply by_main; constructor; eassumption | apply by_watch; constructor; eassumption | constructor; eassumption].
Lemma final_watch : l_watch l = WNone ∨ l_watch l = WReturned.
Proof.
  destruct (l_watch l) as [| |u|] eqn:Hw; [by left| | |by right].
  - exfalso. eapply no_progress, by_watch, watch_ctx; eassumption.
  - exfalso. destruct (unmount_red u (l_shared l)) as [[e ->]|(u' & s' & Hu)];
      eapply no_progress, by_watch; [eapply watch_unmounted|eapply watch_unmount]; eassumption.
Qed.
Lemma final_refresh : l_refresh l = RNone ∨ l_refresh l = RReturned.
Proof.
  destruct (l_refresh l) eqn:Hr; [by left|exfalso..|by right]; eapply no_progress; [eapply refresh_stops|eapply refresh_ends]; try done.
  rewrite Hctx. apply orb_true_r.
Qed.
Lemma final_held c f : (f = Some c ∧ l_main l = MClose c) ∨ (f = Some c ∧ l_closer l = f) →
  c = CReturned ∨ c = CEnter ∧ sh_once (l_shared l) = OnceRunning.
Proof.
  intros Hf. destruct (close_red c (l_shared l)) as [?|[?|(c' & s' & Hc)]]; [by left|by right|].
  exfalso. destruct Hf as [[_ Hf]|[-> Hf]]; eapply no_progress; [eapply by_main, main_close|eapply by_closer]; eassumption.
Qed.
Lemma final_once : sh_once (l_shared l) ≠ OnceRunning.
Proof.
  intros Ho. pose proof (bk_once _ _ _ _ (li_books l Hinv)) as Ht. rewrite Ho in Ht. cbn in Ht. unfold tally in Ht.
  assert (from_option held 0%nat (closing (l_main l)) = 0%nat) as H1.
  { destruct (l_main l) as [| | | | | | | |c] eqn:Hm; try done. cbn.
    destruct (final_held c (Some c)) as [->|[-> _]]; [by left|done|done]. }
  assert (from_option held 0%nat (l_closer l) = 0%nat) as H2.
  { destruct (l_closer l) as [c|] eqn:Hc; [|done]. cbn.
    destruct (final_held c (Some c)) as [->|[-> _]]; [by right|done|done]. }
  lia.
Qed.
Lemma final_closer : l_closer l = None ∨ l_closer l = Some CReturned.
Proof.
  destruct (l_closer l) as [c|] eqn:Hc; [right|by left].
  destruct (final_held c (Some c)) as [->|[_ Ho]]; [by right|done|]. by destruct final_once.
Qed.
Lemma final_main : l_main l = MClose CReturned.
Proof.
  destruct (l_main l) as [| | | | | |u| |c] eqn:Hm.
  1-3, 5, 6, 8: exfalso; eapply no_progress, by_main; econstructor; eassumption.
  - exfalso. destruct (li_mount l Hinv) as [He|[Hs|[Hw|Hc]]]; [rewrite Hm; cbn; lia|..].
    + eapply no_progress, by_main, main_wait; eassumption.
    + destruct (li_watch l Hinv) as [Hw Hck]; [by rewrite Hm|].
      destruct final_watch as [?|Hr]; [done|]. rewrite Hr in Hck. rewrite Hck in Hs by done. done.
    + by destruct final_watch; congruence.
    + by destruct final_closer; congruence.
  - exfalso. destruct (unmount_red u (l_shared l)) as [[e ->]|(u' & s' & Hu)];
      eapply no_progress, by_main; [eapply main_unmounted|eapply main_unmount]; eassumption.
  - destruct (final_held c (Some c)) as [->|[_ Ho]]; [by left|done|]. by destruct final_once.
Qed.
Lemma final_over : over l.
Proof.
  split; [apply final_main|apply final_watch|apply final_refresh|apply final_closer| |].
  - apply li_server; [done|]. rewrite final_main. cbn. lia.
  - destruct (li_books l Hinv) as [_ Hs Ht Hr]. rewrite Hs, Ht, Hr by (unfold tally; rewrite final_main; cbn; lia).
    unfold tally. rewrite final_main. by destruct final_closer as [->| ->].
Qed.
End final.
End props.

(** C18: When the signal has come, and [Unmount] succeeds, a run ends: whatever
    the goroutines have done so far, what they still do by themselves comes to
    an end, and then the main goroutine and [Close] have returned, the watcher
    and the refresher too, the server was unmounted, and the stream manager and
    the store were closed once each. *)
Theorem run_ends_after_signal unmount_fails mounted l :
  (∀ e, ¬ unmount_fails e) → rtc (life_step unmount_fails) (life_start mounted) l → sh_ctx (l_shared l) = true →
  sn (progress unmount_fails) l ∧
  ∀ l', rtc (progress unmount_fails) l l' → nf (progress unmount_fails) l' → over l'.
Proof.
  intros Hok Hr Hctx. split; [apply progress_sn|]. apply life_reachable in Hr; [|done].
  induction 1 as [l'|l1 l2 l3 Hs _ IH]; [by apply final_over|].
  apply IH; [by eapply progress_inv|by rewrite (progress_ctx _ Hok _ _ Hs)].
Qed.

(** ** Examples *)
Definition signalled : Life := (life_start true) <| l_shared ::= λ s, s <| sh_ctx := true |> |>.
Lemma signalled_reachable : rtc (life_step (λ _, False)) (life_start true) signalled.
Proof. apply rtc_once. right. apply signal_comes. Qed.
Lemma run_ends_after_signal_witness :
  sn (progress (λ _, False)) signalled ∧
  ∀ l', rtc (progress (λ _, False)) signalled l' → nf (progress (λ _, False)) l' → over l'.
Proof. exact (run_ends_after_signal (λ _, False) true signalled (λ e h, h) signalled_reachable eq_refl). Defined.

(** When [Unmount] fails ("device or resource busy"), the watcher has taken
    the server and is gone: the run waits for a mount nobody will end. *)
Definition hanging : Life :=
  mkLife MWait WReturned RReturned None (mkShared true false true false false false OnceFree [] 0 0).
Lemma failed_unmount_hangs (busy : goError) :
  rtc (life_step (λ e, e = busy)) (life_start true) hanging ∧ nf (progress (λ e, e = busy)) hanging.
Proof.
  split.
  - eapply rtc_l; [left; by apply by_main, main_refresh|]. eapply rtc_l; [left; by apply by_main, main_register|].
    eapply rtc_l; [left; by apply by_main, main_watch|]. eapply rtc_l; [right; apply signal_comes|].
    eapply rtc_l; [left; by apply by_watch, watch_ctx|].
    eapply rtc_l; [left; eapply by_watch, watch_unmount; [done|by apply unmount_current]|].
    eapply rtc_l; [left; eapply by_watch, watch_unmount; [done|by apply unmount_fails_with]|].
    eapply rtc_l; [left; by eapply by_watch, watch_unmounted|]. eapply rtc_l; [left; by apply refresh_stops|].
    apply rtc_refl.
  - intros [l' Hp]. inversion Hp as [? ? Hs|? ? Hs|? Hs|? Hs|? ? ? ? Hs]; subst; try done; inversion Hs; done.
Qed.
