(* ===== verification/EndToEnd.v ===== *)
(** * A read of the mount, from the HTTP responses up

    The layers a read goes through, each run on the one below: the Baidu
    client on the responses of the service, the remote reader on the client,
    the stream manager on the reader's [ReadStreamRange], and [Read] of the
    file system on the manager's [ReadAt] and the reader's [ReadRange] and
    [ReadCachedWindow].  The layers' own promises compose: what the mount
    returns is in the file if the responses are.  A download that the reader
    cuts into concurrent chunks is the exception: of it only the length is
    known ([RemoteProps.concurrent_chunks_lose_bytes] says why). *)
From S2P Require Import Prelude GoStrings GoList ChunkKeys ChunkStore ChunkCache TaskHeap StreamConfig Access Manager ManagerTasks ManagerSteps ManagerContent ManagerServes ManagerDemo ManagerProps GoErrors Goroutines ReadCache ReadCacheInv Remote RemoteInv RemoteProps BaiduClient ClientProps MetaStore Filesystem FilesystemRead.

(** ** Runs under a service that answers less *)
Lemma allowed_mono {St In Q P R X A} (R1 R2 : Q → P → Prop) (p : @prog St In Q P R X A) c :
  (∀ q a, R1 q a → R2 q a) → allowed R1 p c → allowed R2 p c.
Proof.
  intros HR. revert c. induction p as [A a|A B f k IH|A q k IH|A id k IH|A B n ps IHp k IH]; intros c; cbn; try done.
  - destruct c; auto.
  - destruct c; auto.
Qed.
Lemma runs_mono {St In Q P R X A} table (R1 R2 : Q → P → Prop) (p p' : @prog St In Q P R X A) s s' :
  (∀ q a, R1 q a → R2 q a) → runs table R1 p s p' s' → runs table R2 p s p' s'.
Proof.
  intros HR. induction 1 as [p s|p s c p1 s1 p' s' Ha Hs _ IH]; [constructor|].
  eapply runs_step; [by eapply allowed_mono|exact Hs|exact IH].
Qed.

Section layers.
(** The files of the drive, by fsid. *)
Context (content : string → bytes) (Hsize : ∀ fsid, zlen (content fsid) < 2 ^ 62).
(** Whether the reader's downloads are sequential: a proposition that, if it
    holds, keeps every [SetDownloadOptions] to a concurrency of at most 1. *)
Context (sequential : Prop).
Definition file_content (file : File) : bytes := content (FSID file).

(** ** The reader on the client
    A ranged read is [BaiduClient.ReadRange] on some link, some exchange whose
    response tells the truth about the file, and some context. *)
Definition client_exchange (q : request) (a : outcome) : Prop :=
  match q with
  | QReadRange _ fsid offset length =>
      ∃ link answer ctx, (∀ resp, answer = Ok resp → truthful (content fsid) resp) ∧
        BaiduClient.ReadRange offset length link answer ctx = a
  | _ => True
  end.
Lemma client_answers q a : client_exchange q a → answers content q a.
Proof.
  destruct q as [client fsid offset length|? ?|?]; [|by destruct a..]. intros (link & answer & ctx & Ht & Hr).
  destruct a as [data [e|]]; [done|]. intros Hq. pose proof Hq as (H0 & Hl & Hmax).
  apply client_read_slice with (file := content fsid) in Hr as ->; [|done..]. by apply slice_prefix.
Qed.
(** [got] is what the call [c] returned, among any calls that ran on a reader
    since it was made. *)
Definition reader_returns (c : call) (got : reply) : Prop :=
  ∃ client calls p' r' results i,
    Forall (call_ok sequential) calls ∧
    runs r_objs client_exchange (calls_run calls) (NewReader (Some client)) p' r' ∧ value p' = Some results ∧
    calls !! i = Some c ∧ results !! i = Some got.
Lemma reader_returns_right c got : reader_returns c got → call_right content sequential c got.
Proof.
  intros (client & calls & p' & r' & results & i & Hok & Hr & Hv & Hi & Hg).
  apply (runs_mono _ _ _ _ _ _ _ client_answers) in Hr.
  destruct (together_right r_objs (answers content) (reader_wf content sequential) (length calls) _ _ _ ∅
    (calls_safe content sequential calls ∅ Hsize Hok) (NewReader_wf content sequential client) (NewReader_idle _) p' r' results Hr Hv)
    as [[_ Hb] _]. exact (Hb i got Hg c Hi).
Qed.

(** ** The manager on the reader *)
Definition stream_reply (got : reply) : result streamErr bytes :=
  match got with Ok data => Ok data | Err _ => Err ErrRemote end.
(** Downloads and hedges get what [ReadStreamRange] returned for their range;
    the rest is as the manager's theorems ask. *)
Definition stream_label {S} `{!ChunkCache S} cs (m : manager S) (l : label) : Prop :=
  match l with
  | LAttempt id reply | LHedgeReply id reply =>
      ∀ t, obj m id = Some t → ∃ got,
        reader_returns (CReadStreamRange (FSID (t_file t)) (t_offset t) (t_length t)) got ∧ reply = stream_reply got
  | _ => label_right file_content cs m l
  end.
Inductive streams {S} `{!ChunkCache S} cs (m0 : manager S) : manager S → Prop :=
| streams_start : streams cs m0 m0
| streams_step l m m' :
    streams cs m0 m → stream_label cs m l → enabled l m → perform l m = Some m' → streams cs m0 m'.
Lemma stream_label_right {S} `{!ChunkCache S} cs (m : manager S) l :
  stream_label cs m l → label_right file_content cs m l.
Proof.
  destruct l; try done; intros Hl t Ht d -> Hd; destruct (Hl t Ht) as ([data|e] & Hg & Hr); try done;
    injection Hr as <-; apply reader_returns_right in Hg; exact (proj1 Hg).
Qed.
Lemma streams_served {S} `{!ChunkCache S} cs (m0 m : manager S) : streams cs m0 m → served file_content cs m0 m.
Proof. induction 1; [constructor|]. eapply served_step; [done|by apply stream_label_right|done|done]. Qed.
(** [data] is what [ReadAt] of a handle on [file] returned. *)
Definition manager_returns (file : File) off len data : Prop :=
  match readAt_clip file off len with
  | Err _ => False
  | Ok None => data = []
  | Ok (Some length) =>
      ∃ io cfg d (m0 m : manager chunkStore) rid r,
        NewManager io cfg d = Some m0 ∧ ChunkSize (m_cfg m0) < 2 ^ 61 ∧
        dir_right file_content (ChunkSize (m_cfg m0)) d ∧ streams (ChunkSize (m_cfg m0)) m0 m ∧
        m_reads m !! rid = Some r ∧ rd_pc r = RDone (Ok data) ∧
        rd_file r = file ∧ rd_offset r = off ∧ rd_length r = length
  end.
Lemma manager_returns_right file off len data :
  Size file = zlen (file_content file) → off + len < 2 ^ 63 → manager_returns file off len data →
  data = slice (file_content file) off len.
Proof.
  intros Hs Hmax. unfold manager_returns, readAt_clip. case_decide; [done|]. case_decide; [done|].
  pose proof (zlen_nonneg (file_content file)).
  case_decide as He.
  { intros ->. destruct He as [->|[? ?]]; [done|]. by rewrite slice_past by lia. }
  rewrite w64_id by (unfold in64; lia).
  assert (∀ length, (∃ io cfg d (m0 m : manager chunkStore) rid r,
        NewManager io cfg d = Some m0 ∧ ChunkSize (m_cfg m0) < 2 ^ 61 ∧
        dir_right file_content (ChunkSize (m_cfg m0)) d ∧ streams (ChunkSize (m_cfg m0)) m0 m ∧
        m_reads m !! rid = Some r ∧ rd_pc r = RDone (Ok data) ∧
        rd_file r = file ∧ rd_offset r = off ∧ rd_length r = length) →
      data = slice (file_content file) off length) as Hrun.
  { intros length (io & cfg & d & m0 & m & rid & r & Hn & Hcs & Hd & Hst & Hr & Hpc & Hf & Ho & Hl).
    destruct (NewManager_served file_content io cfg d m0 m Hn Hcs Hd (streams_served _ _ _ Hst)) as [_ Hc].
    pose proof (rr_pc _ _ _ _ (cw_reads _ _ _ Hc _ _ Hr)) as Hb. rewrite Hpc in Hb. by subst file off length. }
  case_decide as Hclip; intros Hm; apply Hrun in Hm as ->; [|done].
  rewrite w64_id by (unfold in64; lia). unfold slice.
  rewrite !take_ge; [done|rewrite length_drop; unfold zlen in *; lia..].
Qed.

(** ** The mount on both *)
Definition layered `{Sources} (n : Entry) (fh : option entryFileHandle) off len : Prop :=
  (∀ h s data, fh = Some h → streamHandle h = Some s → stream_ReadAt s off len = Ok data →
    ∃ mtm, manager_returns (mkFile (en_FSID n) (en_Size n) mtm) off len data) ∧
  (∀ data, remote_ReadRange (en_FSID n) off len = Ok data → reader_returns (CReadRange (en_FSID n) off len) (Ok data)) ∧
  (∀ data, remote_ReadCachedWindow (en_FSID n) off len = Some data →
    reader_returns (CReadCachedWindow (en_FSID n) off len) (Ok data)).

(** C1: If the HTTP responses the layers below were given carried bytes of the
    file, the cache directory of the stream manager held chunks of the files,
    and the entry has the size of its file, a read of the mount through a stream handle (the stream manager) or
    from a window of the read cache returns the bytes of the file at that range,
    cut at its end, whatever the download concurrency is; and so does a ranged
    download of the remote reader when its downloads are sequential (a
    concurrency of at most 1).  A ranged download whose chunks run concurrently
    returns as many bytes as were asked for, and no more is claimed of them.
    Otherwise the read fails with [EIO]; past the end of a file that has bytes
    it returns nothing and does not fail. *)
Theorem mount_read_end_to_end `{Sources} f n fh off len elapsed :
  hasRemote f = true → en_Size n = zlen (content (en_FSID n)) → 0 ≤ off → off + len < 2 ^ 63 →
  layered n fh off len →
  match (Read f n fh off len elapsed).1.1 with
  | Ok data =>
      (data = slice (content (en_FSID n)) off len ∨ ranged n fh off len data ∧ zlen data = len) ∧
      (sequential → data = slice (content (en_FSID n)) off len)
  | Err e => e = EIO ∧ (zlen (content (en_FSID n)) = 0 ∨ off < zlen (content (en_FSID n)))
  end.
Proof.
  intros Hf Hn H0 Hmax (H1 & H2 & H3). pose proof (zlen_nonneg (content (en_FSID n))).
  pose proof (Read_from f n fh off len elapsed (λ data,
    (data = slice (content (en_FSID n)) off len ∨ ranged n fh off len data ∧ zlen data = len) ∧
    (sequential → data = slice (content (en_FSID n)) off len)) Hf) as Hr.
  destruct (Read f n fh off len elapsed).1.1 as [data|e]; [apply Hr|destruct Hr as [-> Hr]; [..|split; [done|lia]]].
  all: try (intros h s d Hh Hs Hd; destruct (H1 h s d Hh Hs Hd) as [mtm Hm]; apply manager_returns_right in Hm; [by auto|done..]).
  all: try (intros Hpast; rewrite slice_past by lia; by auto).
  all: intros d Hd.
  all: try (destruct (reader_returns_right _ _ (H2 d (proj2 Hd))) as [Hl He]; split; [by right|intros Hs; by apply (He Hs)]).
  all: destruct (reader_returns_right _ _ (H3 d Hd)); by auto.
Qed.
End layers.

(** ** An example: the run of [ManagerDemo], each chunk over HTTP *)
Definition driveContent (_ : string) : bytes := sampleBytes.
Lemma driveContent_size fsid : zlen (driveContent fsid) < 2 ^ 62.
Proof. by vm_compute. Qed.
(** The response to a request for four bytes from [offset] on. *)
Definition rangeResponse (offset : Z) : httpResponse :=
  mkResponse 206 ("bytes " +:+ format_int offset +:+ "-" +:+ format_int (offset + 3) +:+ "/10")
    [(slice sampleBytes offset 4, Some (sentinel_err EOF))].
Definition chunkCall (offset : Z) : list call := [CReadStreamRange "42" offset 4].
Definition chunkRun (offset : Z) : list (@choice env outcome goError) :=
  [once 0; answer_with 0 (slice sampleBytes offset 4); CJoin].
Definition chunkEnd (offset : Z) : rprog (list reply) * Reader :=
  default (calls_run (chunkCall offset), oneReader)
    (play r_objs (chunkRun offset) (calls_run (chunkCall offset)) oneReader).
Lemma chunk_exchange offset :
  offset = 0 ∨ offset = 4 →
  client_exchange driveContent (QReadRange 0 "42" offset 4) (slice sampleBytes offset 4, None).
Proof.
  intros Ho. exists someLink, (Ok (rangeResponse offset)), None.
  split; [|by destruct Ho as [-> | ->]; vm_compute]. intros resp [= <-] start end_ total _ Hp.
  destruct Ho as [-> | ->]; vm_compute in Hp; injection Hp as <- <- <-;
    (split; [vm_compute; reflexivity|]; split; [by right|]; exists []; vm_compute; reflexivity).
Qed.
Lemma chunk_returned offset :
  offset = 0 ∨ offset = 4 →
  reader_returns driveContent True (CReadStreamRange "42" offset 4) (Ok (slice sampleBytes offset 4)).
Proof.
  intros Ho. exists 0%nat, (chunkCall offset), (chunkEnd offset).1, (chunkEnd offset).2, [Ok (slice sampleBytes offset 4)], 0%nat.
  split_and!; [|apply (play_runs r_objs _ (chunkRun offset))|..]; try done.
  - repeat constructor; lia.
  - by destruct Ho as [-> | ->]; vm_compute.
  - pose proof (chunk_exchange offset Ho) as He. split; [done|]. cbn [chunkRun].
    destruct Ho as [-> | ->]; (split; [exact He|split; [done|done]]).
  - by destruct Ho as [-> | ->]; vm_compute.
Qed.
Definition chunk_check (m : manager chunkStore) (l : label) : bool :=
  match l with
  | LAttempt id reply | LHedgeReply id reply =>
      match obj m id with
      | Some t => bool_decide (FSID (t_file t) = "42" ∧ t_length t = 4 ∧ (t_offset t = 0 ∨ t_offset t = 4) ∧
                               reply = Ok (slice sampleBytes (t_offset t) 4))
      | None => true
      end
  | _ => label_check (file_content driveContent) 4 sampleFile m l
  end.
Lemma driveFile_ok : file_ok (file_content driveContent) sampleFile.
Proof. split_and!; try done. intros c [->|[->|[]]]; eauto. Qed.
Lemma chunk_check_label m l : chunk_check m l = true → stream_label driveContent True 4 m l.
Proof.
  destruct l; try (exact (label_check_right _ 4 _ m _ driveFile_ok)); cbn; intros Hl t Ht; rewrite Ht in Hl;
    apply bool_decide_eq_true in Hl as (-> & -> & Ho & ->); exists (Ok (slice sampleBytes (t_offset t) 4));
    (split; [by apply chunk_returned|done]).
Qed.
Definition chunk_labels (ls : list label) (m : manager chunkStore) : option (manager chunkStore) :=
  foldl (λ r l, m ← r; if chunk_check m l then run_label l m else None) (Some m) ls.
Lemma chunk_labels_streams ls m m' : chunk_labels ls m = Some m' → streams driveContent True 4 m m'.
Proof.
  revert m'. induction ls as [|l ls IH] using rev_ind; intros m'.
  { intros [= <-]. constructor. }
  unfold chunk_labels. rewrite foldl_app. fold (chunk_labels ls m). cbn.
  destruct (chunk_labels ls m) as [m1|]; [|done]. cbn.
  destruct (chunk_check m1 l) eqn:Hl; [|done]. unfold run_label. case_decide as He; [|done].
  intros Hp. eapply streams_step; [by apply IH|by apply chunk_check_label|done|done].
Qed.
Definition sampleSlice : bytes := [Byte.x32; Byte.x33; Byte.x34; Byte.x35; Byte.x36; Byte.x37].
Lemma sample_returned : manager_returns driveContent True (mkFile "42" 10 7) 2 6 sampleSlice.
Proof.
  unfold manager_returns. change (readAt_clip (mkFile "42" 10 7) 2 6) with (Ok (E := streamErr) (Some 6)). cbn.
  exists goodIO, sampleConfig, ∅, sampleManager, sampleFinal, 1%nat, sampleRead.
  split_and!; [exact sampleManager_new|by vm_compute| |apply (chunk_labels_streams sampleRun); by vm_compute|by vm_compute..].
  intros k b t _ Hk. by rewrite lookup_empty in Hk.
Qed.
Definition sampleEntry : Entry := mkEntry 0 "42" "0" "/f" "f" 10 false 7 "" 0 0 false.
Definition sampleHandle : option entryFileHandle := Some (mkFileHandle "" (Some 1%nat)).
Definition sampleSources : Sources :=
  {| stream_ReadAt := λ _ off len, if decide (off = 2 ∧ len = 6) then Ok sampleSlice else Err (errors_New "not read");
     remote_ReadRange := λ _ _ _, Err (errors_New "down"); remote_ReadCachedWindow := λ _ _ _, None |}.
Lemma sample_layered : @layered driveContent True sampleSources sampleEntry sampleHandle 2 6.
Proof.
  split_and!; [|done..]. intros h s data [= <-] [= <-] [= <-]. exists 7. exact sample_returned.
Qed.
Lemma mount_read_end_to_end_witness :
  (@Read sampleSources (NewFilesystem true [] "/") sampleEntry sampleHandle 2 6 0).1.1 = Ok sampleSlice ∧
  sampleSlice = slice (driveContent "42") 2 6.
Proof.
  split; [vm_compute; reflexivity|].
  refine (proj2 _ I). exact (@mount_read_end_to_end driveContent driveContent_size True sampleSources (NewFilesystem true [] "/") sampleEntry
    sampleHandle 2 6 0 eq_refl eq_refl ltac:(lia) ltac:(lia) sample_layered).
Defined.
