(* ===== verification/PlaybackEnd.v ===== *)
(** * A GET of the playback proxy, from the HTTP responses up

    [PlaybackProps] serves a range from any reader whose answers are right;
    here the reader is the remote reader on the Baidu client, whose answers
    [EndToEnd.reader_returns] describes. *)
From Stdlib Require Import Ascii.
From S2P Require Import Prelude GoStrings GoErrors GoMonads GoPath ChunkKeys ChunkStore ManagerContent Goroutines ReadCache ReadCacheInv Remote RemoteInv RemoteProps BaiduClient ClientProps ManagerDemo EndToEnd Playback PlaybackProps.

Section playback.
Context (content : string → bytes) (Hsize : ∀ fsid, zlen (content fsid) < 2 ^ 62) (sequential : Prop).
Context {S : Type} `{!RangeReader S} (TypeByExtension : string → string) (entry : entryInfo).
(** Each answer the handler gets is what a [ReadRange] of the remote reader
    returned, among any calls that ran on the reader. *)
Definition remote_answers : Prop := ∀ s off len data s',
  0 ≤ off → 0 < len → off + len ≤ zlen (content (ei_FSID entry)) →
  read_range (ei_FSID entry) off len s = (Ok data, s') →
  reader_returns content sequential (CReadRange (ei_FSID entry) off len) (Ok data).
Lemma remote_answers_right : remote_answers → reads_file entry (content (ei_FSID entry)) sequential.
Proof.
  intros Ha s off len data s' H0 Hl Hend Hr. pose proof (Ha s off len data s' H0 Hl Hend Hr) as Hret.
  destruct (reader_returns_right content Hsize sequential _ _ Hret) as [Hlen He].
  split; [lia|]. intros Hs. rewrite Hlen. by apply He.
Qed.

(** C15: A GET of a file with bytes, of an entry that has its size, on the remote
    reader with a client, ends, and answers the range its header asks for with the status, the lengths and the positions
    that go with it.  The body never has more bytes than announced, and has all
    of them unless a failed read or write was logged: the reader never answers
    with no bytes.  The bytes are those of the file from the start of the range
    on, in order, when the reader's downloads are sequential (a concurrency of
    at most 1) and the HTTP responses it was given carried bytes of the file;
    of downloads cut into concurrent chunks only their number is claimed.  A
    header that asks for no range is refused without reading. *)
Theorem playback_serves_range range s faults :
  remote_answers → ei_Size entry = zlen (content (ei_FSID entry)) → 0 < zlen (content (ei_FSID entry)) →
  let '(out, x) := servePlaybackFile TypeByExtension "GET" range entry
                     (mkExchange s (newResponse <| rs_faults := faults |>)) in
  let file := content (ei_FSID entry) in
  match parseHTTPRange range (zlen file) with
  | Ok (start, end_, partial) =>
      ∃ logged, out = Some logged ∧ served_headers file start end_ partial (ex_response x) ∧
        let body := rs_body (ex_response x) in
        zlen body ≤ end_ - start + 1 ∧ (logged = None → zlen body = end_ - start + 1) ∧
        (sequential → body = slice file start (zlen body))
  | Err e => out = Some None ∧ ex_remote x = s ∧ refused file e (ex_response x)
  end.
Proof.
  intros Ha Hs Hpos. pose proof (Hsize (ei_FSID entry)) as Hz.
  pose proof (serve_file TypeByExtension entry _ sequential (remote_answers_right Ha) Hs ltac:(lia) range s faults Hpos) as H.
  destruct (servePlaybackFile _ _ _ _ _) as [out x]. cbv zeta.
  destruct (parseHTTPRange range _) as [[[start end_] partial]|e]; [|done].
  destruct H as (logged & Ho & Hh & n & [Hn He] & Hle & Hall). exists logged. rewrite Hn.
  split_and!; first [done | lia | exact He].
Qed.
End playback.

(** ** An example: bytes 2 to 4 of a file of ten

    The reader asks for a whole window, and gets the file. *)
Definition demoEntry : entryInfo := mkEntryInfo "42" "/f" "f" 10 false 7 "" "/f".
Definition demoPart : bytes := slice sampleBytes 2 3.
Definition demoCalls : list call := [CReadRange "42" 2 3].
Definition demoChoices : list (@choice env outcome goError) :=
  replicate 7 (once 0) ++ [answer_with 0 sampleBytes] ++ replicate 2 (once 0) ++ [CJoin].
Definition demoEnd : rprog (list reply) * Reader :=
  default (calls_run demoCalls, oneReader) (play r_objs demoChoices (calls_run demoCalls) oneReader).
Definition demoResponse : httpResponse :=
  BaiduClient.mkResponse 206 "bytes 0-9/10" [(sampleBytes, Some (sentinel_err EOF))].
Lemma demo_exchange : client_exchange driveContent (QReadRange 0 "42" 0 8388608) (sampleBytes, None).
Proof.
  exists ClientProps.someLink, (Ok demoResponse), None. split; [|by vm_compute].
  intros resp [= <-] start end_ total _ Hp. vm_compute in Hp. injection Hp as <- <- <-.
  split; [vm_compute; reflexivity|]. split; [by right|]. exists []. vm_compute. reflexivity.
Qed.
Definition demo_asked (q : request) (a : outcome) : Prop :=
  q = QReadRange 0 "42" 0 8388608 ∧ a = (sampleBytes, None).
Lemma demo_runs : runs r_objs demo_asked (calls_run demoCalls) oneReader demoEnd.1 demoEnd.2.
Proof.
  apply (play_runs r_objs demo_asked demoChoices).
  - vm_compute. reflexivity.
  - vm_compute. repeat split.
Qed.
Lemma demo_returned : reader_returns driveContent True (CReadRange "42" 2 3) (Ok demoPart).
Proof.
  exists 0%nat, demoCalls, demoEnd.1, demoEnd.2, [Ok demoPart], 0%nat.
  split_and!; [| |vm_compute; reflexivity|done|done].
  - repeat constructor; lia.
  - eapply runs_mono; [|exact demo_runs]. intros q a [-> ->]. exact demo_exchange.
Qed.
#[local] Instance demoReader : RangeReader unit := λ fsid off len s,
  (if decide (fsid = "42" ∧ off = 2 ∧ len = 3) then Ok demoPart else Err (errors_New "down"), s).
Lemma playback_serves_range_witness :
  remote_answers driveContent True demoEntry ∧
  parseHTTPRange "bytes=2-4" 10 = Ok (2, 4, true) ∧
  ∃ x logged, servePlaybackFile (λ _, "") "GET" "bytes=2-4" demoEntry (mkExchange tt (newResponse <| rs_faults := [] |>))
      = (Some logged, x) ∧
    rs_body (ex_response x) = slice sampleBytes 2 (zlen (rs_body (ex_response x))).
Proof.
  assert (remote_answers driveContent True demoEntry) as Ha.
  { intros s off len data s' _ _ _. unfold read_range, demoReader. case_decide as Hd; [|done].
    destruct Hd as (_ & -> & ->). intros [= <- _]. exact demo_returned. }
  split; [exact Ha|]. assert (parseHTTPRange "bytes=2-4" 10 = Ok (2, 4, true)) as E by (vm_compute; reflexivity).
  split; [exact E|].
  pose proof (playback_serves_range driveContent driveContent_size True (λ _, "") demoEntry "bytes=2-4" tt []
    Ha ltac:(by vm_compute) ltac:(by vm_compute)) as H.
  destruct (servePlaybackFile _ _ _ _ _) as [out x]. cbv zeta in H.
  change (zlen (driveContent (ei_FSID demoEntry))) with 10 in H. rewrite E in H.
  destruct H as (logged & -> & _ & _ & _ & Hb). exists x, logged. split; [done|]. by apply Hb.
Defined.
