(* ===== verification/DirectRedirect.v ===== *)
(** * Redirects and the cookie of a direct download ([newDirectDownloadClient]
      of [src/internal/app/download_bench.go])

    The requests the benchmark's HTTP client sends: the first one and those of
    its redirects, with their headers.  [http.Client] follows redirects as Go
    documents: it asks [CheckRedirect] first, and copies the headers of the
    first request, the [Cookie] only to hosts it deems related. *)
From S2P Require Import Prelude GoStrings GoErrors GoMonads DirectDownload.

Record HttpRequest := mkRequest { rq_URL : string; rq_Range : string; rq_UserAgent : string; rq_Cookie : string }.
#[export] Instance HttpRequest_eta : Eta HttpRequest := λ r,
  mkRequest (rq_URL r) (rq_Range r) (rq_UserAgent r) (rq_Cookie r).

(** The network: the host of a URL, what a server answers (a response, or the
    URL it redirects to), whether [http.Client] copies a cookie to the next host
    after the hosts it has been to, in lower case; and the context and the
    pauses. *)
Class DirectNetwork (N : Type) := {
  net_Hostname : string → option string;
  net_send : HttpRequest → stateM N (result goError (DirectResponse + string));
  net_forwards : list string → string → bool;
  net_ctx : N → option goError;
  net_pause : Z → stateM N (option goError)
}.
(** What was sent, oldest first, and the redirects counted. *)
Record Wire (N : Type) := mkWire { wr_sent : list HttpRequest; wr_redirects : Z; wr_net : N }.
Arguments mkWire {N} _ _ _.
Arguments wr_sent {N} _.
Arguments wr_redirects {N} _.
Arguments wr_net {N} _.
#[export] Instance Wire_eta {N} : Eta (Wire N) := λ w, mkWire (wr_sent w) (wr_redirects w) (wr_net w).

Section client.
Context {N : Type} `{!DirectNetwork N}.
Abbreviation wireM := (stateM (Wire N)).
Definition host (url : string) : string := to_lower (default "" (net_Hostname url)).
Definition userAgent : string := "pan.baidu.com".

(** [client.CheckRedirect]; [via] is what was sent before, oldest first. *)
Definition CheckRedirect (cookie : string) (req : HttpRequest) (via : list HttpRequest)
    : wireM (result goError HttpRequest) := λ w,
  let w := w <| wr_redirects ::= Z.succ |> in
  if decide (10 ≤ zlen via) then (Err (errors_New "重定向次数过多"), w)
  else
    let req := req <| rq_UserAgent := userAgent |> in
    match head via, last via with
    | Some first, Some previous =>
        let req := req <| rq_Range := rq_Range previous |> in
        (Ok (if decide (host (rq_URL req) = host (rq_URL first) ∧ cookie ≠ "") then req <| rq_Cookie := cookie |> else req), w)
    | _, _ => (Ok req, w)
    end.
(** The request of a redirect, before [CheckRedirect] sees it. *)
Definition redirected (first : HttpRequest) (via : list HttpRequest) (location : string) : HttpRequest :=
  first <| rq_URL := location |>
        <| rq_Cookie := if net_forwards (map (λ r, host (rq_URL r)) via) (host location) then rq_Cookie first else "" |>.
(** [None] when the fuel runs out. *)
Fixpoint follow (fuel : nat) (cookie : string) (via : list HttpRequest) (req : HttpRequest)
    : wireM (option (result goError DirectResponse)) :=
  match fuel with
  | O => mret None
  | S fuel =>
      answer ← (λ w, let '(a, n) := net_send req (wr_net w) in
                     (a, w <| wr_sent ::= λ l, l ++ [req] |> <| wr_net := n |>));
      match answer with
      | Err e => mret (Some (Err e))
      | Ok (inl resp) => mret (Some (Ok resp))
      | Ok (inr location) =>
          let via := via ++ [req] in
          next ← CheckRedirect cookie (redirected (default req (head via)) via location) via;
          match next with
          | Err e => mret (Some (Err e))
          | Ok next => follow fuel cookie via next
          end
      end
  end.
(** [client.Do] on the request of [performDirectRange]: ten redirects at most. *)
Definition redirect_fuel : nat := 11.
Definition direct_Do (cookie url range : string) : wireM (option (result goError DirectResponse)) :=
  follow redirect_fuel cookie [] (mkRequest url range userAgent cookie).
#[export] Instance wire_client : DirectClient (Wire N) := {
  client_Do cookie url range := r ← direct_Do cookie url range; mret (default (Err (errors_New "")) r);
  ctx_Err w := net_ctx (wr_net w);
  pause d w := let '(r, n) := net_pause d (wr_net w) in (r, w <| wr_net := n |>)
}.
(** The requests of a whole benchmark: the probe, then the ranges of the
    workers, in the order they are asked for. *)
Definition requests `{!RequestURIs} (o : DirectDownloadBenchOptions) (ranges : list (Z * Z))
    : stateM (Wire N * directDownloadStats) unit :=
  prepared ← prepare_bench net_Hostname o;
  match prepared with
  | Err _ => mret tt
  | Ok (_, finalURL, bo) =>
      foldr (λ r rest, _ ← performDirectRange finalURL bo r.1 r.2; rest) (mret tt) ranges
  end.
End client.
