(* ===== verification/DirectRedirectProps.v ===== *)
(** * Where the cookie of a direct download goes

    Redirects end, and the cookie stays with the host it was given for. *)
From S2P Require Import Prelude GoStrings GoErrors GoMonads DirectDownload DirectRedirect.

Section client.
Context {N : Type} `{!DirectNetwork N}.
Implicit Types (w : Wire N) (req : HttpRequest) (via : list HttpRequest).

(** ** Redirects end *)
Lemma CheckRedirect_Ok cookie req via w next w' :
  CheckRedirect cookie req via w = (Ok next, w') → zlen via < 10 ∧ wr_sent w' = wr_sent w.
Proof. unfold CheckRedirect. case_decide; [done|]. destruct (head via), (last via); intros [= _ <-]; split; (lia || done). Qed.
Lemma CheckRedirect_sent cookie req via w : wr_sent (CheckRedirect cookie req via w).2 = wr_sent w.
Proof. unfold CheckRedirect. case_decide; [done|]. by destruct (head via), (last via). Qed.
(** A result, after ten requests at most. *)
Lemma follow_ends fuel cookie via req w :
  zlen via + Z.of_nat fuel = 11 → zlen via < 10 →
  is_Some (follow fuel cookie via req w).1 ∧
  ∃ sent, wr_sent (follow fuel cookie via req w).2 = wr_sent w ++ sent ∧ zlen via + zlen sent ≤ 10.
Proof.
  revert via req w. induction fuel as [|fuel IH]; intros via req w Hf Hvia; [lia|].
  cbn [follow]. unfold mbind, stateM_bind. destruct (net_send req (wr_net w)) as [a n] eqn:Ha.
  assert (zlen (via ++ [req]) = zlen via + 1) as Hv by (by rewrite zlen_app).
  assert (∃ sent, wr_sent w ++ [req] = wr_sent w ++ sent ∧ zlen via + zlen sent ≤ 10) as Hone
    by (exists [req]; split; [done|]; change (zlen [req]) with 1; lia).
  destruct a as [[resp|location]|e]; [by split|  |by split].
  destruct (CheckRedirect _ _ _ _) as [[next|e] w'] eqn:Hc; cycle 1.
  { pose proof (CheckRedirect_sent cookie (redirected (default req (head (via ++ [req]))) (via ++ [req]) location)
      (via ++ [req]) (w <| wr_sent ::= λ l, l ++ [req] |> <| wr_net := n |>)) as Hs.
    rewrite Hc in Hs. cbn in Hs |- *. rewrite Hs. by split. }
  apply CheckRedirect_Ok in Hc as [Hlt Hs]. cbn in Hs.
  destruct (IH (via ++ [req]) next w' ltac:(lia) Hlt) as (Hr & sent & Hsent & Hle). split; [exact Hr|].
  exists ([req] ++ sent). rewrite Hsent, Hs, <- (assoc_L (++)). split; [done|]. rewrite zlen_app. change (zlen [req]) with 1. lia.
Qed.
Lemma direct_Do_ends cookie url range w :
  is_Some (direct_Do cookie url range w).1 ∧
  ∃ sent, wr_sent (direct_Do cookie url range w).2 = wr_sent w ++ sent ∧ zlen sent ≤ 10.
Proof.
  destruct (follow_ends redirect_fuel cookie [] (mkRequest url range userAgent cookie) w eq_refl ltac:(done))
    as (Hr & sent & Hs & Hl). rewrite zlen_nil in Hl. split; [exact Hr|]. exists sent. split; [exact Hs|lia].
Qed.

(** ** The cookie stays
    A request may carry the cookie to the host it was given for, or to one
    [http.Client] itself copies it to on a way that starts there. *)
Definition may_carry (home : string) req : Prop :=
  rq_Cookie req ≠ "" →
  host (rq_URL req) = home ∨ ∃ way, head way = Some home ∧ net_forwards way (host (rq_URL req)) = true.
Definition starts_home (home cookie : string) req : Prop :=
  (cookie ≠ "" ∨ rq_Cookie req ≠ "") → host (rq_URL req) = home.
Lemma redirect_carries home cookie first via location w next w' :
  starts_home home cookie first → head via = Some first →
  CheckRedirect cookie (redirected first via location) via w = (Ok next, w') → may_carry home next.
Proof.
  intros Hf Hh. unfold CheckRedirect. case_decide; [done|]. rewrite Hh. destruct via as [|f via]; [done|]. injection Hh as ->.
  destruct (last (first :: via)) as [previous|] eqn:Hl; [|by rewrite last_None in Hl].
  intros [= <- _] Hc. case_decide as Hsame; cbn in Hsame, Hc |- *.
  - left. destruct Hsame as [-> Hcookie]. by apply Hf; left.
  - destruct (net_forwards _ _) eqn:Hfw in Hc; [|done]. right. eexists. split; [|exact Hfw]. cbn. f_equal.
    by apply Hf; right.
Qed.
Lemma head_snoc {A} (l : list A) x : head (l ++ [x]) = Some (default x (head l)).
Proof. by destruct l. Qed.
Lemma follow_carries home fuel cookie via req w :
  starts_home home cookie (default req (head via)) → may_carry home req → Forall (may_carry home) (wr_sent w) →
  Forall (may_carry home) (wr_sent (follow fuel cookie via req w).2).
Proof.
  revert via req w. induction fuel as [|fuel IH]; intros via req w Hf Hreq Hw; [done|].
  cbn [follow]. unfold mbind, stateM_bind. destruct (net_send req (wr_net w)) as [a n] eqn:Ha.
  assert (Forall (may_carry home) (wr_sent w ++ [req])) as Hw1 by (apply Forall_app; split; [done|by constructor]).
  destruct a as [[resp|location]|e]; [done|  |done].
  rewrite head_snoc. cbn [default from_option id].
  destruct (CheckRedirect _ _ _ _) as [[next|e] w'] eqn:Hc; cycle 1.
  { pose proof (CheckRedirect_sent cookie (redirected (default req (head via)) (via ++ [req]) location)
      (via ++ [req]) (w <| wr_sent ::= λ l, l ++ [req] |> <| wr_net := n |>)) as Hs.
    rewrite Hc in Hs. cbn in Hs |- *. by rewrite Hs. }
  pose proof (CheckRedirect_Ok _ _ _ _ _ _ Hc) as [_ Hs]. cbn in Hs.
  apply IH; [|by eapply redirect_carries; [|apply head_snoc|exact Hc]|by rewrite Hs].
  rewrite head_snoc. done.
Qed.
Lemma client_Do_carries home cookie url range w :
  (cookie ≠ "" → host url = home) → Forall (may_carry home) (wr_sent w) →
  Forall (may_carry home) (wr_sent (client_Do cookie url range w).2).
Proof.
  intros Ho Hw.
  assert (Forall (may_carry home) (wr_sent (direct_Do cookie url range w).2)) as Hd.
  { apply follow_carries; [|intros ?; left; by apply Ho|done]. intros [?|?]; by apply Ho. }
  unfold client_Do, wire_client, mbind, stateM_bind. by destruct (direct_Do cookie url range w) as [r w'].
Qed.
Lemma performDirectRange_carries home url o offset length s :
  (op_Cookie o ≠ "" → host url = home) → Forall (may_carry home) (wr_sent s.1) →
  Forall (may_carry home) (wr_sent (performDirectRange url o offset length s).2.1).
Proof.
  intros Ho Hs. pose proof (client_Do_carries home (op_Cookie o) url (range_of offset length) s.1 Ho Hs) as Hd.
  unfold performDirectRange, record, Do, mbind, stateM_bind. cbn [fst snd].
  by destruct (client_Do _ _ _ s.1) as [[resp|e] w].
Qed.
Lemma ranges_carry home url o ranges s :
  (op_Cookie o ≠ "" → host url = home) → Forall (may_carry home) (wr_sent s.1) →
  Forall (may_carry home) (wr_sent (foldr (λ r rest, _ ← performDirectRange url o r.1 r.2; rest) (mret tt) ranges s).2.1).
Proof.
  intros Ho. revert s. induction ranges as [|r ranges IH]; intros s Hs; [done|]. cbn. unfold mbind at 1, stateM_bind at 1.
  pose proof (performDirectRange_carries home url o r.1 r.2 s Ho Hs) as Hp.
  destruct (performDirectRange _ _ _ _ s) as [a s1]. by apply IH.
Qed.
Lemma normalize_URL `{!RequestURIs} o o' :
  normalizeDirectDownloadOptions o = Ok o' → op_URL o' = trim_space (op_URL o).
Proof. unfold normalizeDirectDownloadOptions. cbv zeta. repeat (case_decide || case_match); try done. by intros [= <-]. Qed.
Lemma same_host first second :
  sameDirectDownloadHost net_Hostname first second = true → host second = host first.
Proof.
  unfold sameDirectDownloadHost, host. destruct (net_Hostname first), (net_Hostname second); try done. cbn.
  by intros ->%bool_decide_eq_true.
Qed.
End client.

(** C25: Wherever servers redirect to, in the probe or in the downloads that
    follow it, a request carries the cookie only to the host of the URL the
    cookie was given with, or to a host Go's HTTP client itself forwards
    cookies to on a way from there. *)
Theorem cookie_stays_with_host {N} `{!DirectNetwork N, !RequestURIs} o ranges w stats :
  wr_sent w = [] →
  Forall (may_carry (host (trim_space (op_URL o)))) (wr_sent (requests o ranges (w, stats)).2.1).
Proof.
  intros Hw. unfold requests, prepare_bench, probeDirectDownload, mbind, stateM_bind.
  destruct (normalizeDirectDownloadOptions o) as [o'|e] eqn:Hn; cycle 1.
  { change (Forall (may_carry (host (trim_space (op_URL o)))) (wr_sent w)). by rewrite Hw. }
  apply normalize_URL in Hn as <-.
  pose proof (performDirectRange_carries (host (op_URL o')) (op_URL o') o' 0 1 (w, stats) (λ _, eq_refl)) as Hp.
  destruct (performDirectRange _ _ _ _ (w, stats)) as [r s1]. cbn in Hp |- *. rewrite Hw in Hp. specialize (Hp (Forall_nil_2 _)).
  destruct r as [[total finalURL]|e]; [|done]. case_decide; [done|]. apply ranges_carry; [|done].
  destruct (sameDirectDownloadHost _ _ _) eqn:Hs; [|done]. intros _. by apply same_host.
Qed.

(** ** An example: the probe is redirected to another host *)
#[local] Instance demoURIs : RequestURIs := λ _, Some ("https", "a.example").
Definition demoResponse : DirectResponse := mkDirectResponse 206 "HTTP/1.1" 1 1 "bytes 0-0/5" 1 [Byte.x61] None "https://b.example/f".
#[local] Instance demoNetwork : DirectNetwork unit :=
  {| net_Hostname := λ url, if decide (url = "https://a.example/f") then Some "A.example" else Some "b.example";
     net_send := λ req n, (if decide (rq_URL req = "https://a.example/f") then Ok (inr "https://b.example/f")
                           else Ok (inl demoResponse), n);
     net_forwards := λ _ _, false; net_ctx := λ _, None; net_pause := λ _ n, (None, n) |}.
Definition demoOptions : DirectDownloadBenchOptions := mkOptions " https://a.example/f" "BDUSS=1" 0 0 0 "" 0 0.
Definition demoWire : Wire unit := mkWire [] 0 tt.
Definition demoSent : list HttpRequest :=
  wr_sent (requests demoOptions [(0, 1)] (demoWire, newDirectDownloadStats)).2.1.
Lemma demoSent_requests :
  map (λ r, (rq_URL r, rq_Cookie r)) demoSent =
  [("https://a.example/f", "BDUSS=1"); ("https://b.example/f", ""); ("https://b.example/f", "")].
Proof. vm_compute. reflexivity. Qed.
Lemma cookie_stays_with_host_witness :
  length demoSent = 3%nat ∧ Forall (may_carry (host (trim_space (op_URL demoOptions)))) demoSent.
Proof.
  split; [vm_compute; reflexivity|].
  exact (cookie_stays_with_host demoOptions [(0, 1)] demoWire newDirectDownloadStats eq_refl).
Defined.
